(* ===== verification/_CoqProject ===== *)
-Q . S2P
Prelude.v
Uuid.v
Text.v
Calendar.v
Schema.v
Partitions.v
Fl.v
Pool.v
Migrate.v
Password.v
Jobs.v
Sched.v
Cron.v
Archiver.v
Worker.v
Api.v
ApiJobs.v
ApiAdmin.v
Accounts.v
Views.v
Stats.v
Detail.v
Ai.v
Summaries.v
Rollup.v
Stream.v
Cascade.v
GoLogic.v
System.v
Fixture.v
Migrations.v
TestDb.v
Diagram.v
Core.v
Outbox.v
Daemons.v
Programs.v
Evolution.v
Slots.v
Claims.v
Leases.v
Locks.v
Executions.v
Once.v
Capacity.v
Interleaving.v
Fencing.v
Admission.v
ClaimOrder.v
Graph.v
Reports.v
Progress.v
Reaping.v
Batch.v
Workers.v
Archiving.v
Ticks.v
Access.v
Auditing.v
Pages.v
Health.v
Retention.v
Streaming.v
Metrics.v
SummaryCache.v
Minutes.v
Sessions.v
Removal.v
Idempotency.v
Sweeps.v
Recovery.v
Lifecycle.v
Findings.v
Guarantees.v
TestData.v
