(* ===== verification/Prelude.v ===== *)
(** * Fenceline: a job scheduler on Postgres

    Fenceline keeps jobs in Postgres.  Clients submit them over an HTTP API
    (internal/api), workers claim them from queues, run them and report
    (internal/worker, on top of internal/jobs), a scheduler promotes, reaps, opens
    and closes circuit breakers, materializes cron schedules, maintains the
    partitions, rolls up the minutes and keeps summaries of the failures
    (internal/scheduler, internal/ai), an archiver moves what has ended
    (internal/archiver).  The processes share nothing but the database, and much of
    the program is SQL: the statements of the Go files and the functions, triggers
    and constraints of migrations/.  What makes it correct is the fence: every claim
    of a job raises its fence, and a report is accepted under the current fence only.

    ** How the program is modelled

    A statement is a [sql A], a function from the database to an sqlstate or a value
    and a new database: it is atomic, and what it did before an error is undone.  A
    Go function is a [go A] over a [World] (Pool): it makes calls, each of which runs
    in an environment (time, random draw, fresh ids, rows locked by others), after
    the work of the other processes ([c_other]) and under a fault: none, the call
    fails before the server ran it, or it fails after the server committed it.  A
    transaction sees a snapshot and is rolled back unless it is committed.  So a
    theorem about all worlds is about all interleavings of calls, all failures and
    all lost answers.  [quiet] is a world without either.  [op] (System) is the type
    of the operations, [reachable] what they make of a database.

    - Prelude, Text, Calendar: record update, the error-and-state monad and its
      Hoare triples, lemmas on filters and counts; what the code uses of the packages
      strings, strconv, base64, fmt and time.
    - Uuid: fl.uuidv7, the ids of the rows (migrations/001).
    - Schema: enums, rows, tables, checks, indexes, the trigger [jobs_fsm]
      (migrations/001 to 005, 016, 020).  Partitions: fl.ensure_partitions and
      fl.drop_partitions_before (006).  Fl: the functions of the schema fl in their
      last version (007, 014, 021, 025, 027, 028, 030).  Migrate: the runner of the
      migrations (internal/db/migrate.go, cmd/migrate).
    - Pool: pgx and its faults.  Jobs: internal/jobs.  Sched, Cron, Rollup,
      Summaries: the sweeps of internal/scheduler.  Archiver: internal/archiver.
      Worker: internal/worker, with [wstep] and [wrun] for the goroutines of [Run].
      Ai: internal/ai.  Daemons: the loops of the scheduler and of the archiver, the
      listener of a worker.  Programs: internal/db/db.go and cmd/.  Diagram:
      cmd/diagram.
    - Api (respond.go, problem.go, authz.go), ApiJobs (jobs.go, batches.go, dlq.go),
      ApiAdmin (queues.go, policies.go, schedules.go), Password, Accounts (auth.go,
      orgs.go, projects.go), Views (pagination.go, query.go and the lists), Stats
      (stats.go, health.go), Detail ([getJob], failures.go), Stream (stream.go),
      Summaries (summary.go, 029), Cascade (the deletions).  System: the routes of
      server.go and the other operations.  Metrics: the views of the monitor (026).
    - TestDb (testdb.go, clock.go), TestData (fixtures.go): what the tests start from,
      internal/testdb; with fl.now() and its settings.
    - GoLogic: triples for Go functions: what is kept whatever fails ([go_keeps],
      [tx_hoare], [tx_body]) and what goes through when nothing does ([lands]).
      Fixture: a small database to run the definitions on.

    ** What the theorems show

    - Guarantees, of every reachable database: the concurrency cap (also with
      claims that overlap, Interleaving), counters that never fall below the slots
      in use, one completion per job, leases that match their owners, jobs that only
      move along the state machine and keep their work, rows that satisfy the
      constraints, one job per tick, the invariants the tests check (TestData: from
      whatever fixtures of internal/testdb they start), and that every
      job is a fenced lock (Locks): the services refine an abstract machine with a
      lock per job.  The lemmas are in Core (what an invariant has to satisfy),
      Evolution, Slots, Claims, Leases, Executions, Once and Capacity.  Daemons: the
      loops of the scheduler lead to reachable databases, whatever fails in them.
    - Fencing: a stale token cannot write.  Admission: what an admission grants, the
      rate limit, the single probe, that room is used.  ClaimOrder: which jobs a
      claim takes.
    - Reports, Progress: what a report does on every branch, and that the owner's
      report is accepted.  Batch: a batch is its single reports.  Reaping, Sweeps:
      the reaper and the promoter leave nothing behind, reconciliation is exact.
      Recovery: both together bring the job of a dead worker back into its queue, or
      to the dead letters.  Lifecycle: a job that is ready is claimed, started and
      completed, the best one first.  Metrics: what the views say of the reaper, of the fence
      and of the statistics.
    - Graph: the cascade over dependents is the transitive closure; the dependencies
      stay acyclic.  Idempotency: a repeated submission returns the first job.
    - Workers: the accounts of a worker over any run.  Archiving: no row is lost,
      and what is due is moved.  Ticks: which ticks fire.  Retention: what the
      maintenance drops and creates, and that a reader of the feed is told.
    - Streaming: a stream delivers the events of its project after its position
      without a gap, to members only, and catches up; the hub is the set of the open
      streams.  It rests on Outbox: the events only grow, by ascending ids.
      SummaryCache: a pass leaves the summaries current.  Minutes: the roll-up.
      Migrations: interrupted runs converge to the same schema.  TestDb: a test gets
      a database of its own with the whole schema, and its own clock.  Uuid: the ids
      are version 7, and sort by the millisecond they were made in.
    - Access: what [guard] decides, and that no route or deletion changes anything
      for a caller who is not entitled.  Auditing: no change in a
      project goes unaudited.  Sessions: sign-up to sign-out, and what the audit log
      leaves out.  Pages: cursors round-trip, the pages are
      all of the list.  Health: the health of a project is the statistics of its
      queues.  Removal: what deletions take away, when they are refused, that they
      end.  Findings: runs that part from the documentation.

    ** Bounds

    The catch-up loop of [Materialize] stops by itself after 100000 ticks
    ([ticks_fuel] is one more); the recursive queries take a round per dependency at
    most ([rounds], Graph shows that it is enough); a report is tried three times and
    a transaction five, as in the code; the triggers of a deletion fire in four
    rounds ([deletion_rounds]); [ensure_partitions] takes a turn per day.  The loop
    of the archiver ends after a batch more than there are jobs to move
    ([archiver_drains] shows that more fuel changes nothing); the pump of a stream
    goes on for good, and its theorems are for every number of turns.  The remaining
    recursion is on lists.

    Timestamps are microseconds and durations nanoseconds, in Z; int and bigint
    columns raise 22003 outside their range; numeric columns, rates and percentiles
    are exact rationals.  Texts are ASCII but for the runes of [clip]; the session's
    time zone is UTC.  google/uuid, json, sha256, md5, argon2, time zones, cron
    expressions and the collation are parameters ([Externals]), with hypotheses where
    a theorem needs one; so are the answers of the language model, the websocket of a
    stream, what Postgres makes of the text of a migration, and the driver.

    [Maintain] and the deletions are not operations of [reachable]: they take events
    and jobs away, and have theorems of their own.  The partition of the day of a new
    event or log line is taken to exist.

    ** Not modelled

    The log of the services, contexts and timers but as choices of the environment
    (the waits between two turns of a loop take no time), signals and the shutdown of
    the programs, the settings of the request to the language model, a migration or a
    template that waits for the lock of another run, and the check on the stored size
    of a payload (it depends on how Postgres compresses a value).  Versions of
    functions that a later migration replaces, indexes that are not unique and the
    settings of the storage have no effect on what the statements answer.  The browser
    client (web/) is a client of the API.  What is left of the Go code is glue:
    scanning rows into structs, dereferencing with a default, sleeping. *)

From Stdlib Require Export QArith Qround Qminmax Lqa ZArith Lia.
From stdpp Require Export base gmap strings list sorting fin_maps numbers option.

#[global] Open Scope Z_scope.

(** ** Scalars

    [uuid] is the 128-bit value of a uuid, so that [N.le] is the byte order
    Postgres sorts by; [uuid.Nil] is 0.  A [timestamptz] is a number of
    microseconds since an epoch, a Go [time.Duration] a number of nanoseconds. *)

Abbreviation uuid := N (only parsing).
Abbreviation timestamp := Z (only parsing).
Abbreviation duration := Z (only parsing).

Definition uuid_Nil : uuid := 0%N.

(** [int] and [bigint] columns: a value outside the range raises 22003. *)
Definition in_int4 (z : Z) : bool := (-2147483648 <=? z) && (z <=? 2147483647).
Definition in_int8 (z : Z) : bool :=
  (-9223372036854775808 <=? z) && (z <=? 9223372036854775807).

(** [make_interval(secs => d.Seconds())]: a Go duration, in nanoseconds, as an
    interval in microseconds, rounded to nearest with ties to even. *)
Definition interval_of (d : duration) : Z :=
  let q := d / 1000 in
  let r := d mod 1000 in
  if r <? 500 then q else if 500 <? r then q + 1 else if Z.even q then q else q + 1.

(** ** Record update

    [r <| f := v |>] is [r] with field [f] set to [v].  The setter of a field is
    built from the eta-expansion of its record. *)

Class Eta (R : Type) := eta : R → R.
Class Setter {R T : Type} (proj : R → T) := over : (T → T) → R → R.
Arguments over {R T} proj {_} f r.

Ltac build_setter proj :=
  match type of proj with
  | ?R → ?T =>
    let inst := constr:(_ : Eta R) in
    let body := eval red in inst in
    let abs := eval pattern proj in body in
    match abs with ?g _ => exact (λ f : T → T, g (λ r : R, f (proj r))) end
  end.

#[export] Hint Extern 0 (Setter ?p) => build_setter p : typeclass_instances.

Declare Scope record_scope.
Delimit Scope record_scope with rec.
#[global] Open Scope record_scope.
Notation "r <| f := v |>" := (over f (λ _, v) r)
  (at level 1, f at next level, v at level 200, format "r <| f  :=  v |>") : record_scope.

(** ** The error-and-state monad

    [tx S E A] is a computation over a state [S] that ends in an error of [E],
    and then has no effect, or in a value with the next state: what one SQL
    statement or one PL/pgSQL function is. *)

Definition tx (S E A : Type) : Type := S → E + (A * S).

#[export] Instance tx_ret S E : MRet (tx S E) := λ A a s, inr (a, s).
#[export] Instance tx_bind S E : MBind (tx S E) := λ A B f m s,
  match m s with inl e => inl e | inr (a, s') => f a s' end.

Definition raise {S E A} (e : E) : tx S E A := λ _, inl e.
Definition gets {S E A} (f : S → A) : tx S E A := λ s, inr (f s, s).
Definition modify {S E} (f : S → S) : tx S E unit := λ s, inr (tt, f s).

Fixpoint foreach {S E B} (l : list B) (f : B → tx S E unit) : tx S E unit :=
  match l with
  | [] => mret tt
  | x :: l' => f x ≫= λ _, foreach l' f
  end.

Fixpoint traverse {S E A B} (l : list B) (f : B → tx S E A) : tx S E (list A) :=
  match l with
  | [] => mret []
  | x :: l' => f x ≫= λ a, traverse l' f ≫= λ r, mret (a :: r)
  end.

(** ** Hoare triples: from a state of [P], [m] fails or ends in [Q]. *)

Definition hoare {S E A} (P : S → Prop) (m : tx S E A) (Q : A → S → Prop) : Prop :=
  ∀ s, P s → match m s with inl _ => True | inr (a, s') => Q a s' end.

(** [m] keeps [P]. *)
Definition keeps {S E A} (P : S → Prop) (m : tx S E A) : Prop :=
  hoare P m (λ _, P).

(** ** Counting the rows of a table *)

Definition mcount {V} (f : V → bool) (m : gmap uuid V) : Z :=
  Z.of_nat (size (filter (λ kv : uuid * V, f kv.2 = true) m)).

(** ** Rows of a table in the order of a query: the rows that satisfy [f],
    sorted by [R]. *)

Definition select {K V} `{Countable K} (f : K → V → bool) (m : gmap K V) : list (K * V) :=
  filter (λ kv : K * V, f kv.1 kv.2 = true) (map_to_list m).

(** ** Lemmas: Hoare triples *)

Create HintDb fl.

Lemma tx_bind_inv {S E A B} (m : tx S E A) (f : A → tx S E B) s b s' :
  (m ≫= f) s = inr (b, s') → ∃ a s1, m s = inr (a, s1) ∧ f a s1 = inr (b, s').
Proof. unfold mbind, tx_bind. destruct (m s) as [|[a s1]]; [done|]. eauto. Qed.

Section hoare.
Context {S E : Type}.
Implicit Types P : S → Prop.

Lemma hoare_ret {A} P (a : A) (Q : A → S → Prop) :
  (∀ s, P s → Q a s) → hoare P (mret a : tx S E A) Q.
Proof. intros H s Hs. by apply H. Qed.

Lemma hoare_raise {A} P (e : E) (Q : A → S → Prop) : hoare P (raise e) Q.
Proof. by intros s _. Qed.

Lemma hoare_gets {A} P (f : S → A) (Q : A → S → Prop) :
  (∀ s, P s → Q (f s) s) → hoare P (gets f : tx S E A) Q.
Proof. intros H s Hs. by apply H. Qed.

Lemma hoare_modify P (f : S → S) (Q : unit → S → Prop) :
  (∀ s, P s → Q tt (f s)) → hoare P (modify f : tx S E unit) Q.
Proof. intros H s Hs. by apply H. Qed.

Lemma hoare_bind {A B} P (m : tx S E A) (R : A → S → Prop) (f : A → tx S E B) Q :
  hoare P m R → (∀ a, hoare (R a) (f a) Q) → hoare P (m ≫= f) Q.
Proof.
  intros Hm Hf s Hs. unfold mbind, tx_bind. specialize (Hm s Hs).
  destruct (m s) as [e|[a s']]; [done|]. by apply Hf.
Qed.

Lemma hoare_conseq {A} P P' (m : tx S E A) (Q Q' : A → S → Prop) :
  hoare P' m Q' → (∀ s, P s → P' s) → (∀ a s, Q' a s → Q a s) → hoare P m Q.
Proof.
  intros Hm HP HQ s Hs. specialize (Hm s (HP s Hs)).
  destruct (m s) as [e|[a s']]; auto.
Qed.

Lemma hoare_inv {A} P (m : tx S E A) Q s a s' :
  hoare P m Q → P s → m s = inr (a, s') → Q a s'.
Proof. intros Hm Hs Hr. specialize (Hm s Hs). by rewrite Hr in Hm. Qed.

Lemma hoare_foreach {B} (I : list B → S → Prop) (l : list B) (f : B → tx S E unit) :
  (∀ x l', hoare (I (x :: l')) (f x) (λ _, I l')) →
  hoare (I l) (foreach l f) (λ _, I []).
Proof.
  intros Hf. induction l as [|x l IH]; simpl.
  - by apply hoare_ret.
  - eapply hoare_bind; [apply Hf|]. intros []. exact IH.
Qed.

Lemma hoare_traverse {A B} (I : nat → list B → S → Prop) n (l : list B) (f : B → tx S E A) :
  (∀ k x l', hoare (I k (x :: l')) (f x) (λ _, I (Datatypes.S k) l')) →
  hoare (I n l) (traverse l f) (λ out s, I (n + length out)%nat [] s ∧ length out = length l).
Proof.
  intros Hf. revert n. induction l as [|x l IH]; intros n; simpl.
  - apply hoare_ret. intros s Hs. simpl. by rewrite Nat.add_0_r.
  - eapply hoare_bind; [apply Hf|]. intros a. eapply hoare_bind; [apply IH|]. intros r.
    apply hoare_ret. intros s [Hs Hl]. simpl. rewrite Nat.add_succ_r. split; [exact Hs|by rewrite Hl].
Qed.

Lemma hoare_seq {A B} P (m : tx S E A) (f : A → tx S E B) Q :
  keeps P m → (∀ a, hoare P (f a) Q) → hoare P (m ≫= f) Q.
Proof. apply hoare_bind. Qed.

(** Reading the state: the value read is the one the state has. *)
Lemma hoare_read {A B} P (g : S → A) (f : A → tx S E B) Q :
  (∀ a, hoare (λ s, P s ∧ g s = a) (f a) Q) → hoare P (gets g ≫= f) Q.
Proof. intros Hf s Hs. unfold mbind, tx_bind, gets. by apply (Hf (g s)). Qed.

(** What every state of [P] implies may be assumed. *)
Lemma hoare_assume {A} (φ : Prop) P (m : tx S E A) Q :
  (∀ s, P s → φ) → (φ → hoare P m Q) → hoare P m Q.
Proof. intros Hφ Hm s Hs. by apply (Hm (Hφ s Hs)). Qed.

Lemma hoare_and {A} P P' (m : tx S E A) Q Q' :
  hoare P m Q → hoare P' m Q' → hoare (λ s, P s ∧ P' s) m (λ a s, Q a s ∧ Q' a s).
Proof.
  intros H H' s [Hs Hs']. specialize (H s Hs). specialize (H' s Hs').
  destruct (m s) as [|[a s']]; [done|]. by split.
Qed.

Lemma hoare_weaken {A} P P' (m : tx S E A) Q :
  (∀ s, P s → P' s) → hoare P' m Q → hoare P m Q.
Proof. intros HP Hm s Hs. by apply Hm, HP. Qed.

Lemma hoare_post {A} P (m : tx S E A) (Q Q' : A → S → Prop) :
  (∀ a s, Q' a s → Q a s) → hoare P m Q' → hoare P m Q.
Proof. intros HQ Hm. by eapply hoare_conseq. Qed.

Lemma keeps_ret {A} P (a : A) : keeps P (mret a : tx S E A).
Proof. by apply hoare_ret. Qed.

Lemma keeps_raise {A} P (e : E) : keeps P (raise e : tx S E A).
Proof. apply hoare_raise. Qed.

Lemma keeps_gets {A} P (f : S → A) : keeps P (gets f : tx S E A).
Proof. by apply hoare_gets. Qed.

Lemma keeps_modify P (f : S → S) : (∀ s, P s → P (f s)) → keeps P (modify f : tx S E unit).
Proof. intros H. by apply hoare_modify. Qed.

Lemma keeps_bind {A B} P (m : tx S E A) (f : A → tx S E B) :
  keeps P m → (∀ a, keeps P (f a)) → keeps P (m ≫= f).
Proof. intros Hm Hf. eapply hoare_bind; [exact Hm|exact Hf]. Qed.

Lemma keeps_foreach {B} P (l : list B) (f : B → tx S E unit) :
  (∀ x, keeps P (f x)) → keeps P (foreach l f).
Proof. intros Hf. apply (hoare_foreach (λ _, P)). intros x _. apply Hf. Qed.

Lemma keeps_traverse {A B} P (l : list B) (f : B → tx S E A) :
  (∀ x, keeps P (f x)) → keeps P (traverse l f).
Proof.
  intros Hf. induction l as [|x l IH]; simpl; [apply keeps_ret|].
  apply keeps_bind; [apply Hf|]. intros a. apply keeps_bind; [exact IH|].
  intros r. apply keeps_ret.
Qed.

Lemma keeps_inv {A} P (m : tx S E A) s a s' :
  keeps P m → P s → m s = inr (a, s') → P s'.
Proof. intros Hm. by apply (hoare_inv P m (λ _, P)). Qed.

End hoare.

#[export] Hint Resolve keeps_ret keeps_raise keeps_gets keeps_bind keeps_foreach
  keeps_traverse : fl.

(** Splits a monadic program into its primitive steps, leaving the ones that
    the hint database does not close. *)
Ltac keeps_step :=
  match goal with
  | |- keeps _ (mret _) => apply keeps_ret
  | |- keeps _ (raise _) => apply keeps_raise
  | |- keeps _ (gets _) => apply keeps_gets
  | |- keeps _ (_ ≫= _) => apply keeps_bind; [|intros ?]
  | |- keeps _ (foreach _ _) => apply keeps_foreach; intros ?
  | |- keeps _ (traverse _ _) => apply keeps_traverse; intros ?
  | |- keeps _ (match ?x with _ => _ end) => destruct x
  | |- keeps _ _ => solve [auto with fl]
  end.
Ltac as_keeps :=
  lazymatch goal with |- hoare ?P ?m _ => change (keeps P m) | _ => idtac end.
Ltac keeps := as_keeps; repeat keeps_step.

(** ** Lemmas: counting *)

Section mcount.
Context {V : Type}.
Implicit Types (f : V → bool) (m : gmap uuid V).

Lemma mcount_nonneg f m : 0 ≤ mcount f m.
Proof. unfold mcount. lia. Qed.

Lemma mcount_insert_new f m k x :
  m !! k = None → mcount f (<[k:=x]> m) = mcount f m + Z.b2z (f x).
Proof.
  intros Hk. unfold mcount. destruct (f x) eqn:Hf; simpl.
  - rewrite map_filter_insert_True by done. rewrite map_size_insert_None; [lia|].
    apply map_lookup_filter_None. by left.
  - rewrite map_filter_insert_False by (simpl; congruence).
    rewrite delete_id by done. lia.
Qed.

Lemma mcount_delete f m k x :
  m !! k = Some x → mcount f (delete k m) = mcount f m - Z.b2z (f x).
Proof.
  intros Hk. rewrite <- (insert_delete_id m k x Hk) at 2.
  rewrite mcount_insert_new by apply lookup_delete_eq. lia.
Qed.

Lemma mcount_insert f m k x y :
  m !! k = Some x → mcount f (<[k:=y]> m) = mcount f m - Z.b2z (f x) + Z.b2z (f y).
Proof.
  intros Hk. rewrite <- insert_delete_eq.
  rewrite mcount_insert_new by apply lookup_delete_eq. by rewrite (mcount_delete f m k x Hk).
Qed.

Lemma mcount_ext f g m :
  (∀ k x, m !! k = Some x → f x = g x) → mcount f m = mcount g m.
Proof.
  intros H. unfold mcount. do 2 f_equal. apply map_filter_ext. intros k x Hk. simpl.
  by rewrite (H k x Hk).
Qed.

Lemma mcount_zero f m : (∀ k x, m !! k = Some x → f x = false) → mcount f m = 0.
Proof.
  intros H. unfold mcount. assert (filter (λ kv : uuid * V, f kv.2 = true) m = ∅) as ->; [|done].
  apply map_eq. intros k. rewrite lookup_empty, map_lookup_filter_None. right.
  intros x Hx. simpl. by rewrite (H k x Hx).
Qed.

Lemma mcount_pos f m k x : m !! k = Some x → f x = true → 0 < mcount f m.
Proof.
  intros Hk Hf. pose proof (mcount_nonneg f (delete k m)).
  rewrite (mcount_delete f m k x Hk), Hf in H. simpl in H. lia.
Qed.

Lemma mcount_le f g m :
  (∀ k x, m !! k = Some x → f x = true → g x = true) → mcount f m ≤ mcount g m.
Proof.
  intros H. unfold mcount. apply Nat2Z.inj_le, map_subseteq_size, map_filter_subseteq_ext.
  intros k x Hk. simpl. by apply (H k).
Qed.

End mcount.

Lemma elem_of_select {K V} `{Countable K} (f : K → V → bool) (m : gmap K V) k v :
  (k, v) ∈ select f m ↔ m !! k = Some v ∧ f k v = true.
Proof.
  unfold select. rewrite list_elem_of_filter, elem_of_map_to_list. simpl. tauto.
Qed.

Lemma NoDup_select {K V} `{Countable K} (f : K → V → bool) (m : gmap K V) :
  NoDup (select f m).*1.
Proof.
  unfold select. eapply sublist_NoDup; [apply (NoDup_fst_map_to_list m)|].
  apply fmap_sublist, sublist_filter.
Qed.

Lemma elem_of_take_all {A} (x : A) n l : x ∈ take n l → x ∈ l.
Proof. intros Hx. eapply elem_of_sublist; [exact Hx|apply sublist_take]. Qed.

(** The rows of [select ... order by ... limit n]. *)
Lemma elem_of_limit {K V} `{Countable K} (R : relation (K * V)) `{!RelDecision R}
    (f : K → V → bool) (m : gmap K V) n k v :
  (k, v) ∈ take n (merge_sort R (select f m)) → m !! k = Some v ∧ f k v = true.
Proof.
  intros Hin%elem_of_take_all. rewrite merge_sort_Permutation in Hin. by apply elem_of_select.
Qed.

Lemma elem_of_limit_fst {K V} `{Countable K} (R : relation (K * V)) `{!RelDecision R}
    (f : K → V → bool) (m : gmap K V) n k :
  k ∈ take n (merge_sort R (select f m)).*1 → ∃ v, m !! k = Some v ∧ f k v = true.
Proof.
  intros ([k' v] & -> & Hin)%elem_of_take_all%list_elem_of_fmap.
  rewrite merge_sort_Permutation in Hin. apply elem_of_select in Hin as [? ?]. eauto.
Qed.

(** ** Filters *)

Section filters.
Context {A : Type}.

Lemma filter_none (P : A → Prop) `{!∀ x, Decision (P x)} (l : list A) : (∀ x, x ∈ l → ¬ P x) → filter P l = [].
Proof.
  induction l as [|x l IH]; intros HP; [done|]. rewrite filter_cons_False by (apply HP; by left).
  apply IH. intros y Hy. apply HP. by right.
Qed.

Lemma filter_every (P : A → Prop) `{!∀ x, Decision (P x)} (l : list A) : (∀ x, x ∈ l → P x) → filter P l = l.
Proof.
  induction l as [|x l IH]; intros HP; [done|]. rewrite filter_cons_True by (apply HP; by left).
  f_equal. apply IH. intros y Hy. apply HP. by right.
Qed.

Lemma filter_iff_in (P Q : A → Prop) `{!∀ x, Decision (P x), !∀ x, Decision (Q x)} (l : list A) :
  (∀ x, x ∈ l → P x ↔ Q x) → filter P l = filter Q l.
Proof.
  intros Hl. induction l as [|x l IH]; [done|]. rewrite !filter_cons, IH by (intros; apply Hl; by right).
  specialize (Hl x (list_elem_of_here _ _)). repeat case_decide; tauto.
Qed.

Lemma omap_step {B} (f : A → option B) x l :
  omap f (x :: l) = match f x with Some y => y :: omap f l | None => omap f l end.
Proof. done. Qed.

Lemma length_omap {B} (f : A → option B) (l : list A) : (length (omap f l) ≤ length l)%nat.
Proof. induction l as [|x l IH]; [done|]. rewrite omap_step. destruct (f x); simpl; lia. Qed.

Lemma filter_fmap_iff {B} (f : A → B) (P : B → Prop) (Q : A → Prop)
    `{!∀ x, Decision (P x), !∀ x, Decision (Q x)} (l : list A) :
  (∀ x, Q x ↔ P (f x)) → filter P (f <$> l) = f <$> filter Q l.
Proof.
  intros Hl. induction l as [|x l IH]; [done|]. csimpl. rewrite !filter_cons. specialize (Hl x).
  repeat case_decide; csimpl; by rewrite ?IH; tauto.
Qed.

End filters.
