(* ===== verification/Uuid.v ===== *)
(** * fl.uuidv7 (migrations/001_types.sql): the ids of the rows

    A [bytea] is the list of its bytes.  [gen_random_uuid] is not part of the
    repository: its bytes are an argument, with what RFC 9562 says of a version 4
    uuid as the hypothesis [version4]. *)

From S2P Require Import Prelude.
From stdpp Require Import list.

#[local] Open Scope list_scope.
#[local] Open Scope Z_scope.

(** ** What Postgres does to bytes *)

(** The number a list of bytes is, the first one being the highest: [encode(b,
    'hex')::uuid] read as a number. *)
Definition number (b : list Z) : Z := foldl (λ n x, 256 * n + x) 0 b.

(** The [n] lowest bytes of a number. *)
Fixpoint bytes_of (n : nat) (z : Z) : list Z :=
  match n with O => [] | S n => bytes_of n (Z.shiftr z 8) ++ [Z.land z 255] end.

Definition int8send (z : Z) : list Z := bytes_of 8 z.

(** [overlay(b placing p from 1 for n)] *)
Definition overlay_head (b p : list Z) (n : nat) : list Z := p ++ drop n b.

(** [set_bit(b, n, 1)]: within a byte the bits are counted from the lowest. *)
Definition set_bit (b : list Z) (n : nat) : list Z :=
  alter (λ x, Z.lor x (Z.shiftl 1 (Z.of_nat (n mod 8)))) (n / 8)%nat b.

(** [clock] is [clock_timestamp()], in microseconds since 1970, and [random] what
    [uuid_send(gen_random_uuid())] is. *)
Definition uuidv7 (clock : Z) (random : list Z) : uuid :=
  Z.to_N (number (set_bit (set_bit
    (overlay_head random (drop 2 (int8send (clock / 1000))) 6) 52) 53)).

(** ** Lemmas *)

Definition is_byte (x : Z) : Prop := 0 ≤ x < 256.

(** Sixteen bytes, the version 4 in the upper half of the seventh and the variant
    2 in the upper quarter of the ninth. *)
Record version4 (b : list Z) : Prop := {
  v4_length : length b = 16%nat;
  v4_bytes : Forall is_byte b;
  v4_version : default 0 (b !! 6%nat) / 16 = 4;
  v4_variant : default 0 (b !! 8%nat) / 64 = 2;
}.

Lemma number_app a b : number (a ++ b) = number a * 256 ^ Z.of_nat (length b) + number b.
Proof.
  unfold number. rewrite foldl_app. generalize (foldl (λ n x, 256 * n + x) 0 a). induction b as [|x b IH] using rev_ind.
  { intros n. simpl. lia. }
  intros n. rewrite !foldl_app, length_app. simpl. rewrite IH, Nat2Z.inj_add, Z.pow_add_r by lia. simpl. lia.
Qed.

Lemma number_bounds b : Forall is_byte b → 0 ≤ number b < 256 ^ Z.of_nat (length b).
Proof.
  induction b as [|x b IH] using rev_ind; intros Hb; [by vm_compute|].
  apply list.Forall_app in Hb as [Hb Hx]. specialize (IH Hb). rewrite list.Forall_singleton in Hx. unfold is_byte in Hx.
  rewrite number_app, length_app, Nat2Z.inj_add, Z.pow_add_r by lia. rewrite (eq_refl : number [x] = x).
  change (256 ^ Z.of_nat (length [x])) with 256. lia.
Qed.

Lemma bytes_of_spec n z :
  number (bytes_of n z) = z mod 256 ^ Z.of_nat n ∧ Forall is_byte (bytes_of n z) ∧ length (bytes_of n z) = n.
Proof.
  revert z. induction n as [|n IH]; intros z.
  { rewrite Z.mod_1_r. repeat constructor. }
  destruct (IH (Z.shiftr z 8)) as (H1 & H2 & H3). cbn [bytes_of].
  assert (Z.land z 255 = z mod 256) as -> by (change 255 with (Z.ones 8); by rewrite Z.land_ones).
  rewrite number_app, H1, length_app, H3. split_and!; [|apply list.Forall_app; split; [done|repeat constructor]|simpl; lia].
  - rewrite Z.shiftr_div_pow2 by lia. change (2 ^ 8) with 256. change (number [z mod 256]) with (256 * 0 + z mod 256).
    rewrite Nat2Z.inj_succ, Z.pow_succ_r, Z.rem_mul_r by lia. cbn [length Z.of_nat]. change (256 ^ Z.pos 1) with 256. lia.
  - apply Z.mod_pos_bound. lia.
  - apply Z.mod_pos_bound. lia.
Qed.

(** The bits 4 and 5 of a byte whose upper half is 4. *)
Lemma version_bits x : is_byte x → x / 16 = 4 → Z.lor (Z.lor x (Z.shiftl 1 4)) (Z.shiftl 1 5) = x + 48.
Proof.
  intros Hx H4. assert (64 ≤ x < 80) as Hr by (Z.to_euclidean_division_equations; lia).
  assert (forallb (λ x, Z.lor (Z.lor x (Z.shiftl 1 4)) (Z.shiftl 1 5) =? x + 48) (seqZ 64 16) = true) as Hall by done.
  rewrite forallb_forall in Hall. apply Z.eqb_eq, Hall, list_elem_of_In, elem_of_seqZ. lia.
Qed.

(** The parts of an id: the milliseconds, the version, the variant. *)
Definition millis_of (i : uuid) : Z := Z.shiftr (Z.of_N i) 80.
Definition version_of (i : uuid) : Z := Z.land (Z.shiftr (Z.of_N i) 76) 15.
Definition variant_of (i : uuid) : Z := Z.land (Z.shiftr (Z.of_N i) 62) 3.

(** The id as a sum, its seventh and ninth byte apart. *)
Lemma uuidv7_value clock random :
  version4 random → ∃ lo mid r6 r8,
    Z.of_N (uuidv7 clock random) =
      (clock / 1000) mod 2 ^ 48 * 2 ^ 80 + (r6 + 48) * 2 ^ 72 + mid * 2 ^ 64 + r8 * 2 ^ 56 + lo ∧
    0 ≤ lo < 2 ^ 56 ∧ is_byte mid ∧ is_byte r6 ∧ is_byte r8 ∧ r6 / 16 = 4 ∧ r8 / 64 = 2.
Proof.
  intros [Hlen Hb Hv Hr]. do 16 (destruct random as [|? random]; [done|]). destruct random; [|done].
  destruct (bytes_of_spec 8 (clock / 1000)) as (Hn & Hbs & Hl8).
  unfold uuidv7, int8send. set (ms := clock / 1000) in *.
  remember (bytes_of 8 ms) as bs eqn:E. clear E. do 8 (destruct bs as [|? bs]; [done|]). destruct bs; [|done].
  repeat rewrite list.Forall_cons in Hb. repeat rewrite list.Forall_cons in Hbs. unfold is_byte in *. simpl in Hv, Hr.
  unfold overlay_head, set_bit. simpl. rewrite version_bits; [|unfold is_byte; lia|done].
  assert (number [z17; z18; z19; z20; z21; z22] = ms mod 2 ^ 48) as Hms.
  { assert (0 ≤ number [z17; z18; z19; z20; z21; z22] < 2 ^ 48) as Hsix by (unfold number; simpl; lia).
    rewrite <- (Z.mod_mod_divide ms (256 ^ Z.of_nat 8) (2 ^ 48)) by (exists (2 ^ 16); done). rewrite <- Hn.
    apply (Z.mod_unique_pos _ _ (256 * z15 + z16)); [done|]. unfold number. simpl. lia. }
  exists (number [z8; z9; z10; z11; z12; z13; z14]), z6, z5, z7.
  rewrite <- Hms. unfold number. simpl. split; [|lia]. rewrite Z2N.id by lia. lia.
Qed.

(** C36 (type): the ids of the rows sort by the time they were made.  Whatever the
    random part is, an id has 128 bits and is not the nil one; it is of version 7
    and variant 2; its upper 48 bits are the milliseconds of the clock; and of two
    ids of different milliseconds the later one is the greater. *)
Theorem uuidv7_sorts clock random :
  version4 random → 0 ≤ clock → clock / 1000 < 2 ^ 48 →
  let i := uuidv7 clock random in
  i ≠ uuid_Nil ∧ Z.of_N i < 2 ^ 128 ∧ millis_of i = clock / 1000 ∧ version_of i = 7 ∧ variant_of i = 2 ∧
  ∀ clock' random', version4 random' → clock' / 1000 < 2 ^ 48 → clock / 1000 < clock' / 1000 →
    (i < uuidv7 clock' random')%N.
Proof.
  intros Hr H0 Hc i. destruct (uuidv7_value clock random Hr) as (lo & mid & r6 & r8 & Hv & Hlo & Hmid & Hr6 & Hr8 & H6 & H8).
  fold i in Hv. rewrite Z.mod_small in Hv by (split; [by apply Z.div_pos|done]).
  assert (0 ≤ clock / 1000) as Hms by (by apply Z.div_pos). unfold is_byte in *.
  assert (64 ≤ r6 < 80) as Hr6' by (Z.to_euclidean_division_equations; lia).
  assert (128 ≤ r8 < 192) as Hr8' by (Z.to_euclidean_division_equations; lia).
  unfold millis_of, version_of, variant_of. rewrite Hv, !Z.shiftr_div_pow2 by lia.
  change 15 with (Z.ones 4). change 3 with (Z.ones 2). rewrite !Z.land_ones by lia. split_and!.
  - intros E. apply (f_equal Z.of_N) in E. rewrite Hv in E. simpl in E. lia.
  - lia.
  - symmetry. apply (Z.div_unique_pos _ _ _ ((r6 + 48) * 2 ^ 72 + mid * 2 ^ 64 + r8 * 2 ^ 56 + lo)); lia.
  - Z.to_euclidean_division_equations. lia.
  - Z.to_euclidean_division_equations. lia.
  - intros clock' random' Hr' Hc' Hlt.
    destruct (uuidv7_value clock' random' Hr') as (lo' & mid' & r6' & r8' & Hv' & Hlo' & Hmid' & Hr6'' & Hr8'' & _ & _).
    rewrite Z.mod_small in Hv' by lia. unfold is_byte in *. apply N2Z.inj_lt. rewrite Hv, Hv'. lia.
Qed.

(** A version 4 uuid, and the first second of the year 2026 with a millisecond
    more. *)
Definition random0 : list Z := [18; 52; 86; 120; 154; 188; 77; 239; 145; 35; 69; 103; 137; 171; 205; 239].
Definition clock0 : Z := 1767225600000000.

Lemma uuidv7_sorts_witness :
  version4 random0 ∧ version_of (uuidv7 clock0 random0) = 7 ∧
  (uuidv7 clock0 random0 < uuidv7 (clock0 + 1000) random0)%N.
Proof.
  assert (version4 random0) as Hr by (split; [done|repeat constructor; done|done|done]).
  destruct (uuidv7_sorts clock0 random0 Hr) as (_ & _ & _ & Hv & _ & Hlt); [done|done|].
  split; [done|]. split; [done|]. by apply Hlt.
Defined.
