(* ===== verification/Text.v ===== *)
(** * Text: what the API uses of the packages strings, strconv, encoding/base64
    and fmt

    A Go string, or a slice of bytes, is a [string]: a sequence of bytes.
    Letters and spaces are those of ASCII. *)

From S2P Require Import Prelude.
From stdpp Require Import pretty.

#[local] Open Scope string_scope.
#[local] Open Scope list_scope.
#[local] Open Scope Z_scope.

(** ** Bytes *)

Definition byte_of (c : Ascii.ascii) : Z := Z.of_N (Ascii.N_of_ascii c).
Definition of_byte (n : Z) : Ascii.ascii := Ascii.ascii_of_N (Z.to_N n).

(** ** strings *)

Definition lower (c : Ascii.ascii) : Ascii.ascii :=
  if (65 <=? byte_of c) && (byte_of c <=? 90) then of_byte (byte_of c + 32) else c.

Fixpoint ToLower (s : string) : string :=
  match s with "" => "" | String c s' => String (lower c) (ToLower s') end.

(** [strings.Contains(s, sep)] for one byte. *)
Fixpoint Contains (s : string) (sep : Ascii.ascii) : bool :=
  match s with "" => false | String c s' => bool_decide (c = sep) || Contains s' sep end.

(** [strings.SplitN(s, sep, 2)] for one byte: up to the first [sep] and what
    follows it, if there is one. *)
Fixpoint Cut (s : string) (sep : Ascii.ascii) : string * option string :=
  match s with
  | "" => ("", None)
  | String c s' =>
    if decide (c = sep) then ("", Some s')
    else let '(a, b) := Cut s' sep in (String c a, b)
  end.

(** [strings.Split(s, sep)] for one byte. *)
Fixpoint Split (s : string) (sep : Ascii.ascii) : list string :=
  match s with
  | "" => [""]
  | String c s' =>
    if decide (c = sep) then "" :: Split s' sep
    else match Split s' sep with
         | [] => [String c ""]
         | p :: ps => String c p :: ps
         end
  end.

(** ** Numbers *)

Definition is_digit (c : Ascii.ascii) : bool := (48 <=? byte_of c) && (byte_of c <=? 57).
Definition digit_of (c : Ascii.ascii) : Z := byte_of c - 48.

(** The digits at the head of a text, and the rest. *)
Fixpoint span_digits (s : string) : string * string :=
  match s with
  | "" => ("", "")
  | String c s' =>
    if is_digit c then let '(d, r) := span_digits s' in (String c d, r) else ("", s)
  end.

(** The value of digits, after [acc]. *)
Fixpoint digits_value (acc : Z) (s : string) : Z :=
  match s with "" => acc | String c s' => digits_value (10 * acc + digit_of c) s' end.

Definition all_digits (s : string) : bool := bool_decide ((span_digits s).2 = "").

(** [strconv.ParseInt(s, 10, 64)]: [None] on a syntax or a range error. *)
Definition ParseInt (s : string) : option Z :=
  let '(neg, ds) := match s with
    | String c s' => if byte_of c =? 43 then (false, s')
                     else if byte_of c =? 45 then (true, s') else (false, s)
    | "" => (false, "")
    end in
  if bool_decide (ds = "") || negb (all_digits ds) then None else
  let n := if neg : bool then - digits_value 0 ds else digits_value 0 ds in
  if in_int8 n then Some n else None.

(** [strconv.Atoi], [int] being 64 bits wide. *)
Definition Atoi : string → option Z := ParseInt.

(** ** fmt.Sscanf *)

(** The literal text of a format. *)
Fixpoint scan_lit (p s : string) : option string :=
  match p, s with
  | "", _ => Some s
  | String a p', String b s' => if decide (a = b) then scan_lit p' s' else None
  | String _ _, "" => None
  end.

(** The spaces before a number; a newline is an error. *)
Fixpoint skip_space (s : string) : option string :=
  match s with
  | "" => Some ""
  | String c s' =>
    if byte_of c =? 10 then None
    else if (byte_of c =? 32) || ((9 <=? byte_of c) && (byte_of c <=? 13)) then skip_space s'
    else Some s
  end.

(** [%d] into an unsigned integer of [bits] bits. *)
Definition scan_uint (bits : Z) (s : string) : option (Z * string) :=
  s1 ← skip_space s;
  let '(ds, rest) := span_digits s1 in
  if bool_decide (ds = "") then None else
  if digits_value 0 ds <? 2 ^ bits then Some (digits_value 0 ds, rest) else None.

(** [%d] into an [int]. *)
Definition scan_int (s : string) : option (Z * string) :=
  s1 ← skip_space s;
  let '(neg, s2) := match s1 with
    | String c s' => if byte_of c =? 43 then (false, s')
                     else if byte_of c =? 45 then (true, s') else (false, s1)
    | "" => (false, "")
    end in
  let '(ds, rest) := span_digits s2 in
  if bool_decide (ds = "") then None else
  let n := if neg : bool then - digits_value 0 ds else digits_value 0 ds in
  if in_int8 n then Some (n, rest) else None.

(** ** encoding/base64, without padding *)

(** The alphabets: [RawStdEncoding] and [RawURLEncoding]. *)
Inductive alphabet := StdEncoding | URLEncoding.

Definition char62 (a : alphabet) : Ascii.ascii := of_byte (match a with StdEncoding => 43 | URLEncoding => 45 end).
Definition char63 (a : alphabet) : Ascii.ascii := of_byte (match a with StdEncoding => 47 | URLEncoding => 95 end).

Definition b64_char (a : alphabet) (n : Z) : Ascii.ascii :=
  if n <? 26 then of_byte (n + 65)
  else if n <? 52 then of_byte (n + 71)
  else if n <? 62 then of_byte (n - 4)
  else if n =? 62 then char62 a else char63 a.

Definition b64_value (a : alphabet) (c : Ascii.ascii) : option Z :=
  let b := byte_of c in
  if (65 <=? b) && (b <=? 90) then Some (b - 65)
  else if (97 <=? b) && (b <=? 122) then Some (b - 71)
  else if (48 <=? b) && (b <=? 57) then Some (b + 4)
  else if decide (c = char62 a) then Some 62
  else if decide (c = char63 a) then Some 63
  else None.

Fixpoint EncodeToString (a : alphabet) (s : string) : string :=
  match s with
  | String x (String y (String z s')) =>
    let v := byte_of x * 65536 + byte_of y * 256 + byte_of z in
    String (b64_char a (v / 262144)) (String (b64_char a (v / 4096 mod 64))
      (String (b64_char a (v / 64 mod 64)) (String (b64_char a (v mod 64)) (EncodeToString a s'))))
  | String x (String y "") =>
    let v := byte_of x * 65536 + byte_of y * 256 in
    String (b64_char a (v / 262144)) (String (b64_char a (v / 4096 mod 64))
      (String (b64_char a (v / 64 mod 64)) ""))
  | String x "" =>
    let v := byte_of x * 65536 in
    String (b64_char a (v / 262144)) (String (b64_char a (v / 4096 mod 64)) "")
  | "" => ""
  end.

(** The values of the characters, newlines skipped; [None] at any other
    character. *)
Fixpoint b64_values (a : alphabet) (s : string) : option (list Z) :=
  match s with
  | "" => Some []
  | String c s' =>
    if (byte_of c =? 10) || (byte_of c =? 13) then b64_values a s' else
    v ← b64_value a c; vs ← b64_values a s'; Some (v :: vs)
  end.

(** Four values make three bytes; two or three are left over for one or two
    bytes, one is an error. *)
Fixpoint b64_bytes (vs : list Z) : option string :=
  match vs with
  | p :: q :: r :: t :: vs' =>
    s ← b64_bytes vs';
    Some (String (of_byte (p * 4 + q / 16)) (String (of_byte (q mod 16 * 16 + r / 4))
      (String (of_byte (r mod 4 * 64 + t)) s)))
  | [p; q; r] => Some (String (of_byte (p * 4 + q / 16)) (String (of_byte (q mod 16 * 16 + r / 4)) ""))
  | [p; q] => Some (String (of_byte (p * 4 + q / 16)) "")
  | [_] => None
  | [] => Some ""
  end.

Definition DecodeString (a : alphabet) (s : string) : option string := vs ← b64_values a s; b64_bytes vs.

(** ** Lemmas *)

Lemma byte_range c : 0 ≤ byte_of c < 256.
Proof.
  unfold byte_of. pose proof (Ascii.N_ascii_bounded c). lia.
Qed.

Lemma byte_of_byte n : 0 ≤ n < 256 → byte_of (of_byte n) = n.
Proof.
  intros Hn. unfold byte_of, of_byte. rewrite Ascii.N_ascii_embedding; lia.
Qed.

Lemma of_byte_of c : of_byte (byte_of c) = c.
Proof. unfold byte_of, of_byte. rewrite N2Z.id. apply Ascii.ascii_N_embedding. Qed.

(** *** base64 *)

(** The character of a value is neither a newline nor unknown. *)
Lemma b64_char_value a n :
  0 ≤ n < 64 → (byte_of (b64_char a n) =? 10) || (byte_of (b64_char a n) =? 13) = false ∧
  b64_value a (b64_char a n) = Some n.
Proof.
  intros Hn. assert (n ∈ seqZ 0 64) as Hin by (apply elem_of_seqZ; lia).
  assert (forallb (λ n, negb ((byte_of (b64_char a n) =? 10) || (byte_of (b64_char a n) =? 13)) &&
    bool_decide (b64_value a (b64_char a n) = Some n)) (seqZ 0 64) = true) as Hall
    by (by destruct a; vm_compute).
  rewrite forallb_forall in Hall. apply list_elem_of_In, Hall in Hin.
  apply andb_true_iff in Hin as [H1%negb_true_iff H2%bool_decide_eq_true]. done.
Qed.

Lemma b64_values_char a n s :
  0 ≤ n < 64 → b64_values a (String (b64_char a n) s) = (vs ← b64_values a s; Some (n :: vs)).
Proof. intros Hn. destruct (b64_char_value a n Hn) as [H1 H2]. cbn [b64_values]. by rewrite H1, H2. Qed.

Lemma b64_split x y z :
  0 ≤ x < 256 → 0 ≤ y < 256 → 0 ≤ z < 256 →
  let v := x * 65536 + y * 256 + z in
  0 ≤ v / 262144 < 64 ∧ 0 ≤ v / 4096 mod 64 < 64 ∧ 0 ≤ v / 64 mod 64 < 64 ∧ 0 ≤ v mod 64 < 64 ∧
  v / 262144 * 4 + v / 4096 mod 64 / 16 = x ∧
  v / 4096 mod 64 mod 16 * 16 + v / 64 mod 64 / 4 = y ∧
  v / 64 mod 64 mod 4 * 64 + v mod 64 = z.
Proof. intros. cbv zeta. Z.div_mod_to_equations. lia. Qed.

Lemma string_triples (P : string → Prop) :
  P "" → (∀ x, P (String x "")) → (∀ x y, P (String x (String y ""))) →
  (∀ x y z s, P s → P (String x (String y (String z s)))) → ∀ s, P s.
Proof.
  intros H0 H1 H2 H3 s. assert (P s ∧ (∀ x, P (String x s)) ∧ (∀ x y, P (String x (String y s)))) as [? _]; [|done].
  induction s as [|c s (IH0 & IH1 & IH2)]; split_and!; auto.
Qed.

(** What is encoded is decoded. *)
Lemma Decode_Encode a s : DecodeString a (EncodeToString a s) = Some s.
Proof.
  assert (∃ vs, b64_values a (EncodeToString a s) = Some vs ∧ b64_bytes vs = Some s) as (vs & H1 & H2);
    [|unfold DecodeString; by rewrite H1].
  induction s as [|x|x y|x y z s (vs & IH1 & IH2)] using string_triples; cbn [EncodeToString].
  - by exists [].
  - destruct (b64_split (byte_of x) 0 0) as (? & ? & ? & ? & E1 & E2 & E3); [apply byte_range|lia..|].
    replace (byte_of x * 65536) with (byte_of x * 65536 + 0 * 256 + 0) by lia.
    rewrite !b64_values_char by done. simpl. eexists. split; [done|]. cbn [b64_bytes].
    by rewrite E1, of_byte_of.
  - destruct (b64_split (byte_of x) (byte_of y) 0) as (? & ? & ? & ? & E1 & E2 & E3); [apply byte_range..|lia|].
    replace (byte_of x * 65536 + byte_of y * 256) with (byte_of x * 65536 + byte_of y * 256 + 0) by lia.
    rewrite !b64_values_char by done. simpl. eexists. split; [done|]. cbn [b64_bytes].
    by rewrite E1, E2, !of_byte_of.
  - destruct (b64_split (byte_of x) (byte_of y) (byte_of z)) as (? & ? & ? & ? & E1 & E2 & E3); [apply byte_range..|].
    rewrite !b64_values_char, IH1 by done. simpl. eexists. split; [done|]. cbn [b64_bytes].
    rewrite IH2. simpl. by rewrite E1, E2, E3, !of_byte_of.
Qed.

(** *** Digits *)

Lemma span_digits_app ds rest :
  all_digits ds = true → (span_digits rest).1 = "" → span_digits (ds +:+ rest) = (ds, rest).
Proof.
  intros Hd Hr. induction ds as [|c ds IH].
  - simpl. destruct rest as [|c rest]; [done|]. simpl in *. destruct (is_digit c); [|done].
    by destruct (span_digits rest).
  - unfold all_digits in Hd. cbn [span_digits] in Hd. apply bool_decide_eq_true in Hd.
    change (String c ds +:+ rest) with (String c (ds +:+ rest)). cbn [span_digits].
    destruct (is_digit c); [|done].
    destruct (span_digits ds) as [d r] eqn:Hds. simpl in Hd. subst r.
    rewrite IH; [done|]. unfold all_digits. rewrite Hds. by apply bool_decide_eq_true.
Qed.

Lemma span_digits_all ds : all_digits ds = true → span_digits ds = (ds, "").
Proof.
  intros Hd. pose proof (span_digits_app ds "" Hd eq_refl) as H.
  assert (ds +:+ "" = ds) as E by (clear; induction ds as [|c ds IH]; [done|]; exact (f_equal (String c) IH)).
  by rewrite E in H.
Qed.

Lemma digit_char n : (n < 10)%N → is_digit (pretty_N_char n) = true ∧ digit_of (pretty_N_char n) = Z.of_N n.
Proof.
  intros Hn. assert (n ∈ [0; 1; 2; 3; 4; 5; 6; 7; 8; 9]%N) as Hin by (rewrite !elem_of_cons; lia).
  repeat (apply elem_of_cons in Hin as [->|Hin]; [done|]). by apply elem_of_nil in Hin.
Qed.

Lemma all_digits_cons c s : all_digits (String c s) = is_digit c && all_digits s.
Proof.
  unfold all_digits. cbn [span_digits]. destruct (is_digit c); [|done].
  by destruct (span_digits s) as [d r].
Qed.

Lemma pretty_go_digits x s :
  digits_value 0 (pretty_N_go x s) = digits_value (Z.of_N x) s ∧
  all_digits (pretty_N_go x s) = all_digits s.
Proof.
  revert s. induction (N.lt_wf_0 x) as [x _ IH]. intros s.
  assert (x = 0 ∨ 0 < x)%N as [->|Hx] by lia; [by rewrite pretty_N_go_0|].
  rewrite pretty_N_go_step by done.
  destruct (IH (x `div` 10)%N (N.div_lt x 10 ltac:(lia) ltac:(lia)) (String (pretty_N_char (x `mod` 10)) s)) as [-> ->].
  destruct (digit_char (x `mod` 10)%N) as [H1 H2]; [apply N.mod_lt; lia|].
  rewrite all_digits_cons, H1. split; [|done]. cbn [digits_value]. rewrite H2. f_equal.
  rewrite N2Z.inj_div, N2Z.inj_mod. pose proof (Z.div_mod (Z.of_N x) 10). lia.
Qed.

Lemma pretty_digits (x : N) :
  digits_value 0 (pretty x) = Z.of_N x ∧ all_digits (pretty x) = true ∧ pretty x ≠ "".
Proof.
  unfold pretty, pretty_N. case_decide as Hx; [by subst|].
  destruct (pretty_go_digits x "") as [-> ->]. split_and!; [done|done|]. intros He.
  destruct (pretty_go_digits x "") as [H _]. rewrite He in H. simpl in H. lia.
Qed.

Lemma no_digit_sep c s : all_digits s = true → is_digit c = false → Contains s c = false.
Proof.
  intros Hs Hc. induction s as [|d s IH]; [done|]. rewrite all_digits_cons in Hs.
  apply andb_true_iff in Hs as [Hd Hs]. simpl. rewrite IH by done.
  rewrite bool_decide_eq_false_2; [done|]. intros ->. congruence.
Qed.

Lemma no_b64_sep a c s : b64_value a c = None → Contains (EncodeToString a s) c = false.
Proof.
  intros Hc. assert (∀ n, 0 ≤ n < 64 → bool_decide (b64_char a n = c) = false) as Hn.
  { intros n H. apply bool_decide_eq_false_2. intros E. destruct (b64_char_value a n H) as [_ Hv].
    rewrite E in Hv. congruence. }
  induction s as [|x|x y|x y z s IH] using string_triples; cbn [EncodeToString Contains]; [done|..].
  - destruct (b64_split (byte_of x) 0 0) as (? & ? & _); [apply byte_range|lia..|].
    replace (byte_of x * 65536) with (byte_of x * 65536 + 0 * 256 + 0) by lia. by rewrite !Hn by done.
  - destruct (b64_split (byte_of x) (byte_of y) 0) as (? & ? & ? & _); [apply byte_range..|lia|].
    replace (byte_of x * 65536 + byte_of y * 256) with (byte_of x * 65536 + byte_of y * 256 + 0) by lia.
    by rewrite !Hn by done.
  - destruct (b64_split (byte_of x) (byte_of y) (byte_of z)) as (? & ? & ? & ? & _); [apply byte_range..|].
    by rewrite !Hn by done.
Qed.

(** *** Splitting *)

Lemma Contains_app s t c : Contains (s +:+ t) c = Contains s c || Contains t c.
Proof.
  induction s as [|d s IH]; [done|]. change (String d s +:+ t) with (String d (s +:+ t)).
  cbn [Contains]. rewrite IH. by rewrite orb_assoc.
Qed.

Lemma Split_plain s c : Contains s c = false → Split s c = [s].
Proof.
  induction s as [|d s IH]; [done|]. cbn [Contains Split].
  intros [Hd%bool_decide_eq_false Hs]%orb_false_iff. rewrite decide_False by done. by rewrite IH.
Qed.

Lemma Split_app s c t : Contains s c = false → Split (s +:+ String c t) c = s :: Split t c.
Proof.
  induction s as [|d s IH].
  - intros _. change ("" +:+ String c t) with (String c t). cbn [Split]. by rewrite decide_True.
  - intros [Hd%bool_decide_eq_false Hs]%orb_false_iff.
    change (String d s +:+ String c t) with (String d (s +:+ String c t)). cbn [Split].
    rewrite decide_False by done. by rewrite IH.
Qed.

Lemma Cut_app s c t : Contains s c = false → Cut (s +:+ String c t) c = (s, Some t).
Proof.
  induction s as [|d s IH].
  - intros _. change ("" +:+ String c t) with (String c t). cbn [Cut]. by rewrite decide_True.
  - intros [Hd%bool_decide_eq_false Hs]%orb_false_iff.
    change (String d s +:+ String c t) with (String d (s +:+ String c t)). cbn [Cut].
    rewrite decide_False by done. by rewrite IH.
Qed.

(** A number that was printed is read back. *)
Lemma scan_int_pretty (x : N) : Z.of_N x < 2 ^ 63 → scan_int (pretty x) = Some (Z.of_N x, "").
Proof.
  intros Hx. unfold scan_int. destruct (pretty_digits x) as (Hval & Hd & Hne).
  destruct (pretty x) as [|c s] eqn:E; [done|]. pose proof Hd as Hc. rewrite all_digits_cons in Hc.
  apply andb_true_iff in Hc as [Hc _]. unfold is_digit in Hc. cbn [skip_space].
  destruct (byte_of c =? 10) eqn:?; [lia|].
  destruct ((byte_of c =? 32) || ((9 <=? byte_of c) && (byte_of c <=? 13))) eqn:?; [lia|].
  unfold mbind, option_bind. destruct (byte_of c =? 43) eqn:?; [lia|].
  destruct (byte_of c =? 45) eqn:?; [lia|].
  rewrite span_digits_all, Hval by done. rewrite bool_decide_eq_false_2 by done.
  assert (in_int8 (Z.of_N x) = true) as -> by (unfold in_int8; lia). done.
Qed.
