(* ===== verification/Calendar.v ===== *)
(** * Calendar: what the API uses of the package time

    A [timestamp] is a number of microseconds since the Unix epoch; Go's [Time]
    has nanoseconds.  [Format] and [Parse] are those of the layout
    [time.RFC3339Nano], the former on a time in UTC. *)

From S2P Require Import Prelude Text.
From stdpp Require Import pretty.

#[local] Open Scope string_scope.
#[local] Open Scope list_scope.
#[local] Open Scope Z_scope.

(** ** The Gregorian calendar *)

(** The year, month and day of a day counted from the epoch.  The years start in
    March here, so that the leap day is the last one of its year, and go by
    cycles of 400, which have 146097 days. *)
Definition civil (day : Z) : Z * Z * Z :=
  let z := day + 719468 in
  let doe := z mod 146097 in
  let yoe := (doe - doe / 1460 + doe / 36524 - doe / 146096) / 365 in
  let doy := doe - (365 * yoe + yoe / 4 - yoe / 100) in
  let mp := (5 * doy + 2) / 153 in
  let m := if mp <? 10 then mp + 3 else mp - 9 in
  (yoe + z / 146097 * 400 + (if m <=? 2 then 1 else 0), m, doy - (153 * mp + 2) / 5 + 1).

Definition day_of (y m d : Z) : Z :=
  let y' := if m <=? 2 then y - 1 else y in
  let mp := if m <=? 2 then m + 9 else m - 3 in
  let yoe := y' mod 400 in
  y' / 400 * 146097 + (yoe * 365 + yoe / 4 - yoe / 100 + ((153 * mp + 2) / 5 + d - 1)) - 719468.

Definition is_leap (y : Z) : bool := (y mod 4 =? 0) && (negb (y mod 100 =? 0) || (y mod 400 =? 0)).

Definition daysIn (m y : Z) : Z :=
  if m =? 2 then if is_leap y then 29 else 28
  else if (m =? 4) || (m =? 6) || (m =? 9) || (m =? 11) then 30 else 31.

(** ** Format *)

(** [n] in [w] digits. *)
Fixpoint dec (w : nat) (n : Z) : string :=
  match w with
  | O => ""
  | S w' => String (of_byte (48 + n / 10 ^ Z.of_nat w' mod 10)) (dec w' n)
  end.

(** [appendInt(b, n, w)]: at least [w] digits. *)
Definition appendInt (n : Z) (w : nat) : string :=
  (if n <? 0 then "-" else "") +:+
  (if Z.abs n <? 10 ^ Z.of_nat w then dec w (Z.abs n) else pretty (Z.abs_N n)).

Fixpoint trim_zeros (s : string) : string :=
  match s with
  | "" => ""
  | String c s' =>
    let t := trim_zeros s' in
    if bool_decide (t = "") && (byte_of c =? 48) then "" else String c t
  end.

(** [.999999999]: nothing for a whole second. *)
Definition format_frac (ns : Z) : string :=
  let ds := trim_zeros (dec 9 ns) in if decide (ds = "") then "" else "." +:+ ds.

Definition Format (t : timestamp) : string :=
  let secs := t / 1000000 in
  let sod := secs mod 86400 in
  let '(y, m, d) := civil (secs / 86400) in
  appendInt y 4 +:+ "-" +:+ appendInt m 2 +:+ "-" +:+ appendInt d 2 +:+ "T" +:+
  appendInt (sod / 3600) 2 +:+ ":" +:+ appendInt (sod / 60 mod 60) 2 +:+ ":" +:+
  appendInt (sod mod 60) 2 +:+ format_frac (t mod 1000000 * 1000) +:+ "Z".

(** ** Parse *)

(** [getnum(s, fixed)]: one or two digits, two when [fixed]. *)
Definition getnum (fixed : bool) (s : string) : option (Z * string) :=
  match s with
  | String a s1 =>
    if negb (is_digit a) then None else
    match s1 with
    | String b s2 => if is_digit b then Some (digit_of a * 10 + digit_of b, s2)
                     else if fixed then None else Some (digit_of a, s1)
    | "" => if fixed then None else Some (digit_of a, "")
    end
  | "" => None
  end.

(** Four digits. *)
Definition getyear (s : string) : option (Z * string) :=
  '(a, s1) ← getnum true s; '(b, s2) ← getnum true s1; Some (a * 100 + b, s2).

(** A fraction of a second, which may be missing: all its digits are taken, the
    first nine count. *)
Definition getfrac (s : string) : Z * string :=
  match s with
  | String c s1 =>
    if (byte_of c =? 46) || (byte_of c =? 44) then
      let '(ds, rest) := span_digits s1 in
      if decide (ds = "") then (0, s)
      else let ds9 := String.substring 0 9 ds in
           (digits_value 0 ds9 * 10 ^ (9 - Z.of_nat (String.length ds9)), rest)
    else (0, s)
  | "" => (0, "")
  end.

(** [Z07:00]: the offset in seconds. *)
Definition getzone (s : string) : option (Z * string) :=
  match s with
  | String c s1 =>
    if byte_of c =? 90 then Some (0, s1)
    else if (byte_of c =? 43) || (byte_of c =? 45) then
      '(h, s2) ← getnum true s1; s3 ← scan_lit ":" s2; '(m, s4) ← getnum true s3;
      if (24 <? h) || (60 <? m) then None
      else Some ((if byte_of c =? 45 then -1 else 1) * (h * 60 + m) * 60, s4)
    else None
  | "" => None
  end.

Definition guard_in (lo n hi : Z) : option unit := if (lo <=? n) && (n <=? hi) then Some tt else None.

(** [time.Parse(time.RFC3339Nano, s)], in nanoseconds since the epoch. *)
Definition Parse (s : string) : option Z :=
  '(y, s1) ← getyear s; s2 ← scan_lit "-" s1;
  '(m, s3) ← getnum true s2; _ ← guard_in 1 m 12; s4 ← scan_lit "-" s3;
  '(d, s5) ← getnum true s4; s6 ← scan_lit "T" s5;
  '(hh, s7) ← getnum false s6; _ ← guard_in 0 hh 23; s8 ← scan_lit ":" s7;
  '(mm, s9) ← getnum true s8; _ ← guard_in 0 mm 59; s10 ← scan_lit ":" s9;
  '(ss, s11) ← getnum true s10; _ ← guard_in 0 ss 59;
  let '(ns, s12) := getfrac s11 in
  '(off, s13) ← getzone s12;
  if negb (bool_decide (s13 = "")) then None else
  _ ← guard_in 1 d (daysIn m y);
  Some ((day_of y m d * 86400 + hh * 3600 + mm * 60 + ss - off) * 1000000000 + ns).

(** ** Lemmas *)

(** *** The calendar *)

Lemma cycle_year doe :
  0 ≤ doe < 146097 →
  let yoe := (doe - doe / 1460 + doe / 36524 - doe / 146096) / 365 in
  let doy := doe - (365 * yoe + yoe / 4 - yoe / 100) in
  0 ≤ yoe < 400 ∧ 0 ≤ doy ≤ 365 ∧
  (doy = 365 → (yoe + 1) mod 4 = 0 ∧ ((yoe + 1) mod 100 ≠ 0 ∨ yoe = 399)).
Proof. intros H. cbv zeta. split_and!; Z.div_mod_to_equations; lia. Qed.

(** The months of a year that starts in March: they have 30 or 31 days but the
    last one, which ends with the day 365 of a leap year. *)
Lemma year_month doy :
  0 ≤ doy ≤ 365 →
  let mp := (5 * doy + 2) / 153 in
  let d := doy - (153 * mp + 2) / 5 + 1 in
  0 ≤ mp ≤ 11 ∧ 1 ≤ d ≤ 31 ∧ (mp = 1 ∨ mp = 3 ∨ mp = 6 ∨ mp = 8 → d ≤ 30) ∧
  (mp = 11 → d ≤ 29 ∧ (d = 29 → doy = 365)).
Proof. intros H. cbv zeta. split_and!; Z.div_mod_to_equations; lia. Qed.

Lemma civil_spec n y m d :
  civil n = (y, m, d) → 1 ≤ m ≤ 12 ∧ 1 ≤ d ≤ daysIn m y ∧ d ≤ 31 ∧ day_of y m d = n.
Proof.
  unfold civil. set (z := n + 719468).
  destruct (cycle_year (z mod 146097)) as (Hy & Hd & Hleap); [apply Z.mod_pos_bound; lia|].
  set (yoe := (_ - _ + _ - _) / 365) in *. set (doy := _ - (365 * yoe + _ - _)) in *.
  destruct (year_month doy Hd) as (Hmp & Hday & Hshort & Hfeb). set (mp := (5 * doy + 2) / 153) in *.
  set (day := doy - (153 * mp + 2) / 5 + 1) in *.
  intros [= <- <- <-]. set (era := z / 146097).
  set (mon := if mp <? 10 then mp + 3 else mp - 9).
  assert (mon = (if mp <? 10 then mp + 3 else mp - 9)) as Hmon by done.
  assert (1 ≤ mon ≤ 12) by (destruct (Z.ltb_spec mp 10); lia).
  assert ((if mon <=? 2 then 1 else 0) = (if mp <? 10 then 0 else 1)) as ->.
  { destruct (Z.ltb_spec mp 10), (Z.leb_spec mon 2); lia. }
  split_and!; [lia|lia|lia| |lia|].
  - unfold daysIn, is_leap. destruct (Z.eqb_spec mon 2) as [E|E].
    + assert (mp = 11) as E11 by (destruct (Z.ltb_spec mp 10); lia). rewrite E11. simpl.
      destruct (Hfeb E11) as [H29 H365]. destruct (decide (day = 29)) as [E29|];
        [|match goal with |- _ ≤ (if ?b then _ else _) => destruct b end; lia].
      destruct (Hleap (H365 E29)) as [H4 H100].
      replace (yoe + era * 400 + 1) with (yoe + 1 + era * 100 * 4) at 1 by lia. rewrite Z.mod_add, H4 by lia.
      replace (yoe + era * 400 + 1) with (yoe + 1 + era * 4 * 100) at 1 by lia. rewrite Z.mod_add by lia.
      replace (yoe + era * 400 + 1) with (yoe + 1 + era * 400) at 1 by lia. rewrite Z.mod_add by lia.
      destruct H100 as [H100| ->]; [apply Z.eqb_neq in H100; rewrite H100; simpl; lia|].
      rewrite orb_true_r; simpl; lia.
    + match goal with |- _ ≤ (if ?b then _ else _) => destruct b eqn:E30 end; [|lia]. assert (mp = 1 ∨ mp = 3 ∨ mp = 6 ∨ mp = 8); [|tauto].
      destruct (Z.ltb_spec mp 10); lia.
  - unfold day_of.
    assert ((if mon <=? 2 then mon + 9 else mon - 3) = mp) as ->.
    { destruct (Z.ltb_spec mp 10), (Z.leb_spec mon 2); lia. }
    assert ((if mon <=? 2 then yoe + era * 400 + (if mp <? 10 then 0 else 1) - 1
             else yoe + era * 400 + (if mp <? 10 then 0 else 1)) = yoe + era * 400) as ->.
    { destruct (Z.ltb_spec mp 10), (Z.leb_spec mon 2); lia. }
    rewrite Z.mod_add, Z.div_add, (Z.mod_small yoe), (Z.div_small yoe) by lia.
    pose proof (Z.div_mod z 146097 ltac:(lia)). subst day doy era z. lia.
Qed.

(** *** Digits *)

Lemma digit_byte n :
  is_digit (of_byte (48 + n mod 10)) = true ∧ digit_of (of_byte (48 + n mod 10)) = n mod 10.
Proof.
  pose proof (Z.mod_pos_bound n 10). unfold is_digit, digit_of. rewrite byte_of_byte by lia. lia.
Qed.

Lemma dec_S w n : dec (S w) n = String (of_byte (48 + n / 10 ^ Z.of_nat w mod 10)) (dec w n).
Proof. done. Qed.

Lemma app_String c s t : String c s +:+ t = String c (s +:+ t).
Proof. done. Qed.

Lemma dec_digits w n : all_digits (dec w n) = true.
Proof.
  induction w as [|w IH]; [done|]. cbn [dec]. rewrite all_digits_cons, IH.
  by destruct (digit_byte (n / 10 ^ Z.of_nat w)) as [-> _].
Qed.

Lemma dec_length w n : String.length (dec w n) = w.
Proof. induction w as [|w IH]; [done|]. simpl. by rewrite IH. Qed.

Lemma dec_value w n a : digits_value a (dec w n) = a * 10 ^ Z.of_nat w + n mod 10 ^ Z.of_nat w.
Proof.
  revert a. induction w as [|w IH]; intros a; cbn [dec digits_value].
  { change (10 ^ Z.of_nat 0) with 1. rewrite Z.mod_1_r. lia. }
  destruct (digit_byte (n / 10 ^ Z.of_nat w)) as [_ ->]. rewrite IH.
  rewrite Nat2Z.inj_succ, Z.pow_succ_r by lia. set (p := 10 ^ Z.of_nat w).
  assert (0 < p) by (apply Z.pow_pos_nonneg; lia).
  rewrite (Z.mul_comm 10 p), Z.rem_mul_r by lia. lia.
Qed.

Lemma getnum_two b n s : 0 ≤ n < 100 → getnum b (appendInt n 2 +:+ s) = Some (n, s).
Proof.
  intros Hn. unfold appendInt. rewrite Z.abs_eq by lia.
  destruct (Z.ltb_spec n 0) as [|_]; [lia|]. destruct (Z.ltb_spec n (10 ^ Z.of_nat 2)) as [_|]; [|lia].
  change (getnum b (dec 2 n +:+ s) = Some (n, s)). rewrite !dec_S, !app_String. unfold getnum.
  destruct (digit_byte (n / 10 ^ Z.of_nat 1)) as [H1 H2], (digit_byte (n / 10 ^ Z.of_nat 0)) as [H3 H4].
  rewrite H1, H3. simpl negb. cbv iota. rewrite H2, H4. f_equal. f_equal.
  change (10 ^ Z.of_nat 1) with 10. change (10 ^ Z.of_nat 0) with 1. rewrite Z.div_1_r.
  Z.div_mod_to_equations. lia.
Qed.

Lemma getyear_four n s : 0 ≤ n < 10000 → getyear (appendInt n 4 +:+ s) = Some (n, s).
Proof.
  intros Hn.
  assert (appendInt n 4 +:+ s = appendInt (n / 100) 2 +:+ (appendInt (n mod 100) 2 +:+ s)) as ->.
  { assert (0 ≤ n / 100 < 100 ∧ 0 ≤ n mod 100 < 100) by (Z.div_mod_to_equations; lia).
    unfold appendInt. rewrite !Z.abs_eq by lia.
    do 3 (match goal with |- context [?x <? 0] => destruct (Z.ltb_spec x 0) as [|_]; [lia|] end).
    do 3 (match goal with |- context [?x <? 10 ^ ?y] => destruct (Z.ltb_spec x (10 ^ y)) as [_|]; [|lia] end).
    rewrite !dec_S. change (10 ^ Z.of_nat 0) with 1. change (10 ^ Z.of_nat 1) with 10.
    change (10 ^ Z.of_nat 2) with 100. change (10 ^ Z.of_nat 3) with 1000.
    change (dec 0 _) with "". change ("" +:+ ?x) with x. rewrite !app_String.
    rewrite Z.div_div, !Z.div_1_r by lia.
    replace ((n mod 100) / 10 mod 10) with (n / 10 mod 10) by (Z.div_mod_to_equations; lia).
    by replace ((n mod 100) mod 10) with (n mod 10) by (Z.div_mod_to_equations; lia). }
  unfold getyear. rewrite getnum_two by (Z.div_mod_to_equations; lia). simpl.
  rewrite getnum_two by (Z.div_mod_to_equations; lia). simpl. do 2 f_equal. Z.div_mod_to_equations. lia.
Qed.

(** *** The fraction *)

Fixpoint zeros (k : nat) : string := match k with O => "" | S k' => String (of_byte 48) (zeros k') end.

Lemma trim_zeros_spec s : ∃ k, s = trim_zeros s +:+ zeros k.
Proof.
  induction s as [|c s [k IH]]; [by exists O|]. cbn [trim_zeros].
  case_bool_decide as Ht; simpl; [|by exists k; rewrite app_String, <-IH].
  rewrite Ht in IH. simpl in IH. destruct (Z.eqb_spec (byte_of c) 48) as [Hc|].
  - exists (S k). simpl. by rewrite IH, <-Hc, of_byte_of at 1.
  - exists k. rewrite Ht, app_String. by rewrite IH at 1.
Qed.

Lemma digits_value_app s t a : digits_value a (s +:+ t) = digits_value (digits_value a s) t.
Proof. revert a. induction s as [|c s IH]; intros a; [done|]. rewrite app_String. apply IH. Qed.

Lemma digits_value_zeros a k : digits_value a (zeros k) = a * 10 ^ Z.of_nat k.
Proof.
  revert a. induction k as [|k IH]; intros a; [simpl; lia|]. cbn [zeros digits_value]. rewrite IH.
  change (digit_of (of_byte 48)) with 0. rewrite Nat2Z.inj_succ, Z.pow_succ_r by lia. lia.
Qed.

Lemma all_digits_app s t : all_digits (s +:+ t) = all_digits s && all_digits t.
Proof.
  induction s as [|c s IH]; [done|]. by rewrite app_String, !all_digits_cons, IH, andb_assoc.
Qed.

Lemma length_app_string s t : String.length (s +:+ t) = (String.length s + String.length t)%nat.
Proof. induction s as [|c s IH]; [done|]. rewrite app_String. simpl. by rewrite IH. Qed.

Lemma length_zeros k : String.length (zeros k) = k.
Proof. induction k; simpl; congruence. Qed.

Lemma substring_all s n : (String.length s ≤ n)%nat → String.substring 0 n s = s.
Proof.
  revert n. induction s as [|c s IH]; intros [|n] Hn; simpl in *; try done; [lia|]. by rewrite IH by lia.
Qed.

(** The digits of a fraction that are kept, scaled to nanoseconds. *)
Lemma trimmed_value ns :
  0 ≤ ns < 10 ^ 9 →
  let ds := trim_zeros (dec 9 ns) in
  all_digits ds = true ∧ (String.length ds ≤ 9)%nat ∧
  digits_value 0 ds * 10 ^ (9 - Z.of_nat (String.length ds)) = ns.
Proof.
  intros Hns ds. destruct (trim_zeros_spec (dec 9 ns)) as [k Hk]. fold ds in Hk.
  pose proof (dec_digits 9 ns) as Hd. pose proof (dec_length 9 ns) as Hl. pose proof (dec_value 9 ns 0) as Hv.
  rewrite Hk in Hd, Hl, Hv. rewrite all_digits_app in Hd. apply andb_true_iff in Hd as [Hd _].
  rewrite length_app_string, length_zeros in Hl. rewrite digits_value_app, digits_value_zeros in Hv.
  split_and!; [done|lia|]. replace (9 - Z.of_nat (String.length ds)) with (Z.of_nat k) by lia.
  rewrite Hv. change (10 ^ Z.of_nat 9) with (10 ^ 9). rewrite Z.mod_small by lia. lia.
Qed.

Lemma getfrac_format ns : 0 ≤ ns < 10 ^ 9 → getfrac (format_frac ns +:+ "Z") = (ns, "Z").
Proof.
  intros Hns. destruct (trimmed_value ns Hns) as (Hd & Hl & Hv). unfold format_frac.
  revert Hd Hl Hv. generalize (trim_zeros (dec 9 ns)). intros ds Hd Hl Hv. case_decide as He.
  - rewrite He in Hv. cbn [digits_value] in Hv. rewrite Z.mul_0_l in Hv. by subst ns.
  - change (("." +:+ ds) +:+ "Z") with (String (of_byte 46) (ds +:+ "Z")). unfold getfrac.
    change ((byte_of (of_byte 46) =? 46) || (byte_of (of_byte 46) =? 44)) with true. cbv iota.
    rewrite span_digits_app by done. rewrite decide_False by done.
    by rewrite substring_all, Hv by done.
Qed.

(** *** The round trip *)

(** The instants whose year has four digits. *)
Definition four_digit_year (t : timestamp) : Prop :=
  let '(y, _, _) := civil (t / 1000000 / 86400) in 0 ≤ y < 10000.

#[global] Instance four_digit_year_dec t : Decision (four_digit_year t).
Proof. unfold four_digit_year. destruct (civil _) as [[y m] d]. apply _. Defined.

Lemma append_assoc (a b c : string) : (a +:+ b) +:+ c = a +:+ (b +:+ c).
Proof. induction a as [|x a IH]; [done|]. rewrite !app_String. by rewrite IH. Qed.

Lemma scan_one c s : scan_lit (String c "") (String c "" +:+ s) = Some s.
Proof. simpl. by rewrite decide_True by done. Qed.

Lemma guard_in_ok lo n hi : lo ≤ n ≤ hi → guard_in lo n hi = Some tt.
Proof.
  intros [H1 H2]. unfold guard_in. apply Z.leb_le in H1, H2. by rewrite H1, H2.
Qed.

(** The next step of a parser whose input is known. *)
Ltac read :=
  progress cbn [mbind option_bind] ||
  first [rewrite scan_one | rewrite getnum_two by lia
        | rewrite guard_in_ok by lia].

Lemma Parse_Format t : four_digit_year t → Parse (Format t) = Some (t * 1000).
Proof.
  unfold four_digit_year, Format, Parse. set (secs := t / 1000000).
  destruct (civil (secs / 86400)) as [[y m] d] eqn:Hc. intros Hy.
  destruct (civil_spec _ _ _ _ Hc) as (Hm & Hd & Hd31 & Hday).
  set (sod := secs mod 86400). assert (0 ≤ sod < 86400) as Hs by (apply Z.mod_pos_bound; lia).
  assert (0 ≤ sod / 3600 ≤ 23 ∧ 0 ≤ sod / 60 mod 60 ≤ 59 ∧ 0 ≤ sod mod 60 ≤ 59) as (Hh & Hmi & Hse)
    by (Z.div_mod_to_equations; lia).
  assert (0 ≤ t mod 1000000 < 1000000) as Hf by (apply Z.mod_pos_bound; lia).
  assert (t * 1000 = (secs / 86400 * 86400 + sod / 3600 * 3600 + sod / 60 mod 60 * 60 + sod mod 60 - 0)
    * 1000000000 + t mod 1000000 * 1000) as Ht by (subst sod secs; Z.div_mod_to_equations; lia).
  revert Ht Hh Hmi Hse Hf. rewrite <-Hday. clear Hc Hday Hs.
  generalize (sod / 3600) (sod / 60 mod 60) (sod mod 60) (t mod 1000000). clear sod secs. intros hh mm ss us Ht ????.
  rewrite getyear_four by lia. repeat read. rewrite getfrac_format by lia. repeat read.
  change (getzone "Z") with (Some (0, "")). repeat read.
  rewrite bool_decide_eq_true_2 by done. cbn [negb]. repeat read. by rewrite Ht.
Qed.

Lemma dec_plain w n : Contains (dec w n) (of_byte 124) = false.
Proof. by apply no_digit_sep; [apply dec_digits|]. Qed.

Lemma appendInt_plain n w : Contains (appendInt n w) (of_byte 124) = false.
Proof.
  unfold appendInt. rewrite Contains_app. destruct (n <? 0), (Z.abs n <? 10 ^ Z.of_nat w);
    rewrite ?dec_plain; try done;
    destruct (pretty_digits (Z.abs_N n)) as (_ & Hd & _); by rewrite (no_digit_sep _ (pretty _)).
Qed.

(** No bar in a formatted time. *)
Lemma Format_plain t : Contains (Format t) (of_byte 124) = false.
Proof.
  assert (∀ ns, Contains (format_frac ns) (of_byte 124) = false) as Hfrac.
  { intros ns. unfold format_frac. pose proof (dec_plain 9 ns) as Hp. revert Hp. generalize (dec 9 ns).
    intros s. destruct (trim_zeros_spec s) as [k Hk]. rewrite Hk, Contains_app at 1.
    intros [Hp _]%orb_false_iff. case_decide; [done|]. rewrite Contains_app. by rewrite Hp. }
  unfold Format. destruct (civil _) as [[y m] d].
  rewrite !Contains_app, !appendInt_plain, Hfrac. done.
Qed.
