(* ===== verification/Schema.v ===== *)
(** * The database: enums, rows, tables, constraints and the state machine
    trigger (migrations/001_types.sql to migrations/030_shard_resize.sql).

    A table is a finite map from its primary key to its row, the columns of the
    key left out of the row; [DB] is the record of the tables.  An [update] of
    [jobs] goes through [update_job], which runs what Postgres runs on the row:
    the range of the integer columns, the [jobs_fsm] trigger and the check
    constraints, each with the sqlstate the violation raises. *)

From S2P Require Import Prelude.

(** ** Enums (001_types.sql, 020_dependencies.sql) *)

Inductive job_status :=
  | js_scheduled | js_queued | js_claimed | js_running
  | js_completed | js_retry_wait | js_dead_letter | js_cancelled.

Inductive exec_outcome :=
  | xo_success | xo_retryable_error | xo_permanent_error
  | xo_timeout | xo_lost | xo_fenced | xo_cancelled | xo_snoozed.

Inductive backoff_kind := bk_fixed | bk_linear | bk_exponential.

Inductive breaker_state := br_closed | br_open | br_half_open.

#[export] Instance job_status_eq_dec : EqDecision job_status.
Proof. solve_decision. Defined.
#[export] Instance exec_outcome_eq_dec : EqDecision exec_outcome.
Proof. solve_decision. Defined.
#[export] Instance backoff_kind_eq_dec : EqDecision backoff_kind.
Proof. solve_decision. Defined.
#[export] Instance breaker_state_eq_dec : EqDecision breaker_state.
Proof. solve_decision. Defined.

(** [status::text] and [outcome::text]. *)
Definition status_text (s : job_status) : string :=
  match s with
  | js_scheduled => "scheduled" | js_queued => "queued" | js_claimed => "claimed"
  | js_running => "running" | js_completed => "completed" | js_retry_wait => "retry_wait"
  | js_dead_letter => "dead_letter" | js_cancelled => "cancelled"
  end.

Definition outcome_text (o : exec_outcome) : string :=
  match o with
  | xo_success => "success" | xo_retryable_error => "retryable_error"
  | xo_permanent_error => "permanent_error" | xo_timeout => "timeout" | xo_lost => "lost"
  | xo_fenced => "fenced" | xo_cancelled => "cancelled" | xo_snoozed => "snoozed"
  end.

(** [status in ('claimed', 'running')]: the statuses that hold a slot. *)
Definition is_active (s : job_status) : bool :=
  match s with js_claimed | js_running => true | _ => false end.

(** [status in ('completed', 'dead_letter', 'cancelled')]. *)
Definition is_terminal (s : job_status) : bool :=
  match s with js_completed | js_dead_letter | js_cancelled => true | _ => false end.

(** [status in ('scheduled', 'queued', 'retry_wait')]. *)
Definition is_idle (s : job_status) : bool :=
  match s with js_scheduled | js_queued | js_retry_wait => true | _ => false end.

(** ** Rows *)

Record Job := mkJob {
  project_id : uuid;
  queue_id : uuid;
  schedule_id : option uuid;
  scheduled_for : option timestamp;
  batch_id : option uuid;
  jtype : string;
  payload : string;
  status : job_status;
  priority : Z;
  run_at : timestamp;
  fence : Z;
  attempt_count : Z;
  replay_generation : Z;
  snooze_count : Z;
  worker_id : option uuid;
  deadline_at : option timestamp;
  timeout_ms : Z;
  retry_policy_id : uuid;
  pending_deps : Z;
  shard : Z;
  created_at : timestamp;
  claimed_at : option timestamp;
  started_at : option timestamp;
  finished_at : option timestamp;
}.

#[export] Instance eta_Job : Eta Job := λ j,
  mkJob (project_id j) (queue_id j) (schedule_id j) (scheduled_for j) (batch_id j) (jtype j)
    (payload j) (status j) (priority j) (run_at j) (fence j) (attempt_count j)
    (replay_generation j) (snooze_count j) (worker_id j) (deadline_at j) (timeout_ms j)
    (retry_policy_id j) (pending_deps j) (shard j) (created_at j) (claimed_at j)
    (started_at j) (finished_at j).

Record Lease := mkLease {
  l_fence : Z;
  l_worker_id : uuid;
  expires_at : timestamp;
  progress : option string;
  l_updated_at : timestamp;
}.

#[export] Instance eta_Lease : Eta Lease := λ l,
  mkLease (l_fence l) (l_worker_id l) (expires_at l) (progress l) (l_updated_at l).

Record Exec := mkExec {
  x_job_id : uuid;
  x_queue_id : uuid;
  attempt : Z;
  x_replay_generation : Z;
  x_fence : Z;
  x_worker_id : uuid;
  outcome : option exec_outcome;
  error_class : option string;
  error_message : option string;
  x_started_at : timestamp;
  x_finished_at : option timestamp;
}.

#[export] Instance eta_Exec : Eta Exec := λ x,
  mkExec (x_job_id x) (x_queue_id x) (attempt x) (x_replay_generation x) (x_fence x)
    (x_worker_id x) (outcome x) (error_class x) (error_message x) (x_started_at x)
    (x_finished_at x).

(** [duration_ms]: generated, in milliseconds, rounded half away from zero. *)
Definition duration_ms (x : Exec) : option Z :=
  f ← x_finished_at x;
  let d := f - x_started_at x in
  Some (if 0 <=? d then (d + 500) / 1000 else - ((- d + 500) / 1000)).

Record Policy := mkPolicy {
  p_project_id : uuid;
  p_name : string;
  kind : backoff_kind;
  max_attempts : Z;
  max_lost_attempts : Z;
  base_delay_ms : Z;
  max_delay_ms : Z;
  jitter : bool;
}.

Record Queue := mkQueue {
  q_project_id : uuid;
  q_name : string;
  paused : bool;
  q_retry_policy_id : uuid;
  default_priority : Z;
  max_concurrency : Z;
  max_depth : option Z;
  rl_limit_per_sec : Q;
  rl_burst : Q;
  q_breaker_state : breaker_state;
  breaker_open_until : option timestamp;
  breaker_probe_budget : Z;
  shards : Z;
  q_created_at : timestamp;
}.

#[export] Instance eta_Queue : Eta Queue := λ q,
  mkQueue (q_project_id q) (q_name q) (paused q) (q_retry_policy_id q) (default_priority q)
    (max_concurrency q) (max_depth q) (rl_limit_per_sec q) (rl_burst q) (q_breaker_state q)
    (breaker_open_until q) (breaker_probe_budget q) (shards q) (q_created_at q).

(** A row of [queue_shards] (027_shards.sql). *)
Record Shard := mkShard {
  in_flight : Z;
  rl_tokens : Q;
  rl_refilled_at : timestamp;
}.

#[export] Instance eta_Shard : Eta Shard := λ s,
  mkShard (in_flight s) (rl_tokens s) (rl_refilled_at s).

Record Stat := mkStat {
  s_completed : Z;
  s_failed : Z;
  s_dead_lettered : Z;
  duration_ms_sum : Z;
  duration_ms_p50 : option Z;
  duration_ms_p95 : option Z;
}.

Definition zero_stat : Stat := mkStat 0 0 0 0 None None.

Inductive dead_reason :=
  | dr_attempts_exhausted | dr_permanent_error | dr_lost_exhausted | dr_timeout_exhausted.

Record DeadLetter := mkDeadLetter {
  d_queue_id : uuid;
  d_project_id : uuid;
  reason : dead_reason;
  last_error_class : option string;
  last_error_message : option string;
  execution_history : list (uuid * Exec);
  dead_at : timestamp;
  replayed_at : option timestamp;
  replayed_by : option uuid;
}.

#[export] Instance eta_DeadLetter : Eta DeadLetter := λ d,
  mkDeadLetter (d_queue_id d) (d_project_id d) (reason d) (last_error_class d)
    (last_error_message d) (execution_history d) (dead_at d) (replayed_at d) (replayed_by d).

(** The json of an event payload: a flat object. *)
Inductive jval := jstr (s : string) | jint (z : Z) | jbool (b : bool) | jreal (q : Q).

Record Event := mkEvent {
  e_id : Z;
  topic : string;
  entity_id : uuid;
  e_project_id : uuid;
  e_payload : list (string * jval);
  e_created_at : timestamp;
}.

Record Violation := mkViolation {
  v_job_id : uuid;
  v_worker_id : uuid;
  attempted : string;
  held_fence : Z;
  actual_fence : option Z;
  actual_status : option job_status;
  noticed_at : timestamp;
}.

Record Schedule := mkSchedule {
  sc_queue_id : uuid;
  sc_name : string;
  cron_expr : string;
  timezone : string;
  sc_job_type : string;
  sc_payload : string;
  enabled : bool;
  overlap_policy : string;
  catchup_policy : string;
  next_run_at : timestamp;
  last_fired_for : option timestamp;
  sc_created_at : timestamp;
}.

#[export] Instance eta_Schedule : Eta Schedule := λ s,
  mkSchedule (sc_queue_id s) (sc_name s) (cron_expr s) (timezone s) (sc_job_type s)
    (sc_payload s) (enabled s) (overlap_policy s) (catchup_policy s) (next_run_at s)
    (last_fired_for s) (sc_created_at s).

Record Worker := mkWorker {
  w_project_id : uuid;
  hostname : string;
  pid : Z;
  w_max_concurrency : Z;
  w_state : string;
  w_started_at : timestamp;
  last_seen_at : timestamp;
  handlers : list string;
}.

#[export] Instance eta_Worker : Eta Worker := λ w,
  mkWorker (w_project_id w) (hostname w) (pid w) (w_max_concurrency w) (w_state w)
    (w_started_at w) (last_seen_at w) (handlers w).

Record IdemKey := mkIdemKey {
  i_job_id : uuid;
  i_fingerprint : string;
  i_created_at : timestamp;
  i_expires_at : timestamp;
}.

Record Log := mkLog {
  lg_id : Z;
  lg_execution_id : uuid;
  lg_ts : timestamp;
  lg_level : string;
  lg_message : string;
}.

(** Accounts: [users], [sessions], [projects] and the audit log; [org_members]
    maps an organization and a user to the role. *)
Record User := mkUser {
  email : string;
  password_hash : string;
  u_name : option string;
  u_created_at : timestamp;
}.

Record Session := mkSession {
  s_user_id : uuid;
  issued_at : timestamp;
  s_expires_at : timestamp;
  revoked_at : option timestamp;
}.

#[export] Instance eta_Session : Eta Session := λ s,
  mkSession (s_user_id s) (issued_at s) (s_expires_at s) (revoked_at s).

Record Org := mkOrg {
  o_name : string;
  o_created_at : timestamp;
}.

#[export] Instance eta_Org : Eta Org := λ o, mkOrg (o_name o) (o_created_at o).

Record Project := mkProject {
  org_id : uuid;
  pr_name : string;
  pr_created_at : timestamp;
}.

#[export] Instance eta_Project : Eta Project := λ p,
  mkProject (org_id p) (pr_name p) (pr_created_at p).

Record Audit := mkAudit {
  au_project_id : uuid;
  actor_id : uuid;
  au_action : string;
  au_entity : string;
  au_entity_id : option uuid;
  au_detail : option (list (string * jval));
  au_at : timestamp;
}.

(** [failure_summaries], by the queue. *)
Record Summary := mkSummary {
  su_digest : string;
  su_summary : string;
  su_model : string;
  su_generated_at : timestamp;
}.

(** ** The database *)

Record DB := mkDB {
  jobs : gmap uuid Job;
  leases : gmap uuid Lease;
  execs : gmap uuid Exec;
  dead_letters : gmap uuid DeadLetter;
  deps : gset (uuid * uuid);
  queues : gmap uuid Queue;
  queue_shards : gmap (uuid * Z) Shard;
  policies : gmap uuid Policy;
  stats : gmap (uuid * Z) Stat;
  events : list Event;
  event_seq : Z;
  violations : list Violation;
  schedules : gmap uuid Schedule;
  workers : gmap uuid Worker;
  worker_queues : gset (uuid * uuid);
  idem_keys : gmap (uuid * string) IdemKey;
  logs : list Log;
  jobs_archive : list (uuid * Job);
  execs_archive : list (uuid * Exec);
  logs_archive : list Log;
  dead_letters_archive : list (uuid * DeadLetter);
  users : gmap uuid User;
  sessions : gmap uuid Session;
  org_members : gmap (uuid * uuid) string;
  projects : gmap uuid Project;
  audit_log : list Audit;
  organizations : gmap uuid Org;
  low_water_id : Z;
  partitions : gset (string * Z);
  log_seq : Z;
  summaries : gmap uuid Summary;
}.

#[export] Instance eta_DB : Eta DB := λ d,
  mkDB (jobs d) (leases d) (execs d) (dead_letters d) (deps d) (queues d) (queue_shards d)
    (policies d) (stats d) (events d) (event_seq d) (violations d) (schedules d) (workers d)
    (worker_queues d) (idem_keys d) (logs d) (jobs_archive d) (execs_archive d)
    (logs_archive d) (dead_letters_archive d) (users d) (sessions d) (org_members d)
    (projects d) (audit_log d) (organizations d) (low_water_id d) (partitions d) (log_seq d)
    (summaries d).

Definition empty_db : DB :=
  mkDB ∅ ∅ ∅ ∅ ∅ ∅ ∅ ∅ ∅ [] 0 [] ∅ ∅ ∅ ∅ [] [] [] [] [] ∅ ∅ ∅ ∅ [] ∅ 0 ∅ 0 ∅.

(** ** What a statement reads besides the tables

    [now] is [fl.now()], [backend_pid] is [pg_backend_pid()], [rnd] is the draw
    of [random()], [jitter_off] the setting [fl.jitter = 'off'], [locked] the
    job rows other transactions hold locked, which [skip locked] passes over,
    and [uuids] the values [fl.uuidv7()] returns, in order. *)

Record Env := mkEnv {
  now : timestamp;
  backend_pid : Z;
  rnd : Q;
  jitter_off : bool;
  locked : gset uuid;
  uuids : nat → uuid;
}.

(** ** Statements *)

Definition sqlstate := string.
Abbreviation sql := (tx DB sqlstate).

(** 23514, 23505, 23503, 23502, 22003, 55006 and the code of [raise exception]. *)
Definition check_violation : sqlstate := "23514".
Definition unique_violation : sqlstate := "23505".
Definition foreign_key_violation : sqlstate := "23503".
Definition not_null_violation : sqlstate := "23502".
Definition numeric_out_of_range : sqlstate := "22003".
Definition object_in_use : sqlstate := "55006".
Definition raise_exception : sqlstate := "P0001".

(** ** The job state machine (016_fsm_inline.sql) *)

(** [job_transitions], 005_side_tables.sql: the table of the legal moves. *)
Definition job_transitions : list (job_status * job_status) :=
  [ (js_scheduled, js_queued); (js_scheduled, js_cancelled);
    (js_queued, js_claimed); (js_queued, js_cancelled);
    (js_claimed, js_running); (js_claimed, js_queued); (js_claimed, js_retry_wait);
    (js_claimed, js_cancelled); (js_claimed, js_dead_letter);
    (js_running, js_completed); (js_running, js_retry_wait); (js_running, js_dead_letter);
    (js_running, js_cancelled); (js_running, js_queued); (js_running, js_scheduled);
    (js_retry_wait, js_queued); (js_retry_wait, js_cancelled);
    (js_retry_wait, js_dead_letter); (js_dead_letter, js_queued) ].

(** [fl.legal_transition]. *)
Definition legal_transition (from_status to_status : job_status) : bool :=
  match from_status, to_status with
  | js_scheduled, (js_queued | js_cancelled) => true
  | js_queued, (js_claimed | js_cancelled) => true
  | js_claimed, (js_running | js_queued | js_retry_wait | js_cancelled | js_dead_letter) => true
  | js_running, (js_completed | js_retry_wait | js_dead_letter | js_cancelled
                 | js_queued | js_scheduled) => true
  | js_retry_wait, (js_queued | js_cancelled | js_dead_letter) => true
  | js_dead_letter, js_queued => true
  | _, _ => false
  end.

(** The trigger function [jobs_fsm]: [true] when it lets the row through. *)
Definition jobs_fsm (old new : Job) : bool :=
  negb (fence new <? fence old) &&
  (bool_decide (status old = status new) || legal_transition (status old) (status new)).

(** ** The check constraints of [jobs] (002, 003 and 020) *)

Definition jobs_terminal_has_finished (j : Job) : bool :=
  Bool.eqb (is_terminal (status j)) (bool_decide (is_Some (finished_at j))).

Definition jobs_active_has_owner (j : Job) : bool :=
  if is_active (status j)
  then bool_decide (is_Some (worker_id j)) && bool_decide (is_Some (claimed_at j))
       && bool_decide (is_Some (deadline_at j))
  else true.

Definition jobs_running_has_started (j : Job) : bool :=
  if decide (status j = js_running) then bool_decide (is_Some (started_at j)) else true.

Definition jobs_idle_has_no_owner (j : Job) : bool :=
  if is_idle (status j) then bool_decide (worker_id j = None) else true.

Definition jobs_scheduled_deps_or_future (j : Job) : bool :=
  if decide (status j = js_scheduled)
  then (0 <? pending_deps j) || (created_at j <? run_at j) else true.

Definition jobs_fence_matches_attempts (j : Job) : bool := attempt_count j <=? fence j.

Definition jobs_deps_only_while_scheduled (j : Job) : bool :=
  (pending_deps j =? 0) || bool_decide (status j = js_scheduled).

(** The column checks [timeout_ms > 0], [pending_deps >= 0] and
    [schedule_id is null or scheduled_for is not null]; the size check on
    [payload] is left out, the payload being an opaque text here. *)
Definition jobs_column_checks (j : Job) : bool :=
  (0 <? timeout_ms j) && (0 <=? pending_deps j) &&
  (bool_decide (schedule_id j = None) || bool_decide (is_Some (scheduled_for j))).

Definition job_checks (j : Job) : bool :=
  jobs_terminal_has_finished j && jobs_active_has_owner j && jobs_running_has_started j &&
  jobs_idle_has_no_owner j && jobs_scheduled_deps_or_future j &&
  jobs_fence_matches_attempts j && jobs_deps_only_while_scheduled j && jobs_column_checks j.

(** The widths of the integer columns of [jobs]. *)
Definition job_in_range (j : Job) : bool :=
  in_int4 (priority j) && in_int8 (fence j) && in_int4 (attempt_count j) &&
  in_int4 (replay_generation j) && in_int4 (snooze_count j) && in_int4 (timeout_ms j) &&
  in_int4 (pending_deps j).

(** What Postgres checks of a row before it is written. *)
Definition job_valid (j : Job) : Prop := job_in_range j = true ∧ job_checks j = true.

(** ** Writing a row of [jobs] *)

(** [update jobs set ... where id = i], on a row that exists. *)
Definition update_job (i : uuid) (f : Job → Job) : sql unit := λ db,
  match jobs db !! i with
  | None => inr (tt, db)
  | Some old =>
    let new := f old in
    if negb (job_in_range new) then inl numeric_out_of_range
    else if negb (jobs_fsm old new) then inl raise_exception
    else if negb (job_checks new) then inl check_violation
    else inr (tt, db <| jobs := <[i := new]> (jobs db) |>)
  end.

(** [insert into jobs], with the primary key and the unique index
    [uq_jobs_schedule_tick on (schedule_id, scheduled_for)]. *)
Definition same_tick (j j' : Job) : bool :=
  bool_decide (is_Some (schedule_id j)) && bool_decide (schedule_id j = schedule_id j') &&
  bool_decide (scheduled_for j = scheduled_for j').

Definition tick_taken (j : Job) (db : DB) : bool :=
  bool_decide (select (λ _, same_tick j) (jobs db) ≠ []).

Definition insert_job (i : uuid) (j : Job) : sql unit := λ db,
  if negb (job_in_range j) then inl numeric_out_of_range
  else if negb (job_checks j) then inl check_violation
  else if bool_decide (is_Some (jobs db !! i)) || tick_taken j db then inl unique_violation
  else inr (tt, db <| jobs := <[i := j]> (jobs db) |>).

(** ** Lemmas *)

(** The two encodings of the state machine agree, as the [do] block of
    016_fsm_inline.sql checks when the migration runs. *)
Lemma legal_transition_table a b :
  legal_transition a b = true ↔ (a, b) ∈ job_transitions.
Proof.
  assert (legal_transition a b = bool_decide ((a, b) ∈ job_transitions)) as ->
    by (destruct a, b; reflexivity).
  apply bool_decide_eq_true.
Qed.

Lemma update_job_inv i f db db' :
  update_job i f db = inr (tt, db') →
  (jobs db !! i = None ∧ db' = db) ∨
  (∃ old, jobs db !! i = Some old ∧ job_in_range (f old) = true ∧
     jobs_fsm old (f old) = true ∧ job_checks (f old) = true ∧
     db' = db <| jobs := <[i := f old]> (jobs db) |>).
Proof.
  unfold update_job. destruct (jobs db !! i) as [old|] eqn:Hi; [|naive_solver].
  destruct (job_in_range (f old)) eqn:?; simpl; [|done].
  destruct (jobs_fsm old (f old)) eqn:?; simpl; [|done].
  destruct (job_checks (f old)) eqn:?; simpl; [|done].
  intros [= <-]. right. by exists old.
Qed.

(** [update_job] as a Hoare rule: what [Q] must satisfy on the row written. *)
Lemma hoare_update_job (P : DB → Prop) i f (Q : unit → DB → Prop) :
  (∀ db, P db → jobs db !! i = None → Q tt db) →
  (∀ db old, P db → jobs db !! i = Some old → job_in_range (f old) = true →
     jobs_fsm old (f old) = true → job_checks (f old) = true →
     Q tt (db <| jobs := <[i := f old]> (jobs db) |>)) →
  hoare P (update_job i f) Q.
Proof.
  intros HN HS db Hdb. destruct (update_job i f db) as [|[[] db']] eqn:Hu; [done|].
  apply update_job_inv in Hu as [[? ->]|(old & ? & ? & ? & ? & ->)]; eauto.
Qed.

Lemma jobs_fsm_fence old new : jobs_fsm old new = true → fence old ≤ fence new.
Proof. unfold jobs_fsm. intros [H _]%andb_true_iff. apply negb_true_iff in H. lia. Qed.

Lemma jobs_fsm_status old new :
  jobs_fsm old new = true →
  status old = status new ∨ legal_transition (status old) (status new) = true.
Proof.
  unfold jobs_fsm. intros [_ H]%andb_true_iff. apply orb_true_iff in H as [H|H]; [left|by right].
  by apply bool_decide_eq_true in H.
Qed.
