(* ===== verification/Partitions.v ===== *)
(** * The partitions of the tables that grow (migrations/006_archive.sql)

    [events], [job_logs] and the four archive tables are partitioned by day.
    [partitions] holds the partitions there are: the name of the parent table and
    the day, counted from the epoch of the timestamps.  A [timestamptz] becomes a
    [date] in the time zone of the session, which is taken to be UTC; the years
    have four digits, so that the name of a partition ends in eight. *)

From S2P Require Import Prelude Schema.

#[local] Open Scope string_scope.
#[local] Open Scope list_scope.
#[local] Open Scope Z_scope.

(** [t::date] *)
Definition day (t : timestamp) : Z := t / 86400000000.

(** ** fl.ensure_partition and fl.ensure_partitions *)

Definition ensure_partition (parent : string) (d : Z) : sql unit :=
  modify (λ db, db <| partitions := {[(parent, d)]} ∪ partitions db |>).

Fixpoint ensure_loop (fuel : nat) (parent : string) (d to_day : Z) : sql unit :=
  match fuel with
  | O => mret tt
  | S n => if d <=? to_day then _ ← ensure_partition parent d; ensure_loop n parent (d + 1) to_day
           else mret tt
  end.

(** There are [to_day - from_day + 1] turns. *)
Definition ensure_partitions (parent : string) (from_day to_day : Z) : sql unit :=
  ensure_loop (Z.to_nat (to_day - from_day + 1)) parent from_day to_day.

(** ** fl.drop_partitions_before *)

(** The partitions of [parent] older than [cutoff]. *)
Definition older (parent : string) (cutoff : Z) (db : DB) : gset (string * Z) :=
  filter (λ p : string * Z, p.1 = parent ∧ p.2 < cutoff) (partitions db).

(** The row with key [t] is in none of the partitions [gone]. *)
Definition stays (parent : string) (gone : gset (string * Z)) (t : option timestamp) : Prop :=
  match t with Some t => (parent, day t) ∉ gone | None => True end.

#[export] Instance stays_dec parent gone t : Decision (stays parent gone t).
Proof. unfold stays. destruct t; apply _. Defined.

(** [drop table]: the rows go with their partition. *)
Definition drop_tables (gone : gset (string * Z)) (db : DB) : DB := db
  <| partitions := partitions db ∖ gone |>
  <| events := filter (λ e, stays "events" gone (Some (e_created_at e))) (events db) |>
  <| logs := filter (λ l, stays "job_logs" gone (Some (lg_ts l))) (logs db) |>
  <| jobs_archive := filter (λ r : uuid * Job, stays "jobs_archive" gone (finished_at r.2)) (jobs_archive db) |>
  <| execs_archive :=
       filter (λ r : uuid * Exec, stays "job_executions_archive" gone (x_finished_at r.2)) (execs_archive db) |>
  <| logs_archive := filter (λ l, stays "job_logs_archive" gone (Some (lg_ts l))) (logs_archive db) |>
  <| dead_letters_archive :=
       filter (λ r : uuid * DeadLetter, stays "dead_letter_jobs_archive" gone (Some (dead_at r.2)))
         (dead_letters_archive db) |>.

Definition drop_partitions_before (parent : string) (cutoff : Z) : sql Z := λ db,
  let gone := older parent cutoff db in
  inr (Z.of_nat (size gone), drop_tables gone db).

(** ** Rows on their way into a partitioned table *)

(** There is a partition for a row with key [t]: without one the insert raises
    23514, as it does when the key is null. *)
Definition in_partition (parent : string) (db : DB) (t : option timestamp) : bool :=
  match t with Some t => bool_decide ((parent, day t) ∈ partitions db) | None => false end.

(** [fl.ensure_partitions(parent, min(t)::date, max(t)::date)] over the keys [l];
    of no key, the bounds are null and the loop ends at once. *)
Definition ensure_span (parent : string) (l : list timestamp) : sql unit :=
  match l with
  | [] => mret tt
  | t :: l' => ensure_partitions parent (day (foldr Z.min t l')) (day (foldr Z.max t l'))
  end.

(** ** What they do *)

Lemma ensure_partitions_run parent a b db :
  ∃ ps, ensure_partitions parent a b db = inr (tt, db <| partitions := ps |>) ∧
    ∀ p d, (p, d) ∈ ps ↔ (p, d) ∈ partitions db ∨ (p = parent ∧ a ≤ d ≤ b).
Proof.
  unfold ensure_partitions.
  assert (∀ n a db, Z.of_nat n = Z.max 0 (b - a + 1) →
    ∃ ps, ensure_loop n parent a b db = inr (tt, db <| partitions := ps |>) ∧
    ∀ p d, (p, d) ∈ ps ↔ (p, d) ∈ partitions db ∨ (p = parent ∧ a ≤ d ≤ b)) as H.
  2: { apply H. lia. }
  clear a db. intros n. induction n as [|n IH]; intros a db Hn.
  - exists (partitions db). split; [by destruct db|]. intros p d. split; [tauto|]. intros [?|[_ ?]]; [done|lia].
  - simpl. destruct (Z.leb_spec a b) as [Hab|]; [|lia].
    destruct (IH (a + 1) (db <| partitions := {[(parent, a)]} ∪ partitions db |>)) as (ps & Hr & Hps); [lia|].
    exists ps. split; [exact Hr|]. intros p d. rewrite (Hps p d). simpl. rewrite elem_of_union, elem_of_singleton.
    split.
    + intros [[[= -> ->]|?]|[-> ?]]; [right; split; [done|lia]|by left|right; split; [done|lia]].
    + intros [?|[-> ?]]; [tauto|]. destruct (decide (d = a)) as [->|]; [tauto|]. right. split; [done|lia].
Qed.

(** [keeps] of what reads no partition. *)
Lemma keeps_ensure (P : DB → Prop) parent a b :
  (∀ db ps, P db → P (db <| partitions := ps |>)) → keeps P (ensure_partitions parent a b).
Proof. intros HP db Hdb. destruct (ensure_partitions_run parent a b db) as (ps & -> & _). by apply HP. Qed.

Lemma keeps_ensure_span (P : DB → Prop) parent l :
  (∀ db ps, P db → P (db <| partitions := ps |>)) → keeps P (ensure_span parent l).
Proof. intros HP. destruct l; [apply keeps_ret|by apply keeps_ensure]. Qed.

Lemma foldr_min_le (t : Z) l x : x ∈ t :: l → foldr Z.min t l ≤ x.
Proof.
  induction l as [|y l IH]; simpl; [intros ->%list_elem_of_singleton; lia|].
  intros [->|[->|Hx]%elem_of_cons]%elem_of_cons; [|lia|].
  - assert (foldr Z.min t l ≤ t) by (apply IH, elem_of_cons; auto). lia.
  - assert (foldr Z.min t l ≤ x) by (apply IH, elem_of_cons; auto). lia.
Qed.

Lemma foldr_min_in (t : Z) l : foldr Z.min t l ∈ t :: l.
Proof.
  induction l as [|y l IH]; simpl; [by left|].
  destruct (Z.min_spec y (foldr Z.min t l)) as [[_ ->]|[_ ->]]; [by right; left|].
  apply elem_of_cons in IH as [->|IH]; [by left|by right; right].
Qed.

Lemma foldr_max_ge (t : Z) l x : x ∈ t :: l → x ≤ foldr Z.max t l.
Proof.
  induction l as [|y l IH]; simpl; [intros ->%list_elem_of_singleton; lia|].
  intros [->|[->|Hx]%elem_of_cons]%elem_of_cons; [|lia|].
  - assert (t ≤ foldr Z.max t l) by (apply IH, elem_of_cons; auto). lia.
  - assert (x ≤ foldr Z.max t l) by (apply IH, elem_of_cons; auto). lia.
Qed.

Lemma day_mono t u : t ≤ u → day t ≤ day u.
Proof. intros. apply Z.div_le_mono; lia. Qed.

Lemma ensure_span_run parent l db :
  ∃ ps, ensure_span parent l db = inr (tt, db <| partitions := ps |>) ∧
    partitions db ⊆ ps ∧ ∀ t, t ∈ l → (parent, day t) ∈ ps.
Proof.
  destruct l as [|t l].
  - exists (partitions db). split; [by destruct db|]. split; [done|]. by intros t ?%elem_of_nil.
  - destruct (ensure_partitions_run parent (day (foldr Z.min t l)) (day (foldr Z.max t l)) db) as (ps & Hr & Hps).
    exists ps. split; [exact Hr|]. split; [intros [p d] ?; apply Hps; tauto|]. intros x Hx. apply Hps. right.
    split; [done|]. split; apply day_mono; [by apply foldr_min_le|by apply foldr_max_ge].
Qed.
