(* ===== verification/Fl.v ===== *)
(** * The functions of the schema [fl]

    The PL/pgSQL and SQL functions the Go code calls, in their last version:
    [fl.backoff] (007), [fl.emit] (014), [fl.cancel_descendants] and
    [fl.finish_dependents] (021), [fl.replay_dead] (025), [fl.queue_release],
    [fl.queue_admit], [fl.shard_slots], [fl.in_flight] and
    [fl.reconcile_in_flight] (027), the [fl.report_*] functions (028) and
    [fl.spread] (030).  Each statement of a function body is a step of the [sql]
    monad, in the order of the body. *)

From S2P Require Import Prelude Schema.

(** ** Orders of the queries *)

Definition by_id {V} (a b : uuid * V) : Prop := (a.1 <= b.1)%N.
#[export] Instance by_id_dec {V} : RelDecision (@by_id V) := λ a b, decide (a.1 <= b.1)%N.

(** [order by k, id] for an integer key [k]. *)
Definition by_key {V} (k : uuid * V → Z) (a b : uuid * V) : Prop :=
  k a < k b ∨ (k a = k b ∧ (a.1 <= b.1)%N).
#[export] Instance by_key_dec {V} (k : uuid * V → Z) : RelDecision (by_key k).
Proof. intros a b. unfold by_key. apply _. Defined.

Definition id_le (a b : uuid) : Prop := (a <= b)%N.
#[export] Instance id_le_dec : RelDecision id_le := λ a b, decide (a <= b)%N.

(** ** fl.backoff: milliseconds before the draw, then the interval, in
    microseconds *)

Definition backoff_ms (k : backoff_kind) (base_ms max_ms attempt : Z) : Z :=
  Z.min max_ms
    (base_ms * match k with
               | bk_fixed => 1
               | bk_linear => Z.max attempt 1
               | bk_exponential => 2 ^ Z.max (attempt - 1) 0
               end).

Definition backoff (env : Env) (k : backoff_kind) (base_ms max_ms : Z) (jit : bool)
    (attempt : Z) : Z :=
  let d := backoff_ms k base_ms max_ms attempt in
  if jit && negb (jitter_off env)
  then Qfloor (rnd env * inject_Z (d * 1000) + (1 # 2))%Q
  else d * 1000.

(** ** fl.emit: the outbox

    The partition of the day is taken to exist (Retention). *)

Definition emit (env : Env) (p_topic : string) (p_entity p_project : uuid)
    (p_payload : list (string * jval)) : sql unit :=
  modify (λ db,
    let id := event_seq db + 1 in
    db <| event_seq := id |>
       <| events := events db ++ [mkEvent id p_topic p_entity p_project p_payload (now env)] |>).

(** ** Concurrency slots *)

Definition queue_release (q : uuid) (s n : Z) : sql unit :=
  modify (λ db, db <| queue_shards :=
    alter (λ r, r <| in_flight := Z.max (in_flight r - n) 0 |>) (q, s) (queue_shards db) |>).

Definition shard_slots (max_conc shard_count s : Z) : Z :=
  max_conc / shard_count + (if s <? max_conc mod shard_count then 1 else 0).

Definition shards_of (q : uuid) (db : DB) : list (Z * Shard) :=
  (λ kv : (uuid * Z) * Shard, (kv.1.2, kv.2)) <$>
    select (λ k _, bool_decide (k.1 = q)) (queue_shards db).

(** [fl.in_flight]: the sum over the shards of the queue. *)
Definition in_flight_of (q : uuid) (db : DB) : Z :=
  foldr (λ s acc, in_flight s.2 + acc) 0 (shards_of q db).

(** The tokens of a shard at [fl.now()], capped by its share of the burst. *)
Definition refilled (env : Env) (qr : Queue) (r : Shard) : Q :=
  Qmin (rl_burst qr / inject_Z (shards qr))
    (rl_tokens r +
     inject_Z (now env - rl_refilled_at r) / inject_Z 1000000 *
     (rl_limit_per_sec qr / inject_Z (shards qr)))%Q.

Definition rot_key (env : Env) (qr : Queue) (s : Z) : Z :=
  Z.rem (s + backend_pid env) (shards qr).

Definition by_rot (env : Env) (qr : Queue) (a b : Z * Shard) : Prop :=
  rot_key env qr a.1 < rot_key env qr b.1 ∨
  (rot_key env qr a.1 = rot_key env qr b.1 ∧ a.1 ≤ b.1).
#[export] Instance by_rot_dec env qr : RelDecision (by_rot env qr).
Proof. intros a b. unfold by_rot. apply _. Defined.

(** The breaker part of [fl.queue_admit]: [None] refuses, [Some want'] goes on,
    with [want' = 1] unless the breaker is closed. *)
Definition admit_breaker (env : Env) (q : uuid) (qr : Queue) (want : Z) : sql (option Z) :=
  if decide (q_breaker_state qr = br_closed) then mret (Some want)
  else if decide (q_breaker_state qr = br_open) then
    if now env <? default (now env) (breaker_open_until qr) then mret None
    else
      _ ← modify (λ db, db <| queues := <[q := qr <| q_breaker_state := br_half_open |>
                                                 <| breaker_probe_budget := 1 |>]> (queues db) |>);
      mret (Some 1)
  else mret (if breaker_probe_budget qr <=? 0 then None else Some 1).

(** The rest of it: pick a shard with room, grant, and charge the counter, the
    bucket and the probe budget. *)
Definition admit_shard (env : Env) (q : uuid) (qr : Queue) (want : Z) : sql (Z * Z) :=
  cands ← gets (λ db, merge_sort (by_rot env qr)
    (filter (λ s : Z * Shard,
       in_flight s.2 < shard_slots (max_concurrency qr) (shards qr) s.1) (shards_of q db)));
  match cands with
  | [] => mret (0, 0)
  | (sh, sr) :: _ =>
    let cap := shard_slots (max_concurrency qr) (shards qr) sh in
    let free := Qeq_bool (rl_limit_per_sec qr) 0 in
    let tokens := Qfloor (refilled env qr sr) in
    if negb free && negb (in_int4 tokens) then raise numeric_out_of_range else
    let slots := Z.min want (Z.min (Z.max (cap - in_flight sr) 0)
                   (if free then want else tokens)) in
    if slots <=? 0 then mret (0, sh) else
    _ ← modify (λ db, db <| queue_shards := <[(q, sh) :=
          mkShard (in_flight sr + slots)
            (if free then rl_tokens sr else refilled env qr sr - inject_Z slots)%Q
            (if free then rl_refilled_at sr else now env)]> (queue_shards db) |>);
    _ ← (if decide (q_breaker_state qr = br_closed) then mret tt
         else modify (λ db, db <| queues := alter (λ r,
                r <| breaker_probe_budget := breaker_probe_budget r - slots |>) q (queues db) |>));
    mret (slots, sh)
  end.

(** [fl.queue_admit(q, want)]: the slots granted and the shard they are on. *)
Definition queue_admit (env : Env) (q : uuid) (want : Z) : sql (Z * Z) :=
  oqr ← gets (λ db, queues db !! q);
  match oqr with
  | None => mret (0, 0)
  | Some qr =>
    if paused qr then mret (0, 0) else
    w ← admit_breaker env q qr want;
    match w with None => mret (0, 0) | Some want' => admit_shard env q qr want' end
  end.

(** The jobs that hold a slot of shard [s] of queue [q]. *)
Definition holds_slot (q : uuid) (s : Z) (j : Job) : bool :=
  is_active (status j) && bool_decide (queue_id j = q) && bool_decide (shard j = s).

Definition active_on (q : uuid) (s : Z) (db : DB) : Z := mcount (holds_slot q s) (jobs db).

(** [fl.reconcile_in_flight()]: sets every counter to the number of jobs that
    hold a slot and returns how many it changed. *)
Definition reconcile_shard (k : uuid * Z) : sql Z := λ db,
  match queue_shards db !! k with
  | None => inr (0, db)
  | Some r =>
    let real := active_on k.1 k.2 db in
    if in_flight r =? real then inr (0, db)
    else inr (1, db <| queue_shards := <[k := r <| in_flight := real |>]> (queue_shards db) |>)
  end.

Definition reconcile_in_flight : sql Z :=
  ks ← gets (λ db, (map_to_list (queue_shards db)).*1);
  ns ← traverse ks reconcile_shard;
  mret (foldr Z.add 0 ns).

(** ** Dependencies *)

(** [select child_id from job_dependencies where parent_id = p]. *)
Definition children (p : uuid) (d : gset (uuid * uuid)) : list uuid :=
  (filter (λ e : uuid * uuid, e.1 = p) (elements d)).*2.

(** [select parent_id from job_dependencies where child_id = c]. *)
Definition parents (c : uuid) (d : gset (uuid * uuid)) : list uuid :=
  (filter (λ e : uuid * uuid, e.2 = c) (elements d)).*1.

(** The recursive query [down]: rows are a node with the path that led to it,
    and a row is extended by the children that are not on its path. *)
Definition down_start (root : uuid) (d : gset (uuid * uuid)) : list (uuid * list uuid) :=
  (λ c, (c, [root; c])) <$> children root d.

Definition down_next (d : gset (uuid * uuid)) (row : uuid * list uuid) : list (uuid * list uuid) :=
  (λ c, (c, row.2 ++ [c])) <$> filter (λ c, c ∉ row.2) (children row.1 d).

(** [union all] of the working tables; a path has no repeated node, so there
    are at most as many rounds as nodes. *)
Fixpoint rounds {A} (next : A → list A) (fuel : nat) (work : list A) : list A :=
  match fuel with
  | O => work
  | S n => match work with [] => [] | _ => work ++ rounds next n (work ≫= next) end
  end.

Definition down (root : uuid) (d : gset (uuid * uuid)) : list uuid :=
  (rounds (down_next d) (S (size d)) (down_start root d)).*1.

(** [fl.cancel_descendants(root)]: the ids it cancelled. *)
Definition cancel_row (env : Env) (j : Job) : Job :=
  j <| status := js_cancelled |> <| finished_at := Some (now env) |>
    <| pending_deps := 0 |> <| worker_id := None |>.

Definition cancel_descendants (env : Env) (root : uuid) : sql (list uuid) :=
  ids ← gets (λ db, (select (λ i j, bool_decide (i ∈ down root (deps db)) && is_idle (status j))
                       (jobs db)).*1);
  _ ← foreach ids (λ i, update_job i (cancel_row env));
  mret ids.

(** [fl.finish_dependents(parent)]: the children whose count it lowered. *)
Definition dependent_row (env : Env) (c : Job) : Job :=
  c <| pending_deps := pending_deps c - 1 |>
    <| status := if (pending_deps c - 1 =? 0) && (run_at c <=? now env)
                 then js_queued else status c |>.

Definition finish_dependents (env : Env) (parent : uuid) : sql (list uuid) :=
  ids ← gets (λ db, (select (λ i c, bool_decide ((parent, i) ∈ deps db) &&
                       bool_decide (status c = js_scheduled) && (0 <? pending_deps c))
                       (jobs db)).*1);
  _ ← foreach ids (λ i, update_job i (dependent_row env));
  mret ids.

(** ** Statistics *)

Definition minute (env : Env) : Z := now env - now env mod 60000000.

(** [insert ... on conflict do update set c = c + excluded.c]. *)
Definition add_stat (env : Env) (q : uuid) (c f d ms : Z) : sql unit :=
  modify (λ db,
    let s := default zero_stat (stats db !! (q, minute env)) in
    db <| stats := <[(q, minute env) :=
      mkStat (s_completed s + c) (s_failed s + f) (s_dead_lettered s + d)
        (duration_ms_sum s + ms) (duration_ms_p50 s) (duration_ms_p95 s)]> (stats db) |>).

(** ** Executions *)

Definition exec_open (x : Exec) : bool := bool_decide (x_finished_at x = None).

(** [je_finished_after_started] and [je_outcome_with_finish]. *)
Definition exec_checks (x : Exec) : bool :=
  match x_finished_at x with
  | None => bool_decide (outcome x = None)
  | Some f => (x_started_at x <=? f) && bool_decide (is_Some (outcome x))
  end.

(** [update job_executions set ... where sel].  Every caller selects rows that
    are not finished, so the trigger [je_no_reclose] never raises. *)
Definition update_execs (sel : uuid → Exec → bool) (f : Exec → Exec) : sql unit := λ db,
  if forallb (λ kv : uuid * Exec, exec_checks (f kv.2)) (select sel (execs db))
  then inr (tt, db <| execs :=
              map_imap (λ i x, Some (if sel i x then f x else x)) (execs db) |>)
  else inl check_violation.

(** [set outcome = o, finished_at = fl.now()], the error columns as they are. *)
Definition finish_row (env : Env) (o : exec_outcome) (x : Exec) : Exec :=
  x <| outcome := Some o |> <| x_finished_at := Some (now env) |>.

(** The same with [error_class] and [error_message]. *)
Definition close_row (env : Env) (o : exec_outcome) (cls msg : option string) (x : Exec) : Exec :=
  (finish_row env o x) <| error_class := cls |> <| error_message := msg |>.

(** [where x.id = exec and x.finished_at is null]. *)
Definition open_exec_is (exec i : uuid) (x : Exec) : bool :=
  bool_decide (i = exec) && exec_open x.

(** [where x.job_id = job and x.finished_at is null]. *)
Definition open_exec_of (job i : uuid) (x : Exec) : bool :=
  bool_decide (x_job_id x = job) && exec_open x.

Definition drop_lease (job : uuid) : sql unit :=
  modify (λ db, db <| leases := delete job (leases db) |>).

(** [perform fl.emit(topic, w.id, w.project_id, payload) from (select ... where
    id = any(ids) [and ...] order by project_id, id) w]. *)
Definition emit_each (env : Env) (t : string) (pl : list (string * jval)) (ids : list uuid)
    (keep : Job → bool) : sql unit :=
  rows ← gets (λ db, merge_sort (by_key (λ r : uuid * Job, Z.of_N (project_id r.2)))
    (select (λ i j, bool_decide (i ∈ ids) && keep j) (jobs db)));
  foreach rows (λ r, emit env t r.1 (project_id r.2) pl).

(** ** Reporting *)

Definition success_payload : list (string * jval) :=
  [("status", jstr "completed"); ("outcome", jstr "success")].

(** [set status = 'completed', finished_at = fl.now(), worker_id = null]. *)
Definition completed_row (env : Env) (j : Job) : Job :=
  j <| status := js_completed |> <| finished_at := Some (now env) |> <| worker_id := None |>.

(** [where j.fence = fence and j.status = 'running']. *)
Definition owns_running (f : Z) (j : Job) : bool :=
  (fence j =? f) && bool_decide (status j = js_running).

(** [fl.report_success(job, fence, exec)]: the queue, or no row. *)
Definition report_success (env : Env) (job : uuid) (f : Z) (exec : uuid) : sql (option uuid) :=
  oj ← gets (λ db, jobs db !! job);
  match oj with
  | None => mret None
  | Some j =>
    if negb (owns_running f j) then mret None else
    _ ← update_job job (completed_row env);
    was_open ← gets (λ db, from_option exec_open false (execs db !! exec));
    _ ← update_execs (open_exec_is exec) (finish_row env xo_success);
    dur ← gets (λ db, if was_open : bool then execs db !! exec ≫= duration_ms else None);
    woke ← finish_dependents env job;
    _ ← drop_lease job;
    _ ← add_stat env (queue_id j) 1 0 0 (default 0 dur);
    _ ← queue_release (queue_id j) (shard j) 1;
    _ ← emit_each env "job.queued" [] woke (λ w, bool_decide (status w = js_queued));
    _ ← emit env "job.completed" job (project_id j) success_payload;
    mret (Some (queue_id j))
  end.

(** [permanent or j.attempt_count >= rp.max_attempts]. *)
Definition exhausted (permanent : bool) (rp : Policy) (j : Job) : bool :=
  permanent || (max_attempts rp <=? attempt_count j).

Definition failed_row (env : Env) (permanent : bool) (rp : Policy) (j : Job) : Job :=
  j <| status := if exhausted permanent rp j then js_dead_letter else js_retry_wait |>
    <| run_at := if exhausted permanent rp j then run_at j
                 else now env + backoff env (kind rp) (base_delay_ms rp) (max_delay_ms rp)
                                  (jitter rp) (attempt_count j) |>
    <| finished_at := if exhausted permanent rp j then Some (now env) else None |>
    <| worker_id := None |>.

(** [j.status in ('claimed', 'running') and (fence is null or j.fence = fence)]. *)
Definition owns_active (f : option Z) (j : Job) : bool :=
  is_active (status j) && match f with None => true | Some n => fence j =? n end.

Definition history (job : uuid) (db : DB) : list (uuid * Exec) :=
  merge_sort (by_key (λ r : uuid * Exec, attempt r.2))
    (select (λ _ x, bool_decide (x_job_id x = job)) (execs db)).

(** [insert into dead_letter_jobs ... on conflict (job_id) do nothing]. *)
Definition insert_dead_letter (env : Env) (job : uuid) (j : Job) (o : exec_outcome)
    (cls msg : option string) (permanent : bool) : sql unit :=
  modify (λ db,
    match dead_letters db !! job with
    | Some _ => db
    | None => db <| dead_letters := <[job := mkDeadLetter (queue_id j) (project_id j)
        (if permanent then dr_permanent_error
         else if decide (o = xo_lost) then dr_lost_exhausted else dr_attempts_exhausted)
        cls msg (history job db) (now env) None None]> (dead_letters db) |>
    end).

(** [fl.report_failure(job, fence, outcome, error_class, error_message, permanent)]. *)
Definition report_failure (env : Env) (job : uuid) (f : option Z) (o : exec_outcome)
    (cls msg : option string) (permanent : bool) : sql (option uuid) :=
  row ← gets (λ db, j ← jobs db !! job; rp ← policies db !! retry_policy_id j; Some (j, rp));
  match row with
  | None => mret None
  | Some (j, rp) =>
    if negb (owns_active f j) then mret None else
    let dead := exhausted permanent rp j in
    _ ← update_job job (failed_row env permanent rp);
    killed ← (if dead then cancel_descendants env job else mret []);
    _ ← update_execs (open_exec_of job) (close_row env o cls msg);
    _ ← drop_lease job;
    _ ← add_stat env (queue_id j) 0 (if dead then 0 else 1) (if dead then 1 else 0) 0;
    _ ← (if dead then insert_dead_letter env job j o cls msg permanent else mret tt);
    _ ← queue_release (queue_id j) (shard j) 1;
    _ ← emit_each env "job.cancelled" [("from", jstr "ancestor_dead_lettered")] killed (λ _, true);
    _ ← emit env (if dead then "job.dead_lettered"
                  else if decide (o = xo_lost) then "job.lost" else "job.failed")
          job (project_id j)
          [("status", jstr (status_text (if dead then js_dead_letter else js_retry_wait)));
           ("outcome", jstr (outcome_text o))];
    mret (Some (queue_id j))
  end.

Definition snoozed_row (env : Env) (rp : Policy) (delay_ms : Z) (j : Job) : Job :=
  j <| status := js_scheduled |>
    <| fence := fence j + 1 |>
    <| run_at := now env + Z.max (Z.min delay_ms (max_delay_ms rp)) 0 * 1000 |>
    <| snooze_count := snooze_count j + 1 |>
    <| worker_id := None |> <| claimed_at := None |> <| deadline_at := None |>.

(** [fl.report_snooze(job, fence, exec, delay_ms)]. *)
Definition report_snooze (env : Env) (job : uuid) (f : Z) (exec : uuid) (delay_ms : Z)
    : sql (option uuid) :=
  row ← gets (λ db, j ← jobs db !! job; rp ← policies db !! retry_policy_id j; Some (j, rp));
  match row with
  | None => mret None
  | Some (j, rp) =>
    if negb (owns_running f j && (snooze_count j <? max_attempts rp)) then mret None else
    _ ← update_job job (snoozed_row env rp delay_ms);
    _ ← update_execs (open_exec_is exec) (finish_row env xo_snoozed);
    _ ← drop_lease job;
    _ ← queue_release (queue_id j) (shard j) 1;
    _ ← emit env "job.snoozed" job (project_id j) [("delay_ms", jint delay_ms)];
    mret (Some (queue_id j))
  end.

(** [fl.report_success_batch(ids, fences, execs)] *)

(** The update of [jobs]: the input rows whose job is running under the fence
    they carry.  A second input row for a job already completed no longer
    matches, so a job is returned once. *)
Fixpoint batch_update (env : Env) (input : list (uuid * Z * uuid)) : sql (list (uuid * uuid)) :=
  match input with
  | [] => mret []
  | (i, f, x) :: rest =>
    oj ← gets (λ db, jobs db !! i);
    if from_option (owns_running f) false oj then
      _ ← update_job i (completed_row env);
      r ← batch_update env rest;
      mret ((i, x) :: r)
    else batch_update env rest
  end.

(** [select queue_id, count(x), sum(duration_ms) ... where id = any(xs) group by queue_id]. *)
Definition batch_stats (xs : list uuid) (db : DB) : list (uuid * Z * Z) :=
  let rows := select (λ i _, bool_decide (i ∈ xs)) (execs db) in
  (λ q, let g := filter (λ r : uuid * Exec, x_queue_id r.2 = q) rows in
        (q, Z.of_nat (length g),
         foldr (λ r acc, default 0 (duration_ms r.2) + acc) 0 g)) <$>
    remove_dups ((λ r : uuid * Exec, x_queue_id r.2) <$> rows).

(** [select queue_id, shard, count(x) from jobs where id = any(ids) group by
    queue_id, shard]. *)
Definition batch_slots (ids : list uuid) (db : DB) : list (uuid * Z * Z) :=
  (λ k : uuid * Z,
     (k.1, k.2, mcount (λ j, bool_decide ((queue_id j, shard j) = k))
                  (filter (λ r : uuid * Job, r.1 ∈ ids) (jobs db)))) <$>
    remove_dups ((λ r : uuid * Job, (queue_id r.2, shard r.2)) <$>
                   select (λ i _, bool_decide (i ∈ ids)) (jobs db)).

Definition report_success_batch (env : Env) (input : list (uuid * Z * uuid)) : sql (list uuid) :=
  done_ ← batch_update env input;
  let ids := done_.*1 in
  let xs := done_.*2 in
  match ids with
  | [] => mret []
  | _ =>
    woke ← traverse (merge_sort id_le ids) (finish_dependents env);
    _ ← update_execs (λ i x, bool_decide (i ∈ xs) && exec_open x) (finish_row env xo_success);
    _ ← foreach ids drop_lease;
    sts ← gets (batch_stats xs);
    _ ← foreach sts (λ t : uuid * Z * Z, add_stat env t.1.1 t.1.2 0 0 t.2);
    rel ← gets (batch_slots ids);
    _ ← foreach rel (λ t : uuid * Z * Z, queue_release t.1.1 t.1.2 t.2);
    _ ← emit_each env "job.queued" [] (concat woke) (λ w, bool_decide (status w = js_queued));
    _ ← emit_each env "job.completed" success_payload ids (λ _, true);
    mret ids
  end.

(** ** fl.replay_dead: the bulk replay of a dead letter queue *)

Definition queued_count (q : uuid) (db : DB) : Z :=
  mcount (λ j, bool_decide (queue_id j = q) && bool_decide (status j = js_queued)) (jobs db).

Definition has_cancelled_child (i : uuid) (db : DB) : bool :=
  existsb (λ c, from_option (λ j, bool_decide (status j = js_cancelled)) false (jobs db !! c))
    (children i (deps db)).

Definition replayable (q : uuid) (db : DB) (i : uuid) (d : DeadLetter) : bool :=
  bool_decide (d_queue_id d = q) && bool_decide (replayed_at d = None) &&
  from_option (λ j, bool_decide (status j = js_dead_letter)) false (jobs db !! i) &&
  negb (has_cancelled_child i db).

(** [set status = 'queued', attempt_count = 0, replay_generation + 1, run_at = at,
    finished_at = null, worker_id = null]. *)
Definition replayed_row (at_ : timestamp) (j : Job) : Job :=
  j <| status := js_queued |> <| attempt_count := 0 |>
    <| replay_generation := replay_generation j + 1 |> <| run_at := at_ |>
    <| finished_at := None |> <| worker_id := None |>.

(** [(seq - 1) / per_sec] seconds. *)
Definition stagger (per_sec : Q) (k : Z) : Z :=
  if Qle_bool per_sec 0 then 0
  else Qfloor (inject_Z (k * 1000000) / per_sec + (1 # 2))%Q.

Definition mark_replayed (env : Env) (i : uuid) (actor : option uuid) : sql unit :=
  modify (λ db, db <| dead_letters := alter (λ d,
    d <| replayed_at := Some (now env) |> <| replayed_by := actor |>) i (dead_letters db) |>).

Definition replay_dead (env : Env) (q : uuid) (cap : Z) (per_sec : Q) (actor : option uuid)
    : sql (list uuid) :=
  oq ← gets (λ db, queues db !! q);
  match oq with
  | None => mret []
  | Some qr =>
    depth ← gets (queued_count q);
    let room := Z.min cap (from_option (λ m, Z.max (m - depth) 0) cap (max_depth qr)) in
    if room <=? 0 then mret [] else
    rows ← gets (λ db, merge_sort (by_key (λ r : uuid * DeadLetter, dead_at r.2))
                         (select (replayable q db) (dead_letters db)));
    let ids := take (Z.to_nat room) rows.*1 in
    _ ← foreach (imap (λ k i, (Z.of_nat k, i)) (merge_sort id_le ids)) (λ t : Z * uuid,
          update_job t.2 (replayed_row (now env + stagger per_sec t.1)));
    _ ← foreach ids (λ i, mark_replayed env i actor);
    _ ← foreach (merge_sort id_le ids) (λ i,
          emit env "job.replayed" i (q_project_id qr) [("bulk", jbool true)]);
    mret ids
  end.

(** ** fl.spread: the trigger that keeps one row per shard of a queue *)

Definition shard_row (env : Env) (new : Queue) : Shard :=
  mkShard 0 (rl_burst new / inject_Z (shards new))%Q (now env).

(** [old] is [None] on insert. *)
Definition spread (env : Env) (q : uuid) (old : option Queue) (new : Queue) : sql unit := λ db,
  let resized := from_option (λ o, bool_decide (shards o ≠ shards new)) false old in
  if resized &&
     (existsb (λ s : Z * Shard, 0 <? in_flight s.2) (shards_of q db) ||
      bool_decide (select (λ _ j, bool_decide (queue_id j = q) && is_active (status j)) (jobs db) ≠ []))
  then inl object_in_use
  else
    let kept := if resized
                then filter (λ r : (uuid * Z) * Shard, ¬ (r.1.1 = q ∧ shards new ≤ r.1.2)) (queue_shards db)
                else queue_shards db in
    let fresh : gmap (uuid * Z) Shard :=
      list_to_map ((λ g, ((q, g), shard_row env new)) <$> seqZ 0 (shards new)) in
    let clamp := λ (k : uuid * Z) (r : Shard),
      Some (if decide (k.1 = q)
            then r <| rl_tokens := Qmin (rl_tokens r) (rl_burst new / inject_Z (shards new))%Q |>
            else r) in
    inr (tt, db <| queue_shards := map_imap clamp (kept ∪ fresh) |>).

(** ** Lemmas: what each step may change

    One rule per primitive: an invariant is kept when it does not depend on the
    table the primitive writes. *)

Lemma keeps_emit (P : DB → Prop) env t e p pl :
  (∀ db s ev, P db → P (db <| event_seq := s |> <| events := ev |>)) →
  keeps P (emit env t e p pl).
Proof. intros H. apply keeps_modify. intros db Hdb. by apply H. Qed.

Lemma keeps_drop_lease (P : DB → Prop) i :
  (∀ db, P db → P (db <| leases := delete i (leases db) |>)) → keeps P (drop_lease i).
Proof. intros H. apply keeps_modify. exact H. Qed.

Lemma keeps_add_stat (P : DB → Prop) env q c f d ms :
  (∀ db v, P db → P (db <| stats := v |>)) → keeps P (add_stat env q c f d ms).
Proof. intros H. apply keeps_modify. intros db Hdb. by apply H. Qed.

Lemma keeps_update_execs (P : DB → Prop) sel f :
  (∀ db v, P db → P (db <| execs := v |>)) → keeps P (update_execs sel f).
Proof.
  intros H db Hdb. unfold update_execs. destruct (forallb _ _); [|done]. by apply H.
Qed.

Lemma keeps_insert_dead_letter (P : DB → Prop) env i j o cls msg perm :
  (∀ db v, P db → P (db <| dead_letters := v |>)) →
  keeps P (insert_dead_letter env i j o cls msg perm).
Proof.
  intros H. apply keeps_modify. intros db Hdb. destruct (dead_letters db !! i); [done|].
  by apply H.
Qed.

Lemma keeps_mark_replayed (P : DB → Prop) env i a :
  (∀ db v, P db → P (db <| dead_letters := v |>)) → keeps P (mark_replayed env i a).
Proof. intros H. apply keeps_modify. intros db Hdb. by apply H. Qed.

Lemma keeps_queue_release (P : DB → Prop) q s n :
  (∀ db v, P db → P (db <| queue_shards := v |>)) → keeps P (queue_release q s n).
Proof. intros H. apply keeps_modify. intros db Hdb. by apply H. Qed.

Lemma keeps_emit_each (P : DB → Prop) env t pl ids k :
  (∀ db s ev, P db → P (db <| event_seq := s |> <| events := ev |>)) →
  keeps P (emit_each env t pl ids k).
Proof.
  intros H. unfold emit_each. apply keeps_bind; [apply keeps_gets|]. intros rows.
  apply keeps_foreach. intros r. by apply keeps_emit.
Qed.

(** Closes the steps that write a table the invariant does not read. *)
Ltac frame_step :=
  match goal with
  | |- keeps _ (emit _ _ _ _ _) => apply keeps_emit; by intros
  | |- keeps _ (emit_each _ _ _ _ _) => apply keeps_emit_each; by intros
  | |- keeps _ (add_stat _ _ _ _ _ _) => apply keeps_add_stat; by intros
  | |- keeps _ (drop_lease _) => apply keeps_drop_lease; by intros
  | |- keeps _ (update_execs _ _) => apply keeps_update_execs; by intros
  | |- keeps _ (insert_dead_letter _ _ _ _ _ _ _) => apply keeps_insert_dead_letter; by intros
  | |- keeps _ (mark_replayed _ _ _) => apply keeps_mark_replayed; by intros
  | |- keeps _ (queue_release _ _ _) => apply keeps_queue_release; by intros
  end.
Ltac fl_keeps := as_keeps; repeat first [progress frame_step | keeps_step].

(** *** Writes on jobs that hold no slot

    Promotion, wake-up, cascade cancellation and replay only touch jobs that
    nobody owns, before and after, and leave the fence alone. *)

(** The columns that say what is to be run, for whom. *)
Definition work (j : Job) :=
  (project_id j, queue_id j, schedule_id j, scheduled_for j, batch_id j, jtype j, payload j,
   timeout_ms j, retry_policy_id j, created_at j).

Definition unowned (j : Job) : Prop := is_active (status j) = false.

Class IdleStable (P : DB → Prop) : Prop := idle_stable : ∀ db i old new,
  P db → jobs db !! i = Some old → unowned old → unowned new →
  work new = work old → shard new = shard old → fence new = fence old →
  jobs_fsm old new = true → job_valid new →
  P (db <| jobs := <[i := new]> (jobs db) |>).

(** [f] turns a job nobody owns into one nobody owns. *)
Record idle_write (f : Job → Job) : Prop := {
  iw_status j : unowned j → unowned (f j);
  iw_work j : work (f j) = work j;
  iw_shard j : shard (f j) = shard j;
  iw_fence j : fence (f j) = fence j;
}.

Lemma keeps_idle_writes P `{!IdleStable P} {B} (ids : list B) (key : B → uuid)
    (f : B → Job → Job) :
  (∀ b, idle_write (f b)) →
  hoare (λ db, P db ∧ ∀ b j, b ∈ ids → jobs db !! key b = Some j → unowned j)
    (foreach ids (λ b, update_job (key b) (f b))) (λ _, P).
Proof.
  intros Hf. eapply hoare_conseq.
  - apply (hoare_foreach (λ l db, P db ∧ ∀ b j, b ∈ l → jobs db !! key b = Some j → unowned j)).
    intros b l. apply hoare_update_job.
    + intros db [HP Hl] _. split; [done|]. intros b' j Hb. apply Hl. by right.
    + intros db old [HP Hl] Hold Hrg Hfsm Hck.
      pose proof (conj Hrg Hck : job_valid (f b old)) as Hval.
      assert (unowned old) as Hun by (eapply (Hl b); [by left|done]).
      pose proof (iw_status _ (Hf b) old Hun) as Hun'. split.
      * eapply idle_stable; eauto using iw_work, iw_shard, iw_fence.
      * simpl. intros b' j Hb. rewrite lookup_insert. case_decide.
        -- by intros [= <-].
        -- apply Hl. by right.
  - done.
  - by intros _ db [HP _].
Qed.

Lemma idle_cancel_row env : idle_write (cancel_row env).
Proof. by split. Qed.
Lemma idle_dependent_row env : idle_write (dependent_row env).
Proof.
  split; try done. intros j Hj. unfold unowned, dependent_row. simpl. by destruct (_ && _).
Qed.
Lemma idle_replayed_row t : idle_write (replayed_row t).
Proof. by split. Qed.
#[export] Hint Resolve idle_cancel_row idle_dependent_row idle_replayed_row : fl.

Lemma is_idle_unowned j : is_idle (status j) = true → unowned j.
Proof. unfold unowned. by destruct (status j). Qed.

(** The rows a statement selects and then updates one by one. *)
Lemma keeps_select_idle P `{!IdleStable P} (sel : DB → uuid → Job → bool) (f : Job → Job) :
  idle_write f →
  (∀ db i j, sel db i j = true → unowned j) →
  keeps P (ids ← gets (λ db, (select (sel db) (jobs db)).*1);
           _ ← foreach ids (λ i, update_job i f); mret ids).
Proof.
  intros Hf Hsel. eapply (hoare_bind _ _ (λ ids db, P db ∧
    ∀ b j, b ∈ ids → jobs db !! b = Some j → unowned j)).
  - apply hoare_gets. intros db HP. split; [done|].
    intros b j ([k x] & -> & Hin)%list_elem_of_fmap Hj.
    apply elem_of_select in Hin as [Hk Hs]. simpl in Hj. rewrite Hk in Hj.
    injection Hj as <-. by eapply Hsel.
  - intros ids. eapply hoare_bind.
    + eapply (keeps_idle_writes P ids id (λ _, f)). done.
    + intros ?. by apply hoare_ret.
Qed.

Lemma keeps_cancel_descendants P `{!IdleStable P} env root : keeps P (cancel_descendants env root).
Proof.
  unfold cancel_descendants.
  apply (keeps_select_idle P (λ db i j, bool_decide (i ∈ down root (deps db)) && is_idle (status j)));
    [auto with fl|].
  intros db i j [_ H]%andb_true_iff. by apply is_idle_unowned.
Qed.

Lemma keeps_finish_dependents P `{!IdleStable P} env p : keeps P (finish_dependents env p).
Proof.
  unfold finish_dependents.
  apply (keeps_select_idle P (λ db i c, bool_decide ((p, i) ∈ deps db) &&
    bool_decide (status c = js_scheduled) && (0 <? pending_deps c))); [auto with fl|].
  intros db i j [[_ H]%andb_true_iff _]%andb_true_iff. apply bool_decide_eq_true in H.
  unfold unowned. by rewrite H.
Qed.
#[export] Hint Resolve keeps_cancel_descendants keeps_finish_dependents : fl.

(** *** Exact effects *)

(** One update per row: exactly the rows of [ids] are rewritten by [f]. *)
Lemma update_each {B} (rows : list B) (key : B → uuid) (f : B → Job → Job) db db' :
  NoDup (key <$> rows) →
  foreach rows (λ b, update_job (key b) (f b)) db = inr (tt, db') →
  db' = db <| jobs := jobs db' |> ∧
  (∀ b, b ∈ rows → jobs db' !! key b = f b <$> jobs db !! key b) ∧
  (∀ i, i ∉ key <$> rows → jobs db' !! i = jobs db !! i).
Proof.
  revert db. induction rows as [|b rows IH]; intros db Hnd; simpl.
  { intros [= <-]. split; [by destruct db|]. split; [|done]. by intros b ?%elem_of_nil. }
  apply list.NoDup_cons in Hnd as [Hni Hnd].
  intros ([] & db1 & Hu & Hrest)%tx_bind_inv. destruct (IH db1 Hnd Hrest) as (Hfr & Hin & Hout).
  assert (jobs db1 !! key b = f b <$> jobs db !! key b ∧ (∀ i, i ≠ key b → jobs db1 !! i = jobs db !! i) ∧
          db1 = db <| jobs := jobs db1 |>) as (Hb & Hoth & Hdb1).
  { apply update_job_inv in Hu as [[Hn ->]|(old & Hold & _ & _ & _ & ->)].
    - rewrite Hn. split_and!; [done|done|by destruct db].
    - simpl. rewrite Hold, lookup_insert_eq. split_and!; [done| |by destruct db].
      intros i Hne. by rewrite lookup_insert_ne. }
  split; [rewrite Hfr, Hdb1; by destruct db|]. split.
  - intros b' [->|Hb']%elem_of_cons; [by rewrite (Hout _ Hni)|]. rewrite (Hin _ Hb'), Hoth; [done|].
    intros Heq. apply Hni. rewrite <- Heq. by apply list_elem_of_fmap_2.
  - intros i [Hne Hi]%not_elem_of_cons. by rewrite (Hout _ Hi), Hoth.
Qed.

(** The rows that [sel] selects rewritten by [f], the others as they are. *)
Definition rewritten (sel : uuid → Job → bool) (f : Job → Job) (m : gmap uuid Job) : gmap uuid Job :=
  map_imap (λ i j, Some (if sel i j then f j else j)) m.

Lemma lookup_rewritten sel f m i :
  rewritten sel f m !! i = (λ j, if sel i j then f j else j) <$> m !! i.
Proof. unfold rewritten. rewrite map_lookup_imap. by destruct (m !! i). Qed.

Lemma elem_of_select_fst {K V} `{Countable K} (sel : K → V → bool) (m : gmap K V) i :
  i ∈ (select sel m).*1 ↔ ∃ j, m !! i = Some j ∧ sel i j = true.
Proof.
  rewrite list_elem_of_fmap. split.
  - intros ([i' j] & -> & Hin%elem_of_select). eauto.
  - intros (j & Hj & Hs). exists (i, j). split; [done|]. by apply elem_of_select.
Qed.

(** A statement that selects rows and rewrites each by [f]. *)
Lemma update_selected (sel : uuid → Job → bool) (f : Job → Job) db db' :
  foreach (select sel (jobs db)).*1 (λ i, update_job i f) db = inr (tt, db') →
  db' = db <| jobs := rewritten sel f (jobs db) |>.
Proof.
  intros (Hfr & Hin & Hout)%(update_each _ id (λ _, f)); [|rewrite list_fmap_id; apply NoDup_select].
  rewrite Hfr. assert (jobs db' = rewritten sel f (jobs db)) as ->; [|done].
  apply map_eq. intros i. rewrite lookup_rewritten. rewrite list_fmap_id in Hout.
  destruct (decide (i ∈ (select sel (jobs db)).*1)) as [Hi|Hi].
  - etransitivity; [exact (Hin i Hi)|]. apply elem_of_select_fst in Hi as (j & Hj & Hs). unfold id. rewrite Hj. simpl. by rewrite Hs.
  - rewrite (Hout i Hi). destruct (jobs db !! i) as [j|] eqn:Hj; [|done]. simpl.
    destruct (sel i j) eqn:Hs; [|done]. exfalso. apply Hi, elem_of_select_fst. eauto.
Qed.
