(* ===== verification/Pool.v ===== *)
(** * The Go side of a database call

    A Go function of the services is a [go A]: it threads a [World] and returns
    an error or a value, and, unlike a statement, what it did before an error
    stays done.  A [World] is the database, the snapshot of the transaction
    that is open, if one is, and the calls to come: the [n]-th call to Postgres
    runs in the environment, after the work of the other processes and under
    the fault that [w_calls n] gives it.

    [pgxpool] and [pgx] are not part of the repository; what the code relies on
    is written here: a statement outside a transaction is a transaction of its
    own; a call can fail before the server ran it ([FailBefore]) or after the
    server committed it, the answer being lost ([FailAfter]); a transaction that
    is not committed leaves no trace ([defer tx.Rollback]). *)

From S2P Require Import Prelude Schema.

(** ** Errors *)

(** internal/api/problem.go *)
Record apiError := mkApiError {
  ae_status : Z;
  ae_title : string;
  ae_detail : string;
  ae_headers : list (string * string);
}.

(** [ErrPg code] is a [*pgconn.PgError], [ErrConn safe] an error of the
    connection with the answer of [pgconn.SafeToRetry], [ErrCtx] the error of a
    context that is done. *)
Inductive err :=
  | ErrNoRows
  | ErrPg (code : sqlstate)
  | ErrConn (safe : bool)
  | ErrCtx
  | ErrFenced
  | ErrNoQueue
  | ErrConflictRetry
  | ErrApi (e : apiError)
  | ErrOther (msg : string).

#[export] Instance apiError_eq_dec : EqDecision apiError.
Proof. solve_decision. Defined.
#[export] Instance err_eq_dec : EqDecision err.
Proof. solve_decision. Defined.

Inductive fault := NoFault | FailBefore (e : err) | FailAfter (e : err).

Record Call := mkCall {
  c_env : Env;
  c_fault : fault;
  c_other : DB → DB;
}.

Record World := mkWorld {
  w_db : DB;
  w_snap : option DB;
  w_calls : nat → Call;
  w_n : nat;
}.

#[export] Instance eta_World : Eta World := λ w,
  mkWorld (w_db w) (w_snap w) (w_calls w) (w_n w).

Definition go (A : Type) : Type := World → (err + A) * World.

#[export] Instance go_ret : MRet go := λ A a w, (inr a, w).
#[export] Instance go_bind : MBind go := λ A B f m w,
  match m w with (inl e, w') => (inl e, w') | (inr a, w') => f a w' end.

(** [return err] *)
Definition throw {A} (e : err) : go A := λ w, (inl e, w).

(** [x, err := m], the error at hand. *)
Definition caught {A} (m : go A) : go (err + A) := λ w,
  let '(r, w') := m w in (inr r, w').

Definition lift_err {A} (r : err + A) : go A :=
  match r with inl e => throw e | inr a => mret a end.

(** The call the next statement makes. *)
Definition this_call (w : World) : Call := w_calls w (w_n w).

Definition after_call (w : World) (db : DB) : World :=
  w <| w_db := db |> <| w_n := S (w_n w) |>.

(** [pool.Exec], [pool.Query] and [pool.QueryRow]. *)
Definition pool_exec {A} (s : Env → sql A) : go A := λ w,
  let c := this_call w in
  let db := c_other c (w_db w) in
  match c_fault c with
  | FailBefore e => (inl e, after_call w db)
  | f =>
    match s (c_env c) db with
    | inl code => (inl (ErrPg code), after_call w db)
    | inr (a, db') => (match f with FailAfter e => inl e | _ => inr a end, after_call w db')
    end
  end.

(** [tx.Exec], [tx.Query] and [tx.QueryRow]. *)
Definition tx_exec {A} (s : Env → sql A) : go A := λ w,
  let c := this_call w in
  match c_fault c with
  | FailBefore e | FailAfter e => (inl e, after_call w (w_db w))
  | NoFault =>
    match s (c_env c) (w_db w) with
    | inl code => (inl (ErrPg code), after_call w (w_db w))
    | inr (a, db') => (inr a, after_call w db')
    end
  end.

(** [pool.Begin] *)
Definition begin_tx : go unit := λ w,
  let c := this_call w in
  let db := c_other c (w_db w) in
  match c_fault c with
  | NoFault => (inr tt, (after_call w db) <| w_snap := Some db |>)
  | FailBefore e | FailAfter e => (inl e, after_call w db)
  end.

(** [tx.Commit] *)
Definition commit_tx : go unit := λ w,
  match c_fault (this_call w) with
  | NoFault => (inr tt, (after_call w (w_db w)) <| w_snap := None |>)
  | FailBefore e => (inl e, after_call w (w_db w))
  | FailAfter e => (inl e, (after_call w (w_db w)) <| w_snap := None |>)
  end.

(** [tx.Rollback]: nothing to do once the transaction is committed. *)
Definition rollback (w : World) : World :=
  match w_snap w with
  | Some db => w <| w_db := db |> <| w_snap := None |>
  | None => w
  end.

(** [tx, err := pool.Begin(ctx); if err != nil { return err }; defer tx.Rollback(ctx); body] *)
Definition deferring_rollback {A} (body : go A) : go A := λ w,
  let '(r, w') := body w in (r, rollback w').

Definition with_tx {A} (body : go A) : go A := _ ← begin_tx; deferring_rollback body.

(** [QueryRow(...).Scan(...)] of a query with at most one row. *)
Definition scan_row {A} (o : option A) : go A :=
  match o with Some a => mret a | None => throw ErrNoRows end.

(** ** Running a Go function for what it does to the database *)

Definition answer {A} (m : go A) (w : World) : err + A := fst (m w).
Definition final_db {A} (m : go A) (w : World) : DB := w_db (snd (m w)).

(** Calls that all succeed, in one environment, with nobody else at work. *)
Definition quiet (env : Env) : nat → Call := λ _, mkCall env NoFault id.
Definition start (db : DB) (calls : nat → Call) : World := mkWorld db None calls 0.

(** ** Lemmas: one call *)

Section calls.
Context {A : Type}.
Implicit Types (w : World) (s : Env → sql A).

(** What a call leaves alone. *)
Definition next_world w w' : Prop :=
  w_snap w' = w_snap w ∧ w_calls w' = w_calls w ∧ w_n w' = S (w_n w).

(** A call outside a transaction: from [P], which the other processes keep, it
    ends in [Q] with a value, or with an error in [P] or in [Q]. *)
Lemma pool_exec_spec s w (P : DB → Prop) (Q : A → DB → Prop) r w' :
  P (c_other (this_call w) (w_db w)) → hoare P (s (c_env (this_call w))) Q →
  pool_exec s w = (r, w') →
  next_world w w' ∧
  match r with
  | inr a => Q a (w_db w')
  | inl _ => P (w_db w') ∨ ∃ a, Q a (w_db w')
  end.
Proof.
  intros HP Hs. specialize (Hs _ HP). unfold pool_exec.
  destruct (c_fault (this_call w));
    try (destruct (s _ _) as [code|[a db']] eqn:Hr); intros [= <- <-];
    (split; [done|]); simpl; eauto.
Qed.

(** A call inside a transaction. *)
Lemma tx_exec_spec s w (P : DB → Prop) (Q : A → DB → Prop) r w' :
  P (w_db w) → hoare P (s (c_env (this_call w))) Q →
  tx_exec s w = (r, w') →
  next_world w w' ∧ match r with inr a => Q a (w_db w') | inl _ => w_db w' = w_db w end.
Proof.
  intros HP Hs. specialize (Hs _ HP). unfold tx_exec.
  destruct (c_fault (this_call w));
    try (destruct (s _ _) as [code|[a db']] eqn:Hr); intros [= <- <-]; done.
Qed.

End calls.

(** A statement of a transaction whose calls are answered. *)
Lemma tx_exec_quiet {A} (q : Env → sql A) env w a db' :
  w_calls w = quiet env → q env (w_db w) = inr (a, db') → tx_exec q w = (inr a, after_call w db').
Proof. intros Hq Hrun. unfold tx_exec, this_call. rewrite Hq. simpl. by rewrite Hrun. Qed.

Lemma bind_exec_quiet {A B} (q : Env → sql A) (f : A → go B) env db sn n a db' :
  q env db = inr (a, db') →
  (tx_exec q ≫= f) (mkWorld db sn (quiet env) n) = f a (mkWorld db' sn (quiet env) (S n)).
Proof. intros Hrun. unfold mbind, go_bind. by rewrite (tx_exec_quiet q env _ a db'). Qed.

Lemma with_tx_quiet {A} (body : go A) env db n :
  with_tx body (mkWorld db None (quiet env) n) =
  let '(r, w) := body (mkWorld db (Some db) (quiet env) (S n)) in (r, rollback w).
Proof. done. Qed.

Lemma go_bind_inv {A B} (m : go A) (f : A → go B) w r w' :
  (m ≫= f) w = (r, w') →
  (∃ e, m w = (inl e, w') ∧ r = inl e) ∨ (∃ a w1, m w = (inr a, w1) ∧ f a w1 = (r, w')).
Proof.
  unfold mbind, go_bind. destruct (m w) as [[e|a] w1]; [|naive_solver].
  intros [= <- <-]. left. eauto.
Qed.

(** A transaction: the body starts from the snapshot [begin_tx] took, and what
    it leaves uncommitted is undone. *)
Lemma with_tx_inv {A} (body : go A) w r w' :
  with_tx body w = (r, w') →
  (∃ e, r = inl e ∧ w' = after_call w (c_other (this_call w) (w_db w))) ∨
  (∃ w1 w2, w_db w1 = c_other (this_call w) (w_db w) ∧ w_snap w1 = Some (w_db w1) ∧
     w_calls w1 = w_calls w ∧ w_n w1 = S (w_n w) ∧
     body w1 = (r, w2) ∧ w' = rollback w2).
Proof.
  unfold with_tx. intros [(e & Hb & ->)|([] & w1 & Hb & Hd)]%go_bind_inv;
    unfold begin_tx in Hb; destruct (c_fault (this_call w)); try discriminate.
  - injection Hb as _ <-. left. eauto.
  - injection Hb as _ <-. left. eauto.
  - injection Hb as <-. unfold deferring_rollback in Hd.
    destruct (body _) as [r2 w2] eqn:Hbody. injection Hd as <- <-. right.
    eexists _, w2. split_and!; try exact Hbody; done.
Qed.
