(* ===== verification/Migrate.v ===== *)
(** * The migrations runner: internal/db/migrate.go and cmd/migrate

    The files are given as [ReadDir] lists them, with what [ReadFile] says of
    each.  What Postgres makes of the text of a migration is the parameter
    [exec_sql] on an abstract schema.  A run makes its calls one by one, each
    under the fault the world gives it. *)

From S2P Require Import Prelude Text Schema Pool.
From stdpp Require Import list pretty.

#[local] Open Scope string_scope.
#[local] Open Scope list_scope.
#[local] Open Scope Z_scope.

(** ** Names and versions *)

Record Migration := mkMigration {
  Version : string;
  Name : string;
  SQL : string;
}.

(** [(.+)\.sql$]: what comes before the last [.sql] of the text, one character at
    least and none of them a newline. *)
Fixpoint before_sql (s : string) : option string :=
  match s with
  | "" => None
  | String c s' =>
    if byte_of c =? 10 then None else
    if decide (s' = ".sql") then Some (String c "") else String c <$> before_sql s'
  end.

(** [^(\d+)_(.+)\.sql$] *)
Definition namePattern (s : string) : option (string * string) :=
  let '(digits, rest) := span_digits s in
  if decide (digits = "") then None else
  match rest with
  | String c rest' => if byte_of c =? 95 then (λ n, (digits, n)) <$> before_sql rest' else None
  | "" => None
  end.

(** [<] on strings: byte by byte. *)
Fixpoint str_lt (a b : string) : bool :=
  match a, b with
  | "", "" => false
  | "", String _ _ => true
  | String _ _, "" => false
  | String x a', String y b' =>
    if byte_of x =? byte_of y then str_lt a' b' else byte_of x <? byte_of y
  end.

Definition version_le (a b : Migration) : Prop := str_lt (Version b) (Version a) = false.
#[export] Instance version_le_dec : RelDecision version_le := λ a b, decide (_ = false).

(** A file of the directory. *)
Record File := mkFile { fl_name : string; fl_body : err + string }.

(** The loop of [Load], [out] so far, its versions being the [seen] ones. *)
Fixpoint load_files (out : list Migration) (files : list File) : err + list Migration :=
  match files with
  | [] => inr out
  | f :: files =>
    match namePattern (fl_name f) with
    | None => load_files out files
    | Some (v, n) =>
      if decide (v ∈ Version <$> out) then inl (ErrOther ("duplicate migration version " +:+ v)) else
      match fl_body f with
      | inl e => inl e
      | inr body => load_files (out ++ [mkMigration v n body]) files
      end
    end
  end.

(** [dir] is what [ReadDir] answers. *)
Definition Load (dir : err + list File) : err + list Migration :=
  match dir with
  | inl e => inl e
  | inr files =>
    match load_files [] files with
    | inl e => inl e
    | inr out => inr (merge_sort version_le out)
    end
  end.

(** ** The database of a run *)

Section migrate.
Context {S : Type}.

(** What the runner sees: the schema, the rows of [schema_migrations] if there is
    such a table, whether the advisory lock is held. *)
Record MDB := mkMDB {
  schema : S;
  applied_rows : option (list (string * string));
  locked : bool;
}.

#[export] Instance eta_MDB : Eta MDB := λ d, mkMDB (schema d) (applied_rows d) (locked d).

Record MWorld := mkMWorld {
  mw_db : MDB;
  mw_faults : nat → fault;
  mw_n : nat;
  mw_log : list string;
}.

#[export] Instance eta_MWorld : Eta MWorld := λ w, mkMWorld (mw_db w) (mw_faults w) (mw_n w) (mw_log w).

Definition mig (A : Type) : Type := MWorld → (err + A) * MWorld.

#[export] Instance mig_ret : MRet mig := λ A a w, (inr a, w).
#[export] Instance mig_bind : MBind mig := λ A B f m w,
  match m w with (inl e, w') => (inl e, w') | (inr a, w') => f a w' end.

Definition called (w : MWorld) (db : MDB) : MWorld :=
  w <| mw_db := db |> <| mw_n := Datatypes.S (mw_n w) |>.

(** A call to Postgres. *)
Definition call {A} (f : MDB → err + A * MDB) : mig A := λ w,
  match mw_faults w (mw_n w) with
  | FailBefore e => (inl e, called w (mw_db w))
  | fa =>
    match f (mw_db w) with
    | inl e => (inl e, called w (mw_db w))
    | inr (a, db) => (match fa with FailAfter e => inl e | _ => inr a end, called w db)
    end
  end.

Definition logging (s : string) : mig unit := λ w, (inr tt, w <| mw_log := mw_log w ++ [s] |>).

(** [defer m], the error of [m] being dropped. *)
Definition deferred {A} (m : mig unit) (body : mig A) : mig A := λ w,
  let '(r, w1) := body w in (r, snd (m w1)).

(** [tx, err := conn.Begin(ctx); ...; defer tx.Rollback(ctx); body; return tx.Commit(ctx)] *)
Definition in_tx (body : mig unit) : mig unit := λ w,
  match call (λ db, inr (tt, db)) w with
  | (inl e, w1) => (inl e, w1)
  | (inr _, w1) =>
    let undo w := w <| mw_db := mw_db w1 |> in
    match body w1 with
    | (inl e, w2) => (inl e, undo w2)
    | (inr _, w2) =>
      let w3 := called w2 (mw_db w2) in
      match mw_faults w2 (mw_n w2) with
      | NoFault => (inr tt, w3)
      | FailBefore e => (inl e, undo w3)
      | FailAfter e => (inl e, w3)
      end
    end
  end.

Context (exec_sql : string → S → sqlstate + S) (Error : err → string).

Definition migration_sql (m : Migration) (db : MDB) : err + unit * MDB :=
  match exec_sql (SQL m) (schema db) with
  | inl code => inl (ErrPg code)
  | inr s => inr (tt, db <| schema := s |>)
  end.

(** [version] is the primary key; without the table the statement fails. *)
Definition record_migration (m : Migration) (db : MDB) : err + unit * MDB :=
  match applied_rows db with
  | None => inl (ErrPg "42P01")
  | Some rows =>
    if decide (Version m ∈ rows.*1) then inl (ErrPg unique_violation)
    else inr (tt, db <| applied_rows := Some (rows ++ [(Version m, Name m)]) |>)
  end.

(** [fmt.Errorf("%s_%s failed: %w", ...)] *)
Definition failed (m : Migration) (e : err) : err :=
  ErrOther (Version m +:+ "_" +:+ Name m +:+ " failed: " +:+ Error e).

Definition wrapping (g : err → err) {A} (m : mig A) : mig A := λ w,
  match m w with (inl e, w') => (inl (g e), w') | r => r end.

Definition apply (m : Migration) : mig unit := in_tx (
  _ ← wrapping (failed m) (call (migration_sql m));
  call (record_migration m)).

(** The loop over the migrations: what was applied, and the error that ended it. *)
Fixpoint apply_all (done : list string) (applied : list string) (all : list Migration) :
    mig (list string * option err) :=
  match all with
  | [] => mret (applied, None)
  | m :: all =>
    if decide (Version m ∈ done) then apply_all done applied all else
    _ ← logging (Version m +:+ "_" +:+ Name m);
    r ← (λ w, let '(r, w') := apply m w in (inr r, w'));
    match r with
    | inl e => mret (applied, Some e)
    | inr _ => apply_all done (applied ++ [Version m]) all
    end
  end.

Definition create_table (db : MDB) : err + unit * MDB :=
  inr (tt, db <| applied_rows := Some (default [] (applied_rows db)) |>).

Definition list_versions (db : MDB) : err + list string * MDB :=
  match applied_rows db with
  | None => inl (ErrPg "42P01")
  | Some rows => inr (rows.*1, db)
  end.

(** The versions that were applied, and the error. *)
Definition Migrate (dir : err + list File) : mig (list string * option err) :=
  match Load dir with
  | inl e => mret ([], Some e)
  | inr all => λ w,
    let body : mig (list string * option err) :=
      _ ← call (λ db, inr (tt, db <| locked := true |>));
      deferred (call (λ db, inr (tt, db <| locked := false |>))) (
        _ ← call create_table;
        done ← call list_versions;
        apply_all done [] all) in
    match (_ ← call (λ db, inr (tt, db)); body) w with
    | (inl e, w') => (inr ([], Some e), w')
    | r => r
    end
  end.

(** cmd/migrate: the exit status, and what it prints. *)
Definition main (url : string) (opened : option err) (dir : err + list File) : mig (Z * list string * list string) :=
  if decide (url = "") then mret (1, [], ["DATABASE_URL is not set"]) else
  match opened with
  | Some e => mret (1, [], [Error e])
  | None => λ w,
    match Migrate dir (w <| mw_log := [] |>) with
    | (inr (applied, None), w') =>
      (inr (0, mw_log w' ++ [if decide (length applied = 0%nat) then "up to date"
                              else "applied " +:+ pretty (length applied)], []), w')
    | (inr (_, Some e), w') => (inr (1, mw_log w', [Error e]), w')
    | (inl e, w') => (inl e, w')
    end
  end.

End migrate.
