(* ===== verification/Password.v ===== *)
(** * internal/api/password.go: hashing and checking passwords

    [argon2] is not part of the repository: [IDKey] is a parameter, with its
    version number.  [rand.Read] is the salt. *)

From S2P Require Import Prelude Text Schema Pool.
From stdpp Require Import pretty.

#[local] Open Scope string_scope.
#[local] Open Scope list_scope.
#[local] Open Scope Z_scope.

Definition argonTime : N := 2.
Definition argonMemory : N := 64 * 1024.
Definition argonThreads : N := 4.
Definition argonKeyLen : nat := 32.

Definition dollar : Ascii.ascii := of_byte 36.

Section password.
Context (Version : N).
(** [argon2.IDKey(password, salt, time, memory, threads, keyLen)]. *)
Context (IDKey : string → string → Z → Z → Z → nat → string).

Definition hashPassword (salt pw : string) : string :=
  let key := IDKey pw salt (Z.of_N argonTime) (Z.of_N argonMemory) (Z.of_N argonThreads) argonKeyLen in
  "$argon2id$v=" +:+ pretty Version +:+ "$m=" +:+ pretty argonMemory +:+ ",t=" +:+ pretty argonTime +:+
  ",p=" +:+ pretty argonThreads +:+ "$" +:+ EncodeToString StdEncoding salt +:+ "$" +:+
  EncodeToString StdEncoding key.

(** The parameters [m=%d,t=%d,p=%d], read into a [uint32], a [uint32] and a
    [uint8]. *)
Definition scan_params (s : string) : option (Z * Z * Z) :=
  s1 ← scan_lit "m=" s; '(mem, s2) ← scan_uint 32 s1;
  s3 ← scan_lit ",t=" s2; '(t, s4) ← scan_uint 32 s3;
  s5 ← scan_lit ",p=" s4; '(threads, _) ← scan_uint 8 s5;
  Some (mem, t, threads).

Definition verifyPassword (pw encoded : string) : err + bool :=
  match Split encoded dollar with
  | [_; alg; ver; params; salt64; want64] =>
    if negb (bool_decide (alg = "argon2id")) then inl (ErrOther "bad password hash") else
    match scan_lit "v=" ver ≫= scan_int with
    | None => inl (ErrOther "sscanf")
    | Some _ =>
      match scan_params params with
      | None => inl (ErrOther "sscanf")
      | Some (mem, t, threads) =>
        match DecodeString StdEncoding salt64, DecodeString StdEncoding want64 with
        | Some salt, Some want =>
          inr (bool_decide (IDKey pw salt t mem threads (String.length want) = want))
        | _, _ => inl (ErrOther "illegal base64 data")
        end
      end
    end
  | _ => inl (ErrOther "bad password hash")
  end.

(** ** Lemmas *)

Lemma hash_parts salt pw :
  Split (hashPassword salt pw) dollar =
  [""; "argon2id"; "v=" +:+ pretty Version; "m=65536,t=2,p=4"; EncodeToString StdEncoding salt;
   EncodeToString StdEncoding
     (IDKey pw salt (Z.of_N argonTime) (Z.of_N argonMemory) (Z.of_N argonThreads) argonKeyLen)].
Proof.
  unfold hashPassword. set (key := IDKey _ _ _ _ _ _).
  assert (∀ s, Contains (EncodeToString StdEncoding s) dollar = false) as Hb by (intros; by apply no_b64_sep).
  change (Split ("" +:+ String dollar ("argon2id" +:+ String dollar (("v=" +:+ pretty Version) +:+
    String dollar ("m=65536,t=2,p=4" +:+ String dollar (EncodeToString StdEncoding salt +:+
    String dollar (EncodeToString StdEncoding key)))))) dollar =
    [""; "argon2id"; "v=" +:+ pretty Version; "m=65536,t=2,p=4"; EncodeToString StdEncoding salt;
     EncodeToString StdEncoding key]).
  assert (Contains ("v=" +:+ pretty Version) dollar = false) as Hv.
  { rewrite Contains_app. destruct (pretty_digits Version) as (_ & Hd & _).
    by rewrite (no_digit_sep dollar (pretty Version)). }
  by rewrite !Split_app, Split_plain by done.
Qed.

(** A password is checked against its hash by comparing the two keys. *)
Lemma verify_hash salt pw pw' :
  Z.of_N Version < 2 ^ 63 → (∀ p s t m k n, String.length (IDKey p s t m k n) = n) →
  verifyPassword pw' (hashPassword salt pw) =
  inr (bool_decide (IDKey pw' salt (Z.of_N argonTime) (Z.of_N argonMemory) (Z.of_N argonThreads) argonKeyLen =
                    IDKey pw salt (Z.of_N argonTime) (Z.of_N argonMemory) (Z.of_N argonThreads) argonKeyLen)).
Proof.
  intros Hv Hlen. unfold verifyPassword. rewrite hash_parts. cbn [negb bool_decide].
  assert (scan_lit "v=" ("v=" +:+ pretty Version) ≫= scan_int = Some (Z.of_N Version, "")) as Hs
    by exact (scan_int_pretty Version Hv).
  rewrite Hs.
  assert (scan_params "m=65536,t=2,p=4" = Some (Z.of_N argonMemory, Z.of_N argonTime, Z.of_N argonThreads)) as Hp
    by (by vm_compute).
  rewrite Hp, !Decode_Encode. by rewrite Hlen.
Qed.

End password.
