(* ===== verification/Jobs.v ===== *)
(** * internal/jobs: claiming, leases, reporting *)

From S2P Require Import Prelude Schema Fl Pool.

(** ** jobs.go *)

Record Claimed := mkClaimed {
  cl_ID : uuid;
  cl_Fence : Z;
  cl_Type : string;
  cl_Payload : string;
  cl_AttemptCount : Z;
  cl_DeadlineAt : timestamp;
}.

Record ClaimRequest := mkClaimRequest {
  QueueID : uuid;
  WorkerID : uuid;
  FreeSlots : Z;
  Lease_ : duration;
  Types : option (list string);
}.

(** ** claim.go *)

(** [where queue_id = $1 and status = 'queued' and run_at <= fl.now() and
    ($5 is null or type = any($5))], less the rows [skip locked] passes over. *)
Definition eligible (env : Env) (q : uuid) (types : option (list string)) (i : uuid) (j : Job)
    : bool :=
  bool_decide (queue_id j = q) && bool_decide (status j = js_queued) &&
  (run_at j <=? now env) &&
  from_option (λ ts, bool_decide (jtype j ∈ ts)) true types &&
  bool_decide (i ∉ locked env).

(** [order by priority desc, run_at asc, id asc]. *)
Definition claim_order (a b : uuid * Job) : Prop :=
  priority b.2 < priority a.2 ∨
  (priority a.2 = priority b.2 ∧
   (run_at a.2 < run_at b.2 ∨ (run_at a.2 = run_at b.2 ∧ (a.1 <= b.1)%N))).
#[export] Instance claim_order_dec : RelDecision claim_order.
Proof. intros a b. unfold claim_order. apply _. Defined.

Definition candidates (env : Env) (q : uuid) (n : Z) (types : option (list string)) (db : DB)
    : list (uuid * Job) :=
  take (Z.to_nat n) (merge_sort claim_order (select (eligible env q types) (jobs db))).

Definition claimed_row (env : Env) (worker : uuid) (sh : Z) (j : Job) : Job :=
  j <| status := js_claimed |> <| fence := fence j + 1 |> <| shard := sh |>
    <| worker_id := Some worker |> <| claimed_at := Some (now env) |>
    <| deadline_at := Some (now env + timeout_ms j * 1000) |>.

(** [insert into job_leases ... on conflict (job_id) do update set ...], which
    keeps the progress of the row it updates. *)
Definition upsert_lease (env : Env) (worker : uuid) (lease : duration) (i : uuid) (f : Z) : sql unit :=
  modify (λ db, db <| leases := <[i := mkLease f worker (now env + interval_of lease)
    (leases db !! i ≫= progress) (now env)]> (leases db) |>).

Definition claimed_view (env : Env) (i : uuid) (j : Job) : Claimed :=
  mkClaimed i (fence j + 1) (jtype j) (payload j) (attempt_count j)
    (now env + timeout_ms j * 1000).

(** [claimSQL]; a worker that is not in [workers] breaks the foreign keys of
    [jobs] and [job_leases]. *)
Definition claimSQL (q : uuid) (n : Z) (worker : uuid) (lease : duration)
    (types : option (list string)) (sh : Z) (env : Env) : sql (list Claimed) :=
  cand ← gets (candidates env q n types);
  known ← gets (λ db, bool_decide (is_Some (workers db !! worker)));
  if negb known && bool_decide (cand ≠ []) then raise foreign_key_violation else
  traverse cand (λ r : uuid * Job,
    _ ← update_job r.1 (claimed_row env worker sh);
    _ ← upsert_lease env worker lease r.1 (fence r.2 + 1);
    mret (claimed_view env r.1 r.2)).

Definition admit_slots (queueID : uuid) (freeSlots : Z) : go (Z * Z) :=
  pool_exec (λ env, queue_admit env queueID freeSlots).

(** release.go *)
Definition Release (queueID : uuid) (sh n : Z) : go unit :=
  tx_exec (λ _, queue_release queueID sh n).

Definition ReconcileInFlight : go Z := pool_exec (λ _, reconcile_in_flight).

Definition take_jobs (req : ClaimRequest) (sh n : Z) : go (list Claimed) :=
  with_tx (
    out ← tx_exec (claimSQL (QueueID req) n (WorkerID req) (Lease_ req) (Types req) sh);
    _ ← (if Z.of_nat (length out) <? n
         then Release (QueueID req) sh (n - Z.of_nat (length out)) else mret tt);
    _ ← commit_tx;
    mret out).

Definition Claim (req : ClaimRequest) : go (list Claimed) :=
  '(n, sh) ← admit_slots (QueueID req) (FreeSlots req);
  if n =? 0 then mret [] else
  out ← caught (take_jobs req sh n);
  match out with
  | inl e =>
    _ ← caught (pool_exec (λ _, queue_release (QueueID req) sh n));
    throw e
  | inr l => mret l
  end.

(** ** lease.go *)

Inductive Status := StatusFenced | StatusCancelled | StatusTimeout | StatusLive.

#[export] Instance Status_eq_dec : EqDecision Status.
Proof. solve_decision. Defined.

(** [extendSQL]: whether it matched the row. *)
Definition extendSQL (jobID : uuid) (f : Z) (lease : duration) (p : option string) (env : Env)
    : sql bool := λ db,
  match jobs db !! jobID, leases db !! jobID with
  | Some j, Some l =>
    if owns_running f j then
      let until := now env + interval_of lease in
      inr (true, db <| leases := <[jobID := mkLease (l_fence l) (l_worker_id l)
             (from_option (Z.min until) until (deadline_at j))
             (match p with Some _ => p | None => progress l end) (now env)]> (leases db) |>)
    else inr (false, db)
  | _, _ => inr (false, db)
  end.

Definition ExtendLease (jobID : uuid) (f : Z) (lease : duration) (p : option string) : go bool :=
  pool_exec (extendSQL jobID f lease p).

Definition probeSQL (jobID : uuid) (env : Env) : sql (option (Z * job_status * bool)) :=
  gets (λ db, j ← jobs db !! jobID;
    Some (fence j, status j, from_option (λ d, d <? now env) false (deadline_at j))).

Definition violationSQL (jobID workerID : uuid) (held : Z) (actualFence : option Z)
    (actualStatus : option job_status) (env : Env) : sql unit :=
  modify (λ db, db <| violations := violations db ++
    [mkViolation jobID workerID "report" held actualFence actualStatus (now env)] |>).

Definition violation (jobID workerID : uuid) (held : Z) (actualFence : option Z)
    (actualStatus : option job_status) : go unit :=
  pool_exec (violationSQL jobID workerID held actualFence actualStatus).

Definition Probe (jobID : uuid) (f : Z) (workerID : uuid) : go Status :=
  row ← pool_exec (probeSQL jobID);
  match row with
  | None => _ ← violation jobID workerID f None None; mret StatusFenced
  | Some (curFence, st, pastDeadline) =>
    if negb (curFence =? f) then
      _ ← violation jobID workerID f (Some curFence) (Some st); mret StatusFenced
    else if is_active st then mret StatusLive
    else if decide (st = js_cancelled) then mret StatusCancelled
    else if pastDeadline : bool then mret StatusTimeout
    else _ ← violation jobID workerID f (Some curFence) (Some st); mret StatusFenced
  end.

Definition execOutcome (st : Status) : option exec_outcome :=
  match st with
  | StatusCancelled => Some xo_cancelled
  | StatusFenced => Some xo_fenced
  | StatusTimeout => Some xo_timeout
  | StatusLive => None
  end.

Definition closeExecSQL (exec : uuid) (o : exec_outcome) (cls msg : option string) (env : Env)
    : sql unit :=
  update_execs (open_exec_is exec) (close_row env o cls msg).

Definition CloseExecution (exec : uuid) (st : Status) : go unit :=
  match execOutcome st with
  | None => mret tt
  | Some o => pool_exec (closeExecSQL exec o None None)
  end.

Record LogLine := mkLogLine { Level : string; Message : string }.

(** The check constraint on [job_logs.level]. *)
Definition log_level_ok (l : string) : bool :=
  bool_decide (l ∈ ["debug"; "info"; "warn"; "error"]).

Definition appendLogsSQL (exec : uuid) (lines : list LogLine) (env : Env) : sql unit :=
  if forallb (λ l, log_level_ok (Level l)) lines
  then modify (λ db, db
         <| logs := logs db ++
              imap (λ k l, mkLog (log_seq db + 1 + Z.of_nat k) exec (now env) (Level l) (Message l)) lines |>
         <| log_seq := log_seq db + Z.of_nat (length lines) |>)
  else raise check_violation.

Definition AppendLogs (exec : uuid) (lines : list LogLine) : go unit :=
  pool_exec (appendLogsSQL exec lines).

(** ** report.go *)

Record Execution := mkExecution { ex_ID : uuid; ex_Attempt : Z }.

(** [set status = 'running', started_at = fl.now(), attempt_count = attempt_count + 1]. *)
Definition running_row (env : Env) (j : Job) : Job :=
  j <| status := js_running |> <| started_at := Some (now env) |>
    <| attempt_count := attempt_count j + 1 |>.

(** The unique keys of [job_executions]: (job_id, replay_generation, attempt),
    and one open row per job ([uq_exec_one_open]). *)
Definition exec_clash (x y : Exec) : bool :=
  bool_decide (x_job_id x = x_job_id y) &&
  ((bool_decide (x_replay_generation x = x_replay_generation y) &&
    bool_decide (attempt x = attempt y)) || (exec_open x && exec_open y)).

Definition insert_exec (i : uuid) (x : Exec) : sql unit := λ db,
  if bool_decide (is_Some (execs db !! i)) ||
     bool_decide (select (λ _, exec_clash x) (execs db) ≠ [])
  then inl unique_violation
  else inr (tt, db <| execs := <[i := x]> (execs db) |>).

Definition owns_claimed (f : Z) (j : Job) : bool :=
  (fence j =? f) && bool_decide (status j = js_claimed).

Definition startSQL (jobID : uuid) (f : Z) (workerID : uuid) (env : Env)
    : sql (option Execution) :=
  oj ← gets (λ db, jobs db !! jobID);
  match oj with
  | None => mret None
  | Some j =>
    if negb (owns_claimed f j) then mret None else
    let n := attempt_count j + 1 in
    _ ← update_job jobID (running_row env);
    _ ← insert_exec (uuids env 0%nat)
          (mkExec jobID (queue_id j) n (replay_generation j) (fence j) workerID None None None
             (now env) None);
    mret (Some (mkExecution (uuids env 0%nat) n))
  end.

(** [errors.Is(err, pgx.ErrNoRows)] turned into [ErrFenced]. *)
Definition or_fenced {A} (o : option A) : go A :=
  match o with Some a => mret a | None => throw ErrFenced end.

Definition Start (jobID : uuid) (f : Z) (workerID : uuid) : go Execution :=
  pool_exec (startSQL jobID f workerID) ≫= or_fenced.

Definition Complete (jobID : uuid) (f : Z) (exec : uuid) : go unit :=
  q ← pool_exec (λ env, report_success env jobID f exec);
  _ ← or_fenced q; mret tt.

(** The error a handler returned: its text and whether it wraps [ErrPermanent]. *)
Record Cause := mkCause { cause_msg : string; cause_permanent : bool }.

Definition Fail (jobID : uuid) (f : Z) (cause : option Cause) : go unit :=
  let permanent := from_option cause_permanent false cause in
  let o := if permanent then xo_permanent_error else xo_retryable_error in
  let msg := from_option cause_msg ""%string cause in
  with_tx (
    q ← tx_exec (λ env, report_failure env jobID (Some f) o (Some (outcome_text o)) (Some msg) permanent);
    _ ← or_fenced q;
    commit_tx).

Record Done := mkDone { d_JobID : uuid; d_Fence : Z; d_Exec : uuid }.

Definition CompleteBatch (batch : list Done) : go (list uuid) :=
  pool_exec (λ env, report_success_batch env
    ((λ d, (d_JobID d, d_Fence d, d_Exec d)) <$> batch)).

(** [delay.Milliseconds()] truncates. *)
Definition Snooze (jobID : uuid) (f : Z) (exec : uuid) (delay : duration) : go unit :=
  q ← pool_exec (λ env, report_snooze env jobID f exec (Z.quot delay 1000000));
  _ ← or_fenced q; mret tt.
