(* ===== verification/Sched.v ===== *)
(** * internal/scheduler: promoter, reaper, circuit breaker, notifier, partitions *)

From S2P Require Import Prelude Schema Partitions Fl Pool.

(** [for _, x := range l { acc = f(acc, x) }], left on the first error. *)
Fixpoint go_fold {A B} (f : A → B → go A) (acc : A) (l : list B) : go A :=
  match l with
  | [] => mret acc
  | x :: l' => a ← f acc x; go_fold f a l'
  end.

(** ** promote.go *)

(** [where status in ('scheduled', 'retry_wait') and run_at <= fl.now() and
    pending_deps = 0], less the locked rows. *)
Definition due (env : Env) (i : uuid) (j : Job) : bool :=
  match status j with js_scheduled | js_retry_wait => true | _ => false end &&
  (run_at j <=? now env) && (pending_deps j =? 0) && bool_decide (i ∉ locked env).

Definition promoteSelectSQL (limit : Z) (env : Env) : sql (list uuid) :=
  gets (λ db, take (Z.to_nat limit)
    (merge_sort (by_key (λ r : uuid * Job, run_at r.2)) (select (due env) (jobs db))).*1).

Definition queued_row (j : Job) : Job := j <| status := js_queued |>.

Definition promoteUpdateSQL (ids : list uuid) (env : Env) : sql Z :=
  rows ← gets (λ db, omap (λ i, j ← jobs db !! i; Some (i, project_id j)) ids);
  _ ← foreach rows (λ r : uuid * uuid, update_job r.1 queued_row);
  _ ← foreach rows (λ r : uuid * uuid, emit env "job.queued" r.1 r.2 []);
  mret (Z.of_nat (length rows)).

Definition Promote (limit : Z) : go Z :=
  with_tx (
    ids ← tx_exec (promoteSelectSQL limit);
    match ids with
    | [] => mret 0
    | _ =>
      n ← tx_exec (promoteUpdateSQL ids);
      _ ← commit_tx;
      mret n
    end).

(** [ageSQL]: which [limit] rows the subquery returns is not specified; here
    the first in the order of the table. *)
Definition too_old (env : Env) (older : duration) (ceiling : Z) (j : Job) : bool :=
  bool_decide (status j = js_queued) && (created_at j <? now env - interval_of older) &&
  (priority j <? ceiling).

Definition ageSQL (older : duration) (ceiling limit : Z) (env : Env) : sql Z :=
  ids ← gets (λ db, take (Z.to_nat limit) (select (λ _, too_old env older ceiling) (jobs db)).*1);
  _ ← foreach ids (λ i, update_job i (λ j, j <| priority := priority j + 1 |>));
  mret (Z.of_nat (length ids)).

Definition Age (olderThan : duration) (ceiling limit : Z) : go Z :=
  pool_exec (ageSQL olderThan ceiling limit).

(** ** reaper.go *)

(** [j.status in ('claimed', 'running') and l.expires_at < fl.now()]. *)
Definition expired (env : Env) (db : DB) (i : uuid) (l : Lease) : bool :=
  from_option (λ j, is_active (status j)) false (jobs db !! i) && (expires_at l <? now env).

Definition expiredSQL (limit : Z) (env : Env) : sql (list uuid) :=
  gets (λ db, take (Z.to_nat limit)
    (merge_sort (by_key (λ r : uuid * Lease, expires_at r.2)) (select (expired env db) (leases db))).*1).

Definition reportLostSQL (i : uuid) (env : Env) : sql (option uuid) :=
  report_failure env i None xo_lost None None false.

Definition Reap (limit : Z) : go Z :=
  ids ← pool_exec (expiredSQL limit);
  go_fold (λ reaped i,
    q ← pool_exec (reportLostSQL i);
    mret (match q with None => reaped | Some _ => reaped + 1 end)) 0 ids.

(** [2 * greatest(timeout_ms / 1000, 60)] seconds after the start. *)
Definition orphan (env : Env) (db : DB) (x : Exec) : bool :=
  exec_open x &&
  from_option (λ j, negb (is_active (status j)) &&
    (x_started_at x <? now env - Z.max (timeout_ms j * 1000) 60000000 * 2)) false
    (jobs db !! x_job_id x).

Definition sweepSQL (limit : Z) (env : Env) : sql Z :=
  ids ← gets (λ db, take (Z.to_nat limit) (select (λ _, orphan env db) (execs db)).*1);
  _ ← update_execs (λ i _, bool_decide (i ∈ ids)) (finish_row env xo_lost);
  mret (Z.of_nat (length ids)).

Definition SweepOrphanExecutions (limit : Z) : go Z := pool_exec (sweepSQL limit).

(** ** breaker.go *)

Record queueBreaker := mkQueueBreaker {
  qb_id : uuid;
  qb_projectID : uuid;
  qb_state : breaker_state;
  qb_openUntil : option timestamp;
}.

Definition isFailure (o : exec_outcome) : bool :=
  match o with
  | xo_retryable_error | xo_permanent_error | xo_timeout | xo_lost => true
  | _ => false
  end.

(** The closed executions of a queue, the latest first. *)
Definition latest_outcomes (q : uuid) (since : option timestamp) (db : DB) : list exec_outcome :=
  omap (λ r : uuid * Exec, outcome r.2)
    (merge_sort (by_key (λ r : uuid * Exec, - default 0 (x_finished_at r.2)))
      (select (λ _ x, bool_decide (x_queue_id x = q) && bool_decide (is_Some (outcome x)) &&
         from_option (λ t, from_option (λ f, t <=? f) false (x_finished_at x)) true since)
        (execs db))).

Definition breakerQueuesSQL (env : Env) : sql (list queueBreaker) :=
  gets (λ db, (λ r : uuid * Queue, mkQueueBreaker r.1 (q_project_id r.2) (q_breaker_state r.2)
                 (breaker_open_until r.2)) <$> map_to_list (queues db)).

(** [breakerWindowSQL]: the last [window] outcomes of every queue. *)
Definition breakerWindowSQL (window : Z) (env : Env) : sql (list (uuid * exec_outcome)) :=
  gets (λ db, (map_to_list (queues db)).*1 ≫= λ q,
    (λ o, (q, o)) <$> take (Z.to_nat window) (latest_outcomes q None db)).

(** [breakerProbeSQL]; [finished_at >= null] holds of no row. *)
Definition breakerProbeSQL (q : uuid) (openUntil : option timestamp) (env : Env)
    : sql (option exec_outcome) :=
  gets (λ db, t ← openUntil; head (latest_outcomes q (Some t) db)).

(** [breakerOpenSQL], [breakerReopenSQL] and [breakerCloseSQL]: a guarded update
    of the row and the event, the number of rows changed. *)
Definition switch (from : breaker_state) (to : Queue → Queue) (t : string) (q : uuid) (env : Env)
    : sql Z :=
  oq ← gets (λ db, queues db !! q);
  match oq with
  | Some qr =>
    if decide (q_breaker_state qr = from) then
      _ ← modify (λ db, db <| queues := <[q := to qr]> (queues db) |>);
      _ ← emit env t q (q_project_id qr) [];
      mret 1
    else mret 0
  | None => mret 0
  end.

Definition opened_row (env : Env) (cooldown : duration) (qr : Queue) : Queue :=
  qr <| q_breaker_state := br_open |>
     <| breaker_open_until := Some (now env + interval_of cooldown) |>
     <| breaker_probe_budget := 0 |>.

Definition closed_row (qr : Queue) : Queue :=
  qr <| q_breaker_state := br_closed |> <| breaker_open_until := None |>
     <| breaker_probe_budget := 0 |>.

Definition breakerOpenSQL (q : uuid) (cooldown : duration) (env : Env) : sql Z :=
  switch br_closed (opened_row env cooldown) "queue.breaker_opened" q env.
Definition breakerReopenSQL (q : uuid) (cooldown : duration) (env : Env) : sql Z :=
  switch br_half_open (opened_row env cooldown) "queue.breaker_reopened" q env.
Definition breakerCloseSQL (q : uuid) (env : Env) : sql Z :=
  switch br_half_open closed_row "queue.breaker_closed" q env.

Definition failureCounts (window : Z) : go (gmap uuid Z) :=
  rows ← pool_exec (breakerWindowSQL window);
  mret (foldl (λ (out : gmap uuid Z) (r : uuid * exec_outcome),
    if isFailure r.2 then <[r.1 := default 0 (out !! r.1) + 1]> out else out) ∅ rows).

(** The body of the loop over the queues. *)
Definition breaker_one (failures : gmap uuid Z) (trip : Z) (cooldown : duration) (q : queueBreaker)
    : go Z :=
  match qb_state q with
  | br_closed =>
    if trip <=? default 0 (failures !! qb_id q)
    then pool_exec (breakerOpenSQL (qb_id q) cooldown) else mret 0
  | br_half_open =>
    o ← pool_exec (breakerProbeSQL (qb_id q) (qb_openUntil q));
    match o with
    | None => mret 0
    | Some o =>
      if decide (o = xo_success) then pool_exec (breakerCloseSQL (qb_id q))
      else if isFailure o then pool_exec (breakerReopenSQL (qb_id q) cooldown)
      else mret 0
    end
  | br_open => mret 0
  end.

Definition Breaker (window trip : Z) (cooldown : duration) : go Z :=
  qs ← pool_exec breakerQueuesSQL;
  failures ← failureCounts window;
  go_fold (λ changed q, n ← breaker_one failures trip cooldown q; mret (changed + n)) 0 qs.

(** ** notify.go *)

Definition eventHeadSQL (env : Env) : sql Z :=
  gets (λ db, foldr (λ e m, Z.max (e_id e) m) 0 (events db)).

(** The head to remember, and whether [pg_notify] was called. *)
Definition Notify (since : Z) : go (Z * bool) :=
  h ← caught (pool_exec eventHeadSQL);
  match h with
  | inl e => throw e
  | inr head => if head <=? since then mret (since, false)
                else _ ← pool_exec (λ _, mret tt); mret (head, true)
  end.

(** ** partitions.go *)

Definition hotParents : list string := ["events"; "job_logs"]%string.
Definition coldParents : list string :=
  ["jobs_archive"; "job_executions_archive"; "job_logs_archive"; "dead_letter_jobs_archive"]%string.

(** [pg_try_advisory_xact_lock]; [free] says whether no other session holds the
    lock. *)
Definition partitionLockSQL (free : bool) (env : Env) : sql bool := mret free.

Definition ensurePartitionsSQL (parent : string) (horizon : duration) (env : Env) : sql unit :=
  ensure_partitions parent (day (now env)) (day (now env + interval_of horizon)).

Definition dropPartitionsSQL (parent : string) (keep : duration) (env : Env) : sql Z :=
  drop_partitions_before parent (day (now env - interval_of keep)).

(** [min(id)] *)
Definition min_id (l : list Event) : option Z :=
  match l with [] => None | e :: l' => Some (foldr Z.min (e_id e) (e_id <$> l')) end.

(** [event_seq] is [coalesce(pg_sequence_last_value(...), 0)]. *)
Definition lowWaterSQL (env : Env) : sql unit :=
  modify (λ db, db <| low_water_id :=
    Z.max (low_water_id db) (default (event_seq db + 1) (min_id (events db))) |>).

Definition Maintain (free : bool) (hot cold horizon : duration) : go Z :=
  with_tx (
    got ← tx_exec (partitionLockSQL free);
    if negb got then mret 0 else
    dropped ← go_fold (λ dropped parent,
      _ ← tx_exec (ensurePartitionsSQL parent horizon);
      n ← tx_exec (dropPartitionsSQL parent hot);
      mret (dropped + n)) 0 hotParents;
    dropped ← go_fold (λ dropped parent,
      n ← tx_exec (dropPartitionsSQL parent cold);
      mret (dropped + n)) dropped coldParents;
    _ ← tx_exec lowWaterSQL;
    _ ← commit_tx;
    mret dropped).
