(* ===== verification/Cron.v ===== *)
(** * internal/scheduler/cron.go: materializing the ticks of a schedule

    [time.LoadLocation] and [robfig/cron] are parameters: [ParseStandard] parses
    an expression, [Next] is the activation that follows a time in a zone. *)

From S2P Require Import Prelude Schema Fl Pool Sched.

(** [schedules] joined with [queues]: the struct [due] of the loop. *)
Record due_schedule := mkDue {
  du_id : uuid;
  du_queueID : uuid;
  du_projectID : uuid;
  du_policyID : uuid;
  du_expr : string;
  du_tz : string;
  du_jobType : string;
  du_payload : string;
  du_overlap : string;
  du_catchup : string;
  du_nextRunAt : timestamp;
}.

(** [order by next_run_at], ties in the order of the table. *)
Definition by_next_run (a b : due_schedule) : Prop := du_nextRunAt a ≤ du_nextRunAt b.
#[export] Instance by_next_run_dec : RelDecision by_next_run.
Proof. intros a b. unfold by_next_run. apply _. Defined.

Definition due_row (env : Env) (db : DB) (r : uuid * Schedule) : option due_schedule :=
  let '(i, s) := r in
  q ← queues db !! sc_queue_id s;
  if enabled s && (next_run_at s <=? now env) && bool_decide (i ∉ locked env)
  then Some (mkDue i (sc_queue_id s) (q_project_id q) (q_retry_policy_id q) (cron_expr s)
               (timezone s) (sc_job_type s) (sc_payload s) (overlap_policy s) (catchup_policy s)
               (next_run_at s))
  else None.

Definition dueSchedulesSQL (limit : Z) (env : Env) : sql (list due_schedule) :=
  gets (λ db, take (Z.to_nat limit)
    (merge_sort by_next_run (omap (due_row env db) (map_to_list (schedules db))))).

(** [status in ('scheduled', 'queued', 'claimed', 'running', 'retry_wait')]. *)
Definition unfinished (sid : uuid) (j : Job) : bool :=
  bool_decide (schedule_id j = Some sid) && negb (is_terminal (status j)).

Definition overlapSQL (sid : uuid) (env : Env) : sql bool :=
  gets (λ db, bool_decide (select (λ _, unfinished sid) (jobs db) = [])).

(** The row of [insertScheduledJobSQL], the other columns at their default. *)
Definition scheduled_job (env : Env) (d : due_schedule) (target : timestamp) : Job :=
  mkJob (du_projectID d) (du_queueID d) (Some (du_id d)) (Some target) None (du_jobType d)
    (du_payload d) js_queued 0 target 0 0 0 0 None None 300000 (du_policyID d) 0 0 (now env)
    None None None.

(** [on conflict (schedule_id, scheduled_for) do nothing]. *)
Definition insertScheduledJobSQL (d : due_schedule) (target : timestamp) (env : Env)
    : sql (option uuid) :=
  let j := scheduled_job env d target in
  taken ← gets (tick_taken j);
  if taken : bool then mret None
  else _ ← insert_job (uuids env 0%nat) j; mret (Some (uuids env 0%nat)).

Definition update_schedule (i : uuid) (f : Schedule → Schedule) : sql unit :=
  modify (λ db, db <| schedules := alter f i (schedules db) |>).

(** [next_run_at = $2, last_fired_for = coalesce($3, last_fired_for)]. *)
Definition advanced (next : timestamp) (firedFor : option timestamp) (s : Schedule) : Schedule :=
  s <| next_run_at := next |>
    <| last_fired_for := match firedFor with Some t => Some t | None => last_fired_for s end |>.

Definition advanceScheduleSQL (i : uuid) (next : timestamp) (firedFor : option timestamp)
    (env : Env) : sql unit :=
  update_schedule i (advanced next firedFor).

Definition disableScheduleSQL (i : uuid) (env : Env) : sql unit :=
  update_schedule i (λ s, s <| enabled := false |>).

Definition disableSchedule (i project : uuid) : go unit :=
  _ ← tx_exec (disableScheduleSQL i);
  tx_exec (λ env, emit env "schedule.error" i project []).

Section cron.
Context {Location CronSchedule : Type}.
Context (LoadLocation : string → option Location).
Context (ParseStandard : string → option CronSchedule).
Context (Next : CronSchedule → Location → timestamp → timestamp).

Definition NextTick (expr tz : string) (after : timestamp) : option timestamp :=
  loc ← LoadLocation tz;
  sched ← ParseStandard expr;
  Some (Next sched loc after).

(** [for t := d.nextRunAt; !t.After(now); { ... }]: the last tick that is not in
    the future and how many there are; [None] when [NextTick] fails.  The loop
    is left once [count > 100000], so it runs at most 100001 times. *)
Fixpoint ticks (fuel : nat) (expr tz : string) (now_ t last count : Z) : option (timestamp * Z) :=
  match fuel with
  | O => Some (last, count)
  | S fuel' =>
    if now_ <? t then Some (last, count) else
    match NextTick expr tz t with
    | None => None
    | Some nt =>
      if 100000 <? count + 1 then Some (t, count + 1)
      else ticks fuel' expr tz now_ nt t (count + 1)
    end
  end.

Definition ticks_fuel : nat := Z.to_nat 100001.

(** Whether to fire and how many ticks are skipped, from the number of ticks
    that are due and the catch-up policy. *)
Definition catch_up (catchup : string) (count : Z) : bool * Z :=
  if 1 <? count
  then if decide (catchup = "fire_once"%string) then (true, count - 1) else (false, count)
  else (true, 0).

(** The body of the loop over the schedules that are due: 1 when it inserted a
    job, 0 otherwise. *)
Definition materialize_one (now_ : timestamp) (d : due_schedule) : go Z :=
  match ticks ticks_fuel (du_expr d) (du_tz d) now_ (du_nextRunAt d) (du_nextRunAt d) 0 with
  | None => _ ← disableSchedule (du_id d) (du_projectID d); mret 0
  | Some (last, count) =>
    match NextTick (du_expr d) (du_tz d) last with
    | None => _ ← disableSchedule (du_id d) (du_projectID d); mret 0
    | Some nextFuture =>
      let '(fire0, skipped) := catch_up (du_catchup d) count in
      clear ← (if fire0 && bool_decide (du_overlap d = "skip"%string)
               then tx_exec (overlapSQL (du_id d)) else mret true);
      let fire := fire0 && clear in
      let overlapSkip := fire0 && negb clear in
      jobID ← (if fire then tx_exec (insertScheduledJobSQL d last) else mret None);
      let firedFor := (λ _, last) <$> jobID in
      _ ← (match jobID with
           | Some i => tx_exec (λ env, emit env "job.scheduled" i (du_projectID d) [])
           | None => mret tt
           end);
      _ ← (if overlapSkip
           then tx_exec (λ env, emit env "schedule.tick_skipped_overlap" (du_id d) (du_projectID d) [])
           else mret tt);
      _ ← (if 0 <? skipped
           then tx_exec (λ env, emit env "schedule.ticks_skipped" (du_id d) (du_projectID d)
                                  [("count", jint skipped)])
           else mret tt);
      _ ← tx_exec (advanceScheduleSQL (du_id d) nextFuture firedFor);
      mret (match jobID with Some _ => 1 | None => 0 end)
    end
  end.

Definition Materialize (limit : Z) : go Z :=
  with_tx (
    now_ ← tx_exec (λ env, mret (now env));
    dues ← tx_exec (dueSchedulesSQL limit);
    materialized ← go_fold (λ n d, k ← materialize_one now_ d; mret (n + k)) 0 dues;
    _ ← commit_tx;
    mret materialized).

End cron.
