(* ===== verification/Archiver.v ===== *)
(** * internal/archiver: moving finished jobs to the archive tables

    The partitions the rows go to are created in the same transaction. *)

From S2P Require Import Prelude Schema Partitions Fl Pool Sched.

#[local] Open Scope string_scope.
#[local] Open Scope list_scope.
#[local] Open Scope Z_scope.

(** [pickSQL] *)
Definition archivable (env : Env) (after deadLetter : duration) (db : DB) (i : uuid) (j : Job) : bool :=
  is_terminal (status j) &&
  from_option (λ t, (t <? now env - interval_of after) &&
    (negb (bool_decide (status j = js_dead_letter)) || (t <? now env - interval_of deadLetter)))
    false (finished_at j) &&
  bool_decide (select (open_exec_of i) (execs db) = []) &&
  bool_decide (i ∉ locked env).

Definition pickSQL (after deadLetter : duration) (limit : Z) (env : Env) : sql (list uuid) :=
  gets (λ db, take (Z.to_nat limit)
    (merge_sort (by_key (λ r : uuid * Job, default 0 (finished_at r.2)))
      (select (archivable env after deadLetter db) (jobs db))).*1).

Definition log_of (ids : list uuid) (db : DB) (l : Log) : bool :=
  from_option (λ x, bool_decide (x_job_id x ∈ ids)) false (execs db !! lg_execution_id l).

Definition jobPartitionsSQL (ids : list uuid) (env : Env) : sql unit :=
  l ← gets (λ db, omap (λ r : uuid * Job, finished_at r.2) (select (λ i _, bool_decide (i ∈ ids)) (jobs db)));
  ensure_span "jobs_archive" l.

Definition execPartitionsSQL (ids : list uuid) (env : Env) : sql unit :=
  l ← gets (λ db, omap (λ r : uuid * Exec, x_finished_at r.2)
                    (select (λ _ x, bool_decide (x_job_id x ∈ ids)) (execs db)));
  ensure_span "job_executions_archive" l.

Definition logPartitionsSQL (ids : list uuid) (env : Env) : sql unit :=
  l ← gets (λ db, lg_ts <$> filter (λ l, log_of ids db l = true) (logs db));
  ensure_span "job_logs_archive" l.

Definition deadLetterPartitionsSQL (ids : list uuid) (env : Env) : sql unit :=
  l ← gets (λ db, (λ r : uuid * DeadLetter, dead_at r.2) <$>
                    select (λ i _, bool_decide (i ∈ ids)) (dead_letters db));
  ensure_span "dead_letter_jobs_archive" l.

(** [insert into] a partitioned archive, of rows with the keys [l]. *)
Definition archiving (parent : string) (l : DB → list (option timestamp)) (move : DB → DB) : sql unit := λ db,
  if forallb (in_partition parent db) (l db) then inr (tt, move db) else inl check_violation.

Definition moveLogsSQL (ids : list uuid) (env : Env) : sql unit :=
  archiving "job_logs_archive" (λ db, (λ l, Some (lg_ts l)) <$> filter (λ l, log_of ids db l = true) (logs db))
  (λ db, db
    <| logs := filter (λ l, log_of ids db l = false) (logs db) |>
    <| logs_archive := logs_archive db ++ filter (λ l, log_of ids db l = true) (logs db) |>).

Definition moveExecsSQL (ids : list uuid) (env : Env) : sql unit :=
  archiving "job_executions_archive"
  (λ db, (λ r : uuid * Exec, x_finished_at r.2) <$> select (λ _ x, bool_decide (x_job_id x ∈ ids)) (execs db))
  (λ db, db
    <| execs := filter (λ r : uuid * Exec, x_job_id r.2 ∉ ids) (execs db) |>
    <| execs_archive := execs_archive db ++ select (λ _ x, bool_decide (x_job_id x ∈ ids)) (execs db) |>).

Definition moveDeadLettersSQL (ids : list uuid) (env : Env) : sql unit :=
  archiving "dead_letter_jobs_archive"
  (λ db, (λ r : uuid * DeadLetter, Some (dead_at r.2)) <$> select (λ i _, bool_decide (i ∈ ids)) (dead_letters db))
  (λ db, db
    <| dead_letters := filter (λ r : uuid * DeadLetter, r.1 ∉ ids) (dead_letters db) |>
    <| dead_letters_archive := dead_letters_archive db ++
         select (λ i _, bool_decide (i ∈ ids)) (dead_letters db) |>).

(** The delete cascades to [job_leases] and [job_dependencies]; the key
    [terminal_at] is [finished_at]. *)
Definition moveJobsSQL (ids : list uuid) (env : Env) : sql unit :=
  archiving "jobs_archive"
  (λ db, (λ r : uuid * Job, finished_at r.2) <$> select (λ i _, bool_decide (i ∈ ids)) (jobs db))
  (λ db, db
    <| jobs := filter (λ r : uuid * Job, r.1 ∉ ids) (jobs db) |>
    <| leases := filter (λ r : uuid * Lease, r.1 ∉ ids) (leases db) |>
    <| deps := filter (λ e : uuid * uuid, (e.1 ∉ ids) ∧ (e.2 ∉ ids)) (deps db) |>
    <| jobs_archive := jobs_archive db ++ select (λ i _, bool_decide (i ∈ ids)) (jobs db) |>).

Definition Archive (after deadLetter : duration) (limit : Z) : go Z :=
  with_tx (
    ids ← tx_exec (pickSQL after deadLetter limit);
    match ids with
    | [] => mret 0
    | _ =>
      _ ← go_fold (λ _ q, tx_exec (q ids)) tt
            [logPartitionsSQL; execPartitionsSQL; jobPartitionsSQL; deadLetterPartitionsSQL];
      _ ← go_fold (λ _ q, tx_exec (q ids)) tt
            [moveLogsSQL; moveExecsSQL; moveDeadLettersSQL; moveJobsSQL];
      _ ← commit_tx;
      mret (Z.of_nat (length ids))
    end).

Definition pruneSQL (env : Env) : sql Z := λ db,
  let gone := select (λ _ k, i_expires_at k <? now env) (idem_keys db) in
  inr (Z.of_nat (length gone),
       db <| idem_keys := filter (λ r : (uuid * string) * IdemKey, (now env ≤ i_expires_at r.2))
                            (idem_keys db) |>).

Definition Prune : go Z := pool_exec pruneSQL.

(** The inner loop of [Run]: batches are moved until one is not full, or fails. *)
Fixpoint archive_all (fuel : nat) (after deadLetter : duration) (batch : Z) : go unit :=
  match fuel with
  | O => mret tt
  | S fuel' =>
    n ← caught (Archive after deadLetter batch);
    match n with
    | inl _ => mret tt
    | inr n => if n <? batch then mret tt else archive_all fuel' after deadLetter batch
    end
  end.
