(* ===== verification/Worker.v ===== *)
(** * internal/worker: running claimed jobs and reporting on them

    A handler is the user's code: [Handler] gives, for a job, what it does while
    it runs, interleaved with the ticks of the lease loop, and how it ends. *)

From S2P Require Import Prelude Schema Fl Pool Jobs.

(** ** worker.go *)

Record Config := mkConfig {
  cf_QueueID : uuid;
  cf_WorkerID : uuid;
  Concurrency : Z;
  cf_Lease : duration;
  Drain : duration;
  Poll : duration;
  Heartbeat : duration;
  Listen : bool;
  cf_CompleteBatch : Z;
  CompleteWait : duration;
}.

Definition second : duration := 1000000000.

Definition DefaultConfig (q w : uuid) : Config :=
  mkConfig q w 4 (30 * second) (30 * second) second (10 * second) true 25 (50 * 1000000).

(** The struct a handler is given, less its two callbacks. *)
Record WJob := mkWJob {
  wj_ID : uuid;
  wj_Type : string;
  wj_Payload : string;
  wj_Attempt : Z;
  wj_Fence : Z;
}.

(** What happens while a handler runs: it reports progress, it logs, or the
    ticker of the lease loop fires. *)
Inductive act := Report (p : string) | LogMsg (level message : string) | LeaseTick.

(** How it ends: no error, a [Snooze], another error, or a panic. *)
Inductive herr := Ok | Nap (After : duration) | Failed (c : Cause) | Panic (msg : string).

Record Handling := mkHandling { acts : list act; ends : herr }.

Definition Handler : Type := WJob → Handling.

(** ** register.go *)

Definition registerSQL (q : uuid) (host : string) (pid_ conc : Z) (env : Env) : sql (option uuid) :=
  oq ← gets (λ db, queues db !! q);
  match oq with
  | None => mret None
  | Some qr =>
    if negb (0 <? conc) then raise check_violation else
    _ ← modify (λ db, db <| workers := <[uuids env 0%nat :=
          mkWorker (q_project_id qr) host pid_ conc "active" (now env) (now env) []]> (workers db) |>);
    mret (Some (uuids env 0%nat))
  end.

Definition Register (q : uuid) (host : string) (pid_ conc : Z) : go uuid :=
  r ← pool_exec (registerSQL q host pid_ conc);
  match r with None => throw ErrNoQueue | Some i => mret i end.

Definition update_worker (i : uuid) (f : Worker → Worker) : sql unit :=
  modify (λ db, db <| workers := alter f i (workers db) |>).

Definition beat (i : uuid) : go unit :=
  pool_exec (λ env, update_worker i (λ w, w <| last_seen_at := now env |>)).

(** The result of [pool.Exec] is dropped. *)
Definition retire (i : uuid) (state : string) : go unit :=
  _ ← caught (pool_exec (λ env,
        update_worker i (λ w, w <| w_state := state |> <| last_seen_at := now env |>)));
  mret tt.

Definition subscribeSQL (i q : uuid) (env : Env) : sql unit := λ db,
  if bool_decide (is_Some (workers db !! i)) && bool_decide (is_Some (queues db !! q))
  then inr (tt, db <| worker_queues := {[(i, q)]} ∪ worker_queues db |>)
  else inl foreign_key_violation.

Definition announce (cfg : Config) (types : list string) : go unit :=
  _ ← pool_exec (λ env, update_worker (cf_WorkerID cfg) (λ w, w <| handlers := types |>));
  pool_exec (subscribeSQL (cf_WorkerID cfg) (cf_QueueID cfg)).

(** ** logbuf.go *)

Definition maxPending : nat := 1000.

Abbreviation logbuf := (list LogLine) (only parsing).

Definition logbuf_add (b : logbuf) (level message : string) : logbuf :=
  if (maxPending <=? length b)%nat then b else b ++ [mkLogLine level message].

(** What is returned and what is left. *)
Definition logbuf_take (b : logbuf) : list LogLine * logbuf := (b, []).

(** An error is logged and dropped. *)
Definition writeLogs (exec : Execution) (lines : list LogLine) : go unit :=
  match lines with
  | [] => mret tt
  | _ => _ ← caught (AppendLogs (ex_ID exec) lines); mret tt
  end.

(** ** run.go *)

Definition reportAttempts : nat := 3.

(** [pgconn.SafeToRetry] is the flag of [ErrConn]. *)
Definition transient (e : err) : bool :=
  match e with
  | ErrPg code => bool_decide (code = "40001"%string) || bool_decide (code = "40P01"%string)
  | ErrConn safe => safe
  | _ => false
  end.

(** [err == nil || errors.Is(err, jobs.ErrFenced) || !transient(err)]. *)
Definition settled {A} (r : err + A) : bool :=
  match r with
  | inr _ => true
  | inl e => bool_decide (e = ErrFenced) || negb (transient e)
  end.

(** [for i := 0; i < n; i++ { r = m(); if settled { break }; if !backoff(ctx) { break } }]:
    the last result.  [live i] is what the [i]-th [backoff] returns, false once
    the context is done. *)
Fixpoint attempts {A} (n : nat) (live : nat → bool) (m : go A) : go (err + A) :=
  match n with
  | O => mret (inl ErrCtx)
  | S n' =>
    r ← caught m;
    if settled r || negb (live n') || bool_decide (n' = 0%nat) then mret r
    else attempts n' live m
  end.

Definition startJob (cfg : Config) (live : nat → bool) (c : Claimed) : go (err + Execution) :=
  attempts reportAttempts live (Start (cl_ID c) (cl_Fence c) (cf_WorkerID cfg)).

Definition extend (cfg : Config) (live : nat → bool) (c : Claimed) (p : option string)
    : go (err + bool) :=
  attempts reportAttempts live (ExtendLease (cl_ID c) (cl_Fence c) (cf_Lease cfg) p).

(** [snooze] and [report] only log what is left of an error. *)
Definition snooze (live : nat → bool) (c : Claimed) (exec : Execution) (after : duration) : go unit :=
  _ ← attempts reportAttempts live (Snooze (cl_ID c) (cl_Fence c) (ex_ID exec) after); mret tt.

Definition report (live : nat → bool) (c : Claimed) (cause : Cause) : go unit :=
  _ ← attempts reportAttempts live (Fail (cl_ID c) (cl_Fence c) (Some cause)); mret tt.

Definition probe (cfg : Config) (c : Claimed) (exec : Execution) : go unit :=
  st ← caught (Probe (cl_ID c) (cl_Fence c) (cf_WorkerID cfg));
  match st with
  | inl _ => mret tt
  | inr StatusLive => mret tt
  | inr s => _ ← caught (CloseExecution (ex_ID exec) s); mret tt
  end.

(** [call]: a panic of the handler becomes an error. *)
Definition call (h : herr) : herr :=
  match h with
  | Panic msg => Failed (mkCause ("handler panic: " +:+ msg) false)
  | r => r
  end.

(** What [runOne] shares with the lease loop. *)
Record Shared := mkShared {
  fenced : bool;
  latest : option string;
  lines : logbuf;
  looping : bool;
}.

#[export] Instance eta_Shared : Eta Shared := λ s,
  mkShared (fenced s) (latest s) (lines s) (looping s).

(** One turn of [leaseLoop] on [t.C]; [cancelled] says that the context was
    done when [extend] failed. *)
Definition lease_tick (cfg : Config) (live : nat → bool) (cancelled : bool) (c : Claimed)
    (exec : Execution) (s : Shared) : go Shared :=
  if negb (looping s) then mret s else
  let '(out, rest) := logbuf_take (lines s) in
  _ ← writeLogs exec out;
  r ← extend cfg live c (latest s);
  match r with
  | inl _ => mret (s <| lines := rest |> <| looping := negb cancelled |>)
  | inr true => mret (s <| lines := rest |>)
  | inr false => mret (s <| lines := rest |> <| fenced := true |> <| looping := false |>)
  end.

Fixpoint handling (cfg : Config) (live : nat → bool) (cancelled : bool) (c : Claimed)
    (exec : Execution) (l : list act) (s : Shared) : go Shared :=
  match l with
  | [] => mret s
  | Report p :: l' => handling cfg live cancelled c exec l' (s <| latest := Some p |>)
  | LogMsg lv m :: l' =>
    handling cfg live cancelled c exec l' (s <| lines := logbuf_add (lines s) lv m |>)
  | LeaseTick :: l' =>
    s' ← lease_tick cfg live cancelled c exec s;
    handling cfg live cancelled c exec l' s'
  end.

(** complete.go: what is sent on the channel [completions]. *)
Record finished := mkFinished { fn_claimed : Claimed; fn_exec : Execution }.

(** [runOne]: what it sends on [completions].  [stopping] is [stopCtx.Err() != nil]
    when it is tested, [aborted] is [runCtx.Err() != nil]. *)
Definition runOne (cfg : Config) (hs : gmap string Handler) (live : nat → bool)
    (stopping aborted : bool) (c : Claimed) : go (option finished) :=
  match hs !! cl_Type c with
  | None => mret None
  | Some h =>
    if stopping then mret None else
    started ← startJob cfg live c;
    match started with
    | inl _ => mret None
    | inr exec =>
      let run := h (mkWJob (cl_ID c) (cl_Type c) (cl_Payload c) (ex_Attempt exec) (cl_Fence c)) in
      s ← handling cfg live aborted c exec (acts run) (mkShared false None [] true);
      _ ← writeLogs exec (logbuf_take (lines s)).1;
      if fenced s then _ ← probe cfg c exec; mret None else
      match call (ends run) with
      | Ok => mret (Some (mkFinished c exec))
      | Nap after => _ ← snooze live c exec after; mret None
      | Failed cause => if aborted then mret None else _ ← report live c cause; mret None
      | Panic _ => mret None
      end
    end
  end.

(** [jitter(d)], [r] being the draw of [rand.Int64N(d/2 + 1)]. *)
Definition jitter_of (d r : duration) : duration := if d <=? 0 then 0 else Z.quot d 2 + r.

(** ** complete.go *)

Definition done_of (f : finished) : Done :=
  mkDone (cl_ID (fn_claimed f)) (cl_Fence (fn_claimed f)) (ex_ID (fn_exec f)).

(** [flush] always returns an empty buffer. *)
Definition flush (cfg : Config) (live : nat → bool) (buf : list finished) : go unit :=
  match buf with
  | [] => mret tt
  | _ =>
    r ← attempts reportAttempts live (CompleteBatch (done_of <$> buf));
    match r with
    | inl _ => mret tt
    | inr done_ =>
      if (length done_ <? length buf)%nat then
        foldr (λ f k, if decide (cl_ID (fn_claimed f) ∈ done_) then k
                      else _ ← probe cfg (fn_claimed f) (fn_exec f); k) (mret tt) buf
      else mret tt
    end
  end.

(** The events of [completeLoop]: a job finished, the ticker fired, the channel
    was closed. *)
Inductive cevent := Recv (f : finished) | Tick | Closed.

(** One turn of the loop: the buffers handed to [flush], the buffer that is
    left, and whether the loop goes on. *)
Definition complete_turn (batch : Z) (buf : list finished) (e : cevent)
    : list (list finished) * list finished * bool :=
  match e with
  | Closed => ([buf], [], false)
  | Tick => ([buf], [], true)
  | Recv f =>
    let buf' := buf ++ [f] in
    if batch <=? Z.of_nat (length buf') then ([buf'], [], true) else ([], buf', true)
  end.

Definition flush_all (cfg : Config) (live : nat → bool) (bs : list (list finished)) : go unit :=
  foldr (λ b k, _ ← flush cfg live b; k) (mret tt) bs.

Fixpoint completeLoop (cfg : Config) (live : nat → bool) (buf : list finished) (l : list cevent)
    : go unit :=
  match l with
  | [] => mret tt
  | e :: l' =>
    let '(out, buf', more) := complete_turn (cf_CompleteBatch cfg) buf e in
    _ ← flush_all cfg live out;
    if more then completeLoop cfg live buf' l' else mret tt
  end.

(** ** worker.go: [Run]

    [Run] is a loop and the goroutines it starts: the heartbeat, the completion
    loop and one [runOne] for every claimed job.  Its state is where the loop
    is, the goroutines still in [runOne], those that wait to send on
    [completions], the channel, the buffer of the completion loop, and which of
    the two contexts are done. *)

Inductive phase := Starting | Claiming | Draining | Flushing | Completed | Returned.

Record WState := mkWState {
  w_phase : phase;
  running : list Claimed;
  sending : list finished;
  channel : list finished;
  cbuf : list finished;
  stopped : bool;
  aborted : bool;
}.

#[export] Instance eta_WState : Eta WState := λ s,
  mkWState (w_phase s) (running s) (sending s) (channel s) (cbuf s) (stopped s) (aborted s).

Definition wstart : WState := mkWState Starting [] [] [] [] false false.

(** [active.Load()]: the goroutines that did not return. *)
Definition active (s : WState) : Z := Z.of_nat (length (running s) + length (sending s)).

(** The names of the handlers, sorted. *)
Definition handler_types (hs : gmap string Handler) : list string :=
  merge_sort String.le (elements (dom hs)).

(** The claim of a turn of the loop. *)
Definition run_request (cfg : Config) (hs : gmap string Handler) (s : WState) : ClaimRequest :=
  mkClaimRequest (cf_QueueID cfg) (cf_WorkerID cfg) (Concurrency cfg - active s) (cf_Lease cfg)
    (Some (handler_types hs)).

(** A slice that is [nil] when there is an error. *)
Definition or_nil {A} (r : err + list A) : list A := match r with inr l => l | inl _ => [] end.

Definition world_after {A} (m : go A) (w : World) : World := snd (m w).

(** What a step did with jobs. *)
Inductive wlabel :=
  | Quiet
  | Claims (l : list Claimed)
  | Ends (c : Claimed) (o : option finished)
  | Flushes (bs : list (list finished)).

(** Whether the completion loop runs. *)
Definition completing (p : phase) : bool :=
  match p with Claiming | Draining | Flushing => true | _ => false end.

(** A step of [Run].  A [runOne] is one step, at its end; the other processes and
    the other goroutines work between its calls ([c_other]).  It tests the two
    contexts before its end, so it may have seen one not done that is done now,
    and not the converse. *)
Inductive wstep (cfg : Config) (hs : gmap string Handler)
    : WState * World → wlabel → WState * World → Prop :=
  | ws_announce s w x :
      w_phase s = Starting → answer (announce cfg (handler_types hs)) w = inr x →
      wstep cfg hs (s, w) Quiet
        (s <| w_phase := Claiming |>, world_after (announce cfg (handler_types hs)) w)
  | ws_announce_err s w e :
      w_phase s = Starting → answer (announce cfg (handler_types hs)) w = inl e →
      wstep cfg hs (s, w) Quiet
        (s <| w_phase := Returned |>, world_after (announce cfg (handler_types hs)) w)
  | ws_beat s w :
      completing (w_phase s) = true → aborted s = false →
      wstep cfg hs (s, w) Quiet (s, world_after (beat (cf_WorkerID cfg)) w)
  | ws_signal s w : wstep cfg hs (s, w) Quiet (s <| stopped := true |>, w)
  | ws_claim s w l :
      w_phase s = Claiming → stopped s = false → 0 < Concurrency cfg - active s →
      or_nil (answer (Claim (run_request cfg hs s)) w) = l →
      wstep cfg hs (s, w) (Claims l)
        (s <| running := running s ++ l |>, world_after (Claim (run_request cfg hs s)) w)
  | ws_runOne s w c l1 l2 live stopping ab r :
      running s = l1 ++ c :: l2 →
      (stopping = true → stopped s = true) → (ab = true → aborted s = true) →
      answer (runOne cfg hs live stopping ab c) w = inr r →
      wstep cfg hs (s, w) (Ends c r)
        (s <| running := l1 ++ l2 |> <| sending := sending s ++ option_list r |>,
         world_after (runOne cfg hs live stopping ab c) w)
  | ws_send s w f l1 l2 :
      sending s = l1 ++ f :: l2 →
      Z.of_nat (length (channel s)) < cf_CompleteBatch cfg * 2 →
      wstep cfg hs (s, w) Quiet (s <| sending := l1 ++ l2 |> <| channel := channel s ++ [f] |>, w)
  | ws_recv s w live f ch out buf more :
      completing (w_phase s) = true → channel s = f :: ch →
      complete_turn (cf_CompleteBatch cfg) (cbuf s) (Recv f) = (out, buf, more) →
      wstep cfg hs (s, w) (Flushes out)
        (s <| channel := ch |> <| cbuf := buf |>, world_after (flush_all cfg live out) w)
  | ws_tick s w live out buf more :
      completing (w_phase s) = true →
      complete_turn (cf_CompleteBatch cfg) (cbuf s) Tick = (out, buf, more) →
      wstep cfg hs (s, w) (Flushes out)
        (s <| cbuf := buf |>, world_after (flush_all cfg live out) w)
  | ws_drain s w :
      w_phase s = Claiming → stopped s = true →
      wstep cfg hs (s, w) Quiet
        (s <| w_phase := Draining |>, world_after (retire (cf_WorkerID cfg) "draining") w)
  | ws_abort s w : w_phase s = Draining → wstep cfg hs (s, w) Quiet (s <| aborted := true |>, w)
  | ws_close s w :
      w_phase s = Draining → running s = [] → sending s = [] →
      wstep cfg hs (s, w) Quiet (s <| w_phase := Flushing |>, w)
  | ws_closed s w live out buf more :
      w_phase s = Flushing → channel s = [] →
      complete_turn (cf_CompleteBatch cfg) (cbuf s) Closed = (out, buf, more) →
      wstep cfg hs (s, w) (Flushes out)
        (s <| w_phase := Completed |> <| cbuf := buf |>, world_after (flush_all cfg live out) w)
  | ws_return s w :
      w_phase s = Completed →
      wstep cfg hs (s, w) Quiet
        (s <| w_phase := Returned |> <| aborted := true |>,
         world_after (retire (cf_WorkerID cfg) "dead") w).

(** Steps one after the other, with what they did. *)
Inductive wrun (cfg : Config) (hs : gmap string Handler)
    : WState * World → list wlabel → WState * World → Prop :=
  | wrun_nil x : wrun cfg hs x [] x
  | wrun_snoc x tr y a z : wrun cfg hs x tr y → wstep cfg hs y a z → wrun cfg hs x (tr ++ [a]) z.
