(* ===== verification/Api.v ===== *)
(** * internal/api: errors, transactions, authentication and authorization

    problem.go, respond.go and authz.go.  A request is its header, cookie, path
    and query lookups and its body, already decoded: [None] is a body that
    [encoding/json] rejects.  [google/uuid] is a parameter ([uuid_Parse]). *)

From S2P Require Import Prelude Text Schema Fl Pool.

(** ** Strings *)

#[local] Open Scope string_scope.
#[local] Open Scope list_scope.
#[local] Open Scope Z_scope.
#[local] Set Warnings "-register-all".

(** [strings.TrimSpace] on ASCII. *)
Definition is_space (c : Ascii.ascii) : bool :=
  let n := Ascii.N_of_ascii c in ((9 <=? n) && (n <=? 13) || (n =? 32))%N.

Fixpoint trim_left (s : string) : string :=
  match s with
  | EmptyString => EmptyString
  | String c s' => if is_space c then trim_left s' else s
  end.

Definition TrimSpace (s : string) : string :=
  String.rev (trim_left (String.rev (trim_left s))).

(** [strings.CutPrefix] *)
Fixpoint CutPrefix (p s : string) : option string :=
  match p, s with
  | EmptyString, _ => Some s
  | String a p', String b s' => if decide (a = b) then CutPrefix p' s' else None
  | String _ _, EmptyString => None
  end.

(** ** problem.go *)

Definition badRequest (detail : string) : apiError := mkApiError 400 "bad request" detail [].
Definition unauthorized : apiError := mkApiError 401 "unauthorized" "" [].
Definition forbidden : apiError := mkApiError 403 "forbidden" "role too low" [].
Definition notFound (what : string) : apiError :=
  mkApiError 404 "not found" (what +:+ " not found") [].
Definition conflict (detail : string) : apiError := mkApiError 409 "conflict" detail [].
Definition tooOld (detail : string) : apiError := mkApiError 410 "cursor too old" detail [].
Definition unavailable (detail : string) : apiError :=
  mkApiError 503 "unavailable" detail [("Retry-After", "1")].
Definition tooMany (detail : string) (retryAfter : Z) : apiError :=
  mkApiError 429 "queue full" detail [("Retry-After", pretty.pretty retryAfter)].
Definition internalError : apiError := mkApiError 500 "internal error" "" [].

Definition fail_with {A} (e : apiError) : go A := throw (ErrApi e).

(** ** respond.go *)

(** The bodies the handlers build. *)
Inductive json :=
  | JNull
  | JVal (v : jval)
  | JId (i : uuid)
  | JTime (t : timestamp)
  | JRaw (s : string)
  | JArr (l : list json)
  | JObj (l : list (string * json)).

Definition jtext (s : string) : json := JVal (jstr s).
Definition jnum (z : Z) : json := JVal (jint z).

Record result := mkResult {
  r_status : Z;
  r_body : option json;
  r_entityID : uuid;
  r_projectID : uuid;
  r_audit : option (list (string * jval));
}.

(** [result{body: b}] and the like. *)
Definition ok_body (b : json) : result := mkResult 0 (Some b) uuid_Nil uuid_Nil None.
Definition created (b : json) (entity : uuid) : result := mkResult 201 (Some b) entity uuid_Nil None.
Definition no_content : result := mkResult 204 None uuid_Nil uuid_Nil None.

Definition maxTxRetries : nat := 5.

Definition has_code (code : sqlstate) (e : err) : bool :=
  match e with ErrPg c => bool_decide (c = code) | _ => false end.

Definition isTimeout := has_code "57014".
Definition isUnique := has_code unique_violation.
Definition isCheck := has_code check_violation.
Definition isInUse := has_code object_in_use.
Definition isFKViolation := has_code foreign_key_violation.

Definition retryable (e : err) : bool :=
  bool_decide (e = ErrConflictRetry) || has_code "40001" e || has_code "40P01" e.

Definition roll_back : go unit := λ w, (inr tt, rollback w).

(** [s.tx]: the loop over the attempts; [last] is the error of the previous one. *)
Fixpoint tx_attempts {A} (n : nat) (last : err) (fn : go A) : go A :=
  match n with
  | O => throw last
  | S n' =>
    _ ← begin_tx;
    r ← caught fn;
    match r with
    | inl e =>
      _ ← roll_back;
      if retryable e then tx_attempts n' e fn else throw e
    | inr a =>
      c ← caught commit_tx;
      match c with
      | inl e =>
        _ ← roll_back;
        if retryable e then tx_attempts n' e fn else throw e
      | inr _ => mret a
      end
    end
  end.

Definition server_tx {A} (fn : go A) : go A := tx_attempts maxTxRetries (ErrOther "nil") fn.

Record Response := mkResponse {
  rs_status : Z;
  rs_headers : list (string * string);
  rs_body : option json;
}.

(** [writeError]: an error that is not an [apiError] is a 503 when the statement
    timed out and a 500 otherwise. *)
Definition problem_of (e : err) : apiError :=
  match e with
  | ErrApi ae => ae
  | _ => if isTimeout e then unavailable "the database took too long" else internalError
  end.

Definition writeError (rid : string) (e : err) : Response :=
  let ae := problem_of e in
  mkResponse (ae_status ae)
    (ae_headers ae ++ [("Content-Type", "application/problem+json")])
    (Some (JObj ([("type", jtext "about:blank"); ("title", jtext (ae_title ae));
                  ("status", jnum (ae_status ae)); ("request_id", jtext rid)] ++
                 (if decide (ae_detail ae = "") then [] else [("detail", jtext (ae_detail ae))])))).

Definition write (rid : string) (r : err + result) : Response :=
  match r with
  | inl e => writeError rid e
  | inr res =>
    let st := if r_status res =? 0 then 200 else r_status res in
    match r_body res with
    | None => mkResponse st [] None
    | Some b => mkResponse st [("Content-Type", "application/json")] (Some b)
    end
  end.

(** ** Requests *)

Record Request (B : Type) := mkRequest {
  rq_header : string → string;
  rq_cookie : option string;
  rq_protocols : list string;  (* the values of Sec-WebSocket-Protocol *)
  rq_path : string → string;
  rq_query : string → string;
  rq_body : option B;
  rq_id : string;
}.
Arguments rq_header {B} r name : rename.
Arguments rq_cookie {B} r : rename.
Arguments rq_protocols {B} r : rename.
Arguments rq_path {B} r name : rename.
Arguments rq_query {B} r name : rename.
Arguments rq_body {B} r : rename.
Arguments rq_id {B} r : rename.

Definition decode {B} (r : Request B) : go B :=
  match rq_body r with Some b => mret b | None => fail_with (badRequest "invalid json body") end.

(** ** authz.go *)

Inductive role := viewer | member | admin | owner.

Definition role_rank (r : role) : Z :=
  match r with viewer => 0 | member => 1 | admin => 2 | owner => 3 end.

Definition parseRole (s : string) : role :=
  if decide (s = "owner") then owner
  else if decide (s = "admin") then admin
  else if decide (s = "member") then member
  else viewer.

Record scope := mkScope {
  sc_userID : uuid;
  sc_sessionID : uuid;
  sc_orgID : uuid;
  sc_projectID : uuid;
  sc_entityID : uuid;
  sc_role : role;
}.

#[export] Instance eta_scope : Eta scope := λ s,
  mkScope (sc_userID s) (sc_sessionID s) (sc_orgID s) (sc_projectID s) (sc_entityID s) (sc_role s).

(** stream.go: the names the headers list. *)
Definition subprotocols {B} (r : Request B) : list string :=
  h ← rq_protocols r;
  filter (λ p, p ≠ "") (TrimSpace <$> Split h (of_byte 44)).

Definition tokenProtocol := "fl.token.".

Definition bearer {B} (r : Request B) : string :=
  match CutPrefix "Bearer " (rq_header r "Authorization") with
  | Some t => TrimSpace t
  | None =>
    match rq_cookie r with
    | Some c => c
    | None => default "" (head (omap (CutPrefix tokenProtocol) (subprotocols r)))
    end
  end.

(** [where id = $1 and revoked_at is null and expires_at > fl.now()]. *)
Definition sessionSQL (sid : uuid) (env : Env) : sql (option uuid) :=
  gets (λ db, s ← sessions db !! sid;
    if bool_decide (revoked_at s = None) && (now env <? s_expires_at s)
    then Some (s_user_id s) else None).

(** A row of a scope query: the project, the organization and the role. *)
Definition member_of (uid project : uuid) (db : DB) : option (uuid * uuid * string) :=
  p ← projects db !! project;
  r ← org_members db !! (org_id p, uid);
  Some (project, org_id p, r).

Definition orgScopeSQL (id uid : uuid) (env : Env) : sql (option string) :=
  gets (λ db, org_members db !! (id, uid)).
Definition projectScopeSQL (id uid : uuid) (env : Env) : sql (option (uuid * uuid * string)) :=
  gets (member_of uid id).
Definition queueScopeSQL (id uid : uuid) (env : Env) : sql (option (uuid * uuid * string)) :=
  gets (λ db, q ← queues db !! id; member_of uid (q_project_id q) db).
Definition policyScopeSQL (id uid : uuid) (env : Env) : sql (option (uuid * uuid * string)) :=
  gets (λ db, p ← policies db !! id; member_of uid (p_project_id p) db).
Definition jobScopeSQL (id uid : uuid) (env : Env) : sql (option (uuid * uuid * string)) :=
  gets (λ db, j ← jobs db !! id; member_of uid (project_id j) db).
Definition scheduleScopeSQL (id uid : uuid) (env : Env) : sql (option (uuid * uuid * string)) :=
  gets (λ db, s ← schedules db !! id; q ← queues db !! sc_queue_id s;
              member_of uid (q_project_id q) db).
(** [limit 1]: the first row that has a member. *)
Definition batchScopeSQL (id uid : uuid) (env : Env) : sql (option (uuid * uuid * string)) :=
  gets (λ db, head (omap (λ r : uuid * Job, member_of uid (project_id r.2) db)
                (select (λ _ j, bool_decide (batch_id j = Some id)) (jobs db)))).

Definition scopeBy (query : uuid → uuid → Env → sql (option (uuid * uuid * string)))
    (uid id : uuid) : go (option scope) :=
  row ← tx_exec (query id uid);
  mret ('(proj, org, r) ← row; Some (mkScope uuid_Nil uuid_Nil org proj id (parseRole r))).

Definition orgScope (uid id : uuid) : go (option scope) :=
  row ← tx_exec (orgScopeSQL id uid);
  mret (r ← row; Some (mkScope uuid_Nil uuid_Nil id uuid_Nil id (parseRole r))).
Definition projectScope := scopeBy projectScopeSQL.
Definition queueScope := scopeBy queueScopeSQL.
Definition policyScope := scopeBy policyScopeSQL.
Definition jobScope := scopeBy jobScopeSQL.
Definition scheduleScope := scopeBy scheduleScopeSQL.
Definition batchScope := scopeBy batchScopeSQL.

Definition auditSQL (project actor : uuid) (action entity : string) (eid : option uuid)
    (detail : option (list (string * jval))) (env : Env) : sql unit :=
  modify (λ db, db <| audit_log := audit_log db ++
    [mkAudit project actor action entity eid detail (now env)] |>).

Definition audit (project actor : uuid) (action entity : string) (entityID : uuid)
    (detail : option (list (string * jval))) : go unit :=
  tx_exec (auditSQL project actor action entity
    (if decide (entityID = uuid_Nil) then None else Some entityID) detail).

Section authz.
Context (uuid_Parse : string → option uuid).

Definition locator (B : Type) : Type := Request B → uuid → go (option scope).
Definition scoped (B : Type) : Type := Request B → scope → go result.

Definition byPath {B} (name : string) (fn : uuid → uuid → go (option scope)) : locator B :=
  λ r uid,
  match uuid_Parse (rq_path r name) with
  | None => fail_with (badRequest ("invalid " +:+ name))
  | Some id => fn uid id
  end.

Definition none {B} : locator B := λ r uid,
  mret (Some (mkScope uuid_Nil uuid_Nil uuid_Nil uuid_Nil uuid_Nil owner)).

Definition byProjectOrQueue {B} : locator B := λ r uid,
  if negb (bool_decide (rq_query r "queue" = "")) then
    match uuid_Parse (rq_query r "queue") with
    | None => fail_with (badRequest "invalid queue")
    | Some id => queueScope uid id
    end
  else if negb (bool_decide (rq_query r "project" = "")) then
    match uuid_Parse (rq_query r "project") with
    | None => fail_with (badRequest "invalid project")
    | Some id => projectScope uid id
    end
  else fail_with (badRequest "project or queue query parameter required").

Definition byProjectQuery {B} : locator B := λ r uid,
  if decide (rq_query r "project" = "") then
    fail_with (badRequest "project query parameter required")
  else match uuid_Parse (rq_query r "project") with
       | None => fail_with (badRequest "invalid project")
       | Some id => projectScope uid id
       end.

(** The user and the session of the request. *)
Definition authuser {B} (r : Request B) : go (uuid * uuid) :=
  let tok := bearer r in
  if decide (tok = "") then fail_with unauthorized else
  match uuid_Parse tok with
  | None => fail_with unauthorized
  | Some sid =>
    ou ← tx_exec (sessionSQL sid);
    match ou with None => fail_with unauthorized | Some uid => mret (uid, sid) end
  end.

(** The function [guard] runs in a transaction. *)
Definition guarded {B} (min : role) (action entity : string) (loc : locator B) (h : scoped B)
    (r : Request B) : go result :=
  '(uid, sid) ← authuser r;
  osc ← loc r uid;
  match osc with
  | None => fail_with (notFound entity)
  | Some sc0 =>
    if role_rank (sc_role sc0) <? role_rank min then fail_with forbidden else
    let sc := sc0 <| sc_userID := uid |> <| sc_sessionID := sid |> in
    res ← h r sc;
    let proj := if decide (sc_projectID sc = uuid_Nil) then r_projectID res else sc_projectID sc in
    let ent := if decide (r_entityID res = uuid_Nil) then sc_entityID sc else r_entityID res in
    _ ← (if bool_decide (action ≠ "") && bool_decide (proj ≠ uuid_Nil)
         then audit proj uid action entity ent (r_audit res) else mret tt);
    mret res
  end.

Definition guard {B} (min : role) (action entity : string) (loc : locator B) (h : scoped B)
    (r : Request B) : go Response :=
  res ← caught (server_tx (guarded min action entity loc h r));
  mret (write (rq_id r) res).

Definition public {B} (h : scoped B) (r : Request B) : go Response :=
  res ← caught (server_tx (h r (mkScope uuid_Nil uuid_Nil uuid_Nil uuid_Nil uuid_Nil viewer)));
  mret (write (rq_id r) res).

End authz.

(** ** Middleware *)

(** What the handler behind it does: it answers, or it panics. *)
Inductive served := Answered (resp : Response) | Panicked.

(** [fresh] is what [uuid.NewString] returns. *)
Definition middleware {B} (fresh : string) (next : Request B → go served) (r : Request B) : go Response :=
  let rid := if decide (rq_header r "X-Request-Id" = "") then fresh else rq_header r "X-Request-Id" in
  s ← next (mkRequest B (rq_header r) (rq_cookie r) (rq_protocols r) (rq_path r) (rq_query r) (rq_body r) rid);
  let resp := match s with Answered resp => resp | Panicked => writeError rid (ErrApi internalError) end in
  mret (mkResponse (rs_status resp) (("X-Request-Id", rid) :: rs_headers resp) (rs_body resp)).
