(* ===== verification/ApiJobs.v ===== *)
(** * internal/api: submitting, cancelling, retrying and replaying jobs
    (jobs.go, dlq.go, batches.go) *)

From S2P Require Import Prelude Text Calendar Schema Fl Pool Jobs Api.

#[local] Open Scope string_scope.
#[local] Open Scope list_scope.
#[local] Open Scope Z_scope.

(** [derefInt(p, d)] and its kin are [default d p]. *)

(** ** jobs.go: requests *)

(** A missing [payload] is the empty message. *)
Record submitReq := mkSubmitReq {
  sr_Type : string;
  sr_Payload : string;
  sr_Priority : option Z;
  sr_RunAt : option timestamp;
  sr_TimeoutMs : option Z;
  sr_RetryPolicyID : option string;
  sr_DependsOn : list string;
}.

Record submitView := mkSubmitView {
  sv_ID : uuid;
  sv_QueueID : uuid;
  sv_Type : string;
  sv_Status : job_status;
  sv_Priority : Z;
  sv_RunAt : timestamp;
  sv_CreatedAt : timestamp;
}.

Definition submit_json (v : submitView) : json :=
  JObj [("id", JId (sv_ID v)); ("queue_id", JId (sv_QueueID v)); ("type", jtext (sv_Type v));
        ("status", jtext (status_text (sv_Status v))); ("priority", jnum (sv_Priority v));
        ("run_at", JTime (sv_RunAt v)); ("created_at", JTime (sv_CreatedAt v))].

(** ** jobs.go: statements *)

Definition queueDefaultsSQL (q : uuid) (env : Env) : sql (option (uuid * Z * option Z)) :=
  gets (λ db, r ← queues db !! q; Some (q_retry_policy_id r, default_priority r, max_depth r)).

Definition queuedCountSQL (q : uuid) (env : Env) : sql Z := gets (queued_count q).

Definition policyOwnedSQL (policy project : uuid) (env : Env) : sql (option unit) :=
  gets (λ db, p ← policies db !! policy;
    if decide (p_project_id p = project) then Some tt else None).

(** The row of [insertJobSQL], the other columns at their default. *)
Definition submitted_row (env : Env) (q project : uuid) (typ pl : string) (prio : Z)
    (runAt : option timestamp) (timeout : Z) (policy : uuid) (pending : Z) : Job :=
  let at_ := default (now env) runAt in
  mkJob project q None None None typ pl
    (if (0 <? pending) || (now env <? at_) then js_scheduled else js_queued)
    prio at_ 0 0 0 0 None None timeout policy pending 0 (now env) None None None.

Definition insertJobSQL (q project : uuid) (typ pl : string) (prio : Z) (runAt : option timestamp)
    (timeout : Z) (policy : uuid) (pending : Z) (env : Env)
    : sql (uuid * job_status * timestamp * timestamp) :=
  let i := uuids env 0%nat in
  let j := submitted_row env q project typ pl prio runAt timeout policy pending in
  _ ← insert_job i j;
  mret (i, status j, run_at j, created_at j).

Definition parentsSQL (ids : list uuid) (project : uuid) (env : Env) : sql Z :=
  gets (λ db, Z.of_nat (length (select (λ i j, bool_decide (i ∈ ids) &&
    bool_decide (project_id j = project) && negb (is_terminal (status j))) (jobs db)))).

(** [insertDepsSQL]: the row checks as the rows come, the foreign keys last. *)
Fixpoint insert_deps (child : uuid) (parents : list uuid) : sql unit :=
  match parents with
  | [] => mret tt
  | p :: ps =>
    if decide (p = child) then raise check_violation else
    d ← gets deps;
    if decide ((p, child) ∈ d) then raise unique_violation else
    _ ← modify (λ db, db <| deps := {[(p, child)]} ∪ deps db |>);
    insert_deps child ps
  end.

Definition insertDepsSQL (parents : list uuid) (child : uuid) (env : Env) : sql unit :=
  _ ← insert_deps child parents;
  known ← gets (λ db, forallb (λ p, bool_decide (is_Some (jobs db !! p))) (child :: parents));
  if known : bool then mret tt else raise foreign_key_violation.

(** [cycleSQL]: the rows of [up] are a node and a path. *)
Definition up_start (child : uuid) (d : gset (uuid * uuid)) : list (uuid * list uuid) :=
  (λ p, (p, [child])) <$> parents child d.

Definition up_next (d : gset (uuid * uuid)) (row : uuid * list uuid) : list (uuid * list uuid) :=
  (λ p, (p, row.2 ++ [row.1])) <$> filter (λ p, p ∉ row.2) (parents row.1 d).

(** The fuel: no path repeats a node, but for its last. *)
Definition up (child : uuid) (d : gset (uuid * uuid)) : list uuid :=
  (rounds (up_next d) (S (S (size d))) (up_start child d)).*1.

Definition cycleSQL (child : uuid) (env : Env) : sql bool :=
  gets (λ db, bool_decide (child ∈ up child (deps db))).

Definition submitViewSQL (i : uuid) (env : Env) : sql (option submitView) :=
  gets (λ db, j ← jobs db !! i;
    Some (mkSubmitView i (queue_id j) (jtype j) (status j) (priority j) (run_at j) (created_at j))).

Definition findIdemSQL (q : uuid) (key : string) (env : Env) : sql (option (uuid * string * bool)) :=
  gets (λ db, k ← idem_keys db !! (q, key);
    Some (i_job_id k, i_fingerprint k, i_expires_at k <=? now env)).

Definition deleteIdemSQL (q : uuid) (key : string) (env : Env) : sql unit :=
  modify (λ db, db <| idem_keys := delete (q, key) (idem_keys db) |>).

Definition day_us : Z := 86400000000.

Definition insertIdemSQL (q : uuid) (key : string) (job : uuid) (fp : string) (env : Env) : sql unit :=
  λ db,
  if decide (is_Some (idem_keys db !! (q, key))) then inl unique_violation
  else inr (tt, db <| idem_keys :=
         <[(q, key) := mkIdemKey job fp (now env) (now env + day_us)]> (idem_keys db) |>).

(** The rows of [insertBatchSQL], one per tuple of [unnest]. *)
Definition batch_row (env : Env) (q project policy batch : uuid)
    (t : string * string * Z * option timestamp * Z) : Job :=
  let '(typ, pl, prio, runAt, timeout) := t in
  (submitted_row env q project typ pl prio runAt timeout policy 0) <| batch_id := Some batch |>.

Definition insertBatchSQL (q project policy batch : uuid)
    (rows : list (string * string * Z * option timestamp * Z)) (env : Env) : sql (list uuid) :=
  traverse (imap (λ k t, (uuids env k, t)) rows) (λ r : uuid * _,
    _ ← insert_job r.1 (batch_row env q project policy batch r.2); mret r.1).

(** [cancelSQL]: the old status, the queue, the project and the shard, and
    whether the update matched. *)
Definition cancelled_row (env : Env) (j : Job) : Job :=
  j <| status := js_cancelled |> <| finished_at := Some (now env) |> <| worker_id := None |>.

Definition cancelSQL (i : uuid) (env : Env)
    : sql (option (job_status * uuid * uuid * Z * bool)) :=
  oj ← gets (λ db, jobs db !! i);
  match oj with
  | None => mret None
  | Some j =>
    let open := negb (is_terminal (status j)) in
    _ ← (if open then update_job i (cancelled_row env) else mret tt);
    mret (Some (status j, queue_id j, project_id j, shard j, open))
  end.

Definition cancelExecSQL (i : uuid) (env : Env) : sql unit :=
  update_execs (open_exec_of i) (finish_row env xo_cancelled).

Definition cancelLeaseSQL (i : uuid) (env : Env) : sql unit := drop_lease i.

(** [where id = $1 and status in ('retry_wait', 'scheduled') and pending_deps = 0]. *)
Definition retry_now (env : Env) (j : Job) : Job :=
  j <| status := js_queued |> <| run_at := now env |>.

Definition waiting (j : Job) : bool :=
  match status j with js_retry_wait | js_scheduled => true | _ => false end &&
  (pending_deps j =? 0).

Definition retrySQL (i : uuid) (env : Env) : sql (option job_status) :=
  oj ← gets (λ db, jobs db !! i);
  match oj with
  | None => mret None
  | Some j =>
    if waiting j then _ ← update_job i (retry_now env); mret (Some js_queued) else mret None
  end.

(** ** dlq.go: statements *)

(** [where id = $1 and status = 'dead_letter' returning replay_generation]. *)
Definition replaySQL (i : uuid) (env : Env) : sql (option Z) :=
  oj ← gets (λ db, jobs db !! i);
  match oj with
  | None => mret None
  | Some j =>
    if bool_decide (status j = js_dead_letter)
    then _ ← update_job i (replayed_row (now env)); mret (Some (replay_generation j + 1))
    else mret None
  end.

Definition cancelledKinSQL (i : uuid) (env : Env) : sql (list uuid) :=
  gets (λ db, merge_sort id_le
    (select (λ k j, bool_decide (k ∈ down i (deps db)) && bool_decide (status j = js_cancelled))
       (jobs db)).*1).

Definition emit_tx (t : string) (entity project : uuid) (pl : list (string * jval)) : go unit :=
  tx_exec (λ env, emit env t entity project pl).

(** ** Handlers *)

Section handlers.
Context (uuid_Parse : string → option uuid) (uuid_String : uuid → string).
Context (json_Valid : string → bool) (json_canon : string → string).
Context (sha256_hex : string → string).

(** [fingerprint]: the digest of the fields, separated by a zero byte. *)
Definition zero_byte : string := String (Ascii.ascii_of_nat 0) "".

Definition fingerprint (typ pl : string) (prio timeout : Z) (policy : string)
    (runAt : option timestamp) : string :=
  sha256_hex (typ +:+ zero_byte +:+ pretty.pretty prio +:+ zero_byte +:+ pretty.pretty timeout +:+
    zero_byte +:+ policy +:+ zero_byte +:+ from_option Format "" runAt +:+ zero_byte +:+
    json_canon pl).

Definition assertPolicyOwned (policy project : uuid) : go unit :=
  r ← tx_exec (policyOwnedSQL policy project);
  match r with
  | None => fail_with (badRequest "retry_policy_id does not belong to this project")
  | Some _ => mret tt
  end.

Fixpoint parentIDs (depends : list string) : go (list uuid) :=
  match depends with
  | [] => mret []
  | p :: ps =>
    match uuid_Parse p with
    | None => fail_with (badRequest "invalid depends_on")
    | Some i => r ← parentIDs ps; mret (i :: r)
    end
  end.

Definition link (child : uuid) (ps : list uuid) : go unit :=
  r ← caught (tx_exec (insertDepsSQL ps child));
  match r with
  | inl e =>
    if isFKViolation e then fail_with (badRequest "depends_on names a job that does not exist")
    else if isCheck e then fail_with (badRequest "a job cannot depend on itself")
    else throw e
  | inr _ =>
    cycle ← tx_exec (cycleSQL child);
    if cycle : bool then fail_with (badRequest "depends_on would create a cycle") else mret tt
  end.

Definition loadSubmitView (i : uuid) : go submitView := tx_exec (submitViewSQL i) ≫= scan_row.

(** The lookup of an idempotency key: the job it names, or [None] to go on. *)
Definition lookup_key (q : uuid) (key fp : string) : go (option uuid) :=
  row ← tx_exec (findIdemSQL q key);
  match row with
  | None => mret None
  | Some (existing, storedFP, expired) =>
    if negb expired then
      if negb (bool_decide (storedFP = fp))
      then fail_with (conflict "idempotency key reused with a different payload")
      else mret (Some existing)
    else _ ← tx_exec (deleteIdemSQL q key); mret None
  end.

(** From [parentIDs] on: the insert, the key, the edges and the event. *)
Definition insert_submitted (sc : scope) (typ pl key fp : string) (prio timeout : Z) (policy : uuid)
    (req : submitReq) : go result :=
  ps ← parentIDs (sr_DependsOn req);
  pending ← (if decide (ps = []) then mret 0 else tx_exec (parentsSQL ps (sc_projectID sc)));
  '(i, st, at_, cr) ← tx_exec (insertJobSQL (sc_entityID sc) (sc_projectID sc) typ pl prio
    (sr_RunAt req) timeout policy pending);
  _ ← (if decide (key = "") then mret tt else
       r ← caught (tx_exec (insertIdemSQL (sc_entityID sc) key i fp));
       match r with
       | inl e => if isUnique e then throw ErrConflictRetry else throw e
       | inr _ => mret tt
       end);
  _ ← (if decide (ps = []) then mret tt else link i ps);
  _ ← emit_tx "job.submitted" i (sc_projectID sc)
        [("status", jstr (status_text st)); ("type", jstr typ)];
  mret (created (submit_json (mkSubmitView i (sc_entityID sc) typ st prio at_ cr)) i).

Definition payload_of (pl : string) : string := if decide (pl = "") then "{}" else pl.

Definition submitJob : scoped submitReq := λ r sc,
  req ← decode r;
  let typ := TrimSpace (sr_Type req) in
  if decide (typ = "") then fail_with (badRequest "type required") else
  let pl := payload_of (sr_Payload req) in
  if negb (json_Valid pl) then fail_with (badRequest "payload is not valid json") else
  '(defPolicy, defPriority, maxDepth) ← tx_exec (queueDefaultsSQL (sc_entityID sc)) ≫= scan_row;
  let prio := default defPriority (sr_Priority req) in
  let timeout := default 300000 (sr_TimeoutMs req) in
  policy ← (match sr_RetryPolicyID req with
            | None => mret defPolicy
            | Some s =>
              match uuid_Parse s with
              | None => fail_with (badRequest "invalid retry_policy_id")
              | Some i => _ ← assertPolicyOwned i (sc_projectID sc); mret i
              end
            end);
  _ ← (match maxDepth, sr_RunAt req with
       | Some m, None =>
         depth ← tx_exec (queuedCountSQL (sc_entityID sc));
         if m <=? depth then fail_with (tooMany "queue depth cap reached" 1) else mret tt
       | _, _ => mret tt
       end);
  let key := TrimSpace (rq_header r "Idempotency-Key") in
  let fp := if decide (key = "") then ""
            else fingerprint typ pl prio timeout (uuid_String policy) (sr_RunAt req) in
  hit ← (if decide (key = "") then mret None else lookup_key (sc_entityID sc) key fp);
  match hit with
  | Some i => v ← loadSubmitView i; mret (mkResult 200 (Some (submit_json v)) i uuid_Nil None)
  | None => insert_submitted sc typ pl key fp prio timeout policy req
  end.

(** *** submitBatch *)

Fixpoint batch_rows (defPriority : Z) (l : list submitReq)
    : go (list (string * string * Z * option timestamp * Z)) :=
  match l with
  | [] => mret []
  | j :: l' =>
    let t := TrimSpace (sr_Type j) in
    if decide (t = "") then fail_with (badRequest "each job requires a type") else
    let pl := payload_of (sr_Payload j) in
    if negb (json_Valid pl) then fail_with (badRequest "a job payload is not valid json") else
    rest ← batch_rows defPriority l';
    mret ((t, pl, default defPriority (sr_Priority j), sr_RunAt j, default 300000 (sr_TimeoutMs j))
          :: rest)
  end.

(** [batchID] is the value of [uuid.New()]. *)
Definition submitBatch (batchID : uuid) : scoped (list submitReq) := λ r sc,
  reqs ← decode r;
  let n := Z.of_nat (length reqs) in
  if n =? 0 then fail_with (badRequest "jobs required") else
  if 1000 <? n then fail_with (badRequest "batch limited to 1000 jobs") else
  '(defPolicy, defPriority, maxDepth) ← tx_exec (queueDefaultsSQL (sc_entityID sc)) ≫= scan_row;
  _ ← (match maxDepth with
       | Some m =>
         depth ← tx_exec (queuedCountSQL (sc_entityID sc));
         if m <? depth + n then fail_with (tooMany "queue depth cap reached" 1) else mret tt
       | None => mret tt
       end);
  rows ← batch_rows defPriority reqs;
  ids ← tx_exec (insertBatchSQL (sc_entityID sc) (sc_projectID sc) defPolicy batchID rows);
  _ ← emit_tx "batch.submitted" batchID (sc_projectID sc) [("count", jint (Z.of_nat (length ids)))];
  mret (created (JObj [("batch_id", JId batchID); ("count", jnum (Z.of_nat (length ids)));
                       ("job_ids", JArr (JId <$> ids))]) batchID).

(** *** cancelJob and retryJob *)

Definition cancelJob {B} : scoped B := λ r sc,
  let i := sc_entityID sc in
  row ← tx_exec (cancelSQL i);
  match row with
  | None => fail_with (notFound "job")
  | Some (oldStatus, queueID, projectID, sh, cancelled) =>
    if negb cancelled
    then fail_with (conflict ("job is already in a terminal state: " +:+ status_text oldStatus)) else
    _ ← (if is_active oldStatus then
           _ ← tx_exec (cancelExecSQL i);
           _ ← tx_exec (cancelLeaseSQL i);
           Release queueID sh 1
         else mret tt);
    _ ← emit_tx "job.cancelled" i projectID [("from", jstr (status_text oldStatus))];
    mret (mkResult 0 (Some (JObj [("id", JId i); ("status", jtext "cancelled");
                                  ("from", jtext (status_text oldStatus))])) uuid_Nil uuid_Nil
            (Some [("from", jstr (status_text oldStatus))]))
  end.

Definition retryJob {B} : scoped B := λ r sc,
  let i := sc_entityID sc in
  row ← tx_exec (retrySQL i);
  match row with
  | None => fail_with (conflict "job is not waiting to retry")
  | Some st =>
    _ ← emit_tx "job.retried" i (sc_projectID sc) [("status", jstr (status_text st))];
    mret (ok_body (JObj [("id", JId i); ("status", jtext (status_text st))]))
  end.

(** *** dlq.go *)

Record bulkReplayReq := mkBulkReplayReq { br_Limit : option Z; br_Rate : option Q }.

Definition replayQueue : scoped bulkReplayReq := λ r sc,
  req ← decode r;
  let limit := default 100 (br_Limit req) in
  if (limit <=? 0) || (1000 <? limit)
  then fail_with (badRequest "limit must be between 1 and 1000") else
  let rate := default 0%Q (br_Rate req) in
  if negb (Qle_bool 0 rate) then fail_with (badRequest "rate_per_sec must not be negative") else
  out ← tx_exec (λ env, replay_dead env (sc_entityID sc) limit rate (Some (sc_userID sc)));
  let n := Z.of_nat (length out) in
  mret (mkResult 0 (Some (JObj [("replayed", jnum n); ("items", JArr (JId <$> out))]))
          uuid_Nil uuid_Nil (Some [("replayed", jint n); ("limit", jint limit); ("rate_per_sec", jreal rate)])).

(** [strings.Join(kin, ", ")] *)
Definition join_ids (l : list uuid) : string := String.concat ", " (uuid_String <$> l).

Definition replayJob {B} : scoped B := λ r sc,
  let i := sc_entityID sc in
  kin ← tx_exec (cancelledKinSQL i);
  if negb (bool_decide (kin = []))
  then fail_with (conflict ("cancelled descendants would be revived: " +:+ join_ids kin)) else
  g ← tx_exec (replaySQL i);
  match g with
  | None => fail_with (conflict "job is not in the dead letter queue")
  | Some gen =>
    _ ← tx_exec (λ env, mark_replayed env i (Some (sc_userID sc)));
    _ ← emit_tx "job.replayed" i (sc_projectID sc) [("replay_generation", jint gen)];
    mret (mkResult 200 (Some (JObj [("id", JId i); ("status", jtext "queued");
                                    ("replay_generation", jnum gen)]))
            uuid_Nil uuid_Nil (Some [("replay_generation", jint gen)]))
  end.

End handlers.

(** ** batches.go *)

Definition batchCountsSQL (b : uuid) (env : Env) : sql (list (job_status * Z)) :=
  gets (λ db,
    let rows := select (λ _ j, bool_decide (batch_id j = Some b)) (jobs db) in
    (λ st, (st, Z.of_nat (length (filter (λ r : uuid * Job, status r.2 = st) rows)))) <$>
      remove_dups ((λ r : uuid * Job, status r.2) <$> rows)).

Definition sum_of (l : list Z) : Z := foldr Z.add 0 l.

Definition getBatch {B} : scoped B := λ r sc,
  counts ← tx_exec (batchCountsSQL (sc_entityID sc));
  let total := sum_of counts.*2 in
  let done_ := sum_of (filter (λ c : job_status * Z, is_terminal c.1 = true) counts).*2 in
  if total =? 0 then fail_with (notFound "batch") else
  mret (mkResult 200 (Some (JObj
    [("batch_id", JId (sc_entityID sc)); ("total", jnum total); ("done", jnum done_);
     ("complete", JVal (jbool (done_ =? total)));
     ("status_counts", JObj ((λ c : job_status * Z, (status_text c.1, jnum c.2)) <$> counts))]))
    uuid_Nil uuid_Nil None).
