(* ===== verification/ApiAdmin.v ===== *)
(** * internal/api: queues, retry policies and schedules
    (queues.go, policies.go, schedules.go)

    The lists are in Views, the deletions of queues and schedules in Cascade. *)

From S2P Require Import Prelude Schema Fl Pool Cron Api ApiJobs.

#[local] Open Scope string_scope.
#[local] Open Scope list_scope.
#[local] Open Scope Z_scope.

(** ** queues.go *)

Record queueReq := mkQueueReq {
  qr_Name : option string;
  qr_RetryPolicyID : option string;
  qr_MaxConcurrency : option Z;
  qr_Shards : option Z;
  qr_MaxDepth : option Z;
  qr_DefaultPriority : option Z;
  qr_RateLimitPerSec : option Q;
  qr_RateBurst : option Q;
}.

(** The column checks of [queues], [queues_open_has_deadline] and
    [queues_probe_budget_sane]. *)
Definition queue_checks (q : Queue) : bool :=
  (0 <? max_concurrency q) && from_option (λ d, 0 <? d) true (max_depth q) &&
  Qle_bool 0 (rl_limit_per_sec q) && Qle_bool 0 (rl_burst q) &&
  (1 <=? shards q) && (shards q <=? 64) &&
  (negb (bool_decide (q_breaker_state q = br_open)) || bool_decide (is_Some (breaker_open_until q))) &&
  (0 <=? breaker_probe_budget q) &&
  (bool_decide (q_breaker_state q = br_half_open) || (breaker_probe_budget q =? 0)).

Definition queue_in_range (q : Queue) : bool :=
  in_int4 (max_concurrency q) && in_int4 (default_priority q) &&
  from_option in_int4 true (max_depth q).

(** [unique (project_id, name)]. *)
Definition queue_name_taken (i : uuid) (q : Queue) (db : DB) : bool :=
  bool_decide (select (λ k r, negb (bool_decide (k = i)) &&
    bool_decide (q_project_id r = q_project_id q) && bool_decide (q_name r = q_name q))
    (queues db) ≠ []).

(** Writing a row of [queues], with the trigger [fl.spread]; [old] is [None] on
    insert, which the primary key refuses when the row exists. *)
Definition put_queue (env : Env) (i : uuid) (old : option Queue) (new : Queue) : sql unit := λ db,
  if negb (queue_in_range new) then inl numeric_out_of_range
  else if negb (queue_checks new) then inl check_violation
  else if queue_name_taken i new db ||
          (bool_decide (old = None) && bool_decide (is_Some (queues db !! i)))
  then inl unique_violation
  else spread env i old new (db <| queues := <[i := new]> (queues db) |>).

Definition insertQueueSQL (project : uuid) (name : string) (policy : uuid) (conc : Z)
    (depth : option Z) (prio : Z) (rate burst : Q) (n : Z) (env : Env) : sql (uuid * Queue) :=
  let q := mkQueue project name false policy prio conc depth rate burst br_closed None 0 n (now env) in
  _ ← put_queue env (uuids env 0%nat) None q;
  mret (uuids env 0%nat, q).

(** The columns [updateQueueSQL] sets; a missing value keeps the column. *)
Definition updated_queue (req : queueReq) (policy : option uuid) (q : Queue) : Queue :=
  q <| q_name := default (q_name q) (qr_Name req) |>
    <| max_concurrency := default (max_concurrency q) (qr_MaxConcurrency req) |>
    <| max_depth := match qr_MaxDepth req with Some d => Some d | None => max_depth q end |>
    <| default_priority := default (default_priority q) (qr_DefaultPriority req) |>
    <| rl_limit_per_sec := default (rl_limit_per_sec q) (qr_RateLimitPerSec req) |>
    <| rl_burst := default (rl_burst q) (qr_RateBurst req) |>
    <| q_retry_policy_id := default (q_retry_policy_id q) policy |>
    <| shards := default (shards q) (qr_Shards req) |>.

Definition updateQueueSQL (i : uuid) (req : queueReq) (policy : option uuid) (env : Env)
    : sql (option (Queue * Z)) :=
  oq ← gets (λ db, queues db !! i);
  match oq with
  | None => mret None
  | Some q =>
    let new := updated_queue req policy q in
    _ ← put_queue env i (Some q) new;
    used ← gets (in_flight_of i);
    mret (Some (new, used))
  end.

Definition setPausedSQL (i : uuid) (p : bool) (env : Env) : sql (option bool) :=
  oq ← gets (λ db, queues db !! i);
  match oq with
  | None => mret None
  | Some q => _ ← modify (λ db, db <| queues := <[i := q <| paused := p |>]> (queues db) |>);
              mret (Some p)
  end.

Definition breaker_text (b : breaker_state) : string :=
  match b with br_closed => "closed" | br_open => "open" | br_half_open => "half_open" end.

Definition queue_json (i : uuid) (q : Queue) (used : Z) : json :=
  JObj [("id", JId i); ("project_id", JId (q_project_id q)); ("name", jtext (q_name q));
        ("paused", JVal (jbool (paused q))); ("retry_policy_id", JId (q_retry_policy_id q));
        ("default_priority", jnum (default_priority q)); ("max_concurrency", jnum (max_concurrency q));
        ("shards", jnum (shards q)); ("in_flight", jnum used);
        ("max_depth", from_option jnum JNull (max_depth q));
        ("rl_limit_per_sec", JVal (jreal (rl_limit_per_sec q))); ("rl_burst", JVal (jreal (rl_burst q)));
        ("breaker_state", jtext (breaker_text (q_breaker_state q)));
        ("created_at", JTime (q_created_at q))].

Definition getQueueSQL (i : uuid) (env : Env) : sql (option (Queue * Z)) :=
  gets (λ db, q ← queues db !! i; Some (q, in_flight_of i db)).

(** Rewrites the errors of the database a handler has an answer for. *)
Definition or_problem {A} (tests : list ((err → bool) * apiError)) (m : go A) : go A :=
  r ← caught m;
  match r with
  | inr a => mret a
  | inl e => match list_find (λ t : (err → bool) * apiError, t.1 e = true) tests with
             | Some (_, t) => fail_with t.2
             | None => throw e
             end
  end.

Section admin.
Context (uuid_Parse : string → option uuid).

Definition createQueue : scoped queueReq := λ r sc,
  req ← decode r;
  let name := from_option TrimSpace "" (qr_Name req) in
  if decide (name = "") then fail_with (badRequest "name required") else
  match qr_RetryPolicyID req with
  | None => fail_with (badRequest "retry_policy_id required")
  | Some s =>
    match uuid_Parse s with
    | None => fail_with (badRequest "invalid retry_policy_id")
    | Some policy =>
      _ ← assertPolicyOwned policy (sc_projectID sc);
      '(i, q) ← or_problem
        [(isUnique, conflict "queue name already used in this project");
         (isCheck, badRequest "queue values out of range")]
        (tx_exec (insertQueueSQL (sc_projectID sc) name policy (default 10 (qr_MaxConcurrency req))
           (qr_MaxDepth req) (default 0 (qr_DefaultPriority req)) (default 0%Q (qr_RateLimitPerSec req))
           (default 0%Q (qr_RateBurst req)) (default 1 (qr_Shards req))));
      mret (created (queue_json i q 0) i)
    end
  end.

Definition getQueue {B} : scoped B := λ r sc,
  row ← tx_exec (getQueueSQL (sc_entityID sc));
  match row with
  | None => fail_with (notFound "queue")
  | Some (q, used) => mret (ok_body (queue_json (sc_entityID sc) q used))
  end.

Definition updateQueue : scoped queueReq := λ r sc,
  req ← decode r;
  policy ← (match qr_RetryPolicyID req with
            | None => mret None
            | Some s =>
              match uuid_Parse s with
              | None => fail_with (badRequest "invalid retry_policy_id")
              | Some i => _ ← assertPolicyOwned i (sc_projectID sc); mret (Some i)
              end
            end);
  '(q, used) ← or_problem
    [(isUnique, conflict "queue name already used in this project");
     (isInUse, conflict "shards cannot change while the queue holds running jobs");
     (isCheck, badRequest "queue values out of range")]
    (tx_exec (updateQueueSQL (sc_entityID sc) req policy) ≫= scan_row);
  mret (ok_body (queue_json (sc_entityID sc) q used)).

Definition setPaused (sc : scope) (p : bool) (topic_ : string) : go result :=
  got ← tx_exec (setPausedSQL (sc_entityID sc) p) ≫= scan_row;
  _ ← emit_tx topic_ (sc_entityID sc) (sc_projectID sc) [("paused", jbool got)];
  mret (ok_body (JObj [("id", JId (sc_entityID sc)); ("paused", JVal (jbool got))])).

Definition pauseQueue {B} : scoped B := λ r sc, setPaused sc true "queue.paused".
Definition resumeQueue {B} : scoped B := λ r sc, setPaused sc false "queue.resumed".

(** ** policies.go *)

Record policyReq := mkPolicyReq {
  pq_Name : option string;
  pq_Kind : option string;
  pq_MaxAttempts : option Z;
  pq_MaxLostAttempts : option Z;
  pq_BaseDelayMs : option Z;
  pq_MaxDelayMs : option Z;
  pq_Jitter : option bool;
}.

Definition parse_kind (s : string) : option backoff_kind :=
  if decide (s = "fixed") then Some bk_fixed
  else if decide (s = "linear") then Some bk_linear
  else if decide (s = "exponential") then Some bk_exponential
  else None.

Definition validKind (s : string) : bool := bool_decide (is_Some (parse_kind s)).

Definition kind_text (k : backoff_kind) : string :=
  match k with bk_fixed => "fixed" | bk_linear => "linear" | bk_exponential => "exponential" end.

Definition policy_checks (p : Policy) : bool :=
  (1 <=? max_attempts p) && (max_attempts p <=? 50) &&
  (1 <=? max_lost_attempts p) && (max_lost_attempts p <=? 50) &&
  (0 <? base_delay_ms p) && (0 <? max_delay_ms p) && (base_delay_ms p <=? max_delay_ms p).

Definition policy_in_range (p : Policy) : bool :=
  in_int4 (max_attempts p) && in_int4 (max_lost_attempts p) &&
  in_int4 (base_delay_ms p) && in_int4 (max_delay_ms p).

Definition policy_name_taken (i : uuid) (p : Policy) (db : DB) : bool :=
  bool_decide (select (λ k r, negb (bool_decide (k = i)) &&
    bool_decide (p_project_id r = p_project_id p) && bool_decide (p_name r = p_name p))
    (policies db) ≠ []).

Definition put_policy (i : uuid) (p : Policy) : sql unit := λ db,
  if negb (policy_in_range p) then inl numeric_out_of_range
  else if negb (policy_checks p) then inl check_violation
  else if policy_name_taken i p db then inl unique_violation
  else inr (tt, db <| policies := <[i := p]> (policies db) |>).

Definition insertPolicySQL (p : Policy) (env : Env) : sql uuid :=
  _ ← put_policy (uuids env 0%nat) p; mret (uuids env 0%nat).

Definition updated_policy (req : policyReq) (k : option backoff_kind) (p : Policy) : Policy :=
  mkPolicy (p_project_id p) (default (p_name p) (pq_Name req)) (default (kind p) k)
    (default (max_attempts p) (pq_MaxAttempts req))
    (default (max_lost_attempts p) (pq_MaxLostAttempts req))
    (default (base_delay_ms p) (pq_BaseDelayMs req))
    (default (max_delay_ms p) (pq_MaxDelayMs req)) (default (jitter p) (pq_Jitter req)).

Definition updatePolicySQL (i : uuid) (req : policyReq) (k : option backoff_kind) (env : Env)
    : sql (option Policy) :=
  op ← gets (λ db, policies db !! i);
  match op with
  | None => mret None
  | Some p => let new := updated_policy req k p in _ ← put_policy i new; mret (Some new)
  end.

Definition policy_json (i : uuid) (p : Policy) : json :=
  JObj [("id", JId i); ("project_id", JId (p_project_id p)); ("name", jtext (p_name p));
        ("kind", jtext (kind_text (kind p))); ("max_attempts", jnum (max_attempts p));
        ("max_lost_attempts", jnum (max_lost_attempts p)); ("base_delay_ms", jnum (base_delay_ms p));
        ("max_delay_ms", jnum (max_delay_ms p)); ("jitter", JVal (jbool (jitter p)))].

Definition createPolicy : scoped policyReq := λ r sc,
  req ← decode r;
  let name := from_option TrimSpace "" (pq_Name req) in
  if decide (name = "") then fail_with (badRequest "name required") else
  match parse_kind (default "exponential" (pq_Kind req)) with
  | None => fail_with (badRequest "kind must be fixed, linear, or exponential")
  | Some k =>
    let p := mkPolicy (sc_projectID sc) name k (default 5 (pq_MaxAttempts req))
      (default 3 (pq_MaxLostAttempts req)) (default 1000 (pq_BaseDelayMs req))
      (default 3600000 (pq_MaxDelayMs req)) (default true (pq_Jitter req)) in
    i ← or_problem
      [(isUnique, conflict "policy name already used in this project");
       (isCheck, badRequest "policy values out of range")]
      (tx_exec (insertPolicySQL p));
    mret (created (policy_json i p) i)
  end.

Definition updatePolicy : scoped policyReq := λ r sc,
  req ← decode r;
  if from_option (λ s, negb (validKind s)) false (pq_Kind req)
  then fail_with (badRequest "kind must be fixed, linear, or exponential") else
  p ← or_problem
    [(isUnique, conflict "policy name already used in this project");
     (isCheck, badRequest "policy values out of range")]
    (tx_exec (updatePolicySQL (sc_entityID sc) req (pq_Kind req ≫= parse_kind)) ≫= scan_row);
  mret (ok_body (policy_json (sc_entityID sc) p)).

(** [delete from retry_policies], restricted by [queues] and [jobs]. *)
Definition deletePolicySQL (i : uuid) (env : Env) : sql unit := λ db,
  if bool_decide (select (λ _ q, bool_decide (q_retry_policy_id q = i)) (queues db) ≠ []) ||
     bool_decide (select (λ _ j, bool_decide (retry_policy_id j = i)) (jobs db) ≠ [])
  then inl foreign_key_violation
  else inr (tt, db <| policies := delete i (policies db) |>).

Definition deletePolicy {B} : scoped B := λ r sc,
  _ ← or_problem [(isFKViolation, conflict "policy still referenced by a queue or job")]
        (tx_exec (deletePolicySQL (sc_entityID sc)));
  mret no_content.

End admin.

(** ** schedules.go *)

Record scheduleReq := mkScheduleReq {
  sq_Name : option string;
  sq_CronExpr : option string;
  sq_Timezone : option string;
  sq_JobType : option string;
  sq_Payload : string;
  sq_Overlap : option string;
  sq_Catchup : option string;
  sq_Enabled : option bool;
}.

Definition overlapPolicies : list string := ["allow"; "skip"].
Definition catchupPolicies : list string := ["skip"; "fire_once"].

Section schedules.
Context {Location CronSchedule : Type}.
Context (LoadLocation : string → option Location).
Context (ParseStandard : string → option CronSchedule).
Context (Next : CronSchedule → Location → timestamp → timestamp).
(** The rows of [tz_names] and [encoding/json]'s [Valid]. *)
Context (tz_known : string → bool) (json_Valid : string → bool).

Definition schedule_name_taken (i : uuid) (s : Schedule) (db : DB) : bool :=
  bool_decide (select (λ k r, negb (bool_decide (k = i)) &&
    bool_decide (sc_queue_id r = sc_queue_id s) && bool_decide (sc_name r = sc_name s))
    (schedules db) ≠ []).

Definition put_schedule (i : uuid) (s : Schedule) : sql unit := λ db,
  if negb (bool_decide (overlap_policy s ∈ overlapPolicies) &&
           bool_decide (catchup_policy s ∈ catchupPolicies)) then inl check_violation
  else if schedule_name_taken i s db then inl unique_violation
  else if negb (tz_known (timezone s)) then inl foreign_key_violation
  else inr (tt, db <| schedules := <[i := s]> (schedules db) |>).

Definition checkCron (expr tz : string) : go timestamp :=
  match LoadLocation tz with
  | None => fail_with (badRequest "unknown timezone")
  | Some _ =>
    now_ ← tx_exec (λ env, mret (now env));
    match NextTick LoadLocation ParseStandard Next expr tz now_ with
    | None => fail_with (badRequest "cron_expr is not a valid five field expression")
    | Some next => mret next
    end
  end.

Definition schedule_json (i : uuid) (s : Schedule) : json :=
  JObj [("id", JId i); ("queue_id", JId (sc_queue_id s)); ("name", jtext (sc_name s));
        ("cron_expr", jtext (cron_expr s)); ("timezone", jtext (timezone s));
        ("job_type", jtext (sc_job_type s)); ("payload", jtext (sc_payload s));
        ("enabled", JVal (jbool (enabled s))); ("overlap_policy", jtext (overlap_policy s));
        ("catchup_policy", jtext (catchup_policy s)); ("next_run_at", JTime (next_run_at s));
        ("last_fired_for", from_option JTime JNull (last_fired_for s));
        ("created_at", JTime (sc_created_at s))].

Definition insertScheduleSQL (q : uuid) (name expr tz jt pl ov ca : string) (next : timestamp)
    (env : Env) : sql (uuid * Schedule) :=
  let s := mkSchedule q name expr tz jt pl true ov ca next None (now env) in
  _ ← put_schedule (uuids env 0%nat) s; mret (uuids env 0%nat, s).

Definition schedule_problems : list ((err → bool) * apiError) :=
  [(isUnique, conflict "schedule name already used in this queue");
   (isFKViolation, badRequest "unknown timezone")].

Definition createSchedule : scoped scheduleReq := λ r sc,
  req ← decode r;
  let name := TrimSpace (default "" (sq_Name req)) in
  let expr := TrimSpace (default "" (sq_CronExpr req)) in
  let jt := TrimSpace (default "" (sq_JobType req)) in
  if bool_decide (name = "") || bool_decide (expr = "") || bool_decide (jt = "")
  then fail_with (badRequest "name, cron_expr and job_type required") else
  let tz := from_option TrimSpace "UTC" (sq_Timezone req) in
  let ov := default "skip" (sq_Overlap req) in
  let ca := default "skip" (sq_Catchup req) in
  if negb (bool_decide (ov ∈ overlapPolicies))
  then fail_with (badRequest "overlap_policy must be allow or skip") else
  if negb (bool_decide (ca ∈ catchupPolicies))
  then fail_with (badRequest "catchup_policy must be skip or fire_once") else
  if negb (bool_decide (sq_Payload req = "")) && negb (json_Valid (sq_Payload req))
  then fail_with (badRequest "payload is not valid json") else
  next ← checkCron expr tz;
  '(i, s) ← or_problem schedule_problems
    (tx_exec (insertScheduleSQL (sc_entityID sc) name expr tz jt (payload_of (sq_Payload req)) ov ca next));
  mret (created (schedule_json i s) i).

Definition getScheduleSQL (i : uuid) (env : Env) : sql (option Schedule) :=
  gets (λ db, schedules db !! i).

(** A missing value keeps the column; what the request gives is stored as it is. *)
Definition updated_schedule (req : scheduleReq) (next : option timestamp) (s : Schedule) : Schedule :=
  mkSchedule (sc_queue_id s) (default (sc_name s) (sq_Name req))
    (default (cron_expr s) (sq_CronExpr req)) (default (timezone s) (sq_Timezone req))
    (default (sc_job_type s) (sq_JobType req))
    (if decide (sq_Payload req = "") then sc_payload s else sq_Payload req)
    (default (enabled s) (sq_Enabled req)) (default (overlap_policy s) (sq_Overlap req))
    (default (catchup_policy s) (sq_Catchup req)) (default (next_run_at s) next)
    (last_fired_for s) (sc_created_at s).

Definition updateScheduleSQL (i : uuid) (req : scheduleReq) (next : option timestamp) (env : Env)
    : sql (option Schedule) :=
  os ← gets (λ db, schedules db !! i);
  match os with
  | None => mret None
  | Some s => let new := updated_schedule req next s in _ ← put_schedule i new; mret (Some new)
  end.

Definition updateSchedule : scoped scheduleReq := λ r sc,
  req ← decode r;
  ocur ← tx_exec (getScheduleSQL (sc_entityID sc));
  match ocur with
  | None => fail_with (notFound "schedule")
  | Some cur =>
    if from_option (λ o, negb (bool_decide (o ∈ overlapPolicies))) false (sq_Overlap req)
    then fail_with (badRequest "overlap_policy must be allow or skip") else
    if from_option (λ c, negb (bool_decide (c ∈ catchupPolicies))) false (sq_Catchup req)
    then fail_with (badRequest "catchup_policy must be skip or fire_once") else
    if negb (bool_decide (sq_Payload req = "")) && negb (json_Valid (sq_Payload req))
    then fail_with (badRequest "payload is not valid json") else
    next ← (if bool_decide (is_Some (sq_CronExpr req)) || bool_decide (is_Some (sq_Timezone req))
            then at_ ← checkCron (TrimSpace (default (cron_expr cur) (sq_CronExpr req)))
                                 (TrimSpace (default (timezone cur) (sq_Timezone req)));
                 mret (Some at_)
            else mret None);
    s ← or_problem schedule_problems
      (tx_exec (updateScheduleSQL (sc_entityID sc) req next) ≫= scan_row);
    mret (ok_body (schedule_json (sc_entityID sc) s))
  end.

Definition setScheduleEnabledSQL (i : uuid) (e : bool) (env : Env) : sql (option bool) :=
  os ← gets (λ db, schedules db !! i);
  match os with
  | None => mret None
  | Some s => _ ← modify (λ db, db <| schedules := <[i := s <| enabled := e |>]> (schedules db) |>);
              mret (Some e)
  end.

Definition setScheduleEnabled (sc : scope) (e : bool) : go result :=
  got ← tx_exec (setScheduleEnabledSQL (sc_entityID sc) e);
  match got with
  | None => fail_with (notFound "schedule")
  | Some b => mret (ok_body (JObj [("id", JId (sc_entityID sc)); ("enabled", JVal (jbool b))]))
  end.

Definition pauseSchedule {B} : scoped B := λ r sc, setScheduleEnabled sc false.
Definition resumeSchedule {B} : scoped B := λ r sc, setScheduleEnabled sc true.

End schedules.
