(* ===== verification/Accounts.v ===== *)
(** * internal/api: users, sessions, organizations and projects
    (auth.go, orgs.go, projects.go)

    Where SQL leaves the order of equal keys open, rows come by their id.  The
    deletions are in Cascade. *)

From S2P Require Import Prelude Text Schema Fl Pool Password Api ApiJobs ApiAdmin.

#[local] Open Scope string_scope.
#[local] Open Scope list_scope.
#[local] Open Scope Z_scope.

(** [order by created_at desc]. *)
Definition newest_first {V} (at_ : V → timestamp) (l : list (uuid * V)) : list (uuid * V) :=
  merge_sort (by_key (λ r : uuid * V, - at_ r.2)) l.

(** ** auth.go *)

(** [sessionTTL.Seconds()], as an interval. *)
Definition sessionTTL : Z := 30 * 24 * 3600 * 1000000.

Record registerReq := mkRegisterReq { rg_Email : string; rg_Password : string; rg_Name : string }.
Record loginReq := mkLoginReq { lr_Email : string; lr_Password : string }.

Definition user_by_email (e : string) (db : DB) : option (uuid * User) :=
  head (select (λ _ u, bool_decide (email u = e)) (users db)).

(** [unique (email)]. *)
Definition insertUserSQL (e hash : string) (name : option string) (env : Env) : sql (uuid * timestamp) :=
  λ db,
  let i := uuids env 0%nat in
  if bool_decide (is_Some (user_by_email e db)) || bool_decide (is_Some (users db !! i))
  then inl unique_violation
  else inr ((i, now env), db <| users := <[i := mkUser e hash name (now env)]> (users db) |>).

Definition findUserSQL (e : string) (env : Env) : sql (option (uuid * string)) :=
  gets (λ db, '(i, u) ← user_by_email e db; Some (i, password_hash u)).

Definition insertSessionSQL (sid uid : uuid) (env : Env) : sql (timestamp * timestamp) := λ db,
  if bool_decide (is_Some (sessions db !! sid)) then inl unique_violation
  else if bool_decide (users db !! uid = None) then inl foreign_key_violation
  else let s := mkSession uid (now env) (now env + sessionTTL) None in
       inr ((issued_at s, s_expires_at s), db <| sessions := <[sid := s]> (sessions db) |>).

Definition revokeSessionSQL (sid : uuid) (env : Env) : sql unit :=
  modify (λ db, db <| sessions := alter (λ s,
    if decide (revoked_at s = None) then s <| revoked_at := Some (now env) |> else s) sid (sessions db) |>).

Definition at_sign : Ascii.ascii := of_byte 64.

Section auth.
Context (uuid_String : uuid → string).
Context (hash : string → string → string) (verify : string → string → err + bool).

(** [hash salt pw] is [hashPassword], [salt] what [rand.Read] gives. *)
Definition register (salt : string) : scoped registerReq := λ r sc,
  req ← decode r;
  let e := ToLower (TrimSpace (rg_Email req)) in
  if bool_decide (e = "") || negb (Contains e at_sign) then fail_with (badRequest "valid email required") else
  if (String.length (rg_Password req) <? 8)%nat
  then fail_with (badRequest "password must be at least 8 characters") else
  let n := TrimSpace (rg_Name req) in
  '(i, at_) ← or_problem [(isUnique, conflict "email already registered")]
    (tx_exec (insertUserSQL e (hash salt (rg_Password req)) (if decide (n = "") then None else Some n)));
  mret (mkResult 201 (Some (JObj [("id", JId i); ("email", jtext e); ("name", jtext (rg_Name req));
    ("created_at", JTime at_)])) uuid_Nil uuid_Nil None).

(** [sid] is what [uuid.NewRandom] gives. *)
Definition login (sid : uuid) : scoped loginReq := λ r sc,
  req ← decode r;
  row ← tx_exec (findUserSQL (ToLower (TrimSpace (lr_Email req))));
  match row with
  | None => fail_with unauthorized
  | Some (uid, h) =>
    match verify (lr_Password req) h with
    | inl e => throw e
    | inr false => fail_with unauthorized
    | inr true =>
      '(issued, expires) ← tx_exec (insertSessionSQL sid uid);
      mret (mkResult 200 (Some (JObj [("token", jtext (uuid_String sid)); ("user_id", JId uid);
        ("issued_at", JTime issued); ("expires_at", JTime expires)])) uuid_Nil uuid_Nil None)
    end
  end.

Definition logout {B} : scoped B := λ r sc,
  _ ← tx_exec (revokeSessionSQL (sc_sessionID sc)); mret no_content.

End auth.

(** ** orgs.go *)

Record nameReq := mkNameReq { nr_Name : string }.
Record memberReq := mkMemberReq { mr_Email : string; mr_Role : string }.

Definition insertOrgSQL (name : string) (env : Env) : sql (uuid * timestamp) := λ db,
  let i := uuids env 0%nat in
  if bool_decide (is_Some (organizations db !! i)) then inl unique_violation
  else inr ((i, now env), db <| organizations := <[i := mkOrg name (now env)]> (organizations db) |>).

(** The foreign keys of [org_members]. *)
Definition member_refs (org uid : uuid) (db : DB) : bool :=
  bool_decide (is_Some (organizations db !! org)) && bool_decide (is_Some (users db !! uid)).

Definition insertOwnerSQL (org uid : uuid) (env : Env) : sql unit := λ db,
  if bool_decide (is_Some (org_members db !! (org, uid))) then inl unique_violation
  else if negb (member_refs org uid db) then inl foreign_key_violation
  else inr (tt, db <| org_members := <[(org, uid) := "owner"]> (org_members db) |>).

(** [on conflict do update set role]. *)
Definition upsertMemberSQL (org uid : uuid) (role_ : string) (env : Env) : sql unit := λ db,
  if negb (member_refs org uid db) then inl foreign_key_violation
  else inr (tt, db <| org_members := <[(org, uid) := role_]> (org_members db) |>).

Definition listOrgsSQL (uid : uuid) (env : Env) : sql (list (uuid * Org * string)) :=
  gets (λ db, omap (λ r : uuid * Org, rl ← org_members db !! (r.1, uid); Some (r, rl))
                (newest_first o_created_at (map_to_list (organizations db)))).

Definition getOrgSQL (i : uuid) (env : Env) : sql (option Org) := gets (λ db, organizations db !! i).

Definition updateOrgSQL (i : uuid) (name : string) (env : Env) : sql (option Org) :=
  o ← gets (λ db, organizations db !! i);
  match o with
  | None => mret None
  | Some o =>
    _ ← modify (λ db, db <| organizations := <[i := o <| o_name := name |>]> (organizations db) |>);
    mret (Some (o <| o_name := name |>))
  end.

Definition org_json (i : uuid) (o : Org) (role_ : option string) : json :=
  JObj ([("id", JId i); ("name", jtext (o_name o))] ++
        match role_ with Some r => [("role", jtext r)] | None => [] end ++
        [("created_at", JTime (o_created_at o))]).

(** [validRole] *)
Definition validRole (s : string) : bool := bool_decide (s ∈ ["owner"; "admin"; "member"; "viewer"]).

Definition createOrg : scoped nameReq := λ r sc,
  req ← decode r;
  let name := TrimSpace (nr_Name req) in
  if decide (name = "") then fail_with (badRequest "name required") else
  '(i, at_) ← tx_exec (insertOrgSQL name);
  _ ← tx_exec (insertOwnerSQL i (sc_userID sc));
  mret (mkResult 201 (Some (org_json i (mkOrg name at_) (Some "owner"))) uuid_Nil uuid_Nil None).

Definition listOrgs {B} : scoped B := λ r sc,
  rows ← tx_exec (listOrgsSQL (sc_userID sc));
  mret (ok_body (JObj [("items", JArr ((λ t : uuid * Org * string, org_json t.1.1 t.1.2 (Some t.2)) <$> rows))])).

Definition getOrg {B} : scoped B := λ r sc,
  o ← tx_exec (getOrgSQL (sc_orgID sc));
  match o with
  | None => fail_with (notFound "org")
  | Some o => mret (ok_body (org_json (sc_orgID sc) o None))
  end.

Definition updateOrg : scoped nameReq := λ r sc,
  req ← decode r;
  let name := TrimSpace (nr_Name req) in
  if decide (name = "") then fail_with (badRequest "name required") else
  o ← tx_exec (updateOrgSQL (sc_orgID sc) name) ≫= scan_row;
  mret (ok_body (org_json (sc_orgID sc) o None)).

Definition addMember : scoped memberReq := λ r sc,
  req ← decode r;
  let e := ToLower (TrimSpace (mr_Email req)) in
  if decide (e = "") then fail_with (badRequest "email required") else
  if negb (validRole (mr_Role req))
  then fail_with (badRequest "role must be one of owner, admin, member, viewer") else
  row ← tx_exec (λ env, gets (λ db, fst <$> user_by_email e db));
  match row with
  | None => fail_with (notFound "user")
  | Some uid =>
    _ ← tx_exec (upsertMemberSQL (sc_orgID sc) uid (mr_Role req));
    mret (mkResult 201 (Some (JObj [("org_id", JId (sc_orgID sc)); ("user_id", JId uid);
      ("role", jtext (mr_Role req))])) uuid_Nil uuid_Nil None)
  end.

(** ** projects.go *)

(** [unique (org_id, name)]. *)
Definition project_name_taken (i : uuid) (p : Project) (db : DB) : bool :=
  bool_decide (select (λ k r, negb (bool_decide (k = i)) &&
    bool_decide (org_id r = org_id p) && bool_decide (pr_name r = pr_name p)) (projects db) ≠ []).

Definition put_project (i : uuid) (p : Project) : sql unit := λ db,
  if project_name_taken i p db then inl unique_violation
  else if bool_decide (organizations db !! org_id p = None) then inl foreign_key_violation
  else inr (tt, db <| projects := <[i := p]> (projects db) |>).

Definition insertProjectSQL (org : uuid) (name : string) (env : Env) : sql (uuid * timestamp) :=
  known ← gets (λ db, bool_decide (is_Some (projects db !! uuids env 0%nat)));
  if known : bool then raise unique_violation else
  _ ← put_project (uuids env 0%nat) (mkProject org name (now env));
  mret (uuids env 0%nat, now env).

Definition listProjectsSQL (org : uuid) (env : Env) : sql (list (uuid * Project)) :=
  gets (λ db, newest_first pr_created_at (select (λ _ p, bool_decide (org_id p = org)) (projects db))).

Definition getProjectSQL (i : uuid) (env : Env) : sql (option Project) := gets (λ db, projects db !! i).

Definition updateProjectSQL (i : uuid) (name : string) (env : Env) : sql (option Project) :=
  p ← gets (λ db, projects db !! i);
  match p with
  | None => mret None
  | Some p => _ ← put_project i (p <| pr_name := name |>); mret (Some (p <| pr_name := name |>))
  end.

Definition project_json (i : uuid) (p : Project) : json :=
  JObj [("id", JId i); ("org_id", JId (org_id p)); ("name", jtext (pr_name p));
        ("created_at", JTime (pr_created_at p))].

Definition createProject : scoped nameReq := λ r sc,
  req ← decode r;
  let name := TrimSpace (nr_Name req) in
  if decide (name = "") then fail_with (badRequest "name required") else
  '(i, at_) ← or_problem [(isUnique, conflict "project name already used in this org")]
    (tx_exec (insertProjectSQL (sc_orgID sc) name));
  mret (mkResult 201 (Some (project_json i (mkProject (sc_orgID sc) name at_))) i i None).

Definition listProjects {B} : scoped B := λ r sc,
  rows ← tx_exec (listProjectsSQL (sc_orgID sc));
  mret (ok_body (JObj [("items", JArr ((λ p : uuid * Project, project_json p.1 p.2) <$> rows))])).

Definition getProject {B} : scoped B := λ r sc,
  p ← tx_exec (getProjectSQL (sc_projectID sc));
  match p with
  | None => fail_with (notFound "project")
  | Some p => mret (ok_body (project_json (sc_projectID sc) p))
  end.

Definition updateProject : scoped nameReq := λ r sc,
  req ← decode r;
  let name := TrimSpace (nr_Name req) in
  if decide (name = "") then fail_with (badRequest "name required") else
  p ← or_problem [(isUnique, conflict "project name already used in this org")]
    (tx_exec (updateProjectSQL (sc_projectID sc) name) ≫= scan_row);
  mret (ok_body (project_json (sc_projectID sc) p)).
