(* ===== verification/Views.v ===== *)
(** * internal/api: the lists and the pages
    (pagination.go, query.go and the handlers of the [GET] routes of jobs.go,
    dlq.go, events.go, workers.go, queues.go, policies.go and schedules.go)

    [google/uuid] is a parameter, and so is the collation of the database: the
    rank it gives a text in [order by name]. *)

From S2P Require Import Prelude Text Calendar Schema Fl Pool Api ApiJobs ApiAdmin.
From stdpp Require Import pretty.

#[local] Open Scope string_scope.
#[local] Open Scope list_scope.
#[local] Open Scope Z_scope.

(** ** query.go *)

(** The arguments of a statement. *)
Inductive arg := AId (i : uuid) | AText (s : string) | ATime (t : timestamp) | AInt (n : Z).

#[export] Instance arg_eq_dec : EqDecision arg.
Proof. solve_decision. Defined.

(** The conditions the builder writes: [col = $n] and [(a, b) < ($m, $n)]. *)
Inductive cond :=
  | CEq (col : string) (n : nat)
  | CBefore (cols : string * string) (m n : nat).

Record query := mkQuery { qb_where : list cond; qb_args : list arg }.

Definition new_query : query := mkQuery [] [].

Definition query_eq (col : string) (v : arg) (q : query) : query :=
  let args := qb_args q ++ [v] in mkQuery (qb_where q ++ [CEq col (length args)]) args.

Definition query_eq_opt (col : string) (v : option arg) (q : query) : query :=
  match v with Some a => query_eq col a q | None => q end.

Definition query_before (cols : string * string) (t : option timestamp) (id : uuid) (q : query) : query :=
  match t with
  | None => q
  | Some t =>
    let args := qb_args q ++ [ATime t; AId id] in
    mkQuery (qb_where q ++ [CBefore cols (length args - 1) (length args)]) args
  end.

(** The statement: the conditions, the columns of [order by ... desc, ... desc]
    and the number of the argument that is the limit. *)
Record statement := mkStatement {
  st_where : list cond;
  st_order : string * string;
  st_limit : nat;
  st_args : list arg;
}.

Definition query_build (tail : string * string) (limit : Z) (q : query) : statement :=
  let args := qb_args q ++ [AInt limit] in mkStatement (qb_where q) tail (length args) args.

(** *** What Postgres makes of it *)

(** [$n]. *)
Definition dollar_arg (args : list arg) (n : nat) : option arg :=
  match n with O => None | S n' => args !! n' end.

(** A column of a row. *)
Definition columns (V : Type) : Type := uuid * V → string → option arg.

(** [(t, i) < (t', i')], by the first column that differs. *)
Definition row_lt (a b : timestamp * uuid) : Prop := a.1 < b.1 ∨ (a.1 = b.1 ∧ (a.2 < b.2)%N).

#[export] Instance row_lt_dec : RelDecision row_lt.
Proof. intros a b. unfold row_lt. apply _. Defined.

Definition cond_holds {V} (col : columns V) (args : list arg) (row : uuid * V) (c : cond) : bool :=
  match c with
  | CEq a n => match col row a, dollar_arg args n with
               | Some x, Some y => bool_decide (x = y)
               | _, _ => false
               end
  | CBefore (a, b) m n =>
    match col row a, col row b, dollar_arg args m, dollar_arg args n with
    | Some (ATime t), Some (AId i), Some (ATime t'), Some (AId i') => bool_decide (row_lt (t, i) (t', i'))
    | _, _, _, _ => false
    end
  end.

(** The time and the id a row is ordered by. *)
Definition order_key {V} (col : columns V) (tail : string * string) (row : uuid * V) : timestamp * uuid :=
  match col row tail.1, col row tail.2 with
  | Some (ATime t), Some (AId i) => (t, i)
  | _, _ => (0, uuid_Nil)
  end.

(** [order by ... desc, ... desc]. *)
Definition desc {V} (key : uuid * V → timestamp * uuid) (x y : uuid * V) : Prop := ¬ row_lt (key x) (key y).

#[export] Instance desc_dec {V} (key : uuid * V → timestamp * uuid) : RelDecision (desc key).
Proof. intros x y. unfold desc. apply _. Defined.

Definition run_statement {V} (col : columns V) (st : statement) (m : gmap uuid V) : list (uuid * V) :=
  let n := match dollar_arg (st_args st) (st_limit st) with Some (AInt n) => Z.to_nat n | _ => O end in
  take n (merge_sort (desc (order_key col (st_order st)))
    (select (λ i v, forallb (cond_holds col (st_args st) (i, v)) (st_where st)) m)).

(** ** pagination.go *)

Definition defaultLimit : Z := 50.
Definition maxLimit : Z := 100.

Definition pageLimit {B} (r : Request B) : Z :=
  let v := rq_query r "limit" in
  if decide (v = "") then defaultLimit else
  match Atoi v with
  | None => defaultLimit
  | Some n => if n <=? 0 then defaultLimit else if maxLimit <? n then maxLimit else n
  end.

Definition bar : Ascii.ascii := of_byte 124.

Section views.
Context (uuid_Parse : string → option uuid) (uuid_String : uuid → string).

Definition encodeCursor (t : timestamp) (id : uuid) : string :=
  EncodeToString URLEncoding (Format t +:+ String bar (uuid_String id)).

(** The time of a cursor has nanoseconds. *)
Definition decodeCursor (s : string) : err + option (Z * uuid) :=
  if decide (s = "") then inr None else
  let bad := inl (ErrApi (badRequest "invalid cursor")) in
  match DecodeString URLEncoding s with
  | None => bad
  | Some raw =>
    match Cut raw bar with
    | (a, Some b) =>
      match Parse a with
      | None => bad
      | Some t => match uuid_Parse b with None => bad | Some id => inr (Some (t, id)) end
      end
    | (_, None) => bad
    end
  end.

(** [qb.before(cols, cursorTime, cursorID)]: an argument of type [timestamptz]
    is sent in microseconds, what is below left out. *)
Definition before_cursor (cols : string * string) (c : option (Z * uuid)) : query → query :=
  query_before cols ((λ c : Z * uuid, c.1 / 1000) <$> c) (from_option snd uuid_Nil c).

(** The cursor of the next page: none after a page that is not full. *)
Definition next_cursor {V} (limit : Z) (at_ : V → timestamp) (out : list (uuid * V)) : string :=
  if Z.of_nat (length out) =? limit then
    match last out with Some (i, v) => encodeCursor (at_ v) i | None => "" end
  else "".

(** ** jobs.go *)

Definition jobStatuses : list string :=
  ["scheduled"; "queued"; "claimed"; "running"; "completed"; "retry_wait"; "dead_letter"; "cancelled"].

Definition job_columns : columns Job := λ r c,
  if decide (c = "id") then Some (AId r.1)
  else if decide (c = "project_id") then Some (AId (project_id r.2))
  else if decide (c = "status") then Some (AText (status_text (status r.2)))
  else if decide (c = "type") then Some (AText (jtype r.2))
  else if decide (c = "queue_id") then Some (AId (queue_id r.2))
  else if decide (c = "created_at") then Some (ATime (created_at r.2))
  else None.

Definition job_item (r : uuid * Job) : json :=
  let j := r.2 in
  JObj [("id", JId r.1); ("queue_id", JId (queue_id j)); ("type", jtext (jtype j));
        ("status", jtext (status_text (status j))); ("priority", jnum (priority j));
        ("attempt_count", jnum (attempt_count j)); ("replay_generation", jnum (replay_generation j));
        ("run_at", JTime (run_at j)); ("created_at", JTime (created_at j));
        ("batch_id", from_option JId JNull (batch_id j))].

(** An optional filter on a queue. *)
Definition queue_filter {B} (r : Request B) : go (option uuid) :=
  if decide (rq_query r "queue" = "") then mret None else
  match uuid_Parse (rq_query r "queue") with
  | None => fail_with (badRequest "invalid queue")
  | Some id => mret (Some id)
  end.

Definition page_body {V} (item : uuid * V → json) (limit : Z) (at_ : V → timestamp) (out : list (uuid * V)) : result :=
  ok_body (JObj [("items", JArr (item <$> out)); ("next_cursor", jtext (next_cursor limit at_ out))]).

Definition listJobs {B} : scoped B := λ r sc,
  let status_ := rq_query r "status" in
  let typ := rq_query r "type" in
  if negb (bool_decide (status_ = "")) && negb (bool_decide (status_ ∈ jobStatuses))
  then fail_with (badRequest "invalid status") else
  queueFilter ← queue_filter r;
  cursor ← lift_err (decodeCursor (rq_query r "cursor"));
  let limit := pageLimit r in
  let qb := before_cursor ("created_at", "id") cursor
    (query_eq_opt "queue_id" (AId <$> queueFilter)
    (query_eq_opt "type" (if decide (typ = "") then None else Some (AText typ))
    (query_eq_opt "status" (if decide (status_ = "") then None else Some (AText status_))
    (query_eq "project_id" (AId (sc_projectID sc)) new_query)))) in
  out ← tx_exec (λ _, gets (λ db, run_statement job_columns (query_build ("created_at", "id") limit qb) (jobs db)));
  mret (page_body job_item limit created_at out).

(** ** dlq.go *)

Definition reason_text (d : dead_reason) : string :=
  match d with
  | dr_attempts_exhausted => "attempts_exhausted" | dr_permanent_error => "permanent_error"
  | dr_lost_exhausted => "lost_exhausted" | dr_timeout_exhausted => "timeout_exhausted"
  end.

Definition dlq_columns : columns DeadLetter := λ r c,
  if decide (c = "job_id") then Some (AId r.1)
  else if decide (c = "project_id") then Some (AId (d_project_id r.2))
  else if decide (c = "queue_id") then Some (AId (d_queue_id r.2))
  else if decide (c = "dead_at") then Some (ATime (dead_at r.2))
  else None.

Definition dlq_item (r : uuid * DeadLetter) : json :=
  let d := r.2 in
  JObj [("job_id", JId r.1); ("queue_id", JId (d_queue_id d)); ("reason", jtext (reason_text (reason d)));
        ("last_error_class", from_option jtext JNull (last_error_class d));
        ("last_error_message", from_option jtext JNull (last_error_message d));
        ("dead_at", JTime (dead_at d)); ("replayed_at", from_option JTime JNull (replayed_at d))].

Definition listDLQ {B} : scoped B := λ r sc,
  queueFilter ← queue_filter r;
  cursor ← lift_err (decodeCursor (rq_query r "cursor"));
  let limit := pageLimit r in
  let qb := before_cursor ("dead_at", "job_id") cursor
    (query_eq_opt "queue_id" (AId <$> queueFilter)
    (query_eq "project_id" (AId (sc_projectID sc)) new_query)) in
  out ← tx_exec (λ _, gets (λ db,
    run_statement dlq_columns (query_build ("dead_at", "job_id") limit qb) (dead_letters db)));
  mret (page_body dlq_item limit dead_at out).

(** ** events.go *)

Definition afterID {B} (r : Request B) : go Z :=
  let v := rq_query r "after" in
  if decide (v = "") then mret 0 else
  match ParseInt v with
  | None => fail_with (badRequest "invalid after")
  | Some n => if n <? 0 then fail_with (badRequest "invalid after") else mret n
  end.

Definition event_le (a b : Event) : Prop := e_id a ≤ e_id b.
#[export] Instance event_le_dec : RelDecision event_le := λ a b, decide (e_id a ≤ e_id b).

Definition listEventsSQL (project : uuid) (after limit : Z) (env : Env) : sql (list Event) :=
  gets (λ db, take (Z.to_nat limit) (merge_sort event_le
    (filter (λ e, e_project_id e = project ∧ after < e_id e) (events db)))).

Definition event_item (e : Event) : json :=
  JObj [("id", jnum (e_id e)); ("topic", jtext (topic e)); ("entity_id", JId (entity_id e));
        ("payload", JObj ((λ p : string * jval, (p.1, JVal p.2)) <$> e_payload e));
        ("created_at", JTime (e_created_at e))].

(** [after+1] wraps around at the largest [int64]. *)
Definition succ_int64 (n : Z) : Z := if n =? 2 ^ 63 - 1 then - 2 ^ 63 else n + 1.

Definition listEvents {B} : scoped B := λ r sc,
  after ← afterID r;
  low ← tx_exec (λ _, gets low_water_id);
  if succ_int64 after <? low
  then fail_with (tooOld ("events before " +:+ pretty low +:+ " have been dropped")) else
  let limit := pageLimit r in
  out ← tx_exec (listEventsSQL (sc_projectID sc) after limit);
  let next := from_option e_id after (last out) in
  mret (ok_body (JObj [("items", JArr (event_item <$> out)); ("next", jnum next)])).

(** ** workers.go *)

Definition listWorkersSQL (project : uuid) (env : Env) : sql (list (uuid * Worker * Z)) :=
  gets (λ db, (λ w : uuid * Worker, (w, mcount (λ l, bool_decide (l_worker_id l = w.1)) (leases db))) <$>
    merge_sort (by_key (λ w : uuid * Worker, - last_seen_at w.2))
      (select (λ _ w, bool_decide (w_project_id w = project)) (workers db))).

Definition worker_item (t : uuid * Worker * Z) : json :=
  let '(i, w, n) := t in
  JObj [("id", JId i); ("hostname", jtext (hostname w)); ("pid", jnum (pid w)); ("state", jtext (w_state w));
        ("max_concurrency", jnum (w_max_concurrency w)); ("leases", jnum n);
        ("started_at", JTime (w_started_at w)); ("last_seen_at", JTime (last_seen_at w))].

Definition listWorkers {B} : scoped B := λ r sc,
  rows ← tx_exec (listWorkersSQL (sc_projectID sc));
  mret (mkResult 200 (Some (JObj [("items", JArr (worker_item <$> rows))])) uuid_Nil uuid_Nil None).

(** ** queues.go, policies.go and schedules.go *)

Context (collation : string → Z).

Definition by_name {V} (name : V → string) (l : list (uuid * V)) : list (uuid * V) :=
  merge_sort (by_key (λ r : uuid * V, collation (name r.2))) l.

Definition listQueuesSQL (project : uuid) (env : Env) : sql (list (uuid * Queue * Z)) :=
  gets (λ db, (λ r : uuid * Queue, (r, in_flight_of r.1 db)) <$>
    by_name q_name (select (λ _ q, bool_decide (q_project_id q = project)) (queues db))).

Definition listQueues {B} : scoped B := λ r sc,
  rows ← tx_exec (listQueuesSQL (sc_projectID sc));
  mret (ok_body (JObj [("items", JArr ((λ t : uuid * Queue * Z, queue_json t.1.1 t.1.2 t.2) <$> rows))])).

Definition listPoliciesSQL (project : uuid) (env : Env) : sql (list (uuid * Policy)) :=
  gets (λ db, by_name p_name (select (λ _ p, bool_decide (p_project_id p = project)) (policies db))).

Definition listPolicies {B} : scoped B := λ r sc,
  rows ← tx_exec (listPoliciesSQL (sc_projectID sc));
  mret (ok_body (JObj [("items", JArr ((λ p : uuid * Policy, policy_json p.1 p.2) <$> rows))])).

Definition getPolicySQL (i : uuid) (env : Env) : sql (option Policy) := gets (λ db, policies db !! i).

Definition getPolicy {B} : scoped B := λ r sc,
  p ← tx_exec (getPolicySQL (sc_entityID sc));
  match p with
  | None => fail_with (notFound "retry_policy")
  | Some p => mret (ok_body (policy_json (sc_entityID sc) p))
  end.

Definition listSchedulesSQL (q : uuid) (env : Env) : sql (list (uuid * Schedule)) :=
  gets (λ db, by_name sc_name (select (λ _ s, bool_decide (sc_queue_id s = q)) (schedules db))).

Definition listSchedules {B} : scoped B := λ r sc,
  rows ← tx_exec (listSchedulesSQL (sc_entityID sc));
  mret (ok_body (JObj [("items", JArr ((λ s : uuid * Schedule, schedule_json s.1 s.2) <$> rows))])).

Definition getSchedule {B} : scoped B := λ r sc,
  s ← tx_exec (getScheduleSQL (sc_entityID sc));
  match s with
  | None => fail_with (notFound "schedule")
  | Some s => mret (ok_body (schedule_json (sc_entityID sc) s))
  end.

End views.
