(* ===== verification/Stats.v ===== *)
(** * internal/api: statistics and health (stats.go, health.go)

    An age in seconds is exact; a column cast to [int] raises 22003 when it does
    not fit.  The members of a JSON object come in the order the code has them, the
    counts by status in the order of the enum. *)

From S2P Require Import Prelude Text Schema Fl Pool Api ApiJobs ApiAdmin Views.

#[local] Open Scope string_scope.
#[local] Open Scope list_scope.
#[local] Open Scope Z_scope.

(** [::int] *)
Definition to_int4 (z : Z) : sql Z := if in_int4 z then mret z else raise numeric_out_of_range.

(** [extract(epoch from i)::int], of an interval that is not negative, in
    microseconds: to the nearest, a half up. *)
Definition epoch_int (i : Z) : sql Z := to_int4 ((i + 500000) / 1000000).

Definition min_of (l : list Z) : option Z :=
  match l with [] => None | x :: l' => Some (foldr Z.min x l') end.

Definition max_of (l : list Z) : option Z :=
  match l with [] => None | x :: l' => Some (foldr Z.max x l') end.

Definition sum_by {A} (f : A → Z) (l : list A) : Z := foldr (λ x n, f x + n) 0 l.

(** [order by] an integer key. *)
Definition asc {A} (k : A → Z) (a b : A) : Prop := k a ≤ k b.
#[export] Instance asc_dec {A} (k : A → Z) : RelDecision (asc k) := λ a b, decide (k a ≤ k b).

(** ** Depth *)

(** [staleWorker], as an interval. *)
Definition staleWorker : Z := 30 * 1000000.

(** [queue_id = $1 and status = 'queued' and run_at <= fl.now()] *)
Definition is_ready (env : Env) (q : uuid) (j : Job) : bool :=
  bool_decide (queue_id j = q) && bool_decide (status j = js_queued) && (run_at j <=? now env).

Record tier := mkTier { ti_Priority : Z; ti_OldestSeconds : Z; ti_Ready : Z }.

(** [group by priority order by priority desc] *)
Definition tier_row (env : Env) (rows : list Job) (p : Z) : sql tier :=
  let g := filter (λ j, priority j = p) rows in
  age ← epoch_int (now env - default 0 (min_of (run_at <$> g)));
  n ← to_int4 (Z.of_nat (length g));
  mret (mkTier p age n).

Definition tiers_of (env : Env) (rows : list Job) : sql (list tier) :=
  traverse (merge_sort (asc Z.opp) (remove_dups (priority <$> rows))) (tier_row env rows).

Definition oldestByTierSQL (q : uuid) (env : Env) : sql (list tier) :=
  rows ← gets (λ db, (select (λ _, is_ready env q) (jobs db)).*2);
  tiers_of env rows.

(** The age of the oldest job that is ready, in microseconds. *)
Definition oldestReadySQL (q : uuid) (env : Env) : sql (option Z) :=
  gets (λ db, (λ t, now env - t) <$> min_of (run_at <$> (select (λ _, is_ready env q) (jobs db)).*2)).

Definition all_statuses : list job_status :=
  [js_scheduled; js_queued; js_claimed; js_running; js_completed; js_retry_wait; js_dead_letter; js_cancelled].

(** [select status, count( * ) ... group by status]: a status without a job has no
    row. *)
Definition statusCountsSQL (q : uuid) (env : Env) : sql (list (string * Z)) :=
  gets (λ db, filter (λ r : string * Z, r.2 ≠ 0)
    ((λ s, (status_text s, mcount (λ j, bool_decide (queue_id j = q) && bool_decide (status j = s)) (jobs db)))
      <$> all_statuses)).

(** ** Workers, breaker and rate limit *)

Definition live_worker (env : Env) (db : DB) (q : uuid) (p : uuid * uuid) : Prop :=
  p.2 = q ∧ match workers db !! p.1 with
            | Some w => w_state w = "active" ∧ now env - staleWorker < last_seen_at w
            | None => False
            end.

#[export] Instance live_worker_dec env db q p : Decision (live_worker env db q p).
Proof. unfold live_worker. destruct (workers db !! p.1); apply _. Defined.

Definition queueWorkersSQL (q : uuid) (env : Env) : sql Z :=
  n ← gets (λ db, Z.of_nat (size (filter (live_worker env db q) (worker_queues db))));
  to_int4 n.

(** [rl_limit_per_sec > 0 and coalesce(max(rl_tokens), 0) < 1] *)
Definition throttled (db : DB) (i : uuid) (q : Queue) : bool :=
  negb (Qle_bool (rl_limit_per_sec q) 0) &&
  forallb (λ s : Z * Shard, negb (Qle_bool 1 (rl_tokens s.2))) (shards_of i db).

Definition breakerUntilSQL (i : uuid) (env : Env) : sql (option (option timestamp * bool)) :=
  gets (λ db, q ← queues db !! i; Some (breaker_open_until q, throttled db i q)).

(** ** The last hour *)

(** [minute >= fl.now() - interval '60 minutes'] *)
Definition hour_of (env : Env) (q : uuid) (db : DB) : list Stat :=
  (filter (λ r : (uuid * Z) * Stat, r.1.1 = q ∧ now env - 3600000000 ≤ r.1.2) (map_to_list (stats db))).*2.

Record lastHour := mkLastHour { lh_Completed : Z; lh_Failed : Z; lh_DeadLettered : Z }.

Definition throughputSQL (q : uuid) (env : Env) : sql lastHour :=
  gets (λ db, let l := hour_of env q db in
    mkLastHour (sum_by s_completed l) (sum_by s_failed l) (sum_by s_dead_lettered l)).

(** [order by minute desc limit 1] *)
Definition latencySQL (q : uuid) (env : Env) : sql (option (option Z * option Z)) :=
  gets (λ db, (λ r : (uuid * Z) * Stat, (duration_ms_p50 r.2, duration_ms_p95 r.2)) <$>
    head (merge_sort (asc (λ r : (uuid * Z) * Stat, - r.1.2))
      (filter (λ r : (uuid * Z) * Stat, r.1.1 = q ∧ duration_ms_p50 r.2 ≠ None) (map_to_list (stats db))))).

(** ** stats.go: queueSeries *)

Definition seriesSQL (q : uuid) (mins : Z) (env : Env) : sql (list (Z * Stat)) :=
  gets (λ db, (λ r : (uuid * Z) * Stat, (r.1.2, r.2)) <$>
    merge_sort (asc (λ r : (uuid * Z) * Stat, r.1.2))
      (filter (λ r : (uuid * Z) * Stat, r.1.1 = q ∧ minute env - mins * 60000000 ≤ r.1.2) (map_to_list (stats db)))).

Definition jopt (o : option Z) : json := from_option jnum JNull o.

Definition minute_json (r : Z * Stat) : json :=
  JObj [("minute", JTime r.1); ("completed", jnum (s_completed r.2)); ("failed", jnum (s_failed r.2));
        ("dead_lettered", jnum (s_dead_lettered r.2)); ("duration_ms_p50", jopt (duration_ms_p50 r.2));
        ("duration_ms_p95", jopt (duration_ms_p95 r.2))].

Definition series_minutes {B} (r : Request B) : go Z :=
  let v := rq_query r "minutes" in
  if decide (v = "") then mret 60 else
  match Atoi v with
  | Some n => if (n <=? 0) || (1440 <? n) then fail_with (badRequest "invalid minutes") else mret n
  | None => fail_with (badRequest "invalid minutes")
  end.

Definition queueSeries {B} : scoped B := λ r sc,
  minutes ← series_minutes r;
  out ← tx_exec (seriesSQL (sc_entityID sc) minutes);
  mret (ok_body (JObj [("items", JArr (minute_json <$> out))])).

(** ** stats.go: queueStats *)

Record queueStatsView := mkQueueStatsView {
  sv_queue : Queue;
  sv_in_flight : Z;
  sv_counts : list (string * Z);
  sv_oldest : option Z;
  sv_tiers : list tier;
  sv_workers : Z;
  sv_breakerUntil : option timestamp;
  sv_throttled : bool;
  sv_saturated : bool;
  sv_lastHour : lastHour;
  sv_p50 : option Z;
  sv_p95 : option Z;
}.

Definition load_stats (i : uuid) : go queueStatsView :=
  row ← tx_exec (getQueueSQL i);
  q ← scan_row row;
  counts ← tx_exec (statusCountsSQL i);
  oldest ← tx_exec (oldestReadySQL i);
  tiers ← tx_exec (oldestByTierSQL i);
  n ← tx_exec (queueWorkersSQL i);
  row ← tx_exec (breakerUntilSQL i);
  br ← scan_row row;
  hour ← tx_exec (throughputSQL i);
  lat ← tx_exec (latencySQL i);
  mret (mkQueueStatsView q.1 q.2 counts oldest tiers n br.1 br.2 (max_concurrency q.1 <=? q.2) hour
    (p ← lat; p.1) (p ← lat; p.2)).

Definition tier_json (t : tier) : json :=
  JObj [("priority", jnum (ti_Priority t)); ("oldest_ready_seconds", jnum (ti_OldestSeconds t));
        ("ready", jnum (ti_Ready t))].

Definition hour_json (h : lastHour) : json :=
  JObj [("completed", jnum (lh_Completed h)); ("failed", jnum (lh_Failed h));
        ("dead_lettered", jnum (lh_DeadLettered h))].

(** A number of microseconds as a number of seconds. *)
Definition in_seconds (us : Z) : json := JVal (jreal (inject_Z us / 1000000)).

Definition stats_json (i : uuid) (v : queueStatsView) : json :=
  JObj [("queue", queue_json i (sv_queue v) (sv_in_flight v));
        ("status_counts", JObj ((λ r : string * Z, (r.1, jnum r.2)) <$> sv_counts v));
        ("oldest_ready_seconds", from_option in_seconds JNull (sv_oldest v));
        ("tiers", JArr (tier_json <$> sv_tiers v)); ("live_workers", jnum (sv_workers v));
        ("breaker_open_until", from_option JTime JNull (sv_breakerUntil v));
        ("rate_limited", JVal (jbool (sv_throttled v))); ("saturated", JVal (jbool (sv_saturated v)));
        ("last_hour", hour_json (sv_lastHour v)); ("duration_ms_p50", jopt (sv_p50 v));
        ("duration_ms_p95", jopt (sv_p95 v))].

Definition queueStats {B} : scoped B := λ r sc,
  v ← load_stats (sc_entityID sc);
  mret (ok_body (stats_json (sc_entityID sc) v)).

(** ** health.go *)

Record queueBrief := mkQueueBrief {
  qb_ID : uuid;
  qb_Name : string;
  qb_Paused : bool;
  qb_MaxConcurrency : Z;
  qb_Shards : Z;
  qb_InFlight : Z;
  qb_BreakerState : string;
  qb_RateLimit : Q;
}.

Record queueHealth := mkQueueHealth {
  h_Queue : queueBrief;
  h_Tiers : list tier;
  h_LiveWorkers : Z;
  h_BreakerUntil : option timestamp;
  h_RateLimited : bool;
  h_Saturated : bool;
  h_LastHour : lastHour;
  h_P95 : option Z;
}.

#[export] Instance eta_queueHealth : Eta queueHealth := λ h,
  mkQueueHealth (h_Queue h) (h_Tiers h) (h_LiveWorkers h) (h_BreakerUntil h) (h_RateLimited h)
    (h_Saturated h) (h_LastHour h) (h_P95 h).

Section health.
Context (collation : string → Z).

(** A row of [projectQueuesSQL], as the loop scans it. *)
Definition health_row (env : Env) (db : DB) (r : uuid * Queue) : sql queueHealth :=
  let '(i, q) := r in
  n ← to_int4 (Z.of_nat (size (filter (live_worker env db i) (worker_queues db))));
  let used := in_flight_of i db in
  mret (mkQueueHealth
    (mkQueueBrief i (q_name q) (paused q) (max_concurrency q) (shards q) used
       (breaker_text (q_breaker_state q)) (rl_limit_per_sec q))
    [] n (breaker_open_until q) (throttled db i q) (max_concurrency q <=? used) (mkLastHour 0 0 0) None).

Definition projectQueuesSQL (project : uuid) (env : Env) : sql (list queueHealth) := λ db,
  traverse (by_name collation q_name (select (λ _ q, bool_decide (q_project_id q = project)) (queues db)))
    (health_row env db) db.

(** [order by queue_id, priority desc] *)
Definition projectTiersSQL (ids : list uuid) (env : Env) : sql (list (uuid * tier)) := λ db,
  let rows := (select (λ _ j, bool_decide (queue_id j ∈ ids) && bool_decide (status j = js_queued) &&
                              (run_at j <=? now env)) (jobs db)).*2 in
  (out ← traverse (merge_sort (asc Z.of_N) (remove_dups (queue_id <$> rows))) (λ q,
     ts ← tiers_of env (filter (λ j, queue_id j = q) rows); mret ((λ t, (q, t)) <$> ts));
   mret (concat out)) db.

Definition hour_row (env : Env) (db : DB) (q : uuid) : sql (uuid * lastHour * option Z) :=
  let l := hour_of env q db in
  c ← to_int4 (sum_by s_completed l);
  f ← to_int4 (sum_by s_failed l);
  d ← to_int4 (sum_by s_dead_lettered l);
  mret (q, mkLastHour c f d, max_of (omap duration_ms_p95 l)).

(** A queue without a row in the last hour has none here. *)
Definition projectThroughputSQL (ids : list uuid) (env : Env) : sql (list (uuid * lastHour * option Z)) := λ db,
  let qs := filter (λ q, q ∈ ids ∧ hour_of env q db ≠ [])
              (remove_dups ((λ r : (uuid * Z) * Stat, r.1.1) <$> map_to_list (stats db))) in
  traverse qs (hour_row env db) db.

(** [at[id]], 0 when the map has no entry. *)
Definition at_index (out : list queueHealth) (i : uuid) : nat :=
  from_option fst O (list_find (λ h, qb_ID (h_Queue h) = i) out).

Definition put_tier (r : uuid * tier) (h : queueHealth) : queueHealth :=
  h <| h_Tiers := h_Tiers h ++ [r.2] |>.

Definition put_hour (r : uuid * lastHour * option Z) (h : queueHealth) : queueHealth :=
  h <| h_LastHour := r.1.2 |> <| h_P95 := r.2 |>.

(** [out[at[id]].Tiers = append(...)] and the assignments of the third loop. *)
Definition add_tier (out : list queueHealth) (r : uuid * tier) : list queueHealth :=
  alter (put_tier r) (at_index out r.1) out.

Definition add_hour (out : list queueHealth) (r : uuid * lastHour * option Z) : list queueHealth :=
  alter (put_hour r) (at_index out r.1.1) out.

Definition load_health (project : uuid) : go (list queueHealth) :=
  out ← tx_exec (projectQueuesSQL project);
  match out with
  | [] => mret []
  | _ =>
    let ids := (λ h, qb_ID (h_Queue h)) <$> out in
    tiers ← tx_exec (projectTiersSQL ids);
    let out := foldl add_tier out tiers in
    hours ← tx_exec (projectThroughputSQL ids);
    mret (foldl add_hour out hours)
  end.

Definition health_json (h : queueHealth) : json :=
  let b := h_Queue h in
  JObj [("queue", JObj [("id", JId (qb_ID b)); ("name", jtext (qb_Name b)); ("paused", JVal (jbool (qb_Paused b)));
           ("max_concurrency", jnum (qb_MaxConcurrency b)); ("shards", jnum (qb_Shards b));
           ("in_flight", jnum (qb_InFlight b)); ("breaker_state", jtext (qb_BreakerState b));
           ("rl_limit_per_sec", JVal (jreal (qb_RateLimit b)))]);
        ("tiers", JArr (tier_json <$> h_Tiers h)); ("live_workers", jnum (h_LiveWorkers h));
        ("breaker_open_until", from_option JTime JNull (h_BreakerUntil h));
        ("rate_limited", JVal (jbool (h_RateLimited h))); ("saturated", JVal (jbool (h_Saturated h)));
        ("last_hour", hour_json (h_LastHour h)); ("duration_ms_p95", jopt (h_P95 h))].

Definition projectHealth {B} : scoped B := λ r sc,
  out ← load_health (sc_projectID sc);
  mret (ok_body (JObj [("items", JArr (health_json <$> out))])).

End health.
