(* ===== verification/Detail.v ===== *)
(** * internal/api/jobs.go: one job in full, and internal/jobs/failures.go

    The column [meta] of [job_logs] is never written. *)

From S2P Require Import Prelude Schema Fl Pool Api ApiJobs Views Stats.

#[local] Open Scope string_scope.
#[local] Open Scope list_scope.
#[local] Open Scope Z_scope.

(** ** getJob *)

Record logView := mkLogView { lv_ID : Z; lv_ExecutionID : uuid; lv_Ts : timestamp; lv_Level : string; lv_Message : string }.

Record execView := mkExecView {
  ev_ID : uuid;
  ev_Exec : Exec;
  ev_Logs : list logView;
}.

#[export] Instance eta_execView : Eta execView := λ e, mkExecView (ev_ID e) (ev_Exec e) (ev_Logs e).

(** [order by replay_generation, attempt] *)
Definition exec_le (a b : uuid * Exec) : Prop :=
  x_replay_generation a.2 < x_replay_generation b.2 ∨
  (x_replay_generation a.2 = x_replay_generation b.2 ∧ attempt a.2 ≤ attempt b.2).
#[export] Instance exec_le_dec : RelDecision exec_le.
Proof. intros a b. unfold exec_le. apply _. Defined.

Definition jobExecsSQL (job : uuid) (env : Env) : sql (list execView) :=
  gets (λ db, (λ r : uuid * Exec, mkExecView r.1 r.2 []) <$>
    merge_sort exec_le (select (λ _ x, bool_decide (x_job_id x = job)) (execs db))).

(** [order by ts, id] *)
Definition log_le (a b : Log) : Prop := lg_ts a < lg_ts b ∨ (lg_ts a = lg_ts b ∧ lg_id a ≤ lg_id b).
#[export] Instance log_le_dec : RelDecision log_le.
Proof. intros a b. unfold log_le. apply _. Defined.

Definition log_view (l : Log) : logView :=
  mkLogView (lg_id l) (lg_execution_id l) (lg_ts l) (lg_level l) (lg_message l).

Definition jobLogsSQL (ids : list uuid) (env : Env) : sql (list logView) :=
  gets (λ db, log_view <$> merge_sort log_le (filter (λ l, lg_execution_id l ∈ ids) (logs db))).

(** [if idx, ok := byID[l.ExecutionID]; ok { execs[idx].Logs = append(...) }] *)
Definition add_log (out : list execView) (l : logView) : list execView :=
  match list_find (λ e, ev_ID e = lv_ExecutionID l) out with
  | Some (k, _) => alter (λ e, e <| ev_Logs := ev_Logs e ++ [l] |>) k out
  | None => out
  end.

Definition loadExecutions (job : uuid) : go (list execView) :=
  out ← tx_exec (jobExecsSQL job);
  match out with
  | [] => mret []
  | _ =>
    lrows ← tx_exec (jobLogsSQL (ev_ID <$> out));
    mret (foldl add_log out lrows)
  end.

Definition jobParentsSQL (job : uuid) (env : Env) : sql (list (uuid * Job)) :=
  gets (λ db, merge_sort by_id (select (λ i _, bool_decide ((i, job) ∈ deps db)) (jobs db))).

Definition jobChildrenSQL (job : uuid) (env : Env) : sql (list (uuid * Job)) :=
  gets (λ db, merge_sort by_id (select (λ i _, bool_decide ((job, i) ∈ deps db)) (jobs db))).

Definition leaseSQL (job : uuid) (env : Env) : sql (option Lease) := gets (λ db, leases db !! job).
Definition getJobSQL (job : uuid) (env : Env) : sql (option Job) := gets (λ db, jobs db !! job).

Definition log_json (l : logView) : json :=
  JObj [("id", jnum (lv_ID l)); ("execution_id", JId (lv_ExecutionID l)); ("ts", JTime (lv_Ts l));
        ("level", jtext (lv_Level l)); ("message", jtext (lv_Message l)); ("meta", JNull)].

Definition exec_json (e : execView) : json :=
  let x := ev_Exec e in
  JObj [("id", JId (ev_ID e)); ("attempt", jnum (attempt x)); ("replay_generation", jnum (x_replay_generation x));
        ("fence", jnum (x_fence x)); ("worker_id", JId (x_worker_id x));
        ("outcome", from_option (λ o, jtext (outcome_text o)) JNull (outcome x));
        ("error_class", from_option jtext JNull (error_class x));
        ("error_message", from_option jtext JNull (error_message x));
        ("started_at", JTime (x_started_at x)); ("finished_at", from_option JTime JNull (x_finished_at x));
        ("duration_ms", jopt (duration_ms x)); ("logs", JArr (log_json <$> ev_Logs e))].

Definition kin_json (r : uuid * Job) : json :=
  JObj [("id", JId r.1); ("type", jtext (jtype r.2)); ("status", jtext (status_text (status r.2)))].

Definition job_json (i : uuid) (j : Job) : json :=
  JObj [("id", JId i); ("project_id", JId (project_id j)); ("queue_id", JId (queue_id j));
        ("schedule_id", from_option JId JNull (schedule_id j));
        ("scheduled_for", from_option JTime JNull (scheduled_for j));
        ("batch_id", from_option JId JNull (batch_id j)); ("type", jtext (jtype j)); ("payload", JRaw (payload j));
        ("status", jtext (status_text (status j))); ("priority", jnum (priority j)); ("run_at", JTime (run_at j));
        ("fence", jnum (fence j)); ("attempt_count", jnum (attempt_count j));
        ("replay_generation", jnum (replay_generation j)); ("snooze_count", jnum (snooze_count j));
        ("worker_id", from_option JId JNull (worker_id j)); ("deadline_at", from_option JTime JNull (deadline_at j));
        ("timeout_ms", jnum (timeout_ms j)); ("retry_policy_id", JId (retry_policy_id j));
        ("pending_deps", jnum (pending_deps j)); ("created_at", JTime (created_at j));
        ("claimed_at", from_option JTime JNull (claimed_at j)); ("started_at", from_option JTime JNull (started_at j));
        ("finished_at", from_option JTime JNull (finished_at j))].

Definition getJob {B} : scoped B := λ r sc,
  row ← tx_exec (getJobSQL (sc_entityID sc));
  match row with
  | None => fail_with (notFound "job")
  | Some j =>
    let i := sc_entityID sc in
    out ← loadExecutions i;
    parents ← tx_exec (jobParentsSQL i);
    children ← tx_exec (jobChildrenSQL i);
    lease ← tx_exec (leaseSQL i);
    mret (ok_body (JObj ([("job", job_json i j); ("executions", JArr (exec_json <$> out));
                          ("parents", JArr (kin_json <$> parents)); ("children", JArr (kin_json <$> children))] ++
      match lease with
      | Some l => [("lease", JObj [("progress", from_option JRaw JNull (progress l));
                                   ("expires_at", JTime (expires_at l))])]
      | None => []
      end)))
  end.

(** ** failures.go *)

Definition FailureWindow : Z := 24.

Record Failure := mkFailure {
  f_Class : string;
  f_Count : Z;
  f_Variants : Z;
  f_Sample : string;
  f_First : timestamp;
  f_Last : timestamp;
}.

(** The executions of the last [hours] hours that ended in an error. *)
Definition failed_lately (env : Env) (q : uuid) (hours : Z) (x : Exec) : bool :=
  bool_decide (x_queue_id x = q) &&
  match outcome x with
  | Some (xo_retryable_error | xo_permanent_error | xo_timeout | xo_lost) => true
  | _ => false
  end &&
  from_option (λ t, now env - hours * 3600000000 <=? t) false (x_finished_at x).

Definition class_of (x : Exec) : string := default "unknown" (error_class x).

(** One group: the sample is the message of the latest. *)
Definition failure_row (rows : list (uuid * Exec)) (c : string) : sql Failure :=
  let g := filter (λ r : uuid * Exec, class_of r.2 = c) rows in
  let ends := omap (λ r : uuid * Exec, x_finished_at r.2) g in
  n ← to_int4 (Z.of_nat (length g));
  v ← to_int4 (Z.of_nat (length (remove_dups (omap (λ r : uuid * Exec, error_message r.2) g))));
  let latest := head (merge_sort (by_key (λ r : uuid * Exec, - default 0 (x_finished_at r.2))) g) in
  mret (mkFailure c n v (default "" (r ← latest; error_message r.2))
    (default 0 (min_of ends)) (default 0 (max_of ends))).

(** [order by 2 desc, 1]; a text is ordered by the rank the collation gives it. *)
Definition failure_le (collation : string → Z) (a b : Failure) : Prop :=
  f_Count b < f_Count a ∨ (f_Count a = f_Count b ∧ collation (f_Class a) ≤ collation (f_Class b)).
#[export] Instance failure_le_dec collation : RelDecision (failure_le collation).
Proof. intros a b. unfold failure_le. apply _. Defined.

Definition failuresSQL (collation : string → Z) (q : uuid) (hours limit : Z) (env : Env) : sql (list Failure) :=
  rows ← gets (λ db, select (λ _, failed_lately env q hours) (execs db));
  out ← traverse (remove_dups ((λ r : uuid * Exec, class_of r.2) <$> rows)) (failure_row rows);
  mret (take (Z.to_nat limit) (merge_sort (failure_le collation) out)).

(** [q] is a pool or a transaction. *)
Definition Failures (exec : ∀ A, (Env → sql A) → go A) (collation : string → Z) (q : uuid) (hours limit : Z) :
    go (list Failure) :=
  exec _ (failuresSQL collation q hours limit).
