(* ===== verification/Ai.v ===== *)
(** * internal/ai: the summary of a failure ledger

    The client of the language model is not part of the repository: [ask] is what
    it answers to the text of the message, and [Format] the time layout RFC 3339
    in the zone of the process. *)

From S2P Require Import Prelude Text Schema Fl Pool Api Detail.
From stdpp Require Import list pretty.

#[local] Open Scope string_scope.
#[local] Open Scope list_scope.
#[local] Open Scope Z_scope.

Definition Model := "claude-opus-5".

Definition errNoKey : err := ErrOther "anthropic api key not set".

(** ** Runes *)

(** [0x80 <= b <= 0xBF] *)
Definition continues (c : Ascii.ascii) : bool := (128 <=? byte_of c) && (byte_of c <=? 191).

(** The bytes after a leading byte, and the range of the first of them, as
    [unicode/utf8] has them. *)
Definition utf8_tail (c : Ascii.ascii) : option (nat * Z * Z) :=
  let b := byte_of c in
  if b <? 128 then Some (0%nat, 0, 255)
  else if (194 <=? b) && (b <=? 223) then Some (1%nat, 128, 191)
  else if b =? 224 then Some (2%nat, 160, 191)
  else if b =? 237 then Some (2%nat, 128, 159)
  else if (225 <=? b) && (b <=? 239) then Some (2%nat, 128, 191)
  else if b =? 240 then Some (3%nat, 144, 191)
  else if (241 <=? b) && (b <=? 243) then Some (3%nat, 128, 191)
  else if b =? 244 then Some (3%nat, 128, 143)
  else None.

(** [n] continuation bytes at the head of a text. *)
Fixpoint take_tail (n : nat) (s : string) : option string :=
  match n, s with
  | O, _ => Some ""
  | S n', String c s' => if continues c then String c <$> take_tail n' s' else None
  | S _, "" => None
  end.

Definition replacement : string := String (of_byte 239) (String (of_byte 191) (String (of_byte 189) "")).

(** The rune at the head of a text: its bytes once encoded again, and how many of
    the text it takes.  A byte that starts no rune is U+FFFD. *)
Definition head_rune (c : Ascii.ascii) (s : string) : string * nat :=
  match utf8_tail c with
  | Some (O, _, _) => (String c "", 1%nat)
  | Some (n, lo, hi) =>
    match s, take_tail n s with
    | String d _, Some t =>
      if (lo <=? byte_of d) && (byte_of d <=? hi) then (String c t, S n) else (replacement, 1%nat)
    | _, _ => (replacement, 1%nat)
    end
  | None => (replacement, 1%nat)
  end.

(** [[]rune(s)], each as the bytes it is encoded by: [skip] bytes still belong to
    the rune before. *)
Fixpoint runes_from (skip : nat) (s : string) : list string :=
  match s with
  | "" => []
  | String c s' =>
    match skip with
    | S k => runes_from k s'
    | O => let '(r, n) := head_rune c s' in r :: runes_from (pred n) s'
    end
  end.

Definition runes (s : string) : list string := runes_from 0 s.

Fixpoint concat_strings (l : list string) : string :=
  match l with [] => "" | s :: l => s +:+ concat_strings l end.

Definition clip (s : string) (n : nat) : string :=
  let s := TrimSpace s in
  let r := runes s in
  if (length r <=? n)%nat then s else concat_strings (take n r) +:+ "...".

(** ** The message and the answer *)

Section ai.
Context (Format : timestamp → string).

Definition nl : string := String (of_byte 10) "".

Definition ledger_entry (f : Failure) : string :=
  clip (f_Class f) 200 +:+ nl +:+ "  " +:+ pretty (f_Count f) +:+ " failures across " +:+ pretty (f_Variants f) +:+
  " distinct messages, " +:+ Format (f_First f) +:+ " to " +:+ Format (f_Last f) +:+ nl +:+
  "  latest: " +:+ clip (f_Sample f) 500 +:+ nl +:+ nl.

Definition ledger (queue : string) (fails : list Failure) : string :=
  "queue: " +:+ clip queue 200 +:+ nl +:+ nl +:+ concat_strings (ledger_entry <$> fails).

(** The answer of the model: whether it declined, and its blocks, [None] for one
    that is not text. *)
Record Reply := mkReply { rp_refusal : option string; rp_content : list (option string) }.

Definition Summarize (ready : bool) (ask : string → err + Reply) (queue : string) (fails : list Failure) :
    err + string :=
  if negb ready then inl errNoKey else
  match ask (ledger queue fails) with
  | inl e => inl e
  | inr res =>
    match rp_refusal res with
    | Some category => inl (ErrOther ("model declined: " +:+ category))
    | None =>
      let out := TrimSpace (concat_strings (omap id (rp_content res))) in
      if decide (out = "") then inl (ErrOther "model returned no text") else inr out
    end
  end.

End ai.
