(* ===== verification/Summaries.v ===== *)
(** * The failure summaries: internal/scheduler/summary.go, internal/api/summary.go

    [md5] is the function of Postgres. *)

From S2P Require Import Prelude Text Schema Fl Pool Api Detail Ai.
From stdpp Require Import list pretty.

#[local] Open Scope string_scope.
#[local] Open Scope list_scope.
#[local] Open Scope Z_scope.

Section summaries.
Context (collation : string → Z) (md5 : string → string) (Format : timestamp → string).

(** ** fl.failure_digest (029_summaries.sql) *)

Definition by_collation (a b : string) : Prop := collation a ≤ collation b.
#[export] Instance by_collation_dec : RelDecision by_collation := λ a b, decide (collation a ≤ collation b).

Definition failed_rows (env : Env) (q : uuid) (h : Z) (db : DB) : list (uuid * Exec) :=
  select (λ _, failed_lately env q h) (execs db).

Fixpoint join (sep : string) (l : list string) : string :=
  match l with [] => "" | [s] => s | s :: l => s +:+ sep +:+ join sep l end.

(** The number of failures of each class, as [string_agg] puts them together. *)
Definition digest_of (classes : list string) : string :=
  let groups := merge_sort by_collation (remove_dups classes) in
  if decide (groups = []) then ""
  else md5 (join "," ((λ c, c +:+ ":" +:+ pretty (Z.of_nat (length (filter (λ k, k = c) classes)))) <$> groups)).

Definition failure_digest (env : Env) (q : uuid) (h : Z) (db : DB) : string :=
  digest_of ((λ r : uuid * Exec, class_of r.2) <$> failed_rows env q h db).

(** ** scheduler/summary.go *)

Definition summaryGroups : Z := 20.

Record stale := mkStale { st_id : uuid; st_name : string; st_digest : string }.

(** The digest of the summary of a queue, the empty text if there is none. *)
Definition saved_digest (q : uuid) (db : DB) : string := from_option su_digest "" (summaries db !! q).

Definition is_stale (env : Env) (h : Z) (db : DB) (q : uuid) : bool :=
  bool_decide (failed_rows env q h db ≠ []) &&
  bool_decide (saved_digest q db ≠ failure_digest env q h db).

Definition staleSummariesSQL (h limit : Z) (env : Env) : sql (list stale) :=
  gets (λ db, take (Z.to_nat limit)
    ((λ kv : uuid * Queue, mkStale kv.1 (q_name kv.2) (failure_digest env kv.1 h db)) <$>
      merge_sort by_id (select (λ q _, is_stale env h db q) (queues db)))).

(** [queue_id] refers to [queues]. *)
Definition saveSummarySQL (q : uuid) (digest summary model : string) (env : Env) : sql unit := λ db,
  if decide (is_Some (queues db !! q))
  then inr (tt, db <| summaries := <[q := mkSummary digest summary model (now env)]> (summaries db) |>)
  else inl foreign_key_violation.

(** The loop: how many were written, and the error that is returned with it.
    [ask k] is what the model answers the [k]-th time. *)
Fixpoint summarize_all (ask : nat → string → err + Reply) (k : nat) (written : Z) (last : option err)
    (todo : list stale) : go (Z * option err) :=
  match todo with
  | [] => mret (written, last)
  | s :: todo =>
    r ← caught (Failures (@pool_exec) collation (st_id s) FailureWindow summaryGroups);
    match r with
    | inl e => mret (written, Some e)
    | inr [] => summarize_all ask k written last todo
    | inr fails =>
      match Ai.Summarize Format true (ask k) (st_name s) fails with
      | inl e => summarize_all ask (S k) written (Some e) todo
      | inr text =>
        w ← caught (pool_exec (saveSummarySQL (st_id s) (st_digest s) text Model));
        match w with
        | inl e => mret (written, Some e)
        | inr _ => summarize_all ask (S k) (written + 1) last todo
        end
      end
    end
  end.

(** [ready] is [ai.Ready()], the same all along. *)
Definition Summarize (ready : bool) (ask : nat → string → err + Reply) (limit : Z) : go (Z * option err) :=
  if negb ready then mret (0, None) else
  todo ← pool_exec (staleSummariesSQL FailureWindow limit);
  summarize_all ask 0 0 None todo.

(** ** api/summary.go *)

Definition failure_view (f : Failure) : json :=
  JObj [("error_class", jtext (f_Class f)); ("count", jnum (f_Count f)); ("distinct_messages", jnum (f_Variants f));
        ("latest_message", jtext (f_Sample f)); ("first_seen", JTime (f_First f)); ("last_seen", JTime (f_Last f))].

Definition cachedSummarySQL (q : uuid) (h : Z) (env : Env) : sql (option (Summary * bool)) :=
  gets (λ db, (λ s, (s, bool_decide (su_digest s = failure_digest env q h db))) <$> summaries db !! q).

Definition failureSummary {B} (ready : bool) : scoped B := λ r sc,
  let q := sc_entityID sc in
  fails ← Failures (@tx_exec) collation q FailureWindow summaryGroups;
  let body summary state more :=
    JObj ([("queue_id", JId q); ("window_hours", jnum FailureWindow); ("failures", JArr (failure_view <$> fails));
           ("summary", summary); ("state", jtext state)] ++ more) in
  row ← tx_exec (cachedSummarySQL q FailureWindow);
  mret (ok_body match row with
  | None => body JNull (if ready : bool then "pending" else "unavailable") []
  | Some (s, fresh) =>
    body (jtext (su_summary s)) (if fresh : bool then "current" else "stale")
      [("model", jtext (su_model s)); ("generated_at", JTime (su_generated_at s))]
  end).

End summaries.
