(* ===== verification/Rollup.v ===== *)
(** * The roll-up of the minutes: internal/scheduler/rollup.go

    [percentile_cont] interpolates in exact arithmetic, where Postgres has a
    [float8]. *)

From S2P Require Import Prelude Schema Fl Pool Stats.
From stdpp Require Import list.

#[local] Open Scope list_scope.
#[local] Open Scope Z_scope.

(** ** Percentiles *)

(** [percentile_cont(p) within group (order by x)]: the [n] values stand at 0, ...,
    [n - 1]; the value at [p * (n - 1)] is on the line between its neighbours. *)
Definition percentile_cont (p : Q) (l : list Z) : option Q :=
  match merge_sort Z.le l with
  | [] => None
  | s =>
    let x := (p * inject_Z (Z.of_nat (length s) - 1))%Q in
    let at_ k := inject_Z (default 0 (s !! Z.to_nat k)) in
    let lo := Qfloor x in
    let hi := Qceiling x in
    Some (at_ lo + (x - inject_Z lo) * (at_ hi - at_ lo))%Q
  end.

(** [::int] of a [float8]: to the nearest, a half to the even one. *)
Definition rint (q : Q) : Z :=
  let f := Qfloor q in
  let d := (q - inject_Z f)%Q in
  if negb (Qle_bool (1 # 2) d) then f
  else if negb (Qle_bool d (1 # 2)) then f + 1
  else if Z.even f then f else f + 1.

Definition int_of (q : Q) : sql Z := to_int4 (rint q).

(** ** The statement *)

(** [date_trunc('minute', t)] *)
Definition minute_of (t : timestamp) : Z := t - t mod 60000000.

(** The durations of the executions that count for a queue's minute: those that
    finished in it, within the last [lookback] microseconds, the minute being
    over. *)
Definition closed_durations (env : Env) (lookback : Z) (q : uuid) (m : Z) (db : DB) : list Z :=
  omap (λ x : uuid * Exec, duration_ms x.2)
    (select (λ _ x, bool_decide (x_queue_id x = q) &&
       from_option (λ t, (now env - lookback <=? t) && (t <? minute_of (now env)) && (minute_of t =? m)) false
         (x_finished_at x)) (execs db)).

(** The new values of a row, if it is one to be written. *)
Definition closed_row (env : Env) (lookback : Z) (db : DB) (k : uuid * Z) (s : Stat) : option (Q * Q) :=
  match duration_ms_p50 s with
  | Some _ => None
  | None =>
    let l := closed_durations env lookback k.1 k.2 db in
    p50 ← percentile_cont (1 # 2) l; p95 ← percentile_cont (19 # 20) l; Some (p50, p95)
  end.

Definition with_percentiles (p50 p95 : Z) (s : Stat) : Stat :=
  mkStat (s_completed s) (s_failed s) (s_dead_lettered s) (duration_ms_sum s) (Some p50) (Some p95).

Definition rollup_row (r : ((uuid * Z) * Stat) * (Q * Q)) : sql ((uuid * Z) * Stat) :=
  a ← int_of r.2.1; b ← int_of r.2.2; mret (r.1.1, with_percentiles a b r.1.2).

(** The rows are computed before any is written; a value that does not fit raises. *)
Definition rollupSQL (lookback : Z) (env : Env) : sql Z :=
  rows ← gets (λ db, omap (λ r : (uuid * Z) * Stat, (λ v, (r, v)) <$> closed_row env lookback db r.1 r.2)
                       (map_to_list (stats db)));
  out ← traverse rows rollup_row;
  _ ← modify (λ db, db <| stats := list_to_map out ∪ stats db |>);
  mret (Z.of_nat (length out)).

Definition Rollup (lookback : duration) : go Z := pool_exec (rollupSQL (interval_of lookback)).
