(* ===== verification/Stream.v ===== *)
(** * The event stream: internal/api/stream.go

    The hub - the streams of each user, the channels that wake them, the one
    listener of the process - is a [Hub], the fields [mu] protects, so that each
    of its functions is one step.  [pump] runs against the database as every
    other function of the services does; what the websocket does is given by a
    [Peer]. *)

From S2P Require Import Prelude Text Schema Fl Pool Api Views.
From stdpp Require Import list.

#[local] Open Scope string_scope.
#[local] Open Scope list_scope.
#[local] Open Scope Z_scope.

Definition streamsPerUser : Z := 4.
Definition streamBatch : Z := 1000.

(** ** The hub *)

(** A channel of capacity 1 is whether a token is in it; [make] and
    [context.WithCancel] give fresh ones, numbered by [h_next]. *)
Record Hub := mkHub {
  streams : gmap uuid Z;
  wakers : gmap N bool;
  stopListen : option N;
  listening : gset N;  (* the [listen] goroutines whose context is not cancelled *)
  h_next : N;
}.

#[export] Instance eta_Hub : Eta Hub := λ h,
  mkHub (streams h) (wakers h) (stopListen h) (listening h) (h_next h).

Definition no_streams : Hub := mkHub ∅ ∅ None ∅ 0%N.

(** [s.streams[uid]] *)
Definition streams_of (uid : uuid) (h : Hub) : Z := default 0 (streams h !! uid).

Definition subscribe (uid : uuid) (h : Hub) : (apiError + N) * Hub :=
  if streamsPerUser <=? streams_of uid h then (inl (tooMany "too many event streams open" 30), h) else
  let ch := h_next h in
  let h1 := h <| streams := <[uid := streams_of uid h + 1]> (streams h) |>
              <| wakers := <[ch := false]> (wakers h) |>
              <| h_next := N.succ ch |> in
  let h2 := if decide (size (wakers h1) = 1%nat)
            then let ctx := h_next h1 in
                 h1 <| stopListen := Some ctx |> <| listening := {[ctx]} ∪ listening h1 |>
                    <| h_next := N.succ ctx |>
            else h1 in
  (inr ch, h2).

Definition release (uid : uuid) (ch : N) (h : Hub) : Hub :=
  let n := streams_of uid h - 1 in
  let h1 := h <| wakers := delete ch (wakers h) |>
              <| streams := if n =? 0 then delete uid (streams h) else <[uid := n]> (streams h) |> in
  match stopListen h1 with
  | Some ctx =>
    if decide (size (wakers h1) = 0%nat)
    then h1 <| listening := listening h1 ∖ {[ctx]} |> <| stopListen := None |>
    else h1
  | None => h1
  end.

(** [select { case ch <- struct{}{}: default: }] for every channel. *)
Definition wake (h : Hub) : Hub := h <| wakers := (λ _, true) <$> wakers h |>.

(** [<-ch], when there is a token. *)
Definition receive (ch : N) (h : Hub) : option Hub :=
  match wakers h !! ch with
  | Some true => Some (h <| wakers := <[ch := false]> (wakers h) |>)
  | _ => None
  end.

(** One connection of the listener: whether it was acquired, whether [listen
    fl_events] was accepted, and the notifications until an error. *)
Record Connection := mkConnection { cn_acquired : bool; cn_listens : bool; cn_notified : nat }.

Definition listenOnce (c : Connection) (h : Hub) : Hub :=
  if negb (cn_acquired c) then h else
  if negb (cn_listens c) then h else
  Nat.iter (cn_notified c) wake h.

(** The connections one after the other, until the context is done. *)
Definition listen (l : list Connection) (h : Hub) : Hub := foldl (λ h c, listenOnce c h) h l.

(** ** Frames *)

Record frame := mkFrame {
  fr_Type : string;
  PrevID : Z;
  Next : Z;
  More : bool;
  Oldest : Z;
  Events : list Event;
}.

(** ** The pump *)

(** What the websocket does: what becomes of the frame of a turn, and how the
    [select] at the end of a turn goes - [Some e] when the context is done. *)
Record Peer := mkPeer {
  p_send : nat → option err;
  p_wait : nat → option err;
}.

(** The turns of the loop, [fuel] of them, the [k]-th first: the frames that were
    sent, and the error that ended it, if it ended. *)
Fixpoint pump_loop (fuel k : nat) (conn : Peer) (projectID : uuid) (after : Z) (sent : list frame) :
    go (list frame * option err) :=
  match fuel with
  | O => mret (sent, None)
  | S fuel =>
    r ← caught (pool_exec (listEventsSQL projectID after streamBatch));
    let wait after sent :=
      match p_wait conn k with
      | Some e => mret (sent, Some e)
      | None => pump_loop fuel (S k) conn projectID after sent
      end in
    match r with
    | inl e => mret (sent, Some e)
    | inr events =>
      match last events with
      | None => wait after sent
      | Some e =>
        let next := e_id e in
        let f := mkFrame "batch" after next (Z.of_nat (length events) =? streamBatch) 0 events in
        match p_send conn k with
        | Some e => mret (sent, Some e)
        | None =>
          if More f then pump_loop fuel (S k) conn projectID next (sent ++ [f])
          else wait next (sent ++ [f])
        end
      end
    end
  end.

Definition tooOldFrame (after low : Z) : frame := mkFrame "cursor_too_old" after 0 false low [].

(** An ended [pump] gives the error it returned, [None] for [nil]. *)
Inductive ended := Running | Ended (e : option err).

Definition pump (fuel : nat) (conn : Peer) (projectID : uuid) (after : Z) : go (list frame * ended) :=
  r ← caught (pool_exec (λ _, gets low_water_id));
  match r with
  | inl e => mret ([], Ended (Some e))
  | inr low =>
    if succ_int64 after <? low then
      match p_send conn 0 with
      | Some e => mret ([], Ended (Some e))
      | None => mret ([tooOldFrame after low], Ended None)
      end
    else
      '(sent, e) ← pump_loop fuel 0 conn projectID after [];
      mret (sent, match e with Some e => Ended (Some e) | None => Running end)
  end.

(** ** The handler *)

Section stream.
Context (uuid_Parse : string → option uuid).

(** The transaction that says who is asking, and for which project. *)
Definition authorize {B} (r : Request B) : go (uuid * scope) :=
  '(id, _) ← authuser uuid_Parse r;
  osc ← byPath uuid_Parse "projectId" projectScope r id;
  match osc with
  | None => fail_with (notFound "project")
  | Some sc => if role_rank (sc_role sc) <? role_rank viewer then fail_with forbidden else mret (id, sc)
  end.

(** What the client gets: a problem, nothing ([websocket.Accept] answered it), or
    the frames, with the close the handler sent if it sent one. *)
Inductive streamed :=
  | Refused (resp : Response)
  | NotAccepted
  | Streamed (sent : list frame) (e : ended).

(** [accept] is [websocket.Accept], which is given the subprotocols; [meanwhile]
    is what the other handlers do to the hub while this one streams. *)
Definition streamEvents {B} (accept : list string → bool) (fuel : nat) (conn : Peer) (meanwhile : Hub → Hub)
    (h : Hub) (r : Request B) : go (streamed * Hub) :=
  res ← caught (server_tx (authorize r));
  match res with
  | inl e => mret (Refused (writeError (rq_id r) e), h)
  | inr (uid, sc) =>
    a ← caught (afterID r);
    match a with
    | inl e => mret (Refused (writeError (rq_id r) e), h)
    | inr after =>
      match subscribe uid h with
      | (inl e, h1) => mret (Refused (writeError (rq_id r) (ErrApi e)), h1)
      | (inr ch, h1) =>
        if accept (subprotocols r) then
          '(sent, e) ← pump fuel conn (sc_projectID sc) after;
          mret (Streamed sent e, match e with Running => meanwhile h1 | Ended _ => release uid ch (meanwhile h1) end)
        else mret (NotAccepted, release uid ch h1)
      end
    end
  end.

End stream.
