(* ===== verification/Cascade.v ===== *)
(** * Deletions: foreign keys and their triggers

    [deleteOrg], [deleteProject], [deleteQueue] and [deleteSchedule] are one
    [delete] each; the rest is done by the constraint triggers of Postgres
    (migrations/002_core.sql, 005_side_tables.sql, 020_dependencies.sql,
    027_shards.sql and 029_summaries.sql).  The triggers of a deleted row fire in
    the order in which its constraints were declared, and the rows they delete
    queue theirs behind those that wait, so that they fire in rounds.  The
    deletions are kept apart from the operations of [System]: they take jobs away. *)

From S2P Require Import Prelude Schema Fl Pool Api ApiJobs ApiAdmin Accounts.

#[local] Open Scope string_scope.
#[local] Open Scope list_scope.
#[local] Open Scope Z_scope.

(** ** Constraint triggers *)

(** A row that was deleted, of a table other tables refer to. *)
Inductive row :=
  | ROrg (i : uuid)
  | RProject (i : uuid)
  | RPolicy (i : uuid)
  | RQueue (i : uuid) (project : uuid)
  | RSchedule (i : uuid)
  | RWorker (i : uuid)
  | RJob (i : uuid).

(** What a trigger does: it deletes rows, or raises. *)
Abbreviation trigger := (sql (list row)).

(** [on delete cascade] into a table whose rows have triggers of their own. *)
Definition cascade_rows {V} (table : DB → gmap uuid V) (put : gmap uuid V → DB → DB)
    (refers : V → bool) (row_of : uuid * V → row) : trigger := λ db,
  inr (row_of <$> merge_sort by_id (select (λ _ v, refers v) (table db)),
       put (filter (λ kv : uuid * V, refers kv.2 = false) (table db)) db).

(** And into one whose rows have none. *)
Definition cascade_quiet (f : DB → DB) : trigger := λ db, inr ([], f db).

(** [on delete restrict]. *)
Definition restrict (referred : DB → bool) : trigger := λ db,
  if referred db then inl foreign_key_violation else inr ([], db).

(** [on delete set null], an update of the rows. *)
Definition set_null (s : uuid) : trigger :=
  ids ← gets (λ db, (select (λ _ j, bool_decide (schedule_id j = Some s)) (jobs db)).*1);
  _ ← foreach ids (λ i, update_job i (λ j, j <| schedule_id := None |>));
  mret [].

Definition any_row {V} (f : uuid → V → bool) (m : gmap uuid V) : bool := bool_decide (select f m ≠ []).

(** The constraints that refer to a table, as they were declared. *)
Definition triggers (r : row) : list trigger :=
  match r with
  | ROrg o =>
    [ cascade_quiet (λ db, db <| org_members := filter (λ kv : uuid * uuid * string, kv.1.1 ≠ o) (org_members db) |>);
      cascade_rows projects (λ m db, db <| projects := m |>) (λ p, bool_decide (org_id p = o)) (λ kv, RProject kv.1) ]
  | RProject p =>
    [ cascade_rows policies (λ m db, db <| policies := m |>) (λ x, bool_decide (p_project_id x = p)) (λ kv, RPolicy kv.1);
      cascade_rows queues (λ m db, db <| queues := m |>) (λ x, bool_decide (q_project_id x = p)) (λ kv, RQueue kv.1 p);
      cascade_rows workers (λ m db, db <| workers := m |>) (λ x, bool_decide (w_project_id x = p)) (λ kv, RWorker kv.1) ]
  | RPolicy i =>
    [ restrict (λ db, any_row (λ _ q, bool_decide (q_retry_policy_id q = i)) (queues db));
      restrict (λ db, any_row (λ _ j, bool_decide (retry_policy_id j = i)) (jobs db)) ]
  | RQueue q p =>
    [ cascade_rows schedules (λ m db, db <| schedules := m |>) (λ s, bool_decide (sc_queue_id s = q)) (λ kv, RSchedule kv.1);
      cascade_rows jobs (λ m db, db <| jobs := m |>)
        (λ j, bool_decide (project_id j = p) && bool_decide (queue_id j = q)) (λ kv, RJob kv.1);
      cascade_quiet (λ db, db <| worker_queues := filter (λ k : uuid * uuid, k.2 ≠ q) (worker_queues db) |>);
      cascade_quiet (λ db, db <| idem_keys := filter (λ kv : uuid * string * IdemKey, kv.1.1 ≠ q) (idem_keys db) |>);
      cascade_quiet (λ db, db <| stats := filter (λ kv : uuid * Z * Stat, kv.1.1 ≠ q) (stats db) |>);
      cascade_quiet (λ db, db <| queue_shards := filter (λ kv : uuid * Z * Shard, kv.1.1 ≠ q) (queue_shards db) |>);
      cascade_quiet (λ db, db <| summaries := delete q (summaries db) |>) ]
  | RSchedule s => [ set_null s ]
  | RWorker w =>
    [ restrict (λ db, any_row (λ _ j, bool_decide (worker_id j = Some w)) (jobs db));
      restrict (λ db, any_row (λ _ l, bool_decide (l_worker_id l = w)) (leases db));
      restrict (λ db, any_row (λ _ x, bool_decide (x_worker_id x = w)) (execs db));
      cascade_quiet (λ db, db <| worker_queues := filter (λ k : uuid * uuid, k.1 ≠ w) (worker_queues db) |>) ]
  | RJob j =>
    [ cascade_quiet (λ db, db <| leases := delete j (leases db) |>);
      cascade_quiet (λ db, db <| deps := filter (λ d : uuid * uuid, d.1 ≠ j) (deps db) |>);
      cascade_quiet (λ db, db <| deps := filter (λ d : uuid * uuid, d.2 ≠ j) (deps db) |>) ]
  end.

(** The triggers of one row, and of the rows of one round. *)
Definition fire_row (r : row) : trigger := out ← traverse (triggers r) id; mret (concat out).
Definition fire_round (rows : list row) : trigger := out ← traverse rows fire_row; mret (concat out).

(** Round after round.  Organizations refer to projects, projects to policies,
    queues and workers, queues to schedules and jobs: there are four rounds at
    most. *)
Fixpoint cascade (n : nat) (rows : list row) : sql unit :=
  match rows, n with
  | [], _ => mret tt
  | _, O => raise "54001"
  | _, S n' => news ← fire_round rows; cascade n' news
  end.

Definition max_rounds : nat := 4.

(** ** Statements and handlers *)

Definition deleteOrgSQL (i : uuid) (env : Env) : sql unit :=
  o ← gets (λ db, organizations db !! i);
  match o with
  | None => mret tt
  | Some _ => _ ← modify (λ db, db <| organizations := delete i (organizations db) |>);
              cascade max_rounds [ROrg i]
  end.

Definition deleteProjectSQL (i : uuid) (env : Env) : sql unit :=
  p ← gets (λ db, projects db !! i);
  match p with
  | None => mret tt
  | Some _ => _ ← modify (λ db, db <| projects := delete i (projects db) |>);
              cascade max_rounds [RProject i]
  end.

Definition deleteQueueSQL (i : uuid) (env : Env) : sql unit :=
  q ← gets (λ db, queues db !! i);
  match q with
  | None => mret tt
  | Some q => _ ← modify (λ db, db <| queues := delete i (queues db) |>);
              cascade max_rounds [RQueue i (q_project_id q)]
  end.

Definition deleteScheduleSQL (i : uuid) (env : Env) : sql unit :=
  s ← gets (λ db, schedules db !! i);
  match s with
  | None => mret tt
  | Some _ => _ ← modify (λ db, db <| schedules := delete i (schedules db) |>);
              cascade max_rounds [RSchedule i]
  end.

Definition deleteOrg {B} : scoped B := λ r sc, _ ← tx_exec (deleteOrgSQL (sc_orgID sc)); mret no_content.
Definition deleteProject {B} : scoped B := λ r sc, _ ← tx_exec (deleteProjectSQL (sc_projectID sc)); mret no_content.
Definition deleteQueue {B} : scoped B := λ r sc, _ ← tx_exec (deleteQueueSQL (sc_entityID sc)); mret no_content.
Definition deleteSchedule {B} : scoped B := λ r sc, _ ← tx_exec (deleteScheduleSQL (sc_entityID sc)); mret no_content.

(** The [DELETE] routes of server.go, but for the one of retry policies. *)
Inductive removal :=
  | DeleteOrg (r : Request unit)
  | DeleteProject (r : Request unit)
  | DeleteQueue (r : Request unit)
  | DeleteSchedule (r : Request unit).

Definition serve_removal (uuid_Parse : string → option uuid) (rm : removal) : go Response :=
  match rm with
  | DeleteOrg r => guard uuid_Parse owner "org.delete" "org" (byPath uuid_Parse "id" orgScope) deleteOrg r
  | DeleteProject r => guard uuid_Parse admin "project.delete" "project" (byPath uuid_Parse "id" projectScope) deleteProject r
  | DeleteQueue r => guard uuid_Parse admin "queue.delete" "queue" (byPath uuid_Parse "id" queueScope) deleteQueue r
  | DeleteSchedule r => guard uuid_Parse admin "schedule.delete" "schedule" (byPath uuid_Parse "id" scheduleScope) deleteSchedule r
  end.
