(* ===== verification/GoLogic.v ===== *)
(** * Reasoning about Go functions

    [go_keeps P m]: whatever the calls of [m] meet (faults, lost answers, other
    processes that keep [P]), [P] holds of the database afterwards and of the
    snapshot of the open transaction, if any.  [tx_hoare P m Q] is the triple of
    a piece of code inside a transaction, and [tx_body I P m] says that a body
    that commits does so in a state of [I]. *)

From S2P Require Import Prelude Schema Partitions Pool Jobs Sched Archiver Worker Api.

Definition others_keep (P : DB → Prop) (calls : nat → Call) : Prop :=
  ∀ n db, P db → P (c_other (calls n) db).

Definition snap_ok (P : DB → Prop) (w : World) : Prop := ∀ s, w_snap w = Some s → P s.

Definition world_ok (P : DB → Prop) (w : World) : Prop :=
  P (w_db w) ∧ snap_ok P w ∧ others_keep P (w_calls w).

(** No transaction is open, as between two calls of the services. *)
Definition at_rest (P : DB → Prop) (w : World) : Prop :=
  w_snap w = None ∧ P (w_db w) ∧ others_keep P (w_calls w).

Definition go_keeps {A} (P : DB → Prop) (m : go A) : Prop :=
  ∀ w, world_ok P w → world_ok P (snd (m w)).

Definition tx_hoare {A} (P : DB → Prop) (m : go A) (Q : A → DB → Prop) : Prop :=
  ∀ w r w', m w = (r, w') → P (w_db w) →
    w_snap w' = w_snap w ∧ w_calls w' = w_calls w ∧
    match r with inr a => Q a (w_db w') | inl _ => True end.

Definition tx_body {A} (I P : DB → Prop) (m : go A) : Prop :=
  ∀ w r w' s, m w = (r, w') → w_snap w = Some s → P (w_db w) →
    w_calls w' = w_calls w ∧
    (w_snap w' = Some s ∨ (w_snap w' = None ∧ I (w_db w'))).

(** ** Functions that keep an invariant *)

Section go_keeps.
Context (P : DB → Prop).

Lemma go_keeps_ret {A} (a : A) : go_keeps P (mret a : go A).
Proof. by intros w. Qed.

Lemma go_keeps_throw {A} e : go_keeps P (throw e : go A).
Proof. by intros w. Qed.

Lemma go_keeps_bind {A B} (m : go A) (f : A → go B) :
  go_keeps P m → (∀ a, go_keeps P (f a)) → go_keeps P (m ≫= f).
Proof.
  intros Hm Hf w Hw. specialize (Hm w Hw). unfold mbind, go_bind.
  destruct (m w) as [[e|a] w1]; [done|]. by apply Hf.
Qed.

Lemma go_keeps_caught {A} (m : go A) : go_keeps P m → go_keeps P (caught m).
Proof. intros Hm w Hw. specialize (Hm w Hw). unfold caught. by destruct (m w). Qed.

Lemma go_keeps_pool {A} (s : Env → sql A) : (∀ env, keeps P (s env)) → go_keeps P (pool_exec s).
Proof.
  intros Hs w (HP & Hsn & Ho).
  assert (P (c_other (this_call w) (w_db w))) as HP1 by (by apply Ho).
  specialize (Hs (c_env (this_call w)) _ HP1). unfold pool_exec.
  destruct (c_fault (this_call w)); try (destruct (s _ _) as [code|[a db']] eqn:Hr); done.
Qed.

Lemma go_keeps_tx {A} (s : Env → sql A) : (∀ env, keeps P (s env)) → go_keeps P (tx_exec s).
Proof.
  intros Hs w (HP & Hsn & Ho). specialize (Hs (c_env (this_call w)) _ HP). unfold tx_exec.
  destruct (c_fault (this_call w)); try (destruct (s _ _) as [code|[a db']] eqn:Hr); done.
Qed.

Lemma go_keeps_begin : go_keeps P begin_tx.
Proof.
  intros w (HP & Hsn & Ho).
  assert (P (c_other (this_call w) (w_db w))) as HP1 by (by apply Ho).
  unfold begin_tx. destruct (c_fault (this_call w)); try done.
  split_and!; [done| |done]. by intros s [= <-].
Qed.

Lemma go_keeps_commit : go_keeps P commit_tx.
Proof. intros w (HP & Hsn & Ho). unfold commit_tx. by destruct (c_fault (this_call w)). Qed.

Lemma world_ok_rollback w : world_ok P w → world_ok P (rollback w).
Proof.
  intros (HP & Hsn & Ho). unfold rollback. destruct (w_snap w) as [s|] eqn:E; [|done].
  split_and!; [by apply Hsn|done|done].
Qed.

Lemma go_keeps_rollback : go_keeps P roll_back.
Proof. intros w Hw. by apply world_ok_rollback. Qed.

Lemma go_keeps_with_tx {A} (m : go A) : go_keeps P m → go_keeps P (with_tx m).
Proof.
  intros Hm. apply go_keeps_bind; [apply go_keeps_begin|]. intros _ w Hw.
  unfold deferring_rollback. specialize (Hm w Hw). destruct (m w) as [r w'].
  by apply world_ok_rollback.
Qed.

Lemma go_keeps_scan_row {A} (o : option A) : go_keeps P (scan_row o).
Proof. destruct o; [apply go_keeps_ret|apply go_keeps_throw]. Qed.

Lemma go_keeps_or_fenced {A} (o : option A) : go_keeps P (or_fenced o).
Proof. destruct o; [apply go_keeps_ret|apply go_keeps_throw]. Qed.

Lemma go_keeps_fold {A B} (f : A → B → go A) acc l :
  (∀ a x, go_keeps P (f a x)) → go_keeps P (go_fold f acc l).
Proof.
  intros Hf. revert acc. induction l as [|x l IH]; intros acc; simpl; [apply go_keeps_ret|].
  by apply go_keeps_bind.
Qed.

Lemma go_keeps_attempts {A} n live (m : go A) : go_keeps P m → go_keeps P (attempts n live m).
Proof.
  intros Hm. induction n as [|n IH]; simpl; [apply go_keeps_ret|].
  apply go_keeps_bind; [by apply go_keeps_caught|]. intros r.
  destruct (_ || _); [apply go_keeps_ret|done].
Qed.

Lemma go_keeps_tx_attempts {A} n last (m : go A) : go_keeps P m → go_keeps P (tx_attempts n last m).
Proof.
  intros Hm. revert last. induction n as [|n IH]; intros last; simpl; [apply go_keeps_throw|].
  apply go_keeps_bind; [apply go_keeps_begin|]. intros _.
  apply go_keeps_bind; [by apply go_keeps_caught|]. intros [e|a].
  - apply go_keeps_bind; [apply go_keeps_rollback|]. intros _.
    destruct (retryable e); [done|apply go_keeps_throw].
  - apply go_keeps_bind; [apply go_keeps_caught, go_keeps_commit|]. intros [e|[]].
    + apply go_keeps_bind; [apply go_keeps_rollback|]. intros _.
      destruct (retryable e); [done|apply go_keeps_throw].
    + apply go_keeps_ret.
Qed.

Lemma go_keeps_server_tx {A} (m : go A) : go_keeps P m → go_keeps P (server_tx m).
Proof. apply go_keeps_tx_attempts. Qed.

(** What [go_keeps] gives when no transaction is open. *)
Lemma go_keeps_run {A} (m : go A) w :
  go_keeps P m → w_snap w = None → others_keep P (w_calls w) → P (w_db w) → P (final_db m w).
Proof.
  intros Hm Hs Ho HP. destruct (Hm w) as (H & _ & _); [|done].
  split_and!; [done| |done]. intros s. by rewrite Hs.
Qed.

End go_keeps.

(** ** Code inside a transaction *)

Section tx_hoare.
Context {A B : Type}.
Implicit Types (P I : DB → Prop).

Lemma tx_hoare_ret P (a : A) (Q : A → DB → Prop) :
  (∀ db, P db → Q a db) → tx_hoare P (mret a) Q.
Proof. intros H w r w' [= <- <-] HP. auto. Qed.

Lemma tx_hoare_throw P e (Q : A → DB → Prop) : tx_hoare P (throw e) Q.
Proof. by intros w r w' [= <- <-] _. Qed.

Lemma tx_hoare_exec P (s : Env → sql A) (Q : A → DB → Prop) :
  (∀ env, hoare P (s env) Q) → tx_hoare P (tx_exec s) Q.
Proof.
  intros Hs w r w' Hrun HP.
  apply (tx_exec_spec s w P Q r w' HP (Hs _)) in Hrun as [(? & ? & _) Hr].
  split_and!; [done|done|]. destruct r; [done|exact Hr].
Qed.

Lemma tx_hoare_bind P (m : go A) (R : A → DB → Prop) (f : A → go B) (Q : B → DB → Prop) :
  tx_hoare P m R → (∀ a, tx_hoare (R a) (f a) Q) → tx_hoare P (m ≫= f) Q.
Proof.
  intros Hm Hf w r w' [(e & Hx & ->)|(a & w1 & Hx & Hy)]%go_bind_inv HP.
  - apply Hm in Hx as (? & ? & _); done.
  - destruct (Hm _ _ _ Hx HP) as (Hs & Hc & HR). destruct (Hf _ _ _ _ Hy HR) as (Hs' & Hc' & HQ).
    split_and!; [congruence|congruence|done].
Qed.

Lemma tx_hoare_weaken P P' (m : go A) Q :
  (∀ db, P db → P' db) → tx_hoare P' m Q → tx_hoare P m Q.
Proof. intros HP Hm w r w' Hr H. apply (Hm w r w' Hr). auto. Qed.

Lemma tx_hoare_seq P (m : go A) (f : A → go B) (Q : B → DB → Prop) :
  tx_hoare P m (λ _, P) → (∀ a, tx_hoare P (f a) Q) → tx_hoare P (m ≫= f) Q.
Proof. apply tx_hoare_bind. Qed.

(** A statement whose error the code looks at: on an error the database is as
    it was. *)
Lemma tx_hoare_caught_exec P (s : Env → sql A) (Q : err + A → DB → Prop) :
  (∀ e db, P db → Q (inl e) db) → (∀ env, hoare P (s env) (λ a, Q (inr a))) →
  tx_hoare P (caught (tx_exec s)) Q.
Proof.
  intros He Hs w r w' Hrun HP. unfold caught in Hrun.
  destruct (tx_exec s w) as [r1 w1] eqn:Hx. injection Hrun as <- <-.
  apply (tx_exec_spec s w P _ r1 w1 HP (Hs _)) in Hx as [(? & ? & _) Hr].
  split_and!; [done|done|]. destruct r1 as [e|a]; [|done]. rewrite Hr. by apply He.
Qed.

Lemma tx_hoare_caught P (m : go A) (Q : err + A → DB → Prop) :
  (∀ e db, Q (inl e) db) → tx_hoare P m (λ a, Q (inr a)) → tx_hoare P (caught m) Q.
Proof.
  intros He Hm w r w' Hrun HP. unfold caught in Hrun. destruct (m w) as [r1 w1] eqn:Hx.
  injection Hrun as <- <-. destruct (Hm _ _ _ Hx HP) as (? & ? & Hr).
  split_and!; [done|done|]. by destruct r1.
Qed.

End tx_hoare.

Lemma tx_hoare_fold {A B} (P : A → DB → Prop) (f : A → B → go A) acc l :
  (∀ a x, x ∈ l → tx_hoare (P a) (f a x) P) → tx_hoare (P acc) (go_fold f acc l) P.
Proof.
  revert acc. induction l as [|x l IH]; intros acc Hf; cbn [go_fold].
  - by apply tx_hoare_ret.
  - eapply tx_hoare_bind; [apply Hf, elem_of_cons; by left|]. intros a. apply IH.
    intros b y Hy. apply Hf, elem_of_cons. by right.
Qed.

(** ** Code inside a transaction that keeps an invariant *)

Definition tx_keeps {A} (P : DB → Prop) (m : go A) : Prop := tx_hoare P m (λ _, P).

Section tx_keeps.
Context (P : DB → Prop) {A B : Type}.

Lemma tx_keeps_ret (a : A) : tx_keeps P (mret a).
Proof. by apply tx_hoare_ret. Qed.

Lemma tx_keeps_throw e : tx_keeps P (throw e : go A).
Proof. apply tx_hoare_throw. Qed.

Lemma tx_keeps_exec (s : Env → sql A) : (∀ env, keeps P (s env)) → tx_keeps P (tx_exec s).
Proof. apply tx_hoare_exec. Qed.

Lemma tx_keeps_bind (m : go A) (f : A → go B) :
  tx_keeps P m → (∀ a, tx_keeps P (f a)) → tx_keeps P (m ≫= f).
Proof. apply tx_hoare_bind. Qed.

(** An error that is looked at and turned into another one. *)
Lemma tx_keeps_caught_bind (m : go A) (f : err + A → go B) :
  tx_keeps P m → (∀ e, tx_hoare (λ _, True) (f (inl e)) (λ _, P)) →
  (∀ a, tx_keeps P (f (inr a))) → tx_keeps P (caught m ≫= f).
Proof.
  intros Hm He Hf. eapply (tx_hoare_bind _ _ (λ r db, match r with inl _ => True | inr _ => P db end)).
  - by apply tx_hoare_caught.
  - intros [e|a]; [apply He|apply Hf].
Qed.

Lemma tx_keeps_ret_bind (a : A) (f : A → go B) : tx_keeps P (f a) → tx_keeps P (mret a ≫= f).
Proof. done. Qed.

Lemma tx_keeps_scan_row (o : option A) : tx_keeps P (scan_row o).
Proof. destruct o; [apply tx_keeps_ret|apply tx_keeps_throw]. Qed.

End tx_keeps.

Ltac tx_step :=
  match goal with
  | |- tx_keeps _ (mret _) => apply tx_keeps_ret
  | |- tx_keeps _ (throw _) => apply tx_keeps_throw
  | |- tx_keeps _ (fail_with _) => apply tx_keeps_throw
  | |- tx_keeps _ (scan_row _) => apply tx_keeps_scan_row
  | |- tx_keeps _ (decode ?r) => unfold decode; destruct (rq_body r)
  | |- tx_hoare _ (throw _) _ => apply tx_hoare_throw
  | |- tx_hoare _ (fail_with _) _ => apply tx_hoare_throw
  | |- tx_keeps _ (caught _ ≫= _) => apply tx_keeps_caught_bind; [|intros ?|intros ?]
  | |- tx_keeps _ (_ ≫= _) => apply tx_keeps_bind; [|intros ?]
  | |- tx_keeps _ (tx_exec _) => apply tx_keeps_exec; intros ?
  | |- tx_keeps _ (match ?x with _ => _ end) => destruct x
  | |- tx_hoare _ (match ?x with _ => _ end) _ => destruct x
  | |- tx_keeps _ _ => solve [auto with fl]
  end.

(** ** Transactions *)

Section tx_body.
Context {A B : Type}.
Implicit Types (P I : DB → Prop).

Lemma tx_body_bind I P (m : go A) (R : A → DB → Prop) (f : A → go B) :
  tx_hoare P m R → (∀ a, tx_body I (R a) (f a)) → tx_body I P (m ≫= f).
Proof.
  intros Hm Hf w r w' s [(e & Hx & ->)|(a & w1 & Hx & Hy)]%go_bind_inv Hs HP.
  - destruct (Hm _ _ _ Hx HP) as (Hs' & ? & _). split; [done|]. left. congruence.
  - destruct (Hm _ _ _ Hx HP) as (Hs1 & Hc & HR). rewrite <- Hc.
    eapply Hf; [exact Hy|congruence|done].
Qed.

Lemma tx_body_ret I P (a : A) : tx_body I P (mret a).
Proof. intros w r w' s [= <- <-] Hs _. auto. Qed.

Lemma tx_body_throw I P e : tx_body I P (throw e : go A).
Proof. intros w r w' s [= <- <-] Hs _. auto. Qed.

Lemma tx_body_commit I P : (∀ db, P db → I db) → tx_body I P commit_tx.
Proof.
  intros HI w r w' s Hrun Hs HP. unfold commit_tx in Hrun.
  destruct (c_fault (this_call w)); injection Hrun as <- <-; (split; [done|]); simpl; auto.
Qed.

Lemma tx_body_commit_ret I P (a : A) :
  (∀ db, P db → I db) → tx_body I P (_ ← commit_tx; mret a).
Proof.
  intros HI w r w' s [(e & Hx & ->)|([] & w1 & Hx & [= <- <-])]%go_bind_inv Hs HP;
    by eapply (tx_body_commit I P HI).
Qed.

(** A transaction whose body commits only in [I] keeps [I]. *)
Lemma go_keeps_tx_body I (m : go A) : tx_body I I m → go_keeps I (with_tx m).
Proof.
  intros Hm w (HI & Hsn & Ho). destruct (with_tx m w) as [r w'] eqn:Hrun. simpl.
  apply with_tx_inv in Hrun as [(e & -> & ->)|(w1 & w2 & Hdb & Hs1 & Hc1 & _ & Hb & ->)].
  { split_and!; [by apply Ho|done|done]. }
  assert (I (w_db w1)) as HI1 by (rewrite Hdb; by apply Ho).
  apply (Hm _ _ _ _ Hb Hs1) in HI1 as HI2. destruct HI2 as [Hc [Hs2|[Hs2 HI2]]].
  - unfold rollback. rewrite Hs2. split_and!; [done|done|]. simpl. by rewrite Hc, Hc1.
  - unfold rollback. rewrite Hs2. split_and!; [done| |by rewrite Hc, Hc1].
    intros s. by rewrite Hs2.
Qed.

(** It is rolled back, or ends in [I]. *)
Lemma with_tx_ends I P (m : go A) w :
  tx_body I P m → let db := c_other (this_call w) (w_db w) in
  P db → final_db (with_tx m) w = db ∨ I (final_db (with_tx m) w).
Proof.
  intros Hm db HP. unfold final_db. destruct (with_tx m w) as [r w'] eqn:Hrun. simpl.
  apply with_tx_inv in Hrun as [(e & -> & ->)|(w1 & w2 & Hdb & Hs1 & Hc1 & _ & Hb & ->)]; [by left|].
  fold db in Hdb. rewrite <- Hdb in HP.
  destruct (Hm _ _ _ _ Hb Hs1 HP) as [_ [Hs2|[Hs2 HI]]]; unfold rollback; rewrite Hs2; [by left|by right].
Qed.

(** A request handler, run by [s.tx], that ends in [I] when it succeeds. *)
Lemma go_keeps_handler I n last (m : go A) :
  tx_hoare I m (λ _, I) → ∀ w, at_rest I w → at_rest I (snd (tx_attempts n last m w)).
Proof.
  intros Hm. revert last. induction n as [|n IH]; intros last w Hw; [done|].
  destruct Hw as (Hs & HI & Ho). simpl.
  assert (I (c_other (this_call w) (w_db w))) as HI1 by (by apply Ho).
  unfold mbind, go_bind, begin_tx. destruct (c_fault (this_call w)); [|done..].
  set (w1 := (after_call w _) <| w_snap := _ |>).
  unfold caught at 1. destruct (m w1) as [r w2] eqn:Hb.
  destruct (Hm _ _ _ Hb HI1) as (Hs2 & Hc2 & HQ). simpl in Hs2, Hc2.
  assert (∀ w3, w_snap w3 = Some (c_other (this_call w) (w_db w)) → w_calls w3 = w_calls w →
    at_rest I (rollback w3)) as Hback.
  { intros w3 H3 H3'. unfold rollback. rewrite H3. split_and!; [done|done|]. simpl. by rewrite H3'. }
  destruct r as [e|a].
  - unfold roll_back. destruct (retryable e); [apply IH|]; by apply Hback.
  - unfold caught, commit_tx, roll_back. destruct (c_fault (this_call w2)); simpl.
    + split_and!; [done|done|]. simpl. by rewrite Hc2.
    + destruct (retryable e); [apply IH|]; by apply Hback.
    + assert (at_rest I ((after_call w2 (w_db w2)) <| w_snap := None |>)) as Hr
        by (split_and!; [done|done|]; simpl; by rewrite Hc2).
      destruct (retryable e); [by apply IH|done].
Qed.

End tx_body.

(** Splits a Go function into its statements. *)
Ltac go_step :=
  match goal with
  | |- go_keeps _ (mret _) => apply go_keeps_ret
  | |- go_keeps _ (throw _) => apply go_keeps_throw
  | |- go_keeps _ (fail_with _) => apply go_keeps_throw
  | |- go_keeps _ (caught _) => apply go_keeps_caught
  | |- go_keeps _ (scan_row _) => apply go_keeps_scan_row
  | |- go_keeps _ (or_fenced _) => apply go_keeps_or_fenced
  | |- go_keeps _ begin_tx => apply go_keeps_begin
  | |- go_keeps _ commit_tx => apply go_keeps_commit
  | |- go_keeps _ roll_back => apply go_keeps_rollback
  | |- go_keeps _ (with_tx _) => apply go_keeps_with_tx
  | |- go_keeps _ (server_tx _) => apply go_keeps_server_tx
  | |- go_keeps _ (attempts _ _ _) => apply go_keeps_attempts
  | |- go_keeps _ (go_fold _ _ _) => apply go_keeps_fold; intros ? ?
  | |- go_keeps _ (_ ≫= _) => apply go_keeps_bind; [|intros ?]
  | |- go_keeps _ (pool_exec _) => apply go_keeps_pool; intros ?
  | |- go_keeps _ (tx_exec _) => apply go_keeps_tx; intros ?
  | |- go_keeps _ (match ?x with _ => _ end) => destruct x
  | |- go_keeps _ _ => solve [auto with fl]
  end.
Ltac go_keeps := repeat go_step.

(** ** Transactions whose calls are answered

    [lands env P m Q]: inside a transaction, in one environment and with every
    call answered, [m] goes through from any database of [P] and ends in [Q]. *)

Definition lands {A} (env : Env) (P : DB → Prop) (m : go A) (Q : A → DB → Prop) : Prop :=
  ∀ db s n, P db → ∃ a db' n',
    m (mkWorld db s (quiet env) n) = (inr a, mkWorld db' s (quiet env) n') ∧ Q a db'.

Lemma lands_ret {A} env (P : DB → Prop) (a : A) (Q : A → DB → Prop) :
  (∀ db, P db → Q a db) → lands env P (mret a) Q.
Proof. intros H db s n HP. exists a, db, n. auto. Qed.

Lemma lands_exec {A} env (P : DB → Prop) (q : Env → sql A) (Q : A → DB → Prop) :
  (∀ db, P db → ∃ a db', q env db = inr (a, db') ∧ Q a db') → lands env P (tx_exec q) Q.
Proof.
  intros H db s n HP. destruct (H db HP) as (a & db' & Hr & HQ). exists a, db', (S n). split; [|done].
  by rewrite (tx_exec_quiet q env _ a db').
Qed.

Lemma lands_bind {A B} env (P : DB → Prop) (m : go A) (R : A → DB → Prop) (f : A → go B) (Q : B → DB → Prop) :
  lands env P m R → (∀ a, lands env (R a) (f a) Q) → lands env P (m ≫= f) Q.
Proof.
  intros Hm Hf db s n HP. destruct (Hm db s n HP) as (a & db1 & n1 & Hr & HR).
  destruct (Hf a db1 s n1 HR) as (b & db2 & n2 & Hr' & HQ). exists b, db2, n2. split; [|done].
  unfold mbind, go_bind. by rewrite Hr.
Qed.

(** ** The archiver *)

Lemma keeps_archiving (P : DB → Prop) parent l move :
  (∀ db, P db → P (move db)) → keeps P (archiving parent l move).
Proof. intros HP db Hdb. unfold archiving. destruct (forallb _ _); [by apply HP|done]. Qed.

(** A statement that only creates partitions. *)
Lemma partitions_only (q : list uuid → Env → sql unit) ids env db :
  q ∈ [logPartitionsSQL; execPartitionsSQL; jobPartitionsSQL; deadLetterPartitionsSQL] →
  ∃ ps, q ids env db = inr (tt, db <| partitions := ps |>) ∧ partitions db ⊆ ps.
Proof.
  intros Hq. assert (∃ parent l, q ids env db = ensure_span parent l db) as (parent & l & ->).
  { rewrite !elem_of_cons, elem_of_nil in Hq. by destruct Hq as [->|[->|[->|[->|[]]]]]; eexists _, _. }
  destruct (ensure_span_run parent l db) as (ps & -> & ? & _). by exists ps.
Qed.

(** What does not read the partitions is kept by an [Archive] if it is kept by
    each of the moves. *)
Lemma go_keeps_Archive (P : DB → Prop) a d l :
  (∀ db ps, P db → P (db <| partitions := ps |>)) →
  (∀ ids env, keeps P (moveLogsSQL ids env)) → (∀ ids env, keeps P (moveExecsSQL ids env)) →
  (∀ ids env, keeps P (moveDeadLettersSQL ids env)) → (∀ ids env, keeps P (moveJobsSQL ids env)) →
  go_keeps P (Archive a d l).
Proof.
  intros HP Hl Hx Hd Hj. unfold Archive, pickSQL, logPartitionsSQL, execPartitionsSQL, jobPartitionsSQL,
    deadLetterPartitionsSQL. cbn [go_fold].
  go_keeps; auto; try apply keeps_gets.
  all: apply keeps_bind; [apply keeps_gets|intros ?]; by apply keeps_ensure_span.
Qed.
