(* ===== verification/System.v ===== *)
(** * The operations of the system

    Every entry point of the services that is modelled, as one type: the routes
    of internal/api/server.go, the sweeps of internal/scheduler and
    internal/archiver, and what a worker does.  [reachable] is what they make of
    an initial database, one after the other and interleaved, their calls
    succeeding or failing as they like. *)

From S2P Require Import Prelude Schema Fl Pool Jobs Sched Cron Archiver Password Worker Api ApiJobs ApiAdmin Accounts Views Stats Detail Ai Summaries Rollup GoLogic.

#[local] Open Scope string_scope.
#[local] Open Scope list_scope.
#[local] Open Scope Z_scope.

(** The code the services call and that is not part of the repository. *)
Record Externals := mkExternals {
  x_uuid_Parse : string → option uuid;
  x_uuid_String : uuid → string;
  x_json_Valid : string → bool;
  x_json_canon : string → string;
  x_sha256_hex : string → string;
  x_md5 : string → string;
  x_Location : Type;
  x_CronSchedule : Type;
  x_LoadLocation : string → option x_Location;
  x_ParseStandard : string → option x_CronSchedule;
  x_Next : x_CronSchedule → x_Location → timestamp → timestamp;
  x_tz_known : string → bool;
  x_collation : string → Z;
  x_Format : timestamp → string;
  x_argon2_Version : N;
  x_IDKey : string → string → Z → Z → Z → nat → string;
}.

(** ** The routes of internal/api/server.go *)

Inductive route :=
  | PostRegister (salt : string) (r : Request registerReq)
  | PostLogin (sid : uuid) (r : Request loginReq)
  | PostLogout (r : Request unit)
  | PostOrgs (r : Request nameReq)
  | ListOrgs (r : Request unit)
  | GetOrg (r : Request unit)
  | PatchOrg (r : Request nameReq)
  | PostMembers (r : Request memberReq)
  | PostProjects (r : Request nameReq)
  | ListProjects (r : Request unit)
  | GetProject (r : Request unit)
  | PatchProject (r : Request nameReq)
  | ListPolicies (r : Request unit)
  | GetPolicy (r : Request unit)
  | ListQueues (r : Request unit)
  | ListSchedules (r : Request unit)
  | GetSchedule (r : Request unit)
  | ListJobs (r : Request unit)
  | ListDLQ (r : Request unit)
  | ListEvents (r : Request unit)
  | ListWorkers (r : Request unit)
  | GetJob (r : Request unit)
  | GetProjectHealth (r : Request unit)
  | GetQueueStats (r : Request unit)
  | GetQueueSeries (r : Request unit)
  | GetFailureSummary (ready : bool) (r : Request unit)
  | PostPolicies (r : Request policyReq)
  | PatchPolicy (r : Request policyReq)
  | DeletePolicy (r : Request unit)
  | PostQueues (r : Request queueReq)
  | GetQueue (r : Request unit)
  | PatchQueue (r : Request queueReq)
  | PauseQueue (r : Request unit)
  | ResumeQueue (r : Request unit)
  | PostSchedules (r : Request scheduleReq)
  | PatchSchedule (r : Request scheduleReq)
  | PauseSchedule (r : Request unit)
  | ResumeSchedule (r : Request unit)
  | PostJobs (r : Request submitReq)
  | PostBatch (batchID : uuid) (r : Request (list submitReq))
  | CancelJob (r : Request unit)
  | RetryJob (r : Request unit)
  | ReplayQueue (r : Request bulkReplayReq)
  | ReplayJob (r : Request unit)
  | GetBatch (r : Request unit).

Section routes.
Context (X : Externals).

Definition serve (rt : route) : go Response :=
  let Parse := x_uuid_Parse X in
  let byID {B} name fn : locator B := byPath Parse name fn in
  let hash := hashPassword (x_argon2_Version X) (x_IDKey X) in
  let verify := verifyPassword (x_IDKey X) in
  match rt with
  | PostRegister salt r => public (register hash salt) r
  | PostLogin sid r => public (login (x_uuid_String X) verify sid) r
  | PostLogout r => guard Parse viewer "" "" none logout r
  | PostOrgs r => guard Parse viewer "" "" none createOrg r
  | ListOrgs r => guard Parse viewer "" "" none listOrgs r
  | GetOrg r => guard Parse viewer "" "org" (byID "id" orgScope) getOrg r
  | PatchOrg r => guard Parse admin "org.update" "org" (byID "id" orgScope) updateOrg r
  | PostMembers r => guard Parse admin "org.add_member" "org" (byID "id" orgScope) addMember r
  | PostProjects r => guard Parse admin "project.create" "project" (byID "orgId" orgScope) createProject r
  | ListProjects r => guard Parse viewer "" "project" (byID "orgId" orgScope) listProjects r
  | GetProject r => guard Parse viewer "" "project" (byID "id" projectScope) getProject r
  | PatchProject r => guard Parse admin "project.update" "project" (byID "id" projectScope) updateProject r
  | ListPolicies r => guard Parse viewer "" "retry_policy" (byID "projectId" projectScope)
      (listPolicies (x_collation X)) r
  | GetPolicy r => guard Parse viewer "" "retry_policy" (byID "id" policyScope) getPolicy r
  | ListQueues r => guard Parse viewer "" "queue" (byID "projectId" projectScope) (listQueues (x_collation X)) r
  | ListSchedules r => guard Parse viewer "" "schedule" (byID "id" queueScope) (listSchedules (x_collation X)) r
  | GetSchedule r => guard Parse viewer "" "schedule" (byID "id" scheduleScope) getSchedule r
  | ListJobs r => guard Parse viewer "" "job" (byProjectOrQueue Parse) (listJobs Parse (x_uuid_String X)) r
  | ListDLQ r => guard Parse viewer "" "job" (byProjectOrQueue Parse) (listDLQ Parse (x_uuid_String X)) r
  | ListEvents r => guard Parse viewer "" "project" (byID "projectId" projectScope) listEvents r
  | ListWorkers r => guard Parse viewer "" "worker" (byProjectQuery Parse) listWorkers r
  | GetJob r => guard Parse viewer "" "job" (byID "id" jobScope) getJob r
  | GetProjectHealth r =>
    guard Parse viewer "" "project" (byID "projectId" projectScope) (projectHealth (x_collation X)) r
  | GetQueueStats r => guard Parse viewer "" "queue" (byID "id" queueScope) queueStats r
  | GetQueueSeries r => guard Parse viewer "" "queue" (byID "id" queueScope) queueSeries r
  | GetFailureSummary ready r => guard Parse viewer "" "queue" (byID "id" queueScope)
      (failureSummary (x_collation X) (x_md5 X) ready) r
  | PostPolicies r => guard Parse admin "policy.create" "retry_policy" (byID "projectId" projectScope) createPolicy r
  | PatchPolicy r => guard Parse admin "policy.update" "retry_policy" (byID "id" policyScope) updatePolicy r
  | DeletePolicy r => guard Parse admin "policy.delete" "retry_policy" (byID "id" policyScope) deletePolicy r
  | PostQueues r => guard Parse admin "queue.create" "queue" (byID "projectId" projectScope) (createQueue Parse) r
  | GetQueue r => guard Parse viewer "" "queue" (byID "id" queueScope) getQueue r
  | PatchQueue r => guard Parse admin "queue.update" "queue" (byID "id" queueScope) (updateQueue Parse) r
  | PauseQueue r => guard Parse member "queue.pause" "queue" (byID "id" queueScope) pauseQueue r
  | ResumeQueue r => guard Parse member "queue.resume" "queue" (byID "id" queueScope) resumeQueue r
  | PostSchedules r => guard Parse admin "schedule.create" "schedule" (byID "id" queueScope)
      (createSchedule (x_LoadLocation X) (x_ParseStandard X) (x_Next X) (x_tz_known X) (x_json_Valid X)) r
  | PatchSchedule r => guard Parse admin "schedule.update" "schedule" (byID "id" scheduleScope)
      (updateSchedule (x_LoadLocation X) (x_ParseStandard X) (x_Next X) (x_tz_known X) (x_json_Valid X)) r
  | PauseSchedule r => guard Parse member "schedule.pause" "schedule" (byID "id" scheduleScope) pauseSchedule r
  | ResumeSchedule r => guard Parse member "schedule.resume" "schedule" (byID "id" scheduleScope) resumeSchedule r
  | PostJobs r => guard Parse member "job.submit" "job" (byID "id" queueScope)
      (submitJob Parse (x_uuid_String X) (x_json_Valid X) (x_json_canon X) (x_sha256_hex X)) r
  | PostBatch b r => guard Parse member "job.submit_batch" "batch" (byID "id" queueScope)
      (submitBatch (x_json_Valid X) b) r
  | CancelJob r => guard Parse member "job.cancel" "job" (byID "id" jobScope) cancelJob r
  | RetryJob r => guard Parse member "job.retry" "job" (byID "id" jobScope) retryJob r
  | ReplayQueue r => guard Parse member "job.replay_bulk" "queue" (byID "id" queueScope) replayQueue r
  | ReplayJob r => guard Parse member "job.replay" "job" (byID "jobId" jobScope) (replayJob (x_uuid_String X)) r
  | GetBatch r => guard Parse viewer "" "batch" (byID "id" batchScope) getBatch r
  end.

(** ** All operations *)

Inductive op :=
  | OpServe (rt : route)
  | OpClaim (req : ClaimRequest)
  | OpRunOne (cfg : Config) (hs : gmap string Handler) (live : nat → bool)
      (stopping aborted : bool) (c : Claimed)
  | OpFlush (cfg : Config) (live : nat → bool) (buf : list finished)
  | OpRegister (q : uuid) (host : string) (pid_ conc : Z)
  | OpBeat (i : uuid)
  | OpRetire (i : uuid) (state : string)
  | OpAnnounce (cfg : Config) (types : list string)
  | OpPromote (limit : Z)
  | OpAge (older : duration) (ceiling limit : Z)
  | OpReap (limit : Z)
  | OpSweep (limit : Z)
  | OpBreaker (window trip : Z) (cooldown : duration)
  | OpNotify (since : Z)
  | OpMaterialize (limit : Z)
  | OpArchive (after deadLetter : duration) (limit : Z)
  | OpPrune
  | OpRollup (lookback : duration)
  | OpSummarize (ready : bool) (ask : nat → string → err + Reply) (limit : Z)
  (* the single calls of the functions that make several *)
  | OpAdmit (q : uuid) (want : Z)
  | OpTake (req : ClaimRequest) (sh n : Z)
  | OpRelease (q : uuid) (sh n : Z)
  | OpReconcile
  | OpStart (i : uuid) (f : Z) (worker : uuid)
  | OpExtend (i : uuid) (f : Z) (lease : duration) (p : option string)
  | OpProbe (i : uuid) (f : Z) (worker : uuid)
  | OpCloseExecution (exec : uuid) (st : Status)
  | OpAppendLogs (exec : uuid) (ls : list LogLine)
  | OpComplete (i : uuid) (f : Z) (exec : uuid)
  | OpFail (i : uuid) (f : Z) (cause : option Cause)
  | OpSnooze (i : uuid) (f : Z) (exec : uuid) (delay : duration)
  | OpCompleteBatch (batch : list Done)
  | OpReportLost (i : uuid).

(** [m], its value dropped. *)
Definition ignore {A} (m : go A) : go unit := _ ← m; mret tt.

Definition run_op (o : op) : go unit :=
  match o with
  | OpServe rt => ignore (serve rt)
  | OpClaim req => ignore (Claim req)
  | OpRunOne cfg hs live stopping aborted c => ignore (runOne cfg hs live stopping aborted c)
  | OpFlush cfg live buf => flush cfg live buf
  | OpRegister q host p conc => ignore (Register q host p conc)
  | OpBeat i => beat i
  | OpRetire i st => retire i st
  | OpAnnounce cfg types => announce cfg types
  | OpPromote limit => ignore (Promote limit)
  | OpAge older ceiling limit => ignore (Age older ceiling limit)
  | OpReap limit => ignore (Reap limit)
  | OpSweep limit => ignore (SweepOrphanExecutions limit)
  | OpBreaker window trip cooldown => ignore (Breaker window trip cooldown)
  | OpNotify since => ignore (Notify since)
  | OpMaterialize limit => ignore (Materialize (x_LoadLocation X) (x_ParseStandard X) (x_Next X) limit)
  | OpArchive after dl limit => ignore (Archive after dl limit)
  | OpPrune => ignore Prune
  | OpRollup lookback => ignore (Rollup lookback)
  | OpSummarize ready ask limit => ignore (Summarize (x_collation X) (x_md5 X) (x_Format X) ready ask limit)
  | OpAdmit q want => ignore (admit_slots q want)
  | OpTake req sh n => ignore (take_jobs req sh n)
  | OpRelease q sh n => pool_exec (λ _, queue_release q sh n)
  | OpReconcile => ignore ReconcileInFlight
  | OpStart i f worker => ignore (Start i f worker)
  | OpExtend i f lease p => ignore (ExtendLease i f lease p)
  | OpProbe i f worker => ignore (Probe i f worker)
  | OpCloseExecution exec st => CloseExecution exec st
  | OpAppendLogs exec ls => AppendLogs exec ls
  | OpComplete i f exec => Complete i f exec
  | OpFail i f cause => Fail i f cause
  | OpSnooze i f exec delay => Snooze i f exec delay
  | OpCompleteBatch batch => ignore (CompleteBatch batch)
  | OpReportLost i => ignore (pool_exec (reportLostSQL i))
  end.

(** ** Runs

    What the processes of the system do to the database: nothing, one operation
    between whose calls other processes run, or one run after another.  Since
    the single calls are operations too, the calls of two operations may come in
    any order.  The calls of an operation are counted from [k] on. *)

Inductive process : (DB → DB) → Prop :=
  | process_id : process (λ db, db)
  | process_run o calls k :
      (∀ n, process (c_other (calls n))) → process (λ db, final_db (run_op o) (mkWorld db None calls k))
  | process_seq f g : process f → process g → process (λ db, g (f db)).

Definition reachable (db0 db : DB) : Prop := ∃ f, process f ∧ f db0 = db.

(** ** Lemmas *)

(** What every operation keeps, when the processes at work between its calls
    keep it, holds of every reachable database. *)
Lemma reachable_inv (P : DB → Prop) db0 db :
  (∀ o w, at_rest P w → P (final_db (run_op o) w)) → P db0 → reachable db0 db → P db.
Proof.
  intros Hop HP (f & Hf & <-). revert db0 HP.
  induction Hf as [|o calls k Hc IH|f g Hf IHf Hg IHg]; intros db0 HP; [done| |by apply IHg, IHf].
  apply Hop. split_and!; [done|done|]. intros n db. apply IH.
Qed.

Lemma reachable_trans db0 db1 db2 : reachable db0 db1 → reachable db1 db2 → reachable db0 db2.
Proof.
  intros (f & Hf & <-) (g & Hg & <-). exists (λ db, g (f db)). split; [by constructor|done].
Qed.

Lemma reachable_run db0 o calls :
  (∀ n, process (c_other (calls n))) → reachable db0 (final_db (run_op o) (start db0 calls)).
Proof. intros Hc. eexists. split; [by apply (process_run o calls 0)|done]. Qed.

End routes.
