(* ===== verification/Fixture.v ===== *)
(** * A small database, to run the definitions on

    One project with a retry policy, a queue of two shards and three slots, a
    worker, and jobs in most of the states.  The identifiers are small numbers;
    [uuid_Parse] reads a text of length [n] as the identifier [n]. *)

From S2P Require Import Prelude Schema Fl Pool Jobs Api ApiJobs System.

(** A text of length [n]. *)
Fixpoint text (n : nat) : string :=
  match n with O => ""%string | S n' => String (Ascii.ascii_of_nat 120) (text n') end.

Definition text_id (i : uuid) : string := text (N.to_nat i).

(** The first [n] bytes of a text, filled up. *)
Fixpoint pad (n : nat) (s : string) : string :=
  match n, s with
  | O, _ => ""%string
  | S n', String c s' => String c (pad n' s')
  | S n', EmptyString => String (Ascii.ascii_of_nat 48) (pad n' EmptyString)
  end.

Definition X0 : Externals :=
  mkExternals
    (λ s, if decide (s = ""%string) then None else Some (N.of_nat (String.length s)))
    text_id (λ _, true) (λ s, s) (λ s, s) (λ s, s)
    unit Z (λ tz, if decide (tz = "UTC"%string) then Some tt else None)
    (λ e, if decide (e = "hourly"%string) then Some 3600000000 else None)
    (λ period _ t, (t / period + 1) * period)
    (λ _, true) (λ s, Z.of_nat (String.length s)) (λ _, ""%string) 19 (λ pw salt _ _ _ n, pad n (pw +:+ salt)%string).

(** A quarter of an hour after the epoch, in microseconds. *)
Definition t0 : Z := 900000000.

Definition env0 : Env := mkEnv t0 7 (1 # 2) true ∅ (λ n, 100 + N.of_nat n)%N.

(** The same, [d] microseconds later. *)
Definition later (d : Z) : Env := mkEnv (t0 + d) 7 (1 # 2) true ∅ (λ n, 200 + N.of_nat n)%N.

Definition policy0 : Policy := mkPolicy 2 "default" bk_exponential 3 3 1000 60000 false.

Definition queue0 : Queue :=
  mkQueue 2 "mail" false 3 0 3 (Some 10) 0 0 br_closed None 0 2 0.

(** A queued job of type [typ]. *)
Definition job0 (typ : string) (prio : Z) (at_ : timestamp) : Job :=
  mkJob 2 4 None None None typ "{}" js_queued prio at_ 0 0 0 0 None None 300000 3 0 0 0
    None None None.

(** Job 14: running under fence 2, claimed by worker 5 on shard 0. *)
Definition running0 : Job :=
  mkJob 2 4 None None None "send" "{}" js_running 0 0 2 1 0 0 (Some 5%N) (Some (t0 + 100000000))
    300000 3 0 0 0 (Some 800000000) (Some 810000000) None.

(** Job 15: dead after three attempts.  Job 16: waits for job 14. *)
Definition dead0 : Job :=
  mkJob 2 4 None None None "send" "{}" js_dead_letter 0 0 3 3 0 0 None None
    300000 3 0 0 0 None None (Some 700000000).
Definition child0 : Job :=
  mkJob 2 4 None None None "notify" "{}" js_scheduled 0 0 0 0 0 0 None None
    300000 3 1 0 0 None None None.

Definition db0 : DB :=
  empty_db
    <| jobs := {[ 10%N := job0 "send" 0 100; 11%N := job0 "send" 5 300; 12%N := job0 "send" 5 200;
                  13%N := job0 "print" 9 100; 14%N := running0; 15%N := dead0; 16%N := child0 ]} |>
    <| leases := {[ 14%N := mkLease 2 5 (t0 + 30000000) None 810000000 ]} |>
    <| execs := {[ 20%N := mkExec 14 4 1 0 2 5 None None None 810000000 None ]} |>
    <| dead_letters := {[ 15%N := mkDeadLetter 4 2 dr_attempts_exhausted None None [] 700000000 None None ]} |>
    <| deps := {[ (14%N, 16%N) ]} |>
    <| queues := {[ 4%N := queue0 ]} |>
    <| queue_shards := {[ (4%N, 0) := mkShard 1 0 0; (4%N, 1) := mkShard 0 0 0 ]} |>
    <| policies := {[ 3%N := policy0 ]} |>
    <| workers := {[ 5%N := mkWorker 2 "host" 1 4 "active" 0 0 [] ]} |>
    <| users := {[ 6%N := mkUser "a@b" "x" None 0 ]} |>
    <| sessions := {[ 7%N := mkSession 6 0 (t0 + 1000000000) None ]} |>
    <| org_members := {[ (1%N, 6%N) := "member"%string ]} |>
    <| organizations := {[ 1%N := mkOrg "acme" 0 ]} |>
    <| projects := {[ 2%N := mkProject 1 "shop" 0 ]} |>.

(** Worlds in which every call succeeds and nobody else is at work. *)
Definition w0 : World := start db0 (quiet env0).
Definition w_at (d : Z) : World := start db0 (quiet (later d)).

(** A request of the user's session on entity [n]. *)
Definition request {B} (n : nat) (b : B) : Request B :=
  mkRequest B (λ h, if decide (h = "Authorization"%string) then "Bearer xxxxxxx"%string else ""%string)
    None [] (λ _, text n) (λ _, ""%string) (Some b) "rid".

Definition claim0 (n : Z) (types : option (list string)) : ClaimRequest :=
  mkClaimRequest 4 5 n 30000000000 types.
