(* ===== verification/Migrations.v ===== *)
(** * The migrations converge

    However often the runner is started and wherever it is cut off, the schema is
    the one the first migrations make, in the order of their versions, and the
    table names exactly these. *)

From S2P Require Import Prelude Text Schema Pool Migrate.

#[local] Open Scope string_scope.
#[local] Open Scope list_scope.
#[local] Open Scope Z_scope.

(** ** The order of the versions *)

Lemma str_lt_irrefl a : str_lt a a = false.
Proof. induction a as [|x a IH]; simpl; [done|]. by rewrite Z.eqb_refl. Qed.

Lemma str_lt_trans a b c : str_lt a b = true → str_lt b c = true → str_lt a c = true.
Proof.
  revert b c. induction a as [|x a IH]; intros [|y b] [|z c]; simpl; try done.
  destruct (Z.eqb_spec (byte_of x) (byte_of y)), (Z.eqb_spec (byte_of y) (byte_of z)),
    (Z.eqb_spec (byte_of x) (byte_of z)); rewrite ?Z.ltb_lt; try lia; eauto.
Qed.

Lemma byte_of_inj x y : byte_of x = byte_of y → x = y.
Proof.
  unfold byte_of. intros H%N2Z.inj. rewrite <- (Ascii.ascii_N_embedding x), <- (Ascii.ascii_N_embedding y).
  by rewrite H.
Qed.

Lemma str_lt_total a b : str_lt a b = false → str_lt b a = false → a = b.
Proof.
  revert b. induction a as [|x a IH]; intros [|y b]; simpl; try done.
  destruct (Z.eqb_spec (byte_of x) (byte_of y)) as [E|E].
  - rewrite E, Z.eqb_refl. intros. f_equal; [by apply byte_of_inj|auto].
  - destruct (Z.eqb_spec (byte_of y) (byte_of x)); [congruence|]. rewrite !Z.ltb_ge. lia.
Qed.

(** Not greater is a total preorder. *)
Lemma str_le_total a b : str_lt b a = false ∨ str_lt a b = false.
Proof.
  destruct (str_lt b a) eqn:E; [|by left]. right. apply not_true_is_false. intros E'.
  pose proof (str_lt_trans _ _ _ E E') as H. by rewrite str_lt_irrefl in H.
Qed.

Lemma str_le_trans a b c : str_lt b a = false → str_lt c b = false → str_lt c a = false.
Proof.
  intros H1 H2. apply not_true_is_false. intros H3. destruct (str_lt b c) eqn:E.
  - by rewrite (str_lt_trans _ _ _ E H3) in H1.
  - rewrite (str_lt_total _ _ E H2) in H1. congruence.
Qed.

#[export] Instance version_le_total : Total version_le.
Proof. intros a b. apply str_le_total. Qed.

#[export] Instance version_le_trans : Transitive version_le.
Proof. intros a b c. apply str_le_trans. Qed.

(** ** What is loaded *)

(** The migration of a file, if it is one and can be read. *)
Definition migration_of (f : File) : option Migration :=
  '(v, n) ← namePattern (fl_name f);
  match fl_body f with inr body => Some (mkMigration v n body) | inl _ => None end.

Lemma load_files_spec files out all :
  load_files out files = inr all → NoDup (Version <$> out) →
  all = out ++ omap migration_of files ∧ NoDup (Version <$> all).
Proof.
  revert out. induction files as [|f files IH]; intros out; simpl.
  { intros [= <-] Hn. by rewrite app_nil_r. }
  unfold migration_of at 1. destruct (namePattern (fl_name f)) as [[v n]|]; simpl; [|by apply IH].
  case_decide as Hv; [done|]. destruct (fl_body f) as [e|body]; [done|]. intros Hl Hn.
  apply IH in Hl as [-> Hnd].
  - split; [by rewrite <- app_assoc|done].
  - rewrite fmap_app. apply list.NoDup_app. split; [done|]. split; [|apply NoDup_singleton].
    intros x Hx ->%list_elem_of_singleton. done.
Qed.

Definition ascending_versions (l : list Migration) : Prop :=
  StronglySorted (λ a b, str_lt (Version a) (Version b) = true) l.

Lemma Load_spec files all :
  Load (inr files) = inr all →
  all ≡ₚ omap migration_of files ∧ ascending_versions all ∧ NoDup (Version <$> all).
Proof.
  unfold Load. destruct (load_files [] files) as [|out] eqn:Hl; [done|]. intros [= <-].
  destruct (load_files_spec _ _ _ Hl) as [-> Hn]; [constructor|]. simpl in *.
  assert (NoDup (Version <$> merge_sort version_le (omap migration_of files))) as Hn'
    by by rewrite merge_sort_Permutation.
  split; [apply merge_sort_Permutation|]. split; [|done].
  pose proof (StronglySorted_merge_sort version_le (omap migration_of files)) as Hs.
  revert Hs Hn'. generalize (merge_sort version_le (omap migration_of files)). clear.
  induction 1 as [|a l Hs IH Hall]; simpl; [constructor|]. intros [Hni Hnd]%list.NoDup_cons.
  constructor; [by apply IH|]. rewrite list.Forall_forall in *. intros b Hb. specialize (Hall b Hb).
  unfold version_le in Hall. destruct (str_lt (Version a) (Version b)) eqn:E; [done|].
  destruct Hni. rewrite (str_lt_total _ _ E Hall). apply list_elem_of_fmap. eauto.
Qed.

Lemma Load_NoDup dir all : Load dir = inr all → NoDup (Version <$> all).
Proof. destruct dir as [|files]; [done|]. intros H. by apply Load_spec in H as (_ & _ & ?). Qed.

(** ** One migration *)

Section runs.
Context {S : Type} (exec_sql : string → S → sqlstate + S) (Error : err → string).
Implicit Types (w : MWorld (S:=S)) (db : MDB (S:=S)) (ms all : list Migration).

(** The migrations of [ms] one after the other. *)
Fixpoint exec_all ms (s : S) : sqlstate + S :=
  match ms with
  | [] => inr s
  | m :: ms => match exec_sql (SQL m) s with inl c => inl c | inr s' => exec_all ms s' end
  end.

Definition rows_of ms : list (string * string) := (λ m, (Version m, Name m)) <$> ms.

Definition recorded db : list (string * string) := default [] (applied_rows db).

(** [db'] is [db] with the migrations of [ms] applied. *)
Record migrated ms db db' : Prop := {
  mg_schema : exec_all ms (schema db) = inr (schema db');
  mg_rows : applied_rows db' = (λ rows, rows ++ rows_of ms) <$> applied_rows db;
  mg_locked : locked db' = locked db;
}.

Definition faultless w : Prop := ∀ n, mw_faults w n = NoFault.

Lemma exec_all_app ms ms' s :
  exec_all (ms ++ ms') s = match exec_all ms s with inl c => inl c | inr s' => exec_all ms' s' end.
Proof. revert s. induction ms as [|m ms IH]; intros s; simpl; [done|]. destruct (exec_sql _ s); [done|apply IH]. Qed.

Lemma migrated_nil db : migrated [] db db.
Proof. split; try done. destruct (applied_rows db); simpl; [by rewrite app_nil_r|done]. Qed.

Lemma migrated_cons m ms db db1 db2 : migrated [m] db db1 → migrated ms db1 db2 → migrated (m :: ms) db db2.
Proof.
  intros [H1 H2 H3] [H4 H5 H6]. split; [| |congruence].
  - simpl in *. by destruct (exec_sql _ _); simplify_eq.
  - rewrite H5, H2. destruct (applied_rows db); simpl; [by rewrite <- app_assoc|done].
Qed.

(** A call: it failed before anything happened, or it had its effect, the answer
    being lost perhaps. *)
Lemma call_spec {A} (f : MDB → err + A * MDB) w r w' :
  call f w = (r, w') →
  mw_faults w' = mw_faults w ∧
  match r with
  | inr a => f (mw_db w) = inr (a, mw_db w')
  | inl _ => mw_db w' = mw_db w ∨ ∃ a, f (mw_db w) = inr (a, mw_db w')
  end ∧
  (faultless w → ∀ a db, f (mw_db w) = inr (a, db) → r = inr a).
Proof.
  unfold call, faultless. destruct (mw_faults w (mw_n w)) eqn:E, (f (mw_db w)) as [e0|[a db]] eqn:Hf;
    intros [= <- <-]; (split; [done|]); (split; [by eauto|]); intros Hall; try (by rewrite Hall in E); naive_solver.
Qed.

Lemma body_migrated m db db1 db2 :
  migration_sql exec_sql m db = inr (tt, db1) → record_migration m db1 = inr (tt, db2) → migrated [m] db db2.
Proof.
  unfold migration_sql, record_migration. destruct (exec_sql _ _) as [|s] eqn:He; [done|]. intros [= <-]. simpl.
  destruct (applied_rows db) as [rows|] eqn:Hr; [|done]. case_decide; [done|]. intros [= <-].
  split; simpl; [by rewrite He|by rewrite Hr|done].
Qed.

(** A migration is applied or not; when it is not, an error is returned. *)
Lemma apply_spec m w r w' :
  Migrate.apply exec_sql Error m w = (r, w') →
  mw_faults w' = mw_faults w ∧
  (mw_db w' = mw_db w ∧ (∃ e, r = inl e) ∨ migrated [m] (mw_db w) (mw_db w')) ∧
  (faultless w → (∃ s, exec_sql (SQL m) (schema (mw_db w)) = inr s) →
   (∃ rows, applied_rows (mw_db w) = Some rows ∧ Version m ∉ rows.*1) → r = inr tt).
Proof.
  unfold Migrate.apply, in_tx. intros Hrun. destruct (call _ w) as [r1 w1] eqn:Hc1.
  apply call_spec in Hc1 as (Hf1 & Hdb1 & Hok1).
  assert (mw_db w1 = mw_db w) as Hdb by (destruct r1; [destruct Hdb1 as [|[? ?]]|]; naive_solver).
  destruct r1 as [e|[]].
  { injection Hrun as <- <-. split; [done|]. split; [left; eauto|]. intros Hall. by specialize (Hok1 Hall _ _ eq_refl). }
  clear Hdb1 Hok1. unfold mbind, mig_bind, wrapping in Hrun.
  destruct (call (migration_sql exec_sql m) w1) as [r2 w2] eqn:Hc2. apply call_spec in Hc2 as (Hf2 & Hdb2 & Hok2).
  assert (faultless w → faultless w1) as Hfl1 by (unfold faultless; by rewrite Hf1).
  destruct r2 as [e|[]].
  { injection Hrun as <- <-. simpl. split; [congruence|]. split; [left; eauto|].
    intros Hall [s Hs] _. unfold migration_sql in Hok2. rewrite Hdb, Hs in Hok2.
    by specialize (Hok2 (Hfl1 Hall) _ _ eq_refl). }
  destruct (call (record_migration m) w2) as [r3 w3] eqn:Hc3. apply call_spec in Hc3 as (Hf3 & Hdb3 & Hok3).
  assert (faultless w → faultless w2) as Hfl2 by (unfold faultless; by rewrite Hf2, Hf1).
  destruct r3 as [e|[]].
  { injection Hrun as <- <-. simpl. split; [congruence|]. split; [left; eauto|].
    intros Hall _ (rows & Hr & Hn). unfold record_migration in Hok3.
    assert (applied_rows (mw_db w2) = Some rows) as Hr2.
    { unfold migration_sql in Hdb2. destruct (exec_sql _ _); [done|]. injection Hdb2 as <-. by rewrite Hdb. }
    rewrite Hr2, decide_False in Hok3 by done. by specialize (Hok3 (Hfl2 Hall) _ _ eq_refl). }
  assert (migrated [m] (mw_db w) (mw_db w3)) as Hm by (rewrite <- Hdb; by eapply body_migrated).
  destruct (mw_faults w3 (mw_n w3)) eqn:E; injection Hrun as <- <-; simpl;
    (split; [congruence|]); (split; [by eauto|]); intros Hall; try done;
    by rewrite Hf3, (Hfl2 Hall) in E.
Qed.

(** ** All of them *)

(** The migrations that are not recorded. *)
Definition pending (done : list string) all : list Migration := filter (λ m, Version m ∉ done) all.

Lemma apply_all_spec done applied all w r w' :
  NoDup (Version <$> all) → apply_all exec_sql Error done applied all w = (r, w') →
  ∃ ms rest ap e, r = inr (applied ++ ap, e) ∧ pending done all = ms ++ rest ∧
    migrated ms (mw_db w) (mw_db w') ∧ ap `prefix_of` (Version <$> ms) ∧
    (e = None → rest = [] ∧ ap = Version <$> ms) ∧ mw_faults w' = mw_faults w ∧
    (faultless w → (∃ s, exec_all (pending done all) (schema (mw_db w)) = inr s) →
     (∃ rows, applied_rows (mw_db w) = Some rows ∧ ∀ m, m ∈ pending done all → Version m ∉ rows.*1) → e = None).
Proof.
  revert applied w r w'. induction all as [|m all IH]; intros applied w r w' Hnd Hrun; simpl in Hrun.
  { injection Hrun as <- <-. exists [], [], [], None. rewrite app_nil_r. split_and!; try done. apply migrated_nil. }
  simpl in Hnd. apply list.NoDup_cons in Hnd as [Hni Hnd]. unfold pending. rewrite filter_cons.
  destruct (decide (Version m ∈ done)) as [Hin|Hnin].
  { rewrite decide_False by tauto. by apply IH. }
  rewrite decide_True by done. fold (pending done all).
  unfold mbind, mig_bind, logging in Hrun. set (w0 := w <| mw_log := _ |>) in Hrun.
  destruct (Migrate.apply exec_sql Error m w0) as [r1 w1] eqn:Ha. apply apply_spec in Ha as (Hf1 & Hm1 & Hok1).
  change (mw_db w0) with (mw_db w) in *. change (mw_faults w0) with (mw_faults w) in *.
  assert (faultless w → faultless w0 ∧ faultless w1) as Hfl by (unfold faultless; by rewrite Hf1).
  destruct r1 as [e|[]].
  - injection Hrun as <- <-. assert (faultless w →
      (∃ s, exec_all (m :: pending done all) (schema (mw_db w)) = inr s) →
      (∃ rows, applied_rows (mw_db w) = Some rows ∧ ∀ m', m' ∈ m :: pending done all → Version m' ∉ rows.*1) →
      Some e = None) as Hfail.
    { intros Hall [s Hs] (rows & Hr & Hrows). simpl in Hs. destruct (exec_sql (SQL m) _) as [|s1] eqn:He; [done|].
      enough (inl e = inr tt :> err + unit) by done. apply Hok1; [by apply Hfl|eauto|]. exists rows. split; [done|].
      apply Hrows. by left. }
    destruct Hm1 as [[Hdb _]|Hm1].
    + exists [], (m :: pending done all), [], (Some e). rewrite app_nil_r, Hdb. split_and!; try done. apply migrated_nil.
    + exists [m], (pending done all), [], (Some e). rewrite app_nil_r. split_and!; try done. apply prefix_nil.
  - destruct Hm1 as [[_ [? ?]]|Hm1]; [done|].
    destruct (IH _ _ _ _ Hnd Hrun) as (ms & rest & ap & e & -> & Hp & Hm & Hap & He & Hf & Hok).
    exists (m :: ms), rest, (Version m :: ap), e. split_and!; [by rewrite <- app_assoc|by rewrite Hp|by eapply migrated_cons|by apply prefix_cons| |congruence|].
    + intros ->. destruct (He eq_refl) as [-> ->]. done.
    + intros Hall [s Hs] (rows & Hr & Hrows). apply Hok; [by apply Hfl| |].
      * exists s. simpl in Hs. pose proof (mg_schema _ _ _ Hm1) as H1. simpl in H1.
        by destruct (exec_sql (SQL m) _); simplify_eq.
      * exists (rows ++ rows_of [m]). rewrite (mg_rows _ _ _ Hm1), Hr. split; [done|].
        intros m' Hm' Hin. rewrite fmap_app, elem_of_app in Hin. destruct Hin as [Hin|Hin].
        { eapply Hrows; [by right|done]. }
        apply list_elem_of_singleton in Hin. apply list_elem_of_filter in Hm' as [_ Hm'].
        apply Hni. simpl in Hin. rewrite <- Hin. apply list_elem_of_fmap. eauto.
Qed.

(** What a run made of [db]: the first of the pending migrations were applied and
    recorded, in order; without an error all of them; and when nothing failed,
    there is none, and the lock is free again. *)
Definition ran all db (ap : list string) (e : option err) db' (undisturbed : Prop) : Prop :=
  let todo := pending ((recorded db).*1) all in
  ∃ ms rest, todo = ms ++ rest ∧ exec_all ms (schema db) = inr (schema db') ∧
    recorded db' = recorded db ++ rows_of ms ∧ ap `prefix_of` (Version <$> ms) ∧
    (e = None → rest = [] ∧ ap = Version <$> ms) ∧
    (undisturbed → (∃ s, exec_all todo (schema db) = inr s) → e = None ∧ locked db' = false).

Lemma ran_early all db e db' (undisturbed : Prop) :
  schema db' = schema db → recorded db' = recorded db → (undisturbed → False) →
  ran all db [] (Some e) db' undisturbed.
Proof.
  intros Hs Hr Hbad. exists [], (pending ((recorded db).*1) all). rewrite Hs, Hr, app_nil_r.
  split_and!; done.
Qed.

(** A call that has no effect on the schema and the record. *)
Lemma call_frame {A} (f : MDB → err + A * MDB) w r w' :
  (∀ db, ∃ a db', f db = inr (a, db') ∧ schema db' = schema db ∧ recorded db' = recorded db) →
  call f w = (r, w') →
  mw_faults w' = mw_faults w ∧ schema (mw_db w') = schema (mw_db w) ∧ recorded (mw_db w') = recorded (mw_db w) ∧
  match r with
  | inr a => f (mw_db w) = inr (a, mw_db w')
  | inl _ => faultless w → False
  end.
Proof.
  intros Hf Hc. apply call_spec in Hc as (Hfa & Hdb & Hok). destruct (Hf (mw_db w)) as (a & db' & Hrun & Hs & Hr).
  rewrite Hrun in *. split; [done|]. destruct r as [e|a'].
  - assert (schema (mw_db w') = schema (mw_db w) ∧ recorded (mw_db w') = recorded (mw_db w)) as [? ?].
    { destruct Hdb as [->|[a' Ha]]; [done|by simplify_eq]. }
    split_and!; try done. intros Hall. by specialize (Hok Hall _ _ eq_refl).
  - by simplify_eq.
Qed.

(** The part under the lock. *)
Lemma body_spec all w r w' :
  NoDup (Version <$> all) →
  (_ ← call create_table; done ← call list_versions; apply_all exec_sql Error done [] all) w = (r, w') →
  mw_faults w' = mw_faults w ∧ ∃ ap e,
    (r = inr (ap, e) ∨ (r = inl (default ErrCtx e) ∧ ap = [] ∧ e ≠ None)) ∧
    ran all (mw_db w) ap e ((mw_db w') <| locked := false |>) (faultless w).
Proof.
  intros Hnd. unfold mbind, mig_bind. intros Hrun.
  destruct (call create_table w) as [r1 w1] eqn:Hc1.
  apply call_frame in Hc1 as (Hf1 & Hs1 & Hr1 & Hc1); [|by intros db; eexists _, _].
  destruct r1 as [e|[]].
  { injection Hrun as <- <-. split; [done|]. exists [], (Some e). split; [by right|]. by apply ran_early. }
  assert (applied_rows (mw_db w1) = Some (recorded (mw_db w))) as Hrows by (injection Hc1 as <-; done).
  assert (faultless w → faultless w1) as Hfl1 by (unfold faultless; by rewrite Hf1).
  destruct (call list_versions w1) as [r2 w2] eqn:Hc2. apply call_spec in Hc2 as (Hf2 & Hdb2 & Hok2).
  unfold list_versions in Hdb2, Hok2. rewrite Hrows in Hdb2, Hok2.
  assert (mw_db w2 = mw_db w1) as Hdb.
  { destruct r2; [|by simplify_eq]. destruct Hdb2 as [?|[? ?]]; [done|by simplify_eq]. }
  destruct r2 as [e|done].
  { injection Hrun as <- <-. split; [congruence|]. exists [], (Some e). split; [by right|].
    apply ran_early; simpl; [by rewrite Hdb|rewrite <- Hr1; unfold recorded; simpl; by rewrite Hdb|].
    intros Hall. by specialize (Hok2 (Hfl1 Hall) _ _ eq_refl). }
  injection Hdb2 as <- _. apply apply_all_spec in Hrun; [|done].
  destruct Hrun as (ms & rest & ap & e & -> & Hp & [Hm1 Hm2 _] & Hap & He & Hf & Hok).
  rewrite Hdb, Hs1 in Hm1. rewrite Hdb, Hrows in Hm2. split; [congruence|]. exists ap, e. split; [by left|].
  exists ms, rest. unfold recorded at 2. simpl. rewrite Hm2. split_and!; try done.
  intros Hall Hall'. split; [|done]. apply Hok.
  - unfold faultless. rewrite Hf2, Hf1. apply Hall.
  - by rewrite Hdb, Hs1.
  - exists (recorded (mw_db w)). rewrite Hdb, Hrows. split; [done|]. by intros m [? _]%list_elem_of_filter.
Qed.

Lemma Migrate_spec dir all w r w' :
  Load dir = inr all → Migrate exec_sql Error dir w = (r, w') →
  ∃ ap e, r = inr (ap, e) ∧ ran all (mw_db w) ap e (mw_db w') (faultless w).
Proof.
  intros Hload. pose proof (Load_NoDup _ _ Hload) as Hnd. unfold Migrate. rewrite Hload. cbv zeta.
  unfold mbind at 1 2, mig_bind at 1 2.
  destruct (call _ w) as [r1 w1] eqn:Hc1.
  apply call_frame in Hc1 as (Hf1 & Hs1 & Hr1 & Hc1); [|by intros db; eexists _, _].
  destruct r1 as [e|[]]; [intros [= <- <-]; exists [], (Some e); split; [done|by apply ran_early]|].
  destruct (call _ w1) as [r2 w2] eqn:Hc2.
  apply call_frame in Hc2 as (Hf2 & Hs2 & Hr2 & Hc2); [|by intros db; eexists _, _].
  assert (faultless w → faultless w1 ∧ faultless w2) as Hfl by (unfold faultless; by rewrite Hf2, Hf1).
  destruct r2 as [e|[]].
  { intros [= <- <-]. exists [], (Some e). split; [done|]. apply ran_early; [congruence..|]. intros Hall.
    by apply Hc2, Hfl. }
  unfold deferred. destruct ((_ ← call create_table; _) w2) as [r3 w3] eqn:Hb.
  apply body_spec in Hb as (Hf3 & ap & e & Hr3 & Hran); [|done].
  destruct (call _ w3) as [r4 w4] eqn:Hc4. simpl.
  apply call_spec in Hc4 as (Hf4 & Hdb4 & Hok4).
  assert (schema (mw_db w4) = schema (mw_db w3) ∧ recorded (mw_db w4) = recorded (mw_db w3) ∧
    (faultless w → locked (mw_db w4) = false)) as (Hs4 & Hr4 & Hl4).
  { destruct r4 as [e4|[]]; [|injection Hdb4 as <-; done].
    assert (faultless w → False) as Hbad.
    { intros Hall. assert (inl e4 = inr tt :> err + unit); [|done]. eapply Hok4; [|done].
      unfold faultless. rewrite Hf3. by apply Hfl. }
    destruct Hdb4 as [->|[a Ha]]; [|injection Ha as _ <-]; split_and!; try done; intros Hall; by destruct (Hbad Hall). }
  assert (ran all (mw_db w) ap e (mw_db w4) (faultless w)) as Hran'.
  { destruct Hran as (ms & rest & H1 & H2 & H3 & H4 & H5 & H6). simpl in H2, H6.
    rewrite Hr2, Hr1 in *. rewrite Hs2, Hs1 in *. exists ms, rest. rewrite Hs4, Hr4.
    split_and!; try done. intros Hall Hs. split; [apply H6; [by apply Hfl|done]|by apply Hl4]. }
  destruct Hr3 as [->|(-> & -> & He)]; intros [= <- <-].
  - by exists ap, e.
  - destruct e as [e|]; [|done]. by exists [], (Some e).
Qed.

(** ** Run after run *)

(** The runner, started on [db]. *)
Definition run dir (faults : nat → fault) db := Migrate exec_sql Error dir (mkMWorld db faults 0 []).

(** The runner started time and again, the calls of each run failing as they may. *)
Definition after_runs dir db (l : list (nat → fault)) : MDB := foldl (λ db faults, mw_db (run dir faults db).2) db l.

Lemma rows_versions ms : (rows_of ms).*1 = Version <$> ms.
Proof. unfold rows_of. by rewrite <- list_fmap_compose. Qed.

Lemma pending_drop k all : NoDup (Version <$> all) → pending (Version <$> take k all) all = drop k all.
Proof.
  intros Hnd. transitivity (pending (Version <$> take k all) (take k all ++ drop k all)); [by rewrite take_drop|].
  unfold pending. rewrite list.filter_app.
  rewrite (filter_none _ (take k all)), (filter_every _ (drop k all)); [done|..].
  - intros m Hm Hin. rewrite <- (take_drop k all), fmap_app in Hnd. apply list.NoDup_app in Hnd as (_ & Hd & _).
    apply (Hd _ Hin), list_elem_of_fmap. eauto.
  - intros m Hm Hn. apply Hn, list_elem_of_fmap. eauto.
Qed.

(** The first [k] migrations were applied to [s0]. *)
Definition reached all (s0 : S) (k : nat) db : Prop :=
  exec_all (take k all) s0 = inr (schema db) ∧ recorded db = rows_of (take k all).

Lemma reached_run dir all s0 k faults db :
  Load dir = inr all → reached all s0 k db →
  ∃ ap e n, (run dir faults db).1 = inr (ap, e) ∧ reached all s0 n (mw_db (run dir faults db).2) ∧
    (e = None → (length all ≤ n)%nat ∧ ap = Version <$> drop k all) ∧
    ((∀ i, faults i = NoFault) → (∃ s, exec_all all s0 = inr s) →
     e = None ∧ locked (mw_db (run dir faults db).2) = false).
Proof.
  intros Hload [Hs Hr]. pose proof (Load_NoDup _ _ Hload) as Hnd.
  destruct (run dir faults db) as [r w'] eqn:Hrun.
  destruct (Migrate_spec _ _ _ _ _ Hload Hrun) as (ap & e & -> & ms & rest & Hp & Hms & Hrec & _ & He & Hok).
  simpl in *. rewrite Hr, rows_versions, pending_drop in Hp, Hok by done.
  assert (take (k + length ms) all = take k all ++ ms) as Htake.
  { rewrite <- (take_take_drop all k), Hp. by rewrite take_app_length. }
  exists ap, e, (k + length ms)%nat. split; [done|]. split; [split|split].
  - by rewrite Htake, exec_all_app, Hs.
  - rewrite Hrec, Hr, Htake. unfold rows_of. by rewrite fmap_app.
  - intros ->. destruct (He eq_refl) as [-> ->]. rewrite app_nil_r in Hp. rewrite Hp. split; [|done].
    apply (f_equal length) in Hp. rewrite length_drop in Hp. lia.
  - intros Hq [s Hall]. apply Hok; [exact Hq|]. rewrite <- (take_drop k all), exec_all_app, Hs in Hall. eauto.
Qed.

Lemma after_runs_reached dir all s0 l :
  Load dir = inr all → ∃ k, reached all s0 k (after_runs dir (mkMDB s0 None false) l).
Proof.
  intros Hload. assert (∀ db, (∃ k, reached all s0 k db) → ∃ k, reached all s0 k (after_runs dir db l)) as Hall.
  { induction l as [|f l IH]; intros db [k Hk]; simpl; [eauto|]. apply IH.
    destruct (reached_run _ _ _ _ f _ Hload Hk) as (? & ? & n & _ & Hn & _). eauto. }
  apply Hall. by exists 0%nat.
Qed.

(** C34 (safety): the migrations converge.  The files whose names are migrations are
    taken in the order of their versions, which are distinct.  However often the
    runner was started on an empty database and wherever each run was cut off - a
    call failing, or its answer being lost - the schema is the one the first [k]
    migrations make and the table records exactly these.  A further run that
    returns no error has applied the others, in order, and nothing twice; and it
    returns none, and gives the lock back, when no call fails and the migrations
    are accepted. *)
Theorem migrations_converge files all s0 l :
  Load (inr files) = inr all →
  all ≡ₚ omap migration_of files ∧ ascending_versions all ∧
  let db := after_runs (inr files) (mkMDB s0 None false) l in
  ∃ k, exec_all (take k all) s0 = inr (schema db) ∧ recorded db = rows_of (take k all) ∧
  ∀ faults, ∃ ap e, let db' := mw_db (run (inr files) faults db).2 in
    (run (inr files) faults db).1 = inr (ap, e) ∧
    (e = None → exec_all all s0 = inr (schema db') ∧ recorded db' = rows_of all ∧ ap = Version <$> drop k all) ∧
    ((∀ n, faults n = NoFault) → (∃ s, exec_all all s0 = inr s) → e = None ∧ locked db' = false).
Proof.
  intros Hload. destruct (Load_spec _ _ Hload) as (Hp & Ha & _). split; [done|]. split; [done|]. cbv zeta.
  destruct (after_runs_reached _ _ s0 l Hload) as [k Hk]. exists k. destruct Hk as [Hk1 Hk2] eqn:E. clear E.
  split; [done|]. split; [done|]. intros faults.
  destruct (reached_run _ _ _ _ faults _ Hload (conj Hk1 Hk2)) as (ap & e & n & Hrun & [Hn1 Hn2] & He & Hok).
  exists ap, e. split; [done|]. split; [|done]. intros H0. destruct (He H0) as [Hlen Hap].
  rewrite take_ge in Hn1, Hn2 by done. done.
Qed.

End runs.

(** Three migrations, the files not in the order of their versions; the answer of
    the second commit is lost. *)
Definition files0 : list File :=
  [mkFile "010_c.sql" (inr "C"); mkFile "002_b.sql" (inr "B"); mkFile "001_a.sql" (inr "A"); mkFile "README.md" (inr "")].
Definition append_sql (text : string) (s : string) : sqlstate + string := inr (s +:+ text).
Definition no_text (e : err) : string := "".
Definition lost_commit (n : nat) : fault := if decide (n = 11%nat) then FailAfter (ErrConn false) else NoFault.
Definition all_answered (n : nat) : fault := NoFault.

Lemma migrations_converge_witness :
  fst (run append_sql no_text (inr files0) lost_commit (mkMDB "" None false)) = inr (["001"], Some (ErrConn false)) ∧
  let db := after_runs append_sql no_text (inr files0) (mkMDB "" None false) [lost_commit] in
  schema db = "AB" ∧
  fst (run append_sql no_text (inr files0) all_answered db) = inr (["010"], None) ∧
  ∃ all s, Load (inr files0) = inr all ∧ exec_all append_sql all "" = inr s ∧
    schema (mw_db (run append_sql no_text (inr files0) all_answered db).2) = s.
Proof.
  split; [by vm_compute|]. split; [by vm_compute|]. split; [by vm_compute|].
  destruct (Load (inr files0)) as [|all] eqn:Hl; [by vm_compute in Hl|].
  destruct (migrations_converge append_sql no_text files0 all "" [lost_commit] Hl) as (_ & _ & k & _ & _ & Hrun).
  destruct (Hrun all_answered) as (ap & e & _ & Hok & Hq).
  assert (∃ s, exec_all append_sql all "" = inr s) as Hs.
  { assert (all = [mkMigration "001" "a" "A"; mkMigration "002" "b" "B"; mkMigration "010" "c" "C"]) as ->
      by (vm_compute in Hl; congruence).
    by eexists. }
  destruct (Hq (λ _, eq_refl) Hs) as [He _]. destruct (Hok He) as (Hex & _).
  eexists all, _. split; [done|]. split; [exact Hex|]. done.
Defined.
