(* ===== verification/TestDb.v ===== *)
(** * internal/testdb: test databases and their clock (testdb.go, clock.go)

    A server has databases, each with what the runner of the migrations sees of it
    and the settings [alter database] gave it.  A test process makes its calls one
    by one, under the faults of its world; [t.Fatalf] is an error.  [url.Parse], the
    time layout RFC 3339 with nanoseconds and the cast to [timestamptz] are
    parameters. *)

From S2P Require Import Prelude Text Schema Pool Migrate Migrations.
From stdpp Require Import list.

#[local] Open Scope string_scope.
#[local] Open Scope list_scope.
#[local] Open Scope Z_scope.

Definition template : string := "fenceline_test_template".

(** ** URLs *)

(** [None] is [t.Skip]. *)
Definition baseURL (Getenv : string → string) : option string :=
  head (filter (λ v, v ≠ "") (Getenv <$> ["TEST_DATABASE_URL"; "DATABASE_URL"])).

(** [with_path base p] is the URL [base] with the path [p], if [base] is a URL. *)
Definition dbURL (with_path : string → string → option string) (base name : string) : string :=
  default base (with_path base ("/" +:+ name)).

(** ** The server *)

Section testdb.
Context {S : Type} (exec_sql : string → S → sqlstate + S) (Error : err → string) (dir : err + list File).

Record Database := mkDatabase { d_db : MDB (S:=S); d_settings : gmap string string }.

#[export] Instance eta_Database : Eta Database := λ d, mkDatabase (d_db d) (d_settings d).

(** The server's databases, whether this process has built its template ([once]),
    and its calls. *)
Record Process := mkProcess {
  databases : gmap string Database;
  once : bool;
  pr_faults : nat → fault;
  pr_n : nat;
}.

#[export] Instance eta_Process : Eta Process := λ p, mkProcess (databases p) (once p) (pr_faults p) (pr_n p).

Definition tst (A : Type) : Type := Process → (err + A) * Process.

#[export] Instance tst_ret : MRet tst := λ A a p, (inr a, p).
#[export] Instance tst_bind : MBind tst := λ A B f m p,
  match m p with (inl e, p') => (inl e, p') | (inr a, p') => f a p' end.

Definition fatal {A} (e : err) : tst A := λ p, (inl e, p).

Definition after_ask (p : Process) (m : gmap string Database) : Process :=
  p <| databases := m |> <| pr_n := Datatypes.S (pr_n p) |>.

(** A call to the server. *)
Definition ask {A} (f : gmap string Database → err + A * gmap string Database) : tst A := λ p,
  match pr_faults p (pr_n p) with
  | FailBefore e => (inl e, after_ask p (databases p))
  | fa =>
    match f (databases p) with
    | inl e => (inl e, after_ask p (databases p))
    | inr (a, m) => (match fa with FailAfter e => inl e | _ => inr a end, after_ask p m)
    end
  end.

(** A call whose error is not looked at. *)
Definition tried (m : tst unit) : tst unit := λ p, (inr tt, snd (m p)).

(** [db.Open] of the maintenance database, and of another one. *)
Definition open_admin : tst unit := ask (λ m, inr (tt, m)).
Definition open_database (name : string) : tst unit :=
  ask (λ m, if decide (is_Some (m !! name)) then inr (tt, m) else inl (ErrPg "3D000")).

(** ** testdb.go *)

(** [create database], from [template0] or from another database: the settings of
    that one are not copied. *)
Definition create_database (name : string) (content : gmap string Database → option MDB) : tst unit :=
  ask (λ m,
    if decide (is_Some (m !! name)) then inl (ErrPg "42P04") else
    match content m with
    | None => inl (ErrPg "3D000")
    | Some db => inr (tt, <[name := mkDatabase db ∅]> m)
    end).

(** The sessions of a database end: nothing the model keeps of it changes. *)
Definition disconnect (name : string) : tst unit := tried (ask (λ m, inr (tt, m))).

(** [db.Migrate(ctx, tpl, nil)], which makes calls of its own. *)
Definition migrate_template : tst unit := λ p,
  match databases p !! template with
  | None => (inl (ErrPg "3D000"), p)
  | Some d =>
    let '(r, w) := Migrate exec_sql Error dir (mkMWorld (d_db d) (λ n, pr_faults p (pr_n p + n)%nat) 0 []) in
    let p' := p <| databases := <[template := d <| d_db := mw_db w |>]> (databases p) |>
                <| pr_n := (pr_n p + mw_n w)%nat |> in
    (match r with inl e => inl e | inr (_, Some e) => inl e | inr (_, None) => inr tt end, p')
  end.

(** [defer admin.Exec(ctx, "select pg_advisory_unlock($1)", templateLock)] *)
Definition unlocking (m : tst unit) : tst unit := λ p,
  let '(r, p') := m p in (r, snd (tried (ask (λ m, inr (tt, m))) p')).

(** The advisory lock: taken, and given back whatever happens. *)
Definition with_lock (m : tst unit) : tst unit :=
  _ ← ask (λ m, inr (tt, m));
  unlocking m.

Definition ensureTemplate (s0 : S) : tst unit :=
  _ ← open_admin;
  with_lock (
  known ← ask (λ m, inr (bool_decide (is_Some (m !! template)), m));
  _ ← (if known : bool then mret tt else create_database template (λ _, Some (mkMDB s0 None false)));
  _ ← open_database template;
  _ ← migrate_template;
  disconnect template).

(** [once.Do(func() { setupErr = ensureTemplate(base) })]; [setupErr] is a variable of
    the test. *)
Definition setup (s0 : S) : tst unit := λ p,
  if once p then (inr tt, p) else ensureTemplate s0 (p <| once := true |>).

(** [name] is made of what [uuid.NewString] returns. *)
Definition New (s0 : S) (name : string) : tst string :=
  _ ← setup s0;
  _ ← open_admin;
  _ ← create_database name (λ m, d_db <$> m !! template);
  _ ← open_database name;
  mret name.

(** [t.Cleanup] *)
Definition cleanup (name : string) : tst unit :=
  _ ← disconnect name;
  tried (ask (λ m, inr (tt, delete name m))).

(** ** clock.go *)

Context (FormatNano : Z → string) (to_timestamptz : string → option timestamp).

(** [fl.now()] (001_types.sql) in a session of a database; [clock] is
    [clock_timestamp()]. *)
Definition fl_now (settings : gmap string string) (clock : timestamp) : sqlstate + timestamp :=
  if decide (settings !! "fl.testing" = Some "on") then
    match settings !! "fl.now" with
    | None | Some "" => inr clock
    | Some s => match to_timestamptz s with Some t => inr t | None => inl "22007" end
    end
  else inr clock.

Definition alter_settings (name : string) (f : gmap string string → gmap string string) : tst unit :=
  ask (λ m, inr (tt, alter (λ d, d <| d_settings := f (d_settings d) |>) name m)).

(** [at_] is in nanoseconds. *)
Definition SetNow (name : string) (at_ : Z) : tst unit :=
  _ ← alter_settings name <["fl.testing" := "on"]>;
  alter_settings name <["fl.now" := FormatNano at_]>.

(** [select fl.now()] in the database, the clock of the server being [clock]. *)
Definition read_now (name : string) (clock : timestamp) : tst timestamp :=
  ask (λ m, match m !! name with
            | None => inl (ErrPg "3D000")
            | Some d => match fl_now (d_settings d) clock with inl c => inl (ErrPg c) | inr t => inr (t, m) end
            end).

Definition Advance (name : string) (clock : timestamp) (d : duration) : tst Z :=
  t ← read_now name clock;
  let next := 1000 * t + d in
  _ ← SetNow name next;
  mret next.

Definition ResetNow (name : string) : tst unit :=
  _ ← alter_settings name (delete "fl.now");
  alter_settings name (delete "fl.testing").

(** fixtures.go *)
Definition SetJitterOff (name : string) : tst unit := alter_settings name <["fl.jitter" := "off"]>.

(** ** Lemmas *)

Definition answered (p : Process) : Prop := ∀ n, pr_faults p n = NoFault.

Lemma ask_inr {A} (f : gmap string Database → err + A * gmap string Database) p a p' :
  ask f p = (inr a, p') →
  f (databases p) = inr (a, databases p') ∧ once p' = once p ∧ pr_faults p' = pr_faults p.
Proof.
  unfold ask. destruct (pr_faults p (pr_n p)), (f (databases p)) as [|[b m]]; intros [= <- <-]; done.
Qed.

Lemma ask_answered {A} (f : gmap string Database → err + A * gmap string Database) p a m :
  answered p → f (databases p) = inr (a, m) → ask f p = (inr a, after_ask p m).
Proof. intros Hp Hf. unfold ask. by rewrite Hp, Hf. Qed.

Lemma tst_bind_inr {A B} (m : tst A) (f : A → tst B) p b p' :
  (m ≫= f) p = (inr b, p') → ∃ a p1, m p = (inr a, p1) ∧ f a p1 = (inr b, p').
Proof. unfold mbind, tst_bind. destruct (m p) as [[e|a] p1]; [done|]. eauto. Qed.

Lemma locked_inr m p p' :
  with_lock m p = (inr tt, p') →
  ∃ p1 p2, databases p1 = databases p ∧ m p1 = (inr tt, p2) ∧ databases p' = databases p2.
Proof.
  unfold with_lock, unlocking. intros (? & p1 & H1 & Hrun)%tst_bind_inr. apply ask_inr in H1 as ([= _ E1] & _).
  destruct (m p1) as [r p2] eqn:Hm. injection Hrun as -> <-. exists p1, p2. split; [done|]. split; [done|].
  unfold ask. by destruct (pr_faults p2 (pr_n p2)).
Qed.

(** The other databases of the server. *)
Definition elsewhere (names : list string) (m m' : gmap string Database) : Prop :=
  ∀ x, x ∉ names → m' !! x = m !! x.

(** The template was migrated some of the way. *)
Definition template_ok (all : list Migration) (s0 : S) (m : gmap string Database) : Prop :=
  ∀ d, m !! template = Some d → ∃ k, reached exec_sql all s0 k (d_db d).

Lemma migrate_template_inr all s0 p p' :
  Load dir = inr all → template_ok all s0 (databases p) → migrate_template p = (inr tt, p') →
  (∃ d, databases p' !! template = Some d ∧ reached exec_sql all s0 (length all) (d_db d)) ∧
  elsewhere [template] (databases p) (databases p').
Proof.
  intros Hload Hok. unfold migrate_template. destruct (databases p !! template) as [d|] eqn:Hd; [|done].
  destruct (Hok d Hd) as [k Hk]. set (faults := λ n, pr_faults p (pr_n p + n)%nat).
  change (Migrate exec_sql Error dir (mkMWorld (d_db d) faults 0 [])) with (run exec_sql Error dir faults (d_db d)).
  destruct (reached_run exec_sql Error dir all s0 k faults (d_db d) Hload Hk) as (ap & e & n & Hr & Hn & He & _).
  destruct (run exec_sql Error dir faults (d_db d)) as [r w]. simpl in Hr, Hn. subst r.
  destruct e as [e|]; [done|]. intros [= <-]. destruct (He eq_refl) as [Hlen _]. simpl. split.
  - eexists. rewrite lookup_insert_eq. split; [done|]. unfold reached in *. by rewrite !take_ge in * by lia.
  - intros x Hx. rewrite lookup_insert_ne; [done|]. intros <-. apply Hx. by left.
Qed.

Lemma ensureTemplate_inr all s0 p p' :
  Load dir = inr all → template_ok all s0 (databases p) → ensureTemplate s0 p = (inr tt, p') →
  (∃ d, databases p' !! template = Some d ∧ reached exec_sql all s0 (length all) (d_db d)) ∧
  elsewhere [template] (databases p) (databases p').
Proof.
  intros Hload Hok. unfold ensureTemplate, disconnect.
  intros (? & p1 & H1 & Hrun)%tst_bind_inr. apply ask_inr in H1 as ([= <- E1] & _).
  apply locked_inr in Hrun as (p2 & p9 & E2 & Hrun & ->).
  apply tst_bind_inr in Hrun as (known & p3 & H3 & Hrun). apply ask_inr in H3 as ([= Hkn E3] & _).
  rewrite E2, <- E1 in E3. rewrite E2, <- E1 in Hkn. clear p1 p2 E1 E2.
  apply tst_bind_inr in Hrun as ([] & p4 & H4 & Hrun).
  assert (template_ok all s0 (databases p4) ∧ elsewhere [template] (databases p) (databases p4)) as [Hok4 He4].
  { destruct known; [injection H4 as <-; rewrite <- E3; by split|].
    apply ask_inr in H4 as (H4 & _). rewrite <- E3 in H4. case_decide; [done|]. injection H4 as <-. split.
    - intros d. rewrite lookup_insert_eq. intros [= <-]. by exists 0%nat.
    - intros x Hx. rewrite lookup_insert_ne; [done|]. intros <-. apply Hx. by left. }
  apply tst_bind_inr in Hrun as ([] & p5 & H5 & Hrun). apply ask_inr in H5 as (H5 & _). case_decide; [|done].
  injection H5 as E5. apply tst_bind_inr in Hrun as ([] & p6 & H6 & Hrun). rewrite E5 in Hok4, He4.
  destruct (migrate_template_inr all s0 p5 p6 Hload Hok4 H6) as [Hd6 He6].
  unfold tried, ask in Hrun. assert (databases p9 = databases p6) as ->.
  { injection Hrun as <-. by destruct (pr_faults p6 (pr_n p6)). }
  split; [done|]. intros x Hx. rewrite (He6 x Hx). by apply He4.
Qed.

(** The whole of it. *)
Definition template_whole (all : list Migration) (s0 : S) (m : gmap string Database) : Prop :=
  ∃ d, m !! template = Some d ∧ reached exec_sql all s0 (length all) (d_db d).

(** A test that gets a database gets one of its own with the whole schema and no
    settings, whichever calls failed on the way, and leaves the other databases of
    the server alone - as long as the setup of its process did not fail before. *)
Theorem test_gets_whole_schema all s0 name p n p' :
  Load dir = inr all → template_ok all s0 (databases p) → (once p = true → template_whole all s0 (databases p)) →
  name ≠ template → New s0 name p = (inr n, p') →
  n = name ∧ databases p !! name = None ∧ template_whole all s0 (databases p') ∧
  (∃ db, databases p' !! name = Some (mkDatabase db ∅) ∧ reached exec_sql all s0 (length all) db) ∧
  elsewhere [name; template] (databases p) (databases p').
Proof.
  intros Hload Hok Hon Hne. unfold New. intros ([] & p1 & H1 & Hrun)%tst_bind_inr.
  assert (template_whole all s0 (databases p1) ∧ elsewhere [template] (databases p) (databases p1)) as [Hw Hel].
  { unfold setup in H1. destruct (once p); [injection H1 as <-; split; [by apply Hon|done]|].
    by apply (ensureTemplate_inr all s0) in H1. }
  apply tst_bind_inr in Hrun as (? & p2 & H2 & Hrun). apply ask_inr in H2 as ([= _ E2] & _). rewrite E2 in *. clear E2 H1.
  destruct Hw as (d & Hd & Hr).
  apply tst_bind_inr in Hrun as ([] & p3 & H3 & Hrun). apply ask_inr in H3 as (H3 & _). case_decide as Hnone; [done|].
  rewrite Hd in H3. injection H3 as E3. apply eq_None_not_Some in Hnone.
  apply tst_bind_inr in Hrun as ([] & p4 & H4 & Hrun). apply ask_inr in H4 as (H4 & _). case_decide; [|done].
  injection H4 as E4. injection Hrun as <- <-. rewrite <- E4, <- E3. split; [done|].
  split; [rewrite <- Hel; [done|by intros ?%list_elem_of_singleton]|]. split; [|split].
  - exists d. by rewrite lookup_insert_ne.
  - exists (d_db d). by rewrite lookup_insert_eq.
  - intros y [Hx1 Hx2]%not_elem_of_cons. rewrite lookup_insert_ne by done. by apply Hel.
Qed.

(** ** The clock of a test *)

Section clock.
Context (Hformat : ∀ t, to_timestamptz (FormatNano (1000 * t)) = Some t) (Htext : ∀ n, FormatNano n ≠ "").

Lemma alter_settings_answered name f p :
  answered p → alter_settings name f p =
    (inr tt, after_ask p (alter (λ d, d <| d_settings := f (d_settings d) |>) name (databases p))).
Proof. intros Hp. by apply ask_answered. Qed.

Lemma fl_now_set settings t clock :
  fl_now (<["fl.now" := FormatNano (1000 * t)]> (<["fl.testing" := "on"]> settings)) clock = inr t.
Proof.
  unfold fl_now. rewrite lookup_insert_ne, !lookup_insert_eq, decide_True by done.
  destruct (FormatNano (1000 * t)) as [|c s] eqn:E; [by destruct (Htext (1000 * t))|]. by rewrite <- E, Hformat.
Qed.

(** The database [name] with the clock stopped at [t]. *)
Definition stopped (name : string) (t : timestamp) (p : Process) : Prop :=
  answered p ∧ ∃ d, databases p !! name = Some d ∧ ∀ clock, fl_now (d_settings d) clock = inr t.

Lemma SetNow_stops name t p d :
  answered p → databases p !! name = Some d →
  ∃ p', SetNow name (1000 * t) p = (inr tt, p') ∧ stopped name t p' ∧ elsewhere [name] (databases p) (databases p').
Proof.
  intros Hp Hd. unfold SetNow, mbind, tst_bind. rewrite alter_settings_answered by done.
  rewrite alter_settings_answered by done. eexists. split; [done|]. split.
  - split; [done|]. simpl. rewrite !lookup_alter_eq, Hd. eexists. split; [done|]. intros clock. apply fl_now_set.
  - intros x Hx. simpl. assert (name ≠ x) by (intros ->; apply Hx; by left). by rewrite !lookup_alter_ne.
Qed.

Lemma read_stopped name t clock p : stopped name t p → fst (read_now name clock p) = inr t.
Proof.
  intros (Hp & d & Hd & Ht). unfold read_now. rewrite (ask_answered _ p t (databases p)); [done|done|].
  by rewrite Hd, Ht.
Qed.

(** A test that sets its clock reads that time until it moves it on, whatever the
    clock of the server says, and no other database notices. *)
Theorem test_clock name t k clocks p d :
  answered p → databases p !! name = Some d →
  ∃ p1 p2 p3, SetNow name (1000 * t) p = (inr tt, p1) ∧ fst (read_now name (clocks 0%nat) p1) = inr t ∧
    Advance name (clocks 1%nat) (1000 * k) p1 = (inr (1000 * (t + k)), p2) ∧
    fst (read_now name (clocks 2%nat) p2) = inr (t + k) ∧
    ResetNow name p2 = (inr tt, p3) ∧ fst (read_now name (clocks 3%nat) p3) = inr (clocks 3%nat) ∧
    elsewhere [name] (databases p) (databases p3).
Proof.
  intros Hp Hd. destruct (SetNow_stops name t p d Hp Hd) as (p1 & H1 & Hs1 & He1).
  destruct Hs1 as (Hp1 & d1 & Hd1 & Ht1) eqn:E. clear E. set (p1' := after_ask p1 (databases p1)).
  destruct (SetNow_stops name (t + k) p1' d1 Hp1 Hd1) as (p2 & H2 & Hs2 & He2).
  pose proof Hs2 as (Hp2 & d2 & Hd2 & _). exists p1, p2. eexists. split; [done|].
  split; [by apply read_stopped|]. split; [|split; [by apply read_stopped|]].
  { unfold Advance, read_now. unfold mbind at 1, tst_bind at 1.
    rewrite (ask_answered _ p1 t (databases p1)) by (done || by rewrite Hd1, Ht1). fold p1'. cbv zeta.
    replace (1000 * t + 1000 * k) with (1000 * (t + k)) by lia. unfold mbind, tst_bind. by rewrite H2. }
  unfold ResetNow, mbind, tst_bind. rewrite alter_settings_answered by done. rewrite alter_settings_answered by done.
  split; [done|]. split.
  - unfold read_now. rewrite (ask_answered _ _ (clocks 3%nat) (alter (λ d, d <| d_settings := delete "fl.testing" (d_settings d) |>)
      name (alter (λ d, d <| d_settings := delete "fl.now" (d_settings d) |>) name (databases p2)))); [done|done|].
    simpl. rewrite !lookup_alter_eq, Hd2. simpl. unfold fl_now. by rewrite lookup_delete_eq.
  - intros x Hx. simpl. assert (name ≠ x) by (intros ->; apply Hx; by left).
    rewrite !lookup_alter_ne by done. rewrite (He2 x Hx). by apply He1.
Qed.

End clock.
End testdb.

(** ** A failed setup is forgotten *)

(** The second migration fails for the first test of the process, which is told;
    the next test gets a database with the first migration only, and no error. *)
Definition half_way (n : nat) : fault := if decide (n = 14%nat) then FailBefore (ErrConn false) else NoFault.

Theorem half_migrated_test :
  let p0 := mkProcess ∅ false half_way 0 in
  let r1 := New append_sql no_text (inr files0) "" "t1" p0 in
  let r2 := New append_sql no_text (inr files0) "" "t2" (snd r1) in
  fst r1 = inl (ErrOther "002_b failed: ") ∧ fst r2 = inr "t2" ∧
  (λ d, schema (d_db d)) <$> databases (snd r2) !! "t2" = Some "A".
Proof. by vm_compute. Qed.
