(* ===== verification/Diagram.v ===== *)
(** * cmd/diagram: the documentation of the schema

    The queries over the catalog of Postgres, and the text that is made of their
    rows.  The names are those of a schema, in ASCII without
    control characters, for which [%q] escapes the quote and the backslash. *)

From S2P Require Import Prelude Text Schema Pool Migrate Summaries Migrations.
From stdpp Require Import list.

#[local] Open Scope string_scope.
#[local] Open Scope list_scope.
#[local] Open Scope Z_scope.

Definition line (s : string) : string := s +:+ String (of_byte 10) "".

Fixpoint lines (l : list string) : string :=
  match l with [] => "" | s :: l => line s +:+ lines l end.

(** [%q] *)
Fixpoint escaped (s : string) : string :=
  match s with
  | "" => ""
  | String c s' =>
    if (byte_of c =? 34) || (byte_of c =? 92)
    then String (of_byte 92) (String c (escaped s')) else String c (escaped s')
  end.
Definition quoted (s : string) : string := String (of_byte 34) (escaped s +:+ String (of_byte 34) "").

(** ** The rows *)

Record relation := mkRelation { re_src : string; re_tgt : string; re_del : string; re_required : bool; re_cols : string }.
Record key_column := mkKeyColumn { kc_name : string; kc_col : string; kc_typ : string; kc_pk : bool; kc_fk : bool }.

(** [job_transitions], as [transitionsSQL] lists it. *)
Definition transitions : list (job_status * job_status * string) := [
  (js_scheduled, js_queued, "promoter, due or deps met"); (js_scheduled, js_cancelled, "api");
  (js_queued, js_claimed, "worker claim"); (js_queued, js_cancelled, "api");
  (js_claimed, js_queued, "drain release, no attempt burned"); (js_claimed, js_running, "worker start");
  (js_claimed, js_retry_wait, "reaper, lease expired before start");
  (js_claimed, js_dead_letter, "reaper, attempts exhausted"); (js_claimed, js_cancelled, "api");
  (js_running, js_scheduled, "snooze"); (js_running, js_queued, "drain release past deadline");
  (js_running, js_completed, "worker success"); (js_running, js_retry_wait, "worker failure with attempts left");
  (js_running, js_dead_letter, "permanent error or attempts exhausted"); (js_running, js_cancelled, "api");
  (js_retry_wait, js_queued, "promoter, backoff elapsed"); (js_retry_wait, js_dead_letter, "breaker or manual");
  (js_retry_wait, js_cancelled, "api"); (js_dead_letter, js_queued, "replay")].

(** ** The queries *)

(** What they read of [pg_class], [pg_attribute] and [pg_constraint]; [nspname] and
    [typname] are the names of the schema and of the type that a row refers to. *)
Record pg_class := mkClass { oid : Z; relname : string; nspname : string; relkind : string; relispartition : bool }.
Record pg_attribute := mkAttribute {
  attrelid : Z; attname : string; attnum : Z; typname : string; attnotnull : bool; attisdropped : bool }.
Record pg_constraint := mkConstraint {
  conrelid : Z; confrelid : Z; contype : string; confdeltype : string; conkey : list Z }.
Record Catalog := mkCatalog {
  classes : list pg_class; attributes : list pg_attribute; pg_constraints : list pg_constraint }.

(** [order by] two columns of type [name]: byte by byte. *)
Definition names_le (a b : string * string) : Prop :=
  str_lt b.1 a.1 = false ∧ (a.1 = b.1 → str_lt b.2 a.2 = false).
#[export] Instance names_le_dec : RelDecision names_le.
Proof. intros a b. unfold names_le. apply _. Defined.

(** The tables the diagrams show. *)
Definition shown (c : pg_class) : bool :=
  bool_decide (nspname c = "public") && bool_decide (relkind c = "r" ∨ relkind c = "p") &&
  negb (relispartition c) && bool_decide (relname c ≠ "schema_migrations").

Definition class_le (a b : pg_class) : Prop := str_lt (relname b) (relname a) = false.
#[export] Instance class_le_dec : RelDecision class_le := λ a b, decide (_ = false).

Definition tablesSQL (cat : Catalog) : list (string * string) :=
  (λ c, (relname c, if decide (relkind c = "p") then "partitioned" else "table")) <$>
    merge_sort class_le (filter (λ c, shown c = true) (classes cat)).

(** The keys a column is part of. *)
Definition keys_of (cat : Catalog) (c : pg_class) (a : pg_attribute) : list pg_constraint :=
  filter (λ k, conrelid k = oid c ∧ attnum a ∈ conkey k ∧ (contype k = "p" ∨ contype k = "f")) (pg_constraints cat).

(** A row with the number of its column; the name of a table is unique, so that a
    group of the query is a column of a table. *)
Definition key_row (cat : Catalog) (c : pg_class) (a : pg_attribute) : option (key_column * Z) :=
  if decide (attrelid a = oid c ∧ 0 < attnum a ∧ attisdropped a = false) then
    match keys_of cat c a with
    | [] => None
    | ks => Some (mkKeyColumn (relname c) (attname a) (typname a)
              (existsb (λ k, bool_decide (contype k = "p")) ks) (existsb (λ k, bool_decide (contype k = "f")) ks),
              attnum a)
    end
  else None.

Definition key_le (a b : key_column * Z) : Prop :=
  str_lt (kc_name b.1) (kc_name a.1) = false ∧ (kc_name a.1 = kc_name b.1 → a.2 ≤ b.2).
#[export] Instance key_le_dec : RelDecision key_le.
Proof. intros a b. unfold key_le. apply _. Defined.

Definition keyColumnsSQL (cat : Catalog) : list key_column :=
  (merge_sort key_le
    (c ← filter (λ c, shown c = true) (classes cat); omap (key_row cat c) (attributes cat))).*1.

Definition class_of_oid (cat : Catalog) (n : Z) : option pg_class :=
  head (filter (λ c, oid c = n) (classes cat)).

(** The tables of a foreign key: the one it is declared on, the one it refers to. *)
Definition ends_of (cat : Catalog) (k : pg_constraint) : option (pg_class * pg_class) :=
  if decide (contype k = "f") then
    src ← class_of_oid cat (conrelid k); tgt ← class_of_oid cat (confrelid k);
    if decide (nspname src = "public" ∧ relispartition src = false) then Some (src, tgt) else None
  else None.

Definition attribute_le (a b : pg_attribute) : Prop := attnum a ≤ attnum b.
#[export] Instance attribute_le_dec : RelDecision attribute_le := λ a b, decide (_ ≤ _).

Definition relation_row (cat : Catalog) (k : pg_constraint) : option relation :=
  '(src, tgt) ← ends_of cat k;
  match merge_sort attribute_le (filter (λ a, attrelid a = oid src ∧ attnum a ∈ conkey k) (attributes cat)) with
  | [] => None
  | cols => Some (mkRelation (relname src) (relname tgt) (confdeltype k) (forallb attnotnull cols)
                   (Summaries.join ", " (attname <$> cols)))
  end.

Definition relation_le (a b : relation) : Prop := names_le (re_src a, re_tgt a) (re_src b, re_tgt b).
#[export] Instance relation_le_dec : RelDecision relation_le := λ a b, names_le_dec _ _.

Definition relationsSQL (cat : Catalog) : list relation :=
  merge_sort relation_le (omap (relation_row cat) (pg_constraints cat)).

Definition linksSQL (cat : Catalog) : list (string * string) :=
  merge_sort names_le (remove_dups
    (omap (λ k, (λ e : pg_class * pg_class, (relname e.1, relname e.2)) <$> ends_of cat k) (pg_constraints cat))).

(** ** The text *)

Definition edge (t : string * string * string) : string :=
  "    " +:+ t.1.1 +:+ " --> " +:+ t.1.2 +:+ ": " +:+ t.2.

Definition lifecycle (rows : list (string * string * string)) : list string :=
  ["## The job lifecycle"; "";
   "Every edge is a row in `job_transitions`. A trigger rejects any move not listed";
   "here, so this is the whole state machine and not a summary of it."; "";
   "```mermaid"; "stateDiagram-v2"] ++ (edge <$> rows) ++ ["```"; ""].

Definition onDelete (c : string) : string :=
  if decide (c = "a") then "no action" else if decide (c = "r") then "restrict"
  else if decide (c = "c") then "cascade" else if decide (c = "n") then "set null"
  else if decide (c = "d") then "set default" else "".

Definition relation_line (r : relation) : string :=
  "    " +:+ re_tgt r +:+ " " +:+ (if re_required r then "||--|{" else "||--o{") +:+ " " +:+ re_src r +:+
  " : " +:+ quoted (re_cols r +:+ ", " +:+ onDelete (re_del r)).

Definition column_line (k : key_column) : string :=
  "        " +:+ kc_typ k +:+ " " +:+ kc_col k +:+ " " +:+
  (if kc_pk k && kc_fk k then "PK, FK" else if kc_pk k then "PK" else "FK").

(** The loop over the key columns: [table] is the table whose block is open. *)
Fixpoint column_blocks (table : string) (rows : list key_column) : list string :=
  match rows with
  | [] => if decide (table = "") then [] else ["    }"]
  | k :: rows =>
    (if decide (kc_name k = table) then []
     else (if decide (table = "") then [] else ["    }"]) ++ ["    " +:+ kc_name k +:+ " {"]) ++
    [column_line k] ++ column_blocks (if decide (kc_name k = table) then table else kc_name k) rows
  end.

Definition entities (rels : list relation) (cols : list key_column) : list string :=
  ["## Entities"; "";
   "Key columns only. The label on each line is what happens to the child when the"; "parent is deleted."; "";
   "```mermaid"; "erDiagram"] ++ (relation_line <$> rels) ++ column_blocks "" cols ++ ["```"; ""].

Definition table_line (t : string * string) : string :=
  if decide (t.2 = "partitioned") then "    " +:+ t.1 +:+ "[(" +:+ t.1 +:+ ")]"
  else "    " +:+ t.1 +:+ "[" +:+ t.1 +:+ "]".

Definition tableGraph (tables links : list (string * string)) : list string :=
  ["## Every table"; ""; "Cylinders are partitioned by day."; ""; "```mermaid"; "graph LR"] ++
  (table_line <$> tables) ++ ((λ l : string * string, "    " +:+ l.1 +:+ " --> " +:+ l.2) <$> links) ++ ["```"].

(** The file. *)
Definition diagram (rows : list (string * string * string)) (rels : list relation) (cols : list key_column)
    (tables links : list (string * string)) : string :=
  lines (["# Diagrams"; "";
    "Generated from a migrated database by `make diagram`. Everything here is read";
    "out of the live catalog, so it cannot drift from the schema it describes."; ""] ++
    lifecycle rows ++ entities rels cols ++ tableGraph tables links).

(** The file for the rows of [job_transitions] and a catalog. *)
Definition diagram_of (rows : list (string * string * string)) (cat : Catalog) : string :=
  diagram rows (relationsSQL cat) (keyColumnsSQL cat) (tablesSQL cat) (linksSQL cat).

(** ** The blocks of the tables *)

(** A block per table: its name, its columns. *)
Definition block (t : string) (rows : list key_column) : list string :=
  ["    " +:+ t +:+ " {"] ++ (column_line <$> rows) ++ ["    }"].

(** The rows of the tables [ts], table by table. *)
Definition by_table (groups : list (string * list key_column)) : list key_column := concat groups.*2.

(** Groups as the query orders them: a table has rows, all its own, a name, and
    another one than the group before. *)
Fixpoint grouped (before : string) (groups : list (string * list key_column)) : Prop :=
  match groups with
  | [] => True
  | (t, rows) :: groups =>
    t ≠ before ∧ t ≠ "" ∧ rows ≠ [] ∧ Forall (λ k, kc_name k = t) rows ∧ grouped t groups
  end.

Lemma column_blocks_same t rows rest :
  Forall (λ k, kc_name k = t) rows →
  column_blocks t (rows ++ rest) = (column_line <$> rows) ++ column_blocks t rest.
Proof.
  induction 1 as [|k rows Hk _ IH]; [done|]. simpl. rewrite !decide_True by done. simpl. by rewrite IH.
Qed.

Definition closing (table : string) : list string := if decide (table = "") then [] else ["    }"].

(** A table after another one. *)
Lemma column_blocks_new before t rows rest :
  t ≠ before → rows ≠ [] → Forall (λ k, kc_name k = t) rows →
  column_blocks before (rows ++ rest) =
  closing before ++ ["    " +:+ t +:+ " {"] ++ (column_line <$> rows) ++ column_blocks t rest.
Proof.
  intros Hne Hr Hall. destruct rows as [|k rows]; [done|]. apply list.Forall_cons in Hall as [<- Hall].
  cbn [app column_blocks]. fold (closing before). destruct (decide (kc_name k = before)) as [E|_]; [done|].
  by rewrite column_blocks_same, <- app_assoc by done.
Qed.

(** The printed blocks are the blocks of the tables, each once and with all its
    columns. *)
Lemma column_blocks_groups before groups :
  grouped before groups →
  column_blocks before (by_table groups) = closing before ++ concat ((λ g, block g.1 g.2) <$> groups).
Proof.
  revert before. induction groups as [|[t rows] groups IH]; intros before.
  { intros _. simpl. by rewrite app_nil_r. }
  intros (Hne & Ht & Hr & Hall & Hg). change (by_table ((t, rows) :: groups)) with (rows ++ by_table groups).
  rewrite (column_blocks_new before t) by done. rewrite (IH t Hg). f_equal. unfold closing at 1.
  rewrite decide_False by done. cbn [fmap list_fmap concat fst snd]. unfold block at 2. by rewrite <- !app_assoc.
Qed.

(** The edges that are printed are the legal moves. *)
Lemma transitions_legal a b : legal_transition a b = true ↔ (a, b) ∈ transitions.*1.
Proof.
  assert (legal_transition a b = bool_decide ((a, b) ∈ transitions.*1)) as -> by (by destruct a, b).
  apply bool_decide_eq_true.
Qed.

(** ** The rows of the query are grouped by table *)

#[export] Instance key_le_total : Total key_le.
Proof.
  intros a b. unfold key_le. destruct (decide (kc_name a.1 = kc_name b.1)) as [E|E].
  - rewrite E, str_lt_irrefl. destruct (Z.le_ge_cases a.2 b.2); [left|right]; auto.
  - destruct (str_le_total (kc_name a.1) (kc_name b.1)); [left|right]; split; [done|congruence|done|congruence].
Qed.

#[export] Instance key_le_trans : Transitive key_le.
Proof.
  intros a b c [H1 H1'] [H2 H2']. split; [by eapply str_le_trans|]. intros E.
  assert (kc_name a.1 = kc_name b.1) as Eab by (apply str_lt_total; [by rewrite E|done]).
  etrans; [by apply H1'|]. apply H2'. congruence.
Qed.

Definition name_order (a b : key_column) : Prop := str_lt (kc_name b) (kc_name a) = false.
Definition ascending_names : list string → Prop := StronglySorted (λ a b, str_lt a b = true).

Lemma keyColumnsSQL_sorted cat : StronglySorted name_order (keyColumnsSQL cat).
Proof.
  unfold keyColumnsSQL. generalize (filter (λ c, shown c = true) (classes cat) ≫= λ c, omap (key_row cat c) (attributes cat)).
  intros l. pose proof (StronglySorted_merge_sort key_le l) as H.
  induction H as [|a l' H IH Hall]; [constructor|]. cbn [fmap list_fmap]. constructor; [done|].
  apply list.Forall_fmap. eapply list.Forall_impl; [exact Hall|]. by intros b [? _].
Qed.

(** Rows in the order of the names are the rows of groups with ascending names. *)
Lemma sorted_grouped rows :
  StronglySorted name_order rows → Forall (λ k, kc_name k ≠ "") rows →
  ∃ groups, by_table groups = rows ∧ ascending_names groups.*1 ∧
    ∀ before, from_option kc_name "" (head rows) ≠ before ∨ rows = [] → grouped before groups.
Proof.
  induction 1 as [|k rows _ IH Hk]; intros Hne.
  { exists []. split_and!; [done|constructor|done]. }
  apply list.Forall_cons in Hne as [Hne Hall]. destruct (IH Hall) as (groups & <- & Hasc & Hg). clear IH.
  destruct groups as [|[t r] groups].
  { exists [(kc_name k, [k])]. split_and!; [done|repeat constructor|].
    intros before [?|]; [|done]. simpl. split_and!; auto. }
  assert (r ≠ [] ∧ Forall (λ k, kc_name k = t) r ∧ grouped t groups ∧ t ≠ "") as (Hr & Ht & Hgt & Hte).
  { destruct (decide (from_option kc_name "" (head (by_table ((t, r) :: groups))) = "x")) as [E|E];
      [destruct (Hg "y") as (_ & ? & ? & ? & ?); [left; by rewrite E|done]
      |destruct (Hg "x") as (_ & ? & ? & ? & ?); [by left|done]]. }
  destruct r as [|k1 r]; [done|]. pose proof (List.Forall_inv Ht) as Hk1. cbn beta in Hk1.
  destruct (decide (kc_name k = t)) as [E|E].
  - exists ((t, k :: k1 :: r) :: groups). split_and!; [done|done|]. intros before [Hb|]; [|done]. simpl in Hb.
    simpl. split_and!; [congruence|done|done|by constructor|done].
  - exists ((kc_name k, [k]) :: (t, k1 :: r) :: groups). split_and!; [done| |].
    + cbn [fmap list_fmap fst]. constructor; [done|].
      assert (str_lt (kc_name k) t = true) as Hlt.
      { apply List.Forall_inv in Hk. unfold name_order in Hk. rewrite Hk1 in Hk.
        destruct (str_lt (kc_name k) t) eqn:E'; [done|]. by destruct E; apply str_lt_total. }
      constructor; [done|]. apply StronglySorted_inv in Hasc as [_ Hf].
      eapply list.Forall_impl; [exact Hf|]. intros u. by apply str_lt_trans.
    + intros before [Hb|]; [|done]. simpl in Hb. simpl.
      split_and!; auto; congruence.
Qed.

(** The diagram of the entities has one block for each table with a key, in the
    order of the names, with all its key columns. *)
Lemma diagram_blocks cat :
  Forall (λ c, relname c ≠ "") (classes cat) →
  ∃ groups, keyColumnsSQL cat = by_table groups ∧ ascending_names groups.*1 ∧ grouped "" groups ∧
    column_blocks "" (keyColumnsSQL cat) = concat ((λ g, block g.1 g.2) <$> groups).
Proof.
  intros Hne. assert (Forall (λ k, kc_name k ≠ "") (keyColumnsSQL cat)) as Hall.
  { apply list.Forall_forall. intros k. unfold keyColumnsSQL. rewrite list_elem_of_fmap.
    intros ([k' n] & -> & Hk). rewrite merge_sort_Permutation in Hk.
    apply list_elem_of_bind in Hk as (c & Hk & Hc). apply list_elem_of_filter in Hc as [_ Hc].
    apply list_elem_of_omap in Hk as (a & _ & Ha). unfold key_row in Ha. rewrite list.Forall_forall in Hne.
    repeat case_match; simplify_eq; by apply Hne. }
  destruct (sorted_grouped _ (keyColumnsSQL_sorted cat) Hall) as (groups & Hg & Hasc & Hgr).
  assert (grouped "" groups) as Hgr0.
  { apply Hgr. destruct (keyColumnsSQL cat) as [|k rows]; [by right|left]. by apply List.Forall_inv in Hall. }
  exists groups. split_and!; [done|done|done|]. rewrite <- Hg. by apply (column_blocks_groups "").
Qed.
