(* ===== verification/Core.v ===== *)
(** * Invariants of the jobs, leases, executions and events

    [CoreInv P] is what has to be shown of a property [P] of these tables for it
    to be an invariant of the system: it does not read the other tables, and the
    statements that hand a job over keep it.  [core_invariant] then carries it
    through every operation. *)

From S2P Require Import Prelude Schema Fl Pool Jobs Sched Cron Archiver Worker Api ApiJobs ApiAdmin Accounts Views Stats Detail Ai Summaries Rollup GoLogic System.

#[local] Open Scope string_scope.
#[local] Open Scope list_scope.
#[local] Open Scope Z_scope.

(** ** The interface *)

(** The tables an invariant may read. *)
Definition core (db : DB) :=
  (jobs db, leases db, execs db, events db, event_seq db, jobs_archive db, queues db, queue_shards db).

(** A breaker transition writes the breaker's columns only. *)
Definition switches (from : breaker_state) (to : Queue → Queue) : Prop := ∀ q,
  max_concurrency (to q) = max_concurrency q ∧ shards (to q) = shards q ∧
  q_project_id (to q) = q_project_id q.

Class CoreInv (P : DB → Prop) : Prop := {
  ci_frame db db' : core db' = core db → P db → P db';
  #[global] ci_idle :: IdleStable P;
  ci_emit env t e p pl : t ≠ "job.completed" → keeps P (emit env t e p pl);
  ci_new i j : unowned j → status j ≠ js_completed → keeps P (insert_job i j);
  ci_start i f w env : keeps P (startSQL i f w env);
  ci_extend i f l p env : keeps P (extendSQL i f l p env);
  ci_close sel f : (∀ x, exec_open (f x) = false) → (∀ x, x_job_id (f x) = x_job_id x) →
    keeps P (update_execs sel f);
  ci_success env i f x : keeps P (report_success env i f x);
  ci_failure env i f o cls msg perm : keeps P (report_failure env i f o cls msg perm);
  ci_snooze env i f x d : keeps P (report_snooze env i f x d);
  ci_batch env input : keeps P (report_success_batch env input);
  ci_cancel r sc : tx_hoare P (cancelJob (B:=unit) r sc) (λ _, P);
  ci_archive a d l : go_keeps P (Archive a d l);
  ci_switch from to t q env : switches from to → t ≠ "job.completed" → keeps P (switch from to t q env);
  ci_paused i b env : keeps P (setPausedSQL i b env);
  ci_create env i q : keeps P (put_queue env i None q);
}.

(** What a claim, and the repair of the counters, add to it. *)
Class ClaimInv (P : DB → Prop) : Prop := {
  ci_claim q n w l ts sh env : keeps P (claimSQL q n w l ts sh env);
  ci_queue_admit env q want : keeps P (queue_admit env q want);
  ci_queue_release q s n : keeps P (queue_release q s n);
  ci_reconcile : keeps P reconcile_in_flight;
}.

(** And a change of the settings of a queue. *)
Class ConfigInv (P : DB → Prop) : Prop :=
  ci_update_queue i req po env : keeps P (updateQueueSQL i req po env).

(** ** Statements *)

Section stmts.
Context (P : DB → Prop) `{!CoreInv P}.

Lemma ci_modify f : (∀ db, core (f db) = core db) → keeps P (modify f : sql unit).
Proof. intros Hf. apply keeps_modify. intros db HP. by apply (ci_frame db). Qed.

Lemma ci_raw {A} (m : sql A) :
  (∀ db a db', m db = inr (a, db') → core db' = core db) → keeps P m.
Proof.
  intros Hm db HP. destruct (m db) as [|[a db']] eqn:Hr; [done|].
  apply (ci_frame db); [by eapply Hm|done].
Qed.

(** A row that is read, found to be nobody's, and written. *)
Lemma ci_row {A} i (c : Job → bool) (f : Job → Job) (g : Job → A) :
  (∀ j, c j = true → unowned j) → idle_write f →
  keeps P (oj ← gets (λ db, jobs db !! i);
           match oj with
           | None => mret None
           | Some j => if c j then _ ← update_job i f; mret (Some (g j)) else mret None
           end : sql (option A)).
Proof.
  intros Hc Hf. apply hoare_read. intros [j|]; [|apply hoare_ret; by intros db []].
  destruct (c j) eqn:Hcj; [|apply hoare_ret; by intros db []].
  eapply (hoare_bind _ _ (λ _, P)); [|intros []; by apply hoare_ret].
  apply hoare_update_job; [by intros db []|].
  intros db old [HP Hi] Hi' Hrg Hfsm Hck. rewrite Hi in Hi'. injection Hi' as <-.
  pose proof (conj Hrg Hck : job_valid (f j)) as Hval.
  eapply idle_stable; eauto using iw_status, iw_work, iw_shard, iw_fence.
Qed.

End stmts.

Ltac core_raw f :=
  apply ci_raw; [apply _|]; intros ? ? ? Hraw; unfold f in Hraw;
  repeat case_match; simplify_eq; done.

Ltac core_step :=
  match goal with
  | |- keeps _ (emit _ _ _ _ _) => apply ci_emit; done
  | |- keeps _ (modify _) => apply ci_modify; [apply _|intros; done]
  | |- _ => keeps_step
  end.
Ltac core_keeps := as_keeps; repeat core_step.

Section plain.
Context (P : DB → Prop) `{!CoreInv P}.

Lemma ci_mark_replayed env i a : keeps P (mark_replayed env i a).
Proof. unfold mark_replayed. core_keeps. Qed.
Lemma ci_emit_each env t pl ids k : t ≠ "job.completed" → keeps P (emit_each env t pl ids k).
Proof. intros Ht. unfold emit_each. core_keeps. Qed.
Lemma ci_violation i w h af st env : keeps P (violationSQL i w h af st env).
Proof. unfold violationSQL. core_keeps. Qed.
Lemma ci_logs x ls env : keeps P (appendLogsSQL x ls env).
Proof. unfold appendLogsSQL. core_keeps. Qed.
Lemma ci_update_schedule i f : keeps P (update_schedule i f).
Proof. unfold update_schedule. core_keeps. Qed.
Lemma ci_prune env : keeps P (pruneSQL env).
Proof. core_raw pruneSQL. Qed.
Lemma ci_update_worker i f : keeps P (update_worker i f).
Proof. unfold update_worker. core_keeps. Qed.
Lemma ci_register q h p c env : keeps P (registerSQL q h p c env).
Proof. unfold registerSQL. core_keeps. Qed.
Lemma ci_subscribe i q env : keeps P (subscribeSQL i q env).
Proof. core_raw subscribeSQL. Qed.
Lemma ci_audit p a ac e ei d env : keeps P (auditSQL p a ac e ei d env).
Proof. unfold auditSQL. core_keeps. Qed.
Lemma ci_insert_deps c ps : keeps P (insert_deps c ps).
Proof. induction ps as [|p ps IH]; simpl; core_keeps. Qed.
Hint Resolve ci_insert_deps : fl.
Lemma ci_insertDeps ps c env : keeps P (insertDepsSQL ps c env).
Proof. unfold insertDepsSQL. core_keeps. Qed.
Lemma ci_deleteIdem q k env : keeps P (deleteIdemSQL q k env).
Proof. unfold deleteIdemSQL. core_keeps. Qed.
Lemma ci_insertIdem q k j fp env : keeps P (insertIdemSQL q k j fp env).
Proof. core_raw insertIdemSQL. Qed.
Lemma ci_put_policy i p : keeps P (put_policy i p).
Proof. core_raw put_policy. Qed.
Lemma ci_deletePolicy i env : keeps P (deletePolicySQL i env).
Proof. core_raw deletePolicySQL. Qed.
Lemma ci_insertUser e h n env : keeps P (insertUserSQL e h n env).
Proof. core_raw insertUserSQL. Qed.
Lemma ci_insertSession s u env : keeps P (insertSessionSQL s u env).
Proof. core_raw insertSessionSQL. Qed.
Lemma ci_revokeSession s env : keeps P (revokeSessionSQL s env).
Proof. unfold revokeSessionSQL. core_keeps. Qed.
Lemma ci_insertOrg n env : keeps P (insertOrgSQL n env).
Proof. core_raw insertOrgSQL. Qed.
Lemma ci_insertOwner o u env : keeps P (insertOwnerSQL o u env).
Proof. core_raw insertOwnerSQL. Qed.
Lemma ci_upsertMember o u r env : keeps P (upsertMemberSQL o u r env).
Proof. core_raw upsertMemberSQL. Qed.
Lemma ci_updateOrg i n env : keeps P (updateOrgSQL i n env).
Proof. unfold updateOrgSQL. core_keeps. Qed.
Lemma ci_put_project i p : keeps P (put_project i p).
Proof. core_raw put_project. Qed.
Hint Resolve ci_put_project : fl.
Lemma ci_insertProject o n env : keeps P (insertProjectSQL o n env).
Proof. unfold insertProjectSQL. core_keeps. Qed.
Lemma ci_updateProject i n env : keeps P (updateProjectSQL i n env).
Proof. unfold updateProjectSQL. core_keeps. Qed.
Lemma ci_put_schedule tz i s : keeps P (put_schedule tz i s).
Proof. core_raw put_schedule. Qed.

(** Writes on jobs nobody owns. *)

Lemma ci_age older ceiling limit env : keeps P (ageSQL older ceiling limit env).
Proof.
  unfold ageSQL. eapply (hoare_bind _ _ (λ ids db, P db ∧
    ∀ b j, b ∈ ids → jobs db !! b = Some j → unowned j)).
  - apply hoare_gets. intros db HP. split; [done|].
    intros b j ([k x] & -> & [Hk Hs]%elem_of_select)%elem_of_take_all%list_elem_of_fmap Hj.
    simpl in *.
    rewrite Hk in Hj. injection Hj as <-. unfold too_old in Hs.
    apply andb_true_iff in Hs as [[Hs%bool_decide_eq_true _]%andb_true_iff _].
    unfold unowned. by rewrite Hs.
  - intros ids. eapply hoare_bind.
    + by apply (keeps_idle_writes P ids id (λ _ j, j <| priority := priority j + 1 |>)).
    + intros []. by apply hoare_ret.
Qed.

Lemma ci_retry i env : keeps P (retrySQL i env).
Proof.
  apply (ci_row P i waiting (retry_now env) (λ _, js_queued)); [|by split].
  intros j. unfold waiting, unowned. by destruct (status j).
Qed.

Lemma ci_replay i env : keeps P (replaySQL i env).
Proof.
  apply (ci_row P i (λ j, bool_decide (status j = js_dead_letter)) (replayed_row (now env))
    (λ j, replay_generation j + 1)); [|auto with fl].
  intros j Hj%bool_decide_eq_true. unfold unowned. by rewrite Hj.
Qed.

Lemma ci_replay_dead env q cap rate actor : keeps P (replay_dead env q cap rate actor).
Proof.
  unfold replay_dead. eapply hoare_seq; [apply keeps_gets|]. intros [qr|]; [|by apply hoare_ret].
  eapply hoare_seq; [apply keeps_gets|]. intros depth.
  set (room := Z.min cap _). destruct (room <=? 0); [by apply hoare_ret|].
  eapply (hoare_bind _ _ (λ rows db, P db ∧
    ∀ i j, i ∈ rows.*1 → jobs db !! i = Some j → unowned j)).
  { apply hoare_gets. intros db HP. split; [done|].
    intros i j ([k d] & -> & Hin)%list_elem_of_fmap Hj. simpl in Hj.
    rewrite merge_sort_Permutation in Hin. apply elem_of_select in Hin as [_ Hr].
    unfold replayable in Hr. rewrite Hj in Hr. simpl in Hr.
    rewrite !andb_true_iff in Hr. destruct Hr as [[_ Hs%bool_decide_eq_true] _].
    unfold unowned. by rewrite Hs. }
  intros rows. eapply (hoare_bind _ _ (λ _, P)).
  { eapply hoare_weaken; [|apply (keeps_idle_writes P _ snd
      (λ t : Z * uuid, replayed_row (now env + stagger rate t.1))); auto with fl].
    intros db [HP Hr]. split; [done|]. intros [k i] j Hin Hj. eapply Hr; [|exact Hj].
    apply elem_of_lookup_imap in Hin as (n & i' & [= -> ->] & Hl).
    apply list_elem_of_lookup_2 in Hl. rewrite merge_sort_Permutation in Hl.
    by apply elem_of_take_all in Hl. }
  intros []. core_keeps. apply ci_mark_replayed.
Qed.

(** New rows are queued or scheduled. *)

Lemma ci_insertScheduled d t env : keeps P (insertScheduledJobSQL d t env).
Proof.
  unfold insertScheduledJobSQL. core_keeps. by apply ci_new.
Qed.

Lemma submitted_unowned env q p t pl pr ra ti po pe :
  unowned (submitted_row env q p t pl pr ra ti po pe) ∧
  status (submitted_row env q p t pl pr ra ti po pe) ≠ js_completed.
Proof. unfold unowned, submitted_row. simpl. by destruct (_ || _). Qed.

Lemma ci_insertJob q p t pl pr ra ti po pe env : keeps P (insertJobSQL q p t pl pr ra ti po pe env).
Proof. unfold insertJobSQL. core_keeps. apply ci_new; apply submitted_unowned. Qed.

Lemma ci_insertBatch q p po b rows env : keeps P (insertBatchSQL q p po b rows env).
Proof.
  unfold insertBatchSQL. apply keeps_traverse. intros [i [[[[t pl] pr] ra] ti]]. core_keeps.
  apply ci_new; unfold batch_row, unowned; simpl; apply (submitted_unowned env q p t pl pr ra ti po 0).
Qed.

End plain.
#[export] Hint Resolve ci_mark_replayed ci_violation
  ci_logs ci_update_schedule ci_prune ci_update_worker ci_register ci_subscribe ci_audit
  ci_insertDeps ci_deleteIdem ci_insertIdem ci_create ci_paused ci_put_policy ci_deletePolicy
  ci_insertUser ci_insertSession ci_revokeSession ci_insertOrg ci_insertOwner ci_upsertMember
  ci_updateOrg ci_insertProject ci_updateProject ci_put_schedule ci_age ci_retry ci_replay ci_replay_dead ci_insertScheduled ci_insertJob
  ci_insertBatch ci_start ci_extend ci_success ci_failure ci_snooze ci_batch ci_archive : fl.

(** ** Invariants that do not read the queues *)

(** The tables that are left. *)
Definition job_side (db : DB) := (jobs db, leases db, execs db, events db, event_seq db, jobs_archive db).

Section job_side.
Context (P : DB → Prop).
Context (Hframe : ∀ db db', job_side db' = job_side db → P db → P db').
Context (Hemit : ∀ env t e p pl, t ≠ "job.completed" → keeps P (emit env t e p pl)).

Lemma job_side_raw {A} (m : sql A) :
  (∀ db a db', m db = inr (a, db') → job_side db' = job_side db) → keeps P m.
Proof.
  intros Hm db HP. destruct (m db) as [|[a db']] eqn:Hr; [done|].
  apply (Hframe db); [by eapply Hm|done].
Qed.

Lemma job_side_modify f : (∀ db, job_side (f db) = job_side db) → keeps P (modify f : sql unit).
Proof. intros Hf. apply keeps_modify. intros db HP. by apply (Hframe db). Qed.

Lemma job_side_switch from to t q env : t ≠ "job.completed" → keeps P (switch from to t q env).
Proof.
  intros Ht. unfold switch. repeat first [apply Hemit; done | by apply job_side_modify | keeps_step].
Qed.

Lemma job_side_paused i b env : keeps P (setPausedSQL i b env).
Proof. unfold setPausedSQL. repeat first [by apply job_side_modify | keeps_step]. Qed.

Lemma job_side_put env i o q : keeps P (put_queue env i o q).
Proof.
  apply job_side_raw. intros db a db' Hraw. unfold put_queue, spread in Hraw.
  repeat case_match; simplify_eq; done.
Qed.

Lemma job_side_admit env q want : keeps P (queue_admit env q want).
Proof.
  unfold queue_admit, admit_breaker, admit_shard. repeat first [by apply job_side_modify | keeps_step].
Qed.

Lemma job_side_release q s n : keeps P (queue_release q s n).
Proof. by apply job_side_modify. Qed.

Lemma job_side_reconcile : keeps P reconcile_in_flight.
Proof.
  unfold reconcile_in_flight. repeat keeps_step. apply job_side_raw.
  intros db b db' Hraw. unfold reconcile_shard in Hraw. repeat case_match; simplify_eq; done.
Qed.

Lemma job_side_config : ConfigInv P.
Proof.
  intros i req po env. unfold updateQueueSQL. repeat first [apply job_side_put | keeps_step].
Qed.

Lemma job_side_claim :
  (∀ q n w l ts sh env, keeps P (claimSQL q n w l ts sh env)) → ClaimInv P.
Proof.
  intros Hc. split; [done|apply job_side_admit|apply job_side_release|apply job_side_reconcile].
Qed.

Lemma core_of_job_side db db' : core db' = core db → P db → P db'.
Proof. intros Hc. apply Hframe. unfold core in Hc. unfold job_side. congruence. Qed.

End job_side.

(** ** Operations *)

Ltac core_stmt :=
  match goal with
  | |- keeps _ (switch _ _ _ _ _) => apply ci_switch; [by intros ?|done]
  | |- keeps _ (gets _) => apply keeps_gets
  | |- keeps _ (mret _) => apply keeps_ret
  | |- keeps _ (emit _ _ _ _ _) => apply ci_emit; done
  | |- keeps _ (update_execs _ _) => apply ci_close; done
  | |- keeps _ _ => solve [auto with fl]
  end.
Ltac core_go := repeat first [core_stmt | go_step].

Section ops.
Context (X : Externals) (P : DB → Prop) `{!CoreInv P}.

(** The unconditional part: calls outside of a request. *)

Lemma core_Start i f w : go_keeps P (Start i f w).
Proof. unfold Start. core_go. Qed.
Lemma core_ExtendLease i f l p : go_keeps P (ExtendLease i f l p).
Proof. unfold ExtendLease. core_go. Qed.
Lemma core_Complete i f x : go_keeps P (Complete i f x).
Proof. unfold Complete. core_go. Qed.
Lemma core_Fail i f c : go_keeps P (Fail i f c).
Proof. unfold Fail. core_go. Qed.
Lemma core_Snooze i f x d : go_keeps P (Snooze i f x d).
Proof. unfold Snooze. core_go. Qed.
Lemma core_CompleteBatch b : go_keeps P (CompleteBatch b).
Proof. unfold CompleteBatch. core_go. Qed.
Lemma core_Probe i f w : go_keeps P (Probe i f w).
Proof. unfold Probe, violation, probeSQL. core_go. Qed.
Lemma core_CloseExecution x st : go_keeps P (CloseExecution x st).
Proof. unfold CloseExecution, closeExecSQL. core_go. Qed.
Lemma core_AppendLogs x ls : go_keeps P (AppendLogs x ls).
Proof. unfold AppendLogs. core_go. Qed.
Hint Resolve core_Start core_ExtendLease core_Complete core_Fail
  core_Snooze core_CompleteBatch core_Probe core_CloseExecution core_AppendLogs : fl.

(** Workers. *)

Lemma core_writeLogs x ls : go_keeps P (writeLogs x ls).
Proof. unfold writeLogs. core_go. Qed.
Lemma core_probe cfg c x : go_keeps P (probe cfg c x).
Proof. unfold probe. core_go. Qed.
Hint Resolve core_writeLogs core_probe : fl.

Lemma core_handling cfg live ca c x l s : go_keeps P (handling cfg live ca c x l s).
Proof.
  revert s. induction l as [|[p|lv m|] l IH]; intros s; simpl; [core_go|by apply IH..|].
  apply go_keeps_bind; [|intros; apply IH]. unfold lease_tick, extend. core_go.
Qed.
Hint Resolve core_handling : fl.

Lemma core_runOne cfg hs live st ab c : go_keeps P (runOne cfg hs live st ab c).
Proof. unfold runOne, startJob, snooze, report. core_go. Qed.

Lemma core_flush cfg live buf : go_keeps P (flush cfg live buf).
Proof.
  unfold flush. destruct buf as [|f buf]; [core_go|]. generalize (f :: buf). clear f buf. intros buf.
  core_go. induction buf as [|f buf IH]; simpl; [core_go|]. case_decide; [done|]. by core_go.
Qed.

Lemma core_Register q h p c : go_keeps P (Register q h p c).
Proof. unfold Register. core_go. Qed.
Lemma core_announce cfg ts : go_keeps P (announce cfg ts).
Proof. unfold announce. core_go. Qed.

(** The scheduler. *)

Lemma core_Promote limit : go_keeps P (Promote limit).
Proof.
  unfold Promote. apply go_keeps_tx_body.
  eapply (tx_body_bind _ _ _ (λ ids db, P db ∧ ∀ i j, i ∈ ids → jobs db !! i = Some j → unowned j)).
  { apply tx_hoare_exec. intros env. apply hoare_gets. intros db HP. split; [done|].
    intros i j (j' & Hj' & Hd)%elem_of_limit_fst Hj. rewrite Hj in Hj'. injection Hj' as <-.
    unfold due in Hd. unfold unowned. by destruct (status j). }
  intros [|i0 ids0]; [apply tx_body_ret|]. generalize (i0 :: ids0). intros ids.
  eapply (tx_body_bind _ _ _ (λ _, P)); [|intros n; by apply tx_body_commit_ret].
  apply tx_hoare_exec. intros env. unfold promoteUpdateSQL.
  eapply (hoare_bind _ _ (λ rows db, P db ∧
    ∀ r j, r ∈ rows → jobs db !! r.1 = Some j → unowned j)).
  { apply hoare_gets. intros db [HP Hun]. split; [done|]. intros [i p] j Hr Hj.
    apply list_elem_of_omap in Hr as (i' & Hi & Hr).
    destruct (jobs db !! i') as [j'|] eqn:Hj'; [|done]. injection Hr as -> _. by eapply Hun. }
  intros rows. eapply (hoare_bind _ _ (λ _, P)); [|intros []; core_keeps].
  by apply (keeps_idle_writes P rows fst (λ _, queued_row)).
Qed.

Lemma core_Reap limit : go_keeps P (Reap limit).
Proof. unfold Reap, expiredSQL, reportLostSQL. core_go. Qed.
Lemma core_Sweep limit : go_keeps P (SweepOrphanExecutions limit).
Proof. unfold SweepOrphanExecutions, sweepSQL. core_go. core_keeps. by apply ci_close. Qed.
Lemma core_Breaker w t c : go_keeps P (Breaker w t c).
Proof.
  unfold Breaker, breakerQueuesSQL, failureCounts, breakerWindowSQL. core_go.
  unfold breaker_one, breakerProbeSQL, breakerOpenSQL, breakerReopenSQL, breakerCloseSQL. core_go.
Qed.
Lemma core_Notify since : go_keeps P (Notify since).
Proof. unfold Notify, eventHeadSQL. core_go. Qed.

Lemma core_Rollup l : go_keeps P (Rollup l).
Proof.
  unfold Rollup. go_keeps. apply keeps_bind; [apply keeps_gets|intros rows].
  apply keeps_bind; [|intros out; core_keeps].
  apply keeps_traverse. intros r. unfold rollup_row, int_of, to_int4. core_keeps.
Qed.

Lemma core_failures c q h l env : keeps P (failuresSQL c q h l env).
Proof.
  unfold failuresSQL. apply keeps_bind; [apply keeps_gets|intros rows].
  apply keeps_bind; [|intros ?; apply keeps_ret]. apply keeps_traverse. intros k.
  unfold failure_row, to_int4. cbv zeta. core_keeps.
Qed.
Hint Resolve core_failures : fl.

Lemma core_saveSummary q d t m env : keeps P (saveSummarySQL q d t m env).
Proof. core_raw saveSummarySQL. Qed.
Hint Resolve core_saveSummary : fl.

Lemma core_Summarize c h f ready ask limit : go_keeps P (Summarize c h f ready ask limit).
Proof.
  unfold Summarize, staleSummariesSQL. destruct (negb ready); [apply go_keeps_ret|].
  apply go_keeps_bind; [core_go|]. intros todo. generalize 0%nat, 0, (None : option err).
  induction todo as [|s todo IH]; intros k n last; simpl; unfold Failures; core_go; apply IH.
Qed.

Lemma core_Materialize limit :
  go_keeps P (Materialize (x_LoadLocation X) (x_ParseStandard X) (x_Next X) limit).
Proof.
  unfold Materialize, dueSchedulesSQL. core_go.
  unfold materialize_one, disableSchedule, disableScheduleSQL, overlapSQL, advanceScheduleSQL.
  core_go.
Qed.

(** ** Requests *)

Ltac core_tx := repeat first [core_stmt | tx_step].

Lemma core_guarded {B} (min : role) action entity (loc : locator B) (h : scoped B) r :
  (∀ uid, tx_keeps P (loc r uid)) → (∀ sc, tx_keeps P (h r sc)) →
  tx_keeps P (guarded (x_uuid_Parse X) min action entity loc h r).
Proof.
  intros Hl Hh. unfold guarded, authuser, sessionSQL, audit. cbv zeta. core_tx.
Qed.

Lemma core_scopeBy query uid id :
  (∀ a b env, keeps P (query a b env)) → tx_keeps P (scopeBy query uid id).
Proof. intros Hq. unfold scopeBy. core_tx. Qed.

Lemma core_byPath {B} name fn r uid :
  (∀ uid id, tx_keeps P (fn uid id)) → tx_keeps P (byPath (B:=B) (x_uuid_Parse X) name fn r uid).
Proof. intros Hf. unfold byPath. core_tx. Qed.

Lemma core_orgScope uid id : tx_keeps P (orgScope uid id).
Proof. unfold orgScope, orgScopeSQL. core_tx. Qed.

Lemma core_or_problem {A} tests (m : go A) : tx_keeps P m → tx_keeps P (or_problem tests m).
Proof. intros Hm. unfold or_problem. core_tx. Qed.

Lemma core_assertPolicyOwned po pr : tx_keeps P (assertPolicyOwned po pr).
Proof. unfold assertPolicyOwned, policyOwnedSQL. core_tx. Qed.
Hint Resolve core_assertPolicyOwned : fl.

Lemma core_parentIDs parse l : tx_keeps P (parentIDs parse l).
Proof. induction l as [|p l IH]; simpl; core_tx. Qed.
Lemma core_link c ps : tx_keeps P (link c ps).
Proof. unfold link, cycleSQL. core_tx. Qed.
Hint Resolve core_parentIDs core_link : fl.

Lemma core_insert_submitted parse sc t pl k fp pr ti po req :
  tx_keeps P (insert_submitted parse sc t pl k fp pr ti po req).
Proof. unfold insert_submitted, parentsSQL, emit_tx. core_tx. Qed.
Hint Resolve core_insert_submitted : fl.

Lemma core_submitJob parse str valid canon sha r sc :
  tx_keeps P (submitJob parse str valid canon sha r sc).
Proof.
  unfold submitJob, queueDefaultsSQL, queuedCountSQL, lookup_key, findIdemSQL, loadSubmitView,
    submitViewSQL. cbv zeta. core_tx.
Qed.

Lemma core_batch_rows valid d l : tx_keeps P (batch_rows valid d l).
Proof. induction l as [|j l IH]; simpl; core_tx. Qed.
Hint Resolve core_batch_rows : fl.

Lemma core_submitBatch valid b r sc : tx_keeps P (submitBatch valid b r sc).
Proof. unfold submitBatch, queueDefaultsSQL, queuedCountSQL, emit_tx. cbv zeta. core_tx. Qed.

Lemma core_retryJob r sc : tx_keeps P (retryJob (B:=unit) r sc).
Proof. unfold retryJob, emit_tx. core_tx. Qed.
Lemma core_replayQueue r sc : tx_keeps P (replayQueue r sc).
Proof. unfold replayQueue. cbv zeta. core_tx. Qed.
Lemma core_replayJob str r sc : tx_keeps P (replayJob (B:=unit) str r sc).
Proof. unfold replayJob, cancelledKinSQL, emit_tx. core_tx. Qed.
Lemma core_getBatch r sc : tx_keeps P (getBatch (B:=unit) r sc).
Proof. unfold getBatch, batchCountsSQL. cbv zeta. core_tx. Qed.
Lemma core_cancelJob r sc : tx_keeps P (cancelJob (B:=unit) r sc).
Proof. apply ci_cancel. Qed.
Hint Resolve core_submitJob core_submitBatch core_retryJob core_replayQueue core_replayJob
  core_getBatch core_cancelJob : fl.

Lemma core_insertQueue p n po c d pr ra bu k env : keeps P (insertQueueSQL p n po c d pr ra bu k env).
Proof. unfold insertQueueSQL. cbv zeta. core_keeps. Qed.
Lemma core_insertPolicy p env : keeps P (insertPolicySQL p env).
Proof. unfold insertPolicySQL. core_keeps. Qed.
Lemma core_updatePolicySQL i req k env : keeps P (updatePolicySQL i req k env).
Proof. unfold updatePolicySQL. cbv zeta. core_keeps. Qed.
Lemma core_insertSchedule tz q n e t jt pl ov ca nx env :
  keeps P (insertScheduleSQL tz q n e t jt pl ov ca nx env).
Proof. unfold insertScheduleSQL. cbv zeta. core_keeps. Qed.
Lemma core_updateScheduleSQL tz i req nx env : keeps P (updateScheduleSQL tz i req nx env).
Proof. unfold updateScheduleSQL. cbv zeta. core_keeps. Qed.
Lemma core_setScheduleEnabledSQL i b env : keeps P (setScheduleEnabledSQL i b env).
Proof. unfold setScheduleEnabledSQL. core_keeps. Qed.
Hint Resolve core_insertQueue core_insertPolicy
  core_updatePolicySQL core_insertSchedule core_updateScheduleSQL core_setScheduleEnabledSQL : fl.

Ltac core_tx ::= repeat first
  [core_stmt | match goal with |- tx_keeps _ (or_problem _ _) => apply core_or_problem end | tx_step].

Lemma core_createQueue parse r sc : tx_keeps P (createQueue parse r sc).
Proof. unfold createQueue. cbv zeta. core_tx. Qed.
Lemma core_getQueue r sc : tx_keeps P (getQueue (B:=unit) r sc).
Proof. unfold getQueue, getQueueSQL. core_tx. Qed.
Lemma core_setPaused sc b t : t ≠ "job.completed" → tx_keeps P (setPaused sc b t).
Proof. intros Ht. unfold setPaused, emit_tx. core_tx. Qed.
Lemma core_createPolicy r sc : tx_keeps P (createPolicy r sc).
Proof. unfold createPolicy. cbv zeta. core_tx. Qed.
Lemma core_updatePolicy r sc : tx_keeps P (updatePolicy r sc).
Proof. unfold updatePolicy. core_tx. Qed.
Lemma core_deletePolicy r sc : tx_keeps P (deletePolicy (B:=unit) r sc).
Proof. unfold deletePolicy. core_tx. Qed.

Section cron.
Context {L C : Type} (load : string → option L) (parse : string → option C)
  (next : C → L → timestamp → timestamp) (tz valid : string → bool).

Lemma core_checkCron e t : tx_keeps P (checkCron load parse next e t).
Proof. unfold checkCron. core_tx. Qed.
Hint Resolve core_checkCron : fl.

Lemma core_createSchedule r sc : tx_keeps P (createSchedule load parse next tz valid r sc).
Proof. unfold createSchedule. cbv zeta. core_tx. Qed.
Lemma core_updateSchedule r sc : tx_keeps P (updateSchedule load parse next tz valid r sc).
Proof. unfold updateSchedule, getScheduleSQL. core_tx. Qed.

End cron.

Lemma core_pauseQueue r sc : tx_keeps P (pauseQueue (B:=unit) r sc).
Proof. by apply core_setPaused. Qed.
Lemma core_resumeQueue r sc : tx_keeps P (resumeQueue (B:=unit) r sc).
Proof. by apply core_setPaused. Qed.
Hint Resolve core_pauseQueue core_resumeQueue : fl.

Lemma core_setScheduleEnabled sc b : tx_keeps P (setScheduleEnabled sc b).
Proof. unfold setScheduleEnabled. core_tx. Qed.
Lemma core_pauseSchedule r sc : tx_keeps P (pauseSchedule (B:=unit) r sc).
Proof. apply core_setScheduleEnabled. Qed.
Lemma core_resumeSchedule r sc : tx_keeps P (resumeSchedule (B:=unit) r sc).
Proof. apply core_setScheduleEnabled. Qed.
Hint Resolve core_pauseSchedule core_resumeSchedule : fl.
Hint Resolve core_createQueue core_getQueue core_createPolicy core_updatePolicy
  core_deletePolicy core_createSchedule core_updateSchedule core_setScheduleEnabled : fl.

Lemma core_guard {B} min a e (loc : locator B) (h : scoped B) r w :
  (∀ uid, tx_keeps P (loc r uid)) → (∀ sc, tx_keeps P (h r sc)) →
  at_rest P w → at_rest P (snd (guard (x_uuid_Parse X) min a e loc h r w)).
Proof.
  intros Hl Hh Hw.
  pose proof (go_keeps_handler P maxTxRetries (ErrOther "nil") _
    (core_guarded min a e loc h r Hl Hh) w Hw) as H.
  unfold guard, server_tx, caught, mbind, go_bind in *. by destruct (tx_attempts _ _ _ w).
Qed.

Lemma core_public {B} (h : scoped B) r w :
  (∀ sc, tx_keeps P (h r sc)) → at_rest P w → at_rest P (snd (public h r w)).
Proof.
  intros Hh Hw. pose proof (go_keeps_handler P maxTxRetries (ErrOther "nil") _
    (Hh (mkScope uuid_Nil uuid_Nil uuid_Nil uuid_Nil uuid_Nil viewer)) w Hw) as H.
  unfold public, server_tx, caught, mbind, go_bind in *. by destruct (tx_attempts _ _ _ w).
Qed.

(** Accounts. *)

Lemma core_register hash salt r sc : tx_keeps P (register hash salt r sc).
Proof. unfold register. cbv zeta. core_tx. Qed.
Lemma core_login str verify sid r sc : tx_keeps P (login str verify sid r sc).
Proof. unfold login, findUserSQL. core_tx. Qed.
Lemma core_logout r sc : tx_keeps P (logout (B:=unit) r sc).
Proof. unfold logout. core_tx. Qed.
Lemma core_createOrg r sc : tx_keeps P (createOrg r sc).
Proof. unfold createOrg. cbv zeta. core_tx. Qed.
Lemma core_listOrgs r sc : tx_keeps P (listOrgs (B:=unit) r sc).
Proof. unfold listOrgs, listOrgsSQL. core_tx. Qed.
Lemma core_getOrg r sc : tx_keeps P (getOrg (B:=unit) r sc).
Proof. unfold getOrg, getOrgSQL. core_tx. Qed.
Lemma core_updateOrg r sc : tx_keeps P (updateOrg r sc).
Proof. unfold updateOrg. cbv zeta. core_tx. Qed.
Lemma core_addMember r sc : tx_keeps P (addMember r sc).
Proof. unfold addMember. cbv zeta. core_tx. Qed.
Lemma core_createProject r sc : tx_keeps P (createProject r sc).
Proof. unfold createProject. cbv zeta. core_tx. Qed.
Lemma core_listProjects r sc : tx_keeps P (listProjects (B:=unit) r sc).
Proof. unfold listProjects, listProjectsSQL. core_tx. Qed.
Lemma core_getProject r sc : tx_keeps P (getProject (B:=unit) r sc).
Proof. unfold getProject, getProjectSQL. core_tx. Qed.
Lemma core_updateProject r sc : tx_keeps P (updateProject r sc).
Proof. unfold updateProject. cbv zeta. core_tx. Qed.
Hint Resolve core_register core_login core_logout core_createOrg core_listOrgs core_getOrg core_updateOrg
  core_addMember core_createProject core_listProjects core_getProject core_updateProject : fl.

(** The lists. *)

Lemma core_queue_filter parse r : tx_keeps P (queue_filter (B:=unit) parse r).
Proof. unfold queue_filter. core_tx. Qed.
Hint Resolve core_queue_filter : fl.
Lemma core_lift_err {A} (e : err + A) : tx_keeps P (lift_err e).
Proof. unfold lift_err. core_tx. Qed.
Hint Resolve core_lift_err : fl.
Lemma core_listJobs parse str r sc : tx_keeps P (listJobs (B:=unit) parse str r sc).
Proof. unfold listJobs. cbv zeta. core_tx. Qed.
Lemma core_listDLQ parse str r sc : tx_keeps P (listDLQ (B:=unit) parse str r sc).
Proof. unfold listDLQ. cbv zeta. core_tx. Qed.
Lemma core_listEvents r sc : tx_keeps P (listEvents (B:=unit) r sc).
Proof. unfold listEvents, afterID, listEventsSQL. cbv zeta. core_tx. Qed.
Lemma core_listWorkers r sc : tx_keeps P (listWorkers (B:=unit) r sc).
Proof. unfold listWorkers, listWorkersSQL. core_tx. Qed.
Lemma core_listQueues c r sc : tx_keeps P (listQueues (B:=unit) c r sc).
Proof. unfold listQueues, listQueuesSQL. core_tx. Qed.
Lemma core_listPolicies c r sc : tx_keeps P (listPolicies (B:=unit) c r sc).
Proof. unfold listPolicies, listPoliciesSQL. core_tx. Qed.
Lemma core_getPolicy r sc : tx_keeps P (getPolicy (B:=unit) r sc).
Proof. unfold getPolicy, getPolicySQL. core_tx. Qed.
Lemma core_listSchedules c r sc : tx_keeps P (listSchedules (B:=unit) c r sc).
Proof. unfold listSchedules, listSchedulesSQL. core_tx. Qed.
Lemma core_getSchedule r sc : tx_keeps P (getSchedule (B:=unit) r sc).
Proof. unfold getSchedule, getScheduleSQL. core_tx. Qed.

(** Statistics, health and one job in full. *)

Lemma core_to_int4 z : keeps P (to_int4 z).
Proof. unfold to_int4. destruct (in_int4 z); [apply keeps_ret|apply keeps_raise]. Qed.
Hint Resolve core_to_int4 : fl.
Lemma core_tiers_of env rows : keeps P (tiers_of env rows).
Proof.
  apply keeps_traverse. intros p. unfold tier_row, epoch_int.
  repeat first [apply core_to_int4 | apply keeps_ret | apply keeps_bind; [|intros ?]].
Qed.
Lemma core_oldestByTier q env : keeps P (oldestByTierSQL q env).
Proof. apply keeps_bind; [apply keeps_gets|intros ?; apply core_tiers_of]. Qed.
Lemma core_queueWorkers q env : keeps P (queueWorkersSQL q env).
Proof. apply keeps_bind; [apply keeps_gets|intros ?; apply core_to_int4]. Qed.
Lemma core_projectQueues c p env : keeps P (projectQueuesSQL c p env).
Proof.
  intros db HP. unfold projectQueuesSQL. apply (keeps_traverse P); [|done]. intros [i q]. unfold health_row.
  apply keeps_bind; [apply core_to_int4|intros ?; apply keeps_ret].
Qed.
Lemma core_projectTiers ids env : keeps P (projectTiersSQL ids env).
Proof.
  intros db HP. unfold projectTiersSQL. cbv zeta.
  apply (keeps_bind P _ (λ out, mret (concat out))); [|intros ?; apply keeps_ret|done].
  apply keeps_traverse. intros q. apply keeps_bind; [apply core_tiers_of|intros ?; apply keeps_ret].
Qed.
Lemma core_projectThroughput ids env : keeps P (projectThroughputSQL ids env).
Proof.
  intros db HP. unfold projectThroughputSQL. cbv zeta. apply (keeps_traverse P _); [|done]. intros q. unfold hour_row.
  repeat first [apply core_to_int4 | apply keeps_ret | apply keeps_bind; [|intros ?]].
Qed.
Hint Resolve core_oldestByTier core_queueWorkers core_projectQueues core_projectTiers core_projectThroughput : fl.
Lemma core_queueStats r sc : tx_keeps P (queueStats (B:=unit) r sc).
Proof. unfold queueStats, load_stats, getQueueSQL, statusCountsSQL, oldestReadySQL, breakerUntilSQL, throughputSQL, latencySQL. core_tx. Qed.
Lemma core_queueSeries r sc : tx_keeps P (queueSeries (B:=unit) r sc).
Proof. unfold queueSeries, series_minutes, seriesSQL. cbv zeta. core_tx. Qed.
Lemma core_projectHealth c r sc : tx_keeps P (projectHealth (B:=unit) c r sc).
Proof. unfold projectHealth, load_health. cbv zeta. core_tx. Qed.
Lemma core_getJob r sc : tx_keeps P (getJob (B:=unit) r sc).
Proof.
  unfold getJob, loadExecutions, getJobSQL, jobExecsSQL, jobLogsSQL, jobParentsSQL, jobChildrenSQL, leaseSQL.
  cbv zeta. core_tx.
Qed.
Lemma core_failureSummary c h ready r sc : tx_keeps P (failureSummary (B:=unit) c h ready r sc).
Proof. unfold failureSummary, Failures, cachedSummarySQL. cbv zeta. core_tx. Qed.
Hint Resolve core_failureSummary core_queueStats core_queueSeries core_projectHealth core_getJob : fl.
Hint Resolve core_listJobs core_listDLQ core_listEvents core_listWorkers core_listQueues
  core_listPolicies core_getPolicy core_listSchedules core_getSchedule : fl.

(** What a request is about. *)

Ltac core_scope := apply core_scopeBy; intros; apply keeps_gets.
Lemma core_projectScope uid id : tx_keeps P (projectScope uid id).
Proof. core_scope. Qed.
Lemma core_queueScope uid id : tx_keeps P (queueScope uid id).
Proof. core_scope. Qed.
Lemma core_policyScope uid id : tx_keeps P (policyScope uid id).
Proof. core_scope. Qed.
Lemma core_jobScope uid id : tx_keeps P (jobScope uid id).
Proof. core_scope. Qed.
Lemma core_scheduleScope uid id : tx_keeps P (scheduleScope uid id).
Proof. core_scope. Qed.
Lemma core_batchScope uid id : tx_keeps P (batchScope uid id).
Proof. core_scope. Qed.
Hint Resolve core_orgScope core_projectScope core_queueScope core_policyScope core_jobScope
  core_scheduleScope core_batchScope : fl.

Lemma core_none r uid : tx_keeps P (none (B:=unit) r uid).
Proof. unfold none. core_tx. Qed.
Lemma core_none_name r uid : tx_keeps P (none (B:=nameReq) r uid).
Proof. unfold none. core_tx. Qed.
Lemma core_byProjectOrQueue r uid : tx_keeps P (byProjectOrQueue (B:=unit) (x_uuid_Parse X) r uid).
Proof. unfold byProjectOrQueue. core_tx. Qed.
Lemma core_byProjectQuery r uid : tx_keeps P (byProjectQuery (B:=unit) (x_uuid_Parse X) r uid).
Proof. unfold byProjectQuery. core_tx. Qed.
Hint Resolve core_none core_none_name core_byProjectOrQueue core_byProjectQuery : fl.

(** The routes and operations that neither claim nor change the settings of a
    queue. *)
Definition plain_route (rt : route) : bool :=
  match rt with PatchQueue _ => false | _ => true end.

Definition plain (o : op) : bool :=
  match o with
  | OpServe rt => plain_route rt
  | OpClaim _ | OpAdmit _ _ | OpTake _ _ _ | OpRelease _ _ _ | OpReconcile => false
  | _ => true
  end.

Lemma core_serve rt w : plain_route rt = true → at_rest P w → at_rest P (snd (serve X rt w)).
Proof.
  intros Hp Hw. destruct rt; try discriminate Hp; cbn [serve];
    lazymatch goal with
    | |- at_rest _ (snd (guard _ _ _ _ _ _ _ _)) => apply core_guard; [intros uid|intros sc|exact Hw]
    | |- at_rest _ (snd (public _ _ _)) => apply core_public; [intros sc|exact Hw]
    end;
    try (apply core_byPath; clear uid; intros uid id); solve [eauto 2 with nocore fl].
Qed.

Lemma not_plain_route rt : plain_route rt = false → ∃ r, rt = PatchQueue r.
Proof. destruct rt; try done. eauto. Qed.

Hint Resolve core_Rollup core_Summarize core_runOne core_flush core_Register core_announce core_Promote core_Reap core_Sweep
  core_Breaker core_Notify core_Materialize : fl.

Lemma serve_final rt w : at_rest P (snd (serve X rt w)) → P (final_db (run_op X (OpServe rt)) w).
Proof.
  intros (_ & HP & _). unfold final_db. simpl. unfold ignore, mbind, go_bind.
  by destruct (serve X rt w) as [[] w'].
Qed.

(** Every plain operation keeps [P], whatever fails and whoever else is at work. *)
Lemma core_plain o w : plain o = true → at_rest P w → P (final_db (run_op X o) w).
Proof.
  intros Hp Hw. destruct o; try done;
    try (destruct Hw as (Hs & HP & Ho); apply (go_keeps_run P); [|done..];
         unfold run_op, ignore, beat, retire, Age, Prune, reportLostSQL;
         core_go; fail).
  by apply serve_final, core_serve.
Qed.

End ops.

Section all.
Context (X : Externals) (P : DB → Prop) `{!CoreInv P, !ClaimInv P, !ConfigInv P}.

Lemma core_take_jobs req sh n : go_keeps P (take_jobs req sh n).
Proof. unfold take_jobs, Release. go_keeps; [apply ci_claim|apply ci_queue_release]. Qed.

Lemma core_Claim req : go_keeps P (Claim req).
Proof.
  unfold Claim, admit_slots. go_keeps; [apply ci_queue_admit|apply core_take_jobs|apply ci_queue_release].
Qed.

Lemma core_updateQueue parse r sc : tx_keeps P (updateQueue parse r sc).
Proof.
  unfold updateQueue. repeat first [tx_step | apply core_or_problem]; [|apply ci_update_queue].
  by apply core_assertPolicyOwned.
Qed.

(** Every operation keeps [P]. *)
Lemma core_invariant o w : at_rest P w → P (final_db (run_op X o) w).
Proof.
  intros Hw. destruct (plain o) eqn:Hp; [by apply core_plain|].
  assert (∀ A (m : go A), go_keeps P m → P (final_db (ignore m) w)) as Hgo.
  { intros A m Hm. destruct Hw as (Hs & HP & Ho). apply (go_keeps_run P); [|done..].
    unfold ignore. apply go_keeps_bind; [done|]. intros ?. apply go_keeps_ret. }
  destruct o; try done; simpl.
  - destruct (not_plain_route rt Hp) as [r ->]. apply (serve_final X P (PatchQueue r)).
    simpl. apply core_guard; [apply _| | |done]; intros ?.
    + apply core_byPath. intros. apply core_scopeBy. intros. apply keeps_gets.
    + apply core_updateQueue.
  - apply Hgo, core_Claim.
  - apply Hgo. unfold admit_slots. go_keeps. apply ci_queue_admit.
  - apply Hgo, core_take_jobs.
  - destruct Hw as (Hs & HP & Ho). apply (go_keeps_run P); [|done..]. go_keeps. apply ci_queue_release.
  - apply Hgo. unfold ReconcileInFlight. go_keeps. apply ci_reconcile.
Qed.

Lemma core_reachable db0 db : P db0 → reachable X db0 db → P db.
Proof. apply reachable_inv, core_invariant. Qed.

End all.
