(* ===== verification/Outbox.v ===== *)
(** * The outbox only grows

    A property of the event table and of the sequence of its ids that survives
    an [fl.emit] ([OutboxInv]) is kept by every operation of the services.  One
    such property: the table has grown, at its end, with ids that increase. *)

From S2P Require Import Prelude Schema Fl Pool Jobs Sched Cron Archiver Worker Api ApiJobs ApiAdmin GoLogic System Core.

#[local] Open Scope string_scope.
#[local] Open Scope list_scope.
#[local] Open Scope Z_scope.

(** ** Definitions *)

Definition outbox (db : DB) : list Event * Z := (events db, event_seq db).

Class OutboxInv (P : DB → Prop) : Prop := {
  ob_frame db db' : outbox db' = outbox db → P db → P db';
  ob_emit env t e p pl : keeps P (emit env t e p pl);
}.

(** The ids of [l] increase, from above [lo] up to at most [hi]. *)
Definition ascending (lo hi : Z) (l : list Event) : Prop :=
  StronglySorted Z.lt (e_id <$> l) ∧ Forall (λ e, lo < e_id e ≤ hi) l.

(** [db] has the events of [db0] and, after them, later ones. *)
Definition grows (db0 db : DB) : Prop := ∃ new,
  events db = events db0 ++ new ∧ ascending (event_seq db0) (event_seq db) new ∧
  event_seq db0 ≤ event_seq db.

(** The ids come from the sequence. *)
Definition numbered (db : DB) : Prop := ∃ lo, ascending lo (event_seq db) (events db).

(** ** Lists of increasing ids *)

Lemma ascending_nil lo hi : ascending lo hi [].
Proof. split; constructor. Qed.

Lemma ascending_weaken lo lo' hi hi' l : lo' ≤ lo → hi ≤ hi' → ascending lo hi l → ascending lo' hi' l.
Proof.
  intros ? ? [Hs Hf]. split; [done|]. eapply list.Forall_impl; [exact Hf|]. intros e ?. simpl in *. lia.
Qed.

Lemma ascending_app lo mid hi l l' :
  lo ≤ mid ≤ hi → ascending lo mid l → ascending mid hi l' → ascending lo hi (l ++ l').
Proof.
  intros Hm [Hs Hf] [Hs' Hf']. split.
  - rewrite fmap_app. clear -Hs Hf Hs' Hf'. induction l as [|e l IH]; simpl; [done|].
    apply StronglySorted_inv in Hs as [Hs Hlt]. apply list.Forall_cons in Hf as [He Hf].
    constructor; [by apply IH|]. apply Forall_app. split; [done|].
    apply Forall_fmap. eapply list.Forall_impl; [exact Hf'|]. intros e' ?. simpl in *. lia.
  - apply Forall_app. split; (eapply list.Forall_impl; [eassumption|]); intros e ?; simpl in *; lia.
Qed.

#[export] Instance grows_refl : Reflexive grows.
Proof. intros db. exists []. rewrite app_nil_r. split_and!; [done|apply ascending_nil|lia]. Qed.

#[export] Instance grows_trans : Transitive grows.
Proof.
  intros db1 db2 db3 (n1 & He1 & Ha1 & Hs1) (n2 & He2 & Ha2 & Hs2). exists (n1 ++ n2). split_and!.
  - by rewrite He2, He1, app_assoc.
  - by eapply ascending_app.
  - lia.
Qed.

Lemma grows_numbered db0 db : grows db0 db → numbered db0 → numbered db.
Proof.
  intros (new & He & Ha & Hs) [lo Hl]. exists (Z.min lo (event_seq db0)). rewrite He.
  apply (ascending_app _ (event_seq db0)); [lia| |exact Ha]. eapply ascending_weaken; [..|exact Hl]; lia.
Qed.

#[export] Instance grows_inv db0 : OutboxInv (grows db0).
Proof.
  split.
  - intros db db' [= He Hs] (new & H1 & H2 & H3). exists new. rewrite He, Hs. done.
  - intros env t e p pl. apply keeps_modify. intros db Hg. etrans; [exact Hg|]. simpl.
    eexists [_]. split_and!; [done| |simpl; lia]. split; repeat constructor; simpl; lia.
Qed.

(** ** Every statement keeps an [OutboxInv] *)

Section stmts.
Context (P : DB → Prop) `{!OutboxInv P}.

Lemma ob_raw {A} (m : sql A) :
  (∀ db a db', m db = inr (a, db') → outbox db' = outbox db) → keeps P m.
Proof.
  intros Hm db HP. destruct (m db) as [|[a db']] eqn:Hr; [done|].
  apply (ob_frame db); [by eapply Hm|done].
Qed.

Lemma ob_modify f : (∀ db, outbox (f db) = outbox db) → keeps P (modify f : sql unit).
Proof. intros Hf. apply keeps_modify. intros db HP. by apply (ob_frame db). Qed.

Lemma ob_update i f : keeps P (update_job i f).
Proof.
  apply hoare_update_job; [done|]. intros db old HP _ _ _ _. by apply (ob_frame db).
Qed.

End stmts.

Ltac ob_raw f :=
  apply ob_raw; [apply _|]; intros ? ? ? Hraw; unfold f in Hraw;
  repeat case_match; simplify_eq; done.

Ltac ob_step :=
  match goal with
  | |- keeps _ (emit _ _ _ _ _) => apply ob_emit
  | |- keeps _ (update_job _ _) => apply ob_update; apply _
  | |- keeps _ (modify _) => apply ob_modify; [apply _|intros; done]
  | |- _ => keeps_step
  end.
Ltac ob := as_keeps; repeat ob_step.

Section fl.
Context (P : DB → Prop) `{!OutboxInv P}.

Lemma ob_new i j : keeps P (insert_job i j).
Proof. ob_raw insert_job. Qed.
Lemma ob_drop_lease i : keeps P (drop_lease i).
Proof. unfold drop_lease. ob. Qed.
Lemma ob_add_stat env q c f d ms : keeps P (add_stat env q c f d ms).
Proof. unfold add_stat. ob. Qed.
Lemma ob_queue_release q s n : keeps P (queue_release q s n).
Proof. unfold queue_release. ob. Qed.
Lemma ob_insert_dead_letter env i j o cls msg perm : keeps P (insert_dead_letter env i j o cls msg perm).
Proof. apply ob_modify; [apply _|]. intros db. by destruct (dead_letters db !! i). Qed.
Lemma ob_mark_replayed env i a : keeps P (mark_replayed env i a).
Proof. unfold mark_replayed. ob. Qed.
Lemma ob_update_execs sel f : keeps P (update_execs sel f).
Proof. ob_raw update_execs. Qed.
Lemma ob_insert_exec i x : keeps P (insert_exec i x).
Proof. ob_raw insert_exec. Qed.
Lemma ob_emit_each env t pl ids k : keeps P (emit_each env t pl ids k).
Proof. unfold emit_each. ob. Qed.
Lemma ob_put_queue env i o q : keeps P (put_queue env i o q).
Proof.
  apply ob_raw; [apply _|]. intros db a db' Hraw. unfold put_queue, spread in Hraw.
  repeat case_match; simplify_eq; done.
Qed.
Lemma ob_reconcile_shard k : keeps P (reconcile_shard k).
Proof. ob_raw reconcile_shard. Qed.
Hint Resolve ob_new ob_drop_lease ob_add_stat ob_queue_release ob_insert_dead_letter ob_mark_replayed
  ob_update_execs ob_insert_exec ob_emit_each ob_put_queue ob_reconcile_shard : fl.

Lemma ob_cancel_descendants env i : keeps P (cancel_descendants env i).
Proof. unfold cancel_descendants. ob. Qed.
Lemma ob_finish_dependents env i : keeps P (finish_dependents env i).
Proof. unfold finish_dependents. ob. Qed.
Hint Resolve ob_cancel_descendants ob_finish_dependents : fl.

Lemma ob_success env i f x : keeps P (report_success env i f x).
Proof. unfold report_success. ob. Qed.
Lemma ob_failure env i f o cls msg perm : keeps P (report_failure env i f o cls msg perm).
Proof. unfold report_failure. ob. Qed.
Lemma ob_snooze env i f x d : keeps P (report_snooze env i f x d).
Proof. unfold report_snooze. ob. Qed.
Lemma ob_batch_update env input : keeps P (batch_update env input).
Proof. induction input as [|[[i f] x] input IH]; simpl; ob. Qed.
Hint Resolve ob_batch_update : fl.
Lemma ob_batch env input : keeps P (report_success_batch env input).
Proof. unfold report_success_batch. ob. Qed.
Lemma ob_claim q n w l ts sh env : keeps P (claimSQL q n w l ts sh env).
Proof. unfold claimSQL, upsert_lease. ob. Qed.
Lemma ob_start i f w env : keeps P (startSQL i f w env).
Proof. unfold startSQL. ob. Qed.
Lemma ob_extend i f l p env : keeps P (extendSQL i f l p env).
Proof. ob_raw extendSQL. Qed.
Lemma ob_cancelJob r sc : tx_keeps P (cancelJob (B:=unit) r sc).
Proof.
  unfold cancelJob, cancelExecSQL, cancelLeaseSQL, Release, emit_tx, cancelSQL.
  repeat first [tx_step | ob_step].
Qed.
Lemma ob_archiving parent (rows : DB → list (option timestamp)) f :
  (∀ db, outbox (f db) = outbox db) → keeps P (archiving parent rows f).
Proof.
  intros Hf. apply ob_raw; [apply _|]. intros db a db' Hr. unfold archiving in Hr.
  case_match; simplify_eq. apply Hf.
Qed.
Lemma ob_Archive a d l : go_keeps P (Archive a d l).
Proof.
  apply go_keeps_Archive; [intros db ps; by apply ob_frame|..]; intros ids env; by apply ob_archiving.
Qed.

End fl.
#[local] Hint Resolve ob_new ob_queue_release ob_put_queue ob_reconcile_shard : fl.

(** ** An [OutboxInv] is an invariant of the system *)

Section system.
Context (P : DB → Prop) `{!OutboxInv P}.

Lemma outbox_core : CoreInv P.
Proof.
  split; intros; eauto using ob_emit, ob_new, ob_start, ob_extend, ob_update_execs, ob_success, ob_failure,
    ob_snooze, ob_batch, ob_Archive, ob_put_queue.
  - unfold core in *. apply (ob_frame db); unfold outbox; congruence.
  - intros db i old new HP ????????. by apply (ob_frame db).
  - by apply ob_cancelJob.
  - unfold switch. ob.
  - unfold setPausedSQL. ob.
Qed.

Lemma outbox_claims : ClaimInv P.
Proof.
  split; intros; eauto using ob_claim, ob_queue_release.
  - unfold queue_admit, admit_breaker, admit_shard. ob.
  - unfold reconcile_in_flight. ob.
Qed.

Lemma outbox_config : ConfigInv P.
Proof. intros i req po env. unfold updateQueueSQL. ob. Qed.

Lemma outbox_reachable X db0 db : P db0 → reachable X db0 db → P db.
Proof.
  pose proof outbox_core. pose proof outbox_claims. pose proof outbox_config. by apply core_reachable.
Qed.

End system.

(** Whatever the processes do, the outbox grows. *)
Lemma process_grows X f db : process X f → grows db (f db).
Proof.
  intros Hf. apply (outbox_reachable (grows db) X db); [done|]. by exists f.
Qed.
