(* ===== verification/Daemons.v ===== *)
(** * The loops of the scheduler, of the archiver and of the listener of a worker

    internal/scheduler/scheduler.go, the [Run] of internal/archiver,
    internal/worker/wake.go.  The loops run side by side: one of them is a list of
    turns, and what the others and the other services do between the calls of a
    turn is in the calls. *)

From S2P Require Import Prelude Text Schema Fl Pool Jobs Sched Cron Archiver Worker Ai Summaries Rollup Stream System Core Fixture.

#[local] Open Scope string_scope.
#[local] Open Scope list_scope.
#[local] Open Scope Z_scope.

(** ** scheduler.go *)

Record SchedulerConfig := mkSchedulerConfig {
  sg_Promote : duration;
  sg_Reap : duration;
  sg_Cron : duration;
  sg_Breaker : duration;
  sg_Age : duration;
  sg_Partition : duration;
  sg_Notify : duration;
  sg_Rollup : duration;
  sg_Sweep : duration;
  sg_Summary : duration;
  sg_Batch : Z;
  sg_AgeAfter : duration;
  sg_AgeCeiling : Z;
  sg_Hot : duration;
  sg_Cold : duration;
  sg_Horizon : duration;
  sg_Lookback : duration;
  sg_Window : Z;
  sg_Trip : Z;
  sg_Cooldown : duration;
}.

Definition millisecond : duration := 1000000.
Definition a_minute : duration := 60 * second.
Definition an_hour : duration := 60 * a_minute.

Definition DefaultSchedulerConfig : SchedulerConfig := {|
  sg_Promote := second;
  sg_Reap := 5 * second;
  sg_Cron := second;
  sg_Breaker := 5 * second;
  sg_Age := 30 * second;
  sg_Partition := an_hour;
  sg_Notify := 20 * millisecond;
  sg_Rollup := a_minute;
  sg_Sweep := a_minute;
  sg_Summary := 5 * a_minute;
  sg_Batch := 100;
  sg_AgeAfter := 5 * a_minute;
  sg_AgeCeiling := 3;
  sg_Hot := 7 * 24 * an_hour;
  sg_Cold := 90 * 24 * an_hour;
  sg_Horizon := 30 * 24 * an_hour;
  sg_Lookback := 10 * a_minute;
  sg_Window := 20;
  sg_Trip := 10;
  sg_Cooldown := 30 * second;
|}.

(** [draw] is what [rand.Int64N(int64(d/2) + 1)] returns. *)
Definition jitter (d draw : duration) : duration := if d <=? 0 then 0 else Z.quot d 2 + draw.

(** A sweep that [start] starts: its name, its period and its function, which is
    given the variable [head] and gives it back with its error. *)
Record Sweep := mkSweep {
  sw_name : string;
  sw_every : duration;
  sw_run : Z → go (Z * option err);
}.

(** [func(ctx context.Context) error { _, err := m; return err }] *)
Definition returning {A} (m : go A) (head : Z) : go (Z * option err) :=
  r ← caught m;
  mret (head, match r with inl e => Some e | inr _ => None end).

Definition summarizing (m : go (Z * option err)) (head : Z) : go (Z * option err) :=
  r ← caught m;
  mret (head, match r with inl e => Some e | inr (_, e) => e end).

(** [n, err := Notify(ctx, pool, head); head = n]; with an error [Notify] returns
    the position it was given. *)
Definition notifying (head : Z) : go (Z * option err) :=
  r ← caught (Notify head);
  mret match r with inl e => (head, Some e) | inr (n, _) => (n, None) end.

Section scheduler.
Context (X : Externals) (cfg : SchedulerConfig).

(** The sweeps of [Run].  [free] says whether the lock of the maintenance is free,
    [ready] and [ask] are the language model's. *)
Definition sweeps (free ready : bool) (ask : nat → string → err + Reply) : list Sweep := [
  mkSweep "promote" (sg_Promote cfg) (returning (Promote (sg_Batch cfg)));
  mkSweep "reap" (sg_Reap cfg) (returning (Reap (sg_Batch cfg)));
  mkSweep "sweep" (sg_Sweep cfg) (returning (SweepOrphanExecutions (sg_Batch cfg)));
  mkSweep "cron" (sg_Cron cfg)
    (returning (Materialize (x_LoadLocation X) (x_ParseStandard X) (x_Next X) (sg_Batch cfg)));
  mkSweep "breaker" (sg_Breaker cfg) (returning (Breaker (sg_Window cfg) (sg_Trip cfg) (sg_Cooldown cfg)));
  mkSweep "age" (sg_Age cfg) (returning (Age (sg_AgeAfter cfg) (sg_AgeCeiling cfg) (sg_Batch cfg)));
  mkSweep "partition" (sg_Partition cfg) (returning (Maintain free (sg_Hot cfg) (sg_Cold cfg) (sg_Horizon cfg)));
  mkSweep "rollup" (sg_Rollup cfg) (returning (Rollup (sg_Lookback cfg)));
  mkSweep "summary" (sg_Summary cfg)
    (summarizing (Summarize (x_collation X) (x_md5 X) (x_Format X) ready ask (sg_Batch cfg)));
  mkSweep "notify" (sg_Notify cfg) notifying].

End scheduler.

(** A turn of a loop: the draw of its wait, the calls of its sweep, and whether
    the context is still alive when the sweep returns. *)
Record turn := mkTurn {
  t_draw : duration;
  t_calls : nat → Call;
  t_live : bool;
}.

Record loop_state := mkLoop {
  lo_slept : list duration;
  lo_logged : list (string * err);
  lo_head : Z;
  lo_db : DB;
}.

(** [loop]: it waits, runs the sweep and logs its error, until the context is
    done, after the last turn. *)
Definition loop_turn (s : Sweep) (st : loop_state) (t : turn) : loop_state :=
  let '(r, w) := sw_run s (lo_head st) (start (lo_db st) (t_calls t)) in
  let '(head, e) := match r with inr p => p | inl e => (lo_head st, Some e) end in
  mkLoop (lo_slept st ++ [jitter (sw_every s) (t_draw t)])
    (lo_logged st ++ match e with Some e => if t_live t then [(sw_name s, e)] else [] | None => [] end)
    head (w_db w).

Definition loop (s : Sweep) (turns : list turn) (db : DB) : loop_state :=
  foldl (loop_turn s) (mkLoop [] [] 0 db) turns.

(** ** archiver.go *)

Record ArchiverConfig := mkArchiverConfig {
  ac_Every : duration;
  ac_Prune : duration;
  ac_After : duration;
  ac_DeadLetter : duration;
  ac_Batch : Z;
}.

Definition DefaultArchiverConfig : ArchiverConfig :=
  mkArchiverConfig a_minute (10 * a_minute) (24 * an_hour) (30 * 24 * an_hour) 500.

Inductive archiver_tick := MoveTick (fuel : nat) (calls : nat → Call) | PruneTick (calls : nat → Call).

(** [Run]: what the tickers make it do until the context is done. *)
Definition archiver_turn (cfg : ArchiverConfig) (db : DB) (t : archiver_tick) : DB :=
  match t with
  | MoveTick fuel calls =>
    final_db (archive_all fuel (ac_After cfg) (ac_DeadLetter cfg) (ac_Batch cfg)) (start db calls)
  | PruneTick calls => final_db Prune (start db calls)
  end.

Definition archiver_run (cfg : ArchiverConfig) (ticks : list archiver_tick) (db : DB) : DB :=
  foldl (archiver_turn cfg) db ticks.

(** ** wake.go *)

(** The worker's listener, as the one of the API: a notification leaves a token in
    the channel. *)
Definition worker_listenOnce (c : Connection) (token : bool) : bool :=
  if negb (cn_acquired c) then token else
  if negb (cn_listens c) then token else
  Nat.iter (cn_notified c) (λ _, true) token.

Definition worker_listen (l : list Connection) (token : bool) : bool :=
  foldl (λ token c, worker_listenOnce c token) token l.

(** ** The loops stay within the system *)

Lemma returning_world {A} (m : go A) head w : snd (returning m head w) = snd (m w).
Proof. unfold returning, caught, mbind, go_bind. by destruct (m w). Qed.

Lemma summarizing_world m head w : snd (summarizing m head w) = snd (m w).
Proof. unfold summarizing, caught, mbind, go_bind. by destruct (m w). Qed.

Lemma notifying_world head w : snd (notifying head w) = snd (Notify head w).
Proof. unfold notifying, caught, mbind, go_bind. by destruct (Notify head w). Qed.

Lemma ignore_world {A} (m : go A) w : final_db (ignore m) w = w_db (snd (m w)).
Proof. unfold final_db, ignore, mbind, go_bind. by destruct (m w) as [[] ?]. Qed.

Section loops.
Context (X : Externals) (cfg : SchedulerConfig) (free ready : bool) (ask : nat → string → err + Reply).

(** A sweep of the scheduler, but for the maintenance of the partitions, is an
    operation of the system. *)
Lemma sweep_is_op s head :
  s ∈ sweeps X cfg free ready ask → sw_name s ≠ "partition" →
  ∃ o, ∀ w, w_db (snd (sw_run s head w)) = final_db (run_op X o) w.
Proof.
  intros Hs Hn. unfold sweeps in Hs. rewrite !elem_of_cons, elem_of_nil in Hs.
  destruct Hs as [->|[->|[->|[->|[->|[->|[->|[->|[->|[->|[]]]]]]]]]]]; cbn [sw_run sw_name] in *; try done.
  - exists (OpPromote (sg_Batch cfg)). intros w. by rewrite returning_world, <- ignore_world.
  - exists (OpReap (sg_Batch cfg)). intros w. by rewrite returning_world, <- ignore_world.
  - exists (OpSweep (sg_Batch cfg)). intros w. by rewrite returning_world, <- ignore_world.
  - exists (OpMaterialize (sg_Batch cfg)). intros w. by rewrite returning_world, <- ignore_world.
  - exists (OpBreaker (sg_Window cfg) (sg_Trip cfg) (sg_Cooldown cfg)). intros w. by rewrite returning_world, <- ignore_world.
  - exists (OpAge (sg_AgeAfter cfg) (sg_AgeCeiling cfg) (sg_Batch cfg)). intros w. by rewrite returning_world, <- ignore_world.
  - exists (OpRollup (sg_Lookback cfg)). intros w. by rewrite returning_world, <- ignore_world.
  - exists (OpSummarize ready ask (sg_Batch cfg)). intros w. by rewrite summarizing_world, <- ignore_world.
  - exists (OpNotify head). intros w. by rewrite notifying_world, <- ignore_world.
Qed.

(** A turn as it may go. *)
Definition turn_ok (s : Sweep) (t : turn) : Prop :=
  (∀ n, process X (c_other (t_calls t n))) ∧ 0 ≤ t_draw t ≤ Z.quot (sw_every s) 2.

Lemma jitter_bounds d draw : 0 < d → 0 ≤ draw ≤ Z.quot d 2 → d / 2 ≤ jitter d draw ≤ d.
Proof.
  intros Hd Hr. unfold jitter. destruct (Z.leb_spec d 0); [lia|]. rewrite Z.quot_div_nonneg in * by lia.
  pose proof (Z.mul_div_le d 2). lia.
Qed.

Lemma Notify_forward head w : match fst (Notify head w) with inr (n, _) => head ≤ n | inl _ => True end.
Proof.
  unfold Notify, mbind, go_bind, caught. destruct (pool_exec eventHeadSQL w) as [[e|h] w1]; [done|].
  destruct (Z.leb_spec h head); simpl; [lia|]. destruct (pool_exec _ w1) as [[e|[]] w2]; simpl; [done|lia].
Qed.

Lemma sweep_head s head w :
  s ∈ sweeps X cfg free ready ask →
  match fst (sw_run s head w) with inr (n, _) => head ≤ n | inl _ => True end.
Proof.
  intros Hs. unfold sweeps in Hs. rewrite !elem_of_cons, elem_of_nil in Hs.
  assert (∀ A (m : go A), match fst (returning m head w) with inr (n, _) => head ≤ n | inl _ => True end) as Hr.
  { intros A m. unfold returning, caught, mbind, go_bind. destruct (m w). simpl. lia. }
  destruct Hs as [->|[->|[->|[->|[->|[->|[->|[->|[->|[->|[]]]]]]]]]]]; cbn [sw_run]; try apply Hr.
  - unfold summarizing, caught, mbind, go_bind. destruct (Summarize _ _ _ _ _ _ w). simpl. lia.
  - pose proof (Notify_forward head w) as Hf. unfold notifying, caught, mbind, go_bind.
    destruct (Notify head w) as [[e|[n b]] w']; simpl in *; lia.
Qed.

Lemma loop_turn_ok s st t db :
  s ∈ sweeps X cfg free ready ask → sw_name s ≠ "partition" → turn_ok s t → reachable X db (lo_db st) →
  reachable X db (lo_db (loop_turn s st t)) ∧ lo_head st ≤ lo_head (loop_turn s st t) ∧
  lo_slept (loop_turn s st t) = lo_slept st ++ [jitter (sw_every s) (t_draw t)].
Proof.
  intros Hs Hn [Hp _] Hr. destruct (sweep_is_op s (lo_head st) Hs Hn) as [o Ho].
  pose proof (sweep_head s (lo_head st) (start (lo_db st) (t_calls t)) Hs) as Hh.
  specialize (Ho (start (lo_db st) (t_calls t))). unfold loop_turn.
  destruct (sw_run s (lo_head st) _) as [r w]. simpl in Ho, Hh. destruct r as [e|[n e]]; simpl; rewrite Ho;
    (split; [|split; [lia|done]]); (eapply reachable_trans; [exact Hr|by apply reachable_run]).
Qed.

Lemma loop_turns_ok s turns db st :
  s ∈ sweeps X cfg free ready ask → sw_name s ≠ "partition" → Forall (turn_ok s) turns → reachable X db (lo_db st) →
  let out := foldl (loop_turn s) st turns in
  reachable X db (lo_db out) ∧ lo_head st ≤ lo_head out ∧
  lo_slept out = lo_slept st ++ ((λ t, jitter (sw_every s) (t_draw t)) <$> turns).
Proof.
  intros Hs Hn. revert st. induction turns as [|t turns IH]; intros st Hall Hr; simpl; [by rewrite app_nil_r|].
  apply list.Forall_cons in Hall as [Ht Hall].
  destruct (loop_turn_ok s st t db Hs Hn Ht Hr) as (H1 & H2 & H3).
  destruct (IH (loop_turn s st t) Hall H1) as (H4 & H5 & H6). split; [done|]. split; [lia|].
  rewrite H6, H3, <- app_assoc. done.
Qed.

End loops.


Definition promote_loop : Sweep := mkSweep "promote" second (returning (Promote 100)).

(** Two turns of the promotion: half a second, and a second. *)
Definition two_turns : list turn :=
  [mkTurn 0 (quiet env0) true; mkTurn (500 * millisecond) (quiet (later 1000000)) true].

