(* ===== verification/Programs.v ===== *)
(** * internal/db/db.go and the programs under cmd

    A program reads its settings from the environment, opens the pool and runs a
    service; what it comes to is a [started].  The driver is not part of the
    repository: [ParseConfig] reads the URL, [NewWithConfig] and [Ping] say whether
    the pool could be made and the server answers. *)

From S2P Require Import Prelude Text Schema Fl Pool Jobs Worker Daemons Migrations Diagram.
From stdpp Require Import list pretty.

#[local] Open Scope string_scope.
#[local] Open Scope list_scope.
#[local] Open Scope Z_scope.

(** ** db.Open *)

(** [pgxpool.Config], as much as the code sets of it. *)
Record PoolConfig := mkPoolConfig {
  MaxConns : Z;
  RuntimeParams : gmap string string;
  MaxConnLifetime : duration;
}.

#[export] Instance eta_PoolConfig : Eta PoolConfig := λ c,
  mkPoolConfig (MaxConns c) (RuntimeParams c) (MaxConnLifetime c).

Definition set_param (k v : string) (c : PoolConfig) : PoolConfig :=
  c <| RuntimeParams := <[k := v]> (RuntimeParams c) |>.

(** The last element of a path that does not end in a slash. *)
Definition last_element (path : string) : string := default "" (last (Split path (of_byte 47))).

Fixpoint all_slashes (s : string) : bool :=
  match s with "" => true | String c s' => (byte_of c =? 47) && all_slashes s' end.

(** The text less the slashes at its end. *)
Fixpoint strip_slashes (s : string) : string :=
  match s with
  | "" => ""
  | String c s' => if all_slashes s then "" else String c (strip_slashes s')
  end.

(** [filepath.Base] *)
Definition Base (path : string) : string :=
  if decide (path = "") then "." else
  if decide (strip_slashes path = "") then "/" else last_element (strip_slashes path).

(** [int(d.Milliseconds())], in decimal. *)
Definition milliseconds (d : duration) : string := pretty (Z.quot d 1000000) +:+ "ms".

(** What [Open] makes of the configuration the URL gives. *)
Definition configure (args0 : string) (maxConns : Z) (txTimeout : duration) (c : PoolConfig) : PoolConfig :=
  let c1 := if 0 <? maxConns then c <| MaxConns := maxConns |> else c in
  let c2 := set_param "statement_timeout" "30s" (set_param "application_name" (Base args0) c1) in
  let c3 := if 0 <? txTimeout then set_param "transaction_timeout" (milliseconds txTimeout) c2 else c2 in
  c3 <| MaxConnLifetime := an_hour |>.

Section programs.
Context (ParseConfig : string → err + PoolConfig) (NewWithConfig Ping : PoolConfig → option err).
Context (Error : err → string) (args0 : string) (Getenv : string → string).

Definition Open (url : string) (maxConns : Z) (txTimeout : duration) : err + PoolConfig :=
  match ParseConfig url with
  | inl e => inl e
  | inr c =>
    let cfg := configure args0 maxConns txTimeout c in
    match NewWithConfig cfg with
    | Some e => inl e
    | None => match Ping cfg with Some e => inl e | None => inr cfg end
    end
  end.

(** A program dies with a message, or runs its service on a pool. *)
Inductive started (A : Type) := Died (msg : string) | Started (pool : PoolConfig) (a : A).
Arguments Died {A} _.
Arguments Started {A} _ _.

(** [url := os.Getenv("DATABASE_URL"); ...; pool, err := db.Open(...)] *)
Definition with_url {A} (k : string → started A) : started A :=
  if decide (Getenv "DATABASE_URL" = "") then Died "DATABASE_URL is not set" else k (Getenv "DATABASE_URL").

Definition opening {A} (url : string) (maxConns : Z) (txTimeout : duration) (a : A) : started A :=
  match Open url maxConns txTimeout with
  | inl e => Died (Error e)
  | inr pool => Started pool a
  end.

(** ** cmd/api *)

Record ApiSettings := mkApiSettings { Addr : string; AllowedOrigins : list string; ReadHeaderTimeout : duration }.

Definition api_addr : string :=
  if decide (Getenv "API_ADDR" = "")
  then ":" +:+ (if decide (Getenv "API_PORT" = "") then "3001" else Getenv "API_PORT")
  else Getenv "API_ADDR".

Definition api_origins : list string :=
  if decide (Getenv "API_ALLOWED_ORIGINS" = "") then [] else Split (Getenv "API_ALLOWED_ORIGINS") (of_byte 44).

Definition api_main : started ApiSettings :=
  with_url (λ url, opening url 20 (10 * second) (mkApiSettings api_addr api_origins (10 * second))).

(** ** cmd/scheduler, cmd/archiver *)

Definition scheduler_main : started SchedulerConfig :=
  with_url (λ url, opening url 10 (30 * second) DefaultSchedulerConfig).

Definition archiver_main : started ArchiverConfig :=
  with_url (λ url, opening url 4 0 DefaultArchiverConfig).

(** ** cmd/worker *)

(** The handlers of the program.  [Unmarshal] is [json.Unmarshal] of the payload of
    a [sleep] into its milliseconds; [expires] is the error of the context, if it is
    done before they are over. *)
Definition worker_handlers (Unmarshal : string → option Z) (expires : WJob → Z → option string) :
    gmap string Handler :=
  {[ "noop" := λ _, mkHandling [] Ok;
     "sleep" := λ j,
       match Unmarshal (wj_Payload j) with
       | None => mkHandling [] (Failed (mkCause "bad sleep payload" false))
       | Some ms =>
         match expires j ms with
         | Some e => mkHandling [] (Failed (mkCause e false))
         | None => mkHandling [] Ok
         end
       end;
     "fail" := λ _, mkHandling [] (Failed (mkCause "deliberate failure" false)) ]}.

(** [int32(n)] *)
Definition int32 (n : Z) : Z := (n + 2 ^ 31) mod 2 ^ 32 - 2 ^ 31.

(** The settings of the program, or what it dies of. *)
Definition worker_settings (uuid_Parse : string → option uuid) : string + (uuid * Z) :=
  match uuid_Parse (Getenv "WORKER_QUEUE") with
  | None => inl "WORKER_QUEUE must be a queue id"
  | Some q =>
    if decide (Getenv "WORKER_CONCURRENCY" = "") then inr (q, 4) else
    match Atoi (Getenv "WORKER_CONCURRENCY") with
    | None => inl "WORKER_CONCURRENCY must be a positive number"
    | Some n => if n <? 1 then inl "WORKER_CONCURRENCY must be a positive number" else inr (q, n)
    end
  end.

(** The configuration [worker.Run] is given. *)
Definition worker_config (q w : uuid) (concurrency : Z) : Config :=
  let d := DefaultConfig q w in
  mkConfig q w concurrency (cf_Lease d) (Drain d) (Poll d) (Heartbeat d) (Listen d) (cf_CompleteBatch d) (CompleteWait d).

(** [register] is what [worker.Register] answers. *)
Definition worker_main (uuid_Parse : string → option uuid) (register : uuid → Z → err + uuid) : started Config :=
  with_url (λ url,
    match worker_settings uuid_Parse with
    | inl msg => Died msg
    | inr (q, n) =>
      match opening url (int32 (n + 4)) (30 * second) tt with
      | Died msg => Died msg
      | Started pool _ =>
        match register q n with
        | inl e => Died (Error e)
        | inr w => Started pool (worker_config q w n)
        end
      end
    end).

(** ** cmd/diagram *)

(** [args] is [os.Args]; [rows] and [cat] are what the queries read. *)
Definition diagram_main (args : list string) (rows : list (string * string * string)) (cat : Catalog)
    (WriteFile : string → string → option err) : started string :=
  with_url (λ url,
    let out := default "DIAGRAMS.md" (args !! 1%nat) in
    match opening url 1 0 tt with
    | Died msg => Died msg
    | Started pool _ =>
      match WriteFile out (diagram_of rows cat) with
      | Some e => Died (Error e)
      | None => Started pool ("wrote " +:+ out)
      end
    end).

(** ** What a program that starts runs *)

(** The pools of the programs: the bound on the connections, the timeouts. *)
Definition bounded (maxConns : Z) (tx : option string) (pool : PoolConfig) : Prop :=
  MaxConns pool = maxConns ∧ RuntimeParams pool !! "statement_timeout" = Some "30s" ∧
  (∀ t, tx = Some t → RuntimeParams pool !! "transaction_timeout" = Some t).

Lemma opening_bounded {A} url maxConns tx (a a' : A) pool :
  0 < maxConns → opening url maxConns tx a = Started pool a' →
  a' = a ∧ bounded maxConns (if 0 <? tx then Some (milliseconds tx) else None) pool.
Proof.
  intros Hm. unfold opening, Open. destruct (ParseConfig url) as [|c]; [done|].
  destruct (NewWithConfig _); [done|]. destruct (Ping _); [done|]. intros [= <- <-]. split; [done|].
  unfold configure, bounded. rewrite (proj2 (Z.ltb_lt _ _) Hm).
  destruct (0 <? tx); simpl; split_and!; try done.
  - by rewrite lookup_insert_ne, lookup_insert_eq.
  - intros t [= <-]. by rewrite lookup_insert_eq.
  - by rewrite lookup_insert_eq.
Qed.

Lemma with_url_started {A} (k : string → started A) pool a :
  with_url k = Started pool a → k (Getenv "DATABASE_URL") = Started pool a.
Proof. unfold with_url. by destruct (decide _). Qed.

Lemma worker_settings_pos uuid_Parse q n : worker_settings uuid_Parse = inr (q, n) → 1 ≤ n.
Proof.
  unfold worker_settings. intros H. repeat case_match; simplify_eq; lia.
Qed.

(** As long as the cast does not wrap, the worker has four connections more than
    it runs jobs at a time, which is what it registered with. *)
Lemma worker_connections uuid_Parse register pool cfg :
  worker_main uuid_Parse register = Started pool cfg → Concurrency cfg < 2 ^ 31 - 4 →
  1 ≤ Concurrency cfg ∧ register (cf_QueueID cfg) (Concurrency cfg) = inr (cf_WorkerID cfg) ∧
  bounded (Concurrency cfg + 4) (Some (milliseconds (30 * second))) pool.
Proof.
  intros H Hlt. apply with_url_started in H. destruct (worker_settings uuid_Parse) as [|[q n]] eqn:E; [done|].
  apply worker_settings_pos in E. destruct (opening _ _ _ _) as [|p []] eqn:Eo; [done|].
  destruct (register q n) eqn:Er; [done|]. simplify_eq. simpl in *.
  assert (int32 (n + 4) = n + 4) as Hn by (unfold int32; rewrite Z.mod_small by lia; lia).
  rewrite Hn in Eo. apply opening_bounded in Eo as [_ Hb]; [done|lia].
Qed.

End programs.
