(* ===== verification/Evolution.v ===== *)
(** * What no operation can do to a job

    A property of the job rows that survives a legal write of a row, a new row
    and the archiving of finished rows ([JobInv]) is kept by every operation of
    the services, whatever calls fail and however the processes interleave.
    Two such properties: every row satisfies the check constraints, and the rows
    have evolved from an earlier state along the state machine, with the work
    they stand for unchanged and their fence never lower. *)

From S2P Require Import Prelude Schema Fl Pool Jobs Sched Cron Archiver Worker Api ApiJobs ApiAdmin GoLogic System Core.

(** ** Definitions *)

Class JobInv (P : DB → Prop) : Prop := {
  ji_frame db db' : jobs db' = jobs db → jobs_archive db' = jobs_archive db → P db → P db';
  ji_write db i old new : P db → jobs db !! i = Some old → work new = work old →
    jobs_fsm old new = true → job_valid new →
    P (db <| jobs := <[i := new]> (jobs db) |>);
  ji_insert db i new : P db → jobs db !! i = None → tick_taken new db = false → job_valid new →
    P (db <| jobs := <[i := new]> (jobs db) |>);
  ji_archive env ids : hoare
    (λ db, P db ∧ ∀ i j, i ∈ ids → jobs db !! i = Some j → is_terminal (status j) = true)
    (moveJobsSQL ids env) (λ _, P);
}.

(** One legal move, and where a status can get by legal moves. *)
Definition legal_step (a b : job_status) : Prop := legal_transition a b = true.

Record job_le (j j' : Job) : Prop := {
  jl_work : work j' = work j;
  jl_fence : fence j ≤ fence j';
  jl_status : rtc legal_step (status j) (status j');
}.

(** [db] has evolved from [db0]: a job is still there, moved on, or it ended and
    is in the archive. *)
Definition evolves (db0 db : DB) : Prop := ∀ i j, jobs db0 !! i = Some j →
  ∃ j', job_le j j' ∧
    (jobs db !! i = Some j' ∨ (is_terminal (status j') = true ∧ (i, j') ∈ jobs_archive db)).

Definition rows_ok (db : DB) : Prop := ∀ i j, jobs db !! i = Some j → job_valid j.

(** ** The two instances *)

#[export] Instance job_le_refl : Reflexive job_le.
Proof. intros j. split; [done|lia|done]. Qed.

#[export] Instance job_le_trans : Transitive job_le.
Proof.
  intros j1 j2 j3 [? ? ?] [? ? ?]. split; [congruence|lia|by etrans].
Qed.

Lemma job_le_write j j' : work j' = work j → jobs_fsm j j' = true → job_le j j'.
Proof.
  intros Hw Hf. split; [done|by apply jobs_fsm_fence|].
  apply jobs_fsm_status in Hf as [->|Hl]; [done|by apply rtc_once].
Qed.

Lemma moveJobs_lookup ids env db db' u i :
  moveJobsSQL ids env db = inr (u, db') →
  jobs db' !! i = (if decide (i ∈ ids) then None else jobs db !! i) ∧
  (∀ j, i ∈ ids → jobs db !! i = Some j → (i, j) ∈ jobs_archive db') ∧
  (∀ r, r ∈ jobs_archive db → r ∈ jobs_archive db').
Proof.
  unfold moveJobsSQL, archiving. destruct (forallb _ _); [|done]. intros [= <- <-]. simpl. split_and!.
  - case_decide as Hi.
    + apply map_lookup_filter_None. right. by intros x _ ?.
    + apply option_eq. intros x. rewrite map_lookup_filter_Some. simpl. tauto.
  - intros j Hi Hj. apply elem_of_app. right. apply elem_of_select. split; [done|].
    by apply bool_decide_eq_true.
  - intros r Hr. apply elem_of_app. by left.
Qed.

#[export] Instance rows_ok_inv : JobInv rows_ok.
Proof.
  split.
  - intros db db' Hj _ HP i j. rewrite Hj. apply HP.
  - intros db i old new HP _ _ _ Hck i' j. simpl. rewrite lookup_insert.
    case_decide; [by intros [= <-]|apply HP].
  - intros db i new HP _ _ Hck i' j. simpl. rewrite lookup_insert.
    case_decide; [by intros [= <-]|apply HP].
  - intros env ids db [HP _]. destruct (moveJobsSQL ids env db) as [|[u db']] eqn:Hm; [done|].
    intros i j. destruct (moveJobs_lookup _ _ _ _ _ i Hm) as [-> _]. case_decide; [done|apply HP].
Qed.

#[export] Instance evolves_inv db0 : JobInv (evolves db0).
Proof.
  split.
  - intros db db' Hj Ha HP i j Hi. specialize (HP i j Hi). by rewrite Hj, Ha.
  - intros db i old new HP Hold Hw Hf _ i' j Hi. destruct (HP i' j Hi) as (j' & Hle & Hj'). simpl.
    destruct Hj' as [Hj'|Hj']; [|eauto]. rewrite lookup_insert. case_decide as E; [|eauto].
    subst i'. rewrite Hold in Hj'. injection Hj' as ->. exists new. split; [|by left].
    etrans; [exact Hle|by apply job_le_write].
  - intros db i new HP Hnone _ _ i' j Hi. destruct (HP i' j Hi) as (j' & Hle & [Hj'|Hj']); [|eauto].
    simpl. exists j'. split; [done|]. left. rewrite lookup_insert_ne; [done|]. intros ->. congruence.
  - intros env ids db [HP Ht]. destruct (moveJobsSQL ids env db) as [|[u db']] eqn:Hm; [done|].
    intros i j Hi. destruct (HP i j Hi) as (j' & Hle & Hj').
    destruct (moveJobs_lookup _ _ _ _ _ i Hm) as (-> & Harch & Hkeep).
    exists j'. split; [done|]. destruct Hj' as [Hj'|[? ?]]; [|by eauto].
    case_decide as Hin; [|by left]. right. eauto.
Qed.

(** A schedule has at most one job per tick in the table. *)
Definition ticks_unique (db : DB) : Prop := ∀ i i' j j' s,
  jobs db !! i = Some j → jobs db !! i' = Some j' →
  schedule_id j = Some s → schedule_id j' = Some s → scheduled_for j = scheduled_for j' → i = i'.

Lemma tick_free j db i j' :
  tick_taken j db = false → jobs db !! i = Some j' → same_tick j j' = false.
Proof.
  unfold tick_taken. rewrite bool_decide_eq_false. intros Hs Hi. apply not_true_iff_false. intros Ht.
  apply Hs. intros Hnil. assert ((i, j') ∈ select (λ _, same_tick j) (jobs db)) as Hin by (by apply elem_of_select).
  rewrite Hnil in Hin. by apply elem_of_nil in Hin.
Qed.

Lemma same_tick_true j j' s :
  schedule_id j = Some s → schedule_id j' = Some s → scheduled_for j = scheduled_for j' → same_tick j j' = true.
Proof.
  intros H1 H2 H3. unfold same_tick. rewrite H1, H2, H3.
  by rewrite !bool_decide_eq_true_2 by eauto.
Qed.

#[export] Instance ticks_unique_inv : JobInv ticks_unique.
Proof.
  split.
  - intros db db' Hj _ HP a b j j' s. rewrite Hj. apply HP.
  - intros db i old new HP Hold Hw _ _.
    assert (∀ a j, jobs (db <| jobs := <[i := new]> (jobs db) |>) !! a = Some j →
      ∃ j0, jobs db !! a = Some j0 ∧ schedule_id j0 = schedule_id j ∧ scheduled_for j0 = scheduled_for j) as Hback.
    { intros a j. simpl. rewrite lookup_insert. case_decide; [subst a|eauto]. intros [= <-].
      exists old. split; [done|]. unfold work in Hw. by simplify_eq. }
    intros a b j j' s (j0 & Ha & Hs & Hf)%Hback (j0' & Hb & Hs' & Hf')%Hback Hj Hj' Heq.
    eapply (HP a b j0 j0' s); congruence.
  - intros db i new HP Hnone Ht _ a b j j' s. simpl. rewrite !lookup_insert.
    repeat case_decide; subst; intros Ha Hb; simplify_eq; [done| | |by apply HP].
    + intros Hs Hs' Hf. pose proof (tick_free _ _ _ _ Ht Hb) as Hn. by rewrite (same_tick_true _ _ s) in Hn.
    + intros Hs Hs' Hf. pose proof (tick_free _ _ _ _ Ht Ha) as Hn. by rewrite (same_tick_true _ _ s) in Hn.
  - intros env ids db [HP _]. destruct (moveJobsSQL ids env db) as [|[u db']] eqn:Hm; [done|].
    intros a b j j' s. destruct (moveJobs_lookup _ _ _ _ _ a Hm) as [-> _].
    destruct (moveJobs_lookup _ _ _ _ _ b Hm) as [-> _]. repeat case_decide; try done. apply HP.
Qed.

(** ** Every statement keeps a [JobInv] *)

Section stmts.
Context (P : DB → Prop) `{!JobInv P}.

Lemma ji_update i f : (∀ j, work (f j) = work j) → keeps P (update_job i f).
Proof.
  intros Hf. apply hoare_update_job; [done|]. intros db old HP Hi Hrg Hfsm Hck.
  by eapply ji_write; try exact (conj Hrg Hck).
Qed.

Lemma ji_new i j : keeps P (insert_job i j).
Proof.
  intros db HP. unfold insert_job. destruct (job_in_range j) eqn:Hrg; simpl; [|done].
  destruct (job_checks j) eqn:Hck; simpl; [|done].
  destruct (bool_decide _) eqn:Hi; simpl; [done|]. destruct (tick_taken j db) eqn:Ht; simpl; [done|].
  apply bool_decide_eq_false, eq_None_not_Some in Hi. by apply ji_insert.
Qed.

Lemma ji_modify f :
  (∀ db, jobs (f db) = jobs db) → (∀ db, jobs_archive (f db) = jobs_archive db) →
  keeps P (modify f : sql unit).
Proof. intros Hj Ha. apply keeps_modify. intros db HP. by apply (ji_frame db). Qed.

(** A statement written on the database as a whole. *)
Lemma ji_raw {A} (m : sql A) :
  (∀ db a db', m db = inr (a, db') → jobs db' = jobs db ∧ jobs_archive db' = jobs_archive db) →
  keeps P m.
Proof.
  intros Hm db HP. destruct (m db) as [|[a db']] eqn:Hr; [done|].
  apply Hm in Hr as [? ?]. by apply (ji_frame db).
Qed.

End stmts.

Ltac raw_frame f :=
  apply ji_raw; [apply _|]; intros ? ? ? Hraw; unfold f in Hraw;
  repeat case_match; simplify_eq; done.

(** Closes the goals [keeps P s] for a statement [s]. *)
Ltac ji_step :=
  match goal with
  | |- keeps _ (update_job _ _) => apply ji_update; [apply _|]; intros; reflexivity
  | |- keeps _ (insert_job _ _) => apply ji_new; apply _
  | |- keeps _ (modify _) => apply ji_modify; [apply _|intros; done..]
  | |- _ => keeps_step
  end.
Ltac ji := as_keeps; repeat ji_step.

Section fl.
Context (P : DB → Prop) `{!JobInv P}.

Lemma ji_emit env t e p pl : keeps P (emit env t e p pl).
Proof. unfold emit. ji. Qed.
Lemma ji_drop_lease i : keeps P (drop_lease i).
Proof. unfold drop_lease. ji. Qed.
Lemma ji_add_stat env q c f d ms : keeps P (add_stat env q c f d ms).
Proof. unfold add_stat. ji. Qed.
Lemma ji_queue_release q s n : keeps P (queue_release q s n).
Proof. unfold queue_release. ji. Qed.
Lemma ji_insert_dead_letter env i j o cls msg perm : keeps P (insert_dead_letter env i j o cls msg perm).
Proof. apply ji_modify; [apply _| |]; intros db; by destruct (dead_letters db !! i). Qed.
Lemma ji_mark_replayed env i a : keeps P (mark_replayed env i a).
Proof. unfold mark_replayed. ji. Qed.
Lemma ji_update_execs sel f : keeps P (update_execs sel f).
Proof. raw_frame update_execs. Qed.
Lemma ji_insert_exec i x : keeps P (insert_exec i x).
Proof. raw_frame insert_exec. Qed.
Lemma ji_emit_each env t pl ids k : keeps P (emit_each env t pl ids k).
Proof. unfold emit_each. ji. apply ji_emit. Qed.
Lemma ji_reconcile_shard k : keeps P (reconcile_shard k).
Proof. raw_frame reconcile_shard. Qed.
Lemma ji_spread env q old new : keeps P (spread env q old new).
Proof. raw_frame spread. Qed.

End fl.
#[export] Hint Resolve ji_emit ji_drop_lease ji_add_stat ji_queue_release ji_insert_dead_letter
  ji_mark_replayed ji_update_execs ji_insert_exec ji_emit_each ji_reconcile_shard ji_spread : fl.

Section functions.
Context (P : DB → Prop) `{!JobInv P}.

Lemma ji_cancel_descendants env i : keeps P (cancel_descendants env i).
Proof. unfold cancel_descendants. ji. Qed.
Lemma ji_finish_dependents env i : keeps P (finish_dependents env i).
Proof. unfold finish_dependents. ji. Qed.
Hint Resolve ji_cancel_descendants ji_finish_dependents : fl.

Lemma ji_report_success env i f x : keeps P (report_success env i f x).
Proof. unfold report_success. ji. Qed.
Lemma ji_report_failure env i f o cls msg perm : keeps P (report_failure env i f o cls msg perm).
Proof. unfold report_failure. ji. Qed.
Lemma ji_report_snooze env i f x d : keeps P (report_snooze env i f x d).
Proof. unfold report_snooze. ji. Qed.
Lemma ji_batch_update env input : keeps P (batch_update env input).
Proof. induction input as [|[[i f] x] input IH]; simpl; ji. Qed.
Hint Resolve ji_batch_update : fl.
Lemma ji_report_success_batch env input : keeps P (report_success_batch env input).
Proof. unfold report_success_batch. ji. Qed.
Lemma ji_replay_dead env q cap rate actor : keeps P (replay_dead env q cap rate actor).
Proof. unfold replay_dead. ji. Qed.
Lemma ji_queue_admit env q want : keeps P (queue_admit env q want).
Proof. unfold queue_admit, admit_breaker, admit_shard. ji. Qed.
Lemma ji_reconcile : keeps P reconcile_in_flight.
Proof. unfold reconcile_in_flight. ji. Qed.

End functions.
#[export] Hint Resolve ji_cancel_descendants ji_finish_dependents ji_report_success
  ji_report_failure ji_report_snooze ji_report_success_batch ji_replay_dead ji_queue_admit
  ji_reconcile : fl.

(** ** What is archived has ended *)

(** The rows that are archived are finished, and stay so until they are moved. *)
Lemma terminal_Archive (P : DB → Prop) a d l :
  (∀ db db', jobs db' = jobs db → jobs_archive db' = jobs_archive db → P db → P db') →
  (∀ env ids, hoare
    (λ db, P db ∧ ∀ i j, i ∈ ids → jobs db !! i = Some j → is_terminal (status j) = true)
    (moveJobsSQL ids env) (λ _, P)) →
  go_keeps P (Archive a d l).
Proof.
  intros Hframe Harch.
  unfold Archive. apply go_keeps_tx_body.
  eapply (tx_body_bind _ _ _ (λ ids db, P db ∧
    ∀ i j, i ∈ ids → jobs db !! i = Some j → is_terminal (status j) = true)).
  { apply tx_hoare_exec. intros env. apply hoare_gets. intros db HP. split; [done|].
    intros i j (j' & Hj' & Ha)%elem_of_limit_fst Hj. rewrite Hj in Hj'. injection Hj' as <-.
    unfold archivable in Ha. rewrite !andb_true_iff in Ha. by destruct Ha as [[[? _] _] _]. }
  intros [|i0 ids0]; [apply tx_body_ret|]. generalize (i0 :: ids0). intros ids.
  set (R := λ db, P db ∧ ∀ i j, i ∈ ids → jobs db !! i = Some j → is_terminal (status j) = true).
  assert (∀ A (s : Env → sql A), (∀ env db a db', s env db = inr (a, db') →
    jobs db' = jobs db ∧ jobs_archive db' = jobs_archive db) → tx_hoare R (tx_exec s) (λ _, R)) as HR.
  { intros A s Hs. apply tx_hoare_exec. intros env db [HP Hd].
    destruct (s env db) as [|[x db']] eqn:Hx; [done|]. apply Hs in Hx as [Hj Ha]. split.
    - by apply (Hframe db).
    - by rewrite Hj. }
  eapply (tx_body_bind _ _ _ (λ _, R)).
  { apply (tx_hoare_fold (λ _, R)). intros [] q Hq. apply HR. intros env db [] db' Hr.
    destruct (partitions_only q ids env db Hq) as (ps & Hq' & _). rewrite Hq' in Hr. by injection Hr as <-. }
  intros []. eapply (tx_body_bind _ _ _ (λ _, P)).
  { cbn [go_fold]. do 3 (eapply tx_hoare_bind;
      [apply HR; intros ???? Hm; unfold moveLogsSQL, moveExecsSQL, moveDeadLettersSQL, archiving in Hm;
        by case_match; simplify_eq|intros []]).
    eapply tx_hoare_bind; [apply tx_hoare_exec; intros; apply Harch|intros []]. by apply tx_hoare_ret. }
  intros []. by apply tx_body_commit_ret.
Qed.

(** ** A [JobInv] is an invariant of the system *)

Section core.
Context (P : DB → Prop) `{!JobInv P}.

Lemma ji_claimSQL q n w l ts sh env : keeps P (claimSQL q n w l ts sh env).
Proof. unfold claimSQL, upsert_lease. ji. Qed.

Lemma ji_startSQL i f w env : keeps P (startSQL i f w env).
Proof. unfold startSQL. ji. Qed.

Lemma ji_extendSQL i f l p env : keeps P (extendSQL i f l p env).
Proof. raw_frame extendSQL. Qed.

Lemma ji_cancelJob r sc : tx_keeps P (cancelJob (B:=unit) r sc).
Proof.
  unfold cancelJob, cancelExecSQL, cancelLeaseSQL, Release, emit_tx, cancelSQL.
  repeat first [tx_step | ji_step].
Qed.

Lemma ji_Archive a d l : go_keeps P (Archive a d l).
Proof. apply terminal_Archive; [apply ji_frame|apply ji_archive]. Qed.

Lemma ji_side db db' : job_side db' = job_side db → P db → P db'.
Proof. unfold job_side. intros H. apply (ji_frame db); congruence. Qed.

Lemma ji_side_emit env t e p pl : t ≠ "job.completed"%string → keeps P (emit env t e p pl).
Proof. intros _. by apply ji_emit. Qed.

Lemma job_claim : ClaimInv P.
Proof. apply (job_side_claim P ji_side), ji_claimSQL. Qed.

Lemma job_config : ConfigInv P.
Proof. apply (job_side_config P ji_side). Qed.

Lemma job_core : CoreInv P.
Proof.
  split; intros; eauto using ji_claimSQL, ji_startSQL, ji_extendSQL, ji_Archive with fl.
  - unfold core in *. apply (ji_frame db); congruence.
  - intros db i old new HP Hi _ _ Hw _ _ Hf Hck. by eapply ji_write.
  - by apply ji_new.
  - apply ji_cancelJob.
  - by apply (job_side_switch P ji_side ji_side_emit).
  - apply (job_side_paused P ji_side).
  - apply (job_side_put P ji_side).
Qed.

(** A [JobInv] holds of every reachable database. *)
Lemma job_reachable X db0 db : P db0 → reachable X db0 db → P db.
Proof.
  pose proof job_core. pose proof job_claim. pose proof job_config. by apply core_reachable.
Qed.

End core.
