(* ===== verification/Slots.v ===== *)
(** * The concurrency slots

    [queue_shards.in_flight] is the counter admission compares with the cap.
    [slots_inv R] says that it never falls below the slots that are in use: the
    jobs that hold one and the [R k] slots of shard [k] granted to a claim that
    has not taken its jobs yet.  Each operation is a triple that says what it
    does to [R]. *)

From S2P Require Import Prelude Schema Fl Pool Jobs.

Abbreviation shard_key := (uuid * Z)%type (only parsing).

(** The counter of a shard, 0 when it has no row. *)
Definition used (k : shard_key) (db : DB) : Z := from_option in_flight 0 (queue_shards db !! k).

(** [R] is the slots granted and not yet used, per shard. *)
Definition slots_inv (R : shard_key → Z) (db : DB) : Prop :=
  ∀ k, active_on k.1 k.2 db + R k ≤ used k db.

(** [R] with [n] more slots of shard [k]. *)
Definition charge (k : shard_key) (n : Z) (R : shard_key → Z) : shard_key → Z :=
  λ k', if decide (k = k') then R k' + n else R k'.

Definition no_slots : shard_key → Z := λ _, 0.

(** The jobs of a queue that hold a slot, whatever the shard. *)
Definition active_jobs (q : uuid) (db : DB) : Z :=
  mcount (λ j, is_active (status j) && bool_decide (queue_id j = q)) (jobs db).

(** ** Lemmas *)

Lemma charge_0 k R k' : charge k 0 R k' = R k'.
Proof. unfold charge. case_decide; lia. Qed.

Lemma slots_inv_ext R R' db : (∀ k, R' k ≤ R k) → slots_inv R db → slots_inv R' db.
Proof. intros HR H k. specialize (H k). specialize (HR k). lia. Qed.

Lemma active_on_nonneg q s db : 0 ≤ active_on q s db.
Proof. apply mcount_nonneg. Qed.

(** The count of a shard after one job row is written. *)
Lemma active_on_update q s db i old new :
  jobs db !! i = Some old →
  active_on q s (db <| jobs := <[i := new]> (jobs db) |>) =
  active_on q s db - Z.b2z (holds_slot q s old) + Z.b2z (holds_slot q s new).
Proof. intros Hi. unfold active_on. simpl. by apply mcount_insert. Qed.

Lemma holds_slot_unowned q s j : unowned j → holds_slot q s j = false.
Proof. unfold holds_slot, unowned. by intros ->. Qed.

Lemma holds_slot_self q s j :
  is_active (status j) = true →
  holds_slot q s j = bool_decide ((queue_id j, shard j) = (q, s)).
Proof.
  unfold holds_slot. intros ->. simpl. rewrite <- bool_decide_and. apply bool_decide_ext.
  split; [intros []; congruence|intros [=]; auto].
Qed.

#[export] Instance slots_idle_stable R : IdleStable (slots_inv R).
Proof.
  intros db i old new HP Hi Ho Hn _ _ _ _ _ k.
  rewrite (active_on_update _ _ _ _ old) by done. rewrite !holds_slot_unowned by done.
  specialize (HP k). unfold used in *. simpl in *. lia.
Qed.

(** Giving up a job turns its slot into one that waits to be released. *)
Lemma slots_give_up R db i old new :
  slots_inv R db → jobs db !! i = Some old → is_active (status old) = true → unowned new →
  slots_inv (charge (queue_id old, shard old) 1 R) (db <| jobs := <[i := new]> (jobs db) |>).
Proof.
  intros HP Hi Ho Hn k. specialize (HP k). unfold used in *. simpl.
  rewrite (active_on_update _ _ _ _ old) by done.
  rewrite (holds_slot_unowned _ _ new), holds_slot_self by done.
  unfold charge. destruct k as [q s]. simpl in *. case_decide as E.
  - rewrite bool_decide_eq_true_2 by done. simpl. lia.
  - rewrite bool_decide_eq_false_2 by done. simpl. lia.
Qed.

(** Taking one of the slots that were granted. *)
Lemma slots_take R db i old new :
  slots_inv R db → jobs db !! i = Some old → unowned old → is_active (status new) = true →
  slots_inv (charge (queue_id new, shard new) (-1) R) (db <| jobs := <[i := new]> (jobs db) |>).
Proof.
  intros HP Hi Ho Hn k. specialize (HP k). unfold used in *. simpl.
  rewrite (active_on_update _ _ _ _ old) by done.
  rewrite (holds_slot_unowned _ _ old), holds_slot_self by done.
  unfold charge. destruct k as [q s]. simpl in *. case_decide as E.
  - rewrite bool_decide_eq_true_2 by done. simpl. lia.
  - rewrite bool_decide_eq_false_2 by done. simpl. lia.
Qed.

(** A write that keeps the owner keeps the slot. *)
Lemma slots_keep R db i old new :
  slots_inv R db → jobs db !! i = Some old →
  is_active (status old) = is_active (status new) →
  queue_id new = queue_id old → shard new = shard old →
  slots_inv R (db <| jobs := <[i := new]> (jobs db) |>).
Proof.
  intros HP Hi Ha Hq Hs k. specialize (HP k). unfold used in *. simpl.
  rewrite (active_on_update _ _ _ _ old) by done.
  assert (holds_slot k.1 k.2 new = holds_slot k.1 k.2 old) as ->
    by (unfold holds_slot; by rewrite Ha, Hq, Hs).
  lia.
Qed.

Lemma hoare_release R k n :
  0 ≤ n → (∀ k', 0 ≤ R k') →
  hoare (slots_inv (charge k n R)) (queue_release k.1 k.2 n) (λ _, slots_inv R).
Proof.
  intros Hn HR. apply hoare_modify. intros db HP k'. unfold used. simpl.
  rewrite <- (surjective_pairing k). specialize (HP k'). unfold used, charge in HP.
  change (active_on k'.1 k'.2 (db <| queue_shards := alter (λ r : Shard,
    r <| in_flight := Z.max (in_flight r - n) 0 |>) k (queue_shards db) |>)) with
    (active_on k'.1 k'.2 db).
  pose proof (active_on_nonneg k'.1 k'.2 db). specialize (HR k').
  destruct (decide (k = k')) as [<-|Hne].
  - rewrite lookup_alter_eq. destruct (queue_shards db !! k); simpl in *; lia.
  - by rewrite lookup_alter_ne.
Qed.

(** ** Reports give one slot back *)

Lemma hoare_give_up R job (f : Job → Job) j :
  (∀ j', unowned (f j')) → is_active (status j) = true →
  hoare (λ db, slots_inv R db ∧ jobs db !! job = Some j) (update_job job f)
    (λ _, slots_inv (charge (queue_id j, shard j) 1 R)).
Proof.
  intros Hf Hj. apply hoare_update_job.
  - intros db [_ Hi]. congruence.
  - intros db old [HP Hi] Hi' _ _ _. rewrite Hi in Hi'. injection Hi' as <-.
    by apply slots_give_up.
Qed.

(** The tail every report ends with: steps that leave the slots alone, the
    release of the one slot, and the events. *)
Ltac slots_step :=
  first [ progress frame_step
        | apply keeps_gets | apply keeps_ret
        | apply keeps_finish_dependents; apply _
        | apply keeps_cancel_descendants; apply _ ].

Section reports.
Context (R : shard_key → Z) (HR : ∀ k, 0 ≤ R k).

Lemma slots_report_success env job f x : keeps (slots_inv R) (report_success env job f x).
Proof.
  unfold report_success. apply hoare_read. intros [j|]; [|apply hoare_ret; by intros db []].
  destruct (owns_running f j) eqn:Hown; simpl; [|apply hoare_ret; by intros db []].
  unfold owns_running in Hown. apply andb_true_iff in Hown as [_ Hrun%bool_decide_eq_true].
  eapply hoare_bind; [apply hoare_give_up; [done|by rewrite Hrun]|]. intros [].
  do 6 (eapply hoare_seq; [slots_step|]; intros ?).
  eapply hoare_bind; [by apply (hoare_release R (queue_id j, shard j) 1)|]. intros [].
  fl_keeps.
Qed.

Lemma slots_report_failure env job f o cls msg perm :
  keeps (slots_inv R) (report_failure env job f o cls msg perm).
Proof.
  unfold report_failure. apply hoare_read.
  intros [[j rp]|]; [|apply hoare_ret; by intros db []].
  destruct (owns_active f j) eqn:Hown; simpl; [|apply hoare_ret; by intros db []].
  unfold owns_active in Hown. apply andb_true_iff in Hown as [Hact _].
  eapply hoare_bind; [eapply hoare_weaken; [|apply hoare_give_up; [|exact Hact]]|intros []].
  { intros db [HP Hrow]. split; [done|]. destruct (jobs db !! job) as [j'|]; [|done]. simpl in Hrow.
    destruct (policies db !! retry_policy_id j'); [|done]. simpl in Hrow. congruence. }
  { intros j'. unfold unowned, failed_row. simpl. by destruct (exhausted _ _ _). }
  destruct (exhausted perm rp j);
    do 5 (eapply hoare_seq; [slots_step|]; intros ?);
    (eapply hoare_bind; [by apply (hoare_release R (queue_id j, shard j) 1)|]; intros []; fl_keeps).
Qed.

Lemma slots_report_snooze env job f x d : keeps (slots_inv R) (report_snooze env job f x d).
Proof.
  unfold report_snooze. apply hoare_read.
  intros [[j rp]|]; [|apply hoare_ret; by intros db []].
  destruct (owns_running f j && _) eqn:Hown; simpl; [|apply hoare_ret; by intros db []].
  apply andb_true_iff in Hown as [Hown _]. unfold owns_running in Hown.
  apply andb_true_iff in Hown as [_ Hrun%bool_decide_eq_true].
  eapply hoare_bind; [eapply hoare_weaken; [|apply (hoare_give_up R job _ j); [done|by rewrite Hrun]]|intros []].
  { intros db [HP Hrow]. split; [done|]. destruct (jobs db !! job) as [j'|]; [|done]. simpl in Hrow.
    destruct (policies db !! retry_policy_id j'); [|done]. simpl in Hrow. congruence. }
  do 2 (eapply hoare_seq; [slots_step|]; intros ?).
  eapply hoare_bind; [by apply (hoare_release R (queue_id j, shard j) 1)|]. intros [].
  fl_keeps.
Qed.

End reports.

(** ** Admission grants slots *)

Lemma charge_other R k n db r : n = 0 → slots_inv R db → slots_inv (charge (k, r) n R) db.
Proof. intros ->. apply slots_inv_ext. intros k'. by rewrite charge_0. Qed.

Lemma slots_admit_breaker R env q qr w : keeps (slots_inv R) (admit_breaker env q qr w).
Proof.
  unfold admit_breaker. repeat keeps_step.
  apply keeps_modify. by intros db.
Qed.

Lemma elem_of_shards_of q s r db :
  (s, r) ∈ shards_of q db ↔ queue_shards db !! (q, s) = Some r.
Proof.
  unfold shards_of. rewrite list_elem_of_fmap. split.
  - intros ([[q' s'] r'] & [= -> ->] & [Hk Hq]%elem_of_select). simpl in *.
    apply bool_decide_eq_true in Hq. by subst.
  - intros Hk. exists ((q, s), r). split; [done|]. apply elem_of_select. split; [done|].
    by apply bool_decide_eq_true.
Qed.

(** The shard admission picks is a row of the queue with room under its cap. *)
Lemma elem_of_cands env qr q db sh sr rest :
  merge_sort (by_rot env qr) (filter (λ s : Z * Shard,
    in_flight s.2 < shard_slots (max_concurrency qr) (shards qr) s.1) (shards_of q db))
    = (sh, sr) :: rest →
  queue_shards db !! (q, sh) = Some sr ∧
  in_flight sr < shard_slots (max_concurrency qr) (shards qr) sh.
Proof.
  intros Hs. assert ((sh, sr) ∈ (sh, sr) :: rest) as Hin by left.
  rewrite <- Hs, merge_sort_Permutation, list_elem_of_filter, elem_of_shards_of in Hin.
  by destruct Hin.
Qed.

Lemma slots_admit_shard R env q qr want :
  hoare (slots_inv R) (admit_shard env q qr want)
    (λ g db, 0 ≤ g.1 ∧ slots_inv (charge (q, g.2) g.1 R) db).
Proof.
  unfold admit_shard. apply hoare_read. intros [|[sh sr] rest].
  { apply hoare_ret. intros db [HP _]. split; [done|]. by apply charge_other. }
  destruct (_ && _); [apply hoare_raise|].
  destruct (_ <=? 0) eqn:Hslots.
  { apply hoare_ret. intros db [HP _]. split; [done|]. by apply charge_other. }
  apply Z.leb_gt in Hslots.
  set (slots := Z.min want _) in *.
  eapply hoare_bind; [apply hoare_modify|intros []].
  { intros db [HP Hc]. apply elem_of_cands in Hc as [Hsh Hroom].
    instantiate (1 := λ _, slots_inv (charge (q, sh) slots R)). simpl.
    intros k. specialize (HP k). unfold used, active_on in *. simpl. rewrite lookup_insert.
    unfold charge. case_decide as E; [|done]. subst k. rewrite Hsh in HP. simpl in *. lia. }
  eapply hoare_seq.
  - keeps_step; [apply keeps_ret|]. apply keeps_modify. by intros db.
  - intros []. apply hoare_ret. intros db HP. split; [simpl; lia|]. exact HP.
Qed.

Lemma slots_queue_admit R env q want :
  hoare (slots_inv R) (queue_admit env q want)
    (λ g db, 0 ≤ g.1 ∧ slots_inv (charge (q, g.2) g.1 R) db).
Proof.
  assert (∀ z, hoare (slots_inv R) (mret (0, z) : sql (Z * Z))
            (λ g db, 0 ≤ g.1 ∧ slots_inv (charge (q, g.2) g.1 R) db)) as H0.
  { intros z. apply hoare_ret. intros db HP. split; [done|]. by apply charge_other. }
  unfold queue_admit. eapply hoare_seq; [apply keeps_gets|]. intros [qr|]; [|apply H0].
  destruct (paused qr); [apply H0|].
  eapply hoare_seq; [apply slots_admit_breaker|]. intros [w|]; [|apply H0].
  apply slots_admit_shard.
Qed.

(** ** A claim uses the slots it was granted *)

Lemma eligible_queued env q ts i j :
  eligible env q ts i j = true → queue_id j = q ∧ status j = js_queued ∧ run_at j ≤ now env.
Proof.
  unfold eligible. rewrite !andb_true_iff, !bool_decide_eq_true. intros [[[[? ?] ?] _] _].
  repeat split; [done|done|lia].
Qed.

(** The rows of a claim: distinct, eligible, at most [n]. *)
Lemma candidates_spec env q n ts db :
  NoDup (candidates env q n ts db).*1 ∧
  (∀ i j, (i, j) ∈ candidates env q n ts db →
     jobs db !! i = Some j ∧ eligible env q ts i j = true) ∧
  (length (candidates env q n ts db) ≤ Z.to_nat n)%nat.
Proof.
  unfold candidates. split_and!.
  - rewrite fmap_take. eapply sublist_NoDup; [|apply sublist_take].
    rewrite merge_sort_Permutation. apply NoDup_select.
  - intros i j Hin.
    assert ((i, j) ∈ select (eligible env q ts) (jobs db)) as Hin'.
    { rewrite <- (merge_sort_Permutation claim_order). eapply elem_of_sublist; [exact Hin|].
      apply sublist_take. }
    by apply elem_of_select in Hin'.
  - rewrite length_take. lia.
Qed.

(** While the rows are claimed one by one: [k] slots are used, the rows of [l]
    are still queued. *)
Definition claim_loop (q : uuid) (sh : Z) (R : shard_key → Z) (n : Z) (k : nat)
    (l : list (uuid * Job)) (db : DB) : Prop :=
  slots_inv (charge (q, sh) (n - Z.of_nat k) R) db ∧ NoDup l.*1 ∧
  (∀ i j, (i, j) ∈ l → jobs db !! i = Some j ∧ queue_id j = q ∧ status j = js_queued).

Lemma claim_loop_step q sh R n k env w i j l :
  hoare (claim_loop q sh R n k ((i, j) :: l)) (update_job i (claimed_row env w sh))
    (λ _, claim_loop q sh R n (S k) l).
Proof.
  apply hoare_update_job.
  - intros db (_ & _ & Hl) Hi. destruct (Hl i j) as [Hi' _]; [left|]. congruence.
  - intros db old (HP & Hnd & Hl) Hi _ _ _.
    destruct (Hl i j) as (Hi' & Hq & Hst); [left|]. rewrite Hi in Hi'. injection Hi' as ->.
    apply list.NoDup_cons in Hnd as [Hnin Hnd]. split_and!; [|done|].
    + eapply slots_inv_ext; [|eapply (slots_take _ _ i j); [exact HP|done|by unfold unowned; rewrite Hst|done]].
      intros k'. unfold charge. simpl. rewrite Hq. repeat case_decide; lia.
    + intros i' j' Hin. simpl. rewrite lookup_insert_ne.
      * apply Hl. by right.
      * intros ->. apply Hnin. apply list_elem_of_fmap. by exists (i', j').
Qed.

Lemma slots_claimSQL R q n w lease ts sh env :
  hoare (slots_inv (charge (q, sh) n R)) (claimSQL q n w lease ts sh env)
    (λ out db, slots_inv (charge (q, sh) (n - Z.of_nat (length out)) R) db ∧
               (length out ≤ Z.to_nat n)%nat).
Proof.
  unfold claimSQL. apply hoare_read. intros cand. apply hoare_read. intros known.
  destruct (_ && _); [apply hoare_raise|].
  apply (hoare_assume (length cand ≤ Z.to_nat n)%nat).
  { intros db [[_ <-] _]. apply candidates_spec. }
  intros Hlen. eapply hoare_conseq; [apply (hoare_traverse (claim_loop q sh R n) 0%nat cand)| |].
  - intros k [i j] l. eapply hoare_bind; [apply claim_loop_step|]. intros [].
    eapply hoare_seq; [|intros []; by apply hoare_ret].
    apply keeps_modify. by intros db.
  - intros db [[HP <-] _]. destruct (candidates_spec env q n ts db) as (Hnd & Hel & _).
    split_and!; [by rewrite Z.sub_0_r|done|]. intros i j [Hi He]%Hel.
    by apply eligible_queued in He as (? & ? & _).
  - intros out db [(HP & _ & _) Ho]. split; [done|]. by rewrite Ho.
Qed.

(** ** Claim, with its calls and its failures *)

(** The other processes respect the slots granted to this one. *)
Definition polite (calls : nat → Call) : Prop :=
  ∀ n R db, (∀ k, 0 ≤ R k) → slots_inv R db → slots_inv R (c_other (calls n) db).

(** The [n]-th call does not lose the answer of a commit. *)
Definition answered (calls : nat → Call) (n : nat) : Prop :=
  ∀ e, c_fault (calls n) ≠ FailAfter e.

Lemma charge_nonneg k n R : 0 ≤ n → (∀ k', 0 ≤ R k') → ∀ k', 0 ≤ charge k n R k'.
Proof. intros Hn HR k'. specialize (HR k'). unfold charge. case_decide; lia. Qed.

Lemma commit_spec w r w' :
  commit_tx w = (r, w') → answered (w_calls w) (w_n w) →
  w_db w' = w_db w ∧ w_calls w' = w_calls w ∧
  match r with inr _ => w_snap w' = None | inl _ => w_snap w' = w_snap w end.
Proof.
  unfold commit_tx, answered, this_call. destruct (c_fault _); intros [= <- <-] H; try done.
  by destruct (H e).
Qed.

Section claim.
Context (R : shard_key → Z) (HR : ∀ k, 0 ≤ R k).

(** Taking the jobs: committed, the granted slots are all used or released;
    failed, they are all still granted. *)
Lemma slots_take_jobs req sh n w r w' :
  0 < n → polite (w_calls w) →
  answered (w_calls w) (S (S (w_n w))) → answered (w_calls w) (S (S (S (w_n w)))) →
  w_snap w = None → slots_inv (charge (QueueID req, sh) n R) (w_db w) →
  take_jobs req sh n w = (r, w') →
  w_calls w' = w_calls w ∧
  match r with
  | inr _ => slots_inv R (w_db w')
  | inl _ => slots_inv (charge (QueueID req, sh) n R) (w_db w')
  end.
Proof.
  intros Hn Hpol Ha1 Ha2 Hsnap HP Hrun.
  assert (slots_inv (charge (QueueID req, sh) n R) (c_other (this_call w) (w_db w))) as HP1.
  { apply Hpol; [|done]. apply charge_nonneg; [lia|done]. }
  apply with_tx_inv in Hrun as [(e & -> & ->)|(w1 & w2 & Hdb & Hs1 & Hc1 & Hn1 & Hbody & ->)];
    [done|].
  rewrite <- Hdb in HP1.
  assert (∀ w3, w_snap w3 = Some (w_db w1) → w_calls w3 = w_calls w →
    w_calls (rollback w3) = w_calls w ∧
    slots_inv (charge (QueueID req, sh) n R) (w_db (rollback w3))) as Hback.
  { intros w3 H3 H3'. unfold rollback. rewrite H3. done. }
  apply go_bind_inv in Hbody as [(e & Hx & ->)|(out & w3 & Hx & Hbody)].
  { apply (tx_exec_spec _ _ _ _ _ _ HP1 (slots_claimSQL R _ _ _ _ _ _ _)) in Hx as [(? & ? & _) _].
    apply Hback; congruence. }
  apply (tx_exec_spec _ _ _ _ _ _ HP1 (slots_claimSQL R _ _ _ _ _ _ _)) in Hx as [(Hs3 & Hc3 & Hn3) [HQ Hlen]].
  set (m := Z.of_nat (length out)) in *.
  apply go_bind_inv in Hbody as [(e & Hx & ->)|([] & w4 & Hx & Hbody)].
  { destruct (m <? n); [|done].
    apply (tx_exec_spec _ _ (λ _, True) (λ _ _, True)) in Hx as [(? & ? & _) _]; [|done|by intros ? _; destruct (queue_release _ _ _ _) as [|[]]].
    apply Hback; congruence. }
  assert (w_snap w4 = w_snap w3 ∧ w_calls w4 = w_calls w3 ∧
          (w_n w4 = w_n w3 ∨ w_n w4 = S (w_n w3)) ∧ slots_inv R (w_db w4)) as (Hs4 & Hc4 & Hn4 & HR4).
  { destruct (m <? n) eqn:Hm.
    - eapply (tx_exec_spec _ _ (slots_inv (charge (QueueID req, sh) (n - m) R)) (λ _, slots_inv R)) in Hx
        as [(? & ? & ?) ?]; [auto|done|].
      apply (hoare_release R (QueueID req, sh)); [lia|done].
    - injection Hx as <-. split_and!; auto.
      eapply slots_inv_ext; [|exact HQ]. intros k. assert (n - m = 0) as -> by lia.
      by rewrite charge_0. }
  assert (answered (w_calls w4) (w_n w4)) as Ha4.
  { rewrite Hc4, Hc3, Hc1. destruct Hn4 as [->| ->]; by rewrite Hn3, Hn1. }
  apply go_bind_inv in Hbody as [(e & Hx' & ->)|([] & w5 & Hx' & Hbody)];
    apply commit_spec in Hx' as (Hd & Hc & Hs); [|done| |done].
  - apply Hback; congruence.
  - injection Hbody as <- <-. unfold rollback. rewrite Hs. split; [congruence|by rewrite Hd].
Qed.

(** Claim never leaves the counter below the slots in use, whatever fails,
    except for a commit whose answer is lost. *)
Lemma slots_Claim req w r w' :
  polite (w_calls w) →
  answered (w_calls w) (3 + w_n w) → answered (w_calls w) (4 + w_n w) →
  w_snap w = None → slots_inv R (w_db w) →
  Claim req w = (r, w') → slots_inv R (w_db w').
Proof.
  intros Hpol Ha1 Ha2 Hsnap HP Hrun. unfold Claim in Hrun.
  assert (slots_inv R (c_other (this_call w) (w_db w))) as HP1 by (by apply Hpol).
  apply go_bind_inv in Hrun as [(e & Hx & ->)|([n sh] & w1 & Hx & Hrun)];
    apply (pool_exec_spec _ _ _ _ _ _ HP1 (slots_queue_admit R _ _ _)) in Hx
      as [(Hs & Hc & Hn) Hpost].
  { destruct Hpost as [?|[[n sh] [Hn0 ?]]]; [done|].
    eapply slots_inv_ext; [|done]. intros k. simpl in *. unfold charge. case_decide; lia. }
  destruct Hpost as [Hn0 HP2]. simpl in Hn0, HP2.
  destruct (n =? 0) eqn:Hz.
  { injection Hrun as _ <-. eapply slots_inv_ext; [|exact HP2].
    intros k. unfold charge. case_decide; lia. }
  apply go_bind_inv in Hrun as [(e & Hx & ->)|(out & w2 & Hx & Hrun)].
  { unfold caught in Hx. by destruct (take_jobs _ _ _ _). }
  unfold caught in Hx. destruct (take_jobs req sh n w1) as [r2 w2'] eqn:Htake.
  injection Hx as <- <-.
  apply slots_take_jobs in Htake as [Hc2 Hpost];
    [|lia|by rewrite Hc|by rewrite Hc, Hn|by rewrite Hc, Hn|congruence|done].
  destruct r2 as [e|l]; [|by injection Hrun as _ <-].
  assert (slots_inv (charge (QueueID req, sh) n R) (c_other (this_call w2') (w_db w2'))) as HP3.
  { unfold this_call. rewrite Hc2, Hc. apply Hpol; [|done]. by apply charge_nonneg. }
  apply go_bind_inv in Hrun as [(e' & Hx & ->)|(x & w3 & Hx & Hrun)];
    unfold caught in Hx; destruct (pool_exec _ w2') as [r3 w3'] eqn:Hrel; [done|].
  injection Hx as _ <-. injection Hrun as _ <-.
  apply (pool_exec_spec _ _ _ _ _ _ HP3
    (hoare_release R (QueueID req, sh) n ltac:(lia) HR)) in Hrel as [_ Hpost'].
  destruct r3 as [?|[]]; [destruct Hpost' as [?|[_ ?]]|]; try done.
  eapply slots_inv_ext; [|done]. intros k. unfold charge. case_decide; lia.
Qed.

End claim.

(** ** The batched completion gives back one slot per job *)

(** The jobs of [ids] that ran on shard [k]. *)
Definition given_up (ids : list uuid) (db : DB) (k : shard_key) : Z :=
  mcount (λ j, bool_decide ((queue_id j, shard j) = k)) (filter (λ r : uuid * Job, r.1 ∈ ids) (jobs db)).

(** A completed job is neither changed nor returned by the rest of the batch. *)
Lemma batch_update_skips env input i j :
  status j = js_completed →
  hoare (λ db, jobs db !! i = Some j) (batch_update env input)
    (λ out db, jobs db !! i = Some j ∧ i ∉ out.*1).
Proof.
  intros Hj. induction input as [|[[i' f] x] rest IH]; simpl.
  { apply hoare_ret. intros db Hi. split; [done|]. apply not_elem_of_nil. }
  apply hoare_read. intros oj. destruct (from_option _ _ oj) eqn:Hown.
  2:{ eapply hoare_weaken; [|exact IH]. by intros db []. }
  apply (hoare_assume (i ≠ i')).
  { intros db [Hi Hi'] ->. rewrite Hi in Hi'. subst oj. simpl in Hown.
    unfold owns_running in Hown. rewrite Hj in Hown.
    by rewrite bool_decide_eq_false_2, andb_false_r in Hown. }
  intros Hne. eapply (hoare_bind _ _ (λ _ db, jobs db !! i = Some j)).
  { apply hoare_update_job; [by intros db []|]. intros db old [Hi _] _ _ _ _. simpl.
    by rewrite lookup_insert_ne. }
  intros []. eapply hoare_bind; [exact IH|]. intros out. apply hoare_ret.
  intros db [Hi Hn]. split; [done|]. simpl. by apply not_elem_of_cons.
Qed.

Lemma given_up_cons i j ids db k :
  jobs db !! i = Some j → i ∉ ids →
  given_up (i :: ids) db k = given_up ids db k + Z.b2z (bool_decide ((queue_id j, shard j) = k)).
Proof.
  intros Hi Hn. unfold given_up.
  etrans; [|apply (mcount_insert_new (λ j, bool_decide ((queue_id j, shard j) = k))
    (filter (λ r : uuid * Job, r.1 ∈ ids) (jobs db)) i j)].
  - f_equal. apply map_eq. intros i'. rewrite lookup_insert. case_decide as E.
    + subst i'. apply map_lookup_filter_Some. split; [done|]. by left.
    + apply option_eq. intros j'. rewrite !map_lookup_filter_Some. simpl.
      rewrite elem_of_cons. split; [|tauto]. by intros [? [->|?]].
  - apply map_lookup_filter_None. right. intros j' _. done.
Qed.

Lemma given_up_nil db k : given_up [] db k = 0.
Proof.
  unfold given_up. assert (filter (λ r : uuid * Job, r.1 ∈ []) (jobs db) = ∅) as ->; [|done].
  apply map_eq. intros i. rewrite lookup_empty, map_lookup_filter_None. right.
  intros j _. apply not_elem_of_nil.
Qed.

Lemma slots_batch_update R env input :
  hoare (slots_inv R) (batch_update env input)
    (λ out db, slots_inv (λ k, R k + given_up out.*1 db k) db).
Proof.
  revert R. induction input as [|[[i f] x] rest IH]; intros R; simpl.
  { apply hoare_ret. intros db HP. eapply slots_inv_ext; [|exact HP].
    intros k. simpl. rewrite given_up_nil. lia. }
  apply hoare_read. intros oj. destruct (from_option _ _ oj) eqn:Hown.
  2:{ eapply hoare_weaken; [|apply IH]. by intros db []. }
  destruct oj as [j|]; [|done]. simpl in Hown. unfold owns_running in Hown.
  apply andb_true_iff in Hown as [_ Hrun%bool_decide_eq_true].
  eapply (hoare_bind _ _ (λ _ db, slots_inv (charge (queue_id j, shard j) 1 R) db ∧
                                  jobs db !! i = Some (completed_row env j))).
  { apply hoare_update_job.
    - intros db [_ Hi]. congruence.
    - intros db old [HP Hi] Hi' _ _ _. rewrite Hi in Hi'. injection Hi' as <-. split.
      + apply slots_give_up; [done|done|by rewrite Hrun|done].
      + simpl. apply lookup_insert_eq. }
  intros []. eapply hoare_bind.
  { apply hoare_and; [apply IH|by apply (batch_update_skips _ _ i)]. }
  intros out. apply hoare_ret. intros db [HP [Hi Hn]].
  eapply slots_inv_ext; [|exact HP]. intros k. simpl.
  rewrite (given_up_cons _ _ _ _ _ Hi Hn). unfold charge. simpl.
  case_decide; [rewrite bool_decide_eq_true_2 by done|rewrite bool_decide_eq_false_2 by done]; simpl; lia.
Qed.

(** The slots of shard [k] in a list of releases. *)
Definition to_release (l : list (uuid * Z * Z)) (k : shard_key) : Z :=
  foldr (λ t acc, (if decide (t.1 = k) then t.2 else 0) + acc) 0 l.

Lemma to_release_cons t l k :
  to_release (t :: l) k = (if decide (t.1 = k) then t.2 else 0) + to_release l k.
Proof. done. Qed.

Lemma slots_release_all R (l : list (uuid * Z * Z)) :
  (∀ k, 0 ≤ R k) → (∀ t, t ∈ l → 0 ≤ t.2) →
  hoare (slots_inv (λ k, R k + to_release l k))
    (foreach l (λ t : uuid * Z * Z, queue_release t.1.1 t.1.2 t.2)) (λ _, slots_inv R).
Proof.
  intros HR. induction l as [|t l IH]; intros Hpos; simpl.
  { apply hoare_ret. intros db. apply slots_inv_ext. intros k. simpl. lia. }
  assert (∀ k, 0 ≤ R k + to_release l k) as HR'.
  { intros k. specialize (HR k). enough (0 ≤ to_release l k) by lia.
    assert (∀ t, t ∈ l → 0 ≤ t.2) as Hp by (intros t' Ht; apply Hpos; by right).
    clear -Hp. induction l as [|t l IHl]; simpl; [done|].
    assert (0 ≤ t.2) by (apply Hp; left).
    assert (0 ≤ to_release l k) by (apply IHl; intros; apply Hp; by right).
    case_decide; lia. }
  eapply (hoare_bind _ _ (λ _, slots_inv (λ k, R k + to_release l k)));
    [|intros []; apply IH; intros; apply Hpos; by right].
  eapply hoare_weaken; [|apply (hoare_release _ t.1 t.2); [apply Hpos; left|exact HR']].
  intros db. apply slots_inv_ext. intros k. unfold charge. simpl. case_decide; lia.
Qed.

(** Distinct groups: each shard is released once, by its own count. *)
Lemma to_release_groups (g : shard_key → Z) (l : list shard_key) k :
  NoDup l →
  to_release ((λ k', (k'.1, k'.2, g k')) <$> l) k = if decide (k ∈ l) then g k else 0.
Proof.
  induction 1 as [|k' l Hnin Hnd IH]; [done|].
  rewrite fmap_cons, to_release_cons, IH. simpl. rewrite <- (surjective_pairing k').
  destruct (decide (k' = k)) as [->|Hne].
  - rewrite decide_False, decide_True by (done || left). lia.
  - destruct (decide (k ∈ l)) as [Hin|Hn].
    + rewrite decide_True by (by right). lia.
    + rewrite decide_False; [lia|]. by intros [->|?]%elem_of_cons.
Qed.

(** The groups of the batch are the slots the jobs gave up. *)
Lemma given_up_batch ids db k : to_release (batch_slots ids db) k = given_up ids db k.
Proof.
  unfold batch_slots. set (keys := remove_dups _).
  etrans; [apply (to_release_groups (given_up ids db)), NoDup_remove_dups|].
  case_decide as Hin; [done|]. symmetry.
  apply mcount_zero. intros i j [Hi Hids]%map_lookup_filter_Some. simpl in Hids.
  apply bool_decide_eq_false. intros <-. apply Hin, elem_of_remove_dups, list_elem_of_fmap.
  exists (i, j). split; [done|]. apply elem_of_select. split; [done|].
  by apply bool_decide_eq_true.
Qed.

Lemma given_up_update ids db i old new k :
  jobs db !! i = Some old → queue_id new = queue_id old → shard new = shard old →
  given_up ids (db <| jobs := <[i := new]> (jobs db) |>) k = given_up ids db k.
Proof.
  intros Hi Hq Hs. unfold given_up. simpl. destruct (decide (i ∈ ids)) as [Hin|Hnin].
  - rewrite map_filter_insert_True by done. rewrite (mcount_insert _ _ _ old).
    + rewrite Hq, Hs. lia.
    + by apply map_lookup_filter_Some.
  - rewrite map_filter_insert_not; [done|]. by intros y.
Qed.

(** The slots given up by the jobs of a batch, as a property of the state. *)
Definition batch_slots_inv (R : shard_key → Z) (ids : list uuid) (db : DB) : Prop :=
  slots_inv (λ k, R k + given_up ids db k) db.

#[export] Instance batch_slots_idle_stable R ids : IdleStable (batch_slots_inv R ids).
Proof.
  intros db i old new HP Hi Ho Hn Hw Hs Hf Hfsm Hck. unfold batch_slots_inv in *.
  assert (queue_id new = queue_id old) as Hq by (unfold work in Hw; congruence).
  eapply slots_inv_ext; [|by apply (idle_stable _ _ old new HP)].
  intros k. simpl. by rewrite (given_up_update _ _ _ old).
Qed.

Lemma slots_report_success_batch R env input :
  (∀ k, 0 ≤ R k) → keeps (slots_inv R) (report_success_batch env input).
Proof.
  intros HR. unfold report_success_batch.
  eapply hoare_bind; [apply slots_batch_update|]. intros out. cbv beta zeta.
  destruct (out.*1) as [|i0 ids0] eqn:Hids.
  { apply hoare_ret. intros db. apply slots_inv_ext. intros k. simpl. rewrite given_up_nil. lia. }
  rewrite <- Hids. clear i0 ids0 Hids.
  apply (hoare_weaken _ (batch_slots_inv R out.*1)); [done|].
  eapply hoare_seq.
  { apply keeps_traverse. intros p. apply keeps_finish_dependents, _. }
  intros woke. eapply hoare_seq; [slots_step|]. intros [].
  eapply hoare_seq; [apply keeps_foreach; intros; slots_step|]. intros [].
  eapply hoare_seq; [slots_step|]. intros sts.
  eapply hoare_seq; [apply keeps_foreach; intros; slots_step|]. intros [].
  apply hoare_read. intros rel. apply (hoare_assume (∀ t, t ∈ rel → 0 ≤ t.2)).
  { intros db [_ <-] t (k & -> & _)%list_elem_of_fmap. apply mcount_nonneg. }
  intros Hpos. eapply (hoare_bind _ _ (λ _, slots_inv R)); [|intros []; fl_keeps].
  eapply hoare_weaken; [|by apply (slots_release_all R rel HR)].
  intros db [HP <-]. eapply slots_inv_ext; [|exact HP]. intros k. simpl.
  by rewrite given_up_batch.
Qed.

(** ** Reconciliation counts the jobs, and forgets the slots granted *)

Lemma reconcile_shard_in_flight k db n db' r :
  reconcile_shard k db = inr (n, db') → queue_shards db' !! k = Some r →
  in_flight r = active_on k.1 k.2 db'.
Proof.
  unfold reconcile_shard. destruct (queue_shards db !! k) as [r0|] eqn:Hk; [|congruence].
  destruct (in_flight r0 =? active_on k.1 k.2 db) eqn:E; intros [= <- <-].
  - rewrite Hk. intros [= <-]. lia.
  - simpl. rewrite lookup_insert_eq. by intros [= <-].
Qed.
