(* ===== verification/Claims.v ===== *)
(** * What a claim does

    The rows [claimSQL] returns and what it writes, and from it: the jobs
    claimed are the best ones by the queue's order, nobody else's, each under a
    fence one higher than before and with a lease of the same fence. *)

From S2P Require Import Prelude Schema Fl Pool Jobs Slots.

(** ** The statement *)

Definition claim_lease (env : Env) (worker : uuid) (lease : duration) (f : Z) (old : option Lease)
    : Lease :=
  mkLease f worker (now env + interval_of lease) (old ≫= progress) (now env).

(** What a claim of [rows] makes of [db]. *)
Record claimed_from (env : Env) (worker : uuid) (lease : duration) (sh : Z)
    (rows : list (uuid * Job)) (db db' : DB) : Prop := {
  cf_row i j : (i, j) ∈ rows →
    jobs db' !! i = Some (claimed_row env worker sh j) ∧
    leases db' !! i = Some (claim_lease env worker lease (fence j + 1) (leases db !! i)) ∧
    jobs_fsm j (claimed_row env worker sh j) = true ∧
    job_checks (claimed_row env worker sh j) = true;
  cf_other i : i ∉ rows.*1 → jobs db' !! i = jobs db !! i ∧ leases db' !! i = leases db !! i;
  cf_frame : db' = db <| jobs := jobs db' |> <| leases := leases db' |>;
}.

Lemma claim_one env worker lease sh i j db a db' :
  jobs db !! i = Some j →
  (_ ← update_job i (claimed_row env worker sh);
   _ ← upsert_lease env worker lease i (fence j + 1);
   mret (claimed_view env i j)) db = inr (a, db') →
  a = claimed_view env i j ∧
  jobs_fsm j (claimed_row env worker sh j) = true ∧
  job_checks (claimed_row env worker sh j) = true ∧
  db' = db <| jobs := <[i := claimed_row env worker sh j]> (jobs db) |>
           <| leases := <[i := claim_lease env worker lease (fence j + 1) (leases db !! i)]> (leases db) |>.
Proof.
  intros Hi. unfold mbind, tx_bind. destruct (update_job _ _ db) as [|[[] db1]] eqn:Hu; [done|].
  apply update_job_inv in Hu as [[Hn _]|(old & Hold & _ & Hf & Hck & ->)]; [congruence|].
  rewrite Hi in Hold. injection Hold as <-. by intros [= <- <-].
Qed.

Lemma claim_rows env worker lease sh rows db out db' :
  NoDup rows.*1 → (∀ i j, (i, j) ∈ rows → jobs db !! i = Some j) →
  traverse rows (λ r : uuid * Job,
    _ ← update_job r.1 (claimed_row env worker sh);
    _ ← upsert_lease env worker lease r.1 (fence r.2 + 1);
    mret (claimed_view env r.1 r.2)) db = inr (out, db') →
  out = (λ r : uuid * Job, claimed_view env r.1 r.2) <$> rows ∧
  claimed_from env worker lease sh rows db db'.
Proof.
  revert db out. induction rows as [|[i j] rows IH]; intros db out Hnd Hin; simpl.
  { intros [= <- <-]. split; [done|]. split; [|done|by destruct db].
    intros i j Hx. by apply elem_of_nil in Hx. }
  apply list.NoDup_cons in Hnd as [Hni Hnd]. simpl in Hni.
  intros (a & db1 & Hone & Hrun)%tx_bind_inv.
  apply claim_one in Hone as (-> & Hf & Hck & Hdb1); [|apply Hin; left].
  apply tx_bind_inv in Hrun as (out1 & db2 & Hrest & [= <- <-]). apply IH in Hrest as [-> [Hrow Hoth Hfr]]; [|done|].
  2:{ intros i' j' Hx. rewrite Hdb1. simpl. rewrite lookup_insert_ne; [apply Hin; by right|].
      intros ->. apply Hni, list_elem_of_fmap. by exists (i', j'). }
  split; [done|]. split.
  - intros i' j' [Heq|Hx]%elem_of_cons.
    + injection Heq as -> ->. destruct (Hoth i Hni) as [-> ->]. subst db1. simpl.
      by rewrite !lookup_insert_eq.
    + destruct (Hrow i' j' Hx) as (-> & -> & ? & ?). split_and!; try done. subst db1. simpl.
      rewrite lookup_insert_ne; [done|]. intros ->. apply Hni, list_elem_of_fmap. by exists (i', j').
  - intros i' [Hne Hx]%not_elem_of_cons. destruct (Hoth i' Hx) as [-> ->]. subst db1. simpl in *.
    by rewrite !lookup_insert_ne.
  - rewrite Hfr. subst db1. by destruct db.
Qed.

Lemma claimSQL_spec q n worker lease ts sh env db out db' :
  claimSQL q n worker lease ts sh env db = inr (out, db') →
  out = (λ r : uuid * Job, claimed_view env r.1 r.2) <$> candidates env q n ts db ∧
  claimed_from env worker lease sh (candidates env q n ts db) db db'.
Proof.
  unfold claimSQL, gets. unfold mbind at 1 2, tx_bind at 1 2.
  destruct (negb _ && _); [done|]. destruct (candidates_spec env q n ts db) as (Hnd & Hel & _).
  apply claim_rows; [done|]. intros i j Hin. by apply Hel.
Qed.
