(* ===== verification/Leases.v ===== *)
(** * Leases

    A job is claimed or running exactly while it has a lease, the lease carries
    the fence and the worker of the row, and this holds whatever fails: so every
    job somebody owns can be found by the reaper once its lease runs out. *)

From S2P Require Import Prelude Schema Fl Pool Jobs Sched Archiver Api ApiJobs GoLogic System Core Slots Claims.

(** ** The invariant *)

Definition leased (j : Job) (ol : option Lease) : Prop :=
  if is_active (status j)
  then ∃ l, ol = Some l ∧ l_fence l = fence j ∧ worker_id j = Some (l_worker_id l)
  else ol = None.

Definition lease_ok (i : uuid) (db : DB) : Prop :=
  match jobs db !! i with Some j => leased j (leases db !! i) | None => leases db !! i = None end.

Definition lease_inv (db : DB) : Prop := ∀ i, lease_ok i db.

(** The same, but for the jobs of [ids]: they were given up, and their leases
    are still to be dropped. *)
Definition lease_but (ids : list uuid) (db : DB) : Prop := ∀ i,
  if decide (i ∈ ids) then ∀ j, jobs db !! i = Some j → unowned j else lease_ok i db.

(** ** Lemmas *)

Lemma lease_but_nil db : lease_but [] db ↔ lease_inv db.
Proof. done. Qed.

#[export] Instance lease_but_idle ids : IdleStable (lease_but ids).
Proof.
  intros db i old new HP Hi Ho Hn _ _ _ _ _ i'. specialize (HP i'). unfold lease_ok in *. simpl.
  rewrite lookup_insert. destruct (decide (i = i')) as [<-|]; [|done].
  rewrite Hi in HP. case_decide; [by intros j [= <-]|].
  unfold leased, unowned in *. by rewrite Hn, Ho in *.
Qed.

Lemma lease_give_up ids i f :
  (∀ j, unowned (f j)) → hoare (lease_but ids) (update_job i f) (λ _, lease_but (i :: ids)).
Proof.
  intros Hf. apply hoare_update_job.
  - intros db HP Hi i'. specialize (HP i'). destruct (decide (i' ∈ i :: ids)) as [[->|Hin]%elem_of_cons|Hn].
    + congruence.
    + by rewrite decide_True in HP.
    + apply not_elem_of_cons in Hn as [_ Hn]. by rewrite decide_False in HP.
  - intros db old HP Hi _ _ _ i'. specialize (HP i'). simpl.
    unfold lease_ok. simpl. rewrite lookup_insert. destruct (decide (i = i')) as [<-|Hne].
    + rewrite decide_True by left. by intros j [= <-].
    + destruct (decide (i' ∈ i :: ids)) as [[->|Hin]%elem_of_cons|Hn]; [done| |].
      * by rewrite decide_True in HP.
      * apply not_elem_of_cons in Hn as [_ Hn]. by rewrite decide_False in HP.
Qed.

Lemma lease_dropped ids i :
  hoare (lease_but (i :: ids)) (drop_lease i) (λ _, lease_but ids).
Proof.
  apply hoare_modify. intros db HP i'. specialize (HP i'). unfold lease_ok in *. simpl.
  destruct (decide (i = i')) as [<-|Hne].
  - rewrite decide_True in HP by left. case_decide; [done|]. rewrite lookup_delete_eq.
    destruct (jobs db !! i) as [j|]; [|done]. unfold leased. by rewrite (HP j eq_refl).
  - rewrite lookup_delete_ne by done. destruct (decide (i' ∈ ids)).
    + by rewrite decide_True in HP by (by right).
    + rewrite decide_False in HP; [done|]. by intros [->|?]%elem_of_cons.
Qed.

Ltac lease_seq :=
  first [ progress frame_step | apply keeps_gets | apply keeps_ret
        | apply keeps_finish_dependents; apply _ | apply keeps_cancel_descendants; apply _ ].

Lemma lease_success env i f x : keeps lease_inv (report_success env i f x).
Proof.
  unfold report_success. eapply hoare_seq; [apply keeps_gets|]. intros [j|]; [|by apply hoare_ret].
  destruct (negb _); [by apply hoare_ret|].
  eapply hoare_bind; [by apply (lease_give_up [])|]. intros [].
  do 4 (eapply hoare_seq; [lease_seq|]; intros ?).
  eapply hoare_bind; [apply lease_dropped|]. intros []. fl_keeps.
Qed.

Lemma lease_failure env i f o cls msg perm : keeps lease_inv (report_failure env i f o cls msg perm).
Proof.
  unfold report_failure. eapply hoare_seq; [apply keeps_gets|]. intros [[j rp]|]; [|by apply hoare_ret].
  destruct (negb _); [by apply hoare_ret|].
  eapply hoare_bind; [apply (lease_give_up [])|intros []].
  { intros j'. unfold unowned, failed_row. simpl. by destruct (exhausted _ _ _). }
  destruct (exhausted perm rp j);
    do 2 (eapply hoare_seq; [lease_seq|]; intros ?);
    (eapply hoare_bind; [apply lease_dropped|]; intros []; fl_keeps).
Qed.

Lemma lease_snooze env i f x d : keeps lease_inv (report_snooze env i f x d).
Proof.
  unfold report_snooze. eapply hoare_seq; [apply keeps_gets|]. intros [[j rp]|]; [|by apply hoare_ret].
  destruct (negb _); [by apply hoare_ret|].
  eapply hoare_bind; [by apply (lease_give_up [])|]. intros [].
  eapply hoare_seq; [lease_seq|]. intros ?.
  eapply hoare_bind; [apply lease_dropped|]. intros []. fl_keeps.
Qed.

(** The ids of a batch, in reverse, are the jobs given up so far. *)
Lemma lease_batch_update env input ids :
  hoare (lease_but ids) (batch_update env input) (λ out, lease_but (rev out.*1 ++ ids)).
Proof.
  revert ids. induction input as [|[[i f] x] rest IH]; intros ids; simpl; [by apply hoare_ret|].
  eapply hoare_seq; [apply keeps_gets|]. intros oj. destruct (from_option _ _ oj); [|apply IH].
  eapply hoare_bind; [by apply lease_give_up|]. intros []. eapply hoare_bind; [apply IH|]. intros out.
  apply hoare_ret. intros db HP. simpl. rewrite <- app_assoc. exact HP.
Qed.

Lemma lease_but_perm ids ids' db : ids ≡ₚ ids' → lease_but ids db → lease_but ids' db.
Proof.
  intros Hp HP i. specialize (HP i). destruct (decide (i ∈ ids)) as [Hi|Hi].
  - rewrite decide_True; [done|]. by rewrite <- Hp.
  - rewrite decide_False; [done|]. by rewrite <- Hp.
Qed.

Lemma lease_drop_all ids : hoare (lease_but ids) (foreach ids drop_lease) (λ _, lease_inv).
Proof. apply (hoare_foreach lease_but). intros i l. apply lease_dropped. Qed.

Lemma lease_batch env input : keeps lease_inv (report_success_batch env input).
Proof.
  unfold report_success_batch. eapply hoare_bind; [apply (lease_batch_update env input [])|].
  intros out. cbv beta zeta. destruct (out.*1) as [|i ids] eqn:Hids; [by apply hoare_ret|].
  rewrite <- Hids. clear i ids Hids.
  apply (hoare_weaken _ (lease_but out.*1)).
  { intros db. apply lease_but_perm. rewrite app_nil_r. symmetry. apply Permutation_rev. }
  eapply hoare_seq; [apply keeps_traverse; intros; apply keeps_finish_dependents; apply _|].
  intros woke. eapply hoare_seq; [lease_seq|]. intros [].
  eapply hoare_bind; [apply lease_drop_all|]. intros []. fl_keeps.
Qed.

Lemma lease_new i j : unowned j → keeps lease_inv (insert_job i j).
Proof.
  intros Hj db HP. unfold insert_job. destruct (negb _); [done|]. destruct (negb _); [done|].
  destruct (bool_decide _) eqn:Hi; simpl; [done|]. destruct (tick_taken j db); simpl; [done|].
  apply bool_decide_eq_false, eq_None_not_Some in Hi. intros i'. specialize (HP i').
  unfold lease_ok in *. simpl. rewrite lookup_insert. destruct (decide (i = i')) as [<-|]; [|done].
  rewrite Hi in HP. unfold leased. by rewrite Hj.
Qed.

Lemma lease_claim q n w l ts sh env : keeps lease_inv (claimSQL q n w l ts sh env).
Proof.
  intros db HP. destruct (claimSQL _ _ _ _ _ _ _ db) as [|[out db']] eqn:Hc; [done|].
  apply claimSQL_spec in Hc as [_ [Hrow Hoth _]]. intros i.
  destruct (decide (i ∈ (candidates env q n ts db).*1)) as [Hin|Hn].
  - apply list_elem_of_fmap in Hin as ([i' j] & -> & Hin). simpl.
    destruct (Hrow i' j Hin) as (Hj & Hl & _). unfold lease_ok. rewrite Hj, Hl. eexists. by split_and!.
  - destruct (Hoth i Hn) as [Hj Hl]. specialize (HP i). unfold lease_ok. by rewrite Hj, Hl.
Qed.

(** A write that keeps the owner and the fence. *)
Lemma lease_same_owner i f :
  (∀ j, status j = js_claimed → is_active (status (f j)) = true ∧ fence (f j) = fence j ∧
        worker_id (f j) = worker_id j) →
  hoare (λ db, lease_inv db ∧ ∀ j, jobs db !! i = Some j → status j = js_claimed)
    (update_job i f) (λ _, lease_inv).
Proof.
  intros Hf. apply hoare_update_job; [by intros db [HP _]|].
  intros db old [HP Hc] Hi _ _ _ i'. specialize (HP i'). unfold lease_ok in *. simpl.
  rewrite lookup_insert. destruct (decide (i = i')) as [<-|]; [|done].
  rewrite Hi in HP. specialize (Hc old Hi). destruct (Hf old Hc) as (Ha & Hfe & Hw).
  unfold leased in *. by rewrite Ha, Hfe, Hw; rewrite Hc in HP.
Qed.

Lemma keeps_insert_exec (P : DB → Prop) i x :
  (∀ db v, P db → P (db <| execs := v |>)) → keeps P (insert_exec i x).
Proof. intros H db HP. unfold insert_exec. destruct (_ || _); [done|]. by apply H. Qed.

Lemma lease_start i f w env : keeps lease_inv (startSQL i f w env).
Proof.
  unfold startSQL. apply hoare_read. intros [j|]; [|apply hoare_ret; by intros db []].
  destruct (owns_claimed f j) eqn:Hown; simpl; [|apply hoare_ret; by intros db []].
  apply andb_true_iff in Hown as [_ Hcl%bool_decide_eq_true].
  eapply (hoare_bind _ _ (λ _, lease_inv)).
  - eapply hoare_weaken; [|by apply lease_same_owner]. intros db [HP Hi]. split; [done|]. congruence.
  - intros []. eapply hoare_seq; [by apply keeps_insert_exec|]. intros []. by apply hoare_ret.
Qed.

Lemma lease_extend i f l p env : keeps lease_inv (extendSQL i f l p env).
Proof.
  intros db HP. unfold extendSQL. destruct (jobs db !! i) as [j|] eqn:Hj; [|done].
  destruct (leases db !! i) as [l0|] eqn:Hl; [|done]. destruct (owns_running f j); [|done].
  intros i'. specialize (HP i'). unfold lease_ok in *. simpl. rewrite lookup_insert.
  destruct (decide (i = i')) as [<-|]; [|done]. rewrite Hj in *. rewrite Hl in HP.
  unfold leased in *. destruct (is_active (status j)); [|done].
  destruct HP as (l1 & [= <-] & ? & ?). eexists. by split_and!.
Qed.

(** Cancelling: the lease of a job that was owned is dropped before the commit. *)
Lemma lease_cancel r sc : tx_keeps lease_inv (cancelJob (B:=unit) r sc).
Proof.
  set (i := sc_entityID sc). unfold cancelJob. fold i.
  eapply (tx_hoare_bind _ _ (λ row db, match row with
    | Some (st, _, _, _, true) => if is_active st then lease_but [i] db else lease_inv db
    | _ => lease_inv db end)).
  - apply tx_hoare_exec. intros env. unfold cancelSQL. apply hoare_read.
    intros [j|]; [|apply hoare_ret; by intros db []].
    destruct (is_terminal (status j)) eqn:Ht; simpl.
    { eapply hoare_seq; [apply keeps_ret|]. intros []. apply hoare_ret. by intros db []. }
    destruct (is_active (status j)) eqn:Ha.
    + eapply hoare_bind; [eapply hoare_weaken; [|by apply (lease_give_up [])]|].
      { by intros db [HP _]. }
      intros []. apply hoare_ret. intros db HP. by rewrite Ha.
    + eapply (hoare_bind _ _ (λ _, lease_inv)).
      2:{ intros []. apply hoare_ret. intros db HP. by rewrite Ha. }
      apply hoare_update_job; [by intros db []|]. intros db old [HP Hi] Hi' Hrg Hf Hck.
      rewrite Hi in Hi'. injection Hi' as <-. by eapply (idle_stable (P:=lease_but [])); try exact (conj Hrg Hck).
  - intros [[[[[st q] p] sh] b]|]; [|apply tx_hoare_throw]. destruct b; simpl; [|apply tx_hoare_throw].
    eapply (tx_hoare_bind _ _ (λ _, lease_inv)).
    + destruct (is_active st); [|by apply tx_hoare_ret].
      eapply tx_hoare_seq; [apply tx_hoare_exec; intros; by apply keeps_update_execs|]. intros [].
      eapply tx_hoare_bind; [apply tx_hoare_exec; intros; apply lease_dropped|]. intros [].
      apply tx_hoare_exec. intros. by apply keeps_queue_release.
    + intros []. apply tx_keeps_bind; [|intros []; apply tx_keeps_ret].
      apply tx_keeps_exec. intros env. by apply keeps_emit.
Qed.

Lemma lease_archive ids env : keeps lease_inv (moveJobsSQL ids env).
Proof.
  apply keeps_archiving. intros db HP i. specialize (HP i). unfold lease_ok in *. simpl.
  destruct (decide (i ∈ ids)) as [Hi|Hi].
  - assert (∀ V (m : gmap uuid V), filter (λ r : uuid * V, r.1 ∉ ids) m !! i = None) as HN.
    { intros V m. apply map_lookup_filter_None. right. by intros x _ ?. }
    by rewrite !HN.
  - assert (∀ V (m : gmap uuid V), filter (λ r : uuid * V, r.1 ∉ ids) m !! i = m !! i) as HN.
    { intros V m. apply option_eq. intros x. rewrite map_lookup_filter_Some. simpl. tauto. }
    by rewrite !HN.
Qed.

Lemma lease_side db db' : job_side db' = job_side db → lease_inv db → lease_inv db'.
Proof.
  intros H HP i. specialize (HP i). unfold lease_ok in *. injection H as Hj Hl _ _ _.
  by rewrite Hj, Hl.
Qed.

Lemma lease_emit env t e p pl : t ≠ "job.completed"%string → keeps lease_inv (emit env t e p pl).
Proof. intros _. by apply keeps_emit. Qed.

#[export] Instance lease_core : CoreInv lease_inv.
Proof.
  assert (IdleStable lease_inv) as Hidle by exact (lease_but_idle []).
  split; try exact Hidle; intros; eauto using lease_start, lease_emit, lease_extend, lease_success,
    lease_failure, lease_snooze, lease_batch, lease_new.
  - by eapply (core_of_job_side _ lease_side).
  - by apply keeps_update_execs.
  - apply lease_cancel.
  - apply go_keeps_Archive; intros; try apply lease_archive; try apply keeps_archiving; by intros.
  - by apply (job_side_switch _ lease_side lease_emit).
  - apply (job_side_paused _ lease_side).
  - apply (job_side_put _ lease_side).
Qed.

#[export] Instance lease_claims : ClaimInv lease_inv.
Proof. apply (job_side_claim _ lease_side), lease_claim. Qed.

#[export] Instance lease_config : ConfigInv lease_inv.
Proof. apply (job_side_config _ lease_side). Qed.
