(* ===== verification/Locks.v ===== *)
(** * Every job is a fenced lock

    The abstract machine the services implement, one per job: a lock that is
    free, held by one worker under a fence, or closed.  A holder is never
    replaced by another: the lock is released first, and taking it raises the
    fence by one.  The theorem of this file's lemmas is that every operation, as
    seen through [lock_at], is a sequence of its steps. *)

From S2P Require Import Prelude Schema Fl Pool Jobs Sched Archiver Api ApiJobs GoLogic System Core Evolution Slots Claims Leases.
From stdpp Require Import relations.

#[local] Open Scope Z_scope.

(** ** The specification *)

Inductive lock :=
  | Free (f : Z)
  | Held (f : Z) (w : uuid)
  | Dead (f : Z)
  | Done.

Definition is_held (l : lock) : bool := match l with Held _ _ => true | _ => false end.

(** [None]: there is no such job. *)
Inductive lock_step : option lock → option lock → Prop :=
  | ls_create l : is_held l = false → lock_step None (Some l)
  | ls_acquire f w : lock_step (Some (Free f)) (Some (Held (f + 1) w))
  | ls_release f w f' : f ≤ f' → lock_step (Some (Held f w)) (Some (Free f'))
  | ls_finish f w : lock_step (Some (Held f w)) (Some Done)
  | ls_die f w f' : f ≤ f' → lock_step (Some (Held f w)) (Some (Dead f'))
  | ls_withdraw f : lock_step (Some (Free f)) (Some Done)
  | ls_expire f : lock_step (Some (Free f)) (Some (Dead f))
  | ls_revive f : lock_step (Some (Dead f)) (Some (Free f))
  | ls_forget l : l = Done ∨ (∃ f, l = Dead f) → lock_step (Some l) None.

(** ** The abstraction *)

Definition lock_of (j : Job) : lock :=
  match status j with
  | js_scheduled | js_queued | js_retry_wait => Free (fence j)
  | js_claimed | js_running => Held (fence j) (default uuid_Nil (worker_id j))
  | js_dead_letter => Dead (fence j)
  | js_completed | js_cancelled => Done
  end.

Definition lock_at (i : uuid) (db : DB) : option lock := lock_of <$> jobs db !! i.

(** Every lock of [db] is one that the steps reach from the lock of [db0]. *)
Definition locks_follow (db0 db : DB) : Prop := ∀ i, rtc lock_step (lock_at i db0) (lock_at i db).

(** ** Lemmas *)

Section follow.
Context (db0 : DB).

(** One row is written. *)
Lemma follow_write db i new :
  locks_follow db0 db →
  (lock_at i db = Some (lock_of new) ∨ lock_step (lock_at i db) (Some (lock_of new))) →
  locks_follow db0 (db <| jobs := <[i := new]> (jobs db) |>).
Proof.
  intros HP Hs i'. specialize (HP i'). unfold lock_at in *. simpl. rewrite lookup_insert.
  case_decide as E; [|done]. subst i'. simpl. destruct Hs as [Hs|Hs]; [by rewrite <- Hs|].
  by eapply rtc_r.
Qed.

(** A row that nobody owns after the write. *)
Lemma unowned_step old new :
  unowned new → jobs_fsm old new = true → (is_active (status old) = false → fence new = fence old) →
  Some (lock_of old) = Some (lock_of new) ∨ lock_step (Some (lock_of old)) (Some (lock_of new)).
Proof.
  intros Hn Hf Hfe. pose proof (jobs_fsm_fence _ _ Hf) as Hle. apply jobs_fsm_status in Hf.
  unfold unowned in Hn. unfold lock_of in *.
  destruct (status old), (status new); simpl in *; try done;
    destruct Hf as [?|?]; try done; try (rewrite Hfe by done); auto using lock_step.
Qed.

Lemma follow_unowned (Q : DB → Prop) i f :
  (∀ db, Q db → locks_follow db0 db) →
  (∀ j, unowned (f j)) → (∀ db j, Q db → jobs db !! i = Some j → is_active (status j) = false → fence (f j) = fence j) →
  hoare Q (update_job i f) (λ _, locks_follow db0).
Proof.
  intros HQ Hu Hf. apply hoare_update_job; [auto|]. intros db old HP Hi _ Hfsm _.
  apply follow_write; [auto|]. unfold lock_at. rewrite Hi. simpl. apply unowned_step; eauto.
Qed.

#[local] Instance follow_idle : IdleStable (locks_follow db0).
Proof.
  intros db i old new HP Hi Ho Hn _ _ Hf Hfsm _. apply follow_write; [done|].
  unfold lock_at. rewrite Hi. by apply unowned_step.
Qed.

Lemma follow_frame db db' : jobs db' = jobs db → locks_follow db0 db → locks_follow db0 db'.
Proof. intros Hj HP i. specialize (HP i). unfold lock_at in *. by rewrite Hj. Qed.

Lemma follow_side db db' : job_side db' = job_side db → locks_follow db0 db → locks_follow db0 db'.
Proof. intros H. apply follow_frame. unfold job_side in H. congruence. Qed.

Ltac follow_step :=
  first [ progress frame_step | apply keeps_gets | apply keeps_ret
        | apply keeps_finish_dependents; apply _ | apply keeps_cancel_descendants; apply _
        | keeps_step ].

Lemma follow_success env i f x : keeps (locks_follow db0) (report_success env i f x).
Proof.
  unfold report_success. eapply hoare_seq; [apply keeps_gets|]. intros [j|]; [|by apply hoare_ret].
  destruct (negb _); [by apply hoare_ret|].
  eapply hoare_bind; [by apply follow_unowned|]. intros []. as_keeps. repeat follow_step.
Qed.

Lemma follow_failure env i f o cls msg perm :
  keeps (locks_follow db0) (report_failure env i f o cls msg perm).
Proof.
  unfold report_failure. eapply hoare_seq; [apply keeps_gets|]. intros [[j rp]|]; [|by apply hoare_ret].
  destruct (negb _); [by apply hoare_ret|].
  eapply hoare_bind; [apply (follow_unowned (locks_follow db0)); [done| |done]|intros []].
  { intros j'. unfold unowned, failed_row. simpl. by destruct (exhausted _ _ _). }
  as_keeps. repeat follow_step.
Qed.

Lemma follow_snooze env i f x d : keeps (locks_follow db0) (report_snooze env i f x d).
Proof.
  unfold report_snooze. apply hoare_read. intros [[j rp]|] ; [|apply hoare_ret; by intros db []].
  destruct (negb _) eqn:Hg; [apply hoare_ret; by intros db []|].
  apply negb_false_iff, andb_true_iff in Hg as [[_ Hrun%bool_decide_eq_true]%andb_true_iff _].
  eapply hoare_bind; [apply follow_unowned; [by intros db [HP _]|done|]|].
  - intros db j' [_ Hrow] Hj'. simpl in Hrow. rewrite Hj' in Hrow. simpl in Hrow.
    destruct (policies db !! retry_policy_id j'); [|done]. simpl in Hrow. simplify_eq. by rewrite Hrun.
  - intros []. as_keeps. repeat follow_step.
Qed.

Lemma follow_batch env input : keeps (locks_follow db0) (report_success_batch env input).
Proof.
  assert (∀ l, keeps (locks_follow db0) (batch_update env l)) as Hb.
  { induction l as [|[[i f] x] l IH]; simpl; [apply keeps_ret|].
    apply keeps_bind; [apply keeps_gets|intros oj]. destruct (from_option _ _ oj); [|apply IH].
    eapply hoare_bind; [by apply (follow_unowned (locks_follow db0))|]. intros [].
    apply keeps_bind; [apply IH|]. intros out. apply keeps_ret. }
  unfold report_success_batch. apply keeps_bind; [apply Hb|intros out]. cbv zeta.
  repeat follow_step.
Qed.

Lemma follow_new i j : unowned j → keeps (locks_follow db0) (insert_job i j).
Proof.
  intros Hj db HP. unfold insert_job. destruct (negb _); [done|]. destruct (negb _); [done|].
  destruct (bool_decide _) eqn:Hi; simpl; [done|]. destruct (tick_taken j db); simpl; [done|].
  apply bool_decide_eq_false, eq_None_not_Some in Hi. apply follow_write; [done|].
  right. unfold lock_at. rewrite Hi. simpl. constructor. unfold unowned in Hj. unfold lock_of.
  by destruct (status j).
Qed.

Lemma follow_start i f w env : keeps (locks_follow db0) (startSQL i f w env).
Proof.
  unfold startSQL. apply hoare_read. intros [j|]; [|apply hoare_ret; by intros db []].
  destruct (owns_claimed f j) eqn:Hown; simpl; [|apply hoare_ret; by intros db []].
  apply andb_true_iff in Hown as [_ Hcl%bool_decide_eq_true].
  eapply (hoare_bind _ _ (λ _, locks_follow db0)).
  - apply hoare_update_job; [by intros db []|]. intros db old [HP Hi] Hi' _ _ _.
    apply follow_write; [done|]. left. unfold lock_at. rewrite Hi' in *. simplify_eq.
    unfold lock_of. simpl. by rewrite Hcl.
  - intros []. as_keeps. apply keeps_bind; [by apply keeps_insert_exec|]. intros []. apply keeps_ret.
Qed.

Lemma follow_claim q n w l ts sh env : keeps (locks_follow db0) (claimSQL q n w l ts sh env).
Proof.
  intros db HP. destruct (claimSQL _ _ _ _ _ _ _ db) as [|[out db']] eqn:Hc; [done|].
  apply claimSQL_spec in Hc as [_ [Hrow Hoth _]]. intros i. specialize (HP i). unfold lock_at in *.
  destruct (decide (i ∈ (candidates env q n ts db).*1)) as [Hin|Hn].
  - apply list_elem_of_fmap in Hin as ([i' j] & -> & Hin). simpl in *.
    destruct (Hrow i' j Hin) as (-> & _). destruct (candidates_spec env q n ts db) as (_ & Hel & _).
    destruct (Hel _ _ Hin) as [Hj He]. apply eligible_queued in He as (_ & Hs & _).
    rewrite Hj in HP. eapply rtc_r; [exact HP|]. simpl. unfold lock_of at 1. rewrite Hs. constructor.
  - by destruct (Hoth i Hn) as [-> _].
Qed.

Lemma follow_cancel r sc : tx_keeps (locks_follow db0) (cancelJob (B:=unit) r sc).
Proof.
  unfold cancelJob, cancelSQL, cancelExecSQL, cancelLeaseSQL, Release, emit_tx.
  repeat first [ tx_step | apply keeps_update_execs; by intros | apply keeps_queue_release; by intros
    | apply keeps_emit; by intros | apply keeps_modify; by intros
    | apply (follow_unowned (locks_follow db0)); done | keeps_step ].
Qed.

Lemma follow_archive env ids : hoare
  (λ db, locks_follow db0 db ∧ ∀ i j, i ∈ ids → jobs db !! i = Some j → is_terminal (status j) = true)
  (moveJobsSQL ids env) (λ _, locks_follow db0).
Proof.
  intros db [HP Ht]. destruct (moveJobsSQL ids env db) as [|[u db']] eqn:Hm; [done|]. intros i.
  specialize (HP i). unfold lock_at in *. destruct (moveJobs_lookup _ _ _ _ _ i Hm) as [-> _].
  case_decide as Hi; [|done]. destruct (jobs db !! i) as [j|] eqn:Hj; [|done].
  eapply rtc_r; [exact HP|]. simpl. constructor. specialize (Ht i j Hi Hj). unfold lock_of.
  destruct (status j); try done; eauto.
Qed.

Lemma follow_emit env t e p pl : t ≠ "job.completed"%string → keeps (locks_follow db0) (emit env t e p pl).
Proof. intros _. by apply keeps_emit. Qed.

Lemma follow_core : CoreInv (locks_follow db0).
Proof.
  split; intros; eauto using follow_idle, follow_start, follow_emit, follow_success, follow_failure,
    follow_snooze, follow_batch, follow_new, follow_cancel.
  - by eapply (core_of_job_side _ follow_side).
  - intros db HP. unfold extendSQL. repeat case_match; simplify_eq; done.
  - by apply keeps_update_execs.
  - apply follow_cancel.
  - apply terminal_Archive; [intros ? ? ? _; by apply follow_frame|apply follow_archive].
  - by apply (job_side_switch _ follow_side follow_emit).
  - apply (job_side_paused _ follow_side).
  - apply (job_side_put _ follow_side).
Qed.

Lemma follow_reachable X db : reachable X db0 db → locks_follow db0 db.
Proof.
  intros Hr. assert (CoreInv (locks_follow db0)) by apply follow_core.
  assert (ClaimInv (locks_follow db0)) by (apply (job_side_claim _ follow_side), follow_claim).
  assert (ConfigInv (locks_follow db0)) by apply (job_side_config _ follow_side).
  apply (core_reachable X (locks_follow db0) db0); [|done]. intros i. apply rtc_refl.
Qed.

End follow.
