(* ===== verification/Executions.v ===== *)
(** * Executions: a job has at most one open one *)

From S2P Require Import Prelude Schema Fl Pool Jobs Sched Archiver Api ApiJobs GoLogic System Core Leases.

#[local] Open Scope string_scope.
#[local] Open Scope list_scope.
#[local] Open Scope Z_scope.

Definition one_open (db : DB) : Prop := ∀ a b x y,
  execs db !! a = Some x → execs db !! b = Some y →
  exec_open x = true → exec_open y = true → x_job_id x = x_job_id y → a = b.

(** ** Lemmas *)

Lemma one_open_frame db db' : execs db' = execs db → one_open db → one_open db'.
Proof. intros He HP a b x y. rewrite He. apply HP. Qed.

(** Closing executions, or removing them, opens none. *)
Lemma one_open_shrink db db' :
  (∀ a x, execs db' !! a = Some x → exec_open x = true →
     ∃ x0, execs db !! a = Some x0 ∧ exec_open x0 = true ∧ x_job_id x0 = x_job_id x) →
  one_open db → one_open db'.
Proof.
  intros Hs HP a b x y Ha Hb Hx Hy Hj.
  destruct (Hs a x Ha Hx) as (x0 & Ha0 & Hx0 & Hjx). destruct (Hs b y Hb Hy) as (y0 & Hb0 & Hy0 & Hjy).
  eapply HP; eauto. congruence.
Qed.

Lemma one_open_close sel f :
  (∀ x, exec_open (f x) = false) → keeps one_open (update_execs sel f).
Proof.
  intros Hf db HP. unfold update_execs. destruct (forallb _ _); [|done].
  eapply one_open_shrink; [|exact HP]. intros a x. simpl. rewrite map_lookup_imap.
  destruct (execs db !! a) as [x0|]; [|done]. simpl. intros [= <-] Ho.
  destruct (sel a x0); [by rewrite Hf in Ho|]. eauto.
Qed.

(** [uq_exec_one_open] refuses a second one. *)
Lemma one_open_insert i x : keeps one_open (insert_exec i x).
Proof.
  intros db HP. unfold insert_exec. destruct (_ || _) eqn:Hu; [done|].
  apply orb_false_iff in Hu as [_ Hcl%bool_decide_eq_false%dec_stable].
  assert (∀ a y, execs db !! a = Some y → exec_open x = true → exec_open y = true →
    x_job_id x ≠ x_job_id y) as Hno.
  { intros a y Ha Hx Hy Hj.
    assert ((a, y) ∈ select (λ _, exec_clash x) (execs db)) as Hin; [|rewrite Hcl in Hin; by apply elem_of_nil in Hin].
    apply elem_of_select. split; [done|]. unfold exec_clash. rewrite bool_decide_eq_true_2 by done.
    rewrite Hx, Hy. by rewrite orb_true_r. }
  intros a b y z. simpl. rewrite !lookup_insert. do 2 case_decide; intros; simplify_eq; try done.
  - exfalso. by eapply Hno.
  - exfalso. by eapply Hno.
  - by eapply HP.
Qed.

Lemma one_open_update_job i f : keeps one_open (update_job i f).
Proof. by apply hoare_update_job. Qed.

Ltac open_step :=
  match goal with
  | |- keeps _ (update_job _ _) => apply one_open_update_job
  | |- keeps _ (update_execs _ _) => apply one_open_close; done
  | |- keeps _ (insert_exec _ _) => apply one_open_insert
  | |- keeps _ (modify _) => apply keeps_modify; by intros
  | |- _ => first [progress frame_step | keeps_step]
  end.
Ltac open_keeps := as_keeps; repeat open_step.

Lemma one_open_cancel_descendants env i : keeps one_open (cancel_descendants env i).
Proof. unfold cancel_descendants. open_keeps. Qed.
Lemma one_open_finish_dependents env i : keeps one_open (finish_dependents env i).
Proof. unfold finish_dependents. open_keeps. Qed.
#[local] Hint Resolve one_open_cancel_descendants one_open_finish_dependents : fl.

Lemma one_open_batch_update env input : keeps one_open (batch_update env input).
Proof. induction input as [|[[i f] x] input IH]; simpl; open_keeps. Qed.
#[local] Hint Resolve one_open_batch_update : fl.

Lemma one_open_side db db' : job_side db' = job_side db → one_open db → one_open db'.
Proof. intros H. apply one_open_frame. unfold job_side in H. congruence. Qed.

Lemma one_open_emit env t e p pl : t ≠ "job.completed" → keeps one_open (emit env t e p pl).
Proof. intros _. by apply keeps_emit. Qed.

Lemma one_open_moveExecs ids env : keeps one_open (moveExecsSQL ids env).
Proof.
  apply keeps_archiving. intros db HP. eapply one_open_shrink; [|exact HP]. intros a x. simpl.
  intros [Ha _]%map_lookup_filter_Some Ho. eauto.
Qed.

#[export] Instance one_open_core : CoreInv one_open.
Proof.
  split; intros; eauto using one_open_emit, one_open_close.
  - by eapply (core_of_job_side _ one_open_side).
  - intros db i old new HP *. done.
  - intros db HP. unfold insert_job. destruct (negb _); [done|]. destruct (negb _); [done|].
    by destruct (_ || _).
  - unfold startSQL. open_keeps.
  - intros db HP. unfold extendSQL. repeat case_match; simplify_eq; done.
  - unfold report_success. open_keeps.
  - unfold report_failure. open_keeps.
  - unfold report_snooze. open_keeps.
  - unfold report_success_batch. open_keeps.
  - change (tx_keeps one_open (cancelJob r sc)). unfold cancelJob, cancelSQL, cancelExecSQL,
      cancelLeaseSQL, Release, emit_tx. repeat first [tx_step | open_step].
  - apply go_keeps_Archive; intros; try apply one_open_moveExecs; try apply keeps_archiving; by intros.
  - by apply (job_side_switch _ one_open_side one_open_emit).
  - apply (job_side_paused _ one_open_side).
  - apply (job_side_put _ one_open_side).
Qed.

#[export] Instance one_open_claims : ClaimInv one_open.
Proof.
  apply (job_side_claim _ one_open_side). intros. unfold claimSQL, upsert_lease. open_keeps.
Qed.

#[export] Instance one_open_config : ConfigInv one_open.
Proof. apply (job_side_config _ one_open_side). Qed.
