(* ===== verification/Once.v ===== *)
(** * Exactly one completion

    The outbox holds one [job.completed] event for every job that is completed,
    in the table or in the archive, and none for any other: however often a
    worker reports, whatever answers are lost, a job completes once. *)

From S2P Require Import Prelude Schema Fl Pool Jobs Sched Archiver Api ApiJobs GoLogic System Core Slots Claims Leases.

#[local] Open Scope string_scope.
#[local] Open Scope list_scope.
#[local] Open Scope Z_scope.

(** ** The invariant *)

Definition count_if {A} (f : A → bool) (l : list A) : Z :=
  Z.of_nat (length (filter (λ x, f x = true) l)).

Definition completed_event (i : uuid) (e : Event) : bool :=
  bool_decide (topic e = "job.completed") && bool_decide (entity_id e = i).

Definition completions (i : uuid) (db : DB) : Z := count_if (completed_event i) (events db).

Definition completed (j : Job) : bool := bool_decide (status j = js_completed).

Definition archived_completed (i : uuid) (db : DB) : Z :=
  count_if (λ r : uuid * Job, bool_decide (r.1 = i) && completed r.2) (jobs_archive db).

Definition completed_now (i : uuid) (db : DB) : Z :=
  from_option (λ j, Z.b2z (completed j)) 0 (jobs db !! i).

Definition once_inv (db : DB) : Prop :=
  ∀ i, completions i db = archived_completed i db + completed_now i db.

(** The same while the events of the jobs of [ids] are still to be written. *)
Definition owing (ids : list uuid) (db : DB) : Prop :=
  (∀ i, completions i db + count_if (λ k, bool_decide (k = i)) ids =
        archived_completed i db + completed_now i db) ∧
  (∀ i, i ∈ ids → ∃ j, jobs db !! i = Some j ∧ completed j = true).

(** ** Counting *)

Lemma count_if_app {A} (f : A → bool) l l' : count_if f (l ++ l') = count_if f l + count_if f l'.
Proof. unfold count_if. rewrite list.filter_app, length_app. lia. Qed.

Lemma count_if_cons {A} (f : A → bool) x l : count_if f (x :: l) = Z.b2z (f x) + count_if f l.
Proof. unfold count_if. rewrite filter_cons. case_decide as E; [rewrite E|apply not_true_is_false in E; rewrite E]; simpl; lia. Qed.

Lemma count_if_perm {A} (f : A → bool) l l' : l ≡ₚ l' → count_if f l = count_if f l'.
Proof. intros Hp. unfold count_if. by rewrite Hp. Qed.

Lemma count_if_nil {A} (f : A → bool) : count_if f [] = 0.
Proof. done. Qed.

(** Counting the rows of a key in a list of rows with distinct keys. *)
Lemma count_key_none {V} (g : V → bool) (i : uuid) (l : list (uuid * V)) :
  i ∉ l.*1 → count_if (λ r : uuid * V, bool_decide (r.1 = i) && g r.2) l = 0.
Proof.
  induction l as [|[k v] l IH]; [done|]. rewrite count_if_cons. simpl.
  intros [Hne Hn]%not_elem_of_cons. rewrite IH by done. by rewrite bool_decide_eq_false_2.
Qed.

Lemma count_key {V} (g : V → bool) (i : uuid) v (l : list (uuid * V)) :
  NoDup l.*1 → (i, v) ∈ l → count_if (λ r : uuid * V, bool_decide (r.1 = i) && g r.2) l = Z.b2z (g v).
Proof.
  induction l as [|[k w] l IH]; [by intros _ ?%elem_of_nil|]. simpl.
  intros [Hni Hnd]%list.NoDup_cons Hin. rewrite count_if_cons. simpl.
  apply elem_of_cons in Hin as [[= <- <-]|Hin].
  - rewrite bool_decide_eq_true_2, count_key_none by done. simpl. lia.
  - rewrite IH by done. rewrite bool_decide_eq_false_2; [done|]. intros ->. apply Hni, list_elem_of_fmap.
    by exists (i, v).
Qed.

Lemma owing_nil db : owing [] db ↔ once_inv db.
Proof.
  unfold owing, once_inv. split.
  - intros [H _] i. specialize (H i). rewrite count_if_nil in H. lia.
  - intros H. split; [intros i; rewrite count_if_nil, H; lia|]. intros i Hi. by apply elem_of_nil in Hi.
Qed.

Lemma owing_perm ids ids' db : ids ≡ₚ ids' → owing ids db → owing ids' db.
Proof.
  intros Hp [H1 H2]. split.
  - intros i. rewrite <- (count_if_perm _ _ _ Hp). apply H1.
  - intros i. rewrite <- Hp. apply H2.
Qed.

(** ** Writes of a row *)

(** Only a running job can become completed, and a completed one stays so. *)
Lemma fsm_completed old new :
  jobs_fsm old new = true → status old ≠ js_running → completed new = completed old.
Proof.
  intros Hf Hr. apply jobs_fsm_status in Hf. unfold completed.
  destruct Hf as [->|Hl]; [done|]. by destruct (status old), (status new).
Qed.

Lemma owing_write ids db i old new :
  owing ids db → jobs db !! i = Some old → completed new = completed old →
  owing ids (db <| jobs := <[i := new]> (jobs db) |>).
Proof.
  intros [H1 H2] Hi Hc. split.
  - intros i'. specialize (H1 i'). unfold completions, archived_completed, completed_now in *. simpl.
    rewrite lookup_insert. destruct (decide (i = i')) as [<-|]; [|done].
    rewrite Hi in H1. simpl in *. by rewrite Hc.
  - intros i' Hin. destruct (H2 i' Hin) as (j & Hj & Hcj). simpl. rewrite lookup_insert.
    destruct (decide (i = i')) as [<-|]; [|eauto]. exists new. split; [done|].
    rewrite Hc. congruence.
Qed.

Lemma owing_complete ids db i old new :
  owing ids db → jobs db !! i = Some old → completed old = false → completed new = true →
  owing (i :: ids) (db <| jobs := <[i := new]> (jobs db) |>).
Proof.
  intros [H1 H2] Hi Ho Hn. split.
  - intros i'. specialize (H1 i'). unfold completions, archived_completed, completed_now in *. simpl.
    rewrite count_if_cons, lookup_insert. destruct (decide (i = i')) as [<-|Hne].
    + rewrite bool_decide_eq_true_2 by done. rewrite Hi in H1. simpl in *. rewrite Hn. rewrite Ho in H1.
      simpl in *. lia.
    + rewrite bool_decide_eq_false_2 by done. simpl. lia.
  - intros i' Hin. simpl. rewrite lookup_insert. destruct (decide (i = i')) as [<-|Hne]; [eauto|].
    apply H2. apply elem_of_cons in Hin as [->|?]; done.
Qed.

#[export] Instance owing_idle ids : IdleStable (owing ids).
Proof.
  intros db i old new HP Hi Ho _ _ _ _ Hf _. eapply owing_write; [done|done|].
  apply fsm_completed; [done|]. intros E. unfold unowned in Ho. by rewrite E in Ho.
Qed.

(** A write that never completes a job. *)
Lemma owing_not_completing ids i f :
  (∀ j, completed (f j) = false) → keeps (owing ids) (update_job i f).
Proof.
  intros Hf. apply hoare_update_job; [done|]. intros db old HP Hi _ Hfsm _.
  eapply owing_write; [done|done|]. rewrite Hf. symmetry.
  apply jobs_fsm_status in Hfsm. specialize (Hf old). unfold completed in *.
  destruct Hfsm as [->|Hl]; [done|]. by destruct (status old), (status (f old)).
Qed.

Lemma owing_emit ids env t e p pl : t ≠ "job.completed" → keeps (owing ids) (emit env t e p pl).
Proof.
  intros Ht. apply keeps_modify. intros db [H1 H2]. split; [|done]. intros i. specialize (H1 i).
  unfold completions, archived_completed, completed_now in *. simpl.
  rewrite count_if_app, count_if_cons, count_if_nil.
  unfold completed_event at 2. simpl. rewrite bool_decide_eq_false_2 by done. simpl. lia.
Qed.

Lemma owing_paid ids env e p pl :
  hoare (owing (e :: ids)) (emit env "job.completed" e p pl) (λ _, owing ids).
Proof.
  apply hoare_modify. intros db [H1 H2]. split.
  - intros i. specialize (H1 i). unfold completions, archived_completed, completed_now in *. simpl.
    rewrite count_if_cons in H1. rewrite count_if_app, count_if_cons, count_if_nil.
    unfold completed_event at 2. simpl.
    lia.
  - intros i Hi. apply H2. by right.
Qed.

Lemma owing_emit_each ids env t pl l k :
  t ≠ "job.completed" → keeps (owing ids) (emit_each env t pl l k).
Proof.
  intros Ht. unfold emit_each. apply keeps_bind; [apply keeps_gets|]. intros rows.
  apply keeps_foreach. intros r. by apply owing_emit.
Qed.

(** ** Reports *)

Ltac owing_seq :=
  first [ progress frame_step | apply keeps_gets | apply keeps_ret
        | apply owing_emit; done | apply owing_emit_each; done
        | apply keeps_finish_dependents; apply _ | apply keeps_cancel_descendants; apply _ ].
Ltac owing_keeps := as_keeps; repeat first [owing_seq | keeps_step].

Lemma hoare_completed ids env i j f :
  owns_running f j = true →
  hoare (λ db, owing ids db ∧ jobs db !! i = Some j) (update_job i (completed_row env))
    (λ _, owing (i :: ids)).
Proof.
  intros [_ Hrun%bool_decide_eq_true]%andb_true_iff. apply hoare_update_job.
  - intros db [_ Hi]. congruence.
  - intros db old [HP Hi] Hi' _ _ _. rewrite Hi in Hi'. injection Hi' as <-.
    eapply owing_complete; [done|done| |done]. unfold completed. by rewrite Hrun.
Qed.

Lemma once_success env i f x : keeps (owing []) (report_success env i f x).
Proof.
  unfold report_success. apply hoare_read. intros [j|]; [|apply hoare_ret; by intros db []].
  destruct (owns_running f j) eqn:Hown; simpl; [|apply hoare_ret; by intros db []].
  eapply hoare_bind; [by eapply hoare_completed|]. intros [].
  do 8 (eapply hoare_seq; [owing_seq|]; intros ?).
  eapply hoare_bind; [apply owing_paid|]. intros []. by apply hoare_ret.
Qed.

Lemma once_failure env i f o cls msg perm : keeps (owing []) (report_failure env i f o cls msg perm).
Proof.
  unfold report_failure. apply keeps_bind; [apply keeps_gets|]. intros [[j rp]|]; [|apply keeps_ret].
  destruct (negb _); [apply keeps_ret|]. apply keeps_bind; [apply owing_not_completing|intros []].
  { intros j'. unfold completed, failed_row. simpl. by destruct (exhausted _ _ _). }
  destruct (exhausted perm rp j), (decide (o = xo_lost)); owing_keeps.
Qed.

Lemma once_snooze env i f x d : keeps (owing []) (report_snooze env i f x d).
Proof.
  unfold report_snooze. apply keeps_bind; [apply keeps_gets|]. intros [[j rp]|]; [|apply keeps_ret].
  destruct (negb _); [apply keeps_ret|]. apply keeps_bind; [by apply owing_not_completing|intros []].
  owing_keeps.
Qed.

(** The jobs a batch completes are distinct. *)
Lemma batch_update_NoDup env input :
  hoare (λ _, True) (batch_update env input) (λ out _, NoDup out.*1).
Proof.
  induction input as [|[[i f] x] rest IH]; simpl; [apply hoare_ret; intros; constructor|].
  apply hoare_read. intros oj. destruct (from_option _ _ oj) eqn:Hown.
  2:{ eapply hoare_weaken; [|exact IH]. done. }
  destruct oj as [j|]; [|done].
  eapply (hoare_bind _ _ (λ _ db, jobs db !! i = Some (completed_row env j))).
  { apply hoare_update_job; [intros db [_ Hi]; congruence|].
    intros db old [_ Hi] Hi' _ _ _. rewrite Hi in Hi'. injection Hi' as <-. simpl. apply lookup_insert_eq. }
  intros []. eapply hoare_bind.
  { eapply hoare_weaken; [|apply hoare_and; [exact IH|by apply (batch_update_skips env rest i (completed_row env j))]].
    intros db Hi. split; [done|exact Hi]. }
  intros out. apply hoare_ret. intros db [Hnd [_ Hni]]. simpl. by constructor.
Qed.

Lemma once_batch_update env input ids :
  hoare (owing ids) (batch_update env input) (λ out, owing (rev out.*1 ++ ids)).
Proof.
  revert ids. induction input as [|[[i f] x] rest IH]; intros ids; simpl; [by apply hoare_ret|].
  apply hoare_read. intros oj. destruct (from_option _ _ oj) eqn:Hown.
  2:{ eapply hoare_weaken; [|apply IH]. by intros db []. }
  destruct oj as [j|]; [|done].
  eapply hoare_bind; [by eapply hoare_completed|]. intros []. eapply hoare_bind; [apply IH|]. intros out.
  apply hoare_ret. intros db HP. simpl. rewrite <- app_assoc. exact HP.
Qed.

(** The events of the batch: one for each of the jobs. *)
Lemma owing_batch_rows ids db :
  NoDup ids → owing ids db →
  ids ≡ₚ (merge_sort (by_key (λ r : uuid * Job, Z.of_N (project_id r.2)))
           (select (λ i _, bool_decide (i ∈ ids) && true) (jobs db))).*1.
Proof.
  intros Hnd [_ Hex]. rewrite merge_sort_Permutation.
  apply NoDup_Permutation; [done|apply NoDup_select|]. intros i. rewrite list_elem_of_fmap. split.
  - intros Hi. destruct (Hex i Hi) as (j & Hj & _). exists (i, j). split; [done|].
    apply elem_of_select. split; [done|]. by rewrite bool_decide_eq_true_2.
  - intros ([i' j] & -> & [_ Hi]%elem_of_select). rewrite andb_true_r in Hi. by apply bool_decide_eq_true in Hi.
Qed.

Lemma owing_pay_all env pl ids :
  NoDup ids → hoare (owing ids) (emit_each env "job.completed" pl ids (λ _, true)) (λ _, owing []).
Proof.
  intros Hnd. unfold emit_each. apply hoare_read. intros rows.
  eapply hoare_conseq; [apply (hoare_foreach (λ l, owing l.*1) rows)| |done].
  - intros [i j] l. apply owing_paid.
  - intros db [HP <-]. eapply owing_perm; [|exact HP]. by apply owing_batch_rows.
Qed.

Lemma once_batch env input : keeps (owing []) (report_success_batch env input).
Proof.
  unfold report_success_batch.
  eapply hoare_bind.
  { eapply hoare_weaken; [|apply hoare_and; [apply (once_batch_update env input [])|apply batch_update_NoDup]].
    by intros db HP. }
  intros out. cbv beta zeta. apply (hoare_assume (NoDup out.*1)); [by intros db []|]. intros Hnd.
  apply (hoare_weaken _ (owing out.*1)).
  { intros db [HP _]. eapply owing_perm; [|exact HP]. rewrite app_nil_r. symmetry. apply Permutation_rev. }
  destruct (out.*1) as [|i ids] eqn:Hids; [by apply hoare_ret|]. rewrite <- Hids in *. clear i ids Hids.
  eapply hoare_seq; [apply keeps_traverse; intros; apply keeps_finish_dependents; apply _|].
  intros woke. do 6 (eapply hoare_seq; [try (apply keeps_foreach; intros ?); owing_seq|]; intros ?).
  eapply hoare_seq; [owing_seq|]. intros [].
  eapply hoare_bind; [by apply owing_pay_all|]. intros []. by apply hoare_ret.
Qed.

(** ** The other operations *)

Lemma keeps_owing_nil {A} (m : sql A) : keeps (owing []) m → keeps once_inv m.
Proof.
  intros Hm. eapply hoare_conseq; [exact Hm| |]; intros *; apply owing_nil.
Qed.

(** A statement that writes no row of [jobs] as completed and no event. *)
Lemma once_same db db' :
  events db' = events db → jobs_archive db' = jobs_archive db →
  (∀ i, completed_now i db' = completed_now i db) → once_inv db → once_inv db'.
Proof.
  intros He Ha Hc HP i. unfold completions, archived_completed. rewrite He, Ha, Hc. apply HP.
Qed.

Lemma once_new i j : status j ≠ js_completed → keeps once_inv (insert_job i j).
Proof.
  intros Hj db HP. unfold insert_job. destruct (negb _); [done|]. destruct (negb _); [done|].
  destruct (bool_decide _) eqn:Hi; simpl; [done|]. destruct (tick_taken j db); simpl; [done|].
  apply bool_decide_eq_false, eq_None_not_Some in Hi.
  apply (once_same db); [done|done| |done]. intros i'. unfold completed_now. simpl.
  rewrite lookup_insert. destruct (decide (i = i')) as [<-|]; [|done]. rewrite Hi. simpl.
  unfold completed. by rewrite bool_decide_eq_false_2.
Qed.

Lemma once_claim q n w l ts sh env : keeps once_inv (claimSQL q n w l ts sh env).
Proof.
  intros db HP. destruct (claimSQL _ _ _ _ _ _ _ db) as [|[out db']] eqn:Hc; [done|].
  apply claimSQL_spec in Hc as [_ [Hrow Hoth Hfr]].
  apply (once_same db); [by rewrite Hfr|by rewrite Hfr| |done]. intros i. unfold completed_now.
  destruct (decide (i ∈ (candidates env q n ts db).*1)) as [Hin|Hn]; [|by destruct (Hoth i Hn) as [-> _]].
  apply list_elem_of_fmap in Hin as ([i' j] & -> & Hin). simpl.
  destruct (Hrow i' j Hin) as (-> & _).
  destruct (candidates_spec env q n ts db) as (_ & Hel & _). destruct (Hel i' j Hin) as [-> He].
  apply eligible_queued in He as (_ & Hq & _). simpl. unfold completed. by rewrite Hq.
Qed.

Lemma once_start i f w env : keeps (owing []) (startSQL i f w env).
Proof.
  unfold startSQL. apply keeps_bind; [apply keeps_gets|]. intros [j|]; [|apply keeps_ret].
  destruct (negb _); [apply keeps_ret|]. apply keeps_bind; [by apply owing_not_completing|intros []].
  apply keeps_bind; [by apply keeps_insert_exec|]. intros []. apply keeps_ret.
Qed.

Lemma once_cancel r sc : tx_keeps once_inv (cancelJob (B:=unit) r sc).
Proof.
  unfold cancelJob, cancelExecSQL, cancelLeaseSQL, Release, emit_tx.
  repeat first [ tx_step
    | apply keeps_owing_nil; apply owing_emit; done
    | apply keeps_update_execs; by intros | apply keeps_drop_lease; by intros
    | apply keeps_queue_release; by intros ].
  apply keeps_owing_nil. unfold cancelSQL. repeat first [by apply owing_not_completing | keeps_step].
Qed.

(** The completed rows that are moved are counted in the archive instead. *)
Lemma once_archive ids env : keeps once_inv (moveJobsSQL ids env).
Proof.
  apply keeps_archiving. intros db HP i. specialize (HP i).
  unfold completions, archived_completed, completed_now in *. simpl.
  rewrite count_if_app.
  enough (count_if (λ r : uuid * Job, bool_decide (r.1 = i) && completed r.2)
            (select (λ k _, bool_decide (k ∈ ids)) (jobs db)) +
          from_option (λ j, Z.b2z (completed j)) 0 (filter (λ r : uuid * Job, r.1 ∉ ids) (jobs db) !! i)
          = from_option (λ j, Z.b2z (completed j)) 0 (jobs db !! i)) by lia.
  destruct (decide (i ∈ ids)) as [Hin|Hn].
  - assert (filter (λ r : uuid * Job, r.1 ∉ ids) (jobs db) !! i = None) as ->.
    { apply map_lookup_filter_None. right. by intros x _ ?. }
    simpl. rewrite Z.add_0_r. destruct (jobs db !! i) as [j|] eqn:Hj; simpl.
    + rewrite (count_key completed i j); [done|apply NoDup_select|].
      apply elem_of_select. split; [done|]. by apply bool_decide_eq_true.
    + apply count_key_none. intros ([i' j] & -> & [Hj' _]%elem_of_select)%list_elem_of_fmap. naive_solver.
  - rewrite count_key_none.
    2:{ intros ([i' j] & -> & [_ Hi]%elem_of_select)%list_elem_of_fmap. by apply bool_decide_eq_true in Hi. }
    assert (filter (λ r : uuid * Job, r.1 ∉ ids) (jobs db) !! i = jobs db !! i) as ->; [|done].
    apply option_eq. intros x. rewrite map_lookup_filter_Some. simpl. tauto.
Qed.

Lemma once_side db db' : job_side db' = job_side db → once_inv db → once_inv db'.
Proof.
  intros H. injection H as Hj _ _ He Ha. apply once_same; try done.
  intros i. unfold completed_now. by rewrite Hj.
Qed.

Lemma once_emit env t e p pl : t ≠ "job.completed" → keeps once_inv (emit env t e p pl).
Proof. intros Ht. by apply keeps_owing_nil, owing_emit. Qed.

#[export] Instance once_core : CoreInv once_inv.
Proof.
  assert (IdleStable once_inv) as Hidle.
  { intros db i old new HP ????????. apply owing_nil. apply owing_nil in HP.
    by eapply (idle_stable (P:=owing [])). }
  split; try exact Hidle; intros; eauto using once_new, keeps_owing_nil, once_start,
    once_success, once_failure, once_snooze, once_batch, once_emit.
  - by eapply (core_of_job_side _ once_side).
  - intros db HP. unfold extendSQL. repeat case_match; simplify_eq; done.
  - by apply keeps_update_execs.
  - apply once_cancel.
  - apply go_keeps_Archive; intros; try apply once_archive; try apply keeps_archiving; by intros.
  - by apply (job_side_switch _ once_side once_emit).
  - apply (job_side_paused _ once_side).
  - apply (job_side_put _ once_side).
Qed.

#[export] Instance once_claims : ClaimInv once_inv.
Proof. apply (job_side_claim _ once_side), once_claim. Qed.

#[export] Instance once_config : ConfigInv once_inv.
Proof. apply (job_side_config _ once_side). Qed.
