(* ===== verification/Capacity.v ===== *)
(** * The concurrency cap

    [slots_inv] through every operation, and what it is for: with the counters
    within the cap, a queue never has more jobs claimed or running than its
    [max_concurrency], however it is sharded. *)

From S2P Require Import Prelude Schema Fl Pool Jobs Sched Cron Archiver Worker Api ApiJobs ApiAdmin GoLogic System Core Slots Leases.

#[local] Open Scope string_scope.
#[local] Open Scope list_scope.
#[local] Open Scope Z_scope.

(** ** The slots through every operation *)

Section slots.
Context (R : shard_key → Z) (HR : ∀ k, 0 ≤ R k).

Lemma slots_frame db db' :
  jobs db' = jobs db → queue_shards db' = queue_shards db → slots_inv R db → slots_inv R db'.
Proof.
  intros Hj Hs HP k. specialize (HP k). unfold active_on, used in *. by rewrite Hj, Hs.
Qed.

Lemma slots_new i j : unowned j → keeps (slots_inv R) (insert_job i j).
Proof.
  intros Hj db HP. unfold insert_job. destruct (negb _); [done|]. destruct (negb _); [done|].
  destruct (bool_decide _) eqn:Hi; simpl; [done|]. destruct (tick_taken j db); simpl; [done|].
  apply bool_decide_eq_false, eq_None_not_Some in Hi. intros k. specialize (HP k).
  unfold active_on, used in *. simpl. rewrite mcount_insert_new by done.
  rewrite holds_slot_unowned by done. simpl. lia.
Qed.

Lemma slots_start i f w env : keeps (slots_inv R) (startSQL i f w env).
Proof.
  unfold startSQL. apply hoare_read. intros [j|]; [|apply hoare_ret; by intros db []].
  destruct (owns_claimed f j) eqn:Hown; simpl; [|apply hoare_ret; by intros db []].
  apply andb_true_iff in Hown as [_ Hcl%bool_decide_eq_true].
  eapply (hoare_bind _ _ (λ _, slots_inv R)).
  - apply hoare_update_job; [by intros db []|]. intros db old [HP Hi] Hi' _ _ _.
    rewrite Hi in Hi'. injection Hi' as <-. eapply slots_keep; [done|done| |done|done].
    by rewrite Hcl.
  - intros []. eapply hoare_seq; [by apply keeps_insert_exec|]. intros []. by apply hoare_ret.
Qed.

(** A cancelled job's slot is released before the commit. *)
Lemma slots_cancel r sc : tx_keeps (slots_inv R) (cancelJob (B:=unit) r sc).
Proof.
  set (i := sc_entityID sc). unfold cancelJob. fold i.
  eapply (tx_hoare_bind _ _ (λ row db, match row with
    | Some (st, q, _, s, true) => slots_inv (if is_active st then charge (q, s) 1 R else R) db
    | _ => slots_inv R db end)).
  - apply tx_hoare_exec. intros env. unfold cancelSQL. apply hoare_read.
    intros [j|]; [|apply hoare_ret; by intros db []].
    destruct (is_terminal (status j)) eqn:Ht; simpl.
    { eapply hoare_seq; [apply keeps_ret|]. intros []. apply hoare_ret. by intros db []. }
    destruct (is_active (status j)) eqn:Ha.
    + eapply hoare_bind; [by apply (hoare_give_up R i _ j)|]. intros []. apply hoare_ret.
      intros db HP. by rewrite Ha.
    + eapply (hoare_bind _ _ (λ _, slots_inv R)).
      2:{ intros []. apply hoare_ret. intros db HP. by rewrite Ha. }
      apply hoare_update_job; [by intros db []|]. intros db old [HP Hi] Hi' Hrg Hf Hck.
      rewrite Hi in Hi'. injection Hi' as <-. by eapply idle_stable; try exact (conj Hrg Hck).
  - intros [[[[[st q] p] s] b]|]; [|apply tx_hoare_throw]. destruct b; simpl; [|apply tx_hoare_throw].
    eapply (tx_hoare_bind _ _ (λ _, slots_inv R)).
    + destruct (is_active st); [|by apply tx_hoare_ret].
      eapply tx_hoare_seq; [apply tx_hoare_exec; intros; by apply keeps_update_execs|]. intros [].
      eapply tx_hoare_seq; [apply tx_hoare_exec; intros; by apply keeps_drop_lease|]. intros [].
      apply tx_hoare_exec. intros. by apply (hoare_release R (q, s) 1).
    + intros []. apply tx_keeps_bind; [|intros []; apply tx_keeps_ret].
      apply tx_keeps_exec. intros env. by apply keeps_emit.
Qed.

Lemma slots_archive ids env : keeps (slots_inv R) (moveJobsSQL ids env).
Proof.
  apply keeps_archiving. intros db HP k. specialize (HP k). unfold used, active_on in *. simpl.
  enough (mcount (holds_slot k.1 k.2) (filter (λ r : uuid * Job, r.1 ∉ ids) (jobs db))
          ≤ mcount (holds_slot k.1 k.2) (jobs db)) by lia.
  unfold mcount. by apply Nat2Z.inj_le, map_subseteq_size, map_filter_subseteq_mono, map_filter_subseteq.
Qed.

(** What [fl.spread] leaves of a counter: the same, or 0 on a shard of a resized
    queue that nobody uses. *)
Lemma spread_used env q old new db db' k :
  spread env q old new db = inr (tt, db') →
  jobs db' = jobs db ∧
  (used k db' = used k db ∨
   (used k db' = 0 ∧ used k db ≤ 0 ∧ active_on k.1 k.2 db = 0)).
Proof.
  unfold spread. set (resized := from_option _ false old).
  destruct (resized && _) eqn:Hg; [done|]. intros [= <-]. split; [done|].
  unfold used. simpl. rewrite map_lookup_imap.
  set (kept := if resized then _ else _).
  set (fresh := list_to_map _ : gmap (uuid * Z) Shard).
  assert (∀ r, fresh !! k = Some r → in_flight r = 0) as Hfresh.
  { intros r Hr. apply elem_of_list_to_map_2, list_elem_of_fmap in Hr as (g & [= _ ->] & _). done. }
  destruct (kept !! k) as [r|] eqn:Hk.
  - left. erewrite lookup_union_Some_l by exact Hk. simpl.
    assert (queue_shards db !! k = Some r) as ->.
    { subst kept. destruct resized; [|done]. by apply map_lookup_filter_Some in Hk as [? _]. }
    simpl. by case_decide.
  - rewrite lookup_union_r by done.
    assert (from_option in_flight 0 (fresh !! k ≫= λ x, Some (if decide (k.1 = q)
      then x <| rl_tokens := Qmin (rl_tokens x) (rl_burst new / inject_Z (shards new))%Q |> else x)) = 0)
      as ->.
    { destruct (fresh !! k) as [r|] eqn:Hf; [|done]. simpl. case_decide; simpl; by apply Hfresh. }
    destruct (queue_shards db !! k) as [r|] eqn:Hr; [|by left].
    subst kept. destruct resized; [|congruence].
    apply map_lookup_filter_None in Hk as [Hk|Hk]; [congruence|]. specialize (Hk r Hr). simpl in Hk.
    apply dec_stable in Hk as [Hq _]. simpl in Hg. apply orb_false_iff in Hg as [Hin Hact].
    right. split_and!; [done| |].
    + simpl. destruct (Z.ltb_spec 0 (in_flight r)) as [Hlt|]; [|done].
      assert (existsb (λ s : Z * Shard, 0 <? in_flight s.2) (shards_of q db) = true) as Hex; [|congruence].
      apply existsb_exists. exists (k.2, r). split; [|simpl; lia].
      apply list_elem_of_In, elem_of_shards_of. subst q. by rewrite <- surjective_pairing.
    + apply bool_decide_eq_false, dec_stable in Hact. apply mcount_zero. intros i j Hj.
      destruct (holds_slot k.1 k.2 j) eqn:Hh; [|done]. exfalso.
      assert ((i, j) ∈ select (λ _ j, bool_decide (queue_id j = q) && is_active (status j)) (jobs db)) as Hx.
      { apply elem_of_select. split; [done|]. unfold holds_slot in Hh. rewrite !andb_true_iff in Hh.
        destruct Hh as [[Ha Hqj] _]. rewrite <- Hq. by rewrite Hqj. }
      rewrite Hact in Hx. by apply elem_of_nil in Hx.
Qed.

Lemma slots_spread env q old new : keeps (slots_inv R) (spread env q old new).
Proof.
  intros db HP. destruct (spread env q old new db) as [|[[] db']] eqn:Hs; [done|]. intros k.
  destruct (spread_used _ _ _ _ _ _ k Hs) as [Hj Hu]. specialize (HP k).
  assert (active_on k.1 k.2 db' = active_on k.1 k.2 db) as -> by (unfold active_on; by rewrite Hj).
  destruct Hu as [->|(-> & ? & ->)]; [done|]. pose proof (active_on_nonneg k.1 k.2 db). lia.
Qed.

Lemma slots_put env i old q : keeps (slots_inv R) (put_queue env i old q).
Proof.
  intros db HP. unfold put_queue. destruct (negb _); [done|]. destruct (negb _); [done|].
  destruct (_ || _); [done|]. by apply slots_spread.
Qed.

#[export] Instance slots_core : CoreInv (slots_inv R).
Proof.
  split; try apply slots_idle_stable; intros; eauto using slots_new, slots_start, slots_report_success,
    slots_report_failure, slots_report_snooze, slots_report_success_batch, slots_put.
  - unfold core in H. eapply slots_frame; [| |exact H0]; congruence.
  - by apply keeps_emit.
  - intros db HP. unfold extendSQL. repeat case_match; simplify_eq; done.
  - by apply keeps_update_execs.
  - apply slots_cancel.
  - apply go_keeps_Archive; intros; try apply slots_archive; try apply keeps_archiving; by intros.
  - unfold switch. repeat first [by apply keeps_emit | apply keeps_modify; by intros | keeps_step].
  - unfold setPausedSQL. repeat first [apply keeps_modify; by intros | keeps_step].
Qed.

#[export] Instance slots_config : ConfigInv (slots_inv R).
Proof.
  intros i req po env. unfold updateQueueSQL. repeat first [apply slots_put | keeps_step].
Qed.

(** The operations that use slots they were not granted, or forget the grants:
    the single calls of a claim, and the repair of the counters. *)
Definition keeps_grants (o : op) : bool :=
  match o with OpAdmit _ _ | OpTake _ _ _ | OpRelease _ _ _ | OpReconcile => false | _ => true end.

(** No call of [o] loses the answer of a commit of a claim. *)
Definition claim_answered (o : op) (w : World) : Prop :=
  match o with
  | OpClaim _ => answered (w_calls w) (3 + w_n w) ∧ answered (w_calls w) (4 + w_n w)
  | _ => True
  end.

Lemma slots_op X o w :
  keeps_grants o = true → polite (w_calls w) → claim_answered o w →
  w_snap w = None → slots_inv R (w_db w) → slots_inv R (final_db (run_op X o) w).
Proof.
  intros Hg Hpol Hans Hs HP.
  assert (at_rest (slots_inv R) w) as Hw by (split_and!; [done|done|]; intros n db; by apply Hpol).
  destruct (plain o) eqn:Hp; [by apply core_plain; try apply _|].
  destruct o; try done.
  - destruct (not_plain_route rt Hp) as [r ->].
    apply (serve_final X (slots_inv R) (PatchQueue r)). simpl.
    apply core_guard; [apply _| | |done]; intros ?.
    + apply core_byPath. intros. apply core_scopeBy. intros. apply keeps_gets.
    + apply core_updateQueue; apply _.
  - destruct Hans as [Ha1 Ha2]. unfold final_db. simpl. unfold ignore, mbind, go_bind.
    destruct (Claim req w) as [r w'] eqn:Hc.
    pose proof (slots_Claim R HR req w r w' Hpol Ha1 Ha2 Hs HP Hc). by destruct r.
Qed.

End slots.

(** ** The cap *)

(** Every row of [queue_shards] is one of its queue's shards, and its counter is
    within the share of the cap that shard has. *)
Definition within (q : Queue) (s : Z) (r : Shard) : Prop :=
  0 ≤ max_concurrency q ∧ 0 ≤ s < shards q ∧
  in_flight r ≤ shard_slots (max_concurrency q) (shards q) s.

Definition capped (db : DB) : Prop := ∀ k r, queue_shards db !! k = Some r →
  ∃ q, queues db !! k.1 = Some q ∧ within q k.2 r.

Lemma shard_slots_nonneg m n s : 0 ≤ m → 0 < n → 0 ≤ shard_slots m n s.
Proof. intros Hm Hn. unfold shard_slots. pose proof (Z.div_pos m n Hm Hn). case_match; lia. Qed.

(** The shares of the shards add up to the cap. *)
Definition sum_over (l : list Z) (f : Z → Z) : Z := foldr (λ s acc, f s + acc) 0 l.

Lemma sum_over_snoc l x f : sum_over (l ++ [x]) f = sum_over l f + f x.
Proof. induction l as [|y l IH]; simpl; [lia|]. rewrite IH. lia. Qed.

Lemma sum_over_le l f g : (∀ s, s ∈ l → f s ≤ g s) → sum_over l f ≤ sum_over l g.
Proof.
  induction l as [|y l IH]; simpl; intros H; [lia|].
  assert (f y ≤ g y) by (apply H; left). assert (sum_over l f ≤ sum_over l g) by (apply IH; intros; apply H; by right).
  lia.
Qed.

Lemma shard_slots_partial m n (k : nat) :
  0 ≤ m → 0 < n → sum_over (seqZ 0 (Z.of_nat k)) (shard_slots m n) =
  Z.of_nat k * (m / n) + Z.min (Z.of_nat k) (m mod n).
Proof.
  intros Hm Hn. pose proof (Z.mod_pos_bound m n Hn) as Hmod. induction k as [|k IH]; [simpl; lia|].
  rewrite Nat2Z.inj_succ, <- Z.add_1_r, seqZ_app by lia.
  assert (seqZ (0 + Z.of_nat k) 1 = [Z.of_nat k]) as -> by done.
  rewrite sum_over_snoc, IH. unfold shard_slots. case_match; lia.
Qed.

Lemma shard_slots_sum m n :
  0 ≤ m → 0 < n → sum_over (seqZ 0 n) (shard_slots m n) = m.
Proof.
  intros Hm Hn. pose proof (shard_slots_partial m n (Z.to_nat n) Hm Hn) as H.
  rewrite Z2Nat.id in H by lia. rewrite H. pose proof (Z.mod_pos_bound m n Hn) as Hmod.
  pose proof (Z.div_mod m n ltac:(lia)). lia.
Qed.

(** A count is at most the sum of the counts of its parts. *)
Lemma mcount_cover {V} (f : V → bool) (g : Z → V → bool) l (m : gmap uuid V) :
  (∀ i v, m !! i = Some v → f v = true → ∃ s, s ∈ l ∧ g s v = true) →
  mcount f m ≤ sum_over l (λ s, mcount (g s) m).
Proof.
  induction m as [|i v m Hi IH] using map_ind; intros Hc.
  { unfold mcount at 1. rewrite map_filter_empty, map_size_empty. clear Hc.
    induction l as [|s l IHl]; simpl; [lia|]. pose proof (mcount_nonneg (g s) ∅). lia. }
  rewrite mcount_insert_new by done.
  assert (sum_over l (λ s, mcount (g s) (<[i:=v]> m)) =
    sum_over l (λ s, mcount (g s) m) + sum_over l (λ s, Z.b2z (g s v))) as ->.
  { clear Hc IH. induction l as [|s l IHl]; simpl; [done|]. rewrite mcount_insert_new by done. lia. }
  assert (mcount f m ≤ sum_over l (λ s, mcount (g s) m)) as H1.
  { apply IH. intros i' v' Hv'. apply (Hc i'). rewrite lookup_insert_ne; [done|]. congruence. }
  assert (Z.b2z (f v) ≤ sum_over l (λ s, Z.b2z (g s v))) as H2.
  { assert (∀ l', 0 ≤ sum_over l' (λ s, Z.b2z (g s v))) as Hpos.
    { intros l'. induction l' as [|s l' IHl]; simpl; [lia|]. destruct (g s v); simpl; lia. }
    destruct (f v) eqn:Hf; simpl; [|apply Hpos].
    destruct (Hc i v (lookup_insert_eq _ _ _) Hf) as (s & Hs & Hg). clear -Hs Hg Hpos.
    induction l as [|s' l IHl]; [by apply elem_of_nil in Hs|]. simpl.
    specialize (Hpos l). apply elem_of_cons in Hs as [<-|Hs]; [rewrite Hg; simpl; lia|].
    specialize (IHl Hs). destruct (g s' v); simpl; lia. }
  lia.
Qed.

Lemma cap_respected R db q qr :
  (∀ k, 0 ≤ R k) → slots_inv R db → capped db → queues db !! q = Some qr →
  0 ≤ max_concurrency qr → 0 < shards qr → active_jobs q db ≤ max_concurrency qr.
Proof.
  intros HR HP Hcap Hq Hm Hn.
  rewrite <- (shard_slots_sum (max_concurrency qr) (shards qr) Hm Hn).
  etrans; [apply (mcount_cover _ (holds_slot q) (seqZ 0 (shards qr)))|].
  - intros i j Hj [Ha Hqj%bool_decide_eq_true]%andb_true_iff.
    assert (holds_slot q (shard j) j = true) as Hh.
    { unfold holds_slot. rewrite Ha, !bool_decide_eq_true_2 by done. done. }
    exists (shard j). split; [|done]. apply elem_of_seqZ.
    assert (0 < active_on q (shard j) db) as Hpos by (by eapply mcount_pos).
    specialize (HP (q, shard j)). specialize (HR (q, shard j)). unfold used in HP. simpl in HP.
    destruct (queue_shards db !! (q, shard j)) as [r|] eqn:Hr; simpl in HP; [|lia].
    destruct (Hcap _ _ Hr) as (qr' & Hq' & _ & Hs & _). simpl in *. rewrite Hq in Hq'.
    injection Hq' as <-. lia.
  - apply sum_over_le. intros s Hs%elem_of_seqZ. specialize (HP (q, s)). specialize (HR (q, s)).
    unfold used in HP. simpl in HP. change (mcount (holds_slot q s) (jobs db)) with (active_on q s db).
    destruct (queue_shards db !! (q, s)) as [r|] eqn:Hr; simpl in HP.
    + destruct (Hcap _ _ Hr) as (qr' & Hq' & _ & _ & Hle). simpl in *. rewrite Hq in Hq'.
      injection Hq' as <-. lia.
    + pose proof (shard_slots_nonneg (max_concurrency qr) (shards qr) s Hm Hn). lia.
Qed.

(** ** The counters stay within the cap *)

Lemma capped_frame db db' :
  queues db' = queues db → queue_shards db' = queue_shards db → capped db → capped db'.
Proof. intros Hq Hs HP k r. rewrite Hq, Hs. apply HP. Qed.

(** A write of the row of a queue that keeps its cap and its shards. *)
Lemma capped_queue db i q q' :
  queues db !! i = Some q → max_concurrency q' = max_concurrency q → shards q' = shards q →
  capped db → capped (db <| queues := <[i := q']> (queues db) |>).
Proof.
  intros Hi Hm Hs HP k r Hk. simpl in *. destruct (HP k r Hk) as (q0 & Hq0 & Hw).
  rewrite lookup_insert. destruct (decide (i = k.1)) as [->|]; [|by eauto].
  exists q'. split; [done|]. rewrite Hi in Hq0. injection Hq0 as <-.
  unfold within in *. by rewrite Hm, Hs.
Qed.

Lemma capped_release q s n : 0 ≤ n → keeps capped (queue_release q s n).
Proof.
  intros Hn. apply keeps_modify. intros db HP k r. simpl.
  destruct (decide ((q, s) = k)) as [<-|Hne]; [|rewrite lookup_alter_ne by done; apply HP].
  rewrite lookup_alter_eq. intros (r0 & Hr0 & ->)%fmap_Some_1.
  destruct (HP _ _ Hr0) as (q0 & Hq0 & Hm & Hs & Hle). exists q0. split; [done|].
  pose proof (shard_slots_nonneg (max_concurrency q0) (shards q0) s Hm ltac:(simpl in *; lia)).
  unfold within. simpl in *. lia.
Qed.

Lemma capped_update_job i f : keeps capped (update_job i f).
Proof. by apply hoare_update_job. Qed.

Ltac capped_step :=
  match goal with
  | |- keeps _ (update_job _ _) => apply capped_update_job
  | |- keeps _ (queue_release _ _ _) => apply capped_release; lia
  | |- _ => first [progress frame_step | keeps_step]
  end.
Ltac capped_keeps := as_keeps; repeat capped_step.

Lemma capped_cancel_descendants env i : keeps capped (cancel_descendants env i).
Proof. unfold cancel_descendants. capped_keeps. Qed.
Lemma capped_finish_dependents env i : keeps capped (finish_dependents env i).
Proof. unfold finish_dependents. capped_keeps. Qed.
#[local] Hint Resolve capped_cancel_descendants capped_finish_dependents : fl.

Lemma capped_success env i f x : keeps capped (report_success env i f x).
Proof. unfold report_success. capped_keeps. Qed.
Lemma capped_failure env i f o cls msg perm : keeps capped (report_failure env i f o cls msg perm).
Proof. unfold report_failure. capped_keeps. Qed.
Lemma capped_snooze env i f x d : keeps capped (report_snooze env i f x d).
Proof. unfold report_snooze. capped_keeps. Qed.
Lemma capped_batch_update env input : keeps capped (batch_update env input).
Proof. induction input as [|[[i f] x] input IH]; simpl; capped_keeps. Qed.

Lemma capped_batch env input : keeps capped (report_success_batch env input).
Proof.
  unfold report_success_batch. apply keeps_bind; [apply capped_batch_update|]. intros out. cbv zeta.
  destruct (out.*1); [apply keeps_ret|].
  do 5 (apply keeps_bind; [capped_keeps|intros ?]).
  eapply (hoare_bind _ _ (λ rel db, capped db ∧ ∀ t, t ∈ rel → 0 ≤ t.2)).
  { apply hoare_gets. intros db HP. split; [done|]. intros t (k & -> & _)%list_elem_of_fmap.
    apply mcount_nonneg. }
  intros rel. eapply (hoare_bind _ _ (λ _, capped)); [|intros []; capped_keeps].
  eapply hoare_conseq;
    [apply (hoare_foreach (λ l db, capped db ∧ ∀ t, t ∈ l → 0 ≤ t.2) rel)|done|by intros ?? []].
  intros t l0. apply (hoare_assume (0 ≤ t.2)); [intros db [_ H]; apply H; left|]. intros Ht.
  intros db [HP Hl]. pose proof (capped_release t.1.1 t.1.2 t.2 Ht db HP) as H.
  destruct (queue_release t.1.1 t.1.2 t.2 db) as [|[[] db']]; [done|]. split; [done|].
  intros t' Ht'. apply Hl. by right.
Qed.

Lemma spread_shards env q old new db db' k r :
  spread env q old new db = inr (tt, db') → queue_shards db' !! k = Some r →
  queues db' = queues db ∧
  ((∃ r0, queue_shards db !! k = Some r0 ∧ in_flight r = in_flight r0) ∨
   (k.1 = q ∧ 0 ≤ k.2 < shards new ∧ in_flight r = 0)).
Proof.
  unfold spread. set (resized := from_option _ false old).
  destruct (resized && _); [done|]. intros [= <-]. simpl. rewrite map_lookup_imap.
  set (kept := if resized then _ else _). intros Hk. split; [done|].
  destruct (kept !! k) as [r0|] eqn:Hr0.
  - left. exists r0. erewrite lookup_union_Some_l in Hk by exact Hr0. injection Hk as <-. split.
    + subst kept. destruct resized; [|done]. by apply map_lookup_filter_Some in Hr0 as [? _].
    + by case_decide.
  - right. rewrite lookup_union_r in Hk by done.
    destruct (_ !! k) as [r1|] eqn:Hf; [|done]. injection Hk as <-.
    apply elem_of_list_to_map_2, list_elem_of_fmap in Hf as (g & [= -> ->] & Hg%elem_of_seqZ).
    simpl. split_and!; [done|lia|lia|by case_decide].
Qed.

Lemma fresh_within q s r :
  queue_checks q = true → 0 ≤ s < shards q → in_flight r = 0 → within q s r.
Proof.
  intros Hck Hg H0. unfold queue_checks in Hck.
  rewrite !andb_true_iff in Hck. destruct Hck as [[[[[[[[Hm _] _] _] Hs1] _] _] _] _].
  unfold within. rewrite H0. split_and!; [lia|lia|lia|]. apply shard_slots_nonneg; lia.
Qed.

(** A new queue has fresh counters. *)
Lemma capped_create env i q : keeps capped (put_queue env i None q).
Proof.
  intros db HP. unfold put_queue. destruct (negb _); [done|].
  destruct (queue_checks q) eqn:Hck; simpl; [|done].
  destruct (_ || _) eqn:Hu; [done|]. apply orb_false_iff in Hu as [_ Hn].
  simpl in Hn.
  apply bool_decide_eq_false, eq_None_not_Some in Hn.
  destruct (spread _ _ _ _ _) as [|[[] db']] eqn:Hs; [done|]. intros k r Hk.
  destruct (spread_shards _ _ _ _ _ _ _ _ Hs Hk) as [-> [(r0 & Hr0 & He)|(<- & Hg & H0)]]; simpl in *.
  - destruct (HP k r0 Hr0) as (q0 & Hq0 & Hw). exists q0. split.
    + rewrite lookup_insert_ne; [done|]. congruence.
    + unfold within in *. by rewrite He.
  - exists q. rewrite lookup_insert_eq. split; [done|]. by apply fresh_within.
Qed.

(** A change of the other settings of a queue. *)
Definition same_capacity (req : queueReq) : Prop := qr_MaxConcurrency req = None ∧ qr_Shards req = None.

Lemma capped_update i req po env : same_capacity req → keeps capped (updateQueueSQL i req po env).
Proof.
  intros [Hm Hs]. unfold updateQueueSQL. apply hoare_read. intros [q|]; [|apply hoare_ret; by intros db []].
  eapply (hoare_bind _ _ (λ _, capped)); [|intros []; capped_keeps].
  intros db [HP Hq]. unfold put_queue. destruct (negb _); [done|].
  set (new := updated_queue req po q). destruct (queue_checks new) eqn:Hck; simpl; [|done].
  destruct (_ || _); [done|].
  assert (max_concurrency new = max_concurrency q ∧ shards new = shards q) as [Hmn Hsn].
  { unfold new, updated_queue. simpl. by rewrite Hm, Hs. }
  destruct (spread _ _ _ _ _) as [|[[] db']] eqn:Hsp; [done|]. intros k r Hk.
  destruct (spread_shards _ _ _ _ _ _ _ _ Hsp Hk) as [-> Hcase].
  assert (capped (db <| queues := <[i := new]> (queues db) |>)) as HP' by (by eapply capped_queue).
  destruct Hcase as [(r0 & Hr0 & He)|(Hi & Hg & H0)].
  - destruct (HP' k r0 Hr0) as (q0 & Hq0 & Hw). exists q0. split; [done|]. unfold within in *. by rewrite He.
  - simpl. subst i. exists new. rewrite lookup_insert_eq. split; [done|]. by apply fresh_within.
Qed.

Lemma capped_admit_shard env q qr want :
  hoare (λ db, capped db ∧ ∃ q', queues db !! q = Some q' ∧
           max_concurrency q' = max_concurrency qr ∧ shards q' = shards qr)
    (admit_shard env q qr want) (λ _, capped).
Proof.
  unfold admit_shard. apply hoare_read. intros [|[sh sr] rest]; [apply hoare_ret; by intros db [[HP _] _]|].
  destruct (_ && _); [apply hoare_raise|].
  destruct (_ <=? 0) eqn:Hslots; [apply hoare_ret; by intros db [[HP _] _]|].
  set (slots := Z.min want _) in *.
  eapply (hoare_bind _ _ (λ _, capped)); [apply hoare_modify|intros []].
  - intros db [[HP (q' & Hq & Hm & Hs)] [Hsh Hroom]%elem_of_cands] k r. simpl.
    rewrite lookup_insert. destruct (decide ((q, sh) = k)) as [<-|Hne]; [|apply HP].
    intros [= <-]. destruct (HP _ _ Hsh) as (q0 & Hq0 & Hm0 & Hs0 & _). simpl in *.
    rewrite Hq in Hq0. injection Hq0 as <-. exists q'. split; [done|]. split_and!; [done|lia|lia|].
    simpl. rewrite Hm, Hs. lia.
  - apply (keeps_bind capped); [|intros []; apply keeps_ret].
    keeps_step; [apply keeps_ret|]. apply keeps_modify. intros db HP k r Hk. simpl in *.
    destruct (HP k r Hk) as (q0 & Hq0 & Hw). destruct (decide (q = k.1)) as [->|Hne].
    + rewrite lookup_alter_eq, Hq0. simpl. eexists. split; [done|]. exact Hw.
    + rewrite lookup_alter_ne by done. eauto.
Qed.

Lemma capped_queue_admit env q want : keeps capped (queue_admit env q want).
Proof.
  unfold queue_admit. apply hoare_read. intros [qr|]; [|apply hoare_ret; by intros db []].
  destruct (paused qr); [apply hoare_ret; by intros db []|].
  eapply (hoare_bind _ _ (λ _ db, capped db ∧ ∃ q', queues db !! q = Some q' ∧
           max_concurrency q' = max_concurrency qr ∧ shards q' = shards qr)).
  - unfold admit_breaker. case_decide; [apply hoare_ret; intros db []; eauto|].
    case_decide; [|apply hoare_ret; intros db []; eauto].
    destruct (_ <? _); [apply hoare_ret; intros db []; eauto|].
    eapply (hoare_bind _ _ (λ _ db, capped db ∧ ∃ q', queues db !! q = Some q' ∧
      max_concurrency q' = max_concurrency qr ∧ shards q' = shards qr));
      [apply hoare_modify|intros []; by apply hoare_ret].
    intros db [HP Hq]. split; [by eapply capped_queue|]. simpl. rewrite lookup_insert_eq. eauto.
  - intros [w|]; [apply capped_admit_shard|]. apply hoare_ret. by intros db [].
Qed.

#[export] Instance capped_core : CoreInv capped.
Proof.
  split; intros; eauto using capped_success, capped_failure, capped_snooze, capped_batch, capped_create.
  - unfold core in H. eapply capped_frame; [| |exact H0]; congruence.
  - intros db i old new HP *. done.
  - by apply keeps_emit.
  - intros db HP. unfold insert_job. destruct (negb _); [done|]. destruct (negb _); [done|].
    by destruct (_ || _).
  - unfold startSQL. repeat first [by apply keeps_insert_exec | capped_step].
  - intros db HP. unfold extendSQL. repeat case_match; simplify_eq; done.
  - by apply keeps_update_execs.
  - change (tx_keeps capped (cancelJob r sc)). unfold cancelJob, cancelSQL, cancelExecSQL,
      cancelLeaseSQL, Release, emit_tx. repeat first [tx_step | capped_step].
  - apply go_keeps_Archive; intros; try apply keeps_archiving; by intros.
  - unfold switch. apply hoare_read. intros [qr|]; [|apply hoare_ret; by intros db []].
    case_decide; [|apply hoare_ret; by intros db []]. destruct (H qr) as (Hm & Hs & _).
    eapply (hoare_bind _ _ (λ _, capped)); [apply hoare_modify|intros []; capped_keeps].
    intros db [HP Hq]. by eapply capped_queue.
  - unfold setPausedSQL. apply hoare_read. intros [qr|]; [|apply hoare_ret; by intros db []].
    eapply (hoare_bind _ _ (λ _, capped)); [apply hoare_modify|intros []; capped_keeps].
    intros db [HP Hq]. by eapply capped_queue.
Qed.

(** *** Claim *)

Lemma capped_take_jobs req sh n : go_keeps capped (take_jobs req sh n).
Proof.
  unfold take_jobs, Release. apply go_keeps_with_tx.
  apply go_keeps_bind; [apply go_keeps_tx; intros env|intros out].
  { unfold claimSQL. repeat first [apply keeps_modify; by intros | capped_step]. }
  apply go_keeps_bind; [|intros ?; go_keeps]. destruct (_ <? n) eqn:Hlt; [|apply go_keeps_ret].
  apply go_keeps_tx. intros env. apply capped_release. lia.
Qed.

(** Admission never grants less than nothing. *)
Lemma admit_nonneg env q want : hoare (λ _, True) (queue_admit env q want) (λ g _, 0 ≤ g.1).
Proof.
  unfold queue_admit, admit_shard. apply hoare_read. intros [qr|]; [|by apply hoare_ret].
  destruct (paused qr); [by apply hoare_ret|].
  eapply (hoare_bind _ _ (λ _ _, True)).
  { intros db _. by destruct (admit_breaker env q qr want db) as [|[? ?]]. }
  intros [w|]; [|by apply hoare_ret]. apply hoare_read. intros [|[sh sr] rest]; [by apply hoare_ret|].
  destruct (_ && _); [apply hoare_raise|].
  destruct (_ <=? 0) eqn:Hslots; [by apply hoare_ret|].
  eapply (hoare_bind _ _ (λ _ _, True)); [by apply hoare_modify|]. intros [].
  eapply (hoare_bind _ _ (λ _ _, True)); [case_decide; [by apply hoare_ret|by apply hoare_modify]|].
  intros []. apply hoare_ret. intros db _. simpl. lia.
Qed.

Lemma capped_Claim req : go_keeps capped (Claim req).
Proof.
  intros w Hw. unfold Claim, admit_slots. unfold mbind at 1, go_bind at 1.
  pose proof (go_keeps_pool capped (λ env, queue_admit env (QueueID req) (FreeSlots req))
    (λ env, capped_queue_admit env _ _) w Hw) as Hw1.
  destruct (pool_exec _ w) as [[e|[n sh]] w1] eqn:Hx; [done|]. simpl in Hw1.
  apply (pool_exec_spec _ _ (λ _, True) (λ g _, 0 ≤ g.1)) in Hx as [_ Hn]; [|done|apply admit_nonneg].
  simpl in Hn. destruct (n =? 0); [done|]. revert w1 Hw1.
  change (go_keeps capped (out ← caught (take_jobs req sh n);
    match out with
    | inl e => _ ← caught (pool_exec (λ _, queue_release (QueueID req) sh n)); throw e
    | inr l => mret l
    end)).
  apply go_keeps_bind; [apply go_keeps_caught, capped_take_jobs|]. intros [e|l]; [|apply go_keeps_ret].
  go_keeps. by apply capped_release.
Qed.

(** ** The cap through every operation *)

(** The operation leaves the cap and the shards of every queue as they are. *)
Definition keeps_capacity (o : op) : Prop :=
  match o with
  | OpServe (PatchQueue r) => ∀ req, rq_body r = Some req → same_capacity req
  | _ => True
  end.

Lemma capped_updateQueue parse r sc :
  (∀ req, rq_body r = Some req → same_capacity req) → tx_keeps capped (updateQueue parse r sc).
Proof.
  intros Hreq. unfold updateQueue. unfold decode. destruct (rq_body r) as [req|] eqn:Hb.
  - apply tx_keeps_ret_bind. repeat first [tx_step | apply core_or_problem].
    + by apply core_assertPolicyOwned.
    + by apply capped_update, Hreq.
  - by intros w res w' [= <- <-] _.
Qed.

Lemma capped_op X o w :
  keeps_grants o = true → keeps_capacity o → at_rest capped w → capped (final_db (run_op X o) w).
Proof.
  intros Hg Hc Hw. destruct (plain o) eqn:Hp; [by apply core_plain; try apply _|].
  destruct o; try done.
  - destruct (not_plain_route rt Hp) as [r ->].
    apply (serve_final X capped (PatchQueue r)). simpl.
    apply core_guard; [apply _| | |done]; intros ?.
    + apply core_byPath. intros. apply core_scopeBy. intros. apply keeps_gets.
    + by apply capped_updateQueue.
  - destruct Hw as (Hs & HP & Ho). apply (go_keeps_run capped); [|done..]. simpl. unfold ignore.
    apply go_keeps_bind; [apply capped_Claim|]. intros. apply go_keeps_ret.
Qed.
