(* ===== verification/Interleaving.v ===== *)
(** * Claims that overlap

    A claim is two transactions: an admission, which is granted slots, and the
    taking of the jobs, which uses them; when the second fails a third call gives
    the slots back.  Here the calls of any number of claims come in any order,
    between runs of the other operations: the state is the database with the
    grants that are outstanding. *)

From S2P Require Import Prelude Schema Fl Pool Jobs Sched Worker GoLogic System Core Slots Capacity.
From stdpp Require Import relations.

#[local] Open Scope Z_scope.

(** The slots of an admission whose claim has not taken its jobs yet. *)
Record grant := mkGrant { g_queue : uuid; g_shard : Z; g_slots : Z }.

Definition g_key (g : grant) : shard_key := (g_queue g, g_shard g).

Definition granted (G : list grant) : shard_key → Z :=
  foldr (λ g, charge (g_key g) (g_slots g)) no_slots G.

Section runs.
Context (X : Externals) (allowed : op → Prop).

(** Runs of the operations of the system, whole claims among them: one, with
    others between its calls, or one after another.  The single calls of a claim
    are steps of [claiming], and the repair of the counters is left out, since
    it forgets the grants. *)
Inductive orderly : (DB → DB) → Prop :=
  | orderly_id : orderly (λ db, db)
  | orderly_run o calls :
      keeps_grants o = true → allowed o → (∀ db, claim_answered o (start db calls)) →
      (∀ n, orderly (c_other (calls n))) →
      orderly (λ db, final_db (run_op X o) (start db calls))
  | orderly_seq f g : orderly f → orderly g → orderly (λ db, g (f db)).

(** One step: a run of the other operations, or one call of a claim.  Any call
    may fail and any answer may be lost, except that of the commit of
    [take_jobs]. *)
Inductive claiming : DB * list grant → DB * list grant → Prop :=
  | cl_run f db G : orderly f → claiming (db, G) (f db, G)
  | cl_admitted q want calls n sh db G :
      (∀ k, orderly (c_other (calls k))) →
      answer (admit_slots q want) (start db calls) = inr (n, sh) →
      claiming (db, G) (final_db (admit_slots q want) (start db calls), mkGrant q sh n :: G)
  | cl_admit_failed q want calls e db G :
      (∀ k, orderly (c_other (calls k))) →
      answer (admit_slots q want) (start db calls) = inl e →
      claiming (db, G) (final_db (admit_slots q want) (start db calls), G)
  | cl_taken req sh (n : Z) calls l db G1 G2 :
      (∀ k, orderly (c_other (calls k))) → answered calls 2 → answered calls 3 → 0 < n →
      answer (take_jobs req sh n) (start db calls) = inr l →
      claiming (db, G1 ++ mkGrant (QueueID req) sh n :: G2)
        (final_db (take_jobs req sh n) (start db calls), G1 ++ G2)
  | cl_take_failed req sh (n : Z) calls e db G1 G2 :
      (∀ k, orderly (c_other (calls k))) → answered calls 2 → answered calls 3 → 0 < n →
      answer (take_jobs req sh n) (start db calls) = inl e →
      claiming (db, G1 ++ mkGrant (QueueID req) sh n :: G2)
        (final_db (take_jobs req sh n) (start db calls), G1 ++ mkGrant (QueueID req) sh n :: G2)
  | cl_released q sh (n : Z) calls db G1 G2 :
      (∀ k, orderly (c_other (calls k))) → 0 ≤ n →
      claiming (db, G1 ++ mkGrant q sh n :: G2)
        (final_db (pool_exec (λ _, queue_release q sh n)) (start db calls), G1 ++ G2).

(** ** Lemmas *)

Lemma orderly_slots f :
  orderly f → ∀ R db, (∀ k, 0 ≤ R k) → slots_inv R db → slots_inv R (f db).
Proof.
  induction 1 as [|o calls Hg Ha Hans _ IH|f g _ IHf _ IHg]; intros R db HR HP;
    [done| |by apply IHg, IHf].
  by apply slots_op.
Qed.

Lemma orderly_polite calls : (∀ k, orderly (c_other (calls k))) → polite calls.
Proof. intros Ho n R db. by apply orderly_slots. Qed.

Lemma granted_nonneg G : Forall (λ g, 0 ≤ g_slots g) G → ∀ k, 0 ≤ granted G k.
Proof. induction 1 as [|g G Hg _ IH]; [done|]. by apply charge_nonneg. Qed.

Lemma granted_middle G1 g G2 k :
  granted (G1 ++ g :: G2) k = charge (g_key g) (g_slots g) (granted (G1 ++ G2)) k.
Proof.
  induction G1 as [|g' G1 IH]; [done|]. simpl. unfold charge in *. rewrite IH.
  repeat case_decide; lia.
Qed.

Definition grants_ok (c : DB * list grant) : Prop :=
  slots_inv (granted c.2) c.1 ∧ Forall (λ g, 0 ≤ g_slots g) c.2.

Lemma grants_ok_ext db G R :
  Forall (λ g, 0 ≤ g_slots g) G → slots_inv R db → (∀ k, granted G k ≤ R k) → grants_ok (db, G).
Proof. intros HG HP Hk. split; [|done]. by eapply slots_inv_ext. Qed.

(** The call of an admission. *)
Lemma grants_admit q want calls r w' db G :
  (∀ k, orderly (c_other (calls k))) → grants_ok (db, G) →
  admit_slots q want (start db calls) = (r, w') →
  match r with
  | inr (n, sh) => grants_ok (w_db w', mkGrant q sh n :: G)
  | inl _ => grants_ok (w_db w', G)
  end.
Proof.
  intros Ho [HP HG] Hrun. simpl in *.
  assert (slots_inv (granted G) (c_other (this_call (start db calls)) db)) as HP1.
  { apply orderly_slots; [apply Ho|by apply granted_nonneg|done]. }
  apply (pool_exec_spec _ _ _ _ _ _ HP1 (slots_queue_admit (granted G) _ _ _)) in Hrun as [_ Hpost].
  destruct r as [e|[n sh]].
  - destruct Hpost as [?|[[n sh] [Hn ?]]]; [done|]. eapply grants_ok_ext; [done..|].
    intros k. simpl in *. unfold charge. case_decide; lia.
  - destruct Hpost as [Hn ?]. split; [done|]. by constructor.
Qed.

(** The transaction that takes the jobs. *)
Lemma grants_take req sh n calls r w' db G1 G2 :
  (∀ k, orderly (c_other (calls k))) → answered calls 2 → answered calls 3 → 0 < n →
  grants_ok (db, G1 ++ mkGrant (QueueID req) sh n :: G2) →
  take_jobs req sh n (start db calls) = (r, w') →
  match r with
  | inr _ => grants_ok (w_db w', G1 ++ G2)
  | inl _ => grants_ok (w_db w', G1 ++ mkGrant (QueueID req) sh n :: G2)
  end.
Proof.
  intros Ho Ha1 Ha2 Hn [HP HG] Hrun. simpl in *. pose proof HG as HG'.
  apply Forall_app in HG' as [HG1 [_ HG2]%Forall_cons].
  assert (Forall (λ g, 0 ≤ g_slots g) (G1 ++ G2)) as HG' by (by apply Forall_app).
  apply (slots_take_jobs (granted (G1 ++ G2)) (granted_nonneg _ HG')) in Hrun as [_ Hpost]; try done.
  - destruct r as [e|l]; (eapply grants_ok_ext; [done|exact Hpost|]); intros k; [|done].
    rewrite granted_middle. done.
  - by apply orderly_polite.
  - eapply slots_inv_ext; [|exact HP]. intros k. by rewrite granted_middle.
Qed.

Lemma grants_release q sh n calls db G1 G2 :
  (∀ k, orderly (c_other (calls k))) → 0 ≤ n →
  grants_ok (db, G1 ++ mkGrant q sh n :: G2) →
  grants_ok (final_db (pool_exec (λ _, queue_release q sh n)) (start db calls), G1 ++ G2).
Proof.
  intros Ho Hn [HP HG]. simpl in *. pose proof (granted_nonneg _ HG) as HR.
  apply Forall_app in HG as [HG1 [_ HG2]%Forall_cons].
  assert (Forall (λ g, 0 ≤ g_slots g) (G1 ++ G2)) as HG' by (by apply Forall_app).
  assert (slots_inv (charge (q, sh) n (granted (G1 ++ G2)))
    (c_other (this_call (start db calls)) db)) as HP1.
  { eapply slots_inv_ext; [|apply orderly_slots; [apply Ho|exact HR|exact HP]].
    intros k. by rewrite granted_middle. }
  unfold final_db. destruct (pool_exec _ _) as [r w'] eqn:Hrun. simpl.
  apply (pool_exec_spec _ _ _ _ _ _ HP1
    (hoare_release (granted (G1 ++ G2)) (q, sh) n Hn (granted_nonneg _ HG'))) in Hrun as [_ Hpost].
  destruct r as [e|[]]; [destruct Hpost as [Hpost|[_ Hpost]]|];
    (eapply grants_ok_ext; [done|exact Hpost|]); intros k; [|done..].
  unfold charge. case_decide; lia.
Qed.

Lemma claiming_grants c c' : claiming c c' → grants_ok c → grants_ok c'.
Proof.
  destruct 1 as [f db G Hf|q want calls n sh db G Ho Hr|q want calls e db G Ho Hr
    |req sh n calls l db G1 G2 Ho Ha1 Ha2 Hn Hr|req sh n calls e db G1 G2 Ho Ha1 Ha2 Hn Hr
    |q sh n calls db G1 G2 Ho Hn]; intros HP.
  - destruct HP as [HP HG]. split; [|done]. apply orderly_slots; [done|by apply granted_nonneg|done].
  - unfold answer in Hr. unfold final_db. destruct (admit_slots _ _ _) as [r w'] eqn:Hx. simpl in *. subst.
    by apply (grants_admit _ _ _ _ _ _ _ Ho HP Hx).
  - unfold answer in Hr. unfold final_db. destruct (admit_slots _ _ _) as [r w'] eqn:Hx. simpl in *. subst.
    by apply (grants_admit _ _ _ _ _ _ _ Ho HP Hx).
  - unfold answer in Hr. unfold final_db. destruct (take_jobs _ _ _ _) as [r w'] eqn:Hx. simpl in *. subst.
    by apply (grants_take _ _ _ _ _ _ _ _ _ Ho Ha1 Ha2 Hn HP Hx).
  - unfold answer in Hr. unfold final_db. destruct (take_jobs _ _ _ _) as [r w'] eqn:Hx. simpl in *. subst.
    by apply (grants_take _ _ _ _ _ _ _ _ _ Ho Ha1 Ha2 Hn HP Hx).
  - by apply grants_release.
Qed.

Lemma claims_grants c c' : rtc claiming c c' → grants_ok c → grants_ok c'.
Proof. induction 1; eauto using claiming_grants. Qed.

(** *** The cap, when no operation changes it *)

Hypothesis Hcapacity : ∀ o, allowed o → keeps_capacity o.

Lemma orderly_capped f : orderly f → ∀ db, capped db → capped (f db).
Proof.
  induction 1 as [|o calls Hg Ha Hans _ IH|f g _ IHf _ IHg]; intros db HP; [done| |by apply IHg, IHf].
  apply capped_op; [done|by apply Hcapacity|]. by split_and!.
Qed.

Lemma claiming_capped c c' :
  claiming c c' → Forall (λ g, 0 ≤ g_slots g) c.2 → capped c.1 → capped c'.1.
Proof.
  destruct 1 as [f db G Hf|q want calls n sh db G Ho Hr|q want calls e db G Ho Hr
    |req sh n calls l db G1 G2 Ho Ha1 Ha2 Hn Hr|req sh n calls e db G1 G2 Ho Ha1 Ha2 Hn Hr
    |q sh n calls db G1 G2 Ho Hn]; intros HG HP; simpl in *; [by apply orderly_capped|..];
    apply (go_keeps_run capped); simpl; try done; try (intros k db'; by apply orderly_capped);
    try apply capped_take_jobs; apply go_keeps_pool; intros env; [apply capped_queue_admit..|].
  by apply capped_release.
Qed.

Lemma claims_capped c c' : rtc claiming c c' → grants_ok c → capped c.1 → capped c'.1.
Proof.
  induction 1 as [|c c1 c' Hs _ IH]; [done|]. intros Hok HP. apply IH; [by eapply claiming_grants|].
  eapply claiming_capped; [done|apply Hok|done].
Qed.

End runs.
