(* ===== verification/Fencing.v ===== *)
(** * Fencing

    A worker holds a token: the id and the fence of a claim.  Once the job's
    fence has moved on, whatever the worker does with the token changes nothing
    and is answered with [ErrFenced]; and every claim moves the fence on. *)

From S2P Require Import Prelude Schema Fl Pool Jobs Sched Worker Api GoLogic System Fixture Core Evolution Slots Claims.

#[local] Open Scope string_scope.
#[local] Open Scope list_scope.
#[local] Open Scope Z_scope.

(** The job of the token is gone or under another fence. *)
Definition stale (i : uuid) (f : Z) (db : DB) : Prop :=
  ∀ j, jobs db !! i = Some j → fence j ≠ f.

(** ** Statements under a stale token *)

Section stale.
Context (i : uuid) (f : Z) (db : DB) (Hst : stale i f db).

Lemma stale_start w env : startSQL i f w env db = inr (None, db).
Proof.
  unfold startSQL, gets, mbind, tx_bind. destruct (jobs db !! i) as [j|] eqn:Hj; [|done].
  unfold owns_claimed. specialize (Hst j Hj). apply Z.eqb_neq in Hst. by rewrite Hst.
Qed.

Lemma stale_extend l p env : extendSQL i f l p env db = inr (false, db).
Proof.
  unfold extendSQL. destruct (jobs db !! i) as [j|] eqn:Hj; [|done].
  destruct (leases db !! i); [|done]. unfold owns_running. specialize (Hst j Hj).
  apply Z.eqb_neq in Hst. by rewrite Hst.
Qed.

Lemma stale_success x env : report_success env i f x db = inr (None, db).
Proof.
  unfold report_success, gets, mbind, tx_bind. destruct (jobs db !! i) as [j|] eqn:Hj; [|done].
  unfold owns_running. specialize (Hst j Hj). apply Z.eqb_neq in Hst. by rewrite Hst.
Qed.

Lemma stale_failure o cls msg perm env : report_failure env i (Some f) o cls msg perm db = inr (None, db).
Proof.
  unfold report_failure, gets. unfold mbind at 1, tx_bind at 1.
  destruct (jobs db !! i) as [j|] eqn:Hj; [|done]. simpl.
  destruct (policies db !! retry_policy_id j); [|done]. simpl.
  unfold owns_active. specialize (Hst j Hj). apply Z.eqb_neq in Hst. by rewrite Hst, andb_false_r.
Qed.

Lemma stale_snooze x d env : report_snooze env i f x d db = inr (None, db).
Proof.
  unfold report_snooze, gets. unfold mbind at 1, tx_bind at 1.
  destruct (jobs db !! i) as [j|] eqn:Hj; [|done]. simpl.
  destruct (policies db !! retry_policy_id j); [|done]. simpl.
  unfold owns_running. specialize (Hst j Hj). apply Z.eqb_neq in Hst. by rewrite Hst.
Qed.

End stale.

Lemma stale_batch_update env input db :
  (∀ i f x, (i, f, x) ∈ input → stale i f db) → batch_update env input db = inr ([], db).
Proof.
  induction input as [|[[i f] x] rest IH]; intros Hst; [done|]. simpl.
  unfold gets, mbind, tx_bind.
  assert (from_option (owns_running f) false (jobs db !! i) = false) as ->.
  { destruct (jobs db !! i) as [j|] eqn:Hj; [|done]. simpl. unfold owns_running.
    assert (fence j ≠ f) as Hne%Z.eqb_neq by (apply (Hst i f x); [left|done]). by rewrite Hne. }
  apply IH. intros i' f' x' Hin. apply (Hst i' f' x'). by right.
Qed.

(** ** Go calls under a stale token *)

(** What [m] does to the database is nothing, and it does not succeed; when the
    call itself works, the error is [ErrFenced]. *)
Definition refused {A} (m : go A) (w : World) : Prop :=
  final_db m w = c_other (this_call w) (w_db w) ∧
  match c_fault (this_call w) with
  | NoFault => answer m w = inl ErrFenced
  | FailBefore e | FailAfter e => answer m w = inl e
  end.

Lemma refused_pool {A B} (s : Env → sql (option A)) (k : A → go B) w :
  (∀ env, s env (c_other (this_call w) (w_db w)) = inr (None, c_other (this_call w) (w_db w))) →
  refused (o ← pool_exec s; x ← or_fenced o; k x) w.
Proof.
  intros Hs. unfold refused, final_db, answer, mbind, go_bind, pool_exec.
  rewrite Hs. by destruct (c_fault (this_call w)).
Qed.

(** In a transaction, [w_calls w (S (w_n w))] is the call of the statement. *)
Lemma refused_tx {A} (s : Env → sql (option A)) (k : A → go unit) w :
  (∀ env, s env (c_other (this_call w) (w_db w)) = inr (None, c_other (this_call w) (w_db w))) →
  let m := with_tx (o ← tx_exec s; x ← or_fenced o; k x) in
  final_db m w = c_other (this_call w) (w_db w) ∧ ∃ e, answer m w = inl e ∧
    (c_fault (this_call w) = NoFault → c_fault (w_calls w (S (w_n w))) = NoFault → e = ErrFenced).
Proof.
  intros Hs m. subst m. unfold final_db, answer, with_tx, deferring_rollback, mbind, go_bind, begin_tx.
  destruct (c_fault (this_call w)) eqn:Hf; simpl.
  2,3: (split; [done|]; eexists; split; [done|]; intros; congruence).
  unfold tx_exec, this_call at 1 2 3 4 5 6. simpl. rewrite Hs.
  destruct (c_fault (w_calls w (S (w_n w)))) eqn:Hf2; simpl; unfold rollback; simpl;
    (split; [done|]; eexists; split; [done|]; intros; congruence).
Qed.

(** ** Claims move the fence on *)

(** The token of a claim: the fence it wrote, one above the one it found. *)
Lemma claim_token q n worker lease ts sh env db out db' c :
  claimSQL q n worker lease ts sh env db = inr (out, db') → c ∈ out →
  ∃ j, jobs db !! cl_ID c = Some j ∧ cl_Fence c = fence j + 1 ∧
       jobs db' !! cl_ID c = Some (claimed_row env worker sh j).
Proof.
  intros [-> [Hrow _ _]]%claimSQL_spec ([i j] & -> & Hin)%list_elem_of_fmap. simpl.
  destruct (candidates_spec env q n ts db) as (_ & Hel & _). destruct (Hel i j Hin) as [Hj _].
  destruct (Hrow i j Hin) as [Hj' _]. eauto.
Qed.

(** A token older than the job's fence at some point is stale from then on. *)
Lemma outdated db db' i f j :
  jobs db !! i = Some j → f < fence j → evolves db db' → (∀ r, (i, r) ∉ jobs_archive db') →
  stale i f db'.
Proof.
  intros Hj Hf Hev Ha j' Hj'. destruct (Hev i j Hj) as (j1 & [_ Hle _] & [H1|[_ H1]]).
  - rewrite H1 in Hj'. injection Hj' as <-. lia.
  - by apply Ha in H1.
Qed.

(** ** Theorems *)



(** At most one live token.  When a job that was claimed is claimed
    again - whatever ran between the two claims - the second token is greater
    than the first, and the first is stale in the database the second claim
    leaves (the row being in the table, not moved to the archive). *)
Theorem second_claim_fences_first X q n worker lease ts sh env db out db1
    db2 q' n' worker' lease' ts' sh' env' out' db3 c c' :
  claimSQL q n worker lease ts sh env db = inr (out, db1) → c ∈ out →
  reachable X db1 db2 → (∀ r, (cl_ID c, r) ∉ jobs_archive db2) →
  claimSQL q' n' worker' lease' ts' sh' env' db2 = inr (out', db3) → c' ∈ out' →
  cl_ID c' = cl_ID c →
  cl_Fence c < cl_Fence c' ∧ stale (cl_ID c) (cl_Fence c) db3.
Proof.
  intros H1 Hc Hr Ha H2 Hc' Hid.
  destruct (claim_token _ _ _ _ _ _ _ _ _ _ _ H1 Hc) as (j & Hj & Hf & Hj1).
  destruct (claim_token _ _ _ _ _ _ _ _ _ _ _ H2 Hc') as (j' & Hj' & Hf' & Hj3).
  assert (evolves db1 db2) as Hev.
  { apply (job_reachable (evolves db1) X db1); [|done].
    intros k jk Hk. exists jk. split; [reflexivity|by left]. }
  destruct (Hev _ _ Hj1) as (j2 & [_ Hle _] & [Hj2|[_ Hj2]]); [|by apply Ha in Hj2].
  rewrite Hid, Hj2 in Hj'. injection Hj' as ->. simpl in Hle. split; [lia|].
  intros j4 Hj4. rewrite <- Hid, Hj3 in Hj4. injection Hj4 as <-. simpl. lia.
Qed.

(** Job 13 is claimed, its lease runs out, it is reported lost, promoted and
    claimed again: fences 1 and 2. *)
Definition claim_print (env : Env) (db : DB) : sqlstate + (list Claimed * DB) :=
  claimSQL 4 1 5 30000000000 (Some ["print"]) 1 env db.
Definition db_claimed : DB := match claim_print env0 db0 with inr (_, db) => db | inl _ => db0 end.
Definition lost_calls : nat → Call := quiet (later 40000000).
Definition db_lost : DB := final_db (run_op X0 (OpReportLost 13)) (start db_claimed lost_calls).
Definition db_again : DB :=
  final_db (run_op X0 (OpPromote 10)) (start db_lost (quiet (later 90000000))).

Lemma reachable_again : reachable X0 db_claimed db_again.
Proof.
  apply (reachable_trans X0 db_claimed db_lost); apply reachable_run; intros n; apply process_id.
Qed.

Lemma second_claim_fences_first_witness :
  ∃ c c' out out' db3,
    claim_print env0 db0 = inr (out, db_claimed) ∧ c ∈ out ∧
    claim_print (later 90000000) db_again = inr (out', db3) ∧ c' ∈ out' ∧
    cl_Fence c < cl_Fence c' ∧ stale (cl_ID c) (cl_Fence c) db3.
Proof.
  destruct (claim_print env0 db0) as [|[[|c out] db1]] eqn:H1; [by vm_compute in H1..|].
  destruct (claim_print (later 90000000) db_again) as [|[[|c' out'] db3]] eqn:H2; [by vm_compute in H2..|].
  assert (db1 = db_claimed) as -> by (unfold db_claimed; by rewrite H1).
  exists c, c', (c :: out), (c' :: out'), db3.
  assert (cl_ID c' = cl_ID c) as Hid.
  { vm_compute in H1, H2. injection H1 as <- _. injection H2 as <- _ _. done. }
  assert (∀ r, (cl_ID c, r) ∉ jobs_archive db_again) as Ha.
  { assert (jobs_archive db_again = []) as -> by (by vm_compute). intros r. apply not_elem_of_nil. }
  destruct (second_claim_fences_first X0 4 1 5 30000000000 (Some ["print"]) 1 env0 db0 (c :: out)
    db_claimed db_again 4 1 5 30000000000 (Some ["print"]) 1 (later 90000000) (c' :: out') db3 c c')
    as [Hlt Hst]; [exact H1|left|exact reachable_again|exact Ha|exact H2|left|exact Hid|].
  split; [reflexivity|]. split; [left|]. split; [reflexivity|]. split; [left|]. by split.
Defined.
