(* ===== verification/Admission.v ===== *)
(** * Admission: what [fl.queue_admit] grants

    A grant is bounded by what the worker asked for, by the room under the
    shard's share of [max_concurrency], by the tokens of its bucket and, while
    the circuit breaker is not closed, by one probe. *)

From S2P Require Import Prelude Schema Fl Pool Jobs Sched Slots Fixture.

(** ** Specification *)

(** How the breaker lets a claim through: the row it leaves. *)
Inductive passes (env : Env) : Queue → Queue → Prop :=
  | pass_closed qr : q_breaker_state qr = br_closed → passes env qr qr
  | pass_half_open qr :
      q_breaker_state qr = br_half_open → 0 < breaker_probe_budget qr → passes env qr qr
  | pass_open qr :
      q_breaker_state qr = br_open →
      (∀ t, breaker_open_until qr = Some t → t ≤ now env) →
      passes env qr (qr <| q_breaker_state := br_half_open |> <| breaker_probe_budget := 1 |>).

(** The row of the queue once [n] slots are granted. *)
Definition charged_queue (n : Z) (closed : bool) (qr : Queue) : Queue :=
  if closed then qr else qr <| breaker_probe_budget := breaker_probe_budget qr - n |>.

Definition is_closed (qr : Queue) : bool := bool_decide (q_breaker_state qr = br_closed).

(** No limit on the rate. *)
Definition unlimited (qr : Queue) : bool := Qeq_bool (rl_limit_per_sec qr) 0.

(** The row of the shard once [n] slots are granted. *)
Definition charged_shard (env : Env) (qr : Queue) (n : Z) (r : Shard) : Shard :=
  mkShard (in_flight r + n)
    (if unlimited qr then rl_tokens r else refilled env qr r - inject_Z n)%Q
    (if unlimited qr then rl_refilled_at r else now env).

(** A grant of [n] slots of shard [sh]. *)
Record granted (env : Env) (q : uuid) (want n sh : Z) (db db' : DB) (qr qr' : Queue) (r : Shard)
    : Prop := {
  gr_queue : queues db !! q = Some qr;
  gr_running : paused qr = false;
  gr_breaker : passes env qr qr';
  gr_shard : queue_shards db !! (q, sh) = Some r;
  gr_positive : 0 < n;
  gr_want : n ≤ if is_closed qr then want else 1;
  gr_room : in_flight r + n ≤ shard_slots (max_concurrency qr) (shards qr) sh;
  gr_tokens : unlimited qr = false → (inject_Z n <= refilled env qr r)%Q;
  gr_effect : db' = db
    <| queues := <[q := charged_queue n (is_closed qr) qr']> (queues db) |>
    <| queue_shards := <[(q, sh) := charged_shard env qr n r]> (queue_shards db) |>;
}.

(** No slot granted: at most the breaker's row changed. *)
Definition turned_away (env : Env) (q : uuid) (db db' : DB) : Prop :=
  db' = db ∨ ∃ qr qr', queues db !! q = Some qr ∧ passes env qr qr' ∧
                       db' = db <| queues := <[q := qr']> (queues db) |>.

(** ** Lemmas *)

Lemma passes_fields env qr qr' :
  passes env qr qr' →
  paused qr' = paused qr ∧ max_concurrency qr' = max_concurrency qr ∧ shards qr' = shards qr ∧
  rl_limit_per_sec qr' = rl_limit_per_sec qr ∧ rl_burst qr' = rl_burst qr.
Proof. by intros []. Qed.

(** The breaker part: refused, or passed with the row it writes. *)
Lemma admit_breaker_inv env q qr want db w db' :
  queues db !! q = Some qr → admit_breaker env q qr want db = inr (w, db') →
  match w with
  | None => db' = db
  | Some want' =>
    want' = (if is_closed qr then want else 1) ∧
    ∃ qr', passes env qr qr' ∧ db' = db <| queues := <[q := qr']> (queues db) |>
  end.
Proof.
  intros Hq. unfold admit_breaker, is_closed.
  assert (db = db <| queues := <[q := qr]> (queues db) |>) as Hid
    by (destruct db; cbn in *; by rewrite insert_id).
  destruct (decide (q_breaker_state qr = br_closed)) as [Hc|Hc].
  { intros [= <- <-]. rewrite bool_decide_eq_true_2 by done. split; [done|].
    exists qr. split; [by constructor|done]. }
  rewrite bool_decide_eq_false_2 by done.
  destruct (decide (q_breaker_state qr = br_open)) as [Ho|Ho].
  - destruct (_ <? _) eqn:Hlt; intros [= <- <-]; [done|]. split; [done|]. eexists. split; [|done].
    apply pass_open; [done|]. intros t Ht. rewrite Ht in Hlt. simpl in Hlt. lia.
  - destruct (_ <=? 0) eqn:Hle; intros [= <- <-]; [done|]. split; [done|]. exists qr. split; [|done].
    apply pass_half_open; [by destruct (q_breaker_state qr)|lia].
Qed.

(** The shard part, the queue's row being [qr'] by then. *)
Lemma admit_shard_inv env q qr qr' want db n sh db' :
  queues db !! q = Some qr' → admit_shard env q qr want db = inr ((n, sh), db') →
  (n = 0 ∧ db' = db) ∨
  (∃ r, queue_shards db !! (q, sh) = Some r ∧ 0 < n ∧ n ≤ want ∧
     in_flight r + n ≤ shard_slots (max_concurrency qr) (shards qr) sh ∧
     (unlimited qr = false → (inject_Z n <= refilled env qr r)%Q) ∧
     db' = db <| queues := <[q := charged_queue n (is_closed qr) qr']> (queues db) |>
              <| queue_shards := <[(q, sh) := charged_shard env qr n r]> (queue_shards db) |>).
Proof.
  intros Hq. unfold admit_shard, gets. unfold mbind at 1, tx_bind at 1.
  destruct (merge_sort _ _) as [|[sh0 sr] rest] eqn:Hs; [intros [= <- <- <-]; by left|].
  apply elem_of_cands in Hs as [Hsh Hroom]. fold (unlimited qr).
  destruct (negb (unlimited qr) && _); [done|].
  set (slots := Z.min want _). destruct (slots <=? 0) eqn:Hle; [intros [= <- <- <-]; by left|].
  apply Z.leb_gt in Hle. unfold mbind, tx_bind, modify, mret, tx_ret. intros Hrun. right.
  assert (n = slots ∧ sh = sh0 ∧ db' = db
    <| queues := <[q := charged_queue slots (is_closed qr) qr']> (queues db) |>
    <| queue_shards := <[(q, sh0) := charged_shard env qr slots sr]> (queue_shards db) |>) as (-> & -> & ->).
  { unfold is_closed. destruct (decide (q_breaker_state qr = br_closed)) as [Hc|Hc];
      injection Hrun as <- <- <-; split_and!; try done.
    - rewrite bool_decide_eq_true_2 by done. simpl.
      rewrite (insert_id (queues db) q qr' Hq). by destruct db.
    - rewrite bool_decide_eq_false_2 by done. simpl.
      by rewrite (alter_alt_Some _ _ _ _ Hq). }
  exists sr. split_and!; try done; try (subst slots; lia).
  intros Hu. subst slots. rewrite Hu. eapply Qle_trans; [|apply Qfloor_le].
  rewrite <- Zle_Qle. lia.
Qed.

Lemma queue_admit_inv env q want db n sh db' :
  queue_admit env q want db = inr ((n, sh), db') →
  (n = 0 ∧ turned_away env q db db') ∨
  (∃ qr qr' r, granted env q want n sh db db' qr qr' r).
Proof.
  unfold queue_admit, gets. unfold mbind at 1, tx_bind at 1.
  destruct (queues db !! q) as [qr|] eqn:Hq; [|intros [= <- <- <-]; left; by split; [|left]].
  destruct (paused qr) eqn:Hp; [intros [= <- <- <-]; left; by split; [|left]|].
  unfold mbind, tx_bind. destruct (admit_breaker env q qr want db) as [|[w db1]] eqn:Hb; [done|].
  pose proof (admit_breaker_inv _ _ _ _ _ _ _ Hq Hb) as Hw. destruct w as [w|].
  2:{ subst db1. intros [= <- <- <-]. left. by split; [|left]. }
  destruct Hw as (-> & qr' & Hpass & ->). intros Hrun.
  apply (admit_shard_inv env q qr qr') in Hrun; [|simpl; apply lookup_insert_eq].
  destruct Hrun as [[-> ->]|(r & Hr & Hn & Hw & Hroom & Htok & ->)].
  { left. split; [done|]. right. eauto. }
  right. exists qr, qr', r. split; try done.
  destruct db; cbn. by rewrite insert_insert_eq.
Qed.

(** ** The token bucket *)

(** The share of the rate a shard has, per second. *)
Definition rate (qr : Queue) : Q := (rl_limit_per_sec qr / inject_Z (shards qr))%Q.

(** What [d] microseconds bring at [ρ] tokens per second. *)
Definition accrued (ρ : Q) (d : Z) : Q := (inject_Z d / inject_Z 1000000 * ρ)%Q.

Definition limits (qr : Queue) : Q * Q * Z := (rl_limit_per_sec qr, rl_burst qr, shards qr).

(** The bucket of shard [s] of queue [q] and its limits are as before. *)
Definition bucket_same (q : uuid) (s : Z) (db db' : DB) : Prop :=
  limits <$> (queues db' !! q) = limits <$> (queues db !! q) ∧
  (λ r, (rl_tokens r, rl_refilled_at r)) <$> (queue_shards db' !! (q, s)) =
  (λ r, (rl_tokens r, rl_refilled_at r)) <$> (queue_shards db !! (q, s)).

(** A run of admissions, on any queue, until time [T], between which anything
    but the bucket of the shard may change: [total] slots of the shard are
    granted. *)
Inductive bucket_run (q : uuid) (s T : Z) : DB → Z → DB → Prop :=
  | run_nil db : bucket_run q s T db 0 db
  | run_admit db env q' want n sh db1 total db2 :
      now env ≤ T → queue_admit env q' want db = inr ((n, sh), db1) →
      bucket_run q s T db1 total db2 →
      bucket_run q s T db ((if decide ((q', sh) = (q, s)) then n else 0) + total) db2
  | run_other db db1 total db2 :
      bucket_same q s db db1 → bucket_run q s T db1 total db2 →
      bucket_run q s T db total db2.

Lemma accrued_add ρ a b : (accrued ρ (a + b) == accrued ρ a + accrued ρ b)%Q.
Proof. unfold accrued. rewrite inject_Z_plus. field. Qed.

Lemma accrued_nonneg ρ d : (0 <= ρ)%Q → 0 ≤ d → (0 <= accrued ρ d)%Q.
Proof.
  intros Hρ Hd. unfold accrued. apply Qmult_le_0_compat; [|done].
  apply Qle_shift_div_l; [done|]. rewrite Qmult_0_l. by rewrite <- (Zle_Qle 0).
Qed.

(** A grant takes its slots out of what the bucket would hold at [T]. *)
Lemma charged_potential env qr n r T :
  unlimited qr = false →
  (rl_tokens (charged_shard env qr n r) + accrued (rate qr) (T - rl_refilled_at (charged_shard env qr n r))
   <= rl_tokens r + accrued (rate qr) (T - rl_refilled_at r) - inject_Z n)%Q.
Proof.
  intros Hu. unfold charged_shard. rewrite Hu. simpl.
  assert (refilled env qr r <= rl_tokens r + accrued (rate qr) (now env - rl_refilled_at r))%Q as Hle
    by apply Q.le_min_r.
  replace (T - rl_refilled_at r) with ((now env - rl_refilled_at r) + (T - now env)) by lia.
  pose proof (accrued_add (rate qr) (now env - rl_refilled_at r) (T - now env)) as ->. lra.
Qed.

(** Admission changes no other bucket, and none that it does not charge. *)
Lemma granted_bucket_same env q want n sh db db' qr qr' r q0 s0 :
  granted env q want n sh db db' qr qr' r → (q, sh) ≠ (q0, s0) → bucket_same q0 s0 db db'.
Proof.
  intros [] Hne. destruct (passes_fields _ _ _ gr_breaker0) as (_ & _ & Hs & Hl & Hb).
  subst db'. split; simpl.
  - rewrite lookup_insert. case_decide; [subst q0|done]. rewrite gr_queue0. simpl.
    unfold limits, charged_queue. destruct (is_closed qr); simpl; congruence.
  - by rewrite lookup_insert_ne.
Qed.

Lemma turned_away_bucket_same env q db db' q0 s0 :
  turned_away env q db db' → bucket_same q0 s0 db db'.
Proof.
  intros [->|(qr & qr' & Hq & Hpass & ->)]; [done|].
  destruct (passes_fields _ _ _ Hpass) as (_ & _ & Hs & Hl & Hb). split; [|done]. simpl.
  rewrite lookup_insert. case_decide; [subst q0|done]. rewrite Hq. simpl. unfold limits. congruence.
Qed.

(** What the shard can still grant until [T]. *)
Definition potential (T : Z) (qr : Queue) (r : Shard) : Q :=
  (rl_tokens r + accrued (rate qr) (T - rl_refilled_at r))%Q.

(** A bucket that limits, with a state that makes sense at [T]. *)
Record bucket (q : uuid) (s T : Z) (db : DB) (qr : Queue) (r : Shard) : Prop := {
  bk_queue : queues db !! q = Some qr;
  bk_shard : queue_shards db !! (q, s) = Some r;
  bk_limited : unlimited qr = false;
  bk_rate : (0 <= rate qr)%Q;
  bk_tokens : (0 <= rl_tokens r)%Q;
  bk_past : rl_refilled_at r ≤ T;
}.

Lemma potential_nonneg q s T db qr r : bucket q s T db qr r → (0 <= potential T qr r)%Q.
Proof.
  intros []. unfold potential. pose proof (accrued_nonneg (rate qr) (T - rl_refilled_at r)) as Ha.
  specialize (Ha bk_rate0 ltac:(lia)). lra.
Qed.

Lemma bucket_same_bucket q s T db db' qr r :
  bucket_same q s db db' → bucket q s T db qr r →
  ∃ qr' r', bucket q s T db' qr' r' ∧ potential T qr' r' = potential T qr r.
Proof.
  intros [Hq Hs] []. rewrite bk_queue0 in Hq. rewrite bk_shard0 in Hs. simpl in *.
  apply fmap_Some in Hq as (qr' & Hq' & [= Hl Hb Hn]). apply fmap_Some in Hs as (r' & Hs' & [= Ht Hr]).
  exists qr', r'. split.
  - split; [done|done|..]; unfold unlimited, rate in *; congruence.
  - unfold potential, rate. congruence.
Qed.

Lemma granted_bucket env q want n s db db' qr qr' r T qr0 r0 :
  granted env q want n s db db' qr qr' r → now env ≤ T → bucket q s T db qr0 r0 →
  ∃ qr1 r1, bucket q s T db' qr1 r1 ∧ (potential T qr1 r1 <= potential T qr0 r0 - inject_Z n)%Q.
Proof.
  intros [] HT []. assert (qr0 = qr ∧ r0 = r) as [-> ->] by (split; congruence).
  destruct (passes_fields _ _ _ gr_breaker0) as (_ & _ & Hs & Hl & _).
  assert (limits (charged_queue n (is_closed qr) qr') = (rl_limit_per_sec qr, rl_burst qr', shards qr)) as [= Hl' Hb' Hs'].
  { unfold charged_queue, limits. destruct (is_closed qr); simpl; congruence. }
  exists (charged_queue n (is_closed qr) qr'), (charged_shard env qr n r). subst db'. split.
  - split; simpl; [by rewrite lookup_insert_eq..| | | |].
    + unfold unlimited. by rewrite Hl'.
    + unfold rate. by rewrite Hl', Hs'.
    + rewrite bk_limited0. specialize (gr_tokens0 bk_limited0). lra.
    + by rewrite bk_limited0.
  - unfold potential, rate at 1. rewrite Hl', Hs'. by apply charged_potential.
Qed.

Lemma bucket_run_bound q s T db total db' :
  bucket_run q s T db total db' → ∀ qr r, bucket q s T db qr r → (inject_Z total <= potential T qr r)%Q.
Proof.
  induction 1 as [db|db env q' want n sh db1 total db2 HT Had _ IH|db db1 total db2 Hs _ IH]; intros qr r Hb.
  - by eapply potential_nonneg.
  - apply queue_admit_inv in Had as [[-> Ht]|(qr1 & qr2 & r1 & Hg)].
    + destruct (bucket_same_bucket _ _ T _ _ qr r (turned_away_bucket_same _ _ _ _ q s Ht) Hb)
        as (qr' & r' & Hb' & <-). replace ((if decide _ then 0 else 0) + total) with total by (case_decide; lia).
      by apply IH.
    + case_decide as E.
      * injection E as -> ->. destruct (granted_bucket _ _ _ _ _ _ _ _ _ _ T qr r Hg HT Hb) as (qr' & r' & Hb' & Hle).
        specialize (IH _ _ Hb'). rewrite inject_Z_plus. lra.
      * destruct (bucket_same_bucket _ _ T _ _ qr r (granted_bucket_same _ _ _ _ _ _ _ _ _ _ q s Hg E) Hb)
          as (qr' & r' & Hb' & <-). by apply IH.
  - destruct (bucket_same_bucket _ _ T _ _ qr r Hs Hb) as (qr' & r' & Hb' & <-). by apply IH.
Qed.

(** ** Theorems *)

(** C10 (functional): what an admission grants.  Either no slot is granted and
    at most the breaker has gone from open to half-open; or the queue is not
    paused, its breaker let the claim through, [n] slots - no more than asked
    for, and one only while the breaker is not closed - fit under the shard's
    share of [max_concurrency] and are paid for by the tokens in its bucket, and
    nothing but the shard's counter and bucket and the probe budget changed. *)
Theorem admission_grants env q want db n sh db' :
  queue_admit env q want db = inr ((n, sh), db') →
  (n = 0 ∧ turned_away env q db db') ∨
  (∃ qr qr' r, granted env q want n sh db db' qr qr' r).
Proof. apply queue_admit_inv. Qed.

(** Three asked for, one granted: shard 1 has one slot. *)
Lemma admission_grants_witness :
  ∃ db', queue_admit env0 4 3 db0 = inr ((1, 1), db') ∧
    ((1 = 0 ∧ turned_away env0 4 db0 db') ∨
     (∃ qr qr' r, granted env0 4 3 1 1 db0 db' qr qr' r)).
Proof.
  destruct (queue_admit env0 4 3 db0) as [|[[n sh] db']] eqn:H; [by vm_compute in H|].
  assert (n = 1 ∧ sh = 1) as [-> ->] by (vm_compute in H; by injection H as <- <- _).
  exists db'. split; [done|]. by apply (admission_grants env0 4 3).
Defined.

(** The first row of a sorted selection exists when one is selected. *)
Lemma cands_nonempty env qr q db s r :
  queue_shards db !! (q, s) = Some r →
  in_flight r < shard_slots (max_concurrency qr) (shards qr) s →
  merge_sort (by_rot env qr) (filter (λ s : Z * Shard,
    in_flight s.2 < shard_slots (max_concurrency qr) (shards qr) s.1) (shards_of q db)) ≠ [].
Proof.
  intros Hs Hroom Hnil.
  assert ((s, r) ∈ filter (λ s : Z * Shard,
    in_flight s.2 < shard_slots (max_concurrency qr) (shards qr) s.1) (shards_of q db)) as Hin
    by (by apply list_elem_of_filter; split; [|apply elem_of_shards_of]).
  rewrite <- (merge_sort_Permutation (by_rot env qr)), Hnil in Hin. by apply elem_of_nil in Hin.
Qed.

(** No room is left unused.  A queue that is not paused, without
    a rate limit and with its breaker closed grants at least one slot to whoever
    asks for one, as long as any of its shards has room. *)
Theorem admission_progress env q want db qr s r :
  queues db !! q = Some qr → paused qr = false → q_breaker_state qr = br_closed →
  unlimited qr = true → 1 ≤ want →
  queue_shards db !! (q, s) = Some r → in_flight r < shard_slots (max_concurrency qr) (shards qr) s →
  ∃ n sh db', queue_admit env q want db = inr ((n, sh), db') ∧ 1 ≤ n.
Proof.
  intros Hq Hp Hb Hu Hw Hs Hroom. unfold queue_admit, gets. unfold mbind at 1, tx_bind at 1.
  rewrite Hq, Hp. unfold admit_breaker. rewrite decide_True by done. unfold mbind at 1, tx_bind at 1. simpl.
  unfold admit_shard, gets. unfold mbind at 1, tx_bind at 1.
  destruct (merge_sort _ _) as [|[sh sr] rest] eqn:Hc; [by apply (cands_nonempty env qr q db s r) in Hc|].
  apply elem_of_cands in Hc as [_ Hfree]. fold (unlimited qr). rewrite Hu. simpl.
  destruct (_ <=? 0) eqn:Hle; [lia|]. unfold mbind, tx_bind, modify. rewrite decide_True by done.
  do 3 eexists. split; [reflexivity|]. lia.
Qed.

Lemma admission_progress_witness :
  ∃ n sh db', queue_admit env0 4 3 db0 = inr ((n, sh), db') ∧ 1 ≤ n.
Proof. by apply (admission_progress env0 4 3 db0 queue0 1 (mkShard 0 0 0)). Defined.

(** C11 (bounds): the rate limit.  Over any run of admissions until time [T] -
    of any worker, on any shard, in any order of their clocks - the slots a
    shard grants are at most the tokens it starts with plus what its share of
    the rate brings until [T], whatever else happens to the database in between,
    as long as nothing else touches the bucket. *)
Theorem rate_limit_respected q s T db total db' qr r :
  bucket_run q s T db total db' → bucket q s T db qr r →
  (inject_Z total <= rl_tokens r + accrued (rate qr) (T - rl_refilled_at r))%Q.
Proof. intros Hrun Hb. by apply (bucket_run_bound _ _ _ _ _ _ Hrun). Qed.

(** A limit of two per second over two shards, and one token to start with. *)
Definition limited0 : Queue :=
  queue0 <| rl_limit_per_sec := 2%Q |> <| rl_burst := 4%Q |> <| max_concurrency := 8 |>.
Definition db_limited : DB :=
  db0 <| queues := {[ 4%N := limited0 ]} |>
      <| queue_shards := {[ (4%N, 0) := mkShard 4 0 t0; (4%N, 1) := mkShard 0 1 t0 ]} |>.
Definition admitted (env : Env) (db : DB) : DB :=
  match queue_admit env 4 3 db with inr (_, db') => db' | inl _ => db end.

(** One slot at once and one a second later: no third. *)
Lemma rate_limit_respected_witness :
  ∃ db', bucket_run 4 1 (t0 + 1000000) db_limited 2 db' ∧
    (inject_Z 2 <= 1 + accrued (rate limited0) (t0 + 1000000 - t0))%Q.
Proof.
  exists (admitted (later 1000000) (admitted env0 db_limited)).
  assert (bucket_run 4 1 (t0 + 1000000) db_limited 2
            (admitted (later 1000000) (admitted env0 db_limited))) as Hrun.
  { apply (run_admit 4 1 (t0 + 1000000) db_limited env0 4 3 1 1 (admitted env0 db_limited) 1);
      [done|by vm_compute|].
    apply (run_admit 4 1 (t0 + 1000000) _ (later 1000000) 4 3 1 1
      (admitted (later 1000000) (admitted env0 db_limited)) 0); [done|by vm_compute|].
    apply run_nil. }
  split; [exact Hrun|].
  apply (rate_limit_respected 4 1 (t0 + 1000000) db_limited 2
    (admitted (later 1000000) (admitted env0 db_limited)) limited0 (mkShard 0 1 t0)); [exact Hrun|].
  by split.
Defined.


(** The breaker opened until [t0]: one slot, then none. *)
Definition db_open : DB :=
  db0 <| queues := {[ 4%N := queue0 <| q_breaker_state := br_open |> <| breaker_open_until := Some t0 |> ]} |>.

