(* ===== verification/ClaimOrder.v ===== *)
(** * Which jobs a claim takes

    [claimSQL] takes the first [n] eligible jobs in the order of the queue:
    priority, then the time they were due, then their id. *)

From S2P Require Import Prelude Schema Fl Pool Jobs Slots Claims Fixture.

(** ** The order *)

#[export] Instance claim_order_total : Total claim_order.
Proof. intros a b. unfold claim_order. lia. Qed.

#[export] Instance claim_order_trans : Transitive claim_order.
Proof. intros a b c. unfold claim_order. lia. Qed.

(** The rows of [select ... order by R limit n] come before the others. *)
Lemma limit_best {A} (R : relation A) `{!RelDecision R, !Total R, !Transitive R} (l : list A) n x y :
  x ∈ take n (merge_sort R l) → y ∈ l → y ∉ take n (merge_sort R l) → R x y.
Proof.
  intros Hx Hy Hny. pose proof (StronglySorted_merge_sort R l) as Hs.
  rewrite <- (take_drop n (merge_sort R l)) in Hs. eapply StronglySorted_app_1_elem_of; [exact Hs|done|].
  rewrite <- (merge_sort_Permutation R l), <- (take_drop n (merge_sort R l)) in Hy.
  by apply elem_of_app in Hy as [Hy|Hy].
Qed.

Lemma limit_full {A} (R : relation A) `{!RelDecision R} (l : list A) n y :
  y ∈ l → y ∉ take n (merge_sort R l) → length (take n (merge_sort R l)) = n.
Proof.
  intros Hy Hny. rewrite length_take. destruct (decide (n ≤ length (merge_sort R l))%nat); [lia|].
  exfalso. apply Hny. rewrite take_ge by lia. by rewrite merge_sort_Permutation.
Qed.

(** ** The theorem *)

(** What the claim of job [j] leaves: its row and its lease. *)
Record taken (env : Env) (worker : uuid) (lease : duration) (sh : Z) (c : Claimed) (j : Job) (db' : DB)
    : Prop := {
  tk_view : c = claimed_view env (cl_ID c) j;
  tk_row : jobs db' !! cl_ID c = Some (claimed_row env worker sh j);
  tk_lease : ∃ l, leases db' !! cl_ID c = Some l ∧ l_fence l = fence j + 1 ∧ l_worker_id l = worker ∧
                  expires_at l = now env + interval_of lease;
}.

(** C14 (functional): a claim takes the best jobs of the queue and only those.
    The jobs it returns are distinct, at most [n], were queued on this queue, due,
    of a type asked for and not held by another transaction; each is now claimed
    by the worker under a fence one higher, with a lease of that fence.  If an
    eligible job is passed over, then [n] jobs were taken and each of them comes
    before it by priority, due time and id.  No other job or lease changes. *)
Theorem claim_takes_best q n worker lease ts sh env db out db' :
  claimSQL q n worker lease ts sh env db = inr (out, db') →
  NoDup (cl_ID <$> out) ∧ (length out ≤ Z.to_nat n)%nat ∧
  (∀ c, c ∈ out → ∃ j, jobs db !! cl_ID c = Some j ∧ eligible env q ts (cl_ID c) j = true ∧
                       taken env worker lease sh c j db') ∧
  (∀ i j, jobs db !! i = Some j → eligible env q ts i j = true → i ∉ cl_ID <$> out →
     length out = Z.to_nat n ∧
     ∀ c jc, c ∈ out → jobs db !! cl_ID c = Some jc → claim_order (cl_ID c, jc) (i, j)) ∧
  (∀ i, i ∉ cl_ID <$> out → jobs db' !! i = jobs db !! i ∧ leases db' !! i = leases db !! i).
Proof.
  intros [-> [Hrow Hoth _]]%claimSQL_spec.
  destruct (candidates_spec env q n ts db) as (Hnd & Hel & Hlen).
  assert (cl_ID <$> ((λ r : uuid * Job, claimed_view env r.1 r.2) <$> candidates env q n ts db) =
          (candidates env q n ts db).*1) as Hids by (rewrite <- list_fmap_compose; by apply list_fmap_ext).
  rewrite Hids, length_fmap. split_and!; [done|done| | |done].
  - intros c ([i j] & -> & Hin)%list_elem_of_fmap. destruct (Hel i j Hin) as [Hi He].
    destruct (Hrow i j Hin) as (Hj & Hl & _). exists j. split; [done|]. split; [done|].
    split; [done|done|]. simpl. rewrite Hl. by eexists.
  - intros i j Hi He Hni.
    assert ((i, j) ∈ select (eligible env q ts) (jobs db)) as Hsel by (by apply elem_of_select).
    assert ((i, j) ∉ candidates env q n ts db) as Hnc.
    { intros Hc. apply Hni, list_elem_of_fmap. by exists (i, j). }
    split; [by eapply limit_full|].
    intros c jc ([i' j'] & -> & Hin)%list_elem_of_fmap Hjc. simpl in *.
    destruct (Hel i' j' Hin) as [Hi' _]. rewrite Hi' in Hjc. injection Hjc as <-.
    by apply (limit_best claim_order (select (eligible env q ts) (jobs db)) (Z.to_nat n)).
Qed.

(** Two of the three jobs of type send: 12 and 11, of priority 5. *)
Lemma claim_takes_best_witness :
  ∃ out db', claimSQL 4 2 5 30000000000 (Some ["send"%string]) 1 env0 db0 = inr (out, db') ∧
    cl_ID <$> out = [12%N; 11%N] ∧
    ∀ c jc, c ∈ out → jobs db0 !! cl_ID c = Some jc →
      claim_order (cl_ID c, jc) (10%N, job0 "send" 0 100).
Proof.
  destruct (claimSQL 4 2 5 30000000000 (Some ["send"%string]) 1 env0 db0) as [|[out db']] eqn:H;
    [by vm_compute in H|].
  assert (cl_ID <$> out = [12%N; 11%N]) as Hids by (vm_compute in H; by injection H as <- _).
  exists out, db'. split; [done|]. split; [done|].
  destruct (claim_takes_best 4 2 5 30000000000 (Some ["send"%string]) 1 env0 db0 out db' H)
    as (_ & _ & _ & Hbest & _).
  apply (Hbest 10%N (job0 "send" 0 100)); [done|by vm_compute|].
  rewrite Hids. by vm_compute; intros [?|[?|?%elem_of_nil]%elem_of_cons]%elem_of_cons.
Defined.
