(* ===== verification/Graph.v ===== *)
(** * The dependency graph

    The recursive queries of [fl.cancel_descendants] and [cycleSQL] against the
    transitive closure of the edges, and what submitting a job does to the
    graph. *)

From S2P Require Import Prelude Schema Fl Pool Jobs Api ApiJobs Fixture.
From stdpp Require Import relations.

(** ** Specification *)

(** [job_dependencies] as a relation: the child waits for the parent. *)
Definition edge (d : gset (uuid * uuid)) (p c : uuid) : Prop := (p, c) ∈ d.

(** The jobs that wait for [root], directly or not. *)
Definition descends (d : gset (uuid * uuid)) : uuid → uuid → Prop := tc (edge d).

(** No job waits for itself, and every edge is between two jobs. *)
Record dag (db : DB) : Prop := {
  dag_acyclic i : ¬ descends (deps db) i i;
  dag_known p c : edge (deps db) p c → is_Some (jobs db !! p) ∧ is_Some (jobs db !! c);
}.

(** ** Lemmas: rounds *)

Section rounds.
Context {A : Type} (next : A → list A).

Fixpoint nth_round (k : nat) (work : list A) : list A :=
  match k with O => work | S k' => nth_round k' (work ≫= next) end.

Lemma elem_of_rounds fuel work x :
  x ∈ rounds next fuel work ↔ ∃ k, (k ≤ fuel)%nat ∧ x ∈ nth_round k work.
Proof.
  revert work. induction fuel as [|fuel IH]; intros work; simpl.
  - split; [intros; exists 0%nat; split; [lia|done]|]. intros (k & Hk & Hx).
    by replace k with 0%nat in Hx by lia.
  - assert (x ∈ work ++ rounds next fuel (work ≫= next) ↔
            ∃ k, (k ≤ S fuel)%nat ∧ x ∈ nth_round k work) as Happ.
    { rewrite elem_of_app, IH. split.
      - intros [Hx|(k & Hk & Hx)]; [exists 0%nat|exists (S k)]; split; try done; lia.
      - intros ([|k] & Hk & Hx); [by left|right]. exists k. split; [lia|done]. }
    destruct work as [|a work]; [|done]. rewrite <- Happ. simpl. split; [by intros ?%elem_of_nil|].
    rewrite IH. intros (k & _ & Hx). clear -Hx. induction k; [done|]. by apply IHk.
Qed.

Lemma nth_round_snoc k work : nth_round (S k) work = nth_round k work ≫= next.
Proof. revert work. induction k as [|k IH]; intros work; [done|]. apply IH. Qed.

(** What the first rows have and the next rows keep, all rows have. *)
Lemma rounds_ind (P : A → Prop) fuel work :
  (∀ x, x ∈ work → P x) → (∀ x y, P x → y ∈ next x → P y) → ∀ x, x ∈ rounds next fuel work → P x.
Proof.
  intros H0 Hn x (k & _ & Hx)%elem_of_rounds. revert x Hx.
  induction k as [|k IH]; [exact H0|]. intros x. rewrite nth_round_snoc.
  intros (y & Hx & Hy)%list_elem_of_bind. eauto.
Qed.

End rounds.

Lemma elem_of_children p c d : c ∈ children p d ↔ edge d p c.
Proof.
  unfold children, edge. rewrite list_elem_of_fmap. split.
  - intros ([p' c'] & -> & [Hp Hin]%list_elem_of_filter). simpl in *. subst. by apply elem_of_elements.
  - intros Hin. exists (p, c). split; [done|]. apply list_elem_of_filter. split; [done|].
    by apply elem_of_elements.
Qed.

Lemma elem_of_parents p c d : p ∈ parents c d ↔ edge d p c.
Proof.
  unfold parents, edge. rewrite list_elem_of_fmap. split.
  - intros ([p' c'] & -> & [Hp Hin]%list_elem_of_filter). simpl in *. subst. by apply elem_of_elements.
  - intros Hin. exists (p, c). split; [done|]. apply list_elem_of_filter. split; [done|].
    by apply elem_of_elements.
Qed.

(** ** Lemmas: simple paths *)

Section down.
Context (d : gset (uuid * uuid)) (root : uuid).

(** The rows of [down]: a node and a path without repetition from [root] to it. *)
Inductive spath : uuid → list uuid → Prop :=
  | sp_one c : edge d root c → c ≠ root → spath c [root; c]
  | sp_snoc b p c : spath b p → edge d b c → c ∉ p → spath c (p ++ [c]).

Lemma spath_root c p : spath c p → root ∈ p.
Proof. induction 1; [left|]. rewrite elem_of_app. by left. Qed.

(** A path has as many edges as it has nodes after the first. *)
Lemma spath_edges c p :
  spath c p → ∃ E : gset (uuid * uuid), E ⊆ d ∧ size E = (length p - 1)%nat ∧
    (2 ≤ length p)%nat ∧ ∀ e, e ∈ E → e.2 ∈ p.
Proof.
  induction 1 as [c Hc Hne|b p c Hp (E & HE & Hsz & Hlen & Hin) Hbc Hni].
  - exists {[(root, c)]}. split_and!; [by apply singleton_subseteq_l|by rewrite size_singleton|simpl; lia|].
    intros e ->%elem_of_singleton. simpl. right. left.
  - exists ({[(b, c)]} ∪ E). split_and!.
    + apply union_subseteq. split; [by apply singleton_subseteq_l|done].
    + assert (({[(b, c)]} : gset (uuid * uuid)) ## E) as Hdisj.
      { apply disjoint_singleton_l. intros He. by apply Hin in He. }
      rewrite (size_union _ _ Hdisj), size_singleton, length_app. simpl. lia.
    + rewrite length_app. simpl. lia.
    + intros e [->%elem_of_singleton|He]%elem_of_union; rewrite elem_of_app; [right; left|left; auto].
Qed.

Lemma spath_length c p : spath c p → (2 ≤ length p ≤ S (size d))%nat.
Proof.
  intros (E & HE & Hsz & Hlen & _)%spath_edges. apply subseteq_size in HE. lia.
Qed.

Lemma spath_cut b p c : spath b p → c ∈ p → c ≠ root → ∃ p', spath c p'.
Proof.
  induction 1 as [b Hb Hne|a p b Hp IH Hab Hni]; intros Hc Hcr.
  - apply elem_of_cons in Hc as [?|[->|?%elem_of_nil]%elem_of_cons]; [done| |done].
    exists [root; b]. by constructor.
  - apply elem_of_app in Hc as [Hc|[->|?%elem_of_nil]%elem_of_cons]; [by apply IH| |done].
    exists (p ++ [b]). by eapply sp_snoc.
Qed.

(** Whoever descends from [root] does so along a simple path. *)
Lemma descends_spath c : descends d root c → c ≠ root → ∃ p, spath c p.
Proof.
  enough (∀ b, rtc (edge d) root b → b = root ∨ ∃ p, spath b p) as Hall.
  { intros Hd%tc_rtc Hne. by destruct (Hall c Hd). }
  apply rtc_ind_r; [by left|]. intros b c0 _ Hbc IH. clear c. rename c0 into c.
  destruct (decide (c = root)) as [|Hne]; [by left|right].
  destruct IH as [->|[p Hp]]; [exists [root; c]; by constructor|].
  destruct (decide (c ∈ p)); [by eapply spath_cut|]. exists (p ++ [c]). by eapply sp_snoc.
Qed.

Lemma spath_round c p : spath c p → (c, p) ∈ nth_round (down_next d) (length p - 2) (down_start root d).
Proof.
  induction 1 as [c Hc Hne|b p c Hp IH Hbc Hni].
  - simpl. unfold down_start. apply list_elem_of_fmap. exists c. split; [done|]. by apply elem_of_children.
  - pose proof (spath_length _ _ Hp). rewrite length_app. simpl.
    replace (length p + 1 - 2)%nat with (S (length p - 2)) by lia. rewrite nth_round_snoc.
    apply list_elem_of_bind. exists (b, p). split; [|done]. apply list_elem_of_fmap. exists c. split; [done|].
    apply list_elem_of_filter. split; [done|]. by apply elem_of_children.
Qed.

(** [down] computes the descendants. *)
Lemma elem_of_down c : c ≠ root → c ∈ down root d ↔ descends d root c.
Proof.
  intros Hne. unfold down. split.
  - intros ([c' p] & -> & Hin)%list_elem_of_fmap. clear Hne. revert Hin.
    apply (rounds_ind (down_next d) (λ r, descends d root r.1)).
    + intros [a q] (a' & [= -> ->] & Ha%elem_of_children)%list_elem_of_fmap. by apply tc_once.
    + intros [a q] [b q'] Ha (b' & [= -> ->] & [_ Hb]%list_elem_of_filter)%list_elem_of_fmap.
      simpl in *. eapply tc_r; [exact Ha|]. by apply elem_of_children.
  - intros Hd. destruct (descends_spath c Hd Hne) as [p Hp]. apply list_elem_of_fmap. exists (c, p).
    split; [done|]. apply elem_of_rounds. exists (length p - 2)%nat.
    pose proof (spath_length _ _ Hp). split; [lia|]. by apply spath_round.
Qed.

End down.

(** ** Lemmas: inserting edges *)

Lemma insert_deps_inv child ps db db' :
  insert_deps child ps db = inr (tt, db') →
  db' = db <| deps := deps db' |> ∧
  (∀ p c, edge (deps db') p c ↔ edge (deps db) p c ∨ (c = child ∧ p ∈ ps)) ∧ child ∉ ps.
Proof.
  revert db. induction ps as [|p ps IH]; intros db; simpl.
  { intros [= <-]. split; [by destruct db|]. split; [|apply not_elem_of_nil].
    intros p c. rewrite elem_of_nil. tauto. }
  destruct (decide (p = child)) as [|Hne]; [done|]. unfold gets. unfold mbind at 1, tx_bind at 1.
  destruct (decide _) as [|_]; [done|]. unfold mbind, tx_bind, modify.
  intros (Hfr & Hin & Hni)%IH. split; [rewrite Hfr; by destruct db|]. split.
  - intros a c. rewrite Hin. unfold edge. simpl. rewrite elem_of_union, elem_of_singleton, elem_of_cons.
    split; [intros [[[= -> ->]|?]|[-> ?]]|intros [?|[-> [-> | ?]]]]; auto.
  - rewrite not_elem_of_cons. done.
Qed.

Lemma descends_out d i c : descends d i c → ∃ k, edge d i k.
Proof. intros Hd. destruct Hd; eauto. Qed.

(** A path that does not end in a node without children stays among the old edges. *)
Lemma descends_old d d' child i c :
  (∀ p k, edge d' p k → edge d p k ∨ k = child) → (∀ k, ¬ edge d' child k) →
  descends d' i c → c ≠ child → descends d i c.
Proof.
  intros Hnew Hsink Hd. induction Hd as [i c Hic|i b c Hib Hbc IH]; intros Hne.
  - apply tc_once. by destruct (Hnew _ _ Hic).
  - eapply tc_l; [|by apply IH]. destruct (Hnew _ _ Hib) as [Hold| ->]; [done|].
    apply descends_out in Hbc as [k Hk]. by apply Hsink in Hk.
Qed.

(** Edges that go up make no cycle. *)
Lemma ordered_acyclic d i : (∀ p c, edge d p c → (p < c)%N) → ¬ descends d i i.
Proof.
  intros Hup. enough (∀ a b, descends d a b → (a < b)%N) as H by (intros Hc%H; lia).
  induction 1 as [a b Hab|a b c Hab _ IH]; [auto|]. apply Hup in Hab. lia.
Qed.

(** *** The query that looks for a cycle *)

(** The path of every row of [up] starts with the child, so that no row is the
    child itself. *)
Lemma up_not_child child d : ¬ edge d child child → child ∉ up child d.
Proof.
  intros Hself. unfold up. intros ([c p] & -> & Hin)%list_elem_of_fmap. revert Hin.
  enough (∀ r, r ∈ rounds (up_next d) (S (S (size d))) (up_start c d) → c ∈ r.2 ∧ r.1 ≠ c) as Hall
    by (intros [_ Hx]%Hall; by apply Hx).
  apply (rounds_ind (up_next d) (λ r, c ∈ r.2 ∧ r.1 ≠ c)).
  - intros [a q] (a' & [= -> ->] & Ha%elem_of_parents)%list_elem_of_fmap. simpl. split; [left|].
    intros ->. by apply Hself.
  - intros [a q] [b q'] [Hq _] (b' & [= -> ->] & [Hb _]%list_elem_of_filter)%list_elem_of_fmap. simpl in *.
    split; [rewrite elem_of_app; by left|]. intros ->. by apply Hb.
Qed.

(** ** Theorems *)

(** C20 (functional): a dead job takes its descendants with it.  What
    [fl.cancel_descendants] cancels is exactly the jobs that descend from [root]
    through the dependencies, along paths of any length, and have not been
    claimed; the count of dependencies is cleared with the status, and nothing
    else in the database changes. *)
Theorem cascade_cancels_descendants env root db ids db' :
  cancel_descendants env root db = inr (ids, db') →
  db' = db <| jobs := jobs db' |> ∧
  ∀ i j, i ≠ root → jobs db !! i = Some j →
    (descends (deps db) root i ∧ is_idle (status j) = true →
       i ∈ ids ∧ jobs db' !! i = Some (cancel_row env j)) ∧
    (¬ (descends (deps db) root i ∧ is_idle (status j) = true) →
       (i ∉ ids) ∧ jobs db' !! i = Some j).
Proof.
  unfold cancel_descendants, gets. unfold mbind at 1, tx_bind at 1.
  intros ([] & db1 & Hu & [= <- <-])%tx_bind_inv. apply update_selected in Hu. subst db1.
  split; [by destruct db|]. intros i j Hne Hj. simpl. rewrite lookup_rewritten, Hj, elem_of_select_fst. simpl.
  rewrite <- elem_of_down by done. split.
  - intros [Hd Hs]. rewrite bool_decide_eq_true_2, Hs by done. split; [|done].
    exists j. split; [done|]. by rewrite Hs.
  - intros Hn. assert (bool_decide (i ∈ down root (deps db)) && is_idle (status j) = false) as Hf.
    { apply not_true_iff_false. intros [H1%bool_decide_eq_true H2]%andb_true_iff. by apply Hn. }
    rewrite Hf. split; [|done]. intros (j' & Hj' & Hs). congruence.
Qed.

(** A chain 14 -> 16 -> 17, the two descendants waiting. *)
Definition db_chain : DB :=
  db0 <| jobs := <[17%N := child0]> (jobs db0) |> <| deps := {[ (14%N, 16%N); (16%N, 17%N) ]} |>.

Lemma cascade_cancels_descendants_witness :
  ∃ ids db', cancel_descendants env0 14 db_chain = inr (ids, db') ∧
    17%N ∈ ids ∧ jobs db' !! 17%N = Some (cancel_row env0 child0).
Proof.
  destruct (cancel_descendants env0 14 db_chain) as [|[ids db']] eqn:H; [by vm_compute in H|].
  exists ids, db'. split; [done|].
  apply (cascade_cancels_descendants env0 14 db_chain ids db' H); [done|done|].
  split; [|done]. eapply (tc_l _ _ 16%N); [|apply tc_once]; unfold edge;
    apply (bool_decide_unpack _); by vm_compute.
Defined.

(** C21 (invariant): dependencies never form a cycle.  Submitting a job with its
    edges - the job, then [insertDepsSQL] - keeps the graph acyclic, whatever the
    parents are, since nothing depends on a job that is new; and the query that
    looks for a cycle afterwards finds none. *)
Theorem submit_keeps_dag q project typ pl prio runAt timeout policy pending ps env env' db
    i st at_ cr db1 db2 :
  insertJobSQL q project typ pl prio runAt timeout policy pending env db = inr ((i, st, at_, cr), db1) →
  insertDepsSQL ps i env' db1 = inr (tt, db2) →
  dag db → dag db2 ∧ ∀ env'', cycleSQL i env'' db2 = inr (false, db2).
Proof.
  intros ([] & dbj & Hj & Hret)%tx_bind_inv Hd Hdag. injection Hret as <- <- <- <- <-.
  unfold insert_job in Hj. destruct (negb _); [done|]. destruct (negb _); [done|].
  destruct (_ || _) eqn:Hfresh; [done|]. injection Hj as <-.
  apply orb_false_iff in Hfresh as [Hfresh%bool_decide_eq_false%eq_None_not_Some _].
  set (child := uuids env 0%nat) in *.
  apply tx_bind_inv in Hd as ([] & db3 & Hins & Hk). apply insert_deps_inv in Hins as (Hfr & Hin & Hni).
  unfold gets, mbind, tx_bind in Hk. destruct (forallb _ _) eqn:Hknown; [|done]. injection Hk as <-. simpl in Hin.
  assert (∀ k, ¬ edge (deps db3) child k) as Hsink.
  { intros k [He|[_ He]]%Hin; [|done]. apply Hdag in He as [[? He] _]. congruence. }
  split.
  - split.
    + intros i Hc. assert (i ≠ child) as Hne.
      { intros ->. apply descends_out in Hc as [k Hk]. by apply Hsink in Hk. }
      apply (dag_acyclic db Hdag i). eapply (descends_old _ _ child); [|done|exact Hc|done].
      intros p k [?|[-> _]]%Hin; auto.
    + rewrite forallb_forall in Hknown. intros p c [He|[-> He]]%Hin.
      * apply Hdag in He as [Hp Hc]. rewrite Hfr. simpl.
        rewrite !lookup_insert_is_Some'. auto.
      * split; eapply bool_decide_eq_true, Hknown, list_elem_of_In; [by right|left].
  - intros env''. unfold cycleSQL, gets. rewrite bool_decide_eq_false_2; [done|]. apply up_not_child, Hsink.
Qed.

(** A job 100 that waits for jobs 14 and 16, one of which waits for the other. *)
Lemma submit_keeps_dag_witness :
  ∃ db1 db2, insertJobSQL 4 2 "send" "{}" 0 None 300000 3 2 env0 db0 =
               inr ((100%N, js_scheduled, t0, t0), db1) ∧
    insertDepsSQL [14%N; 16%N] 100 env0 db1 = inr (tt, db2) ∧ dag db2.
Proof.
  destruct (insertJobSQL 4 2 "send" "{}" 0 None 300000 3 2 env0 db0) as [|[[[[i st] at_] cr] db1]] eqn:H1;
    [by vm_compute in H1|].
  assert ((i, st, at_, cr) = (100%N, js_scheduled, t0, t0)) as [= -> -> -> ->]
    by (vm_compute in H1; by injection H1 as <- <- <- <- _).
  destruct (insertDepsSQL [14%N; 16%N] 100 env0 db1) as [|[[] db2]] eqn:H2.
  { exfalso. apply tx_bind_inv in H1 as ([] & dbx & Hx & [= <-]). vm_compute in Hx. injection Hx as <-. by vm_compute in H2. }
  exists db1, db2. split; [done|]. split; [done|].
  apply (submit_keeps_dag 4 2 "send" "{}" 0 None 300000 3 2 [14%N; 16%N] env0 env0 db0 100 js_scheduled t0 t0 db1 db2 H1 H2).
  assert (∀ p c, edge (deps db0) p c → p = 14%N ∧ c = 16%N) as He
    by (intros p c Hpc; change ((p, c) ∈ ({[ (14%N, 16%N) ]} : gset (uuid * uuid))) in Hpc;
        apply elem_of_singleton in Hpc; by injection Hpc).
  split.
  - intros i. apply ordered_acyclic. by intros p c [-> ->]%He.
  - intros p c [-> ->]%He. vm_compute. eauto.
Defined.
