(* ===== verification/Reports.v ===== *)
(** * What a report does: success, failure and snooze, on every branch

    The tables each [fl.report_*] function leaves: the row of the job, its lease,
    its executions, the jobs that wait for it, the dead letter and the counter of
    its shard. *)

From S2P Require Import Prelude Schema Fl Pool Jobs Sched Slots Fixture.

#[local] Open Scope string_scope.
#[local] Open Scope list_scope.
#[local] Open Scope Z_scope.

(** ** Effects of the steps *)

(** [db] with other events. *)
Definition with_events (db : DB) (s : Z) (ev : list Event) : DB :=
  db <| event_seq := s |> <| events := ev |>.

Lemma emit_each_inv env t pl ids k db db' :
  emit_each env t pl ids k db = inr (tt, db') → ∃ s ev, db' = with_events db s ev.
Proof.
  intros H. revert H. apply (keeps_inv (λ x, ∃ s ev, x = with_events db s ev)).
  - apply keeps_emit_each. intros x s ev (s0 & ev0 & ->). by exists s, ev.
  - exists (event_seq db), (events db). by destruct db.
Qed.

(** [execs] after [update job_executions set ... where sel]. *)
Definition execs_after (sel : uuid → Exec → bool) (f : Exec → Exec) (m : gmap uuid Exec) : gmap uuid Exec :=
  map_imap (λ i x, Some (if sel i x then f x else x)) m.

Lemma update_execs_inv sel f db db' :
  update_execs sel f db = inr (tt, db') → db' = db <| execs := execs_after sel f (execs db) |>.
Proof. unfold update_execs. destruct (forallb _ _); [|done]. by intros [= <-]. Qed.

Lemma lookup_execs_after sel f m i :
  execs_after sel f m !! i = (λ x, if sel i x then f x else x) <$> m !! i.
Proof. unfold execs_after. rewrite map_lookup_imap. by destruct (m !! i). Qed.

(** [fl.finish_dependents]: the children that wait are counted down. *)
Definition waits_for (d : gset (uuid * uuid)) (p i : uuid) (c : Job) : bool :=
  bool_decide ((p, i) ∈ d) && bool_decide (status c = js_scheduled) && (0 <? pending_deps c).

Lemma finish_dependents_inv env p db ids db' :
  finish_dependents env p db = inr (ids, db') →
  ids = (select (waits_for (deps db) p) (jobs db)).*1 ∧
  db' = db <| jobs := rewritten (waits_for (deps db) p) (dependent_row env) (jobs db) |>.
Proof.
  unfold finish_dependents, gets. unfold mbind at 1, tx_bind at 1. fold (waits_for (deps db) p).
  intros ([] & db1 & Hu & [= <- <-])%tx_bind_inv. split; [done|]. by apply update_selected in Hu.
Qed.

(** The descendants a dead job cancels. *)
Definition doomed (d : gset (uuid * uuid)) (root i : uuid) (j : Job) : bool :=
  bool_decide (i ∈ down root d) && is_idle (status j).

Lemma cancel_descendants_inv env root db ids db' :
  cancel_descendants env root db = inr (ids, db') →
  ids = (select (doomed (deps db) root) (jobs db)).*1 ∧
  db' = db <| jobs := rewritten (doomed (deps db) root) (cancel_row env) (jobs db) |>.
Proof.
  unfold cancel_descendants, gets. unfold mbind at 1, tx_bind at 1. fold (doomed (deps db) root).
  intros ([] & db1 & Hu & [= <- <-])%tx_bind_inv. split; [done|]. by apply update_selected in Hu.
Qed.

(** The counter of a shard with a slot given back. *)
Lemma used_release q s n db k :
  0 ≤ n →
  used k (db <| queue_shards := alter (λ r, r <| in_flight := Z.max (in_flight r - n) 0 |>) (q, s) (queue_shards db) |>) =
  if decide (k = (q, s)) then from_option (λ r, Z.max (in_flight r - n) 0) 0 (queue_shards db !! k)
  else used k db.
Proof.
  intros Hn. unfold used. simpl. case_decide as E.
  - subst k. rewrite lookup_alter_eq. by destruct (queue_shards db !! (q, s)).
  - by rewrite lookup_alter_ne.
Qed.

(** Splits [m ≫= f] at [db] into its first step and the rest. *)
Ltac step_as H db1 Hs :=
  let a := fresh "a" in
  apply tx_bind_inv in H as (a & db1 & Hs & H);
  lazymatch type of a with unit => destruct a | _ => idtac end.

(** ** Success *)

(** What a completed job leaves behind. *)
Record succeeded (env : Env) (job exec : uuid) (db : DB) (j : Job) (db' : DB) : Prop := {
  su_job : jobs db' !! job = Some (completed_row env j);
  su_lease : leases db' = delete job (leases db);
  su_execs : execs db' = execs_after (open_exec_is exec) (finish_row env xo_success) (execs db);
  su_children i c : i ≠ job → jobs db !! i = Some c →
    jobs db' !! i = Some (if waits_for (deps db) job i c then dependent_row env c else c);
  su_absent i : jobs db !! i = None → jobs db' !! i = None;
  su_slot : used (queue_id j, shard j) db' =
    from_option (λ r, Z.max (in_flight r - 1) 0) 0 (queue_shards db !! (queue_id j, shard j));
  su_rest : db' = db <| jobs := jobs db' |> <| leases := leases db' |> <| execs := execs db' |>
    <| queue_shards := queue_shards db' |> <| stats := stats db' |>
    <| event_seq := event_seq db' |> <| events := events db' |>;
}.

Lemma report_success_inv env job f exec db r db' :
  report_success env job f exec db = inr (r, db') →
  (r = None ∧ db' = db) ∨
  (∃ j, jobs db !! job = Some j ∧ owns_running f j = true ∧ r = Some (queue_id j) ∧
        succeeded env job exec db j db').
Proof.
  unfold report_success, gets. unfold mbind at 1, tx_bind at 1.
  destruct (jobs db !! job) as [j|] eqn:Hj; [|intros [= <- <-]; by left].
  destruct (owns_running f j) eqn:Ho; simpl; [|intros [= <- <-]; by left].
  intros H. right. exists j. split; [done|]. split; [done|].
  step_as H db1 Hu. apply update_job_inv in Hu as [[Hn _]|(old & Hold & _ & _ & _ & ->)]; [congruence|].
  rewrite Hj in Hold. injection Hold as <-.
  step_as H db2 Hg. injection Hg as _ <-.
  step_as H db2 Hx. apply update_execs_inv in Hx.
  step_as H db3 Hg. injection Hg as _ <-.
  apply tx_bind_inv in H as (woke & db3 & Hf & H). apply finish_dependents_inv in Hf as [-> Hf].
  step_as H db4 Hd. injection Hd as <-.
  step_as H db5 Hs. injection Hs as <-.
  step_as H db6 Hr. injection Hr as <-.
  step_as H db7 He. apply emit_each_inv in He as (s & ev & ->).
  step_as H db8 Hm. injection Hm as <-. injection H as <- <-. split; [done|].
  subst db3 db2. simpl. split; simpl.
  - rewrite lookup_rewritten, lookup_insert_eq. simpl. unfold waits_for. simpl. by rewrite andb_false_r.
  - done.
  - done.
  - intros i c Hne Hc. by rewrite lookup_rewritten, lookup_insert_ne, Hc.
  - intros i Hn. rewrite lookup_rewritten, lookup_insert_ne, Hn; [done|congruence].
  - unfold used. simpl. rewrite lookup_alter_eq. by destruct (queue_shards db !! _).
  - by destruct db.
Qed.

(** ** Failure *)

Definition dead_reason_of (permanent : bool) (o : exec_outcome) : dead_reason :=
  if permanent then dr_permanent_error
  else if decide (o = xo_lost) then dr_lost_exhausted else dr_attempts_exhausted.

(** What a failed attempt leaves behind; [dead] says that it was the last one. *)
Record failed (env : Env) (job : uuid) (o : exec_outcome) (cls msg : option string) (permanent : bool)
    (db : DB) (j : Job) (rp : Policy) (db' : DB) : Prop := {
  fa_job : jobs db' !! job = Some (failed_row env permanent rp j);
  fa_lease : leases db' = delete job (leases db);
  fa_execs : execs db' = execs_after (open_exec_of job) (close_row env o cls msg) (execs db);
  fa_others i c : i ≠ job → jobs db !! i = Some c →
    jobs db' !! i = Some (if exhausted permanent rp j && doomed (deps db) job i c
                          then cancel_row env c else c);
  fa_absent i : jobs db !! i = None → jobs db' !! i = None;
  fa_dead : dead_letters db' =
    if exhausted permanent rp j && bool_decide (dead_letters db !! job = None)
    then <[job := mkDeadLetter (queue_id j) (project_id j) (dead_reason_of permanent o) cls msg
                    (history job db') (now env) None None]> (dead_letters db)
    else dead_letters db;
  fa_slot : used (queue_id j, shard j) db' =
    from_option (λ r, Z.max (in_flight r - 1) 0) 0 (queue_shards db !! (queue_id j, shard j));
  fa_policies : policies db' = policies db;
  fa_deps : deps db' = deps db;
}.

(** The part of [report_failure] that cancels, on the row already written. *)
Lemma cancel_if_dead env job permanent rp j db killed db' :
  jobs db !! job = Some (failed_row env permanent rp j) →
  (if exhausted permanent rp j then cancel_descendants env job else mret []) db = inr (killed, db') →
  db' = db <| jobs := jobs db' |> ∧
  jobs db' !! job = Some (failed_row env permanent rp j) ∧
  ∀ i, i ≠ job → jobs db' !! i =
    (λ c, if exhausted permanent rp j && doomed (deps db) job i c then cancel_row env c else c) <$> jobs db !! i.
Proof.
  intros Hj. destruct (exhausted permanent rp j) eqn:Hx.
  - intros [_ ->]%cancel_descendants_inv. split; [by destruct db|]. simpl. split.
    + rewrite lookup_rewritten, Hj. simpl. unfold doomed, failed_row. rewrite Hx. simpl. by rewrite andb_false_r.
    + intros i _. by rewrite lookup_rewritten.
  - intros [= <- <-]. split; [by destruct db|]. split; [done|]. intros i _. simpl. by destruct (jobs db !! i).
Qed.

Lemma insert_dead_letter_if env job j o cls msg permanent (dead : bool) db db' :
  (if dead then insert_dead_letter env job j o cls msg permanent else mret tt) db = inr (tt, db') →
  db' = db <| dead_letters :=
    if dead && bool_decide (dead_letters db !! job = None)
    then <[job := mkDeadLetter (queue_id j) (project_id j) (dead_reason_of permanent o) cls msg
                    (history job db) (now env) None None]> (dead_letters db)
    else dead_letters db |>.
Proof.
  destruct dead; [|intros [= <-]; by destruct db].
  unfold insert_dead_letter, modify. intros [= <-].
  destruct (dead_letters db !! job); [by destruct db|done].
Qed.

Lemma report_failure_inv env job f o cls msg permanent db r db' :
  report_failure env job f o cls msg permanent db = inr (r, db') →
  (r = None ∧ db' = db) ∨
  (∃ j rp, jobs db !! job = Some j ∧ policies db !! retry_policy_id j = Some rp ∧
     owns_active f j = true ∧ r = Some (queue_id j) ∧
     failed env job o cls msg permanent db j rp db').
Proof.
  unfold report_failure, gets. unfold mbind at 1, tx_bind at 1.
  destruct (jobs db !! job) as [j|] eqn:Hj; simpl; [|intros [= <- <-]; by left].
  destruct (policies db !! retry_policy_id j) as [rp|] eqn:Hp; simpl; [|intros [= <- <-]; by left].
  destruct (owns_active f j) eqn:Ho; simpl; [|intros [= <- <-]; by left].
  intros H. right. exists j, rp. do 3 (split; [done|]).
  step_as H db1 Hu. apply update_job_inv in Hu as [[Hn _]|(old & Hold & _ & _ & _ & ->)]; [congruence|].
  rewrite Hj in Hold. injection Hold as <-.
  apply tx_bind_inv in H as (killed & db2 & Hc & H).
  apply cancel_if_dead in Hc as (Hfr & Hrow & Hoth); [|simpl; apply lookup_insert_eq].
  step_as H db3 Hx. apply update_execs_inv in Hx.
  step_as H db4 Hd. injection Hd as <-.
  step_as H db5 Hs. injection Hs as <-.
  step_as H db6 Hdl. apply insert_dead_letter_if in Hdl.
  step_as H db7 Hr. injection Hr as <-.
  step_as H db8 He. apply emit_each_inv in He as (s & ev & ->).
  step_as H db9 Hm. injection Hm as <-. injection H as <- <-. split; [done|].
  assert (dead_letters db2 = dead_letters db ∧ leases db2 = leases db ∧ execs db2 = execs db ∧
          queue_shards db2 = queue_shards db ∧ policies db2 = policies db ∧ deps db2 = deps db)
    as (Hdl2 & Hl2 & Hx2 & Hq2 & Hp2 & He2) by (by rewrite Hfr).
  subst db6 db3. simpl in *. split; simpl.
  - exact Hrow.
  - by rewrite Hl2.
  - by rewrite Hx2.
  - intros i c Hne Hc. rewrite (Hoth i Hne), lookup_insert_ne by done. by rewrite Hc.
  - intros i Hn. assert (i ≠ job) as Hne by congruence. rewrite (Hoth i Hne), lookup_insert_ne by done. by rewrite Hn.
  - by rewrite Hdl2.
  - unfold used. simpl. rewrite Hq2, lookup_alter_eq. by destruct (queue_shards db !! _).
  - exact Hp2.
  - exact He2.
Qed.

(** ** Snooze *)

Record snoozed (env : Env) (job exec : uuid) (delay_ms : Z) (db : DB) (j : Job) (rp : Policy) (db' : DB)
    : Prop := {
  sn_jobs : jobs db' = <[job := snoozed_row env rp delay_ms j]> (jobs db);
  sn_lease : leases db' = delete job (leases db);
  sn_execs : execs db' = execs_after (open_exec_is exec) (finish_row env xo_snoozed) (execs db);
  sn_slot : used (queue_id j, shard j) db' =
    from_option (λ r, Z.max (in_flight r - 1) 0) 0 (queue_shards db !! (queue_id j, shard j));
}.

Lemma report_snooze_inv env job f exec delay_ms db r db' :
  report_snooze env job f exec delay_ms db = inr (r, db') →
  (r = None ∧ db' = db) ∨
  (∃ j rp, jobs db !! job = Some j ∧ policies db !! retry_policy_id j = Some rp ∧
     owns_running f j = true ∧ snooze_count j < max_attempts rp ∧ r = Some (queue_id j) ∧
     snoozed env job exec delay_ms db j rp db').
Proof.
  unfold report_snooze, gets. unfold mbind at 1, tx_bind at 1.
  destruct (jobs db !! job) as [j|] eqn:Hj; simpl; [|intros [= <- <-]; by left].
  destruct (policies db !! retry_policy_id j) as [rp|] eqn:Hp; simpl; [|intros [= <- <-]; by left].
  destruct (owns_running f j && _) eqn:Ho; simpl; [|intros [= <- <-]; by left].
  apply andb_true_iff in Ho as [Ho Hsc]. intros H. right. exists j, rp. do 3 (split; [done|]). split; [lia|].
  step_as H db1 Hu. apply update_job_inv in Hu as [[Hn _]|(old & Hold & _ & _ & _ & ->)]; [congruence|].
  rewrite Hj in Hold. injection Hold as <-.
  step_as H db2 Hx. apply update_execs_inv in Hx.
  step_as H db3 Hd. injection Hd as <-.
  step_as H db4 Hr. injection Hr as <-.
  step_as H db5 Hm. injection Hm as <-. injection H as <- <-. split; [done|].
  subst db2. split; simpl; try done.
  unfold used. simpl. rewrite lookup_alter_eq. by destruct (queue_shards db !! _).
Qed.
