(* ===== verification/Progress.v ===== *)
(** * Reports are accepted

    A report of the worker that owns a job is never turned down by a constraint
    of the database: every row it writes passes the range checks, the state
    machine and the check constraints. *)

From S2P Require Import Prelude Schema Fl Pool Jobs Sched Slots Reports Fixture.

(** ** Databases on which reports work *)

(** Rows that satisfy the constraints and were created in the past. *)
Record fit (env : Env) (j : Job) : Prop := {
  fit_checks : job_checks j = true;
  fit_range : job_in_range j = true;
  fit_past : created_at j ≤ now env;
}.

Record ready (env : Env) (db : DB) : Prop := {
  rd_jobs i j : jobs db !! i = Some j → fit env j;
  rd_execs i x : execs db !! i = Some x → exec_open x = true → x_started_at x ≤ now env;
}.

(** ** Lemmas: which rows pass *)

Record row_facts (j : Job) : Prop := {
  rf_attempts : attempt_count j ≤ fence j;
  rf_columns : jobs_column_checks j = true;
  rf_pending : status j ≠ js_scheduled → pending_deps j = 0;
  rf_idle : is_idle (status j) = true → worker_id j = None ∧ finished_at j = None;
}.

Lemma checks_facts j : job_checks j = true → row_facts j.
Proof.
  unfold job_checks. rewrite !andb_true_iff. intros [[[[[[[Ht _] _] Hi] _] Ha] Hd] Hc].
  unfold jobs_fence_matches_attempts in Ha. unfold jobs_deps_only_while_scheduled in Hd. split.
  - lia.
  - done.
  - intros Hne. rewrite bool_decide_eq_false_2, orb_false_r in Hd by done. lia.
  - intros Hidle. unfold jobs_idle_has_no_owner in Hi. rewrite Hidle in Hi. apply bool_decide_eq_true in Hi.
    split; [done|]. unfold jobs_terminal_has_finished in Ht.
    assert (is_terminal (status j) = false) as Hterm by (by destruct (status j)). rewrite Hterm in Ht.
    destruct (finished_at j); [|done]. by rewrite bool_decide_eq_true_2 in Ht by eauto.
Qed.

(** A job that ended. *)
Lemma checks_ended j t :
  is_terminal (status j) = true → finished_at j = Some t → attempt_count j ≤ fence j →
  pending_deps j = 0 → jobs_column_checks j = true → job_checks j = true.
Proof.
  intros Ht Hf Ha Hp Hc. unfold job_checks. rewrite Hc.
  unfold jobs_terminal_has_finished, jobs_active_has_owner, jobs_running_has_started,
    jobs_idle_has_no_owner, jobs_scheduled_deps_or_future, jobs_fence_matches_attempts,
    jobs_deps_only_while_scheduled.
  rewrite Hf, Hp. apply Z.leb_le in Ha. rewrite Ha.
  rewrite (bool_decide_eq_true_2 (is_Some (Some t))) by eauto. by destruct (status j).
Qed.

(** A job that waits, nobody owning it. *)
Lemma checks_waiting j :
  is_idle (status j) = true → worker_id j = None → finished_at j = None → attempt_count j ≤ fence j →
  (status j ≠ js_scheduled → pending_deps j = 0) →
  (status j = js_scheduled → 0 < pending_deps j ∨ created_at j < run_at j) →
  jobs_column_checks j = true → job_checks j = true.
Proof.
  intros Hi Hw Hf Ha Hp Hs Hc. unfold job_checks. rewrite Hc.
  unfold jobs_terminal_has_finished, jobs_active_has_owner, jobs_running_has_started,
    jobs_idle_has_no_owner, jobs_scheduled_deps_or_future, jobs_fence_matches_attempts,
    jobs_deps_only_while_scheduled.
  rewrite Hf, Hw. apply Z.leb_le in Ha. rewrite Ha, Hi.
  rewrite (bool_decide_eq_false_2 (is_Some None)) by (by intros [? [=]]).
  destruct (status j); try done; simpl; try (by rewrite Hp).
  rewrite orb_true_r, andb_true_r. assert ((0 <? pending_deps j) || (created_at j <? run_at j) = true) as ->; [|done].
  apply orb_true_iff. destruct Hs; [done|left|right]; lia.
Qed.

Lemma range_pending j p :
  job_in_range j = true → 0 ≤ p ≤ pending_deps j → job_in_range (j <| pending_deps := p |>) = true.
Proof.
  unfold job_in_range, in_int4, in_int8. simpl. rewrite !andb_true_iff. intros H Hp. intuition lia.
Qed.

(** [f] may be written over [j]. *)
Definition writable (f : Job → Job) (j : Job) : Prop :=
  job_in_range (f j) = true ∧ jobs_fsm j (f j) = true ∧ job_checks (f j) = true.

Lemma fsm_ok j j' :
  fence j ≤ fence j' → (status j = status j' ∨ legal_transition (status j) (status j') = true) →
  jobs_fsm j j' = true.
Proof.
  intros Hf Hs. unfold jobs_fsm. apply andb_true_iff. split; [apply negb_true_iff; lia|].
  apply orb_true_iff. destruct Hs; [left; by apply bool_decide_eq_true|by right].
Qed.

Lemma completed_writable env j : fit env j → status j = js_running → writable (completed_row env) j.
Proof.
  intros [Hck Hr _] Hs. apply checks_facts in Hck as [Ha Hc Hp _]. split; [exact Hr|]. split.
  - apply fsm_ok; [simpl; lia|]. right. simpl. by rewrite Hs.
  - by apply (checks_ended _ (now env)); simpl; [| |done|apply Hp; congruence|].
Qed.

Lemma cancel_writable env j : fit env j → is_idle (status j) = true → writable (cancel_row env) j.
Proof.
  intros [Hck Hr _] Hs. pose proof (checks_facts _ Hck) as [Ha Hc Hp _].
  assert (0 ≤ pending_deps j) as H0.
  { unfold jobs_column_checks in Hc. rewrite !andb_true_iff in Hc. lia. }
  split; [by apply (range_pending j 0 Hr); lia|]. split.
  - apply fsm_ok; [simpl; lia|]. right. simpl. by destruct (status j).
  - apply (checks_ended _ (now env)); simpl; try done.
    unfold jobs_column_checks in *. simpl. rewrite !andb_true_iff in *. intuition.
Qed.

Lemma dependent_writable env j :
  fit env j → status j = js_scheduled → 0 < pending_deps j → writable (dependent_row env) j.
Proof.
  intros [Hck Hr Hpast] Hs Hpos. pose proof (checks_facts _ Hck) as [Ha Hc _ Hi].
  assert (is_idle (status j) = true) as Hidle by (by rewrite Hs). destruct (Hi Hidle) as [Hw Hf].
  split; [by apply (range_pending j (pending_deps j - 1) Hr); lia|]. split.
  - apply fsm_ok; [simpl; lia|]. simpl. rewrite Hs. destruct (_ && _); auto.
  - assert (jobs_column_checks (dependent_row env j) = true) as Hc'.
    { unfold jobs_column_checks in *. simpl. rewrite !andb_true_iff in *. intuition lia. }
    apply checks_waiting; simpl; try done; destruct ((pending_deps j - 1 =? 0) && (run_at j <=? now env)) eqn:Hz;
      try (by rewrite Hs); try (by intros); intros; try lia.
Qed.

Lemma failed_writable env permanent rp j :
  fit env j → is_active (status j) = true → writable (failed_row env permanent rp) j.
Proof.
  intros [Hck Hr _] Hs. apply checks_facts in Hck as [Ha Hc Hp _].
  assert (pending_deps j = 0) as Hp0 by (apply Hp; by destruct (status j)).
  split; [exact Hr|]. unfold failed_row. destruct (exhausted permanent rp j); split.
  - apply fsm_ok; [simpl; lia|]. right. simpl. by destruct (status j).
  - by apply (checks_ended _ (now env)).
  - apply fsm_ok; [simpl; lia|]. right. simpl. by destruct (status j).
  - by apply checks_waiting.
Qed.

(** ** Lemmas: statements that pass *)

Lemma update_job_ok i f db j :
  jobs db !! i = Some j → writable f j →
  update_job i f db = inr (tt, db <| jobs := <[i := f j]> (jobs db) |>).
Proof. intros Hi (Hr & Hf & Hc). unfold update_job. by rewrite Hi, Hr, Hf, Hc. Qed.

Lemma update_ids_ok f ids db :
  NoDup ids → (∀ i j, i ∈ ids → jobs db !! i = Some j → writable f j) →
  ∃ db', foreach ids (λ i, update_job i f) db = inr (tt, db').
Proof.
  revert db. induction ids as [|i ids IH]; intros db Hnd Hw; simpl; [by eexists|].
  apply list.NoDup_cons in Hnd as [Hni Hnd]. unfold mbind, tx_bind.
  destruct (jobs db !! i) as [j|] eqn:Hi.
  - rewrite (update_job_ok i f db j Hi (Hw i j ltac:(left) Hi)). apply IH; [done|].
    intros i' j' Hi'. simpl. rewrite lookup_insert_ne by (intros ->; done). apply Hw. by right.
  - unfold update_job at 1. rewrite Hi. apply IH; [done|]. intros i' j' Hi'. apply Hw. by right.
Qed.

Lemma update_selected_ok sel f db :
  (∀ i j, jobs db !! i = Some j → sel i j = true → writable f j) →
  foreach (select sel (jobs db)).*1 (λ i, update_job i f) db =
  inr (tt, db <| jobs := rewritten sel f (jobs db) |>).
Proof.
  intros Hw. destruct (update_ids_ok f (select sel (jobs db)).*1 db) as [db' Hdb'].
  - apply NoDup_select.
  - intros i j (j' & Hj' & Hs)%elem_of_select_fst Hj. rewrite Hj in Hj'. injection Hj' as <-. eauto.
  - rewrite Hdb'. by rewrite (update_selected _ _ _ _ Hdb').
Qed.

Lemma finish_dependents_ok env p db :
  (∀ i j, jobs db !! i = Some j → fit env j) →
  finish_dependents env p db =
  inr ((select (waits_for (deps db) p) (jobs db)).*1,
       db <| jobs := rewritten (waits_for (deps db) p) (dependent_row env) (jobs db) |>).
Proof.
  intros Hfit. unfold finish_dependents, gets. unfold mbind at 1, tx_bind at 1.
  fold (waits_for (deps db) p). unfold mbind, tx_bind. rewrite update_selected_ok; [done|].
  intros i j Hj. unfold waits_for. rewrite !andb_true_iff. intros [[_ Hs%bool_decide_eq_true] Hp].
  apply dependent_writable; [eauto|done|lia].
Qed.

Lemma cancel_descendants_ok env root db :
  (∀ i j, i ≠ root → jobs db !! i = Some j → fit env j) →
  (∀ j, jobs db !! root = Some j → is_idle (status j) = false) →
  ∃ ids, cancel_descendants env root db =
    inr (ids, db <| jobs := rewritten (doomed (deps db) root) (cancel_row env) (jobs db) |>).
Proof.
  intros Hfit Hroot. unfold cancel_descendants, gets. unfold mbind at 1, tx_bind at 1.
  fold (doomed (deps db) root). unfold mbind, tx_bind. rewrite update_selected_ok; [by eexists|].
  intros i j Hj. unfold doomed. rewrite !andb_true_iff. intros [_ Hs]. apply cancel_writable; [|done].
  apply (Hfit i); [|done]. intros ->. specialize (Hroot j Hj). congruence.
Qed.

Lemma update_execs_ok sel f db :
  (∀ i x, execs db !! i = Some x → sel i x = true → exec_checks (f x) = true) →
  update_execs sel f db = inr (tt, db <| execs := execs_after sel f (execs db) |>).
Proof.
  intros H. unfold update_execs. assert (forallb (λ kv : uuid * Exec, exec_checks (f kv.2))
    (select sel (execs db)) = true) as ->; [|done].
  apply forallb_forall. intros [i x] [Hi Hs]%list_elem_of_In%elem_of_select. eauto.
Qed.

Lemma finish_checks env o x : x_started_at x ≤ now env → exec_checks (finish_row env o x) = true.
Proof.
  intros H. unfold exec_checks. simpl. apply andb_true_iff. by split; [lia|].
Qed.

Lemma emit_each_ok env t pl ids k db : ∃ db', emit_each env t pl ids k db = inr (tt, db').
Proof.
  unfold emit_each, gets, mbind, tx_bind. generalize (merge_sort (by_key (λ r : uuid * Job, Z.of_N (project_id r.2)))
    (select (λ i j, bool_decide (i ∈ ids) && k j) (jobs db))). intros rows. revert db.
  induction rows as [|r rows IH]; intros db; simpl; [by eexists|]. apply IH.
Qed.

(** ** Backoff *)

(** What the table and [random()] promise. *)
Definition policy_ok (rp : Policy) : Prop := 0 ≤ base_delay_ms rp ∧ 0 ≤ max_delay_ms rp.
Definition draw_ok (env : Env) : Prop := (0 <= rnd env /\ rnd env < 1)%Q.

Lemma backoff_ms_bounds k base mx a : 0 ≤ base → 0 ≤ mx → 0 ≤ backoff_ms k base mx a ≤ mx.
Proof.
  intros Hb Hm. unfold backoff_ms. split; [|lia]. apply Z.min_glb; [done|].
  apply Z.mul_nonneg_nonneg; [done|]. destruct k; [done|lia|]. apply Z.pow_nonneg. lia.
Qed.

Lemma backoff_bounds env k base mx jit a :
  0 ≤ base → 0 ≤ mx → draw_ok env → 0 ≤ backoff env k base mx jit a ≤ backoff_ms k base mx a * 1000.
Proof.
  intros Hb Hm [Hr0 Hr1]. pose proof (backoff_ms_bounds k base mx a Hb Hm) as [Hd _].
  unfold backoff. set (d := backoff_ms k base mx a) in *. destruct (jit && _); [|lia].
  assert (0 <= inject_Z (d * 1000))%Q as HdQ by (rewrite <- (Zle_Qle 0); lia).
  assert (rnd env * inject_Z (d * 1000) <= inject_Z (d * 1000))%Q as Hle.
  { rewrite <- (Qmult_1_l (inject_Z (d * 1000))) at 2.
    apply Qmult_le_compat_r; [lra|done]. }
  assert (0 <= rnd env * inject_Z (d * 1000))%Q as Hge by (by apply Qmult_le_0_compat).
  split.
  - change 0 with (Qfloor 0). apply Qfloor_resp_le. lra.
  - transitivity (Qfloor (inject_Z (d * 1000) + (1 # 2))).
    + apply Qfloor_resp_le. lra.
    + assert (Qfloor (inject_Z (d * 1000) + (1 # 2)) < d * 1000 + 1); [|lia].
      rewrite Zlt_Qlt. eapply Qle_lt_trans; [apply Qfloor_le|]. rewrite inject_Z_plus.
      change (inject_Z 1) with 1%Q. lra.
Qed.

(** ** Runs of the two reports *)

Lemma report_success_runs env job exec db j :
  ready env db → jobs db !! job = Some j → status j = js_running →
  ∃ db', report_success env job (fence j) exec db = inr (Some (queue_id j), db').
Proof.
  intros [Hjobs Hex] Hj Hs. unfold report_success, gets. unfold mbind at 1, tx_bind at 1. rewrite Hj.
  assert (owns_running (fence j) j = true) as ->
    by (unfold owns_running; by rewrite Z.eqb_refl, bool_decide_eq_true_2).
  simpl. unfold mbind at 1, tx_bind at 1.
  rewrite (update_job_ok _ _ _ _ Hj) by (apply completed_writable; eauto).
  unfold mbind at 1, tx_bind at 1. unfold mbind at 1, tx_bind at 1.
  rewrite update_execs_ok.
  2:{ intros i x Hi [_ Ho]%andb_true_iff. apply finish_checks. eauto. }
  unfold mbind at 1, tx_bind at 1. unfold mbind at 1, tx_bind at 1.
  rewrite finish_dependents_ok.
  2:{ simpl. intros i k. rewrite lookup_insert. case_decide; [|eauto]. intros [= <-].
      destruct (completed_writable env j (Hjobs _ _ Hj) Hs) as (Hr & _ & Hc).
      split; [done|done|]. by destruct (Hjobs _ _ Hj). }
  unfold mbind at 1, tx_bind at 1. unfold drop_lease, modify. unfold mbind at 1, tx_bind at 1.
  unfold add_stat, modify. unfold mbind at 1, tx_bind at 1. unfold queue_release, modify.
  unfold mbind at 1, tx_bind at 1.
  match goal with |- context [emit_each ?e ?t ?p ?l ?k ?d] =>
    destruct (emit_each_ok e t p l k d) as [db' ->] end.
  by eexists.
Qed.

Lemma report_failure_runs env job f o cls msg permanent db j rp :
  ready env db → jobs db !! job = Some j → is_active (status j) = true →
  policies db !! retry_policy_id j = Some rp → (∀ n, f = Some n → fence j = n) →
  ∃ db', report_failure env job f o cls msg permanent db = inr (Some (queue_id j), db').
Proof.
  intros [Hjobs Hex] Hj Hs Hp Hf. unfold report_failure, gets. unfold mbind at 1, tx_bind at 1.
  rewrite Hj. simpl. rewrite Hp. simpl.
  assert (owns_active f j = true) as ->.
  { unfold owns_active. rewrite Hs. destruct f as [n|]; [|done]. simpl. rewrite (Hf n) by done. by apply Z.eqb_refl. }
  simpl. unfold mbind at 1, tx_bind at 1.
  pose proof (failed_writable env permanent rp j (Hjobs _ _ Hj) Hs) as Hw.
  rewrite (update_job_ok _ _ _ _ Hj Hw).
  set (db1 := db <| jobs := <[job := failed_row env permanent rp j]> (jobs db) |>).
  assert (∃ killed db2, (if exhausted permanent rp j then cancel_descendants env job else mret []) db1 =
    inr (killed, db2) ∧ execs db2 = execs db) as (killed & db2 & Hc & Hx2).
  { destruct (exhausted permanent rp j) eqn:Hexh; [|by exists [], db1].
    destruct (cancel_descendants_ok env job db1) as [ids Hids].
    - simpl. intros i k Hne. rewrite lookup_insert_ne by done. eauto.
    - simpl. rewrite lookup_insert_eq. intros k [= <-]. unfold failed_row. simpl. by rewrite Hexh.
    - eexists ids, _. split; [exact Hids|done]. }
  unfold mbind at 1, tx_bind at 1. rewrite Hc. unfold mbind at 1, tx_bind at 1.
  rewrite update_execs_ok.
  2:{ rewrite Hx2. intros i x Hi [_ Ho]%andb_true_iff. apply (finish_checks env o x). eauto. }
  unfold mbind at 1, tx_bind at 1. unfold drop_lease, modify. unfold mbind at 1, tx_bind at 1.
  unfold add_stat, modify. unfold mbind at 1, tx_bind at 1.
  assert (∀ d, ∃ d', (if exhausted permanent rp j then insert_dead_letter env job j o cls msg permanent
                      else mret tt) d = inr (tt, d')) as Hdl
    by (intros d; destruct (exhausted permanent rp j); by eexists).
  match goal with |- context [(if exhausted permanent rp j then insert_dead_letter _ _ _ _ _ _ _ else _) ?d] =>
    destruct (Hdl d) as [db3 ->] end.
  unfold mbind at 1, tx_bind at 1. unfold queue_release, modify. unfold mbind at 1, tx_bind at 1.
  match goal with |- context [emit_each ?e ?t ?p ?l ?k ?d] =>
    destruct (emit_each_ok e t p l k d) as [db' ->] end.
  by eexists.
Qed.

(** ** Theorems *)

(** C15 (liveness): the owner's success is always recorded.  On a database whose
    rows satisfy the constraints, a worker that reports success for a running job
    under its fence is not turned down: the job is completed, its lease is gone,
    the execution is closed as a success, a slot of its shard is given back, and
    each job that waits for it counts one dependency less - the last one makes a
    job that is due queued. *)
Theorem owner_success_recorded env job exec db j :
  ready env db → jobs db !! job = Some j → status j = js_running →
  ∃ db', report_success env job (fence j) exec db = inr (Some (queue_id j), db') ∧
    succeeded env job exec db j db' ∧
    (∀ i c, (job, i) ∈ deps db → jobs db !! i = Some c → status c = js_scheduled →
       pending_deps c = 1 → run_at c ≤ now env →
       jobs db' !! i = Some (c <| pending_deps := 0 |> <| status := js_queued |>)).
Proof.
  intros Hrd Hj Hs. destruct (report_success_runs env job exec db j Hrd Hj Hs) as [db' Hrun].
  exists db'. split; [done|].
  destruct (report_success_inv _ _ _ _ _ _ _ Hrun) as [[? _]|(j' & Hj' & _ & _ & Hsu)]; [done|].
  rewrite Hj in Hj'. injection Hj' as <-. split; [done|].
  intros i c Hd Hc Hcs Hp Hr. assert (i ≠ job) as Hne by congruence.
  rewrite (su_children _ _ _ _ _ _ Hsu i c Hne Hc). unfold waits_for.
  rewrite !bool_decide_eq_true_2, Hp by done. simpl. unfold dependent_row. rewrite Hp. simpl.
  apply Z.leb_le in Hr. by rewrite Hr.
Qed.

(** [ready] is decided by going through the tables. *)
Definition check_ready (env : Env) (db : DB) : bool :=
  forallb (λ r : uuid * Job, job_checks r.2 && job_in_range r.2 && (created_at r.2 <=? now env))
    (map_to_list (jobs db)) &&
  forallb (λ r : uuid * Exec, x_started_at r.2 <=? now env) (map_to_list (execs db)).

Lemma check_ready_spec env db : check_ready env db = true → ready env db.
Proof.
  unfold check_ready. rewrite andb_true_iff, !forallb_forall. intros [Hj Hx]. split.
  - intros i j Hi%elem_of_map_to_list%list_elem_of_In%Hj. rewrite !andb_true_iff in Hi. simpl in Hi.
    destruct Hi as [[? ?] ?]. split; [done|done|lia].
  - intros i x Hi%elem_of_map_to_list%list_elem_of_In%Hx _. simpl in Hi. lia.
Qed.

Lemma owner_success_recorded_witness :
  ∃ db', report_success env0 14 2 20 db0 = inr (Some 4%N, db') ∧
    jobs db' !! 16%N = Some (child0 <| pending_deps := 0 |> <| status := js_queued |>).
Proof.
  destruct (owner_success_recorded env0 14 20 db0 running0 (check_ready_spec env0 db0 eq_refl)) as (db' & Hrun & _ & Hch); [done|done|].
  exists db'. split; [exact Hrun|]. by apply Hch.
Defined.

(** C16 (liveness): the owner's failure is always recorded.  On such a database a
    failure report of the owner, or of the reaper (no fence), is not turned down.
    The open executions of the job are closed with the outcome, its lease is gone
    and its slot given back.  If the failure is permanent or was the last attempt
    the job is dead, has a dead letter and its unclaimed descendants are
    cancelled; otherwise it waits, for no longer than the policy's maximum. *)
Theorem owner_failure_recorded env job f o cls msg permanent db j rp :
  ready env db → jobs db !! job = Some j → is_active (status j) = true →
  policies db !! retry_policy_id j = Some rp → (∀ n, f = Some n → fence j = n) →
  policy_ok rp → draw_ok env →
  ∃ db' j', report_failure env job f o cls msg permanent db = inr (Some (queue_id j), db') ∧
    failed env job o cls msg permanent db j rp db' ∧ jobs db' !! job = Some j' ∧
    worker_id j' = None ∧
    (permanent = true ∨ max_attempts rp ≤ attempt_count j →
       status j' = js_dead_letter ∧ finished_at j' = Some (now env) ∧
       is_Some (dead_letters db' !! job)) ∧
    (permanent = false ∧ attempt_count j < max_attempts rp →
       status j' = js_retry_wait ∧ dead_letters db' = dead_letters db ∧
       now env ≤ run_at j' ≤ now env + max_delay_ms rp * 1000).
Proof.
  intros Hrd Hj Hs Hp Hf [Hb Hm] Hdraw.
  destruct (report_failure_runs env job f o cls msg permanent db j rp Hrd Hj Hs Hp Hf) as [db' Hrun].
  exists db', (failed_row env permanent rp j). split; [done|].
  destruct (report_failure_inv _ _ _ _ _ _ _ _ _ _ Hrun) as [[? _]|(j1 & rp1 & Hj1 & Hp1 & _ & _ & Hfa)]; [done|].
  rewrite Hj in Hj1. injection Hj1 as <-. rewrite Hp in Hp1. injection Hp1 as <-.
  split; [done|]. split; [by apply (fa_job _ _ _ _ _ _ _ _ _ _ Hfa)|]. split; [done|].
  pose proof (fa_dead _ _ _ _ _ _ _ _ _ _ Hfa) as Hdead. unfold failed_row. split.
  - intros Hx. assert (exhausted permanent rp j = true) as He.
    { unfold exhausted. apply orb_true_iff. destruct Hx; [by left|right; lia]. }
    rewrite He in *. simpl. split; [done|]. split; [done|]. rewrite Hdead. simpl.
    destruct (dead_letters db !! job) as [dl|] eqn:Hdl; simpl; [by rewrite Hdl|].
    rewrite lookup_insert_eq. eauto.
  - intros [-> Hlt]. assert (exhausted false rp j = false) as He by (unfold exhausted; simpl; lia).
    rewrite He in *. simpl. split; [done|]. split; [done|].
    pose proof (backoff_bounds env (kind rp) (base_delay_ms rp) (max_delay_ms rp) (jitter rp) (attempt_count j) Hb Hm Hdraw).
    pose proof (backoff_ms_bounds (kind rp) (base_delay_ms rp) (max_delay_ms rp) (attempt_count j) Hb Hm). lia.
Qed.

Lemma owner_failure_recorded_witness :
  ∃ db' j', report_failure env0 14 (Some 2) xo_retryable_error None None false db0 = inr (Some 4%N, db') ∧
    jobs db' !! 14%N = Some j' ∧ status j' = js_retry_wait ∧ t0 ≤ run_at j' ≤ t0 + 60000 * 1000.
Proof.
  destruct (owner_failure_recorded env0 14 (Some 2) xo_retryable_error None None false db0 running0 policy0
    (check_ready_spec env0 db0 eq_refl))
    as (db' & j' & Hrun & _ & Hj' & _ & _ & Hretry); try done.
  - by intros n [= <-].
  - exists db', j'. destruct Hretry as (Hs & _ & Hr); [done|]. do 3 (split; [done|]). exact Hr.
Defined.
