(* ===== verification/Reaping.v ===== *)
(** * The reaper finishes its work

    With nobody else at work, one [Reap] reports every job whose lease has
    expired as lost, and leaves no such job behind. *)

From S2P Require Import Prelude Schema Fl Pool Jobs Sched Slots Reports Progress Fixture.

(** ** One lost job *)

(** Every job has a retry policy. *)
Definition policed (db : DB) : Prop :=
  ∀ i j, jobs db !! i = Some j → is_Some (policies db !! retry_policy_id j).

Lemma fit_written env f j : fit env j → writable f j → created_at (f j) = created_at j → fit env (f j).
Proof. intros [_ _ Hp] (Hr & _ & Hc) Hcr. split; [done|done|]. by rewrite Hcr. Qed.

Lemma failed_ready env job o cls msg permanent db j rp db' :
  ready env db → jobs db !! job = Some j → is_active (status j) = true →
  failed env job o cls msg permanent db j rp db' → ready env db'.
Proof.
  intros [Hjobs Hex] Hj Ha []. split.
  - intros i k Hk. destruct (decide (i = job)) as [->|Hne].
    + rewrite fa_job in Hk. injection Hk as <-.
      apply fit_written; [eauto|apply failed_writable; eauto|done].
    + destruct (jobs db !! i) as [c|] eqn:Hc; [|by rewrite fa_absent in Hk].
      rewrite (fa_others i c Hne Hc) in Hk. injection Hk as <-.
      destruct (_ && doomed (deps db) job i c) eqn:Hd; [|eauto].
      apply andb_true_iff in Hd as [_ [_ Hd]%andb_true_iff].
      apply fit_written; [eauto|apply cancel_writable; eauto|done].
  - intros i x. rewrite fa_execs, lookup_execs_after. destruct (execs db !! i) as [y|] eqn:Hy; [|done].
    intros [= <-]. destruct (open_exec_of job i y); [done|]. eauto.
Qed.

Lemma failed_policed env job o cls msg permanent db j rp db' :
  policed db → jobs db !! job = Some j →
  failed env job o cls msg permanent db j rp db' → policed db'.
Proof.
  intros Hpol Hj [] i k Hk. rewrite fa_policies.
  destruct (decide (i = job)) as [->|Hne].
  - rewrite fa_job in Hk. injection Hk as <-. simpl. eauto.
  - destruct (jobs db !! i) as [c|] eqn:Hc; [|by rewrite fa_absent in Hk].
    rewrite (fa_others i c Hne Hc) in Hk. injection Hk as <-.
    destruct (_ && doomed (deps db) job i c); simpl; eauto.
Qed.

(** ** The loop *)

Definition is_lost (db : DB) (i : uuid) : Prop :=
  ∃ j, jobs db !! i = Some j ∧ is_active (status j) = true.

(** The death of none of [ids] cancels [i]. *)
Definition apart (ids : list uuid) (db : DB) (i : uuid) : Prop := ∀ k, k ∈ ids → i ∉ down k (deps db).

(** A dead letter is written where the last attempt failed, and stays. *)
Lemma failed_dead env job o cls msg permanent db j rp db' :
  failed env job o cls msg permanent db j rp db' →
  (exhausted permanent rp j = true → is_Some (dead_letters db' !! job)) ∧
  ∀ i, is_Some (dead_letters db !! i) → is_Some (dead_letters db' !! i).
Proof.
  intros []. rewrite fa_dead. split.
  - intros ->. simpl. case_bool_decide as Hd; [rewrite lookup_insert_eq; eauto|].
    destruct (dead_letters db !! job); [eauto|done].
  - intros i Hi. destruct (_ && _); [|done]. rewrite lookup_insert. case_decide; eauto.
Qed.

Lemma failed_apart env job o cls msg permanent db j rp db' i :
  failed env job o cls msg permanent db j rp db' → i ≠ job → i ∉ down job (deps db) → jobs db' !! i = jobs db !! i.
Proof.
  intros [] Hne Hd. destruct (jobs db !! i) as [c|] eqn:Hc; [|auto]. rewrite (fa_others i c Hne Hc).
  unfold doomed. by rewrite bool_decide_eq_false_2, andb_false_r by done.
Qed.

(** What the loop has done once it went through [ids]. *)
Record reaped (env : Env) (ids : list uuid) (db db' : DB) : Prop := {
  rp_ready : ready env db';
  rp_done i : i ∈ ids → leases db' !! i = None;
  rp_lease i : i ∉ ids → leases db' !! i = leases db !! i;
  rp_active i j : i ∉ ids → jobs db' !! i = Some j → is_active (status j) = true →
    jobs db !! i = Some j;
  rp_keep i : i ∉ ids → apart ids db i → jobs db' !! i = jobs db !! i;
  rp_row i j rp : i ∈ ids → apart ids db i → jobs db !! i = Some j →
    policies db !! retry_policy_id j = Some rp →
    jobs db' !! i = Some (failed_row env false rp j) ∧
    (exhausted false rp j = true → is_Some (dead_letters db' !! i));
  rp_dead i : is_Some (dead_letters db !! i) → is_Some (dead_letters db' !! i);
}.

Definition reap_step (n : Z) (i : uuid) : go Z :=
  q ← pool_exec (reportLostSQL i);
  mret (match q with None => n | Some _ => n + 1 end).

Lemma lost_once env db i n k :
  ready env db → policed db → is_lost db i →
  ∃ db' j, reap_step n i (mkWorld db None (quiet env) k) = (inr (n + 1), mkWorld db' None (quiet env) (S k)) ∧
    jobs db !! i = Some j ∧ is_active (status j) = true ∧
    ∃ rp, policies db !! retry_policy_id j = Some rp ∧ failed env i xo_lost None None false db j rp db'.
Proof.
  intros Hrd Hpol (j & Hj & Ha). destruct (Hpol i j Hj) as [rp Hp].
  destruct (report_failure_runs env i None xo_lost None None false db j rp) as [db' Hrun]; try done.
  exists db', j. split_and!; [|done|done|].
  - unfold reap_step, pool_exec, reportLostSQL, mbind, go_bind, this_call. simpl. by rewrite Hrun.
  - destruct (report_failure_inv _ _ _ _ _ _ _ _ _ _ Hrun) as [[? _]|(j1 & rp1 & Hj1 & Hp1 & _ & _ & Hfa)]; [done|].
    rewrite Hj in Hj1. injection Hj1 as <-. eauto.
Qed.

Lemma reap_loop env ids db n k :
  NoDup ids → ready env db → policed db → (∀ i, i ∈ ids → is_lost db i) →
  ∃ db' k', go_fold reap_step n ids (mkWorld db None (quiet env) k) =
      (inr (n + Z.of_nat (length ids)), mkWorld db' None (quiet env) k') ∧ reaped env ids db db'.
Proof.
  revert db n k. induction ids as [|i ids IH]; intros db n k Hnd Hrd Hpol Hl; cbn [go_fold].
  { exists db, k. simpl. rewrite Z.add_0_r. split; [done|].
    split; try done; intros i; [intros ?%elem_of_nil|intros ?? ?%elem_of_nil]; done. }
  apply list.NoDup_cons in Hnd as [Hni Hnd].
  destruct (lost_once env db i n k Hrd Hpol) as (db1 & j & Hstep & Hj & Ha & rp & Hp & Hfa); [apply Hl; left|].
  pose proof Hfa as [Hjob Hlease _ Hoth Habs _ _ Hpls Hdeps].
  destruct (failed_dead _ _ _ _ _ _ _ _ _ _ Hfa) as [Hlast Hstay].
  destruct (IH db1 (n + 1) (S k)) as (db' & k' & Hrun & Hre); [done|by eapply failed_ready|by eapply failed_policed| |].
  { intros i' Hi'. assert (i' ≠ i) as Hne by (intros ->; done).
    destruct (Hl i') as (j' & Hj' & Ha'); [by right|]. exists j'. split; [|done].
    rewrite (Hoth i' j' Hne Hj'). unfold doomed.
    assert (is_idle (status j') = false) as -> by (by destruct (status j')). by rewrite !andb_false_r. }
  exists db', k'. split.
  { unfold mbind, go_bind. rewrite Hstep, Hrun.
    by replace (n + Z.of_nat (length (i :: ids))) with (n + 1 + Z.of_nat (length ids)) by (cbn [length]; lia). }
  destruct Hre. split; [done|..].
  - intros i' [->|Hi']%elem_of_cons; [|auto]. by rewrite (rp_lease0 i Hni), Hlease, lookup_delete_eq.
  - intros i' [Hne Hi']%not_elem_of_cons. by rewrite (rp_lease0 i' Hi'), Hlease, lookup_delete_ne.
  - intros i' j' [Hne Hi']%not_elem_of_cons Hj' Ha'. specialize (rp_active0 i' j' Hi' Hj' Ha').
    destruct (jobs db !! i') as [c|] eqn:Hc; [|by rewrite Habs in rp_active0].
    rewrite (Hoth i' c Hne Hc) in rp_active0. injection rp_active0 as Heq.
    destruct (_ && doomed _ _ _ _); [|by rewrite Heq]. by rewrite <- Heq in Ha'.
  - intros i' [Hne Hi']%not_elem_of_cons Hap. rewrite (rp_keep0 i' Hi').
    + eapply failed_apart; [done|done|]. apply Hap. left.
    + intros x Hx. rewrite Hdeps. apply Hap. by right.
  - intros i' j' rp' Hin Hap Hj' Hp'.
    assert (apart ids db1 i') as Hap1 by (intros x Hx; rewrite Hdeps; apply Hap; by right).
    apply elem_of_cons in Hin as [->|Hi'].
    + rewrite Hj in Hj'. injection Hj' as <-. rewrite (rp_keep0 i Hni Hap1), Hjob.
      rewrite Hp in Hp'. injection Hp' as <-. split; [done|]. intros Hx. by apply rp_dead0, Hlast.
    + assert (i' ≠ i) as Hne by (intros ->; done). apply rp_row0; [done|done| |by rewrite Hpls].
      rewrite <- Hj'. eapply failed_apart; [done|done|]. apply Hap. left.
  - intros i' Hd. by apply rp_dead0, Hstay.
Qed.

(** ** The whole run *)

(** The jobs a [Reap] with a limit that covers them all reports. *)
Definition losses (env : Env) (limit : Z) (db : DB) : list uuid :=
  take (Z.to_nat limit) (merge_sort (by_key (λ r : uuid * Lease, expires_at r.2)) (select (expired env db) (leases db))).*1.

Definition covers (env : Env) (limit : Z) (db : DB) : Prop :=
  (length (select (expired env db) (leases db)) ≤ Z.to_nat limit)%nat.

Lemma losses_spec env limit db :
  covers env limit db → losses env limit db ≡ₚ (select (expired env db) (leases db)).*1 ∧
  ∀ i, i ∈ losses env limit db ↔ ∃ l, leases db !! i = Some l ∧ expired env db i l = true.
Proof.
  intros Hlim. assert (losses env limit db ≡ₚ (select (expired env db) (leases db)).*1) as Hperm.
  { unfold losses. rewrite take_ge by (rewrite length_fmap, merge_sort_Permutation; done).
    by rewrite merge_sort_Permutation. }
  split; [done|]. intros i. rewrite Hperm. apply elem_of_select_fst.
Qed.

Lemma reap_runs env limit db :
  ready env db → policed db → covers env limit db →
  answer (Reap limit) (start db (quiet env)) = inr (Z.of_nat (length (select (expired env db) (leases db)))) ∧
  reaped env (losses env limit db) db (final_db (Reap limit) (start db (quiet env))).
Proof.
  intros Hrd Hpol [Hperm Hids]%losses_spec.
  destruct (reap_loop env (losses env limit db) db 0 1) as (db' & k' & Hrun & Hre); [|done|done| |].
  { rewrite Hperm. apply NoDup_select. }
  { intros i (l & _ & He)%Hids. unfold expired in He. apply andb_true_iff in He as [He _].
    destruct (jobs db !! i) as [j|] eqn:Hj; [|done]. by exists j. }
  assert (Reap limit (start db (quiet env)) =
    (inr (Z.of_nat (length (select (expired env db) (leases db)))), mkWorld db' None (quiet env) k')) as Heq.
  { assert (length (select (expired env db) (leases db)) = length (losses env limit db)) as ->
      by (by rewrite Hperm, length_fmap). exact Hrun. }
  unfold answer, final_db. by rewrite Heq.
Qed.

(** ** Theorem *)

(** No job is left with a worker that died.  One [Reap] whose
    limit covers the expired leases, its calls answered and nobody else at work,
    reports every job whose lease has expired as lost - its answer is their
    number - and afterwards no claimed or running job has an expired lease. *)
Theorem reap_clears_expired env db limit :
  ready env db → policed db →
  covers env limit db →
  answer (Reap limit) (start db (quiet env)) =
    inr (Z.of_nat (length (select (expired env db) (leases db)))) ∧
  (∀ i l, leases (final_db (Reap limit) (start db (quiet env))) !! i = Some l →
     expired env (final_db (Reap limit) (start db (quiet env))) i l = false).
Proof.
  intros Hrd Hpol Hlim. destruct (reap_runs env limit db Hrd Hpol Hlim) as [Ha [_ Hdone Hkeep Hact _ _ _]].
  destruct (losses_spec env limit db Hlim) as [_ Hids]. split; [done|]. intros i l Hl.
  destruct (decide (i ∈ losses env limit db)) as [Hi|Hi]; [rewrite (Hdone i Hi) in Hl; done|].
  apply not_true_iff_false. intros He. apply Hi, Hids. exists l. split; [by rewrite <- Hkeep|].
  unfold expired in *. apply andb_true_iff in He as [He Ht]. rewrite Ht, andb_true_r.
  destruct (jobs _ !! i) as [j|] eqn:Hj in He; [|done]. by rewrite (Hact i j Hi Hj).
Qed.

(** [policed] is decided by going through the tables. *)
Definition check_policed (db : DB) : bool :=
  forallb (λ r : uuid * Job, bool_decide (is_Some (policies db !! retry_policy_id r.2))) (map_to_list (jobs db)).

Lemma check_policed_spec db : check_policed db = true → policed db.
Proof.
  unfold check_policed. rewrite forallb_forall. intros Hall i j Hi%elem_of_map_to_list%list_elem_of_In%Hall.
  by apply bool_decide_eq_true in Hi.
Qed.

(** Fifty seconds later the lease of job 14 has expired. *)
Lemma reap_clears_expired_witness :
  answer (Reap 10) (w_at 50000000) = inr 1 ∧
  ∀ i l, leases (final_db (Reap 10) (w_at 50000000)) !! i = Some l →
    expired (later 50000000) (final_db (Reap 10) (w_at 50000000)) i l = false.
Proof.
  apply (reap_clears_expired (later 50000000) db0 10).
  - by apply check_ready_spec.
  - by apply check_policed_spec.
  - vm_compute. lia.
Defined.
