(* ===== verification/Batch.v ===== *)
(** * Completing in batches

    [fl.report_success_batch], which the worker's completion loop calls, against
    one [fl.report_success] per job. *)

From S2P Require Import Prelude Schema Fl Pool Jobs Sched Slots Reports Progress Reaping Fixture.

(** ** The reference: one report after the other *)

Fixpoint singles (env : Env) (input : list (uuid * Z * uuid)) : sql (list uuid) :=
  match input with
  | [] => mret []
  | (i, f, x) :: rest =>
    q ← report_success env i f x;
    r ← singles env rest;
    mret (match q with Some _ => i :: r | None => r end)
  end.

(** ** What either does to the tables, as functions *)

Lemma owns_not_running f j : status j ≠ js_running → owns_running f j = false.
Proof. intros Hs. unfold owns_running. by rewrite (bool_decide_eq_false_2 _ Hs), andb_false_r. Qed.

Section pure.
Context (env : Env) (d : gset (uuid * uuid)).
Implicit Types (m : gmap uuid Job) (p i : uuid).

(** The children of [p] counted down. *)
Definition fin m p : gmap uuid Job := rewritten (waits_for d p) (dependent_row env) m.

(** The input rows that own their job, and [jobs] once those are completed. *)
Fixpoint accept (input : list (uuid * Z * uuid)) m : list (uuid * uuid) * gmap uuid Job :=
  match input with
  | [] => ([], m)
  | (i, f, x) :: rest =>
    match m !! i with
    | Some j =>
      if owns_running f j
      then let '(r, m') := accept rest (<[i := completed_row env j]> m) in ((i, x) :: r, m')
      else accept rest m
    | None => accept rest m
    end
  end.

Lemma fin_running m p i j :
  m !! i = Some j → status j ≠ js_scheduled → fin m p !! i = Some j.
Proof.
  intros Hi Hs. unfold fin. rewrite lookup_rewritten, Hi. simpl. unfold waits_for.
  by rewrite (bool_decide_eq_false_2 (status j = js_scheduled)), andb_false_r.
Qed.

Lemma owns_fin m p i f :
  (j ← fin m p !! i; if owns_running f j then Some j else None) =
  (j ← m !! i; if owns_running f j then Some j else None).
Proof.
  unfold fin. rewrite lookup_rewritten. destruct (m !! i) as [j|]; [|done]. simpl.
  destruct (waits_for d p i j) eqn:Hw; [|done]. unfold waits_for in Hw.
  apply andb_true_iff in Hw as [[_ Hs%bool_decide_eq_true]%andb_true_iff _].
  rewrite (owns_not_running f j), (owns_not_running f (dependent_row env j)); [done| |congruence].
  simpl. rewrite Hs. by destruct (_ && _).
Qed.

Lemma fin_insert m p i j :
  status j ≠ js_scheduled → fin (<[i := j]> m) p = <[i := j]> (fin m p).
Proof.
  intros Hs. apply map_eq. intros k. destruct (decide (k = i)) as [->|Hne].
  - rewrite lookup_insert_eq. apply fin_running; [apply lookup_insert_eq|done].
  - unfold fin. by rewrite lookup_insert_ne, !lookup_rewritten, lookup_insert_ne.
Qed.

(** Counting children down does not change which reports are accepted. *)
Lemma accept_fin input m p :
  accept input (fin m p) = ((accept input m).1, fin (accept input m).2 p).
Proof.
  revert m. induction input as [|[[i f] x] rest IH]; intros m; [done|]. simpl.
  pose proof (owns_fin m p i f) as Ho.
  destruct (m !! i) as [j|] eqn:Hi.
  - simpl in Ho. destruct (owns_running f j) eqn:Hown.
    + destruct (fin m p !! i) as [j'|]; [|done]. simpl in Ho.
      destruct (owns_running f j') eqn:Hown'; [|done]. injection Ho as ->.
      rewrite <- fin_insert, IH by done. by destruct (accept rest (<[i := completed_row env j]> m)).
    + destruct (fin m p !! i) as [j'|]; [|apply IH]. simpl in Ho. destruct (owns_running f j'); [done|apply IH].
  - destruct (fin m p !! i) as [j'|]; [|apply IH]. simpl in Ho. destruct (owns_running f j'); [done|apply IH].
Qed.

(** The order in which children are counted down does not matter. *)
Lemma dependent_comm p q i j :
  (if waits_for d q i (if waits_for d p i j then dependent_row env j else j)
   then dependent_row env (if waits_for d p i j then dependent_row env j else j)
   else if waits_for d p i j then dependent_row env j else j) =
  (if waits_for d p i (if waits_for d q i j then dependent_row env j else j)
   then dependent_row env (if waits_for d q i j then dependent_row env j else j)
   else if waits_for d q i j then dependent_row env j else j).
Proof.
  unfold waits_for. destruct (bool_decide ((p, i) ∈ d)), (bool_decide ((q, i) ∈ d)); simpl; done.
Qed.

Lemma fin_comm m p q : fin (fin m p) q = fin (fin m q) p.
Proof.
  apply map_eq. intros i. unfold fin. rewrite !lookup_rewritten.
  destruct (m !! i) as [j|]; [|done]. simpl. f_equal. apply dependent_comm.
Qed.

Lemma foldl_fin_comm l m p : foldl fin (fin m p) l = fin (foldl fin m l) p.
Proof. revert m. induction l as [|q l IH]; intros m; [done|]. simpl. by rewrite fin_comm, IH. Qed.

Lemma foldl_fin_perm l l' m : l ≡ₚ l' → foldl fin m l = foldl fin m l'.
Proof.
  intros Hp. revert m. induction Hp as [|p l l' _ IH|p q l|l1 l2 l3 _ IH1 _ IH2]; intros m; simpl; auto.
  - by rewrite fin_comm.
  - by rewrite IH1.
Qed.

End pure.

(** ** Both succeed on a database that is ready *)

Definition rows_fit (env : Env) (m : gmap uuid Job) : Prop := ∀ i j, m !! i = Some j → fit env j.

Lemma owns_running_status f j : owns_running f j = true → fence j = f ∧ status j = js_running.
Proof. unfold owns_running. rewrite andb_true_iff, bool_decide_eq_true. intros [? ?]. split; [lia|done]. Qed.

Lemma fit_completed env m i j :
  rows_fit env m → m !! i = Some j → status j = js_running → rows_fit env (<[i := completed_row env j]> m).
Proof.
  intros Hm Hi Hs k c. rewrite lookup_insert. case_decide; [|apply Hm]. intros [= <-].
  apply fit_written; [eauto|by apply completed_writable; eauto|done].
Qed.

Lemma fit_fin env d m p : rows_fit env m → rows_fit env (fin env d m p).
Proof.
  intros Hm i j. unfold fin. rewrite lookup_rewritten. destruct (m !! i) as [c|] eqn:Hc; [|done].
  intros [= <-]. destruct (waits_for d p i c) eqn:Hw; [|eauto]. unfold waits_for in Hw.
  rewrite !andb_true_iff, !bool_decide_eq_true in Hw. destruct Hw as [[_ Hs] Hp].
  apply fit_written; [eauto|apply dependent_writable; [eauto|done|lia]|done].
Qed.

Lemma batch_update_ok env input db :
  rows_fit env (jobs db) →
  batch_update env input db =
    inr ((accept env input (jobs db)).1, db <| jobs := (accept env input (jobs db)).2 |>) ∧
  rows_fit env (accept env input (jobs db)).2.
Proof.
  revert db. induction input as [|[[i f] x] rest IH]; intros db Hfit; simpl.
  { split; [|done]. by destruct db. }
  unfold gets. unfold mbind at 1, tx_bind at 1. destruct (jobs db !! i) as [j|] eqn:Hi; simpl; [|by apply IH].
  destruct (owns_running f j) eqn:Hown; [|by apply IH]. apply owns_running_status in Hown as [_ Hs].
  unfold mbind at 1, tx_bind at 1.
  rewrite (update_job_ok i _ db j Hi) by (apply completed_writable; eauto).
  destruct (IH (db <| jobs := <[i := completed_row env j]> (jobs db) |>)) as [Hrun Hfit'];
    [by apply fit_completed|]. simpl in *.
  unfold mbind, tx_bind. rewrite Hrun. destruct (accept env rest _). split; [by destruct db|done].
Qed.

Lemma traverse_fin_ok env l db :
  rows_fit env (jobs db) →
  ∃ woke, traverse l (finish_dependents env) db =
    inr (woke, db <| jobs := foldl (fin env (deps db)) (jobs db) l |>).
Proof.
  revert db. induction l as [|p l IH]; intros db Hfit; simpl; [exists []; by destruct db|].
  unfold mbind at 1, tx_bind at 1. rewrite finish_dependents_ok by done.
  destruct (IH (db <| jobs := fin env (deps db) (jobs db) p |>)) as [woke Hrun]; [by apply fit_fin|].
  unfold mbind, tx_bind. unfold fin at 1 in Hrun. rewrite Hrun. eexists. by destruct db.
Qed.

(** A loop of steps that neither fail nor touch what [g] reads. *)
Lemma foreach_frame {B T} (g : DB → T) (l : list B) (f : B → sql unit) db :
  (∀ b db, ∃ db', f b db = inr (tt, db') ∧ g db' = g db) →
  ∃ db', foreach l f db = inr (tt, db') ∧ g db' = g db.
Proof.
  intros Hf. revert db. induction l as [|b l IH]; intros db; simpl; [by eexists|].
  destruct (Hf b db) as (db1 & Hb & Hg). unfold mbind, tx_bind. rewrite Hb.
  destruct (IH db1) as (db2 & H2 & Hg2). exists db2. split; [done|]. congruence.
Qed.

(** The tables the two ways of reporting are compared on. *)
Definition tables (db : DB) := (jobs db, leases db, execs db).

Lemma emit_each_tables env t pl ids k db :
  ∃ db', emit_each env t pl ids k db = inr (tt, db') ∧ tables db' = tables db.
Proof.
  destruct (emit_each_ok env t pl ids k db) as [db' Hdb']. exists db'. split; [done|].
  by destruct (emit_each_inv _ _ _ _ _ _ _ Hdb') as (s & ev & ->).
Qed.

Lemma drop_leases ids db :
  foreach ids drop_lease db = inr (tt, db <| leases := foldl (λ l i, delete i l) (leases db) ids |>).
Proof.
  revert db. induction ids as [|i ids IH]; intros db; simpl; [by destruct db|].
  unfold mbind, tx_bind, drop_lease at 1, modify. rewrite IH. by destruct db.
Qed.

Definition closes (xs : list uuid) (i : uuid) (x : Exec) : bool := bool_decide (i ∈ xs) && exec_open x.

Lemma batch_ok env input db :
  ready env db →
  let '(done_, m) := accept env input (jobs db) in
  ∃ db', report_success_batch env input db = inr (done_.*1, db') ∧
    tables db' = (foldl (fin env (deps db)) m (merge_sort id_le done_.*1),
                  foldl (λ l i, delete i l) (leases db) done_.*1,
                  execs_after (closes done_.*2) (finish_row env xo_success) (execs db)).
Proof.
  intros [Hjobs Hex]. destruct (batch_update_ok env input db Hjobs) as [Hrun Hfit].
  destruct (accept env input (jobs db)) as [done_ m] eqn:Hacc. simpl in *.
  unfold report_success_batch. unfold mbind at 1, tx_bind at 1. rewrite Hrun.
  destruct done_.*1 as [|i0 ids0] eqn:Hids.
  { apply fmap_nil_inv in Hids. subst done_. eexists. split; [done|]. unfold tables. simpl. do 2 f_equal.
    apply map_eq. intros i. rewrite lookup_execs_after. by destruct (execs db !! i). }
  rewrite <- Hids. set (ids := done_.*1) in *. clear i0 ids0 Hids.
  unfold mbind at 1, tx_bind at 1.
  destruct (traverse_fin_ok env (merge_sort id_le ids) (db <| jobs := m |>)) as [woke Hw]; [exact Hfit|].
  rewrite Hw. simpl.
  unfold mbind at 1, tx_bind at 1.
  rewrite update_execs_ok by (intros i x Hi [_ Ho]%andb_true_iff; apply finish_checks; eauto).
  fold (closes done_.*2). unfold mbind at 1, tx_bind at 1. rewrite drop_leases. simpl.
  unfold gets. unfold mbind at 1, tx_bind at 1. unfold mbind at 1, tx_bind at 1.
  match goal with |- context [foreach ?l (λ t, add_stat _ _ _ _ _ _) ?d] =>
    destruct (foreach_frame tables l (λ t : uuid * Z * Z, add_stat env t.1.1 t.1.2 0 0 t.2) d) as (db1 & -> & Ht1);
      [by eexists|] end.
  unfold mbind at 1, tx_bind at 1. unfold mbind at 1, tx_bind at 1.
  match goal with |- context [foreach ?l (λ t, queue_release _ _ _) ?d] =>
    destruct (foreach_frame tables l (λ t : uuid * Z * Z, queue_release t.1.1 t.1.2 t.2) d) as (db2 & -> & Ht2);
      [by eexists|] end.
  unfold mbind at 1, tx_bind at 1.
  match goal with |- context [emit_each ?e ?t ?p ?l ?k ?d] =>
    destruct (emit_each_tables e t p l k d) as (db3 & -> & Ht3) end.
  unfold mbind at 1, tx_bind at 1.
  match goal with |- context [emit_each ?e ?t ?p ?l ?k ?d] =>
    destruct (emit_each_tables e t p l k d) as (db4 & -> & Ht4) end.
  exists db4. split; [done|]. by rewrite Ht4, Ht3, Ht2, Ht1.
Qed.

Lemma succeeded_jobs env i x db j db' :
  jobs db !! i = Some j → succeeded env i x db j db' →
  jobs db' = fin env (deps db) (<[i := completed_row env j]> (jobs db)) i.
Proof.
  intros Hi []. apply map_eq. intros k. destruct (decide (k = i)) as [->|Hne].
  - rewrite su_job. symmetry. apply fin_running; [apply lookup_insert_eq|done].
  - unfold fin. rewrite lookup_rewritten, lookup_insert_ne by done.
    destruct (jobs db !! k) as [c|] eqn:Hc; [by rewrite (su_children k c)|]. by rewrite su_absent.
Qed.

Lemma succeeded_ready env i x db j db' :
  ready env db → jobs db !! i = Some j → status j = js_running → succeeded env i x db j db' → ready env db'.
Proof.
  intros [Hjobs Hex] Hi Hs Hsu. split.
  - rewrite (succeeded_jobs _ _ _ _ _ _ Hi Hsu). apply fit_fin. by apply fit_completed.
  - destruct Hsu. intros k y. rewrite su_execs, lookup_execs_after.
    destruct (execs db !! k) as [z|] eqn:Hz; [|done]. intros [= <-].
    destruct (open_exec_is x k z); [done|]. eauto.
Qed.

(** A report that is not the owner's. *)
Lemma report_success_refused env i f x db :
  (j ← jobs db !! i; if owns_running f j then Some j else None) = None →
  report_success env i f x db = inr (None, db).
Proof.
  intros H. unfold report_success, gets, mbind, tx_bind. destruct (jobs db !! i) as [j|]; [|done].
  simpl in H. by destruct (owns_running f j).
Qed.

Lemma singles_ok env input db :
  ready env db →
  let '(done_, m) := accept env input (jobs db) in
  ∃ db', singles env input db = inr (done_.*1, db') ∧
    tables db' = (foldl (fin env (deps db)) m done_.*1,
                  foldl (λ l i, delete i l) (leases db) done_.*1,
                  foldl (λ xs x, execs_after (open_exec_is x) (finish_row env xo_success) xs) (execs db) done_.*2).
Proof.
  revert db. induction input as [|[[i f] x] rest IH]; intros db Hrd; simpl; [by eexists|].
  assert ((j ← jobs db !! i; if owns_running f j then Some j else None) = None →
    let '(done_, m) := accept env rest (jobs db) in
    ∃ db', (q ← report_success env i f x; r ← singles env rest;
            mret (match q with Some _ => i :: r | None => r end)) db = inr (done_.*1, db') ∧
      tables db' = (foldl (fin env (deps db)) m done_.*1, foldl (λ l i, delete i l) (leases db) done_.*1,
        foldl (λ xs x, execs_after (open_exec_is x) (finish_row env xo_success) xs) (execs db) done_.*2)) as Hskip.
  { intros Hno. specialize (IH db Hrd). destruct (accept env rest (jobs db)) as [done_ m].
    destruct IH as (db' & Hrun & Ht). exists db'. split; [|done].
    unfold mbind at 1, tx_bind at 1. rewrite report_success_refused by done. unfold mbind, tx_bind. by rewrite Hrun. }
  destruct (jobs db !! i) as [j|] eqn:Hi; [|by apply Hskip]. simpl in Hskip.
  destruct (owns_running f j) eqn:Hown; [|by apply Hskip]. clear Hskip.
  apply owns_running_status in Hown as [<- Hs].
  destruct (report_success_runs env i x db j Hrd Hi Hs) as [db1 H1].
  destruct (report_success_inv _ _ _ _ _ _ _ H1) as [[? _]|(j' & Hj' & _ & _ & Hsu)]; [done|].
  rewrite Hi in Hj'. injection Hj' as <-.
  pose proof (succeeded_jobs _ _ _ _ _ _ Hi Hsu) as Hm. pose proof (succeeded_ready _ _ _ _ _ _ Hrd Hi Hs Hsu) as Hrd1.
  specialize (IH db1 Hrd1). rewrite Hm, accept_fin in IH.
  destruct (accept env rest (<[i := completed_row env j]> (jobs db))) as [done_ m]. simpl in IH.
  destruct IH as (db' & Hrun & Ht). exists db'. split.
  - unfold mbind at 1, tx_bind at 1. rewrite H1. unfold mbind, tx_bind. by rewrite Hrun.
  - rewrite Ht. destruct Hsu. rewrite su_lease, su_execs. simpl. by rewrite su_rest.
Qed.

Lemma execs_closed_together env xs m :
  foldl (λ m x, execs_after (open_exec_is x) (finish_row env xo_success) m) m xs =
  execs_after (closes xs) (finish_row env xo_success) m.
Proof.
  revert m. induction xs as [|x xs IH]; intros m; simpl.
  { apply map_eq. intros i. rewrite lookup_execs_after. by destruct (m !! i). }
  rewrite IH. apply map_eq. intros i. rewrite !lookup_execs_after. destruct (m !! i) as [y|]; [|done].
  simpl. f_equal. unfold open_exec_is, closes. destruct (decide (i = x)) as [->|Hne].
  - rewrite !(bool_decide_eq_true_2 (x = x)), (bool_decide_eq_true_2 (x ∈ x :: xs)) by (try done; left). simpl.
    destruct (exec_open y) eqn:Ho; simpl.
    + by rewrite andb_false_r.
    + by rewrite Ho, andb_false_r.
  - rewrite (bool_decide_eq_false_2 (i = x)) by done. simpl.
    rewrite (bool_decide_ext (i ∈ x :: xs) (i ∈ xs)); [done|]. rewrite elem_of_cons. tauto.
Qed.

(** ** Theorem *)

(** C18 (equivalence): completing in batches is completing one by one.  On a
    database whose rows satisfy the constraints, [fl.report_success_batch] and
    one [fl.report_success] after the other both go through, accept the same
    jobs - also when the batch names a job twice, or under a fence that is gone -
    and leave the same jobs, leases and executions, the jobs that wait for
    several of them included. *)
Theorem batch_is_singles env input db :
  ready env db →
  ∃ done_ db1 db2,
    report_success_batch env input db = inr (done_, db1) ∧
    singles env input db = inr (done_, db2) ∧
    jobs db1 = jobs db2 ∧ leases db1 = leases db2 ∧ execs db1 = execs db2.
Proof.
  intros Hrd. pose proof (batch_ok env input db Hrd) as Hb. pose proof (singles_ok env input db Hrd) as Hs.
  destruct (accept env input (jobs db)) as [done_ m].
  destruct Hb as (db1 & H1 & [= Hj1 Hl1 Hx1]), Hs as (db2 & H2 & [= Hj2 Hl2 Hx2]).
  exists done_.*1, db1, db2. split_and!; [done|done| |congruence|].
  - rewrite Hj1, Hj2. apply foldl_fin_perm, merge_sort_Permutation.
  - rewrite Hx1, Hx2. by rewrite execs_closed_together.
Qed.

(** Job 14 twice, and once under a fence that is gone. *)
Lemma batch_is_singles_witness :
  ∃ db1 db2,
    report_success_batch env0 [(14%N, 1, 20%N); (14%N, 2, 20%N); (14%N, 2, 20%N)] db0 = inr ([14%N], db1) ∧
    singles env0 [(14%N, 1, 20%N); (14%N, 2, 20%N); (14%N, 2, 20%N)] db0 = inr ([14%N], db2) ∧
    jobs db1 = jobs db2.
Proof.
  destruct (batch_is_singles env0 [(14%N, 1, 20%N); (14%N, 2, 20%N); (14%N, 2, 20%N)] db0)
    as (done_ & db1 & db2 & H1 & H2 & Hj & _ & _); [by apply check_ready_spec|].
  assert (done_ = [14%N]) as -> by (vm_compute in H1; by injection H1 as <- _).
  exists db1, db2. by split_and!.
Defined.
