(* ===== verification/Workers.v ===== *)
(** * The worker

    How many jobs it takes on, how often it repeats a report, and that its
    completion loop hands every finished job to a flush. *)

From S2P Require Import Prelude Schema Fl Pool Jobs Sched Worker Slots Claims Admission Fixture.

(** ** Claiming no more than asked for *)

Lemma claim_length q n worker lease ts sh env db out db' :
  claimSQL q n worker lease ts sh env db = inr (out, db') → 0 ≤ n → Z.of_nat (length out) ≤ n.
Proof.
  intros [-> _]%claimSQL_spec Hn. rewrite length_fmap.
  destruct (candidates_spec env q n ts db) as (_ & _ & Hlen). lia.
Qed.

Lemma take_jobs_length req sh n w l w' :
  take_jobs req sh n w = (inr l, w') → 0 ≤ n → Z.of_nat (length l) ≤ n.
Proof.
  unfold take_jobs. intros [(e & [=] & _)|(w1 & w2 & _ & _ & _ & _ & Hb & _)]%with_tx_inv Hn.
  apply go_bind_inv in Hb as [(e & _ & [=])|(out & w3 & Hx & Hb)].
  apply go_bind_inv in Hb as [(e & _ & [=])|(? & w4 & _ & Hb)].
  apply go_bind_inv in Hb as [(e & _ & [=])|(? & w5 & _ & [= <- _])].
  unfold tx_exec in Hx. destruct (c_fault (this_call w1)); try discriminate.
  destruct (claimSQL _ _ _ _ _ _ _ _) as [|[out' db']] eqn:Hc; [discriminate|].
  injection Hx as <- _. by eapply claim_length.
Qed.

Lemma claim_length_le req w l :
  1 ≤ FreeSlots req → answer (Claim req) w = inr l → Z.of_nat (length l) ≤ FreeSlots req.
Proof.
  intros Hfree. unfold answer. destruct (Claim req w) as [r w'] eqn:Hrun. simpl. intros ->.
  apply go_bind_inv in Hrun as [(e & _ & [=])|([n sh] & w1 & Hadm & Hrun)].
  assert (0 ≤ n ≤ FreeSlots req) as [Hn0 Hn].
  { unfold admit_slots, pool_exec in Hadm. destruct (c_fault (this_call w)); [| |];
      try (destruct (queue_admit _ _ _ _) as [|[[n' sh'] db']] eqn:Had); try discriminate.
    injection Hadm as -> -> _. apply queue_admit_inv in Had as [[-> _]|(qr & qr' & sr & [])]; [lia|].
    destruct (is_closed qr); lia. }
  destruct (n =? 0); [injection Hrun as <- _; simpl; lia|].
  apply go_bind_inv in Hrun as [(e & _ & [=])|(out & w2 & Hc & Hrun)].
  unfold caught in Hc. destruct (take_jobs req sh n w1) as [r2 w3] eqn:Ht. injection Hc as <- <-.
  destruct r2 as [e|l'].
  - by apply go_bind_inv in Hrun as [(e' & _ & [=])|(x & w4 & _ & [=])].
  - injection Hrun as <- _. apply take_jobs_length in Ht; lia.
Qed.

(** ** Reports, up to three times *)

(** [m] run [k] times from [w], each answer but the last one transient; the last
    answer and the world after it. *)
Inductive tries {A} (m : go A) : nat → World → err + A → World → Prop :=
  | tries_one w r w' : m w = (r, w') → tries m 1 w r w'
  | tries_more k w e w1 r w' :
      m w = (inl e, w1) → settled (inl e : err + A) = false → tries m k w1 r w' →
      tries m (S k) w r w'.

Lemma attempts_tries {A} n live (m : go A) w :
  (0 < n)%nat →
  ∃ k r w', (1 ≤ k ≤ n)%nat ∧ attempts n live m w = (inr r, w') ∧ tries m k w r w' ∧
    (settled r = true ∨ k = n ∨ live (n - k)%nat = false).
Proof.
  revert w. induction n as [|n IH]; intros w Hn; [lia|]. simpl.
  unfold mbind, go_bind, caught. destruct (m w) as [r w1] eqn:Hm.
  destruct (settled r || negb (live n) || bool_decide (n = 0%nat)) eqn:Hstop.
  - exists 1%nat, r, w1. split; [lia|]. split; [done|]. split; [by constructor|].
    apply orb_true_iff in Hstop as [[Hs|Hs]%orb_true_iff|Hs].
    + by left.
    + right. right. replace (S n - 1)%nat with n by lia. by apply negb_true_iff.
    + right. left. apply bool_decide_eq_true in Hs. by subst.
  - apply orb_false_iff in Hstop as [[Hs Hl]%orb_false_iff Hz%bool_decide_eq_false].
    destruct (IH w1) as (k & r' & w' & Hk & Hrun & Htr & Hend); [lia|].
    exists (S k), r', w'. split; [lia|]. split; [done|]. split.
    + destruct r as [e|a]; [|done]. by eapply tries_more.
    + replace (S n - S k)%nat with (n - k)%nat by lia. intuition.
Qed.

(** ** The completion loop *)

(** The buffers the loop hands to [flush], one after the other. *)
Fixpoint flushed (batch : Z) (buf : list finished) (l : list cevent) : list (list finished) :=
  match l with
  | [] => []
  | e :: l' =>
    let '(out, buf', more) := complete_turn batch buf e in
    out ++ (if more then flushed batch buf' l' else [])
  end.

Definition received (l : list cevent) : list finished :=
  omap (λ e, match e with Recv f => Some f | _ => None end) l.

Lemma flush_all_app cfg live bs bs' w :
  flush_all cfg live (bs ++ bs') w = (_ ← flush_all cfg live bs; flush_all cfg live bs') w.
Proof.
  revert w. induction bs as [|b bs IH]; intros w; [done|]. simpl. unfold mbind, go_bind.
  destruct (flush cfg live b w) as [[e|[]] w1]; [done|]. apply IH.
Qed.

Lemma go_bind_ext {A B} (m : go A) (f g : A → go B) w :
  (∀ a w', f a w' = g a w') → (m ≫= f) w = (m ≫= g) w.
Proof. intros H. unfold mbind, go_bind. destruct (m w) as [[e|a] w']; [done|apply H]. Qed.

Lemma completeLoop_flushes cfg live buf l w :
  completeLoop cfg live buf l w = flush_all cfg live (flushed (cf_CompleteBatch cfg) buf l) w.
Proof.
  revert buf w. induction l as [|e l IH]; intros buf w; [done|]. cbn [completeLoop flushed].
  destruct (complete_turn (cf_CompleteBatch cfg) buf e) as [[out buf'] more].
  rewrite flush_all_app. apply (go_bind_ext (flush_all cfg live out)).
  intros [] w1. destruct more; [apply IH|done].
Qed.

Definition is_closed_event (e : cevent) : bool := match e with Closed => true | _ => false end.

Lemma flushed_all batch buf l :
  forallb (λ e, negb (is_closed_event e)) l = true →
  concat (flushed batch buf (l ++ [Closed])) = buf ++ received l.
Proof.
  revert buf. induction l as [|e l IH]; intros buf; simpl.
  { intros _. by rewrite !app_nil_r. }
  intros [He Hl]%andb_true_iff. destruct e as [f| |]; simpl; [|by rewrite IH|done].
  destruct (batch <=? _); simpl; rewrite IH by done; simpl; by rewrite <- app_assoc.
Qed.

Lemma flushed_size batch buf l b :
  1 ≤ batch → Z.of_nat (length buf) < batch →
  b ∈ flushed batch buf l → Z.of_nat (length b) ≤ batch.
Proof.
  intros Hb. revert buf. induction l as [|e l IH]; intros buf Hbuf; simpl; [by intros ?%elem_of_nil|].
  destruct e as [f| |]; simpl.
  - rewrite length_app. simpl. destruct (batch <=? _) eqn:Hfull; simpl.
    + rewrite elem_of_cons. intros [->|Hin]; [rewrite length_app; simpl; lia|]. eapply IH; [|exact Hin]. simpl. lia.
    + apply Z.leb_gt in Hfull. apply IH. rewrite length_app. simpl. lia.
  - rewrite elem_of_cons. intros [->|Hin]; [lia|]. eapply IH; [|exact Hin]. simpl. lia.
  - rewrite list_elem_of_singleton. intros ->. lia.
Qed.

(** ** The jobs of a run *)

Definition claimed_in (tr : list wlabel) : list Claimed :=
  tr ≫= λ a, match a with Claims l => l | _ => [] end.
Definition ended_in (tr : list wlabel) : list Claimed :=
  tr ≫= λ a, match a with Ends c _ => [c] | _ => [] end.
Definition finished_in (tr : list wlabel) : list finished :=
  tr ≫= λ a, match a with Ends _ o => option_list o | _ => [] end.
Definition flushed_in (tr : list wlabel) : list (list finished) :=
  tr ≫= λ a, match a with Flushes bs => bs | _ => [] end.

(** The phases without goroutines, and those without a completion to flush. *)
Definition idle (p : phase) : bool := match p with Claiming | Draining => false | _ => true end.
Definition settled_phase (p : phase) : bool := negb (completing p).

(** What holds after every step of [Run]. *)
Record run_inv (cfg : Config) (tr : list wlabel) (s : WState) : Prop := {
  ri_active : active s ≤ Concurrency cfg;
  ri_claimed : claimed_in tr ≡ₚ ended_in tr ++ running s;
  ri_finished : finished_in tr ≡ₚ concat (flushed_in tr) ++ cbuf s ++ channel s ++ sending s;
  ri_room : Z.of_nat (length (cbuf s)) < cf_CompleteBatch cfg;
  ri_sizes : Forall (λ b, Z.of_nat (length b) ≤ cf_CompleteBatch cfg) (flushed_in tr);
  ri_idle : idle (w_phase s) = true → running s = [] ∧ sending s = [];
  ri_done : settled_phase (w_phase s) = true → channel s = [] ∧ cbuf s = [];
}.

Lemma complete_turn_inv batch buf e out buf' more :
  complete_turn batch buf e = (out, buf', more) →
  1 ≤ batch → Z.of_nat (length buf) < batch →
  buf ++ received [e] = concat out ++ buf' ∧ Z.of_nat (length buf') < batch ∧
  Forall (λ b, Z.of_nat (length b) ≤ batch) out ∧ (is_closed_event e = true → buf' = []).
Proof.
  intros H Hb Hbuf. destruct e as [f| |]; simpl in H;
    [destruct (batch <=? _) eqn:Hf|..]; injection H as <- <- _; simpl;
    rewrite ?length_app in *; simpl in *; rewrite ?app_nil_r; split_and!; try done; try lia.
  2: by apply Z.leb_gt in Hf.
  all: repeat constructor; rewrite ?length_app; simpl; lia.
Qed.

Lemma snoc_in {A} (f : wlabel → list A) tr a : (tr ++ [a]) ≫= f = (tr ≫= f) ++ f a.
Proof. rewrite bind_app. simpl. by rewrite app_nil_r. Qed.

(** A step that hands buffers to [flush]. *)
Lemma run_inv_flush cfg tr s e out buf more p ch :
  1 ≤ cf_CompleteBatch cfg → run_inv cfg tr s →
  complete_turn (cf_CompleteBatch cfg) (cbuf s) e = (out, buf, more) →
  channel s = received [e] ++ ch →
  (p = w_phase s ∨ (is_closed_event e = true ∧ ch = [] ∧ w_phase s = Flushing)) →
  (completing (w_phase s) = true) →
  run_inv cfg (tr ++ [Flushes out]) (s <| w_phase := p |> <| channel := ch |> <| cbuf := buf |>).
Proof.
  intros Hb [Ha Hc Hf Hr Hs Hi Hd] Ht Hch Hp Hcomp.
  destruct (complete_turn_inv _ _ _ _ _ _ Ht Hb Hr) as (Hbuf & Hlen & Hsz & Hcl).
  split; unfold claimed_in, ended_in, finished_in, flushed_in in *; rewrite ?snoc_in; simpl.
  - done.
  - by rewrite !app_nil_r.
  - rewrite app_nil_r, concat_app, Hf, Hch.
    rewrite (assoc_L _ (cbuf s)), (assoc_L _ (cbuf s)), Hbuf. by rewrite !(assoc_L (++)).
  - done.
  - by apply Forall_app.
  - destruct Hp as [->|(_ & _ & Hfl)]; [done|]. intros _. apply Hi. by rewrite Hfl.
  - destruct Hp as [->|(He & -> & _)]; [|by rewrite (Hcl He)].
    unfold settled_phase. by rewrite Hcomp.
Qed.

(** A step that moves no job. *)
Lemma run_inv_quiet cfg tr s s' :
  run_inv cfg tr s →
  running s' = running s → sending s' = sending s → channel s' = channel s → cbuf s' = cbuf s →
  (idle (w_phase s') = true → idle (w_phase s) = true ∨ (running s = [] ∧ sending s = [])) →
  (settled_phase (w_phase s') = true → settled_phase (w_phase s) = true) →
  run_inv cfg (tr ++ [Quiet]) s'.
Proof.
  intros [Ha Hc Hf Hr Hs Hi Hd] E1 E2 E3 E4 Hi' Hd'.
  split; unfold active, claimed_in, ended_in, finished_in, flushed_in in *;
    rewrite ?snoc_in, ?app_nil_r, ?E1, ?E2, ?E3, ?E4; try done.
  - intros [?|?]%Hi'; auto.
  - intros ?%Hd'. auto.
Qed.

Lemma run_inv_claim cfg hs tr s w :
  0 < Concurrency cfg - active s → w_phase s = Claiming → run_inv cfg tr s →
  let l := or_nil (answer (Claim (run_request cfg hs s)) w) in
  run_inv cfg (tr ++ [Claims l]) (s <| running := running s ++ l |>).
Proof.
  intros Hfree Hp [Ha Hc Hf Hr Hs Hi Hd] l.
  assert (Z.of_nat (length l) ≤ Concurrency cfg - active s) as Hl.
  { subst l. destruct (answer _ w) as [e|l] eqn:Hcl; simpl; [lia|].
    apply claim_length_le in Hcl; simpl in *; lia. }
  split; unfold active, claimed_in, ended_in, finished_in, flushed_in in *;
    rewrite ?snoc_in, ?app_nil_r; simpl; rewrite ?Hp; try done.
  - rewrite length_app. lia.
  - by rewrite Hc, (assoc_L (++)).
Qed.

Lemma run_inv_ends cfg tr s c l1 l2 r :
  running s = l1 ++ c :: l2 → run_inv cfg tr s →
  run_inv cfg (tr ++ [Ends c r])
    (s <| running := l1 ++ l2 |> <| sending := sending s ++ option_list r |>).
Proof.
  intros Hrun [Ha Hc Hf Hr Hs Hi Hd].
  assert (idle (w_phase s) = true → False) as Hni.
  { intros [H _]%Hi. rewrite H in Hrun. by destruct l1. }
  split; unfold active, claimed_in, ended_in, finished_in, flushed_in in *;
    rewrite ?snoc_in, ?app_nil_r; simpl; try done.
  - rewrite Hrun, !length_app in *. simpl in *. destruct r; simpl; lia.
  - rewrite Hc, Hrun. by rewrite <- (assoc_L (++)), <- Permutation_middle.
  - by rewrite Hf, <- !(assoc_L (++)).
Qed.

Lemma run_inv_send cfg tr s f l1 l2 :
  sending s = l1 ++ f :: l2 → run_inv cfg tr s →
  run_inv cfg (tr ++ [Quiet]) (s <| sending := l1 ++ l2 |> <| channel := channel s ++ [f] |>).
Proof.
  intros Hsend [Ha Hc Hf Hr Hs Hi Hd].
  assert (idle (w_phase s) = true → False) as Hni.
  { intros [_ H]%Hi. rewrite H in Hsend. by destruct l1. }
  split; unfold active, claimed_in, ended_in, finished_in, flushed_in in *;
    rewrite ?snoc_in, ?app_nil_r; simpl; try done.
  - rewrite Hsend, !length_app in *. simpl in *. lia.
  - rewrite Hf, Hsend. do 2 f_equiv. by rewrite <- (assoc_L (++)), <- Permutation_middle.
  - intros H. exfalso. apply Hni. by destruct (w_phase s).
Qed.

Lemma run_inv_step cfg hs tr s w a s' w' :
  1 ≤ cf_CompleteBatch cfg →
  run_inv cfg tr s → wstep cfg hs (s, w) a (s', w') → run_inv cfg (tr ++ [a]) s'.
Proof.
  intros Hb Hinv Hstep.
  inversion Hstep as [? ? ? Hp|? ? ? Hp|? ? Hp|?|? ? ? Hp|? ? ? ? ? ? ? ? ? Hrun|? ? ? ? ? Hsend
    |? ? ? ? ? ? ? ? Hp Hch Ht|? ? ? ? ? ? Hp Ht|? ? Hp|? ? Hp|? ? Hp|? ? ? ? ? ? Hp Hch Ht|? ? Hp];
    subst; clear Hstep;
    try (eapply run_inv_quiet; [exact Hinv|..]; simpl; auto; try rewrite Hp; by auto).
  - by eapply run_inv_claim.
  - by eapply run_inv_ends.
  - by eapply run_inv_send.
  - eapply (run_inv_flush _ _ s (Recv f) _ _ _ (w_phase s)); eauto.
  - eapply (run_inv_flush _ _ s Tick _ _ _ (w_phase s) (channel s)); eauto.
  - eapply (run_inv_flush _ _ s Closed _ _ _ Completed (channel s)); eauto. by rewrite Hp.
Qed.

Lemma run_inv_run cfg hs w tr y :
  0 ≤ Concurrency cfg → 1 ≤ cf_CompleteBatch cfg →
  wrun cfg hs (wstart, w) tr y → run_inv cfg tr y.1.
Proof.
  intros Hc Hb Hrun. remember (wstart, w) as x eqn:Hx.
  induction Hrun as [|x tr [s1 w1] a [s2 w2] _ IH Hstep]; subst.
  - by split; unfold active; simpl; try lia.
  - by eapply run_inv_step; [|apply IH|].
Qed.

(** ** Theorems *)

(** A worker is never given more jobs than it has room for.
    Whatever fails or runs in between, [Claim] with at least one free slot
    returns at most as many jobs as there are free slots. *)
Theorem claim_within_free req w l :
  1 ≤ FreeSlots req → answer (Claim req) w = inr l → Z.of_nat (length l) ≤ FreeSlots req.
Proof. apply claim_length_le. Qed.

Lemma claim_within_free_witness :
  ∃ l, answer (Claim (claim0 2 None)) w0 = inr l ∧ Z.of_nat (length l) = 1 ∧ Z.of_nat (length l) ≤ 2.
Proof.
  destruct (answer (Claim (claim0 2 None)) w0) as [|l] eqn:H; [by vm_compute in H|].
  exists l. split; [done|]. split; [vm_compute in H; by injection H as <-|].
  by apply (claim_within_free (claim0 2 None) w0).
Defined.

(** A report is repeated at most twice.  The loop around a
    report runs it once, twice or three times, repeats it only after an error
    that is transient and not [ErrFenced], and returns the last answer; it gives
    up on a transient error only after the third try or when the context is
    done. *)
Theorem report_tried_at_most_thrice {A} live (m : go A) w :
  ∃ k r w', (1 ≤ k ≤ 3)%nat ∧ attempts reportAttempts live m w = (inr r, w') ∧ tries m k w r w' ∧
    (settled r = true ∨ k = 3%nat ∨ live (3 - k)%nat = false).
Proof. apply attempts_tries. unfold reportAttempts. lia. Qed.

(** No completion is dropped on the way to the database.  The
    loop that batches completions does nothing but hand buffers to [flush]; up
    to the closing of the channel these hold every job received, once and in
    order, and none is longer than [CompleteBatch]. *)
Theorem completions_all_flushed cfg live l w :
  1 ≤ cf_CompleteBatch cfg → forallb (λ e, negb (is_closed_event e)) l = true →
  ∃ bs, completeLoop cfg live [] (l ++ [Closed]) w = flush_all cfg live bs w ∧
    concat bs = received l ∧ (∀ b, b ∈ bs → Z.of_nat (length b) ≤ cf_CompleteBatch cfg).
Proof.
  intros Hb Hl. exists (flushed (cf_CompleteBatch cfg) [] (l ++ [Closed])). split_and!.
  - apply completeLoop_flushes.
  - by apply flushed_all.
  - intros b. apply flushed_size; [done|simpl; lia].
Qed.

Definition finished0 : finished :=
  mkFinished (mkClaimed 14 2 "send" "{}" 0 0) (mkExecution 20 1).

Lemma completions_all_flushed_witness :
  ∃ bs, completeLoop (DefaultConfig 4 5) (λ _, true) [] ([Recv finished0; Tick; Recv finished0] ++ [Closed]) w0 =
      flush_all (DefaultConfig 4 5) (λ _, true) bs w0 ∧
    concat bs = [finished0; finished0] ∧ (∀ b, b ∈ bs → Z.of_nat (length b) ≤ 25).
Proof. by apply (completions_all_flushed (DefaultConfig 4 5) (λ _, true) [Recv finished0; Tick; Recv finished0] w0). Defined.

(** C19 (invariant): the accounts of a worker.  Through any run of [Run] - claims,
    jobs that end, completions batched, heartbeats, the stop signal, the drain
    and its abort, whatever the database answers - at most [Concurrency] jobs are
    at work at once; every job it claimed was run once or is still running; every
    job that succeeded was handed to a flush, in batches of at most
    [CompleteBatch], or is on its way there; and when [Run] returns nothing is
    left running and nothing is left to flush. *)
Theorem worker_accounts cfg hs w tr s' w' :
  0 ≤ Concurrency cfg → 1 ≤ cf_CompleteBatch cfg → wrun cfg hs (wstart, w) tr (s', w') →
  active s' ≤ Concurrency cfg ∧
  claimed_in tr ≡ₚ ended_in tr ++ running s' ∧
  finished_in tr ≡ₚ concat (flushed_in tr) ++ cbuf s' ++ channel s' ++ sending s' ∧
  Forall (λ b, Z.of_nat (length b) ≤ cf_CompleteBatch cfg) (flushed_in tr) ∧
  (w_phase s' = Returned →
   claimed_in tr ≡ₚ ended_in tr ∧ finished_in tr ≡ₚ concat (flushed_in tr)).
Proof.
  intros Hc Hb [Ha Hcl Hf Hr Hs Hi Hd]%run_inv_run; [|done..]. split_and!; [done..|].
  intros Hp. simpl in *. rewrite Hp in Hi, Hd.
  destruct (Hi eq_refl) as [E1 E2], (Hd eq_refl) as [E3 E4].
  rewrite E1, app_nil_r in Hcl. rewrite E2, E3, E4, !app_nil_r in Hf. done.
Qed.

(** A run: one job is claimed, succeeds and is flushed when the worker stops. *)
Definition handlers0 : gmap string Handler := {[ "send"%string := λ _, mkHandling [LeaseTick] Ok ]}.
Definition cfg0 : Config := DefaultConfig 4 5.
Definition live0 : nat → bool := λ _, true.

Definition claimed12 : Claimed := mkClaimed 12 1 "send" "{}" 0 1200000000.
Definition finished12 : finished := mkFinished claimed12 (mkExecution 100 1).

Lemma worker_accounts_witness :
  ∃ tr s' w', wrun cfg0 handlers0 (wstart, w0) tr (s', w') ∧ w_phase s' = Returned ∧
    claimed_in tr = [claimed12] ∧ concat (flushed_in tr) = [finished12] ∧
    status <$> jobs (w_db w') !! 12%N = Some js_completed ∧
    claimed_in tr ≡ₚ ended_in tr ∧ finished_in tr ≡ₚ concat (flushed_in tr).
Proof.
  pose proof (wrun_nil cfg0 handlers0 (wstart, w0)) as R.
  eapply wrun_snoc in R; [|by eapply ws_announce].
  eapply wrun_snoc in R; [|by eapply (ws_claim _ _ _ _ [claimed12])].
  eapply wrun_snoc in R; [|by apply (ws_runOne _ _ _ _ claimed12 [] [] live0 false false (Some finished12))].
  eapply wrun_snoc in R; [|by apply (ws_send _ _ _ _ finished12 [] [])].
  eapply wrun_snoc in R; [|by apply ws_signal].
  eapply wrun_snoc in R; [|by apply ws_drain].
  eapply wrun_snoc in R; [|by apply ws_close].
  eapply wrun_snoc in R; [|by apply (ws_recv _ _ _ _ live0 finished12 [] [] [finished12] true)].
  eapply wrun_snoc in R; [|by apply (ws_closed _ _ _ _ live0 [[finished12]] [] false)].
  eapply wrun_snoc in R; [|by apply ws_return].
  eexists _, _, _. split; [exact R|]. split; [done|]. split; [done|]. split; [done|].
  split; [by vm_compute|]. eapply (worker_accounts cfg0 handlers0 w0); [..|exact R|]; done.
Defined.
