(* ===== verification/Archiving.v ===== *)
(** * The archiver loses nothing and leaves nothing behind *)

From S2P Require Import Prelude Schema Partitions Fl Pool Sched Archiver GoLogic Fixture.

(** ** Conservation *)

(** Every row of [db0] is in a table or in its archive, once. *)
Record conserved (db0 db : DB) : Prop := {
  co_jobs : map_to_list (jobs db) ++ jobs_archive db ≡ₚ map_to_list (jobs db0) ++ jobs_archive db0;
  co_execs : map_to_list (execs db) ++ execs_archive db ≡ₚ map_to_list (execs db0) ++ execs_archive db0;
  co_dead : map_to_list (dead_letters db) ++ dead_letters_archive db ≡ₚ
            map_to_list (dead_letters db0) ++ dead_letters_archive db0;
  co_logs : logs db ++ logs_archive db ≡ₚ logs db0 ++ logs_archive db0;
}.

#[export] Instance conserved_refl : Reflexive conserved.
Proof. by intros db. Qed.

#[export] Instance conserved_trans : Transitive conserved.
Proof. intros a b c [] []. split; by etrans. Qed.

(** The rows that stay and the rows that go. *)
Lemma map_to_list_filter {K V} `{Countable K} (P : K * V → Prop) `{!∀ x, Decision (P x)} (m : gmap K V) :
  map_to_list (filter P m) ≡ₚ filter P (map_to_list m).
Proof.
  rewrite map_filter_alt. apply map_to_list_to_map.
  eapply sublist_NoDup; [apply (NoDup_fst_map_to_list m)|]. apply fmap_sublist, sublist_filter.
Qed.

Lemma moved_rows {K V} `{Countable K} (P : K * V → Prop) `{!∀ x, Decision (P x)} (f : K → V → bool) (m : gmap K V) :
  (∀ k v, f k v = true ↔ ¬ P (k, v)) →
  map_to_list (filter P m) ++ select f m ≡ₚ map_to_list m.
Proof.
  intros Hf. rewrite map_to_list_filter. unfold select. rewrite <- (filter_app_complement P (map_to_list m)) at 3.
  apply Permutation_app_head. apply Permutation_refl', list_filter_iff. intros [k v]. apply Hf.
Qed.

(** Moving the rows of [ids] from a table to its archive. *)
Lemma move_conserves {A} (stay moved arch all : list A) :
  stay ++ moved ≡ₚ all → stay ++ (arch ++ moved) ≡ₚ all ++ arch.
Proof. intros <-. rewrite (Permutation_app_comm arch moved). by rewrite app_assoc. Qed.

Lemma moveLogs_conserves db0 ids env : keeps (conserved db0) (moveLogsSQL ids env).
Proof.
  apply keeps_archiving. intros db Hc. etrans; [exact Hc|]. split; [done..|]. simpl. apply move_conserves.
  rewrite <- (filter_app_complement (λ l, log_of ids db l = false) (logs db)) at 3.
  apply Permutation_app_head, Permutation_refl', list_filter_iff. intros l. by destruct (log_of ids db l).
Qed.

Lemma moveExecs_conserves db0 ids env : keeps (conserved db0) (moveExecsSQL ids env).
Proof.
  apply keeps_archiving. intros db Hc. etrans; [exact Hc|].
  split; [done| |done..]. simpl. apply move_conserves, moved_rows. intros k v. simpl.
  rewrite bool_decide_eq_true. split; [tauto|apply dec_stable].
Qed.

Lemma moveDeadLetters_conserves db0 ids env : keeps (conserved db0) (moveDeadLettersSQL ids env).
Proof.
  apply keeps_archiving. intros db Hc. etrans; [exact Hc|]. split; [done|done| |done]. simpl.
  apply move_conserves, moved_rows. intros k v. simpl. rewrite bool_decide_eq_true. split; [tauto|apply dec_stable].
Qed.

Lemma moveJobs_conserves db0 ids env : keeps (conserved db0) (moveJobsSQL ids env).
Proof.
  apply keeps_archiving. intros db Hc. etrans; [exact Hc|]. split; [|done..]. simpl.
  apply move_conserves, moved_rows. intros k v. simpl. rewrite bool_decide_eq_true. split; [tauto|apply dec_stable].
Qed.

Lemma conserved_Archive after dl batch db0 : go_keeps (conserved db0) (Archive after dl batch).
Proof.
  apply go_keeps_Archive; eauto using moveLogs_conserves, moveExecs_conserves, moveDeadLetters_conserves,
    moveJobs_conserves. intros db ps [? ? ? ?]. by split.
Qed.

(** C32 (invariant): archiving loses no row and duplicates none.  Whichever of its
    calls fail, or lose their answer, after an [Archive] with nobody else at work
    every job, execution, dead letter and log line of before is either in its
    table or in the archive of the table, once. *)
Theorem archive_conserves after dl limit w :
  w_snap w = None → (∀ n db, c_other (w_calls w n) db = db) →
  conserved (w_db w) (final_db (Archive after dl limit) w).
Proof.
  intros Hsnap Hoth.
  apply conserved_Archive. split_and!; [done| |].
  - intros s. by rewrite Hsnap.
  - intros n db. by rewrite Hoth.
Qed.

(** An hour later the dead job 15 goes; the seventh call, the move of the dead
    letters, fails. *)
Definition failing_calls (k : nat) : nat → Call := λ n,
  mkCall (later 3600000000) (if decide (n = k) then FailBefore (ErrConn true) else NoFault) id.

Lemma archive_conserves_witness :
  length (jobs_archive (final_db (Archive 0 0 10) (start db0 (failing_calls 100)))) = 1%nat ∧
  jobs_archive (final_db (Archive 0 0 10) (start db0 (failing_calls 7))) = [] ∧
  conserved db0 (final_db (Archive 0 0 10) (start db0 (failing_calls 7))).
Proof.
  split; [by vm_compute|]. split; [by vm_compute|].
  by apply (archive_conserves 0 0 10 (start db0 (failing_calls 7))).
Defined.

(** ** Progress *)

(** The jobs an [Archive] picks. *)
Definition picked (env : Env) (after dl : duration) (limit : Z) (db : DB) : list uuid :=
  take (Z.to_nat limit)
    (merge_sort (by_key (λ r : uuid * Job, default 0 (finished_at r.2)))
      (select (archivable env after dl db) (jobs db))).*1.

Lemma picked_closed env after dl limit db i x :
  execs db !! i = Some x → x_job_id x ∈ picked env after dl limit db → exec_open x = false.
Proof.
  intros Hx Hp%elem_of_limit_fst. destruct Hp as (j & _ & Ha). unfold archivable in Ha.
  rewrite !andb_true_iff in Ha. destruct Ha as [[_ Hopen%bool_decide_eq_true] _].
  apply not_true_iff_false. intros Ho.
  assert ((i, x) ∈ select (open_exec_of (x_job_id x)) (execs db)) as Hin.
  { apply elem_of_select. split; [done|]. unfold open_exec_of. by rewrite bool_decide_eq_true_2, Ho. }
  rewrite Hopen in Hin. by apply elem_of_nil in Hin.
Qed.

(** The partitions the rows of [ids] go to. *)
Definition prepared (ids : list uuid) (db : DB) (ps : gset (string * Z)) : Prop :=
  (∀ l, l ∈ logs db → log_of ids db l = true → ("job_logs_archive", day (lg_ts l))%string ∈ ps) ∧
  (∀ i x t, execs db !! i = Some x → x_job_id x ∈ ids → x_finished_at x = Some t →
     ("job_executions_archive", day t)%string ∈ ps) ∧
  (∀ i j t, jobs db !! i = Some j → i ∈ ids → finished_at j = Some t → ("jobs_archive", day t)%string ∈ ps) ∧
  (∀ i d, dead_letters db !! i = Some d → i ∈ ids → ("dead_letter_jobs_archive", day (dead_at d))%string ∈ ps).

(** Four statements prepare them. *)
Lemma prepare_runs ids env db sn n :
  ∃ ps, go_fold (λ _ q, tx_exec (q ids)) tt
          [logPartitionsSQL; execPartitionsSQL; jobPartitionsSQL; deadLetterPartitionsSQL]
          (mkWorld db sn (quiet env) n) =
        (inr tt, mkWorld (db <| partitions := ps |>) sn (quiet env) (4 + n)) ∧ prepared ids db ps.
Proof.
  set (L := lg_ts <$> filter (λ l, log_of ids db l = true) (logs db)).
  set (X := omap (λ r : uuid * Exec, x_finished_at r.2) (select (λ _ x, bool_decide (x_job_id x ∈ ids)) (execs db))).
  set (J := omap (λ r : uuid * Job, finished_at r.2) (select (λ i _, bool_decide (i ∈ ids)) (jobs db))).
  set (D := (λ r : uuid * DeadLetter, dead_at r.2) <$> select (λ i _, bool_decide (i ∈ ids)) (dead_letters db)).
  destruct (ensure_span_run "job_logs_archive" L db) as (p1 & H1 & _ & Hl).
  destruct (ensure_span_run "job_executions_archive" X (db <| partitions := p1 |>)) as (p2 & H2 & S2 & Hx).
  destruct (ensure_span_run "jobs_archive" J (db <| partitions := p2 |>)) as (p3 & H3 & S3 & Hj).
  destruct (ensure_span_run "dead_letter_jobs_archive" D (db <| partitions := p3 |>)) as (p4 & H4 & S4 & Hd).
  exists p4. split.
  - cbn [go_fold]. rewrite (bind_exec_quiet _ _ _ _ _ _ _ _ H1), (bind_exec_quiet _ _ _ _ _ _ _ _ H2),
      (bind_exec_quiet _ _ _ _ _ _ _ _ H3), (bind_exec_quiet _ _ _ _ _ _ _ _ H4). done.
  - simpl in S2, S3, S4. split_and!.
    + intros l Hin Hof. apply S4, S3, S2, Hl, list_elem_of_fmap. exists l. split; [done|].
      by apply list_elem_of_filter.
    + intros i x t Hi Hin Ht. apply S4, S3, Hx, list_elem_of_omap. exists (i, x). split; [|done].
      apply elem_of_select. split; [done|]. by apply bool_decide_eq_true.
    + intros i j t Hi Hin Ht. apply S4, Hj, list_elem_of_omap. exists (i, j). split; [|done].
      apply elem_of_select. split; [done|]. by apply bool_decide_eq_true.
    + intros i d Hi Hin. apply Hd, list_elem_of_fmap. exists (i, d). split; [done|].
      apply elem_of_select. split; [done|]. by apply bool_decide_eq_true.
Qed.

(** A move into partitions that are there. *)
Lemma archiving_ok parent l move db :
  (∀ k, k ∈ l db → ∃ t, k = Some t ∧ (parent, day t) ∈ partitions db) →
  archiving parent l move db = inr (tt, move db).
Proof.
  intros H. unfold archiving. replace (forallb _ _) with true; [done|]. symmetry. apply forallb_forall.
  intros k (t & -> & Ht)%list_elem_of_In%H. by apply bool_decide_eq_true.
Qed.

(** What the moves make of the tables. *)
Definition moved (ids : list uuid) (db db' : DB) : Prop :=
  jobs db' = filter (λ r : uuid * Job, r.1 ∉ ids) (jobs db) ∧
  leases db' = filter (λ r : uuid * Lease, r.1 ∉ ids) (leases db) ∧
  dead_letters db' = filter (λ r : uuid * DeadLetter, r.1 ∉ ids) (dead_letters db) ∧
  execs db' = filter (λ r : uuid * Exec, x_job_id r.2 ∉ ids) (execs db) ∧
  deps db' = filter (λ e : uuid * uuid, (e.1 ∉ ids) ∧ (e.2 ∉ ids)) (deps db).

Lemma moves_run ids env db ps sn n :
  prepared ids db ps →
  (∀ i x, execs db !! i = Some x → x_job_id x ∈ ids → exec_open x = false) →
  (∀ i j, jobs db !! i = Some j → i ∈ ids → is_Some (finished_at j)) →
  ∃ db', go_fold (λ _ q, tx_exec (q ids)) tt [moveLogsSQL; moveExecsSQL; moveDeadLettersSQL; moveJobsSQL]
           (mkWorld (db <| partitions := ps |>) sn (quiet env) n) =
         (inr tt, mkWorld db' sn (quiet env) (4 + n)) ∧ moved ids db db'.
Proof.
  intros (Hl & Hx & Hj & Hd) Hopen Hend. cbn [go_fold].
  eexists. split.
  - erewrite bind_exec_quiet; [|apply archiving_ok].
    2:{ intros k (l & -> & [Hof Hin]%list_elem_of_filter)%list_elem_of_fmap. eauto. }
    erewrite bind_exec_quiet; [|apply archiving_ok].
    2:{ intros k ([i x] & -> & [Hi Hs%bool_decide_eq_true]%elem_of_select)%list_elem_of_fmap. simpl in Hi.
        specialize (Hopen i x Hi Hs). unfold exec_open in Hopen. cbn [snd].
        destruct (x_finished_at x) as [t|] eqn:Ht; [|done]. eauto. }
    erewrite bind_exec_quiet; [|apply archiving_ok].
    2:{ intros k ([i d] & -> & [Hi Hs%bool_decide_eq_true]%elem_of_select)%list_elem_of_fmap. eauto. }
    erewrite bind_exec_quiet; [|apply archiving_ok].
    2:{ intros k ([i j] & -> & [Hi Hs%bool_decide_eq_true]%elem_of_select)%list_elem_of_fmap. cbn [snd].
        destruct (Hend i j Hi Hs) as [t Ht]. rewrite Ht. eauto. }
    reflexivity.
  - done.
Qed.

Lemma Archive_runs env after dl limit db n :
  let ids := picked env after dl limit db in
  ∃ db' k, Archive after dl limit (mkWorld db None (quiet env) n) =
    (inr (Z.of_nat (length ids)), mkWorld db' None (quiet env) k) ∧ moved ids db db'.
Proof.
  intros ids. assert (∀ i x, execs db !! i = Some x → x_job_id x ∈ ids → exec_open x = false) as Hc
    by (intros i x; apply picked_closed).
  assert (∀ i j, jobs db !! i = Some j → i ∈ ids → is_Some (finished_at j)) as He.
  { intros i j Hj (j' & Hj' & Ha)%elem_of_limit_fst. rewrite Hj in Hj'. injection Hj' as <-.
    unfold archivable in Ha. rewrite !andb_true_iff in Ha. destruct Ha as [[[_ Ha] _] _].
    destruct (finished_at j); [by eexists|done]. }
  unfold Archive. rewrite with_tx_quiet.
  rewrite (bind_exec_quiet _ _ env db (Some db) (S n) ids db) by done. clearbody ids.
  destruct ids as [|i0 ids0] eqn:Hids.
  { exists db, (S (S n)). split; [done|]. unfold moved. split_and!; symmetry; try (apply map_filter_id; set_solver).
    apply set_eq. intros e. rewrite elem_of_filter. set_solver. }
  rewrite <- Hids in *. clear i0 ids0 Hids.
  destruct (prepare_runs ids env db (Some db) (S (S n))) as (ps & Hp & Hprep).
  destruct (moves_run ids env db ps (Some db) (4 + S (S n)) Hprep Hc He) as (db' & Hm & Hmoved).
  eexists db', _. split; [|done]. unfold mbind, go_bind. by rewrite Hp, Hm.
Qed.

Lemma lookup_kept {V} (m : gmap uuid V) (ids : list uuid) i :
  filter (λ r : uuid * V, r.1 ∉ ids) m !! i = if decide (i ∈ ids) then None else m !! i.
Proof.
  apply option_eq. intros v. rewrite map_lookup_filter_Some. simpl.
  case_decide; [split; [by intros [? ?]|done]|tauto].
Qed.

(** What is due is archived.  With its calls answered and nobody
    else at work, [Archive] answers the number of jobs it picked - those that
    ended long enough ago, the oldest first, up to the limit - and none of them
    is left in [jobs], [job_leases], [dead_letter_jobs], [job_executions] or
    [job_dependencies]; every other job stays. *)
Theorem archive_moves_picked env after dl limit db :
  let w := start db (quiet env) in
  let ids := picked env after dl limit db in
  let db' := final_db (Archive after dl limit) w in
  answer (Archive after dl limit) w = inr (Z.of_nat (length ids)) ∧
  (∀ i, i ∈ ids → jobs db' !! i = None ∧ leases db' !! i = None ∧ dead_letters db' !! i = None ∧
     (∀ k x, execs db' !! k = Some x → x_job_id x ≠ i) ∧
     (∀ p c, (p, c) ∈ deps db' → p ≠ i ∧ c ≠ i)) ∧
  (∀ i, i ∉ ids → jobs db' !! i = jobs db !! i ∧ leases db' !! i = leases db !! i ∧
     dead_letters db' !! i = dead_letters db !! i).
Proof.
  intros w ids db'. subst db' w. unfold answer, final_db.
  destruct (Archive_runs env after dl limit db 0) as (db' & k & Hrun & Hj & Hl & Hd & Hx & Hdep).
  unfold start. rewrite Hrun.
  fold ids in Hj, Hl, Hd, Hx, Hdep. cbn [fst snd w_db].
  rewrite Hj, Hl, Hd, Hx, Hdep. split; [done|]. split; intros i Hi; rewrite !lookup_kept.
  - rewrite !decide_True by done. split_and!; [done..| |].
    + intros k' x [_ Hn]%map_lookup_filter_Some. simpl in Hn. congruence.
    + intros p c [[Hp Hc] _]%elem_of_filter. simpl in *. split; congruence.
  - by rewrite !decide_False by done.
Qed.

(** ** A tick of the archiver *)

(** After a move the jobs that stay are as archivable as they were. *)
Lemma archivable_moved env after dl ids db db' i j :
  moved ids db db' → i ∉ ids → archivable env after dl db' i j = archivable env after dl db i j.
Proof.
  intros (_ & _ & _ & Hx & _) Hi. unfold archivable. do 2 f_equal.
  assert (select (open_exec_of i) (execs db') ≡ₚ select (open_exec_of i) (execs db)) as Hp.
  { unfold select. rewrite Hx, map_to_list_filter, list_filter_filter. apply Permutation_refl', list_filter_iff.
    intros [k x]. simpl. unfold open_exec_of. rewrite andb_true_iff, bool_decide_eq_true. naive_solver. }
  apply bool_decide_ext. split; intros H0; rewrite H0 in Hp; [|symmetry in Hp]; by apply Permutation_nil in Hp.
Qed.

(** The jobs that are due. *)
Definition due_for_archive env after dl db : list (uuid * Job) := select (archivable env after dl db) (jobs db).

Lemma length_picked env after dl limit db :
  length (picked env after dl limit db) = (Z.to_nat limit `min` length (due_for_archive env after dl db))%nat.
Proof.
  unfold picked. rewrite length_take, length_fmap. f_equal. apply Permutation_length, merge_sort_Permutation.
Qed.

(** A batch that is not full was the last one; a full one leaves fewer. *)
Lemma moved_due env after dl limit db db' :
  moved (picked env after dl limit db) db db' →
  length (due_for_archive env after dl db') = (length (due_for_archive env after dl db) - length (picked env after dl limit db))%nat.
Proof.
  intros Hm. set (ids := picked env after dl limit db) in *. pose proof Hm as (Hj & _).
  assert (due_for_archive env after dl db' ≡ₚ filter (λ r : uuid * Job, r.1 ∉ ids) (due_for_archive env after dl db)) as ->.
  { unfold due_for_archive, select. rewrite Hj, map_to_list_filter, !list_filter_filter.
    apply Permutation_refl', list_filter_iff. intros [i j]. simpl. split; intros [H1 H2].
    - split; [done|]. by rewrite <- (archivable_moved env after dl ids db db').
    - split; [|done]. by rewrite (archivable_moved env after dl ids db db'). }
  pose proof (filter_app_complement (λ r : uuid * Job, r.1 ∉ ids) (due_for_archive env after dl db)) as Hsplit.
  apply Permutation_length in Hsplit. rewrite length_app in Hsplit.
  enough (length (filter (λ r : uuid * Job, ¬ (r.1 ∉ ids)) (due_for_archive env after dl db)) = length ids) by lia.
  transitivity (length (filter (λ r : uuid * Job, ¬ (r.1 ∉ ids)) (due_for_archive env after dl db)).*1);
    [by rewrite length_fmap|]. apply Permutation_length, NoDup_Permutation.
  - apply NoDup_fmap_fst.
    + intros i j j' [_ [H1 _]%elem_of_select]%list_elem_of_filter [_ [H2 _]%elem_of_select]%list_elem_of_filter. congruence.
    + apply list.NoDup_filter, list.NoDup_filter, NoDup_map_to_list.
  - unfold ids, picked. eapply sublist_NoDup; [|apply sublist_take]. rewrite merge_sort_Permutation.
    apply NoDup_fmap_fst.
    + intros i j j' [H1 _]%elem_of_select [H2 _]%elem_of_select. congruence.
    + apply list.NoDup_filter, NoDup_map_to_list.
  - intros i. split.
    + intros ([i' j] & -> & [Hn _]%list_elem_of_filter)%list_elem_of_fmap. simpl in *. by apply dec_stable.
    + intros Hi. pose proof Hi as (j & Hj' & Ha)%elem_of_limit_fst. apply list_elem_of_fmap. exists (i, j).
      split; [done|]. apply list_elem_of_filter. split; [simpl; tauto|]. by apply elem_of_select.
Qed.

Lemma archive_all_runs fuel env after dl batch db n :
  0 < batch → (length (due_for_archive env after dl db) < fuel)%nat →
  ∃ db' k, archive_all fuel after dl batch (mkWorld db None (quiet env) n) = (inr tt, mkWorld db' None (quiet env) k) ∧
    due_for_archive env after dl db' = [] ∧
    ∀ more, archive_all (fuel + more) after dl batch (mkWorld db None (quiet env) n) = (inr tt, mkWorld db' None (quiet env) k).
Proof.
  intros Hb. revert db n. induction fuel as [|fuel IH]; intros db n Hlen; [lia|].
  destruct (Archive_runs env after dl batch db n) as (db1 & k1 & Hrun & Hm).
  pose proof (length_picked env after dl batch db) as Hp. pose proof (moved_due env after dl batch db db1 Hm) as Hd.
  set (ids := picked env after dl batch db) in *.
  assert (∀ f, archive_all (S f) after dl batch (mkWorld db None (quiet env) n) =
    (if Z.of_nat (length ids) <? batch then mret tt else archive_all f after dl batch) (mkWorld db1 None (quiet env) k1)) as Hstep.
  { intros f. cbn [archive_all]. unfold mbind, go_bind, caught. by rewrite Hrun. }
  destruct (Z.ltb_spec (Z.of_nat (length ids)) batch) as [Hlt|Hge].
  - exists db1, k1. rewrite Hstep. split; [done|]. split; [apply nil_length_inv; lia|].
    intros more. change (S fuel + more)%nat with (S (fuel + more)). by rewrite Hstep.
  - destruct (IH db1 k1) as (db' & k & Hr & Hdue & Hmore); [lia|].
    exists db', k. rewrite Hstep. split; [done|]. split; [done|].
    intros more. change (S fuel + more)%nat with (S (fuel + more)). by rewrite Hstep.
Qed.

Lemma conserved_archive_all fuel after dl batch db0 : go_keeps (conserved db0) (archive_all fuel after dl batch).
Proof.
  induction fuel as [|fuel IH]; simpl; [apply go_keeps_ret|].
  apply go_keeps_bind; [apply go_keeps_caught, conserved_Archive|]. intros [e|n]; [apply go_keeps_ret|].
  destruct (n <? batch); [apply go_keeps_ret|done].
Qed.

(** C33 (termination): the archiver drains.  At a tick its loop moves batch after
    batch; with its calls answered and nobody else at work it comes to an end, after
    no more batches than there are jobs that are due and one, no job that is due is
    left, and no row was lost. *)
Theorem archiver_drains env after dl batch fuel db :
  0 < batch → (length (due_for_archive env after dl db) < fuel)%nat →
  let w := start db (quiet env) in
  let db' := final_db (archive_all fuel after dl batch) w in
  answer (archive_all fuel after dl batch) w = inr tt ∧
  (∀ i j, jobs db' !! i = Some j → archivable env after dl db' i j = false) ∧ conserved db db' ∧
  (∀ more, archive_all (fuel + more) after dl batch w = archive_all fuel after dl batch w).
Proof.
  intros Hb Hlen w db'. subst w db'. unfold answer, final_db, start.
  destruct (archive_all_runs fuel env after dl batch db 0 Hb Hlen) as (db' & k & Hrun & Hdue & Hmore).
  assert (conserved db db') as Hc.
  { pose proof (conserved_archive_all fuel after dl batch db (mkWorld db None (quiet env) 0)) as Hc.
    rewrite Hrun in Hc. refine (proj1 (Hc _)). split; [reflexivity|]. split; [|by intros n d]. intros s Hs. discriminate Hs. }
  rewrite Hrun. split; [done|]. split; [|done].
  cbn [snd w_db]. intros i j Hj. apply not_true_is_false. intros Ha.
  assert ((i, j) ∈ due_for_archive env after dl db') as Hin by (by apply elem_of_select).
  rewrite Hdue in Hin. by apply elem_of_nil in Hin.
Qed.

(** Job 15 and two more that ended; batches of one. *)
Definition finished_db : DB := db0
  <| jobs := <[17%N := dead0]> (<[18%N := dead0]> (jobs db0)) |>.

Lemma archiver_drains_witness :
  length (due_for_archive env0 0 0 finished_db) = 3%nat ∧
  let db' := final_db (archive_all 4 0 0 1) (start finished_db (quiet env0)) in
  length (jobs_archive db') = 3%nat ∧
  (∀ i j, jobs db' !! i = Some j → archivable env0 0 0 db' i j = false).
Proof.
  split; [by vm_compute|]. cbv zeta. split; [by vm_compute|].
  apply (archiver_drains env0 0 0 1 4 finished_db); [lia|].
  assert (length (due_for_archive env0 0 0 finished_db) = 3%nat) as -> by by vm_compute. lia.
Defined.
