(* ===== verification/Ticks.v ===== *)
(** * Cron: which ticks fire

    The catch-up loop of [Materialize] against the sequence of activations of a
    schedule, and what one schedule that is due leaves in the database. *)

From S2P Require Import Prelude Schema Fl Pool Sched Cron Progress Fixture System.

#[local] Open Scope string_scope.
#[local] Open Scope list_scope.
#[local] Open Scope Z_scope.

Section ticks.
Context {Location CronSchedule : Type}.
Context (LoadLocation : string → option Location).
Context (ParseStandard : string → option CronSchedule).
Context (Next : CronSchedule → Location → timestamp → timestamp).

(** The [n]-th activation from [t] on. *)
Fixpoint activation (s : CronSchedule) (loc : Location) (t : timestamp) (n : nat) : timestamp :=
  match n with O => t | S n' => activation s loc (Next s loc t) n' end.

Lemma activation_next s loc t n : activation s loc t (S n) = Next s loc (activation s loc t n).
Proof. revert t. induction n as [|n IH]; intros t; [done|]. simpl. rewrite <- IH. done. Qed.

Section one.
Context (expr tz : string) (s : CronSchedule) (loc : Location).
Context (Hloc : LoadLocation tz = Some loc) (Hexpr : ParseStandard expr = Some s).

Lemma NextTick_ok t : NextTick LoadLocation ParseStandard Next expr tz t = Some (Next s loc t).
Proof. unfold NextTick. by rewrite Hloc, Hexpr. Qed.

(** The loop from its [count]-th turn on. *)
Lemma ticks_from fuel now_ t last count :
  Z.of_nat fuel + count = 100001 → 0 ≤ count ≤ 100000 → (count = 0 → t ≤ now_) →
  ∃ n : nat, ticks LoadLocation ParseStandard Next fuel expr tz now_ t last count =
      Some (match n with O => last | S k => activation s loc t k end, count + Z.of_nat n) ∧
    (∀ k, (k < n)%nat → activation s loc t k ≤ now_) ∧
    (count + Z.of_nat n ≤ 100000 → now_ < activation s loc t n) ∧
    count + Z.of_nat n ≤ 100001 ∧ (count = 0 → (0 < n)%nat).
Proof.
  revert t last count. induction fuel as [|fuel IH]; intros t last count Hf Hc H0; [lia|]. cbn [ticks].
  destruct (now_ <? t) eqn:Ht.
  { exists 0%nat. rewrite Z.add_0_r. split; [done|]. split; [lia|]. simpl. lia. }
  rewrite NextTick_ok. destruct (100000 <? count + 1) eqn:Hmax.
  { exists 1%nat. split; [done|]. split; [|lia]. intros k Hk. replace k with 0%nat by lia. simpl. lia. }
  destruct (IH (Next s loc t) t (count + 1)) as (n & Hrun & Hpast & Hfut & Hle & _); [lia..|].
  exists (S n). rewrite Hrun. split.
  { do 2 f_equal; [|lia]. by destruct n. }
  split; [|split; [|lia]].
  - intros [|k] Hk; [simpl; lia|]. apply Hpast. lia.
  - intros Hn. apply Hfut. lia.
Qed.

Lemma ticks_all now_ t :
  t ≤ now_ →
  ∃ n : nat, ticks LoadLocation ParseStandard Next ticks_fuel expr tz now_ t t 0 =
      Some (activation s loc t n, Z.of_nat (S n)) ∧
    (∀ k, (k ≤ n)%nat → activation s loc t k ≤ now_) ∧
    (Z.of_nat (S n) ≤ 100000 → now_ < Next s loc (activation s loc t n)) ∧ Z.of_nat (S n) ≤ 100001.
Proof.
  intros Ht. destruct (ticks_from ticks_fuel now_ t t 0) as (n & Hrun & Hpast & Hfut & Hle & Hpos);
    [unfold ticks_fuel; lia|lia|done|].
  destruct n as [|n]; [lia|]. exists n. split; [exact Hrun|]. split; [intros k Hk; apply Hpast; lia|].
  split; [|exact Hle]. rewrite <- activation_next. exact Hfut.
Qed.

End one.


(** ** One schedule *)

Lemma insertScheduled_ok env d target db :
  jobs db !! uuids env 0%nat = None →
  insertScheduledJobSQL d target env db =
  if tick_taken (scheduled_job env d target) db then inr (None, db)
  else inr (Some (uuids env 0%nat),
            db <| jobs := <[uuids env 0%nat := scheduled_job env d target]> (jobs db) |>).
Proof.
  intros Hn. unfold insertScheduledJobSQL, gets, mbind, tx_bind.
  destruct (tick_taken (scheduled_job env d target) db) eqn:Ht; [done|].
  unfold insert_job. rewrite Hn, Ht.
  by rewrite (bool_decide_eq_false_2 (is_Some None)) by (by intros [? [=]]).
Qed.

(** No earlier job of the schedule stands in the way. *)
Definition no_overlap (d : due_schedule) (db : DB) : bool :=
  negb (bool_decide (du_overlap d = "skip")) ||
  bool_decide (select (λ _, unfinished (du_id d)) (jobs db) = []).

(** Whether the last of [count] ticks fires. *)
Definition fires (env : Env) (d : due_schedule) (count : Z) (last : timestamp) (db : DB) : bool :=
  (catch_up (du_catchup d) count).1 &&
  no_overlap d db &&
  negb (tick_taken (scheduled_job env d last) db).

(** The tables a schedule leaves, whatever events it emits. *)
Definition cron_tables (db : DB) := (jobs db, schedules db).

Lemma emit_tables env t e p pl db : ∃ db', emit env t e p pl db = inr (tt, db') ∧ cron_tables db' = cron_tables db.
Proof. by eexists. Qed.

Lemma emit_if_tables (b : bool) t e p pl env w :
  w_calls w = quiet env →
  ∃ w', (if b then tx_exec (λ env, emit env t e p pl) else mret tt) w = (inr tt, w') ∧
    w_calls w' = quiet env ∧ cron_tables (w_db w') = cron_tables (w_db w).
Proof.
  intros Hq. destruct b; [|by exists w].
  destruct (emit_tables env t e p pl (w_db w)) as (db' & Hrun & Ht). eexists. split; [by apply (tx_exec_quiet _ env)|done].
Qed.

(** The overlap check of the loop. *)
Lemma overlap_step fire0 d env w :
  w_calls w = quiet env →
  ∃ c w1, (if fire0 && bool_decide (du_overlap d = "skip") then tx_exec (overlapSQL (du_id d))
           else mret true) w = (inr c, w1) ∧
    fire0 && c = fire0 && no_overlap d (w_db w) ∧ fire0 && negb c = fire0 && negb (no_overlap d (w_db w)) ∧
    w_calls w1 = quiet env ∧ w_db w1 = w_db w.
Proof.
  intros Hq. unfold no_overlap. destruct fire0; simpl; [|by exists true, w].
  destruct (bool_decide (du_overlap d = "skip")) eqn:Hs; simpl; [|by exists true, w].
  eexists _, _. split; [by apply (tx_exec_quiet _ env)|]. done.
Qed.

(** The insert. *)
Lemma insert_step fire d last env w w1 :
  w_calls w1 = quiet env → w_db w1 = w_db w → jobs (w_db w) !! uuids env 0%nat = None →
  let fired := fire && negb (tick_taken (scheduled_job env d last) (w_db w)) in
  ∃ w2, (if fire then tx_exec (insertScheduledJobSQL d last) else mret None) w1 =
      (inr (if fired then Some (uuids env 0%nat) else None), w2) ∧ w_calls w2 = quiet env ∧
    cron_tables (w_db w2) =
      (if fired then <[uuids env 0%nat := scheduled_job env d last]> (jobs (w_db w)) else jobs (w_db w),
       schedules (w_db w)).
Proof.
  intros Hq Hdb Hfresh fired. subst fired. destruct fire; simpl; [|by exists w1; rewrite <- Hdb].
  pose proof (insertScheduled_ok env d last (w_db w) Hfresh) as Hi. rewrite <- Hdb in Hi at 1.
  destruct (tick_taken _ _); simpl; eexists; (split; [by apply (tx_exec_quiet _ env)|done]).
Qed.

(** ** Theorems *)

(** Catching up.  For a schedule that is due, the loop of
    [Materialize] stops, after at most 100001 turns, on the last activation that
    is not in the future and counts the activations up to it; unless it hit the
    cap, the activation after it - the next run - is in the future. *)
Theorem catch_up_exact expr tz s loc now_ t :
  LoadLocation tz = Some loc → ParseStandard expr = Some s → t ≤ now_ →
  ∃ n : nat, ticks LoadLocation ParseStandard Next ticks_fuel expr tz now_ t t 0 =
      Some (activation s loc t n, Z.of_nat (S n)) ∧
    (∀ k, (k ≤ n)%nat → activation s loc t k ≤ now_) ∧
    (Z.of_nat (S n) ≤ 100000 → now_ < Next s loc (activation s loc t n)) ∧ Z.of_nat (S n) ≤ 100001.
Proof. intros Hloc Hexpr. by apply ticks_all. Qed.


End ticks.

(** Three hours late: hours 0 to 3 are due, hour 4 is next. *)
Lemma catch_up_exact_witness :
  ∃ n : nat, ticks (x_LoadLocation X0) (x_ParseStandard X0) (x_Next X0) ticks_fuel "hourly" "UTC"
      (3 * 3600000000 + 5) 0 0 0 = Some (activation (x_Next X0) 3600000000 tt 0 n, Z.of_nat (S n)) ∧
    (Z.of_nat (S n) ≤ 100000 → 3 * 3600000000 + 5 < x_Next X0 3600000000 tt (activation (x_Next X0) 3600000000 tt 0 n)).
Proof.
  destruct (catch_up_exact (x_LoadLocation X0) (x_ParseStandard X0) (x_Next X0) "hourly" "UTC" 3600000000 tt
    (3 * 3600000000 + 5) 0) as (n & H1 & _ & H2 & _); [done|done|lia|]. eauto.
Defined.

(** The same schedule of queue 4, with nothing running: the tick of hour 3 fires. *)
Definition due0 : due_schedule := mkDue 8 4 2 3 "hourly" "UTC" "send" "{}" "skip" "fire_once" 0.

