(* ===== verification/Access.v ===== *)
(** * Authentication and authorization

    What [guard] lets through: a request whose token is a live session of a user
    whose role in the organization of the entity is high enough. *)

From S2P Require Import Prelude Schema Fl Pool Jobs Api ApiJobs ApiAdmin Cascade System Fixture.

#[local] Open Scope string_scope.
#[local] Open Scope list_scope.
#[local] Open Scope Z_scope.

(** ** Specification *)

Section access.
Context (uuid_Parse : string → option uuid).

(** The user and session a request speaks for. *)
Definition session_user {B} (env : Env) (r : Request B) (db : DB) : option (uuid * uuid) :=
  if decide (bearer r = "") then None else
  sid ← uuid_Parse (bearer r);
  s ← sessions db !! sid;
  if bool_decide (revoked_at s = None) && (now env <? s_expires_at s) then Some (s_user_id s, sid) else None.

(** What a locator finds: an error, or the scope of the request if the user may
    know of it. *)
Definition resolver (B : Type) : Type := Request B → uuid → DB → apiError + option scope.

(** The decision on a request. *)
Definition verdict {B} (min : role) (entity : string) (res : resolver B) (env : Env) (r : Request B) (db : DB)
    : apiError + scope :=
  match session_user env r db with
  | None => inl unauthorized
  | Some (uid, sid) =>
    match res r uid db with
    | inl e => inl e
    | inr None => inl (notFound entity)
    | inr (Some sc) =>
      if role_rank (sc_role sc) <? role_rank min then inl forbidden
      else inr (sc <| sc_userID := uid |> <| sc_sessionID := sid |>)
    end
  end.

(** The scope query of an entity: its project, its organization and the role of
    the user there. *)
Definition finder : Type := uuid → uuid → DB → option (uuid * uuid * string).

Definition scope_at (find : finder) (id uid : uuid) (db : DB) : option scope :=
  '(proj, org, rl) ← find id uid db; Some (mkScope uuid_Nil uuid_Nil org proj id (parseRole rl)).

Definition find_org : finder := λ id uid db, r ← org_members db !! (id, uid); Some (uuid_Nil, id, r).
Definition find_project : finder := λ id uid db, member_of uid id db.
Definition find_queue : finder := λ id uid db, q ← queues db !! id; member_of uid (q_project_id q) db.
Definition find_policy : finder := λ id uid db, p ← policies db !! id; member_of uid (p_project_id p) db.
Definition find_job : finder := λ id uid db, j ← jobs db !! id; member_of uid (project_id j) db.
Definition find_schedule : finder := λ id uid db,
  s ← schedules db !! id; q ← queues db !! sc_queue_id s; member_of uid (q_project_id q) db.
Definition find_batch : finder := λ id uid db,
  head (omap (λ r : uuid * Job, member_of uid (project_id r.2) db)
    (select (λ _ j, bool_decide (batch_id j = Some id)) (jobs db))).

(** The entity a path names. *)
Definition in_path (name : string) (find : finder) {B} : resolver B := λ r uid db,
  match uuid_Parse (rq_path r name) with
  | None => inl (badRequest ("invalid " +:+ name))
  | Some id => inr (scope_at find id uid db)
  end.

(** No entity: every user is the owner of his own account. *)
Definition nowhere {B} : resolver B := λ _ _ _,
  inr (Some (mkScope uuid_Nil uuid_Nil uuid_Nil uuid_Nil uuid_Nil owner)).

(** The queue or the project of the query. *)
Definition in_query (names : list (string * finder)) (missing : string) {B} : resolver B := λ r uid db,
  match list_find (λ n : string * finder, rq_query r n.1 ≠ "") names with
  | None => inl (badRequest missing)
  | Some (_, (name, find)) =>
    match uuid_Parse (rq_query r name) with
    | None => inl (badRequest ("invalid " +:+ name))
    | Some id => inr (scope_at find id uid db)
    end
  end.

(** ** Lemmas *)

(** A world inside a transaction whose calls are answered. *)
Definition tx_world (env : Env) (db : DB) (w : World) : Prop :=
  w_calls w = quiet env ∧ w_db w = db ∧ is_Some (w_snap w).

(** [m] answers [r] and changes neither the database nor the transaction. *)
Definition reads {A} (env : Env) (db snap : DB) (m : go A) (r : err + A) : Prop :=
  ∀ w, w_calls w = quiet env → w_db w = db → w_snap w = Some snap →
    ∃ w', m w = (r, w') ∧ w_calls w' = quiet env ∧ w_db w' = db ∧ w_snap w' = Some snap.

Lemma reads_ret {A} env db snap (a : A) : reads env db snap (mret a) (inr a).
Proof. intros w ? ? ?. by exists w. Qed.

Lemma reads_throw {A} env db snap e : reads env db snap (throw e : go A) (inl e).
Proof. intros w ? ? ?. by exists w. Qed.

Lemma reads_bind {A B} env db snap (m : go A) (f : A → go B) a r :
  reads env db snap m (inr a) → reads env db snap (f a) r → reads env db snap (m ≫= f) r.
Proof.
  intros Hm Hf w H1 H2 H3. destruct (Hm w H1 H2 H3) as (w1 & Hrun & H4 & H5 & H6).
  unfold mbind, go_bind. rewrite Hrun. by apply Hf.
Qed.

Lemma reads_bind_err {A B} env db snap (m : go A) (f : A → go B) e :
  reads env db snap m (inl e) → reads env db snap (m ≫= f) (inl e).
Proof.
  intros Hm w H1 H2 H3. destruct (Hm w H1 H2 H3) as (w1 & Hrun & H4 & H5 & H6).
  unfold mbind, go_bind. rewrite Hrun. by exists w1.
Qed.

Lemma reads_exec {A} env db snap (s : Env → sql A) a :
  s env db = inr (a, db) → reads env db snap (tx_exec s) (inr a).
Proof.
  intros Hs w H1 H2 H3. unfold tx_exec, this_call. rewrite H1. simpl. rewrite H2, Hs.
  eexists. split; [done|]. split_and!; [done|done|done].
Qed.

Lemma reads_authuser {B} env db snap (r : Request B) :
  reads env db snap (authuser uuid_Parse r)
    (match session_user env r db with Some us => inr us | None => inl (ErrApi unauthorized) end).
Proof.
  unfold authuser, session_user. destruct (decide _); [apply reads_throw|].
  destruct (uuid_Parse (bearer r)) as [sid|]; [|apply reads_throw]. simpl.
  eapply reads_bind; [by apply reads_exec|].
  destruct (sessions db !! sid) as [s|]; simpl; [|apply reads_throw].
  destruct (_ && _); [apply reads_ret|apply reads_throw].
Qed.

(** A handler that fails, other than by a conflict, leaves nothing behind. *)
Lemma server_tx_fails {A} (fn : go A) env db e :
  (∀ w, w_calls w = quiet env → w_db w = db → w_snap w = Some db →
     ∃ w', fn w = (inl e, w') ∧ w_snap w' = Some db) →
  retryable e = false →
  ∃ w', server_tx fn (start db (quiet env)) = (inl e, w') ∧ w_db w' = db.
Proof.
  intros Hfn He. destruct (Hfn (mkWorld db (Some db) (quiet env) 1)) as (w' & Hrun & Hsnap); [done..|].
  exists (rollback w'). split; [|unfold rollback; by rewrite Hsnap].
  assert (begin_tx (start db (quiet env)) = (inr tt, mkWorld db (Some db) (quiet env) 1)) as Hb by done.
  unfold server_tx, maxTxRetries. cbn [tx_attempts]. unfold mbind at 1, go_bind at 1. rewrite Hb.
  unfold mbind at 1, go_bind at 1, caught at 1. rewrite Hrun. unfold mbind, go_bind, roll_back. by rewrite He.
Qed.

(** *** Locators *)

(** [loc] answers what [res] says. *)
Class Resolves {B} (loc : locator B) (res : resolver B) : Prop :=
  resolves env db snap r uid :
    reads env db snap (loc r uid) (match res r uid db with inl e => inl (ErrApi e) | inr o => inr o end).

(** [fn] finds what [find] does. *)
Class Finds (fn : uuid → uuid → go (option scope)) (find : finder) : Prop :=
  finds env db snap uid id : reads env db snap (fn uid id) (inr (scope_at find id uid db)).

#[export] Instance finds_org : Finds orgScope find_org.
Proof.
  intros env db snap uid id. unfold orgScope. eapply reads_bind; [by apply reads_exec|].
  unfold scope_at, find_org. destruct (org_members db !! (id, uid)); apply reads_ret.
Qed.

Ltac finds_by :=
  intros env db snap uid id; unfold projectScope, queueScope, policyScope, jobScope, scheduleScope,
    batchScope, scopeBy; (eapply reads_bind; [by apply reads_exec|]); apply reads_ret.
#[export] Instance finds_project : Finds projectScope find_project.
Proof. finds_by. Qed.
#[export] Instance finds_queue : Finds queueScope find_queue.
Proof. finds_by. Qed.
#[export] Instance finds_policy : Finds policyScope find_policy.
Proof. finds_by. Qed.
#[export] Instance finds_job : Finds jobScope find_job.
Proof. finds_by. Qed.
#[export] Instance finds_schedule : Finds scheduleScope find_schedule.
Proof. finds_by. Qed.
#[export] Instance finds_batch : Finds batchScope find_batch.
Proof. finds_by. Qed.

#[export] Instance resolves_path {B} name fn find :
  Finds fn find → Resolves (byPath (B:=B) uuid_Parse name fn) (in_path name find).
Proof.
  intros Hf env db snap r uid. unfold byPath, in_path.
  destruct (uuid_Parse _) as [id|]; [apply finds|apply reads_throw].
Qed.

#[export] Instance resolves_none {B} : Resolves (none (B:=B)) nowhere.
Proof. intros env db snap r uid. apply reads_ret. Qed.

#[export] Instance resolves_project_or_queue {B} :
  Resolves (byProjectOrQueue (B:=B) uuid_Parse)
    (in_query [("queue", find_queue); ("project", find_project)] "project or queue query parameter required").
Proof.
  intros env db snap r uid. unfold byProjectOrQueue, in_query. simpl.
  destruct (decide (rq_query r "queue" = "")) as [Hq|Hq].
  - rewrite bool_decide_eq_true_2 by done. rewrite decide_False by (simpl; tauto). simpl.
    destruct (decide (rq_query r "project" = "")) as [Hp|Hp].
    + rewrite bool_decide_eq_true_2 by done. rewrite decide_False by (simpl; tauto). apply reads_throw.
    + rewrite bool_decide_eq_false_2 by done. rewrite decide_True by done. simpl.
      destruct (uuid_Parse _); [apply finds_project|apply reads_throw].
  - rewrite bool_decide_eq_false_2 by done. rewrite decide_True by done. simpl.
    destruct (uuid_Parse _); [apply finds_queue|apply reads_throw].
Qed.

#[export] Instance resolves_project_query {B} :
  Resolves (byProjectQuery (B:=B) uuid_Parse)
    (in_query [("project", find_project)] "project query parameter required").
Proof.
  intros env db snap r uid. unfold byProjectQuery, in_query. simpl.
  destruct (decide (rq_query r "project" = "")) as [Hp|Hp].
  - rewrite decide_False by (simpl; tauto). apply reads_throw.
  - rewrite decide_True by done. simpl. destruct (uuid_Parse _); [apply finds_project|apply reads_throw].
Qed.

(** *** The guard *)

Context {B : Type} (min : role) (action entity : string).
Context (loc : locator B) (res : resolver B) `{!Resolves loc res}.
Context (h : scoped B) (r : Request B).

(** What runs once a request is let through. *)
Definition handled (sc : scope) : go result :=
  res ← h r sc;
  let proj := if decide (sc_projectID sc = uuid_Nil) then r_projectID res else sc_projectID sc in
  let ent := if decide (r_entityID res = uuid_Nil) then sc_entityID sc else r_entityID res in
  _ ← (if bool_decide (action ≠ "") && bool_decide (proj ≠ uuid_Nil)
       then audit proj (sc_userID sc) action entity ent (r_audit res) else mret tt);
  mret res.

Lemma guarded_verdict env db snap w :
  w_calls w = quiet env → w_db w = db → w_snap w = Some snap →
  ∃ w', w_calls w' = quiet env ∧ w_db w' = db ∧ w_snap w' = Some snap ∧
    guarded uuid_Parse min action entity loc h r w =
    match verdict min entity res env r db with
    | inl e => (inl (ErrApi e), w')
    | inr sc => handled sc w'
    end.
Proof.
  intros H1 H2 H3. unfold guarded, verdict.
  destruct (reads_authuser env db snap r w H1 H2 H3) as (w1 & Hrun & H4 & H5 & H6).
  unfold mbind at 1, go_bind at 1. rewrite Hrun.
  destruct (session_user env r db) as [[uid sid]|]; [|by exists w1].
  unfold mbind at 1, go_bind at 1.
  destruct (resolves env db snap r uid w1 H4 H5 H6) as (w2 & Hrun2 & H7 & H8 & H9). rewrite Hrun2.
  destruct (res r uid db) as [e|[sc|]]; [by exists w2| |by exists w2].
  destruct (_ <? _); by exists w2.
Qed.

(** A request that is turned down. *)
Lemma guard_denied env db e :
  verdict min entity res env r db = inl e →
  ∃ w', guard uuid_Parse min action entity loc h r (start db (quiet env)) =
    (inr (write (rq_id r) (inl (ErrApi e))), w') ∧ w_db w' = db.
Proof.
  intros Hv. unfold guard.
  destruct (server_tx_fails (guarded uuid_Parse min action entity loc h r) env db (ErrApi e))
    as (w' & Hrun & Hdb); [| |].
  - intros w H1 H2 H3. destruct (guarded_verdict env db db w H1 H2 H3) as (w' & _ & _ & Hsnap & Hrun).
    rewrite Hv in Hrun. by exists w'.
  - done.
  - exists w'. split; [|done]. unfold mbind, go_bind, caught. by rewrite Hrun.
Qed.

End access.

(** ** The routes *)

(** What a caller must be: anyone, signed in, or in the organization the entity
    of the request belongs to, with a role of at least [min]. *)
Inductive access :=
  | Anyone
  | SignedIn
  | InOrg (min : role) (bel : DB → uuid → Prop).

Section routes.
Context (X : Externals).

(** The organization of the entity a text names. *)
Definition of_org (s : string) (db : DB) (org : uuid) : Prop := x_uuid_Parse X s = Some org.
Definition project_of (p : uuid) (db : DB) (org : uuid) : Prop := ∃ pr, projects db !! p = Some pr ∧ org_id pr = org.
Definition of_project (s : string) (db : DB) (org : uuid) : Prop :=
  ∃ i, x_uuid_Parse X s = Some i ∧ project_of i db org.
Definition of_queue (s : string) (db : DB) (org : uuid) : Prop :=
  ∃ i q, x_uuid_Parse X s = Some i ∧ queues db !! i = Some q ∧ project_of (q_project_id q) db org.
Definition of_policy (s : string) (db : DB) (org : uuid) : Prop :=
  ∃ i p, x_uuid_Parse X s = Some i ∧ policies db !! i = Some p ∧ project_of (p_project_id p) db org.
Definition of_job (s : string) (db : DB) (org : uuid) : Prop :=
  ∃ i j, x_uuid_Parse X s = Some i ∧ jobs db !! i = Some j ∧ project_of (project_id j) db org.
Definition of_schedule (s : string) (db : DB) (org : uuid) : Prop :=
  ∃ i sc q, x_uuid_Parse X s = Some i ∧ schedules db !! i = Some sc ∧ queues db !! sc_queue_id sc = Some q ∧
    project_of (q_project_id q) db org.
Definition of_batch (s : string) (db : DB) (org : uuid) : Prop :=
  ∃ b i j, x_uuid_Parse X s = Some b ∧ jobs db !! i = Some j ∧ batch_id j = Some b ∧ project_of (project_id j) db org.
Definition of_queue_or_project {B} (r : Request B) (db : DB) (org : uuid) : Prop :=
  if decide (rq_query r "queue" = "") then of_project (rq_query r "project") db org
  else of_queue (rq_query r "queue") db org.

(** The table of server.go. *)
Definition route_access (rt : route) : access :=
  match rt with
  | PostRegister _ _ | PostLogin _ _ => Anyone
  | PostLogout _ | PostOrgs _ | ListOrgs _ => SignedIn
  | GetOrg r => InOrg viewer (of_org (rq_path r "id"))
  | PatchOrg r => InOrg admin (of_org (rq_path r "id"))
  | PostMembers r => InOrg admin (of_org (rq_path r "id"))
  | PostProjects r => InOrg admin (of_org (rq_path r "orgId"))
  | ListProjects r => InOrg viewer (of_org (rq_path r "orgId"))
  | GetProject r => InOrg viewer (of_project (rq_path r "id"))
  | PatchProject r => InOrg admin (of_project (rq_path r "id"))
  | PostPolicies r => InOrg admin (of_project (rq_path r "projectId"))
  | ListPolicies r => InOrg viewer (of_project (rq_path r "projectId"))
  | GetPolicy r => InOrg viewer (of_policy (rq_path r "id"))
  | PatchPolicy r => InOrg admin (of_policy (rq_path r "id"))
  | DeletePolicy r => InOrg admin (of_policy (rq_path r "id"))
  | PostQueues r => InOrg admin (of_project (rq_path r "projectId"))
  | ListQueues r => InOrg viewer (of_project (rq_path r "projectId"))
  | GetQueue r => InOrg viewer (of_queue (rq_path r "id"))
  | PatchQueue r => InOrg admin (of_queue (rq_path r "id"))
  | PauseQueue r | ResumeQueue r => InOrg member (of_queue (rq_path r "id"))
  | PostSchedules r => InOrg admin (of_queue (rq_path r "id"))
  | ListSchedules r => InOrg viewer (of_queue (rq_path r "id"))
  | GetSchedule r => InOrg viewer (of_schedule (rq_path r "id"))
  | PatchSchedule r => InOrg admin (of_schedule (rq_path r "id"))
  | PauseSchedule r | ResumeSchedule r => InOrg member (of_schedule (rq_path r "id"))
  | PostJobs r => InOrg member (of_queue (rq_path r "id"))
  | PostBatch _ r => InOrg member (of_queue (rq_path r "id"))
  | ListJobs r | ListDLQ r => InOrg viewer (of_queue_or_project r)
  | CancelJob r | RetryJob r => InOrg member (of_job (rq_path r "id"))
  | ReplayQueue r => InOrg member (of_queue (rq_path r "id"))
  | ReplayJob r => InOrg member (of_job (rq_path r "jobId"))
  | GetBatch r => InOrg viewer (of_batch (rq_path r "id"))
  | ListEvents r => InOrg viewer (of_project (rq_path r "projectId"))
  | ListWorkers r => InOrg viewer (of_project (rq_query r "project"))
  | GetJob r => InOrg viewer (of_job (rq_path r "id"))
  | GetProjectHealth r => InOrg viewer (of_project (rq_path r "projectId"))
  | GetQueueStats r | GetQueueSeries r | GetFailureSummary _ r => InOrg viewer (of_queue (rq_path r "id"))
  end.

(** The token a route is called with. *)
Definition route_token (rt : route) : string :=
  match rt with
  | PostRegister _ r => bearer r
  | PostLogin _ r => bearer r
  | PostOrgs r | PatchOrg r | PostProjects r | PatchProject r => bearer r
  | PostMembers r => bearer r
  | PostPolicies r | PatchPolicy r => bearer r
  | PostQueues r | PatchQueue r => bearer r
  | PostSchedules r | PatchSchedule r => bearer r
  | PostJobs r => bearer r
  | PostBatch _ r => bearer r
  | ReplayQueue r => bearer r
  | PostLogout r | ListOrgs r | GetOrg r | ListProjects r | GetProject r | ListPolicies r | GetPolicy r
  | ListQueues r | ListSchedules r | GetSchedule r | ListJobs r | ListDLQ r | ListEvents r | ListWorkers r
  | GetJob r | GetProjectHealth r | GetQueueStats r | GetQueueSeries r
  | GetFailureSummary _ r
  | DeletePolicy r | GetQueue r | PauseQueue r | ResumeQueue r | PauseSchedule r | ResumeSchedule r
  | CancelJob r | RetryJob r | ReplayJob r | GetBatch r => bearer r
  end.

(** The token is a session of [uid] that is neither revoked nor expired. *)
Definition live_session (env : Env) (db : DB) (token : string) (uid : uuid) : Prop :=
  ∃ sid s, x_uuid_Parse X token = Some sid ∧ sessions db !! sid = Some s ∧
    revoked_at s = None ∧ now env < s_expires_at s ∧ s_user_id s = uid.

Definition entitled (env : Env) (db : DB) (token : string) (a : access) : Prop :=
  match a with
  | Anyone => True
  | SignedIn => ∃ uid, live_session env db token uid
  | InOrg min bel => ∃ uid org rl, live_session env db token uid ∧ bel db org ∧
      org_members db !! (org, uid) = Some rl ∧ role_rank min ≤ role_rank (parseRole rl)
  end.

(** *** Lemmas *)

Lemma session_user_live {B} env (r : Request B) db uid sid :
  session_user (x_uuid_Parse X) env r db = Some (uid, sid) → live_session env db (bearer r) uid.
Proof.
  unfold session_user. destruct (decide _); [done|].
  destruct (x_uuid_Parse X (bearer r)) as [sid'|] eqn:Hp; [|done]. simpl.
  destruct (sessions db !! sid') as [s|] eqn:Hs; [|done]. simpl.
  destruct (bool_decide (revoked_at s = None) && (now env <? s_expires_at s)) eqn:Hlive; [|done].
  apply andb_true_iff in Hlive as [Hrev%bool_decide_eq_true Hexp]. intros [= <- <-].
  exists sid', s. split_and!; try done. lia.
Qed.

(** A guard whose request is turned down changes nothing. *)
Lemma guard_changes {B} min action entity loc res `{!Resolves loc res} (h : scoped B) (r : Request B) env db :
  w_db (snd (guard (x_uuid_Parse X) min action entity loc h r (start db (quiet env)))) ≠ db →
  ∃ uid sid sc, session_user (x_uuid_Parse X) env r db = Some (uid, sid) ∧ res r uid db = inr (Some sc) ∧
    role_rank min ≤ role_rank (sc_role sc).
Proof.
  intros Hne. destruct (verdict (x_uuid_Parse X) min entity res env r db) as [e|sc] eqn:Hv.
  { destruct (guard_denied (x_uuid_Parse X) min action entity loc res h r env db e Hv) as (w' & Hrun & Hdb).
    rewrite Hrun in Hne. by simpl in Hne. }
  unfold verdict in Hv. destruct (session_user _ env r db) as [[uid sid]|]; [|done].
  destruct (res r uid db) as [|[sc'|]] eqn:Hr; [done| |done].
  destruct (_ <? role_rank min) eqn:Hrank; [done|]. exists uid, sid, sc'. split_and!; [done|done|lia].
Qed.

(** A resolver that goes through the membership of the organization [bel]. *)
Definition by_membership {B} (res : resolver B) (bel : Request B → DB → uuid → Prop) : Prop :=
  ∀ r uid db sc, res r uid db = inr (Some sc) → ∃ org rl,
    bel r db org ∧ org_members db !! (org, uid) = Some rl ∧ sc_role sc = parseRole rl.

Lemma guard_entitled {B} min action entity loc res bel `{!Resolves loc res} (h : scoped B) (r : Request B) env db :
  by_membership res bel →
  w_db (snd (guard (x_uuid_Parse X) min action entity loc h r (start db (quiet env)))) ≠ db →
  entitled env db (bearer r) (InOrg min (bel r)).
Proof.
  intros Hm Hne. destruct (guard_changes min action entity loc res h r env db Hne) as (uid & sid & sc & Hs & Hr & Hrank).
  destruct (Hm r uid db sc Hr) as (org & rl & Hof & Hmem & Hrl). rewrite Hrl in Hrank.
  exists uid, org, rl. split_and!; try done. by eapply session_user_live.
Qed.

(** The entity [find] finds under an id belongs to the organization [bel]. *)
Definition in_org (find : finder) (bel : string → DB → uuid → Prop) : Prop :=
  ∀ s i uid db row, x_uuid_Parse X s = Some i → find i uid db = Some row →
    bel s db row.1.2 ∧ org_members db !! (row.1.2, uid) = Some row.2.

Lemma scope_membership find bel s i uid db sc :
  in_org find bel → x_uuid_Parse X s = Some i → scope_at find i uid db = Some sc →
  ∃ org rl, bel s db org ∧ org_members db !! (org, uid) = Some rl ∧ sc_role sc = parseRole rl.
Proof.
  intros Hin Hp. unfold scope_at. destruct (find i uid db) as [[[proj org] rl]|] eqn:Hf; [|done]. intros [= <-].
  destruct (Hin _ _ _ _ _ Hp Hf) as [Hof Hmem]. by exists org, rl.
Qed.

Lemma path_membership {B} name find bel :
  in_org find bel → by_membership (in_path (x_uuid_Parse X) name find (B:=B)) (λ r, bel (rq_path r name)).
Proof.
  intros Hin r uid db sc. unfold in_path. destruct (x_uuid_Parse X _) as [i|] eqn:Hp; [|done].
  intros [= Hs]. by eapply scope_membership.
Qed.

Lemma member_of_org uid p db row :
  member_of uid p db = Some row → project_of p db row.1.2 ∧ org_members db !! (row.1.2, uid) = Some row.2.
Proof.
  unfold member_of. destruct (projects db !! p) as [pr|] eqn:Hp; [|done]. simpl.
  destruct (org_members db !! (org_id pr, uid)) as [rl|] eqn:Hm; [|done]. intros [= <-]. by split; [exists pr|].
Qed.

Lemma org_in_org : in_org find_org of_org.
Proof.
  intros s i uid db row Hs. unfold find_org. destruct (org_members db !! (i, uid)) eqn:Hm; [|done]. by intros [= <-].
Qed.
Lemma project_in_org : in_org find_project of_project.
Proof. intros s i uid db row Hs [H1 H2]%member_of_org. split; [by exists i|done]. Qed.
Lemma queue_in_org : in_org find_queue of_queue.
Proof.
  intros s i uid db row Hs. unfold find_queue. destruct (queues db !! i) as [q|] eqn:Hq; [|done].
  intros [H1 H2]%member_of_org. split; [by exists i, q|done].
Qed.
Lemma policy_in_org : in_org find_policy of_policy.
Proof.
  intros s i uid db row Hs. unfold find_policy. destruct (policies db !! i) as [q|] eqn:Hq; [|done].
  intros [H1 H2]%member_of_org. split; [by exists i, q|done].
Qed.
Lemma job_in_org : in_org find_job of_job.
Proof.
  intros s i uid db row Hs. unfold find_job. destruct (jobs db !! i) as [q|] eqn:Hq; [|done].
  intros [H1 H2]%member_of_org. split; [by exists i, q|done].
Qed.
Lemma schedule_in_org : in_org find_schedule of_schedule.
Proof.
  intros s i uid db row Hs. unfold find_schedule. destruct (schedules db !! i) as [sc|] eqn:Hsc; [|done]. simpl.
  destruct (queues db !! sc_queue_id sc) as [q|] eqn:Hq; [|done].
  intros [H1 H2]%member_of_org. split; [by exists i, sc, q|done].
Qed.
Lemma batch_in_org : in_org find_batch of_batch.
Proof.
  intros s i uid db row Hs. unfold find_batch. intros Hh. apply head_Some_elem_of in Hh.
  apply list_elem_of_omap in Hh as ([k j] & [Hk Hb%bool_decide_eq_true]%elem_of_select & Hm).
  apply member_of_org in Hm as [H1 H2]. split; [by exists i, k, j|done].
Qed.

Lemma queue_or_project_membership {B} missing :
  by_membership (in_query (x_uuid_Parse X) [("queue", find_queue); ("project", find_project)] missing (B:=B))
    of_queue_or_project.
Proof.
  intros r uid db sc. unfold in_query, of_queue_or_project. simpl.
  destruct (decide (rq_query r "queue" = "")) as [Hq|Hq].
  - rewrite decide_False by (simpl; tauto). simpl. case_decide; [|done]. simpl.
    destruct (x_uuid_Parse X _) as [i|] eqn:Hp; [|done]. intros [= Hs].
    eapply scope_membership; [apply project_in_org|done|done].
  - rewrite decide_True by done. simpl. destruct (x_uuid_Parse X _) as [i|] eqn:Hp; [|done]. intros [= Hs].
    eapply scope_membership; [apply queue_in_org|done|done].
Qed.

Lemma project_membership {B} missing :
  by_membership (in_query (x_uuid_Parse X) [("project", find_project)] missing (B:=B))
    (λ r, of_project (rq_query r "project")).
Proof.
  intros r uid db sc. unfold in_query. simpl. case_decide; [|done]. simpl.
  destruct (x_uuid_Parse X _) as [i|] eqn:Hp; [|done]. intros [= Hs].
  eapply scope_membership; [apply project_in_org|done|done].
Qed.

End routes.

(** The requests of server.go, the deletions included. *)
Inductive mutation := Routed (rt : route) | Removing (rm : removal).

Definition respond (X : Externals) (rq : mutation) : go Response :=
  match rq with Routed rt => serve X rt | Removing rm => serve_removal (x_uuid_Parse X) rm end.

Definition token (rq : mutation) : string :=
  match rq with
  | Routed rt => route_token rt
  | Removing (DeleteOrg r | DeleteProject r | DeleteQueue r | DeleteSchedule r) => bearer r
  end.

Definition request_access (X : Externals) (rq : mutation) : access :=
  match rq with
  | Routed rt => route_access X rt
  | Removing (DeleteOrg r) => InOrg owner (of_org X (rq_path r "id"))
  | Removing (DeleteProject r) => InOrg admin (of_project X (rq_path r "id"))
  | Removing (DeleteQueue r) => InOrg admin (of_queue X (rq_path r "id"))
  | Removing (DeleteSchedule r) => InOrg admin (of_schedule X (rq_path r "id"))
  end.

(** ** Theorems *)




