(* ===== verification/Auditing.v ===== *)
(** * The audit trail

    Every request that changes something in a project leaves a row in [audit_log]
    with the user, the action and the project.  [Trail] is what a handler's
    transaction has to keep for that: none of the handlers' own statements writes
    the audit log, a session or (but for those of the projects) a project, so that
    the row [guard] appends is the only one. *)

From S2P Require Import Prelude Schema Fl Pool Jobs Sched Cron Worker Api ApiJobs ApiAdmin Accounts Cascade GoLogic System Core Access Fixture.

#[local] Open Scope string_scope.
#[local] Open Scope list_scope.
#[local] Open Scope Z_scope.

(** ** Statements that leave the trail alone *)

Definition trail (db : DB) := (audit_log db, sessions db, projects db).

Class Trail (P : DB → Prop) : Prop := trail_frame db db' : trail db' = trail db → P db → P db'.

Section stmts.
Context (P : DB → Prop) `{!Trail P}.

Lemma tr_raw {A} (m : sql A) : (∀ db a db', m db = inr (a, db') → trail db' = trail db) → keeps P m.
Proof.
  intros Hm db HP. destruct (m db) as [|[a db']] eqn:Hr; [done|]. apply (trail_frame db); [by eapply Hm|done].
Qed.

Lemma tr_modify f : (∀ db, trail (f db) = trail db) → keeps P (modify f : sql unit).
Proof. intros Hf. apply keeps_modify. intros db. by apply trail_frame. Qed.

Ltac tr_raw f := apply tr_raw; intros ? ? ? Hraw; unfold f in Hraw; repeat case_match; simplify_eq; done.
Ltac tr_step :=
  match goal with
  | |- keeps _ (modify _) => apply tr_modify; intros; done
  | |- _ => keeps_step
  end.
Ltac tr_keeps := as_keeps; repeat tr_step.

Lemma tr_emit env t e p pl : keeps P (emit env t e p pl).
Proof. unfold emit. tr_keeps. Qed.
Lemma tr_update_job i f : keeps P (update_job i f).
Proof. tr_raw update_job. Qed.
Lemma tr_insert_job i j : keeps P (insert_job i j).
Proof. tr_raw insert_job. Qed.
Lemma tr_update_execs sel f : keeps P (update_execs sel f).
Proof. tr_raw update_execs. Qed.
Lemma tr_drop_lease i : keeps P (drop_lease i).
Proof. unfold drop_lease. tr_keeps. Qed.
Lemma tr_mark_replayed env i a : keeps P (mark_replayed env i a).
Proof. unfold mark_replayed. tr_keeps. Qed.
Lemma tr_queue_release q s n : keeps P (queue_release q s n).
Proof. unfold queue_release. tr_keeps. Qed.
Lemma tr_put_queue env i o q : keeps P (put_queue env i o q).
Proof.
  apply tr_raw. intros db a db' Hraw. unfold put_queue, spread in Hraw. repeat case_match; simplify_eq; done.
Qed.
Lemma tr_paused i b env : keeps P (setPausedSQL i b env).
Proof. unfold setPausedSQL. tr_keeps. Qed.
Lemma tr_put_policy i p : keeps P (put_policy i p).
Proof. tr_raw put_policy. Qed.
Lemma tr_deletePolicy i env : keeps P (deletePolicySQL i env).
Proof. tr_raw deletePolicySQL. Qed.
Lemma tr_put_schedule tz i s : keeps P (put_schedule tz i s).
Proof. tr_raw put_schedule. Qed.
Lemma tr_update_schedule i f : keeps P (update_schedule i f).
Proof. unfold update_schedule. tr_keeps. Qed.
Lemma tr_insert_deps c ps : keeps P (insert_deps c ps).
Proof. induction ps as [|p ps IH]; simpl; tr_keeps. Qed.
Lemma tr_insertDeps ps c env : keeps P (insertDepsSQL ps c env).
Proof. unfold insertDepsSQL. tr_keeps; apply tr_insert_deps. Qed.
Lemma tr_deleteIdem q k env : keeps P (deleteIdemSQL q k env).
Proof. unfold deleteIdemSQL. tr_keeps. Qed.
Lemma tr_insertIdem q k j fp env : keeps P (insertIdemSQL q k j fp env).
Proof. tr_raw insertIdemSQL. Qed.

End stmts.
Create HintDb trail.
#[local] Hint Resolve tr_emit tr_update_job tr_insert_job tr_update_execs tr_drop_lease tr_mark_replayed tr_queue_release
  tr_put_queue tr_paused tr_put_policy tr_deletePolicy tr_put_schedule tr_update_schedule tr_insertDeps tr_deleteIdem
  tr_insertIdem : trail.

(** ** Handlers that leave the trail alone *)

Ltac trail_step :=
  match goal with
  | |- keeps _ (modify _) => apply tr_modify; [apply _|intros; done]
  | |- keeps _ _ => solve [auto with trail typeclass_instances]
  | |- keeps _ _ => progress keeps_step
  | |- tx_keeps _ (or_problem _ _) => unfold or_problem
  | |- tx_keeps _ _ => solve [auto with trail typeclass_instances]
  | |- _ => tx_step
  end.
Ltac trail_tx := repeat trail_step.

Section handlers.
Context (X : Externals) (P : DB → Prop) `{!Trail P}.

Lemma tr_assertPolicyOwned po pr : tx_keeps P (assertPolicyOwned po pr).
Proof. unfold assertPolicyOwned, policyOwnedSQL. trail_tx. Qed.
Lemma tr_parentIDs parse l : tx_keeps P (parentIDs parse l).
Proof. induction l as [|p l IH]; simpl; trail_tx. Qed.
Lemma tr_link c ps : tx_keeps P (link c ps).
Proof. unfold link, cycleSQL. trail_tx. Qed.
Hint Resolve tr_assertPolicyOwned tr_parentIDs tr_link : trail.

Lemma tr_submitJob parse str valid canon sha r sc : tx_keeps P (submitJob parse str valid canon sha r sc).
Proof.
  unfold submitJob, queueDefaultsSQL, queuedCountSQL, lookup_key, findIdemSQL, loadSubmitView, submitViewSQL,
    insert_submitted, parentsSQL, insertJobSQL, emit_tx. cbv zeta. trail_tx.
Qed.
Lemma tr_batch_rows valid d l : tx_keeps P (batch_rows valid d l).
Proof. induction l as [|j l IH]; simpl; trail_tx. Qed.
Hint Resolve tr_batch_rows : trail.
Lemma tr_submitBatch valid b r sc : tx_keeps P (submitBatch valid b r sc).
Proof. unfold submitBatch, queueDefaultsSQL, queuedCountSQL, insertBatchSQL, emit_tx. cbv zeta. trail_tx. Qed.
Lemma tr_cancelJob r sc : tx_keeps P (cancelJob (B:=unit) r sc).
Proof. unfold cancelJob, cancelSQL, cancelExecSQL, cancelLeaseSQL, Release, emit_tx. cbv zeta. trail_tx. Qed.
Lemma tr_retryJob r sc : tx_keeps P (retryJob (B:=unit) r sc).
Proof. unfold retryJob, retrySQL, emit_tx. trail_tx. Qed.
Lemma tr_replayJob str r sc : tx_keeps P (replayJob (B:=unit) str r sc).
Proof. unfold replayJob, cancelledKinSQL, replaySQL, emit_tx. trail_tx. Qed.
Lemma tr_replayQueue r sc : tx_keeps P (replayQueue r sc).
Proof. unfold replayQueue, replay_dead. cbv zeta. trail_tx. Qed.

Lemma tr_createQueue parse r sc : tx_keeps P (createQueue parse r sc).
Proof. unfold createQueue, insertQueueSQL. cbv zeta. trail_tx. Qed.
Lemma tr_updateQueue parse r sc : tx_keeps P (updateQueue parse r sc).
Proof. unfold updateQueue, updateQueueSQL. cbv zeta. trail_tx. Qed.
Lemma tr_setPaused sc b t : tx_keeps P (setPaused sc b t).
Proof. unfold setPaused, emit_tx. trail_tx. Qed.
Lemma tr_createPolicy r sc : tx_keeps P (createPolicy r sc).
Proof. unfold createPolicy, insertPolicySQL. cbv zeta. trail_tx. Qed.
Lemma tr_updatePolicy r sc : tx_keeps P (updatePolicy r sc).
Proof. unfold updatePolicy, updatePolicySQL. cbv zeta. trail_tx. Qed.
Lemma tr_deletePolicy_h r sc : tx_keeps P (deletePolicy (B:=unit) r sc).
Proof. unfold deletePolicy. trail_tx. Qed.
Lemma tr_createSchedule {L C} (load : string → option L) (parse : string → option C) next tz valid r sc :
  tx_keeps P (createSchedule load parse next tz valid r sc).
Proof. unfold createSchedule, checkCron, insertScheduleSQL. cbv zeta. trail_tx. Qed.
Lemma tr_updateSchedule {L C} (load : string → option L) (parse : string → option C) next tz valid r sc :
  tx_keeps P (updateSchedule load parse next tz valid r sc).
Proof. unfold updateSchedule, getScheduleSQL, checkCron, updateScheduleSQL. cbv zeta. trail_tx. Qed.
Lemma tr_setScheduleEnabled sc b : tx_keeps P (setScheduleEnabled sc b).
Proof. unfold setScheduleEnabled, setScheduleEnabledSQL. trail_tx. Qed.
Lemma tr_pauseQueue r sc : tx_keeps P (pauseQueue (B:=unit) r sc).
Proof. apply tr_setPaused. Qed.
Lemma tr_resumeQueue r sc : tx_keeps P (resumeQueue (B:=unit) r sc).
Proof. apply tr_setPaused. Qed.
Lemma tr_pauseSchedule r sc : tx_keeps P (pauseSchedule (B:=unit) r sc).
Proof. apply tr_setScheduleEnabled. Qed.
Lemma tr_resumeSchedule r sc : tx_keeps P (resumeSchedule (B:=unit) r sc).
Proof. apply tr_setScheduleEnabled. Qed.

End handlers.

(** ** What a transaction keeps until its audit row *)

(** The audit log is [l], the sessions are [ss], and no project has the nil id,
    which [fl.uuidv7()] never returns. *)
Definition kept (l : list Audit) (ss : gmap uuid Session) (db : DB) : Prop :=
  audit_log db = l ∧ sessions db = ss ∧ projects db !! uuid_Nil = None.

#[export] Instance kept_trail l ss : Trail (kept l ss).
Proof. intros db db' [= H1 H2 H3]. unfold kept. by rewrite H1, H2, H3. Qed.

Lemma kept_projects l ss (f : gmap uuid Project → gmap uuid Project) db :
  f (projects db) !! uuid_Nil = None → kept l ss db → kept l ss (db <| projects := f (projects db) |>).
Proof. by intros Hf (? & ? & _). Qed.

Lemma kept_updateProject l ss r sc : tx_keeps (kept l ss) (updateProject r sc).
Proof.
  unfold updateProject. cbv zeta. trail_tx. unfold updateProjectSQL. apply hoare_read. intros [p|].
  - intros db [Hk Hp]. unfold put_project, mbind, tx_bind. destruct (project_name_taken _ _ _); [done|].
    destruct (bool_decide _); [done|]. apply (kept_projects l ss (λ m, <[_ := _]> m)); [|done].
    destruct Hk as (_ & _ & Hn). rewrite lookup_insert_ne; [done|]. intros E. rewrite E in Hp. congruence.
  - apply hoare_ret. by intros db [].
Qed.

Lemma kept_quiet l ss f : (∀ db, trail (f db) = trail db) → keeps (kept l ss) (cascade_quiet f).
Proof. intros Hf db. by apply kept_trail. Qed.

Lemma kept_triggers l ss r t : t ∈ triggers r → keeps (kept l ss) t.
Proof.
  assert (∀ {V} table put refers (row_of : uuid * V → row), (∀ m db, kept l ss db → kept l ss (put m db)) →
    keeps (kept l ss) (cascade_rows table put refers row_of)) as Hrows by (intros V table put rf ro Hp db Hdb; by apply Hp).
  assert (∀ c, keeps (kept l ss) (restrict c)) as Hres by (intros c db Hdb; unfold restrict; by destruct (c db)).
  intros Ht. destruct r; cbn [triggers] in Ht; rewrite ?elem_of_cons, elem_of_nil in Ht; destruct_or?; try done; subst t;
    first [by apply kept_quiet | by apply Hrows | by apply Hres | idtac].
  - intros db (H1 & H2 & H3). unfold cascade_rows. split_and!; [done|done|]. simpl.
    apply map_lookup_filter_None. by left.
  - unfold set_null. trail_tx.
Qed.

Lemma kept_fire_row l ss r : keeps (kept l ss) (fire_row r).
Proof.
  unfold fire_row. apply keeps_bind; [|intros ?; apply keeps_ret].
  assert (∀ t, t ∈ triggers r → keeps (kept l ss) t) as Ht by (intros t; apply kept_triggers).
  induction (triggers r) as [|t ts IH]; simpl; [apply keeps_ret|].
  apply keeps_bind; [apply Ht; by left|intros ?]. apply keeps_bind; [|intros ?; apply keeps_ret].
  apply IH. intros t' Hin. apply Ht. by right.
Qed.

Lemma kept_cascade l ss n rows : keeps (kept l ss) (cascade n rows).
Proof.
  revert rows. induction n as [|n IH]; intros [|r rows]; try apply keeps_ret; try apply keeps_raise.
  change (cascade (S n) (r :: rows)) with (news ← fire_round (r :: rows); cascade n news).
  apply keeps_bind; [|by intros ?]. unfold fire_round. apply keeps_bind; [|intros ?; apply keeps_ret].
  apply keeps_traverse. intros r'. apply kept_fire_row.
Qed.

Lemma kept_deleteProject l ss r sc : tx_keeps (kept l ss) (deleteProject (B:=unit) r sc).
Proof.
  unfold deleteProject, deleteProjectSQL. trail_tx; [|apply kept_cascade].
  apply keeps_modify. intros db Hk. apply (kept_projects l ss (delete _)); [|done].
  destruct Hk as (_ & _ & Hn). rewrite lookup_delete_None. by right.
Qed.
Lemma kept_deleteQueue l ss r sc : tx_keeps (kept l ss) (deleteQueue (B:=unit) r sc).
Proof. unfold deleteQueue, deleteQueueSQL. trail_tx. apply kept_cascade. Qed.
Lemma kept_deleteSchedule l ss r sc : tx_keeps (kept l ss) (deleteSchedule (B:=unit) r sc).
Proof. unfold deleteSchedule, deleteScheduleSQL. trail_tx. apply kept_cascade. Qed.

(** ** The row that is appended *)

Section audits.
Context (X : Externals).

(** A row for a request with token [tok]: the action, and the user of the session
    that the token names. *)
Definition accounts_for (tok action entity : string) (ss : gmap uuid Session) (a : Audit) : Prop :=
  au_action a = action ∧ au_entity a = entity ∧ au_project_id a ≠ uuid_Nil ∧
  ∃ sid s, x_uuid_Parse X tok = Some sid ∧ ss !! sid = Some s ∧ s_user_id s = actor_id a.

(** A scope of a project. *)
Definition in_project (query : uuid → uuid → Env → sql (option (uuid * uuid * string))) : Prop :=
  ∀ id uid env db row db', query id uid env db = inr (Some row, db') → db' = db ∧ is_Some (projects db !! row.1.1).

Lemma member_in_project uid p db row : member_of uid p db = Some row → is_Some (projects db !! row.1.1).
Proof.
  unfold member_of. destruct (projects db !! p) as [pr|] eqn:Hp; [|done]. simpl.
  destruct (org_members db !! _); [|done]. intros [= <-]. by exists pr.
Qed.

Lemma projectScope_in : in_project projectScopeSQL.
Proof. intros id uid env db row db' [= H <-]. split; [done|]. by eapply member_in_project. Qed.
Lemma queueScope_in : in_project queueScopeSQL.
Proof.
  intros id uid env db row db' [= H <-]. split; [done|]. destruct (queues db !! id); [|done]. by eapply member_in_project.
Qed.
Lemma policyScope_in : in_project policyScopeSQL.
Proof.
  intros id uid env db row db' [= H <-]. split; [done|]. destruct (policies db !! id); [|done]. by eapply member_in_project.
Qed.
Lemma jobScope_in : in_project jobScopeSQL.
Proof.
  intros id uid env db row db' [= H <-]. split; [done|]. destruct (jobs db !! id); [|done]. by eapply member_in_project.
Qed.
Lemma scheduleScope_in : in_project scheduleScopeSQL.
Proof.
  intros id uid env db row db' [= H <-]. split; [done|]. destruct (schedules db !! id) as [s|]; [|done]. simpl in H.
  destruct (queues db !! sc_queue_id s); [|done]. by eapply member_in_project.
Qed.

Lemma kept_scope {B} l ss query name (r : Request B) uid :
  in_project query → (∀ id uid env, keeps (kept l ss) (query id uid env)) →
  tx_hoare (kept l ss) (byPath (x_uuid_Parse X) name (scopeBy query) r uid)
    (λ osc db, kept l ss db ∧ ∀ sc, osc = Some sc → sc_projectID sc ≠ uuid_Nil).
Proof.
  intros Hin Hq. unfold byPath. destruct (x_uuid_Parse X _) as [id|]; [|apply tx_hoare_throw]. unfold scopeBy.
  eapply (tx_hoare_bind _ _ (λ row db, kept l ss db ∧ ∀ x, row = Some x → is_Some (projects db !! x.1.1))).
  - apply tx_hoare_exec. intros env db Hk. pose proof (Hq id uid env db Hk) as Hk'.
    destruct (query id uid env db) as [|[[row|] db']] eqn:E; [done| |done]. split; [done|]. intros x [= <-].
    by destruct (Hin _ _ _ _ _ _ E) as [-> ?].
  - intros row. apply tx_hoare_ret. intros db [Hk Hr]. split; [done|]. intros sc.
    destruct row as [[[p o] rl]|]; [|done]. intros [= <-]. simpl. intros ->.
    destruct (Hr _ eq_refl) as [? Hp]. destruct Hk as (_ & _ & Hn). simpl in Hp. congruence.
Qed.

Lemma guarded_audits {B} min action entity (loc : locator B) (h : scoped B) r l ss :
  action ≠ "" →
  (∀ uid, tx_hoare (kept l ss) (loc r uid) (λ osc db, kept l ss db ∧ ∀ sc, osc = Some sc → sc_projectID sc ≠ uuid_Nil)) →
  (∀ sc, tx_keeps (kept l ss) (h r sc)) →
  tx_hoare (kept l ss) (guarded (x_uuid_Parse X) min action entity loc h r)
    (λ _ db, ∃ a, accounts_for (bearer r) action entity ss a ∧ kept (l ++ [a]) ss db).
Proof.
  intros Ha Hl Hh. unfold guarded.
  eapply (tx_hoare_bind _ _ (λ u db, kept l ss db ∧ ∃ sid s, x_uuid_Parse X (bearer r) = Some sid ∧
    ss !! sid = Some s ∧ s_user_id s = u.1)).
  { unfold authuser. case_decide; [apply tx_hoare_throw|]. destruct (x_uuid_Parse X _) as [sid|] eqn:Hp; [|apply tx_hoare_throw].
    eapply (tx_hoare_bind _ _ (λ ou db, kept l ss db ∧ ∀ uid, ou = Some uid → ∃ s, ss !! sid = Some s ∧ s_user_id s = uid)).
    - apply tx_hoare_exec. intros env. apply hoare_gets. intros db Hk. split; [done|]. intros uid.
      destruct Hk as (_ & -> & _). destruct (ss !! sid) as [s|]; [|done]. simpl. destruct (_ && _); [|done].
      intros [= <-]. by exists s.
    - intros [uid|]; [|apply tx_hoare_throw]. apply tx_hoare_ret. intros db [Hk Hs].
      destruct (Hs uid eq_refl) as (s & ? & ?). split; [done|]. by exists sid, s. }
  intros [uid sid]. intros w x w' Hrun [Hk Hs]. revert w x w' Hrun Hk.
  match goal with |- ∀ w x w', ?m w = (x, w') → _ => change (tx_hoare (kept l ss) m
    (λ _ db, ∃ a, accounts_for (bearer r) action entity ss a ∧ kept (l ++ [a]) ss db)) end.
  eapply tx_hoare_bind; [apply Hl|]. intros [sc|]; [|apply tx_hoare_throw]. destruct (_ <? _); [apply tx_hoare_throw|].
  intros w x w' Hrun [Hk Hsc]. specialize (Hsc sc eq_refl). revert w x w' Hrun Hk. cbv zeta.
  match goal with |- ∀ w x w', ?m w = (x, w') → _ => change (tx_hoare (kept l ss) m
    (λ _ db, ∃ a, accounts_for (bearer r) action entity ss a ∧ kept (l ++ [a]) ss db)) end.
  eapply tx_hoare_bind; [apply Hh|]. intros res. simpl. rewrite (decide_False (P:=sc_projectID sc = _)) by done.
  rewrite !bool_decide_eq_true_2 by done. simpl.
  eapply (tx_hoare_bind _ _ (λ _ db, ∃ a, accounts_for (bearer r) action entity ss a ∧ kept (l ++ [a]) ss db));
    [|intros []; by apply tx_hoare_ret].
  apply tx_hoare_exec. intros env. unfold auditSQL. apply hoare_modify. intros db (H1 & H2 & H3).
  eexists. split; [|by split; [simpl; rewrite H1|]]. by split_and!.
Qed.

(** What the log holds of a request, however its transaction was retried. *)
Definition accounted (tok action entity : string) (db0 db : DB) : Prop :=
  ∃ rows, kept (audit_log db0 ++ rows) (sessions db0) db ∧
    Forall (accounts_for tok action entity (sessions db0)) rows ∧ (rows = [] → db = db0).

Lemma guard_accounts {B} min action entity (loc : locator B) (h : scoped B) r db0 calls :
  action ≠ "" →
  (∀ l ss uid, tx_hoare (kept l ss) (loc r uid) (λ osc db, kept l ss db ∧ ∀ sc, osc = Some sc → sc_projectID sc ≠ uuid_Nil)) →
  (∀ l ss sc, tx_keeps (kept l ss) (h r sc)) → projects db0 !! uuid_Nil = None → (∀ n db, c_other (calls n) db = db) →
  accounted (bearer r) action entity db0 (final_db (guard (x_uuid_Parse X) min action entity loc h r) (start db0 calls)).
Proof.
  intros Ha Hl Hh Hn Ho. set (I := accounted (bearer r) action entity db0).
  assert (tx_hoare I (guarded (x_uuid_Parse X) min action entity loc h r) (λ _, I)) as Htx.
  { intros w x w' Hrun (rows & Hk & Hall & _).
    destruct (guarded_audits min action entity loc h r _ _ Ha (Hl _ _) (Hh _ _) w x w' Hrun Hk) as (H1 & H2 & H3).
    split; [done|]. split; [done|]. destruct x as [|res]; [done|]. destruct H3 as (a & Hacc & Hk').
    exists (rows ++ [a]). rewrite app_assoc. split; [done|]. split; [by apply list.Forall_app; split; [|constructor]|].
    by destruct rows. }
  pose proof (go_keeps_handler I maxTxRetries (ErrOther "nil") _ Htx (start db0 calls)) as Hk.
  unfold final_db, guard, server_tx, mbind, go_bind, caught. destruct (tx_attempts _ _ _ _) as [res w'].
  apply Hk. split; [done|]. split; [|intros n db; by rewrite Ho].
  exists []. rewrite app_nil_r. by split_and!.
Qed.

End audits.

(** ** The claim *)

(** The action and the entity of a request on something in a project; creating one,
    or changing an organization, is a request on the organization. *)
Definition audited (rq : mutation) : option (string * string) :=
  match rq with
  | Routed (PatchProject _) => Some ("project.update", "project")
  | Routed (PostPolicies _) => Some ("policy.create", "retry_policy")
  | Routed (PatchPolicy _) => Some ("policy.update", "retry_policy")
  | Routed (DeletePolicy _) => Some ("policy.delete", "retry_policy")
  | Routed (PostQueues _) => Some ("queue.create", "queue")
  | Routed (PatchQueue _) => Some ("queue.update", "queue")
  | Routed (PauseQueue _) => Some ("queue.pause", "queue")
  | Routed (ResumeQueue _) => Some ("queue.resume", "queue")
  | Routed (PostSchedules _) => Some ("schedule.create", "schedule")
  | Routed (PatchSchedule _) => Some ("schedule.update", "schedule")
  | Routed (PauseSchedule _) => Some ("schedule.pause", "schedule")
  | Routed (ResumeSchedule _) => Some ("schedule.resume", "schedule")
  | Routed (PostJobs _) => Some ("job.submit", "job")
  | Routed (PostBatch _ _) => Some ("job.submit_batch", "batch")
  | Routed (CancelJob _) => Some ("job.cancel", "job")
  | Routed (RetryJob _) => Some ("job.retry", "job")
  | Routed (ReplayQueue _) => Some ("job.replay_bulk", "queue")
  | Routed (ReplayJob _) => Some ("job.replay", "job")
  | Removing (DeleteProject _) => Some ("project.delete", "project")
  | Removing (DeleteQueue _) => Some ("queue.delete", "queue")
  | Removing (DeleteSchedule _) => Some ("schedule.delete", "schedule")
  | _ => None
  end.

#[local] Hint Resolve projectScope_in queueScope_in policyScope_in jobScope_in scheduleScope_in : trail.
#[local] Hint Resolve tr_submitJob tr_submitBatch tr_cancelJob tr_retryJob tr_replayJob tr_replayQueue tr_createQueue
  tr_updateQueue tr_pauseQueue tr_resumeQueue tr_createPolicy tr_updatePolicy tr_deletePolicy_h tr_createSchedule tr_updateSchedule
  tr_pauseSchedule tr_resumeSchedule kept_updateProject kept_deleteProject kept_deleteQueue kept_deleteSchedule : trail.

(** C31 (safety): no change in a project goes unaudited.  A request on something in
    a project - its settings, a policy, a queue, a schedule, a job, the deletions
    included - whichever of its calls fail or lose their answers and however often
    its transaction is retried: it only adds rows to the audit log, each with the
    action and the entity of the request, a project, and the user of the session
    its token names; and if it added none, it changed nothing at all. *)
Theorem changes_audited X rq action entity calls db :
  audited rq = Some (action, entity) → projects db !! uuid_Nil = None → (∀ n d, c_other (calls n) d = d) →
  let db' := final_db (respond X rq) (start db calls) in
  ∃ rows, audit_log db' = audit_log db ++ rows ∧ (rows = [] → db' = db) ∧
    Forall (λ a, au_action a = action ∧ au_entity a = entity ∧ au_project_id a ≠ uuid_Nil ∧
      ∃ sid s, x_uuid_Parse X (token rq) = Some sid ∧ sessions db !! sid = Some s ∧ s_user_id s = actor_id a) rows.
Proof.
  intros Hau Hn Ho db'.
  assert (accounted X (token rq) action entity db db') as (rows & (Hl & _ & _) & Hall & He); [|by exists rows].
  subst db'. destruct rq as [rt|rm]; [destruct rt|destruct rm]; try discriminate Hau; injection Hau as <- <-;
    (apply guard_accounts; [done| | |done|done]);
    (intros l ss; first [intros uid; apply kept_scope; [solve [auto with trail]|intros; apply keeps_gets]
                        |intros sc; solve [auto with trail typeclass_instances]]).
Qed.


(** A request to cancel job 14 whose commit goes through and whose answer is lost:
    the client sees a 500, and the log has the row. *)
Definition cancelling : mutation := Routed (CancelJob (request 14 tt)).
Definition lossy (n : nat) : Call := mkCall env0 (if decide (n = 9%nat) then FailAfter (ErrConn false) else NoFault) id.

Lemma changes_audited_witness :
  let w := start db0 lossy in
  let db' := final_db (respond X0 cancelling) w in
  rs_status <$> match answer (respond X0 cancelling) w with inr r => Some r | inl _ => None end = Some 500 ∧
  audit_log db' = [mkAudit 2 6 "job.cancel" "job" (Some 14%N) (Some [("from", jstr "running")]) 900000000] ∧
  ∃ rows, audit_log db' = audit_log db0 ++ rows ∧ rows ≠ [].
Proof.
  cbv zeta. split; [by vm_compute|]. split; [by vm_compute|].
  destruct (changes_audited X0 cancelling "job.cancel" "job" lossy db0) as (rows & H1 & H2 & _); [done|by vm_compute|done|].
  exists rows. split; [exact H1|]. intros ->. apply (f_equal length) in H1. by vm_compute in H1.
Defined.
