(* ===== verification/Pages.v ===== *)
(** * The lists page by page

    A client that follows [next_cursor] is given every matching row once, newest
    first.  The cursor survives its encoding, the query the handler builds asks
    for the rows below the cursor, and the rows below the last one of a page are
    the rest. *)

From S2P Require Import Prelude Text Calendar Schema Fl Pool Api ApiJobs Views System Fixture Access.

#[local] Open Scope string_scope.
#[local] Open Scope list_scope.
#[local] Open Scope Z_scope.

(** ** The order of the rows *)

#[export] Instance row_lt_trans : Transitive row_lt.
Proof. intros a b c. unfold row_lt. lia. Qed.

Lemma row_lt_total a b : row_lt a b ∨ a = b ∨ row_lt b a.
Proof. destruct a as [t i], b as [t' i']. unfold row_lt. simpl. rewrite pair_eq. lia. Qed.

Lemma row_lt_irrefl a : ¬ row_lt a a.
Proof. unfold row_lt. lia. Qed.

Section order.
Context {V : Type} (key : uuid * V → timestamp * uuid).

#[export] Instance desc_total : Total (desc key).
Proof.
  intros x y. unfold desc. destruct (decide (row_lt (key x) (key y))) as [H|]; [|by left].
  right. intros H'. by apply (row_lt_irrefl (key x)), (transitivity H).
Qed.

#[export] Instance desc_trans : Transitive (desc key).
Proof.
  intros x y z. unfold desc. intros Hxy Hyz Hxz.
  destruct (row_lt_total (key y) (key x)) as [H|[H|H]]; [|by rewrite H in Hyz|done].
  apply Hyz. by apply (transitivity H).
Qed.

(** The rows below a key. *)
Definition below (k : option (timestamp * uuid)) (x : uuid * V) : Prop :=
  match k with None => True | Some k => row_lt (key x) k end.

#[export] Instance below_dec k x : Decision (below k x).
Proof. destruct k; simpl; apply _. Defined.

(** What comes after a row of a list with distinct keys, newest first. *)
Lemma below_row l1 x l2 :
  StronglySorted (desc key) (l1 ++ x :: l2) → NoDup (key <$> l1 ++ x :: l2) →
  filter (below (Some (key x))) (l1 ++ x :: l2) = l2.
Proof.
  intros Hs Hn. rewrite list.filter_app. rewrite fmap_app, fmap_cons in Hn.
  apply list.NoDup_app in Hn as (_ & Hd & [Hx _]%list.NoDup_cons).
  assert (filter (below (Some (key x))) l1 = []) as ->.
  { apply filter_none. intros y Hy Hb.
    apply StronglySorted_app in Hs as [Hs _]. apply (Hs y x); [done|by left|done]. }
  rewrite filter_cons_False by apply row_lt_irrefl.
  apply filter_every. apply StronglySorted_app_1_r in Hs. apply StronglySorted_inv in Hs as [_ Hs].
  intros y Hy. rewrite list.Forall_forall in Hs. specialize (Hs y Hy). simpl.
  destruct (row_lt_total (key x) (key y)) as [?|[E|?]]; [done| |done].
  exfalso. apply Hx. rewrite E. by apply list_elem_of_fmap_2.
Qed.

(** Sorting commutes with filtering. *)
Lemma sort_filter (P : uuid * V → Prop) `{!∀ x, Decision (P x)} l :
  NoDup (key <$> l) → merge_sort (desc key) (filter P l) = filter P (merge_sort (desc key) l).
Proof.
  intros Hn. apply (StronglySorted_unique_strong (desc key)).
  - intros x y Hx Hy H1 H2. rewrite merge_sort_Permutation in Hx. apply list_elem_of_filter in Hx as [_ Hx].
    apply list_elem_of_filter in Hy as [_ Hy]. rewrite merge_sort_Permutation in Hy.
    assert (key x = key y) as E by (destruct (row_lt_total (key x) (key y)) as [?|[?|?]]; done).
    apply list_elem_of_lookup in Hx as [i Hi], Hy as [j Hj].
    assert (i = j) as ->; [|congruence].
    eapply list.NoDup_lookup; [exact Hn|..]; rewrite list_lookup_fmap; [rewrite Hi|rewrite Hj]; simpl; [done|by rewrite E].
  - apply StronglySorted_merge_sort; apply _.
  - assert (StronglySorted (desc key) (merge_sort (desc key) l)) as Hs by (apply StronglySorted_merge_sort; apply _).
    induction Hs as [|x l' Hs IH Hf]; [constructor|]. rewrite filter_cons. case_decide; [|done].
    constructor; [done|]. rewrite list.Forall_forall in Hf |- *. intros y [_ Hy]%list_elem_of_filter. by apply Hf.
  - by rewrite !merge_sort_Permutation.
Qed.

End order.

(** ** The query builder *)

Section builder.
Context {V : Type} (col : columns V).

(** Every number in the conditions is that of an argument. *)
Definition cond_ok (n : nat) (c : cond) : Prop :=
  match c with
  | CEq _ k => (1 ≤ k ≤ n)%nat
  | CBefore _ k l => (1 ≤ k ≤ n)%nat ∧ (1 ≤ l ≤ n)%nat
  end.
Definition query_ok (q : query) : Prop := Forall (cond_ok (length (qb_args q))) (qb_where q).

Definition query_holds (q : query) (row : uuid * V) : bool :=
  forallb (cond_holds col (qb_args q) row) (qb_where q).

Lemma dollar_arg_app args more n : (1 ≤ n ≤ length args)%nat → dollar_arg (args ++ more) n = dollar_arg args n.
Proof. destruct n as [|n]; [lia|]. intros Hn. simpl. apply lookup_app_l. lia. Qed.

(** Arguments that are added later do not matter. *)
Lemma query_holds_app q more row :
  query_ok q → forallb (cond_holds col (qb_args q ++ more) row) (qb_where q) = query_holds q row.
Proof.
  unfold query_ok, query_holds. induction 1 as [|c cs Hc _ IH]; [done|]. simpl. rewrite IH. f_equal.
  destruct c as [a n|[a b] m n]; simpl in Hc |- *.
  - by rewrite dollar_arg_app.
  - destruct Hc. by rewrite !dollar_arg_app.
Qed.

Lemma cond_ok_le n n' c : (n ≤ n')%nat → cond_ok n c → cond_ok n' c.
Proof. destruct c; simpl; lia. Qed.

Lemma forallb_snoc {A} (f : A → bool) l x : forallb f (l ++ [x]) = forallb f l && f x.
Proof. rewrite forallb_app. simpl. by rewrite andb_true_r. Qed.

Lemma query_ok_snoc q c more :
  query_ok q → cond_ok (length (qb_args q ++ more)) c → query_ok (mkQuery (qb_where q ++ [c]) (qb_args q ++ more)).
Proof.
  intros Hq Hc. apply list.Forall_app. split; [|by constructor]. eapply list.Forall_impl; [exact Hq|].
  intros c'. apply cond_ok_le. simpl. rewrite length_app. lia.
Qed.

Lemma query_eq_ok c v q : query_ok q → query_ok (query_eq c v q).
Proof. intros Hq. apply query_ok_snoc; [done|]. simpl. rewrite length_app. simpl. lia. Qed.

(** [eq] adds the condition that the column is [v]. *)
Lemma query_eq_holds c v q row :
  query_ok q → query_holds (query_eq c v q) row = query_holds q row && bool_decide (col row c = Some v).
Proof.
  intros Hq. unfold query_holds at 1, query_eq. simpl. rewrite forallb_snoc, query_holds_app by done. f_equal.
  simpl. rewrite length_app, Nat.add_1_r. simpl.
  replace ((qb_args q ++ [v]) !! length (qb_args q)) with (Some v)
    by (rewrite lookup_app_r, Nat.sub_diag by lia; done).
  destruct (col row c) as [x|]; [|by rewrite bool_decide_eq_false_2].
  apply bool_decide_ext. naive_solver.
Qed.

Lemma query_eq_opt_ok c v q : query_ok q → query_ok (query_eq_opt c v q).
Proof. destruct v; [apply query_eq_ok|done]. Qed.

Lemma query_eq_opt_holds c v q row :
  query_ok q → query_ok (query_eq_opt c v q) ∧
  query_holds (query_eq_opt c v q) row =
    query_holds q row && from_option (λ a, bool_decide (col row c = Some a)) true v.
Proof.
  intros Hq. destruct v as [a|]; simpl; [|by rewrite andb_true_r].
  split; [by apply query_eq_ok|by apply query_eq_holds].
Qed.

(** [before] adds the condition that the row is below the cursor. *)
Lemma query_before_holds tail t i q row :
  query_ok q → (∃ t i, col row tail.1 = Some (ATime t) ∧ col row tail.2 = Some (AId i)) →
  query_ok (query_before tail t i q) ∧
  query_holds (query_before tail t i q) row =
    query_holds q row && bool_decide (below (order_key col tail) ((λ t, (t, i)) <$> t) row).
Proof.
  intros Hq (t' & i' & H1 & H2). destruct tail as [a b], t as [t|]; simpl in *; [|by rewrite andb_true_r].
  split.
  - apply query_ok_snoc; [done|]. simpl. rewrite length_app. simpl. lia.
  - unfold query_holds at 1. simpl. rewrite forallb_snoc, query_holds_app by done. f_equal. simpl.
    rewrite length_app. simpl. unfold order_key. simpl. rewrite H1, H2.
    replace (length (qb_args q) + 2 - 1)%nat with (S (length (qb_args q))) by lia.
    replace (length (qb_args q) + 2)%nat with (S (S (length (qb_args q)))) by lia. simpl.
    rewrite !lookup_app_r by lia. rewrite Nat.sub_diag.
    replace (S (length (qb_args q)) - length (qb_args q))%nat with 1%nat by lia. simpl.
    by apply bool_decide_ext.
Qed.

(** The rows a page has: those below the cursor, of all that match. *)
Lemma run_page tail limit c q (m : gmap uuid V) :
  query_ok q → (∀ i v, ∃ t, col (i, v) tail.1 = Some (ATime t) ∧ col (i, v) tail.2 = Some (AId i)) →
  run_statement col (query_build tail limit (before_cursor tail c q)) m =
  take (Z.to_nat limit) (filter (below (order_key col tail) ((λ c : Z * uuid, (c.1 / 1000, c.2)) <$> c))
    (merge_sort (desc (order_key col tail)) (select (λ i v, query_holds q (i, v)) m))).
Proof.
  intros Hq Hcol. unfold run_statement. cbn [query_build st_args st_limit st_order st_where].
  rewrite length_app, Nat.add_1_r. simpl dollar_arg. rewrite lookup_app_r, Nat.sub_diag by lia. simpl.
  f_equal. rewrite <- sort_filter.
  - f_equal. unfold select. rewrite list_filter_filter. apply list_filter_iff. intros [i v]. simpl.
    destruct (Hcol i v) as (t & H1 & H2).
    destruct (query_before_holds tail ((λ c : Z * uuid, c.1 / 1000) <$> c) (from_option snd uuid_Nil c) q (i, v))
      as [Hok Hh]; [done|eauto|].
    rewrite query_holds_app by done. unfold before_cursor. rewrite Hh, andb_true_iff, bool_decide_eq_true.
    destruct c as [[n k]|]; simpl; tauto.
  - assert (NoDup (select (λ i v, query_holds q (i, v)) m).*1) as Hn by apply NoDup_select.
    revert Hn. generalize (select (λ i v, query_holds q (i, v)) m). intros l Hn.
    assert (snd <$> (order_key col tail <$> l) = l.*1) as E.
    { rewrite <- list_fmap_compose. apply list_fmap_ext. intros n [i v] _. simpl. unfold order_key.
      destruct (Hcol i v) as (t & -> & ->). done. }
    rewrite <- E in Hn. by eapply NoDup_fmap_1.
Qed.

End builder.

(** ** The cursor *)

Section cursor.
Context (uuid_Parse : string → option uuid) (uuid_String : uuid → string).

Lemma decode_encode_cursor t i :
  uuid_Parse (uuid_String i) = Some i → four_digit_year t →
  decodeCursor uuid_Parse (encodeCursor uuid_String t i) = inr (Some (t * 1000, i)).
Proof.
  intros Hi Ht. unfold decodeCursor, encodeCursor. rewrite decide_False.
  - rewrite Decode_Encode, Cut_app by apply Format_plain. by rewrite Parse_Format, Hi.
  - intros He. pose proof (Decode_Encode URLEncoding (Format t +:+ String bar (uuid_String i))) as Hd.
    rewrite He in Hd. injection Hd as Hd. by destruct (Format t).
Qed.

Lemma encode_cursor_nonempty t i : encodeCursor uuid_String t i ≠ "".
Proof.
  unfold encodeCursor. intros He.
  pose proof (Decode_Encode URLEncoding (Format t +:+ String bar (uuid_String i))) as Hd.
  rewrite He in Hd. injection Hd as Hd. by destruct (Format t).
Qed.

(** ** A client *)

(** The items and the cursor of a page. *)
Definition page_of (res : result) : option (list json * string) :=
  match r_body res with
  | Some (JObj [("items", JArr l); ("next_cursor", JVal (jstr c))]) => Some (l, c)
  | _ => None
  end.

(** Follows the cursors, for at most [n] pages. *)
Fixpoint crawl (n : nat) (page : string → go result) (c : string) : go (list json) :=
  match n with
  | O => throw (ErrOther "too many pages")
  | S n' =>
    res ← page c;
    match page_of res with
    | None => throw (ErrOther "not a page")
    | Some (items, next) =>
      if decide (next = "") then mret items else
      rest ← crawl n' page next; mret (items ++ rest)
    end
  end.

Context {V : Type} (item : uuid * V → json) (at_ : V → timestamp) (limit : Z).

(** The order of the list, and what the pages are cut from. *)
Definition list_key (x : uuid * V) : timestamp * uuid := (at_ x.2, x.1).
Context (rows : list (uuid * V)).
Context (Hsorted : StronglySorted (desc list_key) rows) (Hdistinct : NoDup (list_key <$> rows)).
Context (Hlimit : 0 < limit).

(** The cursor that stands for a key. *)
Definition cursor_at (k : option (timestamp * uuid)) : string :=
  match k with None => "" | Some (t, i) => encodeCursor uuid_String t i end.

Context (env : Env) (db snap : DB) (page : string → go result).
Context (Hpage : ∀ k, (∀ k', k = Some k' → k' ∈ list_key <$> rows) →
  reads env db snap (page (cursor_at k))
    (inr (page_body uuid_String item limit at_ (take (Z.to_nat limit) (filter (below list_key k) rows))))).

Lemma page_of_body out :
  page_of (page_body uuid_String item limit at_ out) = Some (item <$> out, next_cursor uuid_String limit at_ out).
Proof. done. Qed.

Lemma crawl_rest n k before rest :
  rows = before ++ rest → filter (below list_key k) rows = rest →
  (∀ k', k = Some k' → k' ∈ list_key <$> rows) → (length rest < n)%nat →
  reads env db snap (crawl n page (cursor_at k)) (inr (item <$> rest)).
Proof.
  revert k before rest. induction n as [|n IH]; intros k before rest Hrows Hrest Hk Hn; [lia|].
  cbn [crawl]. eapply reads_bind; [by apply Hpage|]. rewrite Hrest, page_of_body. unfold next_cursor.
  destruct (Z.eqb_spec (Z.of_nat (length (take (Z.to_nat limit) rest))) limit) as [Hfull|Hshort].
  - destruct (list.last (take (Z.to_nat limit) rest)) as [[i v]|] eqn:Hlast;
      [|apply last_None in Hlast; rewrite Hlast in Hfull; simpl in Hfull; lia].
    rewrite decide_False by apply encode_cursor_nonempty.
    apply last_Some in Hlast as [l Hl].
    assert (rows = (before ++ l) ++ (i, v) :: drop (Z.to_nat limit) rest) as Hsplit.
    { rewrite Hrows. rewrite <- (take_drop (Z.to_nat limit) rest) at 1. rewrite Hl, <- !app_assoc. done. }
    eapply reads_bind.
    + apply (IH (Some (list_key (i, v))) ((before ++ l) ++ [(i, v)]) (drop (Z.to_nat limit) rest)).
      * rewrite Hsplit, <- !app_assoc. done.
      * rewrite Hsplit in Hsorted, Hdistinct |- *. by apply below_row.
      * intros k' [= <-]. rewrite Hsplit. apply list_elem_of_fmap_2, elem_of_app. right. by left.
      * rewrite length_take in Hfull. rewrite length_drop. lia.
    + rewrite <- fmap_app, take_drop. apply reads_ret.
  - rewrite decide_True by done. rewrite take_ge; [apply reads_ret|]. rewrite length_take in Hshort. lia.
Qed.

Lemma crawl_all n : (length rows < n)%nat → reads env db snap (crawl n page "") (inr (item <$> rows)).
Proof. intros Hn. apply (crawl_rest n None [] rows); try done. by apply filter_every. Qed.

End cursor.

(** ** The theorems *)

(** [r] with another cursor. *)
Definition at_cursor {B} (r : Request B) (c : string) : Request B :=
  mkRequest B (rq_header r) (rq_cookie r) (rq_protocols r) (rq_path r)
    (λ name, if decide (name = "cursor") then c else rq_query r name) (rq_body r) (rq_id r).

(** A filter of the query: none when the parameter is missing. *)
Definition given (v : string) (test : string → bool) : bool := if decide (v = "") then true else test v.

(** The jobs a request asks for. *)
Definition wanted (uuid_Parse : string → option uuid) {B} (r : Request B) (project : uuid) (i : uuid) (j : Job) : bool :=
  bool_decide (project_id j = project) &&
  given (rq_query r "status") (λ s, bool_decide (status_text (status j) = s)) &&
  given (rq_query r "type") (λ t, bool_decide (jtype j = t)) &&
  given (rq_query r "queue") (λ q, bool_decide (uuid_Parse q = Some (queue_id j))).

(** Newest first. *)
Definition newest {V} (at_ : V → timestamp) (l : list (uuid * V)) : list (uuid * V) :=
  merge_sort (desc (list_key at_)) l.

Lemma pageLimit_range {B} (r : Request B) : 0 < pageLimit r ≤ 100.
Proof.
  unfold pageLimit, defaultLimit, maxLimit. case_decide; [lia|]. destruct (Atoi _) as [n|]; [|lia].
  destruct (Z.leb_spec n 0); [lia|]. destruct (Z.ltb_spec 100 n); lia.
Qed.

Lemma NoDup_keys {V} (at_ : V → timestamp) (l : list (uuid * V)) : NoDup l.*1 → NoDup (list_key at_ <$> l).
Proof.
  intros Hn. apply (NoDup_fmap_1 snd). rewrite <- list_fmap_compose. exact Hn.
Qed.

Section lists.
Context (uuid_Parse : string → option uuid) (uuid_String : uuid → string).

(** The ids and the times a cursor can carry. *)
Definition cursor_fits (i : uuid) (t : timestamp) : Prop :=
  uuid_Parse (uuid_String i) = Some i ∧ four_digit_year t.

#[export] Instance cursor_fits_dec i t : Decision (cursor_fits i t).
Proof. unfold cursor_fits. apply _. Defined.

(** A handler whose pages are the rows of a query below the cursor lists them
    all. *)
Lemma lists_all {V} (col : columns V) (item : uuid * V → json) (at_ : V → timestamp) tail (m : gmap uuid V)
    (q : query) limit env db snap (page : string → go result) :
  query_ok q → 0 < limit → order_key col tail = list_key at_ →
  (∀ i v, col (i, v) tail.1 = Some (ATime (at_ v)) ∧ col (i, v) tail.2 = Some (AId i)) →
  (∀ i v, m !! i = Some v → cursor_fits i (at_ v)) →
  (∀ s c, decodeCursor uuid_Parse s = inr c → reads env db snap (page s)
     (inr (page_body uuid_String item limit at_
        (run_statement col (query_build tail limit (before_cursor tail c q)) m)))) →
  let rows := newest at_ (select (λ i v, query_holds col q (i, v)) m) in
  ∀ n, (length rows < n)%nat → reads env db snap (crawl n page "") (inr (item <$> rows)).
Proof.
  intros Hq Hlim Hkey Hcol Hfits Hpage rows n Hn.
  assert (NoDup (list_key at_ <$> rows)) as Hnd.
  { unfold rows, newest. rewrite merge_sort_Permutation. apply NoDup_keys, NoDup_select. }
  apply (crawl_all uuid_String item at_ limit); [|done|done| |done].
  { apply StronglySorted_merge_sort; apply _. }
  intros k Hk.
  assert (∃ c, decodeCursor uuid_Parse (cursor_at uuid_String k) = inr c ∧
    (λ c : Z * uuid, (c.1 / 1000, c.2)) <$> c = k) as (c & Hc & Hck).
  { destruct k as [[t i]|]; [|by exists None]. exists (Some (t * 1000, i)). simpl. rewrite Z.div_mul by lia.
    split; [|done]. specialize (Hk _ eq_refl). apply list_elem_of_fmap in Hk as ([i' v] & [= -> ->] & Hin).
    unfold rows, newest in Hin. rewrite merge_sort_Permutation in Hin. apply elem_of_select in Hin as [Hin _].
    destruct (Hfits _ _ Hin). by apply decode_encode_cursor. }
  rewrite <- Hck. replace (filter _ rows) with (filter (below (order_key col tail)
    ((λ c : Z * uuid, (c.1 / 1000, c.2)) <$> c)) rows) by (by rewrite Hkey).
  unfold rows, newest. rewrite <- Hkey.
  rewrite <- run_page by (try done; intros i v; eexists; apply Hcol). rewrite Hck. by apply Hpage.
Qed.

(** The filters of a request for jobs. *)
Definition jobs_query {B} (r : Request B) (project : uuid) (queueFilter : option uuid) : query :=
  query_eq_opt "queue_id" (AId <$> queueFilter)
    (query_eq_opt "type" (if decide (rq_query r "type" = "") then None else Some (AText (rq_query r "type")))
    (query_eq_opt "status" (if decide (rq_query r "status" = "") then None else Some (AText (rq_query r "status")))
    (query_eq "project_id" (AId project) new_query))).

Lemma given_text x y v :
  x = Some (AText y) →
  from_option (λ a, bool_decide (x = Some a)) true (if decide (v = "") then None else Some (AText v)) =
  given v (λ s, bool_decide (y = s)).
Proof.
  intros ->. unfold given. case_decide; [done|]. apply bool_decide_ext. split; congruence.
Qed.

Lemma jobs_query_holds {B} (r : Request B) project queueFilter row :
  (rq_query r "queue" = "" ∧ queueFilter = None ∨
   rq_query r "queue" ≠ "" ∧ uuid_Parse (rq_query r "queue") = queueFilter ∧ is_Some queueFilter) →
  query_ok (jobs_query r project queueFilter) ∧
  query_holds job_columns (jobs_query r project queueFilter) row = wanted uuid_Parse r project row.1 row.2.
Proof.
  intros Hf. unfold jobs_query.
  assert (query_ok (query_eq "project_id" (AId project) new_query)) as H0 by (apply query_eq_ok; constructor).
  destruct (query_eq_opt_holds job_columns "status"
    (if decide (rq_query r "status" = "") then None else Some (AText (rq_query r "status"))) _ row H0) as [H1 E1].
  destruct (query_eq_opt_holds job_columns "type"
    (if decide (rq_query r "type" = "") then None else Some (AText (rq_query r "type"))) _ row H1) as [H2 E2].
  destruct (query_eq_opt_holds job_columns "queue_id" (AId <$> queueFilter) _ row H2) as [H3 E3].
  split; [done|]. rewrite E3, E2, E1, query_eq_holds by constructor.
  rewrite (given_text _ (status_text (status row.2))), (given_text _ (jtype row.2)) by done.
  unfold wanted. f_equal; [do 2 f_equal|].
  - apply bool_decide_ext. change (job_columns row _) with (Some (AId (project_id row.2))). split; congruence.
  - clear E1 E2 E3. unfold given.
    destruct Hf as [[Hq ->]|(Hq & -> & [i ->])]; [by rewrite decide_True|]. rewrite decide_False by done.
    apply bool_decide_ext. change (job_columns row _) with (Some (AId (queue_id row.2))). split; congruence.
Qed.

(** A request whose filters the handler takes. *)
Definition proper_filters {B} (r : Request B) : Prop :=
  (rq_query r "status" = "" ∨ rq_query r "status" ∈ jobStatuses) ∧
  (rq_query r "queue" = "" ∨ is_Some (uuid_Parse (rq_query r "queue"))).

Lemma reads_queue_filter {B} (r : Request B) env db snap :
  rq_query r "queue" = "" ∨ is_Some (uuid_Parse (rq_query r "queue")) →
  ∃ f, reads env db snap (queue_filter uuid_Parse r) (inr f) ∧
    (rq_query r "queue" = "" ∧ f = None ∨
     rq_query r "queue" ≠ "" ∧ uuid_Parse (rq_query r "queue") = f ∧ is_Some f).
Proof.
  intros Hq. unfold queue_filter. destruct (decide (rq_query r "queue" = "")) as [He|He].
  - exists None. split; [apply reads_ret|by left].
  - destruct Hq as [|[i Hi]]; [done|]. exists (Some i). rewrite Hi. split; [apply reads_ret|]. right. eauto.
Qed.

End lists.

(** A cursor comes back as it was made.  The time and the id of
    the last row of a page, in the text the client is given as [next_cursor], are
    read back to the microsecond, for every year of four digits and every id that
    [google/uuid] prints and parses. *)
Theorem cursor_roundtrip uuid_Parse uuid_String t i :
  cursor_fits uuid_Parse uuid_String i t →
  decodeCursor uuid_Parse (encodeCursor uuid_String t i) = inr (Some (t * 1000, i)).
Proof. intros [Hi Ht]. by apply decode_encode_cursor. Qed.

Lemma cursor_roundtrip_witness :
  decodeCursor (x_uuid_Parse X0) (encodeCursor (x_uuid_String X0) 1709208000123450 12) =
    inr (Some (1709208000123450000, 12%N)).
Proof. apply cursor_roundtrip. by split; vm_compute. Defined.

(** C37 (functional): the pages of [GET /jobs] are all of the list.  A client
    that asks for the jobs of a project, with any filters the handler takes and
    any page size, and follows [next_cursor] until there is none, is given every
    job that matches, once, the newest first, after at most one request more than
    there are jobs. *)
Theorem list_jobs_complete {B} uuid_Parse uuid_String (r : Request B) sc env db snap :
  (∀ i j, jobs db !! i = Some j → cursor_fits uuid_Parse uuid_String i (created_at j)) →
  proper_filters uuid_Parse r →
  ∃ rows, (∀ i j, (i, j) ∈ rows ↔ jobs db !! i = Some j ∧ wanted uuid_Parse r (sc_projectID sc) i j = true) ∧
    NoDup rows.*1 ∧ StronglySorted (desc (list_key created_at)) rows ∧
    ∀ n, (length rows < n)%nat →
      reads env db snap (crawl n (λ c, listJobs uuid_Parse uuid_String (at_cursor r c) sc) "")
        (inr (job_item <$> rows)).
Proof.
  intros Hfits [Hst Hqu]. exists (newest created_at (select (wanted uuid_Parse r (sc_projectID sc)) (jobs db))).
  destruct (reads_queue_filter uuid_Parse r env db snap Hqu) as (f & Hrf & Hf).
  split_and!.
  - intros i j. unfold newest. by rewrite merge_sort_Permutation, elem_of_select.
  - unfold newest. rewrite merge_sort_Permutation. apply NoDup_select.
  - apply StronglySorted_merge_sort; apply _.
  - assert (select (wanted uuid_Parse r (sc_projectID sc)) (jobs db) =
      select (λ i j, query_holds job_columns (jobs_query r (sc_projectID sc) f) (i, j)) (jobs db)) as ->.
    { unfold select. apply list_filter_iff. intros [i j]. cbn [fst snd].
      by destruct (jobs_query_holds uuid_Parse r (sc_projectID sc) f (i, j) Hf) as [_ ->]. }
    apply (lists_all uuid_Parse uuid_String job_columns job_item created_at ("created_at", "id") (jobs db)
      (jobs_query r (sc_projectID sc) f) (pageLimit r)); [|apply pageLimit_range|done|done|done|].
    { by repeat apply query_eq_opt_ok; apply query_eq_ok; constructor. }
    intros s c Hc. unfold listJobs. cbv zeta. change (rq_query (at_cursor r s) "status") with (rq_query r "status").
    destruct (negb _ && negb _) eqn:Hbad; [exfalso; destruct Hst as [Hst|Hst]|].
    + rewrite bool_decide_eq_true_2 in Hbad by done. done.
    + rewrite (bool_decide_eq_true_2 (_ ∈ _)) in Hbad by done. by rewrite andb_false_r in Hbad.
    + eapply reads_bind; [exact Hrf|]. eapply reads_bind.
      { change (rq_query (at_cursor r s) "cursor") with s. rewrite Hc. apply reads_ret. }
      eapply reads_bind; [by apply reads_exec|]. apply reads_ret.
Qed.

(** The jobs of type send of project 2, two by two. *)
Definition two_by_two : Request unit :=
  mkRequest unit (λ _, "") None [] (λ _, "")
    (λ q, if decide (q = "limit") then "2" else if decide (q = "type") then "send" else "") (Some tt) "rid".

Lemma list_jobs_complete_witness :
  ∃ rows, (10%N, job0 "send" 0 100) ∈ rows ∧ (13%N, job0 "print" 9 100) ∉ rows ∧
    reads env0 db0 db0 (crawl (S (length rows))
      (λ c : string, listJobs (x_uuid_Parse X0) (x_uuid_String X0) (at_cursor two_by_two c) (mkScope 6 7 1 2 2 viewer)) "")
      (inr (job_item <$> rows)).
Proof.
  destruct (list_jobs_complete (x_uuid_Parse X0) (x_uuid_String X0) two_by_two (mkScope 6 7 1 2 2 viewer) env0 db0 db0)
    as (rows & Hrows & _ & _ & Hr).
  - assert (map_Forall (λ i j, cursor_fits (x_uuid_Parse X0) (x_uuid_String X0) i (created_at j)) (jobs db0)) as H.
    { apply (bool_decide_unpack _). by vm_compute. }
    exact H.
  - split; by left.
  - exists rows. split_and!.
    + apply Hrows. split; by vm_compute.
    + intros [_ H]%Hrows. by vm_compute in H.
    + apply Hr. lia.
Defined.
