(* ===== verification/Health.v ===== *)
(** * The health of a project is the statistics of its queues

    [projectHealth] asks three queries for all the queues of a project and deals
    their rows out to the queues; [queueStats] asks for one queue.  They agree. *)

From S2P Require Import Prelude Schema Fl Pool Api ApiAdmin Views Stats Fixture.

#[local] Open Scope string_scope.
#[local] Open Scope list_scope.
#[local] Open Scope Z_scope.

(** ** Statements that only read *)

(** [m] answers [a] on [db] and leaves it as it is. *)
Definition reads_as {A} (m : sql A) (db : DB) (a : A) : Prop := m db = inr (a, db).

Lemma traverse_reads {A B} (f : B → sql A) (l : list B) db out db' :
  (∀ x a db1, f x db = inr (a, db1) → db1 = db) →
  traverse l f db = inr (out, db') → db' = db ∧ Forall2 (λ x a, reads_as (f x) db a) l out.
Proof.
  intros Hf. revert out db'. induction l as [|x l IH]; intros out db' Hrun.
  - injection Hrun as <- <-. split; [done|constructor].
  - cbn [traverse] in Hrun. unfold mbind, tx_bind in Hrun.
    destruct (f x db) as [|[a db1]] eqn:Hx; [done|]. pose proof (Hf _ _ _ Hx) as ->.
    destruct (traverse l f db) as [|[out' db2]] eqn:Hl; [done|]. injection Hrun as <- <-.
    destruct (IH _ _ eq_refl) as [-> H2]. split; [done|]. by constructor.
Qed.

Lemma to_int4_reads z db a db' : to_int4 z db = inr (a, db') → db' = db.
Proof. unfold to_int4. destruct (in_int4 z); [by intros [= _ <-]|done]. Qed.

Lemma to_int4_val z db a db' : to_int4 z db = inr (a, db') → a = z.
Proof. unfold to_int4. destruct (in_int4 z); [by intros [= <- _]|done]. Qed.

Lemma tier_row_reads env rows p a db db' : tier_row env rows p db = inr (a, db') → db' = db.
Proof.
  unfold tier_row, epoch_int, mbind, tx_bind.
  destruct (to_int4 _ db) as [|[x db1]] eqn:H1; [done|]. apply to_int4_reads in H1 as ->.
  destruct (to_int4 _ db) as [|[y db2]] eqn:H2; [done|]. apply to_int4_reads in H2 as ->. by intros [= _ <-].
Qed.

Lemma tiers_of_reads env rows a db db' : tiers_of env rows db = inr (a, db') → db' = db.
Proof. intros H. by apply traverse_reads in H as [-> _]; [|intros; eapply tier_row_reads]. Qed.

Lemma health_row_spec env db r h db' :
  health_row env db r db = inr (h, db') →
  let n := Z.of_nat (size (filter (live_worker env db r.1) (worker_queues db))) in
  let used := in_flight_of r.1 db in
  db' = db ∧ in_int4 n = true ∧
  h = mkQueueHealth (mkQueueBrief r.1 (q_name r.2) (paused r.2) (max_concurrency r.2) (shards r.2) used
        (breaker_text (q_breaker_state r.2)) (rl_limit_per_sec r.2))
        [] n (breaker_open_until r.2) (throttled db r.1 r.2) (max_concurrency r.2 <=? used)
        (mkLastHour 0 0 0) None.
Proof.
  destruct r as [i q]. unfold health_row, mbind, tx_bind, to_int4.
  destruct (in_int4 _) eqn:Hn; [|done]. by intros [= <- <-].
Qed.

(** ** Dealing rows out *)

Section deal.
Implicit Types (out : list queueHealth).

Definition hid (h : queueHealth) : uuid := qb_ID (h_Queue h).

Lemma at_index_lookup out k h :
  NoDup (hid <$> out) → out !! k = Some h → at_index out (hid h) = k.
Proof.
  intros Hnd Hk. unfold at_index.
  destruct (list_find _ out) as [[k' h']|] eqn:Hf; simpl.
  - apply list_find_Some in Hf as (Hk' & Hid & _). eapply NoDup_lookup; [exact Hnd| |].
    + by rewrite list_lookup_fmap, Hk'.
    + rewrite list_lookup_fmap, Hk. simpl. f_equal. symmetry. exact Hid.
  - eapply list_find_None in Hf. by apply (Forall_lookup_1 _ _ k h) in Hf.
Qed.

(** Rows [r] with a queue and a value are dealt out by [f]. *)
Context {R : Type} (rid : R → uuid) (f : R → queueHealth → queueHealth).
Context (Hid : ∀ r h, hid (f r h) = hid h).

Definition deal out (r : R) : list queueHealth := alter (f r) (at_index out (rid r)) out.

Lemma deal_ids out r : hid <$> deal out r = hid <$> out.
Proof.
  unfold deal. apply list_eq. intros k. rewrite !list_lookup_fmap.
  destruct (decide (k = at_index out (rid r))) as [->|Hne].
  - rewrite list_lookup_alter_eq. destruct (out !! _); [|done]. simpl. by rewrite Hid.
  - by rewrite list_lookup_alter_ne by done.
Qed.

Lemma deal_all_ids (rs : list R) out : hid <$> foldl deal out rs = hid <$> out.
Proof. revert out. induction rs as [|r rs IH]; intros out; [done|]. cbn [foldl]. by rewrite IH, deal_ids. Qed.

Lemma deal_all (rs : list R) out k h :
  NoDup (hid <$> out) → (∀ r, r ∈ rs → rid r ∈ hid <$> out) → out !! k = Some h →
  foldl deal out rs !! k = Some (foldl (λ h r, f r h) h (filter (λ r, rid r = hid h) rs)).
Proof.
  revert out h. induction rs as [|r rs IH]; intros out h Hnd Hin Hk; [done|]. cbn [foldl].
  assert (deal out r !! k = Some (if decide (rid r = hid h) then f r h else h)) as Hk'.
  { unfold deal. assert (rid r ∈ hid <$> out) as [k' Hk']%list_elem_of_lookup by (apply Hin; by left).
    rewrite list_lookup_fmap in Hk'. destruct (out !! k') as [h'|] eqn:Hh'; [|done]. injection Hk' as Hr.
    rewrite <- Hr, (at_index_lookup out k' h') by done. case_decide as Hd.
    - assert (k' = k) as ->.
      { eapply NoDup_lookup; [exact Hnd| |]; rewrite list_lookup_fmap; [by rewrite Hh'|]. rewrite Hk. simpl. congruence. }
      rewrite list_lookup_alter_eq, Hk. done.
    - rewrite list_lookup_alter_ne; [done|]. intros ->. congruence. }
  rewrite filter_cons.
  rewrite (IH (deal out r) (if decide (rid r = hid h) then f r h else h)).
  - destruct (decide (rid r = hid h)); [|done]. cbn [foldl]. by rewrite Hid.
  - by rewrite deal_ids.
  - intros r' Hr'. rewrite deal_ids. apply Hin. by right.
  - exact Hk'.
Qed.

End deal.

Lemma foldl_tiers h (rs : list (uuid * tier)) :
  foldl (λ h r, put_tier r h) h rs = h <| h_Tiers := h_Tiers h ++ rs.*2 |>.
Proof.
  revert h. induction rs as [|r rs IH]; intros h; simpl.
  - rewrite app_nil_r. by destruct h.
  - rewrite IH. simpl. by rewrite <- app_assoc.
Qed.

Lemma foldl_hours h (rs : list (uuid * lastHour * option Z)) :
  let h' := foldl (λ h r, put_hour r h) h rs in
  h_Queue h' = h_Queue h ∧ h_Tiers h' = h_Tiers h ∧ h_LiveWorkers h' = h_LiveWorkers h ∧
  h_BreakerUntil h' = h_BreakerUntil h ∧ h_RateLimited h' = h_RateLimited h ∧ h_Saturated h' = h_Saturated h.
Proof.
  revert h. induction rs as [|r rs IH]; intros h; [done|]. cbn [foldl].
  destruct (IH (put_hour r h)) as (-> & -> & -> & -> & -> & ->). done.
Qed.

(** What the two loops make of the rows of the first query. *)
Lemma dealt out ts hours k h :
  NoDup (hid <$> out) → (∀ r, r ∈ ts → r.1 ∈ hid <$> out) → (∀ r, r ∈ hours → r.1.1 ∈ hid <$> out) →
  foldl add_hour (foldl add_tier out ts) hours !! k = Some h →
  ∃ h0, out !! k = Some h0 ∧
    h = foldl (λ h r, put_hour r h) (h0 <| h_Tiers := h_Tiers h0 ++ (filter (λ r, r.1 = hid h0) ts).*2 |>)
          (filter (λ r, r.1.1 = hid h0) hours).
Proof.
  intros Hnd Hts Hhs Hk.
  change (foldl add_tier out ts) with (foldl (deal fst put_tier) out ts) in Hk.
  change (foldl add_hour ?o hours) with (foldl (deal (λ r, r.1.1) put_hour) o hours) in Hk.
  set (out1 := foldl (deal fst put_tier) out ts) in Hk.
  assert (hid <$> out1 = hid <$> out) as Hids by (by apply deal_all_ids).
  assert (is_Some (out !! k)) as [h0 Hk0].
  { apply lookup_lt_is_Some. rewrite <- (length_fmap hid), <- Hids,
      <- (deal_all_ids (λ r, r.1.1) put_hour ltac:(done) hours), length_fmap. by eapply lookup_lt_Some. }
  exists h0. split; [done|].
  assert (out1 !! k = Some (foldl (λ h r, put_tier r h) h0 (filter (λ r, r.1 = hid h0) ts))) as Hk1
    by (by apply deal_all).
  rewrite foldl_tiers in Hk1.
  rewrite (deal_all (λ r, r.1.1) put_hour ltac:(done) hours out1 k _ ltac:(by rewrite Hids) ltac:(by rewrite Hids) Hk1) in Hk.
  by injection Hk as <-.
Qed.

(** ** Grouped rows *)

(** Of rows grouped by distinct keys [qs], those with key [i] are the group of
    [i]. *)
Lemma filter_groups {A} (G : uuid → list A → Prop) (qs : list uuid) (out : list (list (uuid * A))) i :
  NoDup qs → Forall2 (λ q o, ∃ l, G q l ∧ o = (λ x, (q, x)) <$> l) qs out →
  (∀ r, r ∈ concat out → r.1 ∈ qs) ∧
  if decide (i ∈ qs) then G i (filter (λ r, r.1 = i) (concat out)).*2
  else filter (λ r, r.1 = i) (concat out) = [].
Proof.
  intros Hnd Hout. induction Hout as [|q o qs out (l & HG & ->) _ IH].
  - split; [by intros r ?%elem_of_nil|]. rewrite decide_False; [done|]. by intros ?%elem_of_nil.
  - apply list.NoDup_cons in Hnd as [Hq Hnd]. destruct (IH Hnd) as [Hin Hif]. cbn [concat]. rewrite list.filter_app. split.
    { intros r [(x & -> & _)%list_elem_of_fmap|Hr]%elem_of_app; [by left|]. right. by apply Hin. }
    destruct (decide (i = q)) as [->|Hne].
    + rewrite decide_True by (by left). rewrite decide_False in Hif by done. rewrite Hif, app_nil_r.
      rewrite filter_every by (by intros r (x & -> & _)%list_elem_of_fmap).
      rewrite <- list_fmap_compose. erewrite list_fmap_ext; [by rewrite list_fmap_id|done].
    + rewrite (filter_none (λ r, r.1 = i)) by (intros r (x & -> & _)%list_elem_of_fmap; simpl; congruence).
      simpl. destruct (decide (i ∈ qs)); [rewrite decide_True by (by right)|rewrite decide_False]; try done.
      by intros [?|?]%elem_of_cons.
Qed.

(** The jobs of one queue among those of several. *)
Lemma ready_rows env (ids : list uuid) i db :
  i ∈ ids →
  filter (λ j, queue_id j = i)
    (select (λ _ j, bool_decide (queue_id j ∈ ids) && bool_decide (status j = js_queued) && (run_at j <=? now env))
      (jobs db)).*2 =
  (select (λ _, is_ready env i) (jobs db)).*2.
Proof.
  intros Hi. unfold select.
  rewrite (filter_fmap_iff snd _ (λ r : uuid * Job, queue_id r.2 = i)) by done. f_equal.
  rewrite list_filter_filter. apply list_filter_iff. intros [k j]. unfold is_ready. simpl.
  rewrite !andb_true_iff, !bool_decide_eq_true.
  split; [tauto|]. intros [[-> ?] ?]. tauto.
Qed.

Lemma projectTiers_spec (ids : list uuid) env db ts db' :
  projectTiersSQL ids env db = inr (ts, db') →
  db' = db ∧ (∀ r, r ∈ ts → r.1 ∈ ids) ∧
  ∀ i, i ∈ ids → reads_as (oldestByTierSQL i env) db (filter (λ r, r.1 = i) ts).*2.
Proof.
  unfold projectTiersSQL, mbind, tx_bind. set (rows := (select _ (jobs db)).*2).
  destruct (traverse _ _ db) as [|[out db1]] eqn:Ht; [done|]. intros [= <- <-].
  apply traverse_reads in Ht as [-> Hout].
  2: { intros q a db2. cbv beta. unfold mbind, tx_bind. destruct (tiers_of _ _ db) as [|[x db3]] eqn:H; [done|].
       apply tiers_of_reads in H as ->. by intros [= _ <-]. }
  split; [done|].
  epose proof (λ i, filter_groups (λ q l, reads_as (tiers_of env (filter (λ j, queue_id j = q) rows)) db l)
    (merge_sort (asc Z.of_N) (remove_dups (queue_id <$> rows))) out i _ _) as Hg. Unshelve.
  2: { rewrite merge_sort_Permutation. apply NoDup_remove_dups. }
  2: { eapply Forall2_impl; [|exact Hout]. intros q o. cbv beta. unfold reads_as, mbind, tx_bind.
    destruct (tiers_of _ _ db) as [|[x db3]] eqn:H; [done|]. apply tiers_of_reads in H as ->. intros [= <-]. eauto. }
  assert (∀ q, q ∈ merge_sort (asc Z.of_N) (remove_dups (queue_id <$> rows)) ↔ q ∈ queue_id <$> rows) as Hqs.
  { intros q. by rewrite merge_sort_Permutation, elem_of_remove_dups. }
  split.
  - intros r Hr. apply (Hg 0%N), Hqs in Hr. apply list_elem_of_fmap in Hr as (j & -> & ([k j'] & -> & [_ Hf]%elem_of_select)%list_elem_of_fmap).
    rewrite !andb_true_iff, !bool_decide_eq_true in Hf. tauto.
  - intros i Hi. destruct (Hg i) as [_ Hif].
    unfold reads_as, oldestByTierSQL, mbind, tx_bind, gets. rewrite <- (ready_rows env ids i db Hi). fold rows.
    destruct (decide (i ∈ _)) as [Hd|Hd]; [exact Hif|]. rewrite Hqs in Hd. rewrite Hif.
    rewrite filter_none; [done|]. intros j Hj <-. apply Hd, list_elem_of_fmap. eauto.
Qed.

Lemma hour_row_spec env db q r db' :
  hour_row env db q db = inr (r, db') →
  db' = db ∧ r.1.1 = q ∧ reads_as (throughputSQL q env) db r.1.2.
Proof.
  unfold hour_row, mbind, tx_bind.
  destruct (to_int4 _ db) as [|[c db1]] eqn:H1; [done|]. pose proof (to_int4_val _ _ _ _ H1) as ->. apply to_int4_reads in H1 as ->.
  destruct (to_int4 _ db) as [|[f db2]] eqn:H2; [done|]. pose proof (to_int4_val _ _ _ _ H2) as ->. apply to_int4_reads in H2 as ->.
  destruct (to_int4 _ db) as [|[d db3]] eqn:H3; [done|]. pose proof (to_int4_val _ _ _ _ H3) as ->. apply to_int4_reads in H3 as ->.
  by intros [= <- <-].
Qed.

(** At most one row has key [i]. *)
Lemma filter_single {A B} (f : B → A) `{!EqDecision A} (qs : list A) (rs : list B) (P : A → B → Prop) i :
  NoDup qs → Forall2 (λ q r, f r = q ∧ P q r) qs rs →
  if decide (i ∈ qs) then ∃ r, P i r ∧ filter (λ r, f r = i) rs = [r] else filter (λ r, f r = i) rs = [].
Proof.
  intros Hnd H. induction H as [|q r qs rs [Hf HP] H IH].
  - rewrite decide_False; [done|]. by intros ?%elem_of_nil.
  - apply list.NoDup_cons in Hnd as [Hq Hnd]. specialize (IH Hnd). destruct (decide (i = q)) as [->|Hne].
    + rewrite decide_True by (by left). rewrite decide_False in IH by done. exists r. split; [done|].
      by rewrite filter_cons_True, IH.
    + rewrite filter_cons_False by congruence.
      destruct (decide (i ∈ qs)); [rewrite decide_True by (by right)|rewrite decide_False]; try done.
      by intros [?|?]%elem_of_cons.
Qed.

Lemma projectThroughput_spec (ids : list uuid) env db hs db' :
  projectThroughputSQL ids env db = inr (hs, db') →
  db' = db ∧ (∀ r, r ∈ hs → r.1.1 ∈ ids) ∧
  ∀ i h, i ∈ ids → h_LastHour h = mkLastHour 0 0 0 → reads_as (throughputSQL i env) db
    (h_LastHour (foldl (λ h r, put_hour r h) h
       (filter (λ r, r.1.1 = i) hs))).
Proof.
  unfold projectThroughputSQL. set (qs := filter _ (remove_dups _)). intros Ht.
  apply traverse_reads in Ht as [-> Hout]; [|intros q r db1 Hr; by apply hour_row_spec in Hr as [-> _]].
  assert (Forall2 (λ q r, r.1.1 = q ∧ reads_as (throughputSQL q env) db r.1.2) qs hs) as Hrows.
  { eapply Forall2_impl; [|exact Hout]. intros q r Hr. by apply hour_row_spec in Hr as [_ ?]. }
  split; [done|]. split.
  - intros r Hr. apply list_elem_of_lookup in Hr as [k Hk].
    destruct (Forall2_lookup_r _ _ _ _ _ Hrows Hk) as (q & Hq & <- & _). apply list_elem_of_lookup_2 in Hq.
    by apply list_elem_of_filter in Hq as [[? _] _].
  - intros i h Hi Hh. assert (NoDup qs) as Hnd by (apply list.NoDup_filter, NoDup_remove_dups).
    pose proof (filter_single (λ r : uuid * lastHour * option Z, r.1.1) qs hs _ i Hnd Hrows) as Hs. cbv beta in Hs.
    destruct (decide (i ∈ qs)) as [Hin|Hin].
    + destruct Hs as (r & Hr & ->). done.
    + rewrite Hs. simpl. rewrite Hh. unfold reads_as, throughputSQL, gets.
      assert (hour_of env i db = []) as ->; [|done].
      destruct (hour_of env i db) as [|s l] eqn:Hl; [done|]. destruct Hin. apply list_elem_of_filter. rewrite Hl.
      split; [done|]. apply elem_of_remove_dups, list_elem_of_fmap.
      assert (s ∈ hour_of env i db) as Hs' by (rewrite Hl; by left). unfold hour_of in Hs'.
      apply list_elem_of_fmap in Hs' as ([k s'] & -> & [[<- _] Hm]%list_elem_of_filter). by exists (k, s').
Qed.

(** ** The two endpoints *)

Lemma load_stats_run i env db q ts :
  queues db !! i = Some q → reads_as (oldestByTierSQL i env) db ts →
  let n := Z.of_nat (size (filter (live_worker env db i) (worker_queues db))) in
  in_int4 n = true →
  ∃ v, answer (load_stats i) (start db (quiet env)) = inr v ∧
    sv_tiers v = ts ∧ sv_workers v = n ∧ sv_breakerUntil v = breaker_open_until q ∧
    sv_throttled v = throttled db i q ∧ sv_saturated v = (max_concurrency q <=? in_flight_of i db) ∧
    sv_in_flight v = in_flight_of i db ∧ reads_as (throughputSQL i env) db (sv_lastHour v).
Proof.
  intros Hq Hts n Hn. unfold answer, load_stats, start. eexists.
  rewrite (bind_exec_quiet _ _ env db None 0 (Some (q, in_flight_of i db)) db)
    by (unfold getQueueSQL, gets; by rewrite Hq).
  cbn [scan_row]. unfold mbind at 1, go_bind at 1, mret at 1, go_ret at 1.
  erewrite (bind_exec_quiet _ _ env db) by done. erewrite (bind_exec_quiet _ _ env db) by done.
  rewrite (bind_exec_quiet _ _ env db None _ ts db) by exact Hts.
  rewrite (bind_exec_quiet _ _ env db None _ n db)
    by (change (to_int4 n db = inr (n, db)); unfold to_int4; by rewrite Hn).
  rewrite (bind_exec_quiet _ _ env db None _ (Some (breaker_open_until q, throttled db i q)) db)
    by (unfold breakerUntilSQL, gets; by rewrite Hq).
  cbn [scan_row]. unfold mbind at 1, go_bind at 1, mret at 1, go_ret at 1.
  erewrite (bind_exec_quiet _ _ env db) by done. erewrite (bind_exec_quiet _ _ env db) by done.
  split; [done|]. by split_and!.
Qed.

(** A statement whose answer is known. *)
Lemma answer_bind {A B} (s : Env → sql A) (f : A → go B) env db n b :
  fst ((tx_exec s ≫= f) (mkWorld db None (quiet env) n)) = inr b →
  ∃ a db', s env db = inr (a, db') ∧ fst (f a (mkWorld db' None (quiet env) (S n))) = inr b.
Proof.
  destruct (s env db) as [code|[a db']] eqn:Hs.
  - unfold mbind, go_bind, tx_exec, this_call. simpl. by rewrite Hs.
  - rewrite (bind_exec_quiet _ _ _ _ _ _ _ _ Hs). eauto.
Qed.

Section health.
Context (collation : string → Z) (env : Env) (db : DB) (project : uuid).

Definition project_queues : list (uuid * Queue) :=
  by_name collation q_name (select (λ _ q, bool_decide (q_project_id q = project)) (queues db)).

Lemma project_queues_lookup i q : (i, q) ∈ project_queues → queues db !! i = Some q.
Proof. unfold project_queues, by_name. rewrite merge_sort_Permutation. by intros [? _]%elem_of_select. Qed.

Lemma project_queues_NoDup : NoDup project_queues.*1.
Proof. unfold project_queues, by_name. rewrite merge_sort_Permutation. apply NoDup_select. Qed.

(** The rows of the first query. *)
Lemma projectQueues_spec out db' :
  projectQueuesSQL collation project env db = inr (out, db') →
  db' = db ∧ hid <$> out = project_queues.*1 ∧
  ∀ k h, out !! k = Some h → ∃ q, queues db !! hid h = Some q ∧
    reads_as (health_row env db (hid h, q)) db h.
Proof.
  unfold projectQueuesSQL. fold project_queues. intros Hr.
  apply traverse_reads in Hr as [-> Hrows]; [|intros r a db1 H; by apply health_row_spec in H as [-> _]].
  split; [done|]. assert (∀ r h, reads_as (health_row env db r) db h → hid h = r.1) as Hhid.
  { intros r h Hh. apply health_row_spec in Hh as (_ & _ & ->). done. }
  split.
  - clear -Hrows Hhid. induction Hrows as [|r h rs hs Hh _ IH]; [done|]. csimpl. by rewrite (Hhid r h Hh), IH.
  - intros k h Hk. destruct (Forall2_lookup_r _ _ _ _ _ Hrows Hk) as ([i q] & Hi & Hh).
    pose proof (Hhid _ _ Hh) as ->. exists q. split; [|done]. by eapply project_queues_lookup, list_elem_of_lookup_2.
Qed.

(** The three queries. *)
Lemma load_health_inv hs :
  answer (load_health collation project) (start db (quiet env)) = inr hs →
  ∃ out ts hours, projectQueuesSQL collation project env db = inr (out, db) ∧
    hs = foldl add_hour (foldl add_tier out ts) hours ∧
    (out = [] ∧ hs = [] ∨
     projectTiersSQL (hid <$> out) env db = inr (ts, db) ∧ projectThroughputSQL (hid <$> out) env db = inr (hours, db)).
Proof.
  intros (out & db1 & Hq & Hrest)%answer_bind. pose proof Hq as (-> & _ & _)%projectQueues_spec.
  destruct out as [|h0 out0].
  { exists [], [], []. injection Hrest as <-. auto. }
  apply answer_bind in Hrest as (ts & db1 & Ht & (hours & db2 & Hh & [= <-])%answer_bind).
  pose proof Ht as [-> _]%projectTiers_spec. pose proof Hh as [-> _]%projectThroughput_spec. exists (h0 :: out0), ts, hours. auto.
Qed.

(** C38 (equivalence): the health of a project is the statistics of its queues.
    When [projectHealth] answers, it lists every queue of the project once, by
    name; and for each of them [queueStats] answers too, with the same depth per
    priority and age of the oldest job, live workers, slots in use, breaker, rate
    limit, saturation and outcomes of the last hour. *)
Theorem health_is_stats hs :
  answer (load_health collation project) (start db (quiet env)) = inr hs →
  (λ h, qb_ID (h_Queue h)) <$> hs = project_queues.*1 ∧
  ∀ h, h ∈ hs → ∃ v, answer (load_stats (qb_ID (h_Queue h))) (start db (quiet env)) = inr v ∧
    h_Tiers h = sv_tiers v ∧ h_LiveWorkers h = sv_workers v ∧ qb_InFlight (h_Queue h) = sv_in_flight v ∧
    h_BreakerUntil h = sv_breakerUntil v ∧ h_RateLimited h = sv_throttled v ∧
    h_Saturated h = sv_saturated v ∧ h_LastHour h = sv_lastHour v.
Proof.
  intros (out & ts & hours & (_ & Hids & Hrows)%projectQueues_spec & Hhs & Hcases)%load_health_inv.
  change (λ h, qb_ID (h_Queue h)) with hid. destruct Hcases as [[-> ->]|[Ht Hh]].
  { rewrite <- Hids. split; [done|]. by intros h ?%elem_of_nil. }
  assert (NoDup (hid <$> out)) as Hnd by (rewrite Hids; apply project_queues_NoDup).
  split.
  { rewrite Hhs, <- Hids. etrans; [by apply (deal_all_ids (λ r, r.1.1) put_hour)|]. by apply (deal_all_ids fst put_tier). }
  apply projectTiers_spec in Ht as (_ & Hts & Htiers). apply projectThroughput_spec in Hh as (_ & Hhrs & Hhour).
  intros h [k Hk]%list_elem_of_lookup. rewrite Hhs in Hk. destruct (dealt _ _ _ _ _ Hnd Hts Hhrs Hk) as (h0 & Hk0 & Hh).
  destruct (Hrows k h0 Hk0) as (q & Hq & (_ & Hn & Hh0)%health_row_spec). cbn [fst snd] in Hn, Hh0.
  assert (hid h0 ∈ hid <$> out) as Hin by (by apply list_elem_of_fmap_2, list_elem_of_lookup_2 with k).
  set (h1 := h0 <| h_Tiers := _ |>) in Hh.
  destruct (load_stats_run (hid h0) env db q _ Hq (Htiers _ Hin) Hn) as (v & Hv & Hvt & Hvn & Hvb & Hvr & Hvs & Hvi & Hvh).
  assert (h_LastHour h1 = mkLastHour 0 0 0) as Hh1 by (unfold h1; simpl; by rewrite Hh0).
  specialize (Hhour (hid h0) h1 Hin Hh1). rewrite <- Hh in Hhour. unfold reads_as in Hvh, Hhour.
  rewrite Hhour in Hvh. injection Hvh as Hvh.
  destruct (foldl_hours h1 (filter (λ r, r.1.1 = hid h0) hours)) as (Hfq & Hft & Hfn & Hfb & Hfr & Hfs).
  rewrite <- Hh in *. exists v. rewrite Hfq, Hft, Hfn, Hfb, Hfr, Hfs. change (qb_ID (h_Queue h1)) with (hid h0).
  split; [done|]. rewrite Hvt, Hvn, Hvb, Hvr, Hvs, Hvi, <- Hvh. unfold h1. simpl. rewrite Hh0. by split_and!.
Qed.

End health.

(** In the database of the fixture: job 13 has priority 9, jobs 11 and 12 have 5,
    job 10 has 0. *)
Definition health0 : list queueHealth :=
  match answer (load_health (λ s, Z.of_nat (String.length s)) 2) (start db0 (quiet env0)) with
  | inr hs => hs
  | inl _ => []
  end.

Lemma health_is_stats_witness :
  (λ h, (λ t, (ti_Priority t, ti_Ready t)) <$> h_Tiers h) <$> health0 = [[(9, 1); (5, 2); (0, 1)]] ∧
  ∀ h, h ∈ health0 → ∃ v, answer (load_stats (qb_ID (h_Queue h))) (start db0 (quiet env0)) = inr v ∧
    h_Tiers h = sv_tiers v ∧ h_LiveWorkers h = sv_workers v ∧ qb_InFlight (h_Queue h) = sv_in_flight v ∧
    h_BreakerUntil h = sv_breakerUntil v ∧ h_RateLimited h = sv_throttled v ∧
    h_Saturated h = sv_saturated v ∧ h_LastHour h = sv_lastHour v.
Proof.
  split; [by vm_compute|].
  apply (health_is_stats (λ s, Z.of_nat (String.length s)) env0 db0 2 health0). by vm_compute.
Defined.
