(* ===== verification/Retention.v ===== *)
(** * Retention: what the maintenance of the partitions drops, and that a reader
    of the event feed is told

    [Maintain] drops the days that are older than the retention and creates the
    days to come.  A client that reads the feed from a position whose events were
    dropped is answered 410, and any other sees the feed as if nothing had been
    dropped. *)

From S2P Require Import Prelude Text Schema Partitions Fl Pool Sched Api Views GoLogic Fixture.
From stdpp Require Import pretty.

#[local] Open Scope string_scope.
#[local] Open Scope list_scope.
#[local] Open Scope Z_scope.

(** ** The partitioned tables *)

Inductive stored_row :=
  | SEvent (e : Event) | SLog (l : Log) | SJob (r : uuid * Job) | SExec (r : uuid * Exec)
  | SDead (r : uuid * DeadLetter).

(** The partition key of a row. *)
Definition key (r : stored_row) : option timestamp :=
  match r with
  | SEvent e => Some (e_created_at e)
  | SLog l => Some (lg_ts l)
  | SJob r => finished_at r.2
  | SExec r => x_finished_at r.2
  | SDead r => Some (dead_at r.2)
  end.

Definition table (parent : string) (db : DB) : list stored_row :=
  if decide (parent = "events") then SEvent <$> events db
  else if decide (parent = "job_logs") then SLog <$> logs db
  else if decide (parent = "jobs_archive") then SJob <$> jobs_archive db
  else if decide (parent = "job_executions_archive") then SExec <$> execs_archive db
  else if decide (parent = "job_logs_archive") then SLog <$> logs_archive db
  else if decide (parent = "dead_letter_jobs_archive") then SDead <$> dead_letters_archive db
  else [].

(** Every row is in a partition. *)
Definition stored (db : DB) : Prop :=
  ∀ p r, r ∈ table p db → in_partition p db (key r) = true.

(** The day of the row is not before [cutoff]. *)
Definition fresh (cutoff : Z) (r : stored_row) : bool :=
  match key r with Some t => cutoff <=? day t | None => true end.

Lemma table_drop p gone db :
  table p (drop_tables gone db) = filter (λ r, stays p gone (key r)) (table p db).
Proof.
  unfold table, drop_tables. simpl. repeat case_decide; subst; try done; symmetry; by apply filter_fmap_iff.
Qed.

Lemma table_partitions p db ps : table p (db <| partitions := ps |>) = table p db.
Proof. done. Qed.

Lemma table_low p db z : table p (db <| low_water_id := z |>) = table p db.
Proof. done. Qed.

(** ** One run *)

Section maintain.
Context (env : Env) (hot cold horizon : duration) (db0 : DB).
Context (Hstored : stored db0) (Hhot : 0 ≤ interval_of hot).

(** The first day that is kept, and the days that are created. *)
Definition cut (p : string) : Z :=
  day (now env - interval_of (if decide (p ∈ hotParents) then hot else cold)).
Definition to_come (d : Z) : Prop := day (now env) ≤ d ≤ day (now env + interval_of horizon).

(** The tables of [done] are maintained, the others as they were; the days to
    come of [made] exist. *)
Record maintained (made done : list string) (db : DB) : Prop := {
  mt_rows p : table p db =
    if decide (p ∈ done) then filter (λ r, fresh (cut p) r = true) (table p db0) else table p db0;
  mt_days p d : (p, d) ∈ partitions db0 → (p ∈ done → cut p ≤ d) → (p, d) ∈ partitions db;
  mt_made p d : p ∈ made → to_come d → (p, d) ∈ partitions db;
  mt_gone p d : (p, d) ∈ partitions db → p ∈ done → cut p ≤ d;
  mt_rest : jobs db = jobs db0 ∧ leases db = leases db0 ∧ execs db = execs db0 ∧
    dead_letters db = dead_letters db0 ∧ event_seq db = event_seq db0 ∧ low_water_id db = low_water_id db0;
}.

Lemma maintained_start : maintained [] [] db0.
Proof.
  split; try done; by intros ? ? ?%elem_of_nil || intros ? ? ? ?%elem_of_nil.
Qed.

Lemma ensure_lands made done p :
  p ∈ hotParents → p ∉ done →
  lands env (maintained made done) (tx_exec (ensurePartitionsSQL p horizon)) (λ _, maintained (p :: made) done).
Proof.
  intros Hp Hd. apply lands_exec. intros db [Hr Hk Hm Hg Hrest].
  unfold ensurePartitionsSQL.
  edestruct (ensure_partitions_run p) as (ps & Hrun & Hps). eexists tt, _. split; [exact Hrun|]. split; simpl.
  - exact Hr.
  - intros p' d H1 H2. apply Hps. left. by apply Hk.
  - intros p' d [->|Hin]%elem_of_cons Hd'; apply Hps; [by right|left; by apply Hm].
  - intros p' d [?|[-> _]]%Hps; [by apply Hg|done].
  - done.
Qed.

Lemma drop_lands made done p keep :
  cut p = day (now env - interval_of keep) → (p ∈ made → cut p ≤ day (now env)) → p ∉ done →
  lands env (maintained made done) (tx_exec (dropPartitionsSQL p keep)) (λ _, maintained made (p :: done)).
Proof.
  intros Hcut Hmade Hd. apply lands_exec. intros db [Hr Hk Hm Hg Hrest].
  unfold dropPartitionsSQL, drop_partitions_before. rewrite <- Hcut.
  set (gone := older p (cut p) db). eexists _, _. split; [done|].
  assert (∀ p' d, (p', d) ∈ gone ↔ (p', d) ∈ partitions db ∧ p' = p ∧ d < cut p) as Hgone.
  { intros p' d. unfold gone, older. rewrite elem_of_filter. simpl. tauto. }
  split; simpl.
  - intros p'. rewrite table_drop, (Hr p').
    destruct (decide (p' = p)) as [->|Hne].
    + rewrite decide_False by done. rewrite decide_True by apply list_elem_of_here.
      apply filter_iff_in.
      intros r Hin. unfold stays, fresh. specialize (Hstored p r Hin). unfold in_partition in Hstored.
      destruct (key r) as [t|]; [|done]. apply bool_decide_eq_true in Hstored.
      rewrite Hgone, Z.leb_le. split; [|lia]. intros Hn.
      destruct (decide (cut p ≤ day t)); [done|]. destruct Hn. split_and!; [|done|lia].
      by apply Hk.
    + transitivity (if decide (p' ∈ done) then filter (λ r, fresh (cut p') r = true) (table p' db0) else table p' db0).
      * apply filter_every. intros r _. unfold stays. destruct (key r); [|done]. rewrite Hgone. tauto.
      * destruct (decide (p' ∈ done)); [rewrite decide_True|rewrite decide_False]; by rewrite ?elem_of_cons; tauto.
  - intros p' d H1 H2. apply elem_of_difference. rewrite elem_of_cons in H2. split; [apply Hk; tauto|].
    rewrite Hgone. intros (_ & -> & Hlt). specialize (H2 (or_introl eq_refl)). lia.
  - intros p' d Hin Hd'. apply elem_of_difference. split; [by apply Hm|]. rewrite Hgone.
    intros (_ & -> & Hlt). specialize (Hmade Hin). unfold to_come in Hd'. lia.
  - intros p' d [Hin Hng]%elem_of_difference [->|Hdone]%elem_of_cons; [|by eapply Hg].
    rewrite Hgone in Hng. destruct (decide (cut p ≤ d)); [done|]. exfalso. apply Hng. split_and!; [done..|lia].
  - done.
Qed.

Lemma cut_hot p : p ∈ hotParents → cut p = day (now env - interval_of hot) ∧ cut p ≤ day (now env).
Proof. intros Hp. unfold cut. rewrite decide_True by done. split; [done|]. apply day_mono. lia. Qed.

Lemma cut_cold p : p ∈ coldParents → cut p = day (now env - interval_of cold).
Proof.
  unfold coldParents, cut, hotParents. rewrite !elem_of_cons, elem_of_nil.
  by intros [->|[->|[->|[->|[]]]]].
Qed.

Definition hot_step (n : Z) (p : string) : go Z :=
  _ ← tx_exec (ensurePartitionsSQL p horizon); k ← tx_exec (dropPartitionsSQL p hot); mret (n + k).

Definition cold_step (n : Z) (p : string) : go Z := k ← tx_exec (dropPartitionsSQL p cold); mret (n + k).

Lemma hot_lands done n p :
  p ∈ hotParents → p ∉ done →
  lands env (maintained done done) (hot_step n p) (λ _, maintained (p :: done) (p :: done)).
Proof.
  intros Hp Hd. destruct (cut_hot p Hp) as [Hc Hle]. eapply lands_bind; [by apply ensure_lands|]. intros ?.
  eapply lands_bind; [by apply drop_lands|]. intros k. by apply lands_ret.
Qed.

Lemma cold_lands done n p :
  p ∈ coldParents → p ∉ done →
  lands env (maintained (reverse hotParents) done) (cold_step n p) (λ _, maintained (reverse hotParents) (p :: done)).
Proof.
  intros Hp Hd. eapply lands_bind; [apply drop_lands; [by apply cut_cold| |done]|].
  - intros Hin%elem_of_reverse. apply (cut_hot p Hin).
  - intros k. by apply lands_ret.
Qed.

(** All of it. *)
Lemma Maintain_runs :
  ∃ k db1 n, Maintain true hot cold horizon (start db0 (quiet env)) =
    (inr k, mkWorld (db1 <| low_water_id := Z.max (low_water_id db1) (default (event_seq db1 + 1) (min_id (events db1))) |>)
              None (quiet env) n) ∧
    maintained (reverse hotParents) (reverse coldParents ++ reverse hotParents) db1.
Proof.
  assert (lands env (maintained [] []) (go_fold hot_step 0 hotParents)
    (λ _, maintained (reverse hotParents) (reverse hotParents))) as HA.
  { cbn [go_fold hotParents]. repeat (eapply lands_bind; [apply hot_lands|intros ?]); try apply lands_ret; try done.
    all: apply (bool_decide_unpack _); by vm_compute. }
  assert (∀ n, lands env (maintained (reverse hotParents) (reverse hotParents)) (go_fold cold_step n coldParents)
    (λ _, maintained (reverse hotParents) (reverse coldParents ++ reverse hotParents))) as HB.
  { intros n. cbn [go_fold coldParents]. repeat (eapply lands_bind; [apply cold_lands|intros ?]); try apply lands_ret; try done.
    all: apply (bool_decide_unpack _); by vm_compute. }
  destruct (HA db0 (Some db0) 2%nat maintained_start) as (a & dba & na & Ha & Hma).
  destruct (HB a dba (Some db0) na Hma) as (k & db1 & n1 & Hb & Hm1).
  exists k, db1, (S (S n1)). split; [|done]. unfold Maintain, start. rewrite with_tx_quiet.
  rewrite (bind_exec_quiet _ _ env db0 (Some db0) 1 true db0) by done. cbn [negb].
  fold (hot_step). fold (cold_step). unfold mbind, go_bind. rewrite Ha, Hb. done.
Qed.

End maintain.

(** ** The event feed *)

(** The events are in the order of their ids, which come from the sequence. *)
Definition in_order (db : DB) : Prop :=
  (∀ e e', e ∈ events db → e' ∈ events db → e_id e ≤ e_id e' → e_created_at e ≤ e_created_at e') ∧
  (∀ e, e ∈ events db → e_id e ≤ event_seq db).

Section feed.
Context (db0 : DB) (Hstored : stored db0) (Horder : in_order db0).

(** What is left of the events of [db0]: days were dropped, the oldest first. *)
Definition left_over (db : DB) : Prop :=
  (∃ f : Event → bool, events db = filter (λ e, f e = true) (events db0) ∧
     ∀ e e', f e = false → f e' = true → day (e_created_at e) < day (e_created_at e')) ∧
  (∀ e, e ∈ events db → ("events", day (e_created_at e)) ∈ partitions db) ∧
  event_seq db = event_seq db0 ∧ low_water_id db = low_water_id db0.

(** The low-water mark is up to date with it. *)
Definition marked (db : DB) : Prop :=
  ∃ db1, left_over db1 ∧ events db = events db1 ∧
    low_water_id db = Z.max (low_water_id db0) (default (event_seq db0 + 1) (min_id (events db1))).

Lemma left_over_start : left_over db0.
Proof.
  split_and!; [|intros e He|done..].
  - exists (λ _, true). split; [|done]. symmetry. by apply filter_every.
  - assert (SEvent e ∈ table "events" db0) as Hin by (apply list_elem_of_fmap; eauto).
    specialize (Hstored _ _ Hin). by apply bool_decide_eq_true in Hstored.
Qed.

Lemma left_over_ensure p horizon env : keeps left_over (ensurePartitionsSQL p horizon env).
Proof.
  intros db (Hf & Hp & Hrest). unfold ensurePartitionsSQL.
  edestruct (ensure_partitions_run p) as (ps & -> & Hps). split_and!; [exact Hf| |apply Hrest..].
  intros e He. apply Hps. left. by apply Hp.
Qed.

Lemma left_over_drop p keep env : keeps left_over (dropPartitionsSQL p keep env).
Proof.
  intros db (( f & Hf & Hord) & Hp & Hrest). unfold dropPartitionsSQL, drop_partitions_before.
  set (c := day _). set (gone := older p c db).
  assert (∀ p' d, (p', d) ∈ gone ↔ (p', d) ∈ partitions db ∧ p' = p ∧ d < c) as Hgone.
  { intros p' d. unfold gone, older. rewrite elem_of_filter. simpl. tauto. }
  split_and!; [|intros e [Hst He]%list_elem_of_filter; simpl in *|apply Hrest..].
  - destruct (decide (p = "events")) as [->|Hne].
    + exists (λ e, f e && (c <=? day (e_created_at e))). split.
      * simpl. rewrite (filter_iff_in _ (λ e, c <= day (e_created_at e)) (events db)).
        { rewrite Hf, list_filter_filter. apply list_filter_iff. intros e.
          rewrite andb_true_iff, Z.leb_le. tauto. }
        intros e He. unfold stays. rewrite Hgone. specialize (Hp e He). split; [|lia].
        intros Hn. destruct (decide (c ≤ day (e_created_at e))); [done|]. destruct Hn. split_and!; [done..|lia].
      * intros e e' Hd [Hk Hc%Z.leb_le]%andb_true_iff. apply andb_false_iff in Hd as [Hd|Hd%Z.leb_gt]; [by apply Hord|lia].
    + exists f. split; [|done]. simpl. rewrite filter_every; [done|].
      intros e _. unfold stays. rewrite Hgone. intros (_ & ? & _). congruence.
  - apply elem_of_difference. split; [by apply Hp|done].
Qed.

Lemma marked_low env : hoare left_over (lowWaterSQL env) (λ _, marked).
Proof.
  apply hoare_modify. intros db Hl. exists db. destruct Hl as (? & ? & Hs & Hw) eqn:E. simpl. rewrite Hs, Hw. done.
Qed.

Lemma Maintain_marks free hot cold horizon w :
  w_snap w = None → (∀ n db, c_other (w_calls w n) db = db) → w_db w = db0 →
  let db := final_db (Maintain free hot cold horizon) w in db = db0 ∨ marked db.
Proof.
  intros Hsn Ho Hdb. assert (tx_keeps left_over (go_fold (λ dropped parent,
      _ ← tx_exec (ensurePartitionsSQL parent horizon); n ← tx_exec (dropPartitionsSQL parent hot);
      mret (dropped + n)) 0 hotParents)) as HA.
  { apply (tx_hoare_fold (λ _, left_over)). intros a p _. apply tx_keeps_bind; [|intros ?].
    - apply tx_keeps_exec. intros env. apply left_over_ensure.
    - apply tx_keeps_bind; [|intros ?; apply tx_keeps_ret]. apply tx_keeps_exec. intros env. apply left_over_drop. }
  assert (∀ k, tx_keeps left_over (go_fold (λ dropped parent,
      n ← tx_exec (dropPartitionsSQL parent cold); mret (dropped + n)) k coldParents)) as HB.
  { intros k. apply (tx_hoare_fold (λ _, left_over)). intros a p _.
    apply tx_keeps_bind; [|intros ?; apply tx_keeps_ret]. apply tx_keeps_exec. intros env. apply left_over_drop. }
  assert (c_other (this_call w) (w_db w) = db0) as Hc by (unfold this_call; by rewrite Ho).
  cut (final_db (Maintain free hot cold horizon) w = c_other (this_call w) (w_db w) ∨
    marked (final_db (Maintain free hot cold horizon) w)); [by rewrite Hc|].
  apply (with_tx_ends marked left_over); [|rewrite Hc; apply left_over_start].
  eapply (tx_body_bind _ _ _ (λ _, left_over)); [apply tx_hoare_exec; intros; apply keeps_ret|]. intros [|].
  2: apply tx_body_ret.
  eapply tx_body_bind; [apply HA|]. intros k. eapply tx_body_bind; [apply HB|]. intros k'.
  eapply tx_body_bind; [apply tx_hoare_exec, marked_low|]. intros []. by apply tx_body_commit_ret.
Qed.

Lemma min_id_le l e : e ∈ l → ∃ m, min_id l = Some m ∧ m ≤ e_id e.
Proof.
  destruct l as [|e0 l]; [by intros ?%elem_of_nil|]. intros He. eexists. split; [done|].
  apply foldr_min_le. change (e_id e ∈ e_id <$> e0 :: l). apply list_elem_of_fmap. eauto.
Qed.

Lemma min_id_in l m : min_id l = Some m → ∃ e, e ∈ l ∧ e_id e = m.
Proof.
  destruct l as [|e0 l]; [done|]. intros [= <-].
  pose proof (foldr_min_in (e_id e0) (e_id <$> l)) as Hin. change (_ :: _) with (e_id <$> e0 :: l) in Hin.
  apply list_elem_of_fmap in Hin as (e & He & Hin). eauto.
Qed.

(** Every event that was dropped is below the mark. *)
Lemma dropped_below db e :
  marked db → e ∈ events db0 → e ∉ events db → e_id e < low_water_id db.
Proof.
  intros (db1 & ((f & Hf & Hord) & _ & _ & _) & He1 & Hlow) He Hn. rewrite He1 in Hn. rewrite Hlow.
  assert (f e = false) as Hfe.
  { apply not_true_iff_false. intros Hfe. apply Hn. rewrite Hf. by apply list_elem_of_filter. }
  destruct Horder as [Hmono Hseq]. destruct (min_id (events db1)) as [m|] eqn:Hm; simpl.
  - destruct (min_id_in _ _ Hm) as (e' & He' & <-). rewrite Hf in He'. apply list_elem_of_filter in He' as [Hfe' He'].
    specialize (Hord e e' Hfe Hfe'). destruct (Z.lt_ge_cases (e_id e) (e_id e')) as [|Hge]; [lia|].
    specialize (Hmono e' e He' He Hge). apply day_mono in Hmono. lia.
  - specialize (Hseq e He). lia.
Qed.

(** What a reader past the mark is given. *)
Lemma feed_same db project after limit env :
  marked db → low_water_id db ≤ after + 1 →
  listEventsSQL project after limit env db = inr
    (take (Z.to_nat limit) (merge_sort event_le (filter (λ e, e_project_id e = project ∧ after < e_id e) (events db0))), db).
Proof.
  intros Hm Hlow. unfold listEventsSQL, gets. do 4 f_equal.
  pose proof Hm as (db1 & ((f & Hf & _) & _) & He1 & _).
  assert (∀ e, e ∈ events db0 → after < e_id e → f e = true) as Hkept.
  { intros e He Ha. destruct (f e) eqn:Hfe; [done|].
    assert (e ∉ events db) as Hn by (rewrite He1, Hf; intros [? _]%list_elem_of_filter; congruence).
    pose proof (dropped_below db e Hm He Hn). lia. }
  rewrite He1, Hf, list_filter_filter. apply filter_iff_in. intros e He. split; [tauto|].
  intros [? ?]. auto.
Qed.

End feed.

Lemma afterID_pure {B} (r : Request B) : ∃ v, afterID r = lift_err v.
Proof.
  unfold afterID. case_decide; [by exists (inr 0)|]. destruct (ParseInt _) as [n|]; [|by eexists (inl _)].
  destruct (n <? 0); [by eexists (inl _)|by exists (inr n)].
Qed.

(** The handler, run on a database. *)
Lemma listEvents_run {B} (r : Request B) sc env db :
  answer (listEvents r sc) (start db (quiet env)) =
  match fst (afterID r (start db (quiet env))) with
  | inl e => inl e
  | inr after =>
    if succ_int64 after <? low_water_id db
    then inl (ErrApi (tooOld ("events before " +:+ pretty (low_water_id db) +:+ " have been dropped"))) else
    match listEventsSQL (sc_projectID sc) after (pageLimit r) env db with
    | inl code => inl (ErrPg code)
    | inr (out, _) =>
      inr (ok_body (JObj [("items", JArr (event_item <$> out));
                          ("next", jnum (from_option e_id after (last out)))]))
    end
  end.
Proof.
  destruct (afterID_pure r) as [[e|a] Ha]; unfold answer, listEvents; rewrite Ha; [done|].
  unfold mbind at 1, go_bind at 1. simpl. unfold start.
  rewrite (bind_exec_quiet _ _ env db None 0 (low_water_id db) db) by done.
  by destruct (succ_int64 a <? low_water_id db).
Qed.

(** ** An example: three events, of the days 0, 10 and 20 *)

Definition stored_check (db : DB) : bool :=
  forallb (λ p, forallb (λ r, in_partition p db (key r)) (table p db)) (hotParents ++ coldParents).

Lemma stored_check_ok db : stored_check db = true → stored db.
Proof.
  unfold stored_check. rewrite forallb_forall. intros H p r Hr.
  destruct (decide (p ∈ hotParents ++ coldParents)) as [Hp|Hp].
  - apply list_elem_of_In, H in Hp. rewrite forallb_forall in Hp. by apply Hp, list_elem_of_In.
  - unfold hotParents, coldParents in Hp. simpl in Hp. rewrite !elem_of_cons in Hp. unfold table in Hr.
    repeat (case_decide; [tauto|]). by apply elem_of_nil in Hr.
Qed.

Definition on_day (d : Z) : timestamp := d * 86400000000.

Definition feed_db : DB := empty_db
  <| events := [mkEvent 1 "a" 1%N 1%N [] (on_day 0); mkEvent 2 "b" 1%N 1%N [] (on_day 10);
                mkEvent 3 "c" 1%N 1%N [] (on_day 20)] |>
  <| event_seq := 3 |>
  <| partitions := {[("events", 0); ("events", 10); ("events", 20)]} |>.

(** A day in nanoseconds. *)
Definition days (n : Z) : duration := n * 86400000000000.

Definition day21 : Env := mkEnv (on_day 21) 7 (1 # 2) true ∅ (λ n, 200 + N.of_nat n)%N.

Definition maintained_feed : DB :=
  final_db (Maintain true (days 7) (days 90) (days 30)) (start feed_db (quiet day21)).

Definition reading (after : string) : Request unit :=
  mkRequest unit (λ _, "") None [] (λ _, "") (λ q, if decide (q = "after") then after else "") (Some tt) "".

Definition reader : scope := mkScope 6 7 1 1 1 viewer.

Definition read_feed (after : string) (db : DB) : err + result :=
  answer (listEvents (reading after) reader) (start db (quiet day21)).

Lemma feed_db_stored : stored feed_db.
Proof. apply stored_check_ok. by vm_compute. Qed.

Lemma feed_db_in_order : in_order feed_db.
Proof.
  split.
  - intros e e' He He'. unfold feed_db in *. simpl in *. rewrite !elem_of_cons, elem_of_nil in He, He'.
    destruct He as [->|[->|[->|[]]]], He' as [->|[->|[->|[]]]]; simpl; unfold on_day; lia.
  - intros e He. simpl in He. rewrite !elem_of_cons, elem_of_nil in He. destruct He as [->|[->|[->|[]]]]; simpl; lia.
Qed.

(** ** The claims *)

(** C28 (functional): what the maintenance of the partitions does.  With its calls
    answered, the lock free and every row in a partition, [Maintain] goes through:
    of [events] and [job_logs] it keeps exactly the rows of the days from
    [now - hot] on, of the four archives those from [now - cold] on, in their
    order; no other table of the jobs changes; afterwards there is a partition of
    [events] and [job_logs] for every time from now until [horizon] from now, so
    that no insert is refused until then; and every row is in a partition. *)
Theorem maintain_retains env hot cold horizon db :
  stored db → 0 ≤ interval_of hot →
  let m := Maintain true hot cold horizon in
  let db' := final_db m (start db (quiet env)) in
  let kept d := filter (λ r, fresh (day (now env - interval_of d)) r = true) in
  (∃ n, answer m (start db (quiet env)) = inr n) ∧
  (∀ p, p ∈ hotParents → table p db' = kept hot (table p db)) ∧
  (∀ p, p ∈ coldParents → table p db' = kept cold (table p db)) ∧
  (∀ p t, p ∈ hotParents → now env ≤ t ≤ now env + interval_of horizon → (p, day t) ∈ partitions db') ∧
  stored db' ∧
  (jobs db' = jobs db ∧ leases db' = leases db ∧ execs db' = execs db ∧ dead_letters db' = dead_letters db).
Proof.
  intros Hst Hhot m db' kept. subst m db'. unfold answer, final_db.
  destruct (Maintain_runs env hot cold horizon db Hst Hhot) as (k & db1 & n & -> & [Hr Hk Hm Hg Hrest]).
  cbn [fst snd w_db]. split_and!; try apply Hrest.
  - eauto.
  - intros p Hp. rewrite table_low, Hr, decide_True; [|apply elem_of_app; right; by apply elem_of_reverse].
    unfold kept. by rewrite (proj1 (cut_hot env hot cold Hhot p Hp)).
  - intros p Hp. rewrite table_low, Hr, decide_True; [|apply elem_of_app; left; by apply elem_of_reverse].
    unfold kept. by rewrite (cut_cold env hot cold p Hp).
  - intros p t Hp Ht. apply Hm; [by apply elem_of_reverse|]. split; apply day_mono; lia.
  - intros p r Hin. rewrite table_low, Hr in Hin. assert (r ∈ table p db) as Hin0.
    { destruct (decide _); [|done]. by apply list_elem_of_filter in Hin as [_ ?]. }
    specialize (Hst p r Hin0). unfold in_partition in *. destruct (key r) as [t|] eqn:Hkey; [|done].
    apply bool_decide_eq_true in Hst. apply bool_decide_eq_true, Hk; [done|]. intros Hd.
    rewrite decide_True in Hin by done. apply list_elem_of_filter in Hin as [Hf _]. unfold fresh in Hf.
    rewrite Hkey in Hf. by apply Z.leb_le in Hf.
Qed.

(** On day 21, with a retention of seven days: the events of the days 0 and 10
    are gone, and day 30 has its partition. *)
Lemma maintain_retains_witness :
  e_id <$> events maintained_feed = [3] ∧
  (∃ n, answer (Maintain true (days 7) (days 90) (days 30)) (start feed_db (quiet day21)) = inr n) ∧
  table "events" maintained_feed = filter (λ r, fresh 14 r = true) (table "events" feed_db) ∧
  ("events", 30) ∈ partitions maintained_feed.
Proof.
  destruct (maintain_retains day21 (days 7) (days 90) (days 30) feed_db feed_db_stored) as (Hn & Hhot & _ & Hp & _);
    [by vm_compute|].
  split; [by vm_compute|]. split; [exact Hn|]. split.
  - apply (Hhot "events"). by left.
  - apply (Hp "events" (on_day 30)); [by left|]. split; by vm_compute.
Defined.


