(* ===== verification/Streaming.v ===== *)
(** * The event stream delivers the feed

    The hub (a state machine over what the handlers do to it): a user has at
    most [streamsPerUser] streams, one listener runs while there are any, and a
    notification wakes them all.  The pump: the frames of a stream are, one after
    the other, the events of the project after the position the client gave,
    whatever the other processes do in between. *)

From S2P Require Import Prelude Text Schema Fl Pool Api Views Stream GoLogic System Core Outbox Retention Fixture.
From stdpp Require Import list.

#[local] Open Scope string_scope.
#[local] Open Scope list_scope.
#[local] Open Scope Z_scope.

(** ** The hub *)

(** The second part of a state are the streams that are open: the channel and the
    user of each [done] that is still to be called. *)
Inductive hub_step : Hub * gmap N uuid → Hub * gmap N uuid → Prop :=
  | hub_open u h h' o ch : subscribe u h = (inr ch, h') → hub_step (h, o) (h', <[ch := u]> o)
  | hub_full u h h' o e : subscribe u h = (inl e, h') → hub_step (h, o) (h', o)
  | hub_done u ch h o : o !! ch = Some u → hub_step (h, o) (release u ch h, delete ch o)
  | hub_listen l h o : hub_step (h, o) (listen l h, o)
  | hub_receive ch h h' o : receive ch h = Some h' → hub_step (h, o) (h', o).

(** How many of them are the user's. *)
Definition open_of (u : uuid) (o : gmap N uuid) : Z := mcount (λ v, bool_decide (v = u)) o.

Record hub_ok (h : Hub) (o : gmap N uuid) : Prop := {
  hk_wakers : dom (wakers h) = dom o;
  hk_streams u : streams h !! u = if decide (open_of u o = 0) then None else Some (open_of u o);
  hk_bound u : open_of u o ≤ streamsPerUser;
  hk_listener : match stopListen h with
    | Some c => o ≠ ∅ ∧ listening h = {[c]}
    | None => o = ∅ ∧ listening h = ∅
    end;
  hk_fresh ch : ch ∈ dom o → (ch < h_next h)%N;
}.

Lemma hub_start : hub_ok no_streams ∅.
Proof.
  assert (∀ u, open_of u ∅ = 0) as H0 by (intros u; by apply mcount_zero).
  split; simpl; try done; try (intros u; rewrite H0); set_solver.
Qed.

Lemma streams_count h o u : hub_ok h o → streams_of u h = open_of u o.
Proof.
  intros [_ Hs _ _ _]. unfold streams_of. rewrite Hs. by case_decide as H; [rewrite H|].
Qed.

Lemma size_dom_eq {V W} (m : gmap N V) (m' : gmap N W) : dom m = dom m' → size m = size m'.
Proof. intros H. rewrite <- (size_dom (D:=gset N) m), <- (size_dom (D:=gset N) m'). by rewrite H. Qed.

(** A user below the bound gets a new channel. *)
Lemma subscribe_opens h o u :
  hub_ok h o → open_of u o < streamsPerUser →
  ∃ h', subscribe u h = (inr (h_next h), h') ∧ o !! h_next h = None ∧ hub_ok h' (<[h_next h := u]> o).
Proof.
  intros Hok Hlt. pose proof (streams_count h o u Hok) as Hc. destruct Hok as [Hw Hs Hb Hl Hf].
  assert (o !! h_next h = None) as Hnew.
  { apply not_elem_of_dom. intros Hin%Hf. lia. }
  assert (∀ v, open_of v (<[h_next h := u]> o) = open_of v o + Z.b2z (bool_decide (u = v))) as Hcount.
  { intros v. unfold open_of. by rewrite mcount_insert_new. }
  unfold subscribe. rewrite Hc. rewrite (proj2 (Z.leb_gt _ _)) by done. simpl.
  assert (size (<[h_next h := false]> (wakers h)) = S (size o)) as Hsz.
  { rewrite map_size_insert_None; [by rewrite (size_dom_eq _ _ Hw)|].
    apply not_elem_of_dom. rewrite Hw. by apply not_elem_of_dom. }
  assert (∀ v, <[u := open_of u o + 1]> (streams h) !! v =
    if decide (open_of v (<[h_next h := u]> o) = 0) then None else Some (open_of v (<[h_next h := u]> o))) as Hst.
  { intros v. rewrite Hcount. assert (0 ≤ open_of v o) by apply mcount_nonneg. rewrite lookup_insert. case_decide as E.
    - subst v. rewrite bool_decide_eq_true_2 by done. simpl. rewrite decide_False by lia. done.
    - rewrite bool_decide_eq_false_2 by done. simpl. by rewrite Z.add_0_r. }
  assert (∀ v, open_of v (<[h_next h := u]> o) ≤ streamsPerUser) as Hbound.
  { intros v. rewrite Hcount. specialize (Hb v). case_bool_decide; [subst|]; simpl; lia. }
  assert (<[h_next h := u]> o ≠ ∅) as Hne by apply insert_non_empty.
  eexists. split; [done|]. split; [done|]. case_decide as E; rewrite Hsz in E.
  - assert (o = ∅) as -> by (apply map_size_empty_inv; lia).
    assert (listening h = ∅) as Hl0 by (destruct (stopListen h); by destruct Hl).
    split; simpl; try done; [by rewrite !dom_insert_L, Hw| |].
    + split; [done|]. rewrite Hl0. set_solver.
    + intros ch. rewrite dom_insert, dom_empty. set_unfold. intros [->|[]]. lia.
  - assert (o ≠ ∅) as Hno by (intros ->; by rewrite map_size_empty in E).
    split; simpl; try done; [by rewrite !dom_insert_L, Hw| |].
    + destruct (stopListen h); [by destruct Hl|by destruct Hl as [-> _]].
    + intros ch. rewrite dom_insert. set_unfold. intros [->|Hin%Hf]; lia.
Qed.

Lemma subscribe_refuses h o u :
  hub_ok h o → streamsPerUser ≤ open_of u o →
  subscribe u h = (inl (tooMany "too many event streams open" 30), h).
Proof.
  intros Hok Hge. unfold subscribe. rewrite (streams_count h o u Hok). by rewrite (proj2 (Z.leb_le _ _)).
Qed.

Lemma release_ok h o u ch : hub_ok h o → o !! ch = Some u → hub_ok (release u ch h) (delete ch o).
Proof.
  intros Hok Hch. pose proof (streams_count h o u Hok) as Hc. destruct Hok as [Hw Hs Hb Hl Hf].
  assert (∀ v, open_of v (delete ch o) = open_of v o - Z.b2z (bool_decide (u = v))) as Hcount.
  { intros v. unfold open_of. by rewrite (mcount_delete _ _ _ u). }
  assert (o ≠ ∅) as Hno by (intros ->; by rewrite lookup_empty in Hch).
  assert (0 ≤ open_of u o - 1) as Hpos.
  { pose proof (mcount_nonneg (λ v, bool_decide (v = u)) (delete ch o)) as H. fold (open_of u (delete ch o)) in H.
    rewrite Hcount, bool_decide_eq_true_2 in H by done. simpl in H. lia. }
  assert (∀ v, (if open_of u o - 1 =? 0 then delete u (streams h) else <[u := open_of u o - 1]> (streams h)) !! v =
    if decide (open_of v (delete ch o) = 0) then None else Some (open_of v (delete ch o))) as Hst.
  { intros v. rewrite Hcount. destruct (decide (u = v)) as [<-|Hne].
    - rewrite bool_decide_eq_true_2 by done. simpl. destruct (Z.eqb_spec (open_of u o - 1) 0) as [E|E].
      + rewrite lookup_delete_eq. by rewrite decide_True.
      + rewrite lookup_insert_eq. by rewrite decide_False.
    - rewrite bool_decide_eq_false_2 by done. simpl. rewrite Z.sub_0_r, <- Hs.
      destruct (_ =? 0); [by rewrite lookup_delete_ne|by rewrite lookup_insert_ne]. }
  assert (dom (delete ch (wakers h)) = dom (delete ch o)) as Hd by (by rewrite !dom_delete_L, Hw).
  unfold release. rewrite Hc. simpl. destruct (stopListen h) as [c|] eqn:Hstop; [|by destruct Hl].
  destruct Hl as [_ Hl]. rewrite (size_dom_eq _ _ Hd).
  assert (∀ v, open_of v (delete ch o) ≤ streamsPerUser) as Hbound.
  { intros v. rewrite Hcount. specialize (Hb v). destruct (bool_decide (u = v)); simpl; lia. }
  assert (∀ c', c' ∈ dom (delete ch o) → (c' < h_next h)%N) as Hfr.
  { intros c'. rewrite dom_delete. set_unfold. intros [? _]. by apply Hf. }
  case_decide as E.
  - apply map_size_empty_inv in E. split; simpl; try done. split; [done|]. rewrite Hl. set_solver.
  - split; simpl; try done. rewrite Hstop. split; [|done]. intros H0. rewrite H0 in E. by apply E.
Qed.

(** What only moves tokens. *)
Lemma tokens_ok h o ws : hub_ok h o → dom ws = dom (wakers h) → hub_ok (h <| wakers := ws |>) o.
Proof. intros [Hw Hs Hb Hl Hf] Hd. split; simpl; try done. congruence. Qed.

Lemma wake_ok h o : hub_ok h o → hub_ok (wake h) o.
Proof. intros Hok. apply tokens_ok; [done|]. apply dom_fmap_L. Qed.

Lemma listen_ok l h o : hub_ok h o → hub_ok (listen l h) o.
Proof.
  revert h. induction l as [|c l IH]; intros h Hok; simpl; [done|]. apply IH. unfold listenOnce.
  destruct (cn_acquired c); simpl; [|done]. destruct (cn_listens c); simpl; [|done].
  induction (cn_notified c) as [|n IHn]; simpl; [done|by apply wake_ok].
Qed.

Lemma receive_ok ch h h' o : hub_ok h o → receive ch h = Some h' → hub_ok h' o.
Proof.
  intros Hok Hr. unfold receive in Hr. destruct (wakers h !! ch) as [[]|] eqn:Hch; simplify_eq.
  apply tokens_ok; [done|]. rewrite dom_insert_lookup_L; [done|]. by eexists.
Qed.

Lemma hub_reachable h o : rtc hub_step (no_streams, ∅) (h, o) → hub_ok h o.
Proof.
  enough (∀ s s', rtc hub_step s s' → hub_ok s.1 s.2 → hub_ok s'.1 s'.2) as Hall.
  { intros Hr. apply (Hall _ _ Hr), hub_start. }
  induction 1 as [|s1 s2 s3 Hstep _ IH]; [done|]. intros Hok. apply IH. clear IH.
  destruct Hstep as [u h1 h2 o1 ch Hs|u h1 h2 o1 e Hs|u ch h1 o1 Hch|l h1 o1|ch h1 h2 o1 Hr]; simpl in *.
  - destruct (Z.lt_ge_cases (open_of u o1) streamsPerUser) as [Hlt|Hge].
    + destruct (subscribe_opens h1 o1 u Hok Hlt) as (h' & Hs' & _ & Hok'). rewrite Hs' in Hs. by simplify_eq.
    + by rewrite (subscribe_refuses h1 o1 u) in Hs.
  - destruct (Z.lt_ge_cases (open_of u o1) streamsPerUser) as [Hlt|Hge].
    + destruct (subscribe_opens h1 o1 u Hok Hlt) as (h' & Hs' & _ & Hok'). rewrite Hs' in Hs. by simplify_eq.
    + rewrite (subscribe_refuses h1 o1 u) in Hs by done. by simplify_eq.
  - by apply release_ok.
  - by apply listen_ok.
  - by eapply receive_ok.
Qed.

(** ** The feed of a project *)

(** The events of the project after [after], in the order of the table. *)
Definition feed (project : uuid) (after : Z) (db : DB) : list Event :=
  filter (λ e, e_project_id e = project ∧ after < e_id e) (events db).

Lemma filter_ascending (P : Event → Prop) `{!∀ e, Decision (P e)} lo hi l :
  ascending lo hi l → ascending lo hi (filter P l).
Proof.
  intros [Hs Hf]. split.
  - induction l as [|e l IH]; [done|]. apply StronglySorted_inv in Hs as [Hs Hlt].
    apply list.Forall_cons in Hf as [_ Hf]. rewrite filter_cons. case_decide; [|by apply IH].
    simpl. constructor; [by apply IH|]. apply list.Forall_forall. intros z (e' & -> & [_ He']%list_elem_of_filter)%list_elem_of_fmap.
    rewrite list.Forall_forall in Hlt. apply Hlt, list_elem_of_fmap. eauto.
  - apply list.Forall_forall. intros e [_ He]%list_elem_of_filter. rewrite list.Forall_forall in Hf. by apply Hf.
Qed.

Lemma ascending_inj lo hi l e e' : ascending lo hi l → e ∈ l → e' ∈ l → e_id e = e_id e' → e = e'.
Proof.
  intros [Hs _]. induction l as [|x l IH]; [by intros ?%elem_of_nil|].
  apply StronglySorted_inv in Hs as [Hs Hlt]. rewrite list.Forall_forall in Hlt.
  rewrite !elem_of_cons. intros [->|He] [->|He'] Heq; [done|..|by apply IH].
  - assert (e_id x < e_id e') by (apply Hlt, list_elem_of_fmap; eauto). lia.
  - assert (e_id x < e_id e) by (apply Hlt, list_elem_of_fmap; eauto). lia.
Qed.

Lemma ascending_sorted lo hi l : ascending lo hi l → StronglySorted event_le l.
Proof.
  intros [Hs _]. induction l as [|e l IH]; constructor; apply StronglySorted_inv in Hs as [Hs Hlt]; [by apply IH|].
  apply list.Forall_forall. intros e' He'. rewrite list.Forall_forall in Hlt. unfold event_le.
  assert (e_id e < e_id e') by (apply Hlt, list_elem_of_fmap; eauto). lia.
Qed.

(** The query reads the head of the feed. *)
Lemma listEvents_feed project after limit env db :
  numbered db → listEventsSQL project after limit env db = inr (take (Z.to_nat limit) (feed project after db), db).
Proof.
  intros [lo Ha]. unfold listEventsSQL, gets. do 3 f_equal. fold (feed project after db).
  assert (ascending lo (event_seq db) (feed project after db)) as Hf by by apply filter_ascending.
  assert (∀ x y, Decision (event_le x y)) by (intros; apply _).
  assert (Total event_le) by (intros x y; unfold event_le; lia).
  assert (Transitive event_le) by (intros x y z; unfold event_le; lia).
  apply (StronglySorted_unique_strong event_le).
  - intros x y Hx Hy Hxy Hyx. rewrite merge_sort_Permutation in Hx. eapply ascending_inj; [exact Hf|done..|].
    unfold event_le in *. lia.
  - by apply StronglySorted_merge_sort.
  - by eapply ascending_sorted.
  - apply merge_sort_Permutation.
Qed.

Lemma feed_grows project after db db' :
  grows db db' → ∃ more, feed project after db' = feed project after db ++ more.
Proof. intros (new & He & _). unfold feed. rewrite He, list.filter_app. eauto. Qed.

(** Past the head of the feed is the rest of it. *)
Lemma feed_rest project after db l e l' :
  numbered db → feed project after db = l ++ e :: l' → feed project (e_id e) db = l'.
Proof.
  intros [lo Ha] Hsplit. assert (ascending lo (event_seq db) (feed project after db)) as [Hs _] by by apply filter_ascending.
  assert (after < e_id e) as Hlt.
  { assert (e ∈ feed project after db) as He by (rewrite Hsplit, elem_of_app, elem_of_cons; tauto).
    apply list_elem_of_filter in He. tauto. }
  transitivity (filter (λ x, e_id e < e_id x) (feed project after db)).
  { unfold feed. rewrite list_filter_filter. apply list_filter_iff. intros x. split; intros; split_and?; try tauto; lia. }
  rewrite Hsplit in *. rewrite fmap_app in Hs. clear -Hs. induction l as [|x l IH]; simpl in *.
  - apply StronglySorted_inv in Hs as [_ Hlt]. rewrite filter_cons_False by lia.
    apply filter_every. intros y Hy. rewrite list.Forall_forall in Hlt. apply Hlt, list_elem_of_fmap. eauto.
  - apply StronglySorted_inv in Hs as [Hs Hlt]. rewrite filter_cons_False; [by apply IH|].
    rewrite list.Forall_forall in Hlt. assert (e_id x < e_id e); [|lia]. apply Hlt.
    rewrite elem_of_app. right. by left.
Qed.

(** ** Frames *)

(** The frames carry on from [after]: each names the position before it, its
    events and the position after it, and says whether it is full. *)
Fixpoint chained (after : Z) (fs : list frame) : Prop :=
  match fs with
  | [] => True
  | f :: fs =>
    fr_Type f = "batch" ∧ PrevID f = after ∧ (∃ e, last (Events f) = Some e ∧ Next f = e_id e) ∧
    Z.of_nat (length (Events f)) ≤ streamBatch ∧
    More f = (Z.of_nat (length (Events f)) =? streamBatch) ∧ chained (Next f) fs
  end.

Definition carried (fs : list frame) : list Event := concat (Events <$> fs).

Lemma carried_cons f fs : carried (f :: fs) = Events f ++ carried fs.
Proof. done. Qed.

(** ** The pump *)

(** The other processes let the outbox grow. *)
Definition growing (calls : nat → Call) : Prop := ∀ n db, grows db (c_other (calls n) db).

(** A query of the loop: what it leaves, and what it gives if it is answered. *)
Lemma turn_query project after w r w' :
  growing (w_calls w) → numbered (w_db w) →
  caught (pool_exec (listEventsSQL project after streamBatch)) w = (r, w') →
  w_calls w' = w_calls w ∧ w_n w' = S (w_n w) ∧ grows (w_db w) (w_db w') ∧
  ((∃ e, r = inr (inl e) ∧ c_fault (this_call w) ≠ NoFault) ∨
   r = inr (inr (take (Z.to_nat streamBatch) (feed project after (w_db w'))))).
Proof.
  intros Hg Hn. unfold caught. destruct (pool_exec _ w) as [r0 w0] eqn:Hp. intros [= <- <-].
  assert (grows (w_db w) (c_other (this_call w) (w_db w))) as Hgr by apply Hg.
  unfold pool_exec in Hp. rewrite listEvents_feed in Hp by by eapply grows_numbered.
  destruct (c_fault (this_call w)) eqn:Hf; injection Hp as <- <-; simpl; split_and!; eauto.
Qed.

(** Nothing fails and nobody leaves. *)
Definition undisturbed (calls : nat → Call) (conn : Peer) : Prop :=
  (∀ n, c_fault (calls n) = NoFault) ∧ (∀ n, p_send conn n = None) ∧ (∀ n, p_wait conn n = None).

Definition batches (n : nat) : nat := n * Z.to_nat streamBatch.

(** What [fuel] turns make of it, from [db] to [db']: the frames are the head of
    the feed; undisturbed, they have at least [fuel] batches of what was there. *)
Record delivers (conn : Peer) (calls : nat → Call) (project : uuid) (fuel : nat) (after : Z)
    (db : DB) (fs : list frame) (e : option err) (db' : DB) : Prop := {
  dl_chain : chained after fs;
  dl_grows : grows db db';
  dl_feed : ∃ rest, feed project after db' = carried fs ++ rest;
  dl_all : undisturbed calls conn →
    e = None ∧ ∃ more, carried fs = take (batches fuel) (feed project after db) ++ more;
}.

Section pump.
Context (conn : Peer) (calls : nat → Call) (project : uuid).
Implicit Types (db : DB) (fs : list frame) (e : option err).

Lemma delivers_end fuel after db db' e :
  grows db db' → (undisturbed calls conn → False) → delivers conn calls project fuel after db [] e db'.
Proof. intros ? Hf. split; [done..|by eexists|]. intros Hu. by destruct (Hf Hu). Qed.

Lemma delivers_none fuel after db db1 db' fs e :
  grows db db1 → feed project after db1 = [] →
  delivers conn calls project fuel after db1 fs e db' → delivers conn calls project (S fuel) after db fs e db'.
Proof.
  intros Hg H0 [H1 H2 H3 H4]. split; [done|by etrans|done|]. intros Hu. destruct (H4 Hu) as [-> Hm]. split; [done|].
  destruct (feed_grows project after _ _ Hg) as [more Hmore]. rewrite H0 in Hmore.
  symmetry in Hmore. apply app_eq_nil in Hmore as [-> _]. rewrite take_nil. by exists (carried fs).
Qed.

Lemma delivers_batch fuel after db db1 db' evs x fs e :
  numbered db1 → grows db db1 → evs = take (Z.to_nat streamBatch) (feed project after db1) → last evs = Some x →
  delivers conn calls project fuel (e_id x) db1 fs e db' →
  delivers conn calls project (S fuel) after db
    (mkFrame "batch" after (e_id x) (Z.of_nat (length evs) =? streamBatch) 0 evs :: fs) e db'.
Proof.
  intros Hn Hg Hevs Hx [H1 H2 H3 H4].
  assert (feed project after db1 = evs ++ drop (Z.to_nat streamBatch) (feed project after db1)) as Hsplit
    by (subst evs; by rewrite take_drop).
  apply last_Some in Hx as [l' Hl']. rewrite Hl' in Hsplit. rewrite <- app_assoc in Hsplit.
  pose proof (feed_rest project after db1 _ _ _ Hn Hsplit) as Hrest.
  split.
  - simpl. split_and!; try done; [exists x; by rewrite Hl', last_snoc|]. subst evs. rewrite length_take. unfold streamBatch. lia.
  - by etrans.
  - destruct (feed_grows project after _ _ H2) as [m Hm], H3 as [rest H3]. rewrite Hsplit, <- app_assoc in Hm.
    apply (feed_rest project after db' l' x (_ ++ m)) in Hm as Hrest'; [|by eapply grows_numbered].
    exists rest. rewrite carried_cons. cbn [Events]. rewrite Hm, Hl', <- (app_assoc _ (carried fs)), <- H3, Hrest'.
    by rewrite <- !app_assoc.
  - intros Hu. destruct (H4 Hu) as [-> [more Hm]]. split; [done|].
    destruct (feed_grows project after _ _ Hg) as [more' Hmore].
    assert (carried (mkFrame "batch" after (e_id x) (Z.of_nat (length evs) =? streamBatch) 0 evs :: fs) =
      take (batches (S fuel)) (feed project after db1) ++ more) as ->.
    { rewrite carried_cons, Hm, Hrest, app_assoc. f_equal. cbn [Events]. rewrite Hevs.
      by rewrite take_take_drop. }
    rewrite Hmore, take_app, <- app_assoc. eauto.
Qed.

(** The loop. *)
Lemma pump_loop_spec fuel k after sent w r w' :
  w_calls w = calls → growing calls → numbered (w_db w) →
  pump_loop fuel k conn project after sent w = (r, w') →
  ∃ fs e, r = inr (sent ++ fs, e) ∧ delivers conn calls project fuel after (w_db w) fs e (w_db w').
Proof.
  revert k after sent w r w'. induction fuel as [|fuel IH]; intros k after sent w r w' Hc Hg Hn Hrun.
  { injection Hrun as <- <-. exists [], None. rewrite app_nil_r. split; [done|].
    split; [done..|by eexists|]. intros _. split; [done|]. by exists []. }
  cbn [pump_loop] in Hrun. unfold mbind, go_bind in Hrun.
  destruct (caught _ w) as [r1 w1] eqn:Hq.
  destruct (turn_query project after w r1 w1) as (Hc1 & _ & Hgr & Hr1); [by rewrite Hc|done..|]. clear Hq.
  rewrite Hc in Hc1. assert (numbered (w_db w1)) as Hn1 by by eapply grows_numbered.
  destruct Hr1 as [(e & -> & Hf)| ->].
  { injection Hrun as <- <-. exists [], (Some e). rewrite app_nil_r. split; [done|].
    apply delivers_end; [done|]. intros [Hu _]. apply Hf. unfold this_call. by rewrite Hc. }
  set (evs := take (Z.to_nat streamBatch) (feed project after (w_db w1))) in *.
  destruct (last evs) as [x|] eqn:Hlast.
  - destruct (p_send conn k) as [e|] eqn:Hsend.
    { injection Hrun as <- <-. exists [], (Some e). rewrite app_nil_r. split; [done|].
      apply delivers_end; [done|]. intros (_ & Hu & _). by rewrite Hu in Hsend. }
    set (f := mkFrame _ _ _ _ _ _) in *.
    assert (∀ fs e, delivers conn calls project fuel (e_id x) (w_db w1) fs e (w_db w') →
      delivers conn calls project (S fuel) after (w_db w) (f :: fs) e (w_db w')) as Hstep
      by (intros; by eapply delivers_batch).
    destruct (More f).
    + destruct (IH _ _ _ _ _ _ Hc1 Hg Hn1 Hrun) as (fs & e & -> & Hd). exists (f :: fs), e.
      rewrite <- app_assoc. auto.
    + destruct (p_wait conn k) as [e|] eqn:Hwait.
      * injection Hrun as <- <-. exists [f], (Some e). split; [done|]. apply Hstep.
        apply delivers_end; [done|]. intros (_ & _ & Hu). by rewrite Hu in Hwait.
      * destruct (IH _ _ _ _ _ _ Hc1 Hg Hn1 Hrun) as (fs & e & -> & Hd). exists (f :: fs), e.
        rewrite <- app_assoc. auto.
  - assert (feed project after (w_db w1) = []) as H0.
    { apply last_None in Hlast. destruct (feed project after (w_db w1)); [done|]. discriminate Hlast. }
    destruct (p_wait conn k) as [e|] eqn:Hwait.
    + injection Hrun as <- <-. exists [], (Some e). rewrite app_nil_r. split; [done|].
      apply delivers_end; [done|]. intros (_ & _ & Hu). by rewrite Hu in Hwait.
    + destruct (IH _ _ _ _ _ _ Hc1 Hg Hn1 Hrun) as (fs & e & -> & Hd). exists fs, e.
      split; [done|]. by eapply delivers_none.
Qed.

End pump.

(** ** The handler *)

(** What [s.tx] returns, its function returned at some moment. *)
Lemma tx_attempts_value {A} I (m : go A) n last w a w' :
  tx_keeps I m → at_rest I w → tx_attempts n last m w = (inr a, w') →
  at_rest I w' ∧ w_calls w' = w_calls w ∧ ∃ w1 w2, I (w_db w1) ∧ m w1 = (inr a, w2).
Proof.
  intros Hm. revert last w. induction n as [|n IH]; intros last w (Hs & HI & Ho) Hrun; [done|]. simpl in Hrun.
  assert (I (c_other (this_call w) (w_db w))) as HI1 by (by apply Ho).
  unfold mbind, go_bind, begin_tx in Hrun. destruct (c_fault (this_call w)); [|done..].
  set (w1 := (after_call w _) <| w_snap := _ |>) in *.
  unfold caught at 1 in Hrun. destruct (m w1) as [r w2] eqn:Hb.
  destruct (Hm _ _ _ Hb HI1) as (Hs2 & Hc2 & HQ). simpl in Hs2, Hc2.
  assert (at_rest I (rollback w2) ∧ w_calls (rollback w2) = w_calls w) as [Hback Hbc].
  { unfold rollback. rewrite Hs2. split; [|done]. split_and!; [done|done|]. simpl. by rewrite Hc2. }
  assert (∀ w3 n' e, at_rest I w3 → w_calls w3 = w_calls w → tx_attempts n' e m w3 = (inr a, w') → n' = n →
    at_rest I w' ∧ w_calls w' = w_calls w ∧ ∃ w1 w2, I (w_db w1) ∧ m w1 = (inr a, w2)) as Hagain.
  { intros w3 n' e H3 H3' Hr ->. rewrite <- H3'. by eapply IH. }
  destruct r as [e|a'].
  - unfold roll_back in Hrun. destruct (retryable e); [|done]. by eapply Hagain.
  - assert (∀ f, w_snap f = None → w_db f = w_db w2 → w_calls f = w_calls w2 → at_rest I f) as Hdone.
    { intros f H1 H2 H3. split_and!; [done|by rewrite H2|]. by rewrite H3, Hc2. }
    unfold caught, commit_tx, roll_back in Hrun. destruct (c_fault (this_call w2)); simpl in Hrun.
    + injection Hrun as <- <-. split_and!; [by apply Hdone|done|by exists w1, w2].
    + destruct (retryable e); [|done]. eapply Hagain; [| |exact Hrun|done];
        unfold rollback; simpl; rewrite Hs2; [|done]. split_and!; [done|done|]. simpl. by rewrite Hc2.
    + destruct (retryable e); [|done]. by eapply Hagain; [apply Hdone| |exact Hrun|done].
Qed.

Section handler.
Context (X : Externals).

(** The session of the request was alive in [db], and its user a member of the
    organization of the project. *)
Definition admitted {B} (r : Request B) (uid project : uuid) (db : DB) : Prop :=
  (∃ sid env, x_uuid_Parse X (bearer r) = Some sid ∧ sessionSQL sid env db = inr (Some uid, db)) ∧
  x_uuid_Parse X (rq_path r "projectId") = Some project ∧ is_Some (member_of uid project db).

Lemma authorize_keeps {B} P (r : Request B) : tx_keeps P (authorize (x_uuid_Parse X) r).
Proof.
  unfold authorize, authuser, sessionSQL, byPath, projectScope, scopeBy, projectScopeSQL.
  repeat first [tx_step | apply keeps_gets].
Qed.

Lemma authorize_inv {B} (r : Request B) w uid sc w' :
  authorize (x_uuid_Parse X) r w = (inr (uid, sc), w') → admitted r uid (sc_projectID sc) (w_db w).
Proof.
  unfold authorize. intros [(? & _ & ?)|([u s] & w1 & Ha & Hr)]%go_bind_inv; [done|].
  unfold authuser in Ha. destruct (decide _); [done|].
  destruct (x_uuid_Parse X (bearer r)) as [sid|] eqn:Hsid; [|done].
  apply go_bind_inv in Ha as [(? & _ & ?)|(ou & w1' & Hs & Ha)]; [done|].
  assert (w_db w1' = w_db w ∧ ∃ env, sessionSQL sid env (w_db w) = inr (ou, w_db w)) as [Hdb [env Henv]].
  { unfold tx_exec in Hs. destruct (c_fault (this_call w)); try done.
    unfold sessionSQL, gets in *. simplify_eq. split; [done|]. by eexists. }
  destruct ou as [u'|]; [|done]. injection Ha as -> _ <-.
  apply go_bind_inv in Hr as [(? & _ & ?)|(osc & w2 & Hsc & Hr)]; [done|].
  unfold byPath in Hsc. destruct (x_uuid_Parse X (rq_path r "projectId")) as [p|] eqn:Hp; [|done].
  unfold projectScope, scopeBy in Hsc. apply go_bind_inv in Hsc as [(? & _ & ?)|(row & w3 & Hrow & Hsc)]; [done|].
  injection Hsc as <- <-. unfold tx_exec in Hrow. destruct (c_fault (this_call w1')); try done.
  unfold projectScopeSQL, gets in Hrow. injection Hrow as <- <-. rewrite Hdb in Hr.
  destruct (member_of u p (w_db w)) as [[[p' o] ro]|] eqn:Hmem; [|done].
  assert (p' = p) as ->.
  { unfold member_of in Hmem. destruct (projects (w_db w) !! p); [|done]. simpl in Hmem.
    by destruct (org_members _ !! _); simplify_eq/=. }
  simpl in Hr. destruct (_ <? _); [done|]. injection Hr as <- <- <-. split; [by exists sid, env|]. split; [done|].
  simpl. by rewrite Hmem.
Qed.

End handler.

Lemma process_growing X calls : (∀ n, process X (c_other (calls n))) → growing calls.
Proof. intros H n db. by apply (process_grows X). Qed.

Lemma reachable_rest X w :
  w_snap w = None → (∀ n, process X (c_other (w_calls w n))) → at_rest (reachable X (w_db w)) w.
Proof.
  intros Hs Ho. split_and!; [done| |].
  - exists (λ db, db). split; [constructor|done].
  - intros n db Hr. eapply reachable_trans; [exact Hr|]. by exists (c_other (w_calls w n)).
Qed.

(** The pump, from the low-water mark on. *)
Lemma pump_spec conn project fuel after w sent e w' :
  growing (w_calls w) → numbered (w_db w) →
  pump fuel conn project after w = (inr (sent, e), w') →
  (sent = [tooOldFrame after (low_water_id (w_db w'))] ∧ succ_int64 after < low_water_id (w_db w')) ∨
  (chained after sent ∧ ∃ rest, feed project after (w_db w') = carried sent ++ rest).
Proof.
  intros Hg Hn Hrun. unfold pump in Hrun. apply go_bind_inv in Hrun as [(? & _ & ?)|(r & w1 & Hlow & Hrun)]; [done|].
  unfold caught, pool_exec in Hlow. set (db1 := c_other (this_call w) (w_db w)) in Hlow.
  assert (grows (w_db w) db1) as Hgr by apply Hg.
  assert (w_db w1 = db1 ∧ w_calls w1 = w_calls w ∧ (∀ low, r = inr low → low = low_water_id db1)) as (Hdb & Hc & Hr).
  { unfold gets in Hlow. destruct (c_fault (this_call w)); injection Hlow as <- <-; naive_solver. }
  destruct r as [e1|low]; [injection Hrun as <- <- <-; right; split; [done|by eexists]|].
  specialize (Hr low eq_refl) as ->. destruct (Z.ltb_spec (succ_int64 after) (low_water_id db1)).
  - destruct (p_send conn 0); injection Hrun as <- <- <-.
    + right. split; [done|by eexists].
    + left. by rewrite Hdb.
  - apply go_bind_inv in Hrun as [(? & _ & ?)|([fs e1] & w2 & Hloop & Hrun)]; [done|]. injection Hrun as <- _ <-.
    eapply (pump_loop_spec conn (w_calls w)) in Hloop as (fs' & e' & [= -> ->] & [H1 _ H3 _]);
      [by right|done|done|]. rewrite Hdb. by eapply grows_numbered.
Qed.

(** ** The claims *)


(** A stream of project 2: three events are there, and while it is open queue 4 is
    paused. *)
Definition streamed_db : DB := db0
  <| events := [mkEvent 1 "a" 10 2 [] 0; mkEvent 2 "b" 10 9 [] 0; mkEvent 3 "c" 11 2 [] 0] |>
  <| event_seq := 3 |>.

Definition pausing (db : DB) : DB :=
  final_db (run_op X0 (OpServe (PauseQueue (request 4 tt)))) (start db (quiet env0)).

Definition stream_calls (n : nat) : Call := mkCall env0 NoFault (if decide (n = 6%nat) then pausing else λ db, db).
Definition good_peer : Peer := mkPeer (λ _, None) (λ _, None).

Definition stream_run (accept : list string → bool) :=
  streamEvents (x_uuid_Parse X0) accept 3 good_peer (λ h, h) no_streams (request 2 tt)
    (start streamed_db stream_calls).

Lemma streamed_numbered : numbered streamed_db.
Proof. exists 0. split; repeat constructor; simpl; lia. Qed.

Lemma stream_calls_process n : process X0 (c_other (stream_calls n)).
Proof.
  unfold stream_calls. simpl. destruct (decide _); [|constructor]. unfold pausing. apply (process_run X0 _ _ 0).
  intros k. constructor.
Qed.

Definition sent_of (x : (err + (streamed * Hub)) * World) : list frame :=
  match x with (inr (Streamed fs _, _), _) => fs | _ => [] end.




(** C26 (refinement): the hub is the set of the open streams.  However the handlers
    subscribe and leave, the listener connects, loses its connection and is
    notified, and the pumps wait: the count kept for a user is the number of
    streams it has open, at most four, and no entry is kept for a user without
    any; there is a channel for every open stream and for no other; there is one
    listener while a stream is open, and none otherwise; a user with four open
    streams is refused with a 429 that changes nothing, and any other is given a
    channel that is not in use; and one notification leaves a token in the channel
    of every open stream. *)
Theorem hub_tracks_streams h o :
  rtc hub_step (no_streams, ∅) (h, o) →
  (∀ u, streams_of u h = open_of u o ∧ open_of u o ≤ 4 ∧ (open_of u o = 0 → streams h !! u = None)) ∧
  dom (wakers h) = dom o ∧
  size (listening h) = (if decide (o = ∅) then 0 else 1)%nat ∧
  (∀ u, if decide (open_of u o = 4) then subscribe u h = (inl (tooMany "too many event streams open" 30), h)
        else ∃ ch h', subscribe u h = (inr ch, h') ∧ o !! ch = None ∧ open_of u (<[ch := u]> o) = open_of u o + 1) ∧
  (∀ ch, ch ∈ dom o → wakers (listenOnce (mkConnection true true 1) h) !! ch = Some true).
Proof.
  intros Hok%hub_reachable. pose proof (λ u, hk_bound _ _ Hok u) as Hb. unfold streamsPerUser in Hb. split_and!.
  - intros u. split_and!; [by apply streams_count|done|]. intros H0. rewrite (hk_streams _ _ Hok). by rewrite decide_True.
  - apply (hk_wakers _ _ Hok).
  - pose proof (hk_listener _ _ Hok) as Hl. destruct (stopListen h) as [c|]; destruct Hl as [Ho ->].
    + rewrite decide_False by done. apply size_singleton.
    + by rewrite decide_True.
  - intros u. specialize (Hb u). case_decide as E.
    + apply (subscribe_refuses h o); [done|]. unfold streamsPerUser. lia.
    + destruct (subscribe_opens h o u) as (h' & Hs & Hnew & _); [done|unfold streamsPerUser; lia|].
      exists (h_next h), h'. split_and!; try done. unfold open_of. rewrite mcount_insert_new by done.
      by rewrite bool_decide_eq_true_2.
  - intros ch Hch. simpl. rewrite <- (hk_wakers _ _ Hok) in Hch. apply elem_of_dom in Hch as [b Hb'].
    by rewrite lookup_fmap, Hb'.
Qed.

(** Streams that are opened one after the other. *)
Definition open_stream (s : Hub * gmap N uuid) (u : uuid) : Hub * gmap N uuid :=
  match subscribe u s.1 with
  | (inr ch, h) => (h, <[ch := u]> s.2)
  | (inl _, h) => (h, s.2)
  end.

Lemma open_streams_steps us s : rtc hub_step s (foldl open_stream s us).
Proof.
  revert s. induction us as [|u us IH]; intros [h o]; simpl; [done|]. eapply rtc_l; [|apply IH].
  unfold open_stream. simpl. destruct (subscribe u h) as [[e|ch] h'] eqn:Hs; [by eapply hub_full|by apply hub_open].
Qed.

(** Five streams of user 6, of which it gets four, one of user 8, and the first of
    them closed. *)
Definition opened1 : Hub * gmap N uuid := foldl open_stream (no_streams, ∅) [6; 6; 6; 6; 6; 8]%N.
Definition hub1 : Hub := release 6 0 opened1.1.
Definition open1 : gmap N uuid := delete 0%N opened1.2.

Lemma hub_tracks_streams_witness :
  streams_of 6 hub1 = 3 ∧ streams_of 6 opened1.1 = 4 ∧ size (listening hub1) = 1%nat ∧ open_of 6 open1 ≤ 4 ∧
  wakers (listenOnce (mkConnection true true 1) hub1) !! 5%N = Some true.
Proof.
  assert (rtc hub_step (no_streams, ∅) (hub1, open1)) as Hr.
  { apply (rtc_r _ (opened1.1, opened1.2)).
    - rewrite <- surjective_pairing. apply open_streams_steps.
    - apply hub_done. by vm_compute. }
  destruct (hub_tracks_streams hub1 open1 Hr) as (H1 & _ & H3 & _ & H5).
  split; [by vm_compute|]. split; [by vm_compute|].
  split; [rewrite H3; by vm_compute|]. split; [apply H1|]. apply H5, elem_of_dom. exists 8%N. by vm_compute.
Defined.
