(* ===== verification/Metrics.v ===== *)
(** * The views of the monitor (migrations/026_metrics.sql)

    [fl.queue_age], [fl.fenced_writes] and [fl.reaper_lag], and what they say of the
    components they watch: the tiers of the statistics, the reaper, the fence. *)

From S2P Require Import Prelude Schema Fl Pool Jobs Sched Slots Stats Reports Progress Reaping Health Fencing Fixture.

#[local] Open Scope Z_scope.

(** ** The views *)

Record age_row := mkAgeRow { ar_queue : uuid; ar_name : string; ar_project : uuid; ar_tier : tier }.

(** The rows of one queue; the order of the groups is that of the tiers. *)
Definition queue_ages (env : Env) (r : uuid * Queue) : sql (list age_row) :=
  rows ← gets (λ db, (select (λ _, is_ready env r.1) (jobs db)).*2);
  tiers ← tiers_of env rows;
  mret (mkAgeRow r.1 (q_name r.2) (q_project_id r.2) <$> tiers).

Definition queue_age (env : Env) : sql (list age_row) :=
  qs ← gets (λ db, map_to_list (queues db));
  groups ← traverse qs (queue_ages env);
  mret (concat groups).

Definition fenced_writes (db : DB) : Z := Z.of_nat (length (violations db)).

Record lag := mkLag { lag_seconds : Z; lag_overdue : Z }.

Definition reaper_lag (env : Env) : sql lag :=
  rows ← gets (λ db, (select (expired env db) (leases db)).*2);
  seconds ← epoch_int (default 0 (max_of ((λ l, now env - expires_at l) <$> rows)));
  overdue ← to_int4 (Z.of_nat (length rows));
  mret (mkLag seconds overdue).

(** ** The age of the queues *)

Lemma queue_ages_spec env r db out db' :
  queue_ages env r db = inr (out, db') →
  db' = db ∧ oldestByTierSQL r.1 env db = inr (ar_tier <$> out, db) ∧ Forall (λ a, ar_queue a = r.1) out.
Proof.
  unfold queue_ages, oldestByTierSQL, gets, mbind, tx_bind.
  destruct (tiers_of _ _ db) as [|[ts db1]] eqn:Ht; [done|]. pose proof (tiers_of_reads _ _ _ _ _ Ht) as ->.
  intros [= <- <-]. split; [done|]. split; [by rewrite <- list_fmap_compose, list_fmap_id|].
  apply list.Forall_fmap, list.Forall_true. done.
Qed.

(** The tiers [fl.queue_age] has of a queue are those the API reports for it, for
    every queue. *)
Theorem queue_age_agrees env db out db' i q :
  queue_age env db = inr (out, db') → queues db !! i = Some q →
  db' = db ∧ oldestByTierSQL i env db = inr (ar_tier <$> filter (λ a, ar_queue a = i) out, db).
Proof.
  unfold queue_age, gets. unfold mbind at 1, tx_bind at 1. unfold mbind, tx_bind.
  destruct (traverse _ _ db) as [|[groups db1]] eqn:Hg; [done|]. intros [= <- <-] Hq.
  apply traverse_reads in Hg as [-> Hg]; [|by intros r a d [-> _]%queue_ages_spec].
  split; [done|]. apply elem_of_map_to_list in Hq. pose proof (NoDup_fst_map_to_list (queues db)) as Hnd.
  revert Hq Hnd Hg. generalize (map_to_list (queues db)). intros qs. revert groups.
  induction qs as [|[k c] qs IH]; intros groups Hq Hnd Hg; [by apply elem_of_nil in Hq|].
  apply Forall2_cons_inv_l in Hg as (a & groups' & [_ [Ha Hall]]%queue_ages_spec & Hg & ->).
  apply list.NoDup_cons in Hnd as [Hni Hnd]. simpl in *. rewrite list.filter_app.
  apply elem_of_cons in Hq as [[= <- <-]|Hq].
  - rewrite filter_every, (filter_none _ (concat groups')), app_nil_r; [done| |by apply list.Forall_forall].
    intros x (g & Hin & Hx)%list_elem_of_In%in_concat Hxi. apply list_elem_of_In in Hx.
    apply list_elem_of_In, list_elem_of_lookup in Hin as [n Hn].
    destruct (Forall2_lookup_r _ _ _ _ _ Hg Hn) as ([k' c'] & Hin'%list_elem_of_lookup_2 & Hy).
    apply queue_ages_spec in Hy as (_ & _ & Hy). rewrite list.Forall_forall in Hy. apply Hni, list_elem_of_fmap.
    exists (k', c'). split; [|done]. simpl. rewrite <- Hxi. by apply Hy.
  - rewrite (filter_none _ a), app_nil_l; [by apply IH|]. intros x Hx Hxi. rewrite list.Forall_forall in Hall.
    apply Hni, list_elem_of_fmap. exists (i, q). split; [|done]. simpl. rewrite <- Hxi. symmetry. by apply Hall.
Qed.

(** ** The lag of the reaper *)

(** What is overdue is what the reaper reports, and once it has, nothing is. *)
Theorem reaper_lag_measures env db limit v db' :
  ready env db → policed db → covers env limit db → reaper_lag env db = inr (v, db') →
  answer (Reap limit) (start db (quiet env)) = inr (lag_overdue v) ∧
  let db1 := final_db (Reap limit) (start db (quiet env)) in
  reaper_lag env db1 = inr (mkLag 0 0, db1).
Proof.
  intros Hrd Hpol Hcov Hlag. destruct (reap_clears_expired env db limit Hrd Hpol Hcov) as [Ha Hnone]. split.
  - rewrite Ha. f_equal. unfold reaper_lag, gets, epoch_int, mbind, tx_bind in Hlag.
    destruct (to_int4 _ db) as [|[s d1]] eqn:H1 in Hlag; [done|]. pose proof (to_int4_reads _ _ _ _ H1) as ->.
    destruct (to_int4 _ db) as [|[n d2]] eqn:H2 in Hlag; [done|]. injection Hlag as <- <-. simpl.
    by rewrite (to_int4_val _ _ _ _ H2), length_fmap.
  - intros db1. fold db1 in Hnone. clearbody db1. unfold reaper_lag, gets, mbind, tx_bind.
    assert (select (expired env db1) (leases db1) = []) as ->; [|reflexivity].
    apply elem_of_nil_inv. intros [i l] [Hl He]%elem_of_select. by rewrite (Hnone i l Hl) in He.
Qed.

(** ** The fence *)

(** A worker that asks after a job whose fence has moved on is counted, but a
    rejected report is not: a worker that completes or snoozes a job it lost gets
    [ErrFenced], and the count stays. *)
Theorem fenced_writes_count i f env db :
  stale i f db →
  (∀ worker, answer (Probe i f worker) (start db (quiet env)) = inr StatusFenced ∧
     fenced_writes (final_db (Probe i f worker) (start db (quiet env))) = fenced_writes db + 1) ∧
  (∀ x, answer (Complete i f x) (start db (quiet env)) = inl ErrFenced ∧
     fenced_writes (final_db (Complete i f x) (start db (quiet env))) = fenced_writes db) ∧
  (∀ x d, answer (Snooze i f x d) (start db (quiet env)) = inl ErrFenced ∧
     fenced_writes (final_db (Snooze i f x d) (start db (quiet env))) = fenced_writes db).
Proof.
  intros Hst. split_and!.
  - intros worker. unfold answer, final_db, fenced_writes.
    assert (∀ x, Z.of_nat (length (violations db ++ [x])) = Z.of_nat (length (violations db)) + 1) as Hlen
      by (intros x; rewrite length_app; simpl; lia).
    unfold Probe, probeSQL, violation, violationSQL, pool_exec, this_call, mbind, go_bind, gets, modify. simpl.
    destruct (jobs db !! i) as [j|] eqn:Hj; simpl; [|by rewrite Hlen].
    rewrite (proj2 (Z.eqb_neq _ _) (Hst j Hj)). simpl. by rewrite Hlen.
  - intros x. destruct (refused_pool (λ env, report_success env i f x) (λ _, mret tt) (start db (quiet env))) as [Hdb Ha].
    { intros env'. by apply stale_success. }
    split; [exact Ha|]. by apply (f_equal fenced_writes) in Hdb.
  - intros x d. destruct (refused_pool (λ env, report_snooze env i f x (Z.quot d 1000000)) (λ _, mret tt)
      (start db (quiet env))) as [Hdb Ha].
    { intros env'. by apply stale_snooze. }
    split; [exact Ha|]. by apply (f_equal fenced_writes) in Hdb.
Qed.
