(* ===== verification/SummaryCache.v ===== *)
(** * The failure summaries keep up

    A pass over the queues writes a summary for exactly the queues whose failures
    have changed since theirs was written, and leaves nothing to do for the next
    one. *)

From S2P Require Import Prelude Text Schema Fl Pool Api Stats Detail Ai Summaries GoLogic System Fixture.
From stdpp Require Import list.

#[local] Open Scope string_scope.
#[local] Open Scope list_scope.
#[local] Open Scope Z_scope.

(** ** Runs in which all calls are answered *)

Lemma pool_exec_quiet {A} (s : Env → sql A) env db sn n a db' :
  s env db = inr (a, db') → pool_exec s (mkWorld db sn (quiet env) n) = (inr a, mkWorld db' sn (quiet env) (S n)).
Proof. intros Hs. unfold pool_exec, this_call. simpl. unfold id. by rewrite Hs. Qed.

Lemma caught_quiet {A} (s : Env → sql A) env db sn n a db' :
  s env db = inr (a, db') →
  caught (pool_exec s) (mkWorld db sn (quiet env) n) = (inr (inr a), mkWorld db' sn (quiet env) (S n)).
Proof. intros Hs. unfold caught. by rewrite (pool_exec_quiet s env db sn n a db' Hs). Qed.

(** ** The groups of failures *)

Lemma length_remove_dups (l : list string) : (length (remove_dups l) ≤ length l)%nat.
Proof. induction l; simpl; [done|]. case_decide; simpl; lia. Qed.

Section failures.
Context (collation : string → Z) (env : Env) (h : Z) (db : DB).
Context (Hsize : Z.of_nat (size (execs db)) < 2 ^ 31).

Lemma failed_rows_few q : Z.of_nat (length (failed_rows env q h db)) < 2 ^ 31.
Proof.
  eapply Z.le_lt_trans; [|exact Hsize]. apply Nat2Z.inj_le. unfold failed_rows, select.
  etrans; [apply length_filter|]. by rewrite length_map_to_list.
Qed.

Lemma to_int4_fits (n m : nat) :
  (n ≤ m)%nat → Z.of_nat m < 2 ^ 31 → to_int4 (Z.of_nat n) db = inr (Z.of_nat n, db).
Proof.
  intros Hn Hm. unfold to_int4, in_int4. change (2 ^ 31) with 2147483648 in Hm.
  by rewrite (proj2 (Z.leb_le _ _)), (proj2 (Z.leb_le _ _)) by lia.
Qed.

Lemma failure_row_runs q c : ∃ f, failure_row (failed_rows env q h db) c db = inr (f, db).
Proof.
  pose proof (failed_rows_few q) as Hf. unfold failure_row. cbv zeta. unfold mbind, tx_bind.
  rewrite (to_int4_fits _ (length (failed_rows env q h db))); [|apply length_filter|done].
  rewrite (to_int4_fits _ (length (failed_rows env q h db))); [by eexists| |done].
  etrans; [apply length_remove_dups|]. etrans; [apply length_omap|]. apply length_filter.
Qed.

Lemma traverse_runs {A B} (f : B → sql A) l :
  (∀ x, ∃ a, f x db = inr (a, db)) → ∃ out, traverse l f db = inr (out, db) ∧ length out = length l.
Proof.
  intros Hf. induction l as [|x l (out & Hl & Hlen)]; [by exists []|]. destruct (Hf x) as [a Ha].
  exists (a :: out). simpl. unfold mbind, tx_bind. rewrite Ha, Hl. by rewrite <- Hlen.
Qed.

(** There are groups when there are failures. *)
Lemma failures_run q limit :
  failed_rows env q h db ≠ [] → 0 < limit →
  ∃ f fs, failuresSQL collation q h limit env db = inr (f :: fs, db).
Proof.
  intros Hne Hlim. unfold failuresSQL. fold (failed_rows env q h db). unfold mbind at 1, tx_bind at 1, gets.
  fold (failed_rows env q h db). set (cs := remove_dups _).
  destruct (traverse_runs (failure_row (failed_rows env q h db)) cs (failure_row_runs q)) as (out & Hout & Hlen).
  unfold mbind, tx_bind. rewrite Hout. simpl.
  assert (out ≠ []) as Hout0.
  { intros ->. destruct (failed_rows env q h db) as [|r rows]; [done|].
    assert (class_of r.2 ∈ cs) as Hin by (apply elem_of_remove_dups; by left).
    destruct cs; [by apply elem_of_nil in Hin|done]. }
  destruct (merge_sort (failure_le collation) out) as [|f fs] eqn:Hs.
  { destruct Hout0. apply Permutation_nil. rewrite <- Hs. apply merge_sort_Permutation. }
  destruct (Z.to_nat limit) as [|k] eqn:Hk; [lia|]. simpl. by eexists _, _.
Qed.

End failures.

(** ** One pass *)

Section pass.
Context (collation : string → Z) (md5 : string → string) (Format : timestamp → string).
Context (env : Env) (ask : nat → string → err + Reply).
Implicit Types (db : DB) (T : list stale) (l : list (uuid * Summary)).

Definition with_summaries l db : DB :=
  db <| summaries := foldl (λ m r, <[r.1 := r.2]> m) (summaries db) l |>.

(** What is written for [s]. *)
Definition summary_of (s : stale) (text : string) : uuid * Summary :=
  (st_id s, mkSummary (st_digest s) text Model (now env)).

(** The model answers with a text. *)
Definition answers : Prop := ∀ k name fails, ∃ out, Ai.Summarize Format true (ask k) name fails = inr out.

(** The stale queues of [T] that were summarized, with what was written. *)
Inductive written : list stale → list (uuid * Summary) → Prop :=
  | written_nil : written [] []
  | written_cons s text T l : written T l → written (s :: T) (summary_of s text :: l)
  | written_skip s T l : written T l → written (s :: T) l.

Lemma summarize_all_runs k n last T db c :
  Z.of_nat (size (execs db)) < 2 ^ 31 →
  Forall (λ s, is_Some (queues db !! st_id s) ∧ failed_rows env (st_id s) FailureWindow db ≠ []) T →
  ∃ l e c', summarize_all collation Format ask k n last T (mkWorld db None (quiet env) c) =
      (inr (n + Z.of_nat (length l), e), mkWorld (with_summaries l db) None (quiet env) c') ∧
    written T l ∧ (e = None → last = None ∧ length l = length T) ∧ (answers → e = last).
Proof.
  revert k n last db c. induction T as [|s T IH]; intros k n last db c Hsize Hall.
  { exists [], last, c. simpl. rewrite Z.add_0_r. split_and!; try done; [|constructor]. by destruct db. }
  apply list.Forall_cons in Hall as [[Hq Hrows] Hall].
  destruct (failures_run collation env FailureWindow db Hsize (st_id s) summaryGroups Hrows) as (f & fs & Hf); [done|].
  cbn [summarize_all]. unfold mbind, go_bind. unfold Failures.
  rewrite (caught_quiet _ _ _ _ _ _ _ Hf).
  destruct (Ai.Summarize Format true (ask k) (st_name s) (f :: fs)) as [e|text] eqn:Hask.
  - destruct (IH (S k) n (Some e) db (S c) Hsize Hall) as (l & e' & c' & Hrun & Hw & He & Hans).
    exists l, e', c'. split; [exact Hrun|]. split; [by constructor|]. split.
    + intros ->. by destruct (He eq_refl).
    + intros Ha. destruct (Ha k (st_name s) (f :: fs)) as [out Hout].
      by rewrite Hout in Hask.
  - rewrite (caught_quiet (saveSummarySQL (st_id s) (st_digest s) text Model) env db None (S c) tt (with_summaries [summary_of s text] db))
      by (unfold saveSummarySQL; by rewrite decide_True).
    destruct (IH (S k) (n + 1) last (with_summaries [summary_of s text] db) (S (S c)) Hsize Hall)
      as (l & e' & c' & Hrun & Hw & He & Hans).
    exists (summary_of s text :: l), e', c'. rewrite Hrun. split.
    + do 3 f_equal. simpl. lia.
    + split; [by constructor|]. split; [|done]. intros H0. destruct (He H0) as [-> Hl]. simpl. by rewrite Hl.
Qed.

(** ** What was written *)

Lemma written_lookup T l db q :
  written T l → NoDup (st_id <$> T) →
  summaries (with_summaries l db) !! q = summaries db !! q ∨
  ∃ s text, s ∈ T ∧ st_id s = q ∧ summaries (with_summaries l db) !! q = Some (summary_of s text).2.
Proof.
  intros Hw. revert db. induction Hw as [|s text T l Hw IH|s T l Hw IH]; intros db; [by left|..];
    intros [Hni Hnd]%list.NoDup_cons.
  - specialize (IH (with_summaries [summary_of s text] db) Hnd).
    change (with_summaries l (with_summaries [summary_of s text] db)) with (with_summaries (summary_of s text :: l) db) in IH.
    destruct IH as [IH|(s' & t' & Hin & <- & IH)].
    + rewrite IH. simpl. rewrite lookup_insert. case_decide; [|by left]. right. exists s, text. split; [by left|done].
    + right. exists s', t'. split; [by right|done].
  - destruct (IH db Hnd) as [IH'|(s' & t' & Hin & <- & IH')]; [by left|]. right. exists s', t'. split; [by right|done].
Qed.

Lemma written_all T l db :
  written T l → length l = length T → NoDup (st_id <$> T) →
  ∀ s, s ∈ T → ∃ text, summaries (with_summaries l db) !! st_id s = Some (summary_of s text).2.
Proof.
  intros Hw. assert (∀ T l, written T l → (length l ≤ length T)%nat) as Hle by (induction 1; simpl; lia).
  revert db. induction Hw as [|s text T l Hw IH|s T l Hw IH]; intros db Hlen; [by intros _ s ?%elem_of_nil|..];
    intros [Hni Hnd]%list.NoDup_cons.
  - intros s' [->|Hin]%elem_of_cons.
    + exists text. change (with_summaries (summary_of s text :: l) db) with (with_summaries l (with_summaries [summary_of s text] db)).
      destruct (written_lookup _ _ (with_summaries [summary_of s text] db) (st_id s) Hw Hnd) as [->|(s' & t' & Hin & Heq & _)].
      * simpl. by rewrite lookup_insert_eq.
      * destruct Hni. apply list_elem_of_fmap. eauto.
    + by apply (IH (with_summaries [summary_of s text] db)); [injection Hlen|..].
  - specialize (Hle _ _ Hw). simpl in Hlen. lia.
Qed.

(** The queues a pass is about. *)
Definition stale_queues db : list (uuid * Queue) := select (λ q _, is_stale collation md5 env FailureWindow db q) (queues db).
Definition stale_rows db : list stale :=
  (λ kv : uuid * Queue, mkStale kv.1 (q_name kv.2) (failure_digest collation md5 env kv.1 FailureWindow db)) <$>
    merge_sort by_id (stale_queues db).

Lemma stale_rows_in db s :
  s ∈ stale_rows db → is_Some (queues db !! st_id s) ∧ is_stale collation md5 env FailureWindow db (st_id s) = true ∧
    st_digest s = failure_digest collation md5 env (st_id s) FailureWindow db.
Proof.
  intros ([q r] & -> & Hin)%list_elem_of_fmap. rewrite merge_sort_Permutation in Hin.
  apply elem_of_select in Hin as [Hq Hs]. simpl in *. split_and!; [by eexists|done|done].
Qed.

Lemma stale_rows_all db q r :
  queues db !! q = Some r → is_stale collation md5 env FailureWindow db q = true →
  ∃ s, s ∈ stale_rows db ∧ st_id s = q.
Proof.
  intros Hq Hs. eexists. split; [|shelve]. apply list_elem_of_fmap. exists (q, r). split; [done|].
  rewrite merge_sort_Permutation. by apply elem_of_select.
  Unshelve. done.
Qed.

Lemma stale_rows_NoDup db : NoDup (st_id <$> stale_rows db).
Proof.
  unfold stale_rows. rewrite <- list_fmap_compose. rewrite merge_sort_Permutation.
  change (NoDup ((stale_queues db).*1)). apply NoDup_fmap_fst.
  - intros q r r' [H1 _]%elem_of_select [H2 _]%elem_of_select. congruence.
  - apply list.NoDup_filter, NoDup_map_to_list.
Qed.

Lemma length_stale_rows db : length (stale_rows db) = length (stale_queues db).
Proof. unfold stale_rows. rewrite length_fmap. apply Permutation_length, merge_sort_Permutation. Qed.

Definition pass (limit : Z) : go (Z * option err) := Summarize collation md5 Format true ask limit.

Lemma pass_runs limit db :
  Z.of_nat (size (execs db)) < 2 ^ 31 → Z.of_nat (length (stale_queues db)) ≤ limit →
  ∃ l e c, pass limit (start db (quiet env)) = (inr (Z.of_nat (length l), e), mkWorld (with_summaries l db) None (quiet env) c) ∧
    written (stale_rows db) l ∧ (e = None → length l = length (stale_queues db)) ∧ (answers → e = None) ∧
    (stale_queues db = [] → e = None).
Proof.
  intros Hsize Hlim. unfold pass, Summarize, start. cbn [negb]. unfold mbind, go_bind.
  rewrite (pool_exec_quiet _ env db None 0 (stale_rows db) db).
  2: { unfold staleSummariesSQL, gets. fold (stale_queues db). fold (stale_rows db). rewrite take_ge; [done|].
       rewrite length_stale_rows. lia. }
  destruct (summarize_all_runs 0 0 None (stale_rows db) db 1 Hsize) as (l & e & c & Hrun & Hw & He & Ha).
  { apply list.Forall_forall. intros s (Hq & Hs & _)%stale_rows_in. split; [done|].
    unfold is_stale in Hs. apply andb_true_iff in Hs as [Hs%bool_decide_eq_true _]. done. }
  exists l, e, c. split; [exact Hrun|]. split; [done|]. split_and!; [|done|].
  - intros H0. destruct (He H0) as [_ ->]. apply length_stale_rows.
  - intros H0. unfold stale_rows in Hrun. rewrite H0 in Hrun. by injection Hrun as _ <- _.
Qed.

End pass.

(** The failure summaries keep up.  One pass, its calls answered and
    its limit no less than the number of queues whose failures of the last day are
    not the ones their summary is about: whatever the model answers, only the
    summaries of these queues are written, each with the digest of the failures it
    is about, and nothing else is; a pass without an error has written them all,
    so that the failure summary of every queue with failures is [current], and
    another pass finds nothing to do; and there is no error when the model answers
    with a text. *)
Theorem summaries_keep_up collation md5 Format env ask limit db :
  (∀ t, md5 t ≠ "") → Z.of_nat (size (execs db)) < 2 ^ 31 →
  Z.of_nat (length (stale_queues collation md5 env db)) ≤ limit →
  let m := Summarize collation md5 Format true ask limit in
  let db' := final_db m (start db (quiet env)) in
  let digest q := failure_digest collation md5 env q FailureWindow db in
  ∃ n e, answer m (start db (quiet env)) = inr (n, e) ∧
    db' = db <| summaries := summaries db' |> ∧
    (∀ q, summaries db' !! q = summaries db !! q ∨
       is_stale collation md5 env FailureWindow db q = true ∧
       ∃ text, summaries db' !! q = Some (mkSummary (digest q) text Model (now env))) ∧
    (e = None → n = Z.of_nat (length (stale_queues collation md5 env db)) ∧
       (∀ q, is_Some (queues db !! q) → failed_rows env q FailureWindow db ≠ [] →
         ∃ s, cachedSummarySQL collation md5 q FailureWindow env db' = inr (Some (s, true), db')) ∧
       answer m (start db' (quiet env)) = inr (0, None) ∧ final_db m (start db' (quiet env)) = db') ∧
    (answers Format ask → e = None).
Proof.
  intros Hmd5 Hsize Hlim m db' digest. subst m. unfold answer, final_db in *.
  destruct (pass_runs collation md5 Format env ask limit db Hsize Hlim) as (l & e & c & Hrun & Hw & He & Ha & _).
  unfold pass in Hrun. subst db'. rewrite Hrun. cbn [fst snd w_db]. set (db' := with_summaries l db).
  pose proof (stale_rows_NoDup collation md5 env db) as Hnd.
  exists (Z.of_nat (length l)), e. split; [done|]. split; [by destruct db|]. split.
  { intros q. destruct (written_lookup _ _ _ db q Hw Hnd) as [?|(s & text & Hin & <- & Heq)]; [by left|]. right.
    destruct (stale_rows_in _ _ _ _ _ Hin) as (_ & Hs & Hd). split; [done|]. exists text. fold db' in Heq.
    rewrite Heq. unfold summary_of. simpl. by rewrite Hd. }
  split; [|done]. intros H0. specialize (He H0).
  assert (∀ q, is_Some (queues db !! q) → failed_rows env q FailureWindow db ≠ [] → ∃ s, summaries db' !! q = Some s ∧ su_digest s = digest q) as Hcur.
  { intros q [r Hq] Hf. destruct (is_stale collation md5 env FailureWindow db q) eqn:Hst.
    - destruct (stale_rows_all collation md5 env db q r Hq Hst) as (s & Hs & <-).
      destruct (written_all env (stale_rows collation md5 env db) l db Hw) with (s := s) as [text Ht]; [|done..|].
      { by rewrite length_stale_rows. }
      eexists. split; [exact Ht|]. simpl. by apply stale_rows_in in Hs as (_ & _ & ->).
    - assert (summaries db' !! q = summaries db !! q) as ->.
      { destruct (written_lookup _ _ _ db q Hw Hnd) as [?|(s & text & (_ & Hs & _)%stale_rows_in & <- & _)]; [done|congruence]. }
      unfold is_stale in Hst. rewrite bool_decide_eq_true_2 in Hst by done.
      apply bool_decide_eq_false, dec_stable in Hst. unfold saved_digest in Hst.
      destruct (summaries db !! q) as [s|]; simpl in Hst; [by exists s|].
      exfalso. revert Hst. unfold failure_digest, digest_of. case_decide as E; [|intros Hst; by apply (Hmd5 _ (eq_sym Hst))].
      destruct (failed_rows env q FailureWindow db) as [|x rows]; [done|]. exfalso.
      assert (class_of x.2 ∈ remove_dups ((λ r : uuid * Exec, class_of r.2) <$> x :: rows)) as Hin
        by (apply elem_of_remove_dups; by left).
      rewrite <- (merge_sort_Permutation (by_collation collation)), E in Hin. by apply elem_of_nil in Hin. }
  assert (stale_queues collation md5 env db' = []) as Hnone.
  { unfold stale_queues, select. apply filter_none. intros [q r] Hin%elem_of_map_to_list. simpl. intros Hst.
    unfold is_stale in Hst. apply andb_true_iff in Hst as [Hf%bool_decide_eq_true Hd%bool_decide_eq_true].
    destruct (Hcur q) as (s & Hs & Hsd); [by exists r|done|]. apply Hd. unfold saved_digest. rewrite Hs. exact Hsd. }
  split; [by rewrite He|]. split; [|].
  - intros q Hq Hf. destruct (Hcur q Hq Hf) as (s & Hs & Hsd). exists s. unfold cachedSummarySQL, gets. rewrite Hs. simpl.
    rewrite bool_decide_eq_true_2; [done|]. exact Hsd.
  - destruct (pass_runs collation md5 Format env ask limit db') as (l' & e' & c' & Hrun' & Hw' & _ & _ & He'); [done|by rewrite Hnone; simpl; lia|].
    unfold stale_rows in Hw'. rewrite Hnone in Hw'. simpl in Hw'. inversion Hw'; subst l'.
    unfold pass in Hrun'. rewrite Hrun', (He' Hnone). split; [done|]. by destruct db.
Qed.

(** Two failures of queue 4, and a model that has always the same to say. *)
Definition failing_db : DB := db0
  <| execs := {[ 21%N := mkExec 15 4 1 0 1 5 (Some xo_retryable_error) (Some "io") (Some "reset") 1000000 (Some 2000000);
                 22%N := mkExec 15 4 2 0 2 5 (Some xo_timeout) None (Some "slow") 3000000 (Some 4000000) ]} |>.

Definition tagged (s : string) : string := "md5 " +:+ s.
Definition shrug (k : nat) (t : string) : err + Reply := inr (mkReply None [None; Some " it is broken "]).
Definition no_zone (t : timestamp) : string := "".

Lemma shrug_answers : answers no_zone shrug.
Proof. intros k name fails. by eexists. Qed.

Lemma summaries_keep_up_witness :
  let m := Summarize (x_collation X0) tagged no_zone true shrug 10 in
  let db' := final_db m (start failing_db (quiet env0)) in
  answer m (start failing_db (quiet env0)) = inr (1, None) ∧
  su_summary <$> summaries db' !! 4%N = Some "it is broken" ∧
  su_digest <$> summaries db' !! 4%N = Some "md5 io:1,unknown:1" ∧
  answer m (start db' (quiet env0)) = inr (0, None).
Proof.
  cbv zeta. split; [by vm_compute|]. split; [by vm_compute|]. split; [by vm_compute|].
  destruct (summaries_keep_up (x_collation X0) tagged no_zone env0 shrug 10 failing_db)
    as (n & e & Hn & _ & _ & Hok & Ha); [done|by vm_compute|by vm_compute|].
  by apply Hok, Ha, shrug_answers.
Defined.
