(* ===== verification/Minutes.v ===== *)
(** * The roll-up of the minutes

    The percentiles of a minute lie between the shortest and the longest of its
    executions and in order; a minute is rolled up once. *)

From S2P Require Import Prelude Schema Fl Pool Stats Rollup System Fixture.
From stdpp Require Import list.

#[local] Open Scope string_scope.
#[local] Open Scope list_scope.
#[local] Open Scope Z_scope.

(** ** Rounding *)

Lemma floor_bounds q : (inject_Z (Qfloor q) <= q)%Q ∧ (q < inject_Z (Qfloor q) + 1)%Q.
Proof.
  split; [apply Qfloor_le|]. pose proof (Qlt_floor q) as H. by rewrite inject_Z_plus in H.
Qed.

Lemma rint_cases q :
  rint q = Qfloor q ∧ (q - inject_Z (Qfloor q) <= 1 # 2)%Q ∨ rint q = Qfloor q + 1 ∧ (1 # 2 <= q - inject_Z (Qfloor q))%Q.
Proof.
  unfold rint. destruct (Qle_bool (1 # 2) _) eqn:E1; simpl.
  - apply Qle_bool_iff in E1. destruct (Qle_bool _ (1 # 2)) eqn:E2; simpl; [|by right].
    apply Qle_bool_iff in E2. destruct (Z.even _); [by left|by right].
  - left. split; [done|]. apply Qlt_le_weak, Qnot_le_lt. intros H%Qle_bool_iff. congruence.
Qed.

Lemma rint_mono q r : (q <= r)%Q → rint q ≤ rint r.
Proof.
  intros H. assert (Qfloor q ≤ Qfloor r) as Hf by by apply Qfloor_resp_le.
  destruct (decide (Qfloor q = Qfloor r)) as [E|E].
  - destruct (rint_cases q) as [[-> Hq]|[Hq1 Hq]], (rint_cases r) as [[Hr1 Hr]|[Hr1 Hr]]; try lia.
    assert (q - inject_Z (Qfloor q) == r - inject_Z (Qfloor r))%Q as Heq.
    { rewrite E in *. apply Qle_antisym; lra. }
    cut (rint q = rint r); [lia|]. unfold rint.
    assert (∀ a b c d, (a == b)%Q → (c == d)%Q → Qle_bool a c = Qle_bool b d) as Hb.
    { intros a b c d H1 H2. apply eq_true_iff_eq. by rewrite !Qle_bool_iff, H1, H2. }
    rewrite (Hb _ _ _ _ (Qeq_refl (1 # 2)) Heq), (Hb _ _ _ _ Heq (Qeq_refl (1 # 2))). by rewrite E.
  - destruct (rint_cases q) as [[-> _]|[-> _]], (rint_cases r) as [[-> _]|[-> _]]; lia.
Qed.

Lemma rint_int z : rint (inject_Z z) = z.
Proof.
  unfold rint. rewrite Qfloor_Z. destruct (Qle_bool (1 # 2) _) eqn:E; [|done].
  apply Qle_bool_iff in E. exfalso. lra.
Qed.

(** ** Percentiles *)

Section sorted.
Context (s : list Z) (Hs : Sorted Z.le s).

Definition value (k : Z) : Q := inject_Z (default 0 (s !! Z.to_nat k)).

(** The value at [x], between its neighbours. *)
Definition between (x : Q) : Q :=
  (value (Qfloor x) + (x - inject_Z (Qfloor x)) * (value (Qceiling x) - value (Qfloor x)))%Q.

Lemma value_mono i j : 0 ≤ i ≤ j → j < Z.of_nat (length s) → (value i <= value j)%Q.
Proof.
  intros Hij Hj. unfold value. rewrite <- Zle_Qle. apply Sorted_StronglySorted in Hs; [|intros ???; lia].
  destruct (lookup_lt_is_Some_2 s (Z.to_nat i)) as [a Ha]; [lia|].
  destruct (lookup_lt_is_Some_2 s (Z.to_nat j)) as [b Hb]; [lia|]. rewrite Ha, Hb. simpl.
  destruct (decide (i = j)) as [->|]; [rewrite Ha in Hb; by simplify_eq|].
  pose proof (take_drop_middle _ _ _ Ha) as Hsplit. rewrite <- Hsplit in Hs.
  apply StronglySorted_app_1_r, StronglySorted_cons in Hs as [Hall _]. rewrite list.Forall_forall in Hall. apply Hall.
  apply (list_elem_of_lookup_2 _ (Z.to_nat j - S (Z.to_nat i))). rewrite lookup_drop, <- Hb. f_equal. lia.
Qed.

Lemma ceil_floor x : Qfloor x ≤ Qceiling x ≤ Qfloor x + 1.
Proof.
  destruct (floor_bounds x) as [H1 H2]. split.
  - rewrite Zle_Qle. eapply Qle_trans; [exact H1|apply Qle_ceiling].
  - cut (Qceiling x - 1 < Qfloor x + 1); [lia|]. rewrite Zlt_Qlt, (inject_Z_plus (Qfloor x)).
    eapply Qlt_trans; [|exact H2]. apply Qceiling_lt.
Qed.

Lemma between_bounds x :
  0 ≤ Qfloor x → Qceiling x < Z.of_nat (length s) →
  (value (Qfloor x) <= between x)%Q ∧ (between x <= value (Qceiling x))%Q.
Proof.
  intros H0 Hn. pose proof (ceil_floor x). destruct (floor_bounds x) as [H1 H2].
  pose proof (value_mono (Qfloor x) (Qceiling x)) as Hv. unfold between. 
  assert (value (Qfloor x) <= value (Qceiling x))%Q as Hle by (apply Hv; lia).
  split; nra.
Qed.

Lemma between_mono x y :
  (x <= y)%Q → 0 ≤ Qfloor x → Qceiling y < Z.of_nat (length s) → (between x <= between y)%Q.
Proof.
  intros Hxy H0 Hn. pose proof (ceil_floor x) as Hx. pose proof (ceil_floor y) as Hy.
  assert (Qfloor x ≤ Qfloor y) as Hf by by apply Qfloor_resp_le.
  assert (Qceiling x ≤ Qceiling y) as Hc by by apply Qceiling_resp_le.
  destruct (between_bounds x) as [_ Hbx]; [done|lia|]. destruct (between_bounds y) as [Hby _]; [lia|done|].
  destruct (Z.le_gt_cases (Qceiling x) (Qfloor y)) as [Hle|Hgt].
  - eapply Qle_trans; [exact Hbx|]. eapply Qle_trans; [|exact Hby]. apply value_mono; lia.
  - unfold between. assert (Qfloor x = Qfloor y) as E1 by lia. assert (Qceiling x = Qceiling y) as E2 by lia.
    rewrite E1, E2. pose proof (value_mono (Qfloor y) (Qceiling y)) as Hv.
    assert (value (Qfloor y) <= value (Qceiling y))%Q as Hle by (apply Hv; lia). nra.
Qed.

End sorted.

(** The position of a percentile is one of the list. *)
Lemma position_in (p : Q) (n : nat) :
  (0 <= p)%Q → (p <= 1)%Q → (0 < n)%nat →
  let x := (p * inject_Z (Z.of_nat n - 1))%Q in 0 ≤ Qfloor x ∧ Qceiling x < Z.of_nat n.
Proof.
  intros H0 H1 Hn x. assert (0 <= inject_Z (Z.of_nat n - 1))%Q as Hz by (change 0%Q with (inject_Z 0); rewrite <- Zle_Qle; lia).
  split.
  - change 0 with (Qfloor 0). apply Qfloor_resp_le. unfold x. nra.
  - cut (Qceiling x ≤ Z.of_nat n - 1); [lia|]. rewrite <- (Qceiling_Z (Z.of_nat n - 1)).
    apply Qceiling_resp_le. unfold x. nra.
Qed.

Lemma percentile_spec l :
  l ≠ [] → ∃ a b lo hi, percentile_cont (1 # 2) l = Some a ∧ percentile_cont (19 # 20) l = Some b ∧
    lo ∈ l ∧ hi ∈ l ∧ (inject_Z lo <= a)%Q ∧ (a <= b)%Q ∧ (b <= inject_Z hi)%Q.
Proof.
  intros Hl. unfold percentile_cont. pose proof (Sorted_merge_sort Z.le l) as Hs.
  pose proof (merge_sort_Permutation Z.le l) as Hp. destruct (merge_sort Z.le l) as [|z s'] eqn:E.
  { apply Permutation_nil in Hp. done. }
  set (s := z :: s') in *. set (n := length s).
  assert (0 < n)%nat as Hn by (unfold n, s; simpl; lia).
  destruct (position_in (1 # 2) n) as [Ha0 Ha1]; [done..|]. destruct (position_in (19 # 20) n) as [Hb0 Hb1]; [done..|].
  set (x := ((1 # 2) * _)%Q) in *. set (y := ((19 # 20) * _)%Q) in *.
  assert (x <= y)%Q as Hxy.
  { assert (0 <= inject_Z (Z.of_nat n - 1))%Q by (change 0%Q with (inject_Z 0); rewrite <- Zle_Qle; lia).
    unfold x, y. nra. }
  assert (∀ k, 0 ≤ k < Z.of_nat n → default 0 (s !! Z.to_nat k) ∈ l) as Hin.
  { intros k Hk. destruct (lookup_lt_is_Some_2 s (Z.to_nat k)) as [v Hv]; [unfold n in Hk; lia|]. rewrite Hv. simpl.
    rewrite <- Hp. by eapply list_elem_of_lookup_2. }
  pose proof (ceil_floor x). pose proof (ceil_floor y).
  exists (between s x), (between s y), (default 0 (s !! Z.to_nat (Qfloor x))), (default 0 (s !! Z.to_nat (Qceiling y))).
  split_and!; [done|done|apply Hin; lia|apply Hin; lia|by apply between_bounds|by apply between_mono|by apply between_bounds].
Qed.

(** ** The statement *)

Section rollup.
Context (env : Env) (lookback : Z) (db : DB).
Context (Hfit : ∀ i x d, execs db !! i = Some x → duration_ms x = Some d → in_int4 d = true).

(** What becomes of a row. *)
Definition rolled (k : uuid * Z) (s : Stat) : Stat :=
  match closed_row env lookback db k s with
  | Some (p50, p95) => with_percentiles (rint p50) (rint p95) s
  | None => s
  end.

Lemma closed_fit q m d : d ∈ closed_durations env lookback q m db → in_int4 d = true.
Proof.
  unfold closed_durations. intros ([i x] & Hx & Hd)%list_elem_of_omap. apply elem_of_select in Hx as [Hx _].
  by eapply Hfit.
Qed.

(** A row that is written, and how. *)
Lemma closed_row_spec k s :
  match closed_row env lookback db k s with
  | None => duration_ms_p50 s ≠ None ∨ closed_durations env lookback k.1 k.2 db = []
  | Some (p50, p95) =>
    duration_ms_p50 s = None ∧ in_int4 (rint p50) = true ∧ in_int4 (rint p95) = true ∧
    ∃ lo hi, lo ∈ closed_durations env lookback k.1 k.2 db ∧ hi ∈ closed_durations env lookback k.1 k.2 db ∧
      lo ≤ rint p50 ∧ rint p50 ≤ rint p95 ∧ rint p95 ≤ hi
  end.
Proof.
  unfold closed_row. destruct (duration_ms_p50 s); [by left|].
  destruct (decide (closed_durations env lookback k.1 k.2 db = [])) as [E|E].
  { rewrite E. simpl. by right. }
  destruct (percentile_spec _ E) as (a & b & lo & hi & Ha & Hb & Hlo & Hhi & H1 & H2 & H3). rewrite Ha, Hb. simpl.
  apply rint_mono in H1, H2, H3. rewrite rint_int in H1, H3.
  pose proof (closed_fit _ _ _ Hlo) as Fl. pose proof (closed_fit _ _ _ Hhi) as Fh. unfold in_int4 in *.
  rewrite andb_true_iff, !Z.leb_le in *. split; [done|]. split; [lia|]. split; [lia|]. by exists lo, hi.
Qed.

Definition rolled_rows : list ((uuid * Z) * Stat) :=
  omap (λ r : (uuid * Z) * Stat, (λ v : Q * Q, (r.1, with_percentiles (rint v.1) (rint v.2) r.2)) <$>
    closed_row env lookback db r.1 r.2) (map_to_list (stats db)).

Lemma rollup_runs :
  rollupSQL lookback env db = inr (Z.of_nat (length rolled_rows), db <| stats := list_to_map rolled_rows ∪ stats db |>).
Proof.
  unfold rollupSQL. unfold mbind at 1, tx_bind at 1, gets. unfold mbind at 1, tx_bind at 1.
  enough (∀ l, traverse (omap (λ r : (uuid * Z) * Stat, (λ v, (r, v)) <$> closed_row env lookback db r.1 r.2) l) rollup_row db =
    inr (omap (λ r : (uuid * Z) * Stat, (λ v : Q * Q, (r.1, with_percentiles (rint v.1) (rint v.2) r.2)) <$>
      closed_row env lookback db r.1 r.2) l, db)) as Ht by (rewrite Ht; done).
  induction l as [|[k s] l IH]; [done|]. rewrite !omap_step. cbn [fst snd]. pose proof (closed_row_spec k s) as Hc.
  destruct (closed_row env lookback db k s) as [[a b]|]; cbn [fmap option_fmap option_map]; [|exact IH]. cbn [traverse].
  destruct Hc as (_ & Fa & Fb & _). unfold mbind at 1, tx_bind at 1.
  assert (rollup_row (k, s, (a, b)) db = inr ((k, with_percentiles (rint a) (rint b) s), db)) as ->.
  { unfold rollup_row, int_of, to_int4. simpl. rewrite Fa, Fb. done. }
  unfold mbind, tx_bind. by rewrite IH.
Qed.

Lemma rolled_lookup k :
  (list_to_map rolled_rows ∪ stats db : gmap _ Stat) !! k = (λ s, rolled k s) <$> stats db !! k.
Proof.
  assert (NoDup rolled_rows.*1) as Hnd.
  { unfold rolled_rows. pose proof (NoDup_fst_map_to_list (stats db)) as Hn. revert Hn.
    generalize (map_to_list (stats db)). induction l as [|[k' s'] l IH]; simpl; [done|].
    intros [Hni Hnd]%list.NoDup_cons. destruct (closed_row _ _ _ k' s'); simpl; [|by apply IH].
    apply list.NoDup_cons. split; [|by apply IH]. intros ([k2 s2] & -> & ([k3 s3] & Hin & Heq)%list_elem_of_omap)%list_elem_of_fmap.
    simpl in *. destruct (closed_row _ _ _ k3 s3); simplify_eq/=. apply Hni, list_elem_of_fmap. by exists (k2, s3). }
  assert (∀ s', (k, s') ∈ rolled_rows ↔ ∃ s v, stats db !! k = Some s ∧ closed_row env lookback db k s = Some v ∧
    s' = with_percentiles (rint v.1) (rint v.2) s) as Hel.
  { intros s'. unfold rolled_rows. rewrite list_elem_of_omap. split.
    - intros ([k1 s1] & Hin%elem_of_map_to_list & Heq). simpl in *.
      destruct (closed_row _ _ _ k1 s1) as [v|] eqn:Hv; simplify_eq/=. by exists s1, v.
    - intros (s & v & Hs & Hv & ->). exists (k, s). split; [by apply elem_of_map_to_list|]. simpl. by rewrite Hv. }
  rewrite lookup_union. unfold rolled. destruct (stats db !! k) as [s|] eqn:Hs; simpl.
  - destruct (closed_row env lookback db k s) as [[a b]|] eqn:Hc.
    + rewrite (proj1 (elem_of_list_to_map rolled_rows k (with_percentiles (rint a) (rint b) s) Hnd)); [done|].
      apply Hel. by exists s, (a, b).
    + rewrite (not_elem_of_list_to_map_1 rolled_rows k); [done|].
      intros ([k1 s1] & -> & (s2 & v & ? & Hv & _)%Hel)%list_elem_of_fmap. simplify_eq/=.
  - rewrite (not_elem_of_list_to_map_1 rolled_rows k); [done|].
    intros ([k1 s1] & -> & (s2 & v & ? & Hv & _)%Hel)%list_elem_of_fmap. simplify_eq/=.
Qed.

End rollup.

(** The durations of all executions of a queue that finished in a minute. *)
Definition minute_durations (q : uuid) (m : Z) (db : DB) : list Z :=
  omap (λ x : uuid * Exec, duration_ms x.2)
    (select (λ _ x, bool_decide (x_queue_id x = q) &&
       from_option (λ t, minute_of t =? m) false (x_finished_at x)) (execs db)).

(** The minute is whole when it starts within the window. *)
Lemma closed_is_whole env lookback q m db :
  now env - lookback ≤ m → minute_of m = m → m < minute_of (now env) →
  closed_durations env lookback q m db = minute_durations q m db.
Proof.
  intros Hlo Hm Hhi. unfold closed_durations, minute_durations. f_equal. unfold select. apply list_filter_iff.
  intros [i x]. simpl. destruct (bool_decide (x_queue_id x = q)); simpl; [|done].
  destruct (x_finished_at x) as [t|]; simpl; [|done].
  rewrite !andb_true_iff, Z.leb_le, Z.ltb_lt, Z.eqb_eq. split; [tauto|]. intros Ht. split; [|done].
  unfold minute_of in *. pose proof (Z.mod_pos_bound t 60000000). pose proof (Z.div_mod t 60000000).
  pose proof (Z.div_mod (now env) 60000000). pose proof (Z.mod_pos_bound (now env) 60000000). nia.
Qed.

Lemma rolled_none env lookback db k s :
  duration_ms_p50 s ≠ None ∨ closed_durations env lookback k.1 k.2 db = [] → closed_row env lookback db k s = None.
Proof. unfold closed_row. destruct (duration_ms_p50 s); [done|]. intros [?|H]; [done|]. by rewrite H. Qed.

(** The roll-up of the minutes.  Durations that fit the columns, and
    the call answered: of a minute that has no percentiles yet the median and the
    95th percentile of the executions that count are filled in, and they lie, in
    this order, between the shortest and the longest of them; every other row, the
    counters of the rows that are filled in and every other table stay; a second
    roll-up at the same time writes nothing; and the executions that count for a
    minute that is over and lies in the window are all of that minute. *)
Theorem minutes_rolled_up lookback env db :
  (∀ i x d, execs db !! i = Some x → duration_ms x = Some d → in_int4 d = true) →
  let m := Rollup lookback in
  let db' := final_db m (start db (quiet env)) in
  let counted k := closed_durations env (interval_of lookback) k.1 k.2 db in
  (∃ n, answer m (start db (quiet env)) = inr n) ∧ db' = db <| stats := stats db' |> ∧
  (∀ k, match stats db !! k with
        | None => stats db' !! k = None
        | Some s =>
          if decide (duration_ms_p50 s = None ∧ counted k ≠ [])
          then ∃ p50 p95 lo hi, percentile_cont (1 # 2) (counted k) = Some p50 ∧
            percentile_cont (19 # 20) (counted k) = Some p95 ∧
            stats db' !! k = Some (with_percentiles (rint p50) (rint p95) s) ∧
            lo ∈ counted k ∧ hi ∈ counted k ∧ lo ≤ rint p50 ∧ rint p50 ≤ rint p95 ∧ rint p95 ≤ hi
          else stats db' !! k = Some s
        end) ∧
  answer m (start db' (quiet env)) = inr 0 ∧
  (∀ q t, now env - interval_of lookback ≤ t → minute_of t = t → t < minute_of (now env) →
     counted (q, t) = minute_durations q t db).
Proof.
  intros Hfit m db' counted. set (lb := interval_of lookback) in *.
  assert (∀ d, (∀ i x z, execs d !! i = Some x → duration_ms x = Some z → in_int4 z = true) →
    m (start d (quiet env)) = (inr (Z.of_nat (length (rolled_rows env lb d))),
      mkWorld (d <| stats := list_to_map (rolled_rows env lb d) ∪ stats d |>) None (quiet env) 1)) as Hm.
  { intros d Hd. unfold m, Rollup, pool_exec, this_call, start. simpl. unfold id. fold lb. by rewrite (rollup_runs env lb d Hd). }
  subst db'. unfold answer, final_db. rewrite (Hm db Hfit). cbn [fst snd w_db].
  set (db' := db <| stats := _ |>). assert (∀ k, stats db' !! k = rolled env lb db k <$> stats db !! k) as Hlook
    by apply rolled_lookup.
  split; [by eexists|]. split; [by destruct db|]. split_and!.
  - intros k. rewrite Hlook. destruct (stats db !! k) as [s|]; [|done]. simpl. unfold rolled.
    pose proof (closed_row_spec env lb db Hfit k s) as Hc. case_decide as E.
    + destruct E as [E1 E2]. unfold closed_row in *. rewrite E1 in *.
      destruct (percentile_cont (1 # 2) _) as [a|] eqn:Ha; simpl in *.
      * destruct (percentile_cont (19 # 20) _) as [b|] eqn:Hb; simpl in *.
        { destruct Hc as (_ & _ & _ & lo & hi & H). by exists a, b, lo, hi. }
        { destruct Hc as [|]; done. }
      * destruct Hc as [|]; done.
    + rewrite rolled_none; [done|]. destruct (duration_ms_p50 s) eqn:E1; [by left|]. right.
      destruct (decide (closed_durations env lb k.1 k.2 db = [])); [done|]. destruct E. done.
  - rewrite (Hm db' Hfit). cbn [fst]. do 2 f_equal. unfold rolled_rows.
    enough (∀ l, (∀ r, r ∈ l → stats db' !! r.1 = Some r.2) → omap (λ r : (uuid * Z) * Stat,
      (λ v : Q * Q, (r.1, with_percentiles (rint v.1) (rint v.2) r.2)) <$> closed_row env lb db' r.1 r.2) l = []) as Hl.
    { rewrite Hl; [done|]. intros [k s] Hin. by apply elem_of_map_to_list. }
    induction l as [|[k s] l IH]; intros Hin; [done|]. rewrite omap_step. cbn [fst snd].
    rewrite rolled_none; [apply IH; intros r Hr; apply Hin; by right|].
    specialize (Hin (k, s)). rewrite Hlook in Hin. cbn [fst snd] in Hin. specialize (Hin ltac:(by left)).
    destruct (stats db !! k) as [s0|]; [|done]. injection Hin as <-. unfold rolled.
    pose proof (closed_row_spec env lb db Hfit k s0) as Hc. destruct (closed_row env lb db k s0) as [[a b]|]; [by left|].
    exact Hc.
  - intros q t Hlo Ht Hhi. by apply closed_is_whole.
Qed.

(** Minute 10 of queue 4: executions of one, two and ten seconds. *)
Definition minute_db : DB := db0
  <| execs := {[ 21%N := mkExec 15 4 1 0 1 5 (Some xo_success) None None 600000000 (Some 601000000);
                 22%N := mkExec 15 4 2 0 2 5 (Some xo_success) None None 600000000 (Some 602000000);
                 23%N := mkExec 15 4 3 0 2 5 (Some xo_success) None None 620000000 (Some 630000000) ]} |>
  <| stats := {[ (4%N, 600000000) := mkStat 3 0 0 13000 None None ]} |>.

Lemma minute_db_fits i x d : execs minute_db !! i = Some x → duration_ms x = Some d → in_int4 d = true.
Proof.
  assert (map_Forall (λ _ x, from_option in_int4 true (duration_ms x) = true) (execs minute_db)) as H
    by (apply (bool_decide_unpack _); by vm_compute).
  intros Hx Hd. apply H in Hx. by rewrite Hd in Hx.
Qed.

Lemma minutes_rolled_up_witness :
  let db' := final_db (Rollup 600000000000) (start minute_db (quiet env0)) in
  stats db' !! (4%N, 600000000) = Some (mkStat 3 0 0 13000 (Some 2000) (Some 9200)) ∧
  answer (Rollup 600000000000) (start db' (quiet env0)) = inr 0 ∧
  closed_durations env0 600000000 4 600000000 minute_db = minute_durations 4 600000000 minute_db.
Proof.
  cbv zeta. split; [by vm_compute|].
  destruct (minutes_rolled_up 600000000000 env0 minute_db minute_db_fits) as (_ & _ & _ & Hz & Hw).
  split; [exact Hz|]. by apply (Hw 4%N 600000000).
Defined.

(** A minute that starts before the window is rolled up from a part of its
    executions: with a window of 280 seconds only the last one counts. *)
Lemma partial_minute_rolled_up :
  let db' := final_db (Rollup 280000000000) (start minute_db (quiet env0)) in
  stats db' !! (4%N, 600000000) = Some (mkStat 3 0 0 13000 (Some 10000) (Some 10000)) ∧
  minute_durations 4 600000000 minute_db = [2000; 1000; 10000].
Proof. split; by vm_compute. Qed.
