(* ===== verification/Sessions.v ===== *)
(** * Accounts: signing up, in and out *)

From S2P Require Import Prelude Text Schema Fl Pool Password Api ApiJobs ApiAdmin Accounts GoLogic System Fixture Access.

#[local] Open Scope string_scope.
#[local] Open Scope list_scope.
#[local] Open Scope Z_scope.

(** ** Runs in which every call is answered *)

(** Inside a transaction, [m] answers [a] and leaves [db']. *)
Definition runs {A} (env : Env) (db : DB) (m : go A) (a : A) (db' : DB) : Prop :=
  ∀ w snap, w_calls w = quiet env → w_db w = db → w_snap w = Some snap →
    ∃ w', m w = (inr a, w') ∧ w_calls w' = quiet env ∧ w_db w' = db' ∧ w_snap w' = Some snap.

Lemma runs_ret {A} env db (a : A) : runs env db (mret a) a db.
Proof. intros w snap ? ? ?. by exists w. Qed.

Lemma runs_bind {A B} env db db1 db2 (m : go A) (f : A → go B) a b :
  runs env db m a db1 → runs env db1 (f a) b db2 → runs env db (m ≫= f) b db2.
Proof.
  intros Hm Hf w snap H1 H2 H3. destruct (Hm w snap H1 H2 H3) as (w1 & Hrun & H4 & H5 & H6).
  unfold mbind, go_bind. rewrite Hrun. by apply Hf.
Qed.

Lemma runs_exec {A} env db db' (s : Env → sql A) a :
  s env db = inr (a, db') → runs env db (tx_exec s) a db'.
Proof.
  intros Hs w snap H1 H2 H3. unfold tx_exec, this_call. rewrite H1. simpl. rewrite H2, Hs.
  eexists. split; [done|]. split_and!; [done|done|done].
Qed.

Lemma runs_or_problem {A} env db db' tests (m : go A) a :
  runs env db m a db' → runs env db (or_problem tests m) a db'.
Proof.
  intros Hm w snap H1 H2 H3. destruct (Hm w snap H1 H2 H3) as (w1 & Hrun & H).
  unfold or_problem, mbind, go_bind, caught. rewrite Hrun. by exists w1.
Qed.

(** A transaction that runs is committed. *)
Lemma server_tx_runs {A} (fn : go A) env db a db' :
  runs env db fn a db' → ∃ w', server_tx fn (start db (quiet env)) = (inr a, w') ∧ w_db w' = db'.
Proof.
  intros Hfn. destruct (Hfn (mkWorld db (Some db) (quiet env) 1) db) as (w1 & Hrun & H1 & H2 & H3); [done..|].
  assert (begin_tx (start db (quiet env)) = (inr tt, mkWorld db (Some db) (quiet env) 1)) as Hb by done.
  unfold server_tx, maxTxRetries. cbn [tx_attempts]. unfold mbind at 1, go_bind at 1. rewrite Hb.
  unfold mbind at 1, go_bind at 1, caught at 1. rewrite Hrun.
  unfold mbind, go_bind, caught, commit_tx, this_call. rewrite H1. simpl. eexists. split; [done|]. by simpl.
Qed.

Lemma public_runs {B} (h : scoped B) r env db res db' :
  runs env db (h r (mkScope uuid_Nil uuid_Nil uuid_Nil uuid_Nil uuid_Nil viewer)) res db' →
  answer (public h r) (start db (quiet env)) = inr (write (rq_id r) (inr res)) ∧
  final_db (public h r) (start db (quiet env)) = db'.
Proof.
  intros Hh. destruct (server_tx_runs _ env db res db' Hh) as (w' & Hrun & Hdb).
  unfold answer, final_db, public, mbind, go_bind, caught. by rewrite Hrun.
Qed.

Lemma public_fails {B} (h : scoped B) r env db e :
  (∀ snap, reads env db snap (h r (mkScope uuid_Nil uuid_Nil uuid_Nil uuid_Nil uuid_Nil viewer)) (inl (ErrApi e))) →
  answer (public h r) (start db (quiet env)) = inr (write (rq_id r) (inl (ErrApi e))) ∧
  final_db (public h r) (start db (quiet env)) = db.
Proof.
  intros Hh.
  destruct (server_tx_fails (h r (mkScope uuid_Nil uuid_Nil uuid_Nil uuid_Nil uuid_Nil viewer)) env db (ErrApi e))
    as (w' & Hrun & Hdb); [|done|].
  - intros w H1 H2 H3. destruct (Hh db w H1 H2 H3) as (w' & Hr & _ & _ & Hs). by exists w'.
  - unfold answer, final_db, public, mbind, go_bind, caught. by rewrite Hrun.
Qed.

(** A request that is let through, on a route that keeps no audit. *)
Lemma guard_runs {B} parse min entity loc res `{!Resolves loc res} (h : scoped B) r env db sc a db' :
  verdict parse min entity res env r db = inr sc → runs env db (h r sc) a db' →
  final_db (guard parse min "" entity loc h r) (start db (quiet env)) = db'.
Proof.
  intros Hv Hh. destruct (server_tx_runs (guarded parse min "" entity loc h r) env db a db') as (w' & Hrun & Hdb).
  - intros w snap H1 H2 H3.
    destruct (guarded_verdict parse min "" entity loc res h r env db snap w H1 H2 H3) as (w1 & H4 & H5 & H6 & Hg).
    rewrite Hg, Hv. destruct (Hh w1 snap H4 H5 H6) as (w2 & Hr2 & H7). exists w2. split; [|done].
    unfold handled, mbind at 1, go_bind at 1. rewrite Hr2. done.
  - unfold final_db, guard, mbind, go_bind, caught. by rewrite Hrun.
Qed.

(** ** Users *)

Lemma user_by_email_none e db : user_by_email e db = None → ∀ i u, users db !! i = Some u → email u ≠ e.
Proof.
  unfold user_by_email. intros Hnone i u Hu He.
  assert ((i, u) ∈ select (λ _ u, bool_decide (email u = e)) (users db)) as Hin
    by (apply elem_of_select; split; [done|by apply bool_decide_eq_true]).
  destruct (select _ _) as [|p l]; [by apply elem_of_nil in Hin|done].
Qed.

(** The new user is found by his email. *)
Lemma user_by_email_insert e db i u :
  user_by_email e db = None → email u = e →
  user_by_email e (db <| users := <[i := u]> (users db) |>) = Some (i, u).
Proof.
  intros Hnone He. unfold user_by_email. simpl.
  assert ((i, u) ∈ select (λ _ u, bool_decide (email u = e)) (<[i:=u]> (users db))) as Hin.
  { apply elem_of_select. rewrite lookup_insert_eq. split; [done|by apply bool_decide_eq_true]. }
  destruct (select _ _) as [|[k v] l] eqn:Hs; [by apply elem_of_nil in Hin|]. simpl.
  assert ((k, v) ∈ select (λ _ u, bool_decide (email u = e)) (<[i:=u]> (users db))) as Hkv by (rewrite Hs; by left).
  apply elem_of_select in Hkv as [Hkv Hem%bool_decide_eq_true].
  destruct (decide (k = i)) as [->|Hne]; [rewrite lookup_insert_eq in Hkv; congruence|].
  rewrite lookup_insert_ne in Hkv by done. by apply (user_by_email_none e db Hnone k v) in Hkv.
Qed.

Section accounts.
Context (X : Externals).

(** What [argon2] and [google/uuid] are relied on for. *)
Record lawful (sid : uuid) : Prop := {
  law_version : Z.of_N (x_argon2_Version X) < 2 ^ 63;
  law_key p s t m k n : String.length (x_IDKey X p s t m k n) = n;
  law_uuid : x_uuid_Parse X (x_uuid_String X sid) = Some sid;
  law_text : x_uuid_String X sid ≠ "";
}.

Definition key_of_password (salt pw : string) : string :=
  x_IDKey X pw salt (Z.of_N argonTime) (Z.of_N argonMemory) (Z.of_N argonThreads) argonKeyLen.

(** A sign-up the handler takes. *)
Record sign_up (r : Request registerReq) (pw : string) (e : string) (env : Env) (db : DB) : Prop := {
  su_body : ∃ em nm, rq_body r = Some (mkRegisterReq em pw nm) ∧ ToLower (TrimSpace em) = e;
  su_email : e ≠ "" ∧ Contains e at_sign = true;
  su_password : (8 ≤ String.length pw)%nat;
  su_free : user_by_email e db = None;
  su_fresh : users db !! uuids env 0%nat = None;
}.

Definition signed_up (salt pw e : string) (nm : option string) (env : Env) (db : DB) : DB :=
  db <| users := <[uuids env 0%nat := mkUser e (hashPassword (x_argon2_Version X) (x_IDKey X) salt pw) nm (now env)]>
         (users db) |>.

Lemma register_ok r pw e env db salt :
  sign_up r pw e env db →
  ∃ nm resp, answer (serve X (PostRegister salt r)) (start db (quiet env)) = inr resp ∧ rs_status resp = 201 ∧
    final_db (serve X (PostRegister salt r)) (start db (quiet env)) = signed_up salt pw e nm env db.
Proof.
  intros [(em & nm & Hb & He) [Hne Hat] Hpw Hfree Hfresh].
  set (n := TrimSpace nm). set (name := if decide (n = "") then None else Some n).
  assert (∃ body, runs env db (register (hashPassword (x_argon2_Version X) (x_IDKey X)) salt r
    (mkScope uuid_Nil uuid_Nil uuid_Nil uuid_Nil uuid_Nil viewer)) (mkResult 201 body uuid_Nil uuid_Nil None)
    (signed_up salt pw e name env db)) as [body Hrun].
  { eexists. unfold register. eapply runs_bind.
    { unfold decode. rewrite Hb. apply runs_ret. }
    cbv zeta. simpl rg_Email. simpl rg_Password. simpl rg_Name. rewrite He.
    rewrite bool_decide_eq_false_2 by done. rewrite Hat. cbn [orb negb].
    destruct (Nat.ltb_spec (String.length pw) 8) as [?|_]; [lia|].
    eapply (runs_bind _ _ _ _ _ _ (uuids env 0%nat, now env)); [|apply runs_ret]. apply runs_or_problem, runs_exec.
    unfold insertUserSQL. by rewrite Hfree, Hfresh. }
  destruct (public_runs _ _ _ _ _ _ Hrun) as [Ha Hd]. eexists name, _. split_and!; [exact Ha| |exact Hd].
  by destruct body.
Qed.

(** A sign-in with an email that is known. *)
Record sign_in (r : Request loginReq) (pw e : string) : Prop := {
  si_body : ∃ em, rq_body r = Some (mkLoginReq em pw) ∧ ToLower (TrimSpace em) = e;
}.

Definition signed_in (sid uid : uuid) (env : Env) (db : DB) : DB :=
  db <| sessions := <[sid := mkSession uid (now env) (now env + sessionTTL) None]> (sessions db) |>.

(** The password decides. *)
Lemma login_decides r pw pw' e uid u salt sid env db :
  lawful sid → sign_in r pw' e → user_by_email e db = Some (uid, u) → is_Some (users db !! uid) →
  password_hash u = hashPassword (x_argon2_Version X) (x_IDKey X) salt pw → sessions db !! sid = None →
  ∃ resp, answer (serve X (PostLogin sid r)) (start db (quiet env)) = inr resp ∧
    if decide (key_of_password salt pw' = key_of_password salt pw)
    then rs_status resp = 200 ∧ final_db (serve X (PostLogin sid r)) (start db (quiet env)) = signed_in sid uid env db
    else resp = write (rq_id r) (inl (ErrApi unauthorized)) ∧
         final_db (serve X (PostLogin sid r)) (start db (quiet env)) = db.
Proof.
  intros Hlaw [(em & Hb & He)] Hu Huser Hh Hsid. destruct Huser as [u' Hu'].
  pose proof (verify_hash (x_argon2_Version X) (x_IDKey X) salt pw pw' (law_version _ Hlaw) (law_key _ Hlaw)) as Hver.
  fold (key_of_password salt pw) (key_of_password salt pw') in Hver.
  assert (findUserSQL e env db = inr (Some (uid, password_hash u), db)) as Hfind
    by (unfold findUserSQL, gets; by rewrite Hu).
  case_decide as Hk.
  - rewrite bool_decide_eq_true_2 in Hver by done.
    assert (∃ body, runs env db (login (x_uuid_String X) (verifyPassword (x_IDKey X)) sid r
      (mkScope uuid_Nil uuid_Nil uuid_Nil uuid_Nil uuid_Nil viewer)) (mkResult 200 body uuid_Nil uuid_Nil None)
      (signed_in sid uid env db)) as [body Hrun].
    { eexists. unfold login. eapply runs_bind; [unfold decode; rewrite Hb; apply runs_ret|].
      simpl lr_Email. rewrite He. eapply runs_bind; [apply runs_exec, Hfind|]. simpl lr_Password. rewrite Hh, Hver.
      eapply (runs_bind _ _ _ _ _ _ (now env, now env + sessionTTL)); [|apply runs_ret]. apply runs_exec.
      unfold insertSessionSQL. by rewrite Hsid, Hu'. }
    destruct (public_runs _ _ _ _ _ _ Hrun) as [Ha Hd]. eexists. split; [exact Ha|]. split; [by destruct body|exact Hd].
  - rewrite bool_decide_eq_false_2 in Hver by done.
    destruct (public_fails (login (x_uuid_String X) (verifyPassword (x_IDKey X)) sid) r env db unauthorized) as [Ha Hd].
    { intros snap. unfold login. eapply reads_bind; [unfold decode; rewrite Hb; apply reads_ret|].
      simpl lr_Email. rewrite He. eapply reads_bind; [apply reads_exec, Hfind|]. simpl lr_Password. rewrite Hh, Hver.
      apply reads_throw. }
    by eexists.
Qed.

(** Whose session a token is. *)
Lemma session_user_at {B} env (r : Request B) db sid s :
  x_uuid_Parse X (x_uuid_String X sid) = Some sid → x_uuid_String X sid ≠ "" → bearer r = x_uuid_String X sid →
  sessions db !! sid = Some s →
  session_user (x_uuid_Parse X) env r db =
    if bool_decide (revoked_at s = None) && (now env <? s_expires_at s) then Some (s_user_id s, sid) else None.
Proof.
  intros Hp Hne Hb Hs. unfold session_user. rewrite Hb, decide_False, Hp by done. simpl. by rewrite Hs.
Qed.

(** Signing out revokes the session the request came with. *)
Lemma logout_revokes (r : Request unit) env db uid sid s :
  session_user (x_uuid_Parse X) env r db = Some (uid, sid) → sessions db !! sid = Some s → revoked_at s = None →
  final_db (serve X (PostLogout r)) (start db (quiet env)) =
    db <| sessions := <[sid := s <| revoked_at := Some (now env) |>]> (sessions db) |>.
Proof.
  intros Hu Hs Hrev. cbn [serve].
  eapply (guard_runs (x_uuid_Parse X) viewer "" none nowhere logout r env db
    (mkScope uid sid uuid_Nil uuid_Nil uuid_Nil owner)).
  - unfold verdict. by rewrite Hu.
  - unfold logout. eapply runs_bind; [|apply runs_ret]. apply runs_exec. unfold revokeSessionSQL, modify.
    f_equal. f_equal. unfold over; simpl. f_equal. apply map_eq. intros k. destruct (decide (k = sid)) as [->|Hne].
    + rewrite lookup_alter_eq, lookup_insert_eq, Hs. simpl. by rewrite decide_True.
    + by rewrite lookup_alter_ne, lookup_insert_ne.
Qed.

End accounts.

(** ** The audit trail *)

Definition unaudited (db d : DB) : Prop := audit_log d = audit_log db.

Ltac unaudited_step := first [eapply tx_hoare_seq; [|intros ?] | eapply tx_keeps_bind; [|intros ?]].

(** A request on an organization: no project, no audit row. *)
Lemma org_guarded {B} parse db min action entity name (h : scoped B) (r : Request B) :
  (∀ sc, tx_hoare (unaudited db) (h r sc) (λ res d, unaudited db d ∧ r_projectID res = uuid_Nil)) →
  tx_keeps (unaudited db) (guarded parse min action entity (byPath parse name orgScope) h r).
Proof.
  intros Hh. unfold guarded. eapply (tx_hoare_bind _ _ (λ _, unaudited db)).
  { unfold authuser. case_decide; [apply tx_hoare_throw|]. destruct (parse _); [|apply tx_hoare_throw].
    eapply tx_hoare_seq; [apply tx_hoare_exec; intros; by apply hoare_gets|]. intros [uid|]; [by apply tx_hoare_ret|].
    apply tx_hoare_throw. }
  intros [uid sid].
  eapply (tx_hoare_bind _ _ (λ osc d, unaudited db d ∧ ∀ sc, osc = Some sc → sc_projectID sc = uuid_Nil)).
  { unfold byPath, orgScope. destruct (parse _); [|apply tx_hoare_throw].
    eapply tx_hoare_seq; [apply tx_hoare_exec; intros; by apply hoare_gets|]. intros [rl|]; simpl; apply tx_hoare_ret;
      intros d Hd; (split; [done|]); [by intros sc [= <-]|done]. }
  intros [sc|]; [|apply tx_hoare_throw]. destruct (_ <? _); [apply tx_hoare_throw|].
  intros w res w' Hrun [Hd Hsc]. specialize (Hsc sc eq_refl).
  revert w res w' Hrun Hd.
  change (tx_hoare (unaudited db) (
    res ← h r (sc <| sc_userID := uid |> <| sc_sessionID := sid |>);
    let proj := if decide (sc_projectID sc = uuid_Nil) then r_projectID res else sc_projectID sc in
    let ent := if decide (r_entityID res = uuid_Nil) then sc_entityID sc else r_entityID res in
    _ ← (if bool_decide (action ≠ "") && bool_decide (proj ≠ uuid_Nil)
         then audit proj uid action entity ent (r_audit res) else mret tt);
    mret res) (λ _, unaudited db)).
  eapply tx_hoare_bind; [apply Hh|]. intros res. cbv zeta. rewrite decide_True by done.
  intros w x w' Hrun [Hd Hp]. revert Hrun. rewrite Hp, (bool_decide_eq_false_2 (uuid_Nil ≠ _)) by tauto.
  rewrite andb_false_r. by intros [= <- <-].
Qed.

(** ** Theorems *)


Lemma pad_length n s : String.length (pad n s) = n.
Proof. revert s. induction n as [|n IH]; intros [|c s]; simpl; auto. Defined.

Definition sign_up0 : Request registerReq :=
  mkRequest registerReq (λ _, "") None [] (λ _, "") (λ _, "")
    (Some (mkRegisterReq " Ann@Example.org" "correct horse" "Ann")) "rid".
Definition sign_in0 : Request loginReq :=
  mkRequest loginReq (λ _, "") None [] (λ _, "") (λ _, "")
    (Some (mkLoginReq "ann@example.org" "correct horse")) "rid".
Definition signed0 : Request unit :=
  mkRequest unit (λ _, "") (Some (text 99)) [] (λ _, "") (λ _, "") (Some tt) "rid".


(** What the audit trail leaves out.  The README and API.md say that
    every privileged mutation writes an audit row, but [guard] writes one only
    when it knows of a project, and the entity of the routes that rename an
    organization or change its members is the organization: whatever they do,
    and whoever asks, the audit log stays as it was. *)
Theorem org_changes_unaudited X rt env db :
  (∃ r, rt = PatchOrg r) ∨ (∃ r, rt = PostMembers r) →
  audit_log (final_db (serve X rt) (start db (quiet env))) = audit_log db.
Proof.
  assert (∀ B action entity name (h : scoped B) (r : Request B),
    (∀ sc, tx_hoare (unaudited db) (h r sc) (λ res d, unaudited db d ∧ r_projectID res = uuid_Nil)) →
    unaudited db (final_db (guard (x_uuid_Parse X) admin action entity (byPath (x_uuid_Parse X) name orgScope) h r)
      (start db (quiet env)))) as Hguard.
  { intros B action entity name h r Hh.
    pose proof (go_keeps_handler (unaudited db) maxTxRetries (ErrOther "nil") _
      (org_guarded (x_uuid_Parse X) db admin action entity name h r Hh) (start db (quiet env))) as Hk.
    unfold final_db, guard, server_tx, mbind, go_bind, caught in *. destruct (tx_attempts _ _ _ _) as [res w'].
    destruct Hk as (_ & Hk & _); [split_and!; [done|done|by intros n d]|exact Hk]. }
  intros [[r ->]|[r ->]]; apply Hguard; intros sc.
  - unfold updateOrg. unaudited_step; [unfold decode; by destruct (rq_body r); [apply tx_keeps_ret|apply tx_keeps_throw]|].
    cbv zeta. case_decide; [apply tx_hoare_throw|].
    unaudited_step; [|by apply tx_hoare_ret]. unaudited_step.
    + apply tx_keeps_exec. intros env'. unfold updateOrgSQL. keeps. by apply keeps_modify.
    + apply tx_keeps_scan_row.
  - unfold addMember. unaudited_step; [unfold decode; by destruct (rq_body r); [apply tx_keeps_ret|apply tx_keeps_throw]|].
    cbv zeta. case_decide; [apply tx_hoare_throw|]. destruct (negb _); [apply tx_hoare_throw|].
    unaudited_step; [apply tx_keeps_exec; intros; apply keeps_gets|].
    match goal with |- tx_hoare _ (match ?o with _ => _ end) _ => destruct o as [uid|] end; [|apply tx_hoare_throw].
    unaudited_step; [|by apply tx_hoare_ret]. apply tx_keeps_exec. intros env' d Hd. unfold upsertMemberSQL.
    by destruct (negb _).
Qed.

(** [db0] with its user an admin. *)
Definition admin_db : DB := db0 <| org_members := {[ (1%N, 6%N) := "admin" ]} |>.

Lemma org_changes_unaudited_witness :
  let db' := final_db (serve X0 (PatchOrg (request 1 (mkNameReq "Acme")))) (start admin_db (quiet env0)) in
  audit_log db' = audit_log admin_db ∧ o_name <$> organizations db' !! 1%N = Some "Acme".
Proof.
  split; [|by vm_compute].
  apply (org_changes_unaudited X0 (PatchOrg (request 1 (mkNameReq "Acme"))) env0 admin_db). left. by eexists.
Defined.
