(* ===== verification/Removal.v ===== *)
(** * What a deletion takes away, and when it is refused *)

From S2P Require Import Prelude Schema Fl Pool Api ApiJobs ApiAdmin Accounts Cascade GoLogic System Fixture Evolution Slots Leases Access Sessions.

#[local] Open Scope string_scope.
#[local] Open Scope list_scope.
#[local] Open Scope Z_scope.

(** ** Rounds *)

(** How many rounds a row can still cause. *)
Definition level (r : row) : nat :=
  match r with
  | ROrg _ => 4
  | RProject _ => 3
  | RPolicy _ | RQueue _ _ | RWorker _ => 2
  | RSchedule _ | RJob _ => 1
  end.

Definition below_level (n : nat) (rows : list row) : Prop := Forall (λ r, (level r < n)%nat) rows.

Lemma traverse_inr {S E A B} (f : B → tx S E A) l s out s' :
  traverse l f s = inr (out, s') → ∀ a, a ∈ out → ∃ x s1 s2, x ∈ l ∧ f x s1 = inr (a, s2).
Proof.
  revert s out. induction l as [|x l IH]; intros s out Hr a Ha.
  - injection Hr as <- _. by apply elem_of_nil in Ha.
  - apply tx_bind_inv in Hr as (b & s1 & Hx & Hr). apply tx_bind_inv in Hr as (r & s2 & Hl & Hr).
    injection Hr as <- ->. apply elem_of_cons in Ha as [->|Ha]; [exists x, s, s1; split; [by left|done]|].
    destruct (IH _ _ Hl a Ha) as (y & s3 & s4 & Hy & Hf). exists y, s3, s4. split; [by right|done].
Qed.

Lemma traverse_run {S E A} (t : tx S E A) ts s a s1 out s2 :
  t s = inr (a, s1) → traverse ts id s1 = inr (out, s2) → traverse (t :: ts) id s = inr (a :: out, s2).
Proof.
  intros Ht Hts. cbn [traverse]. unfold mbind, tx_bind. change (id t s) with (t s). by rewrite Ht, Hts.
Qed.

Lemma elem_of_concat {A} (x : A) (ls : list (list A)) : x ∈ concat ls ↔ ∃ l, x ∈ l ∧ l ∈ ls.
Proof.
  induction ls as [|l ls IH]; simpl.
  - split; [by intros ?%elem_of_nil|by intros (l & _ & ?%elem_of_nil)].
  - rewrite elem_of_app, IH. split.
    + intros [Hx|(k & Hx & Hk)]; [exists l|exists k]; (split; [done|]); [by left|by right].
    + intros (k & Hx & [->|Hk]%elem_of_cons); eauto.
Qed.

(** A trigger deletes rows further down. *)
Lemma trigger_level r t db out db' :
  t ∈ triggers r → t db = inr (out, db') → below_level (level r) out.
Proof.
  intros Ht Hr. apply list.Forall_forall. intros x Hx.
  destruct r; simpl in Ht;
    repeat (apply elem_of_cons in Ht as [->|Ht]; [|]); try (by apply elem_of_nil in Ht);
    first
      [ injection Hr as <- _; by apply elem_of_nil in Hx
      | injection Hr as <- _; apply list_elem_of_fmap in Hx as (? & -> & _); simpl; lia
      | unfold restrict in Hr; case_match; [done|]; injection Hr as <- _; by apply elem_of_nil in Hx
      | apply tx_bind_inv in Hr as (ids & s1 & _ & Hr); apply tx_bind_inv in Hr as ([] & s2 & _ & Hr);
        injection Hr as <- _; by apply elem_of_nil in Hx ].
Qed.

Lemma fire_row_level r db out db' : fire_row r db = inr (out, db') → below_level (level r) out.
Proof.
  intros Hr. apply tx_bind_inv in Hr as (outs & s & Ht & Hr). injection Hr as <- _.
  apply list.Forall_forall. intros x (l & Hx & Hl)%elem_of_concat.
  destruct (traverse_inr _ _ _ _ _ Ht l Hl) as (t & s1 & s2 & Hin & Ht').
  apply (trigger_level r t s1 l s2 Hin) in Ht'. unfold below_level in Ht'. rewrite list.Forall_forall in Ht'. by apply Ht'.
Qed.

Lemma fire_round_level n rows db out db' :
  below_level (S n) rows → fire_round rows db = inr (out, db') → below_level n out.
Proof.
  intros Hl Hr. apply tx_bind_inv in Hr as (outs & s & Ht & Hr). injection Hr as <- _.
  apply list.Forall_forall. intros x (l & Hx & Hin)%elem_of_concat.
  destruct (traverse_inr _ _ _ _ _ Ht l Hin) as (r & s1 & s2 & Hr & Hf).
  apply fire_row_level in Hf. unfold below_level in *. rewrite list.Forall_forall in Hf, Hl.
  specialize (Hf x Hx). specialize (Hl r Hr). lia.
Qed.

(** More rounds change nothing. *)
Lemma cascade_more n m rows db :
  below_level (S n) rows → (n ≤ m)%nat → cascade m rows db = cascade n rows db.
Proof.
  revert m rows db. induction n as [|n IH]; intros m rows db Hl Hm.
  - destruct rows as [|r rows]; [by destruct m|]. apply list.Forall_cons in Hl as [Hr _]. exfalso. destruct r; simpl in Hr; lia.
  - destruct m as [|m]; [lia|]. destruct rows as [|r rows]; [done|]. cbn [cascade].
    unfold mbind, tx_bind. destruct (fire_round (r :: rows) db) as [|[out db']] eqn:Hf; [done|].
    apply IH; [by eapply fire_round_level|lia].
Qed.

(** The triggers fire until none is left, or one raises: no bound on the rounds. *)
Inductive fires : list row → DB → sqlstate + DB → Prop :=
  | fires_done db : fires [] db (inr db)
  | fires_raise r rows db e : fire_round (r :: rows) db = inl e → fires (r :: rows) db (inl e)
  | fires_round r rows db news db' res :
      fire_round (r :: rows) db = inr (news, db') → fires news db' res → fires (r :: rows) db res.

(** How a statement ends. *)
Definition ending {A} (m : sql A) (db : DB) : sqlstate + DB :=
  match m db with inl e => inl e | inr (_, db') => inr db' end.

Lemma cascade_fires n m rows db :
  below_level (S n) rows → (n ≤ m)%nat → fires rows db (ending (cascade m rows) db).
Proof.
  revert m rows db. induction n as [|n IH]; intros m rows db Hl Hm.
  - destruct rows as [|r rows]; [destruct m; constructor|]. apply list.Forall_cons in Hl as [Hr _]. exfalso.
    destruct r; simpl in Hr; lia.
  - destruct m as [|m]; [lia|]. destruct rows as [|r rows]; [constructor|]. unfold ending. cbn [cascade].
    unfold mbind, tx_bind. destruct (fire_round (r :: rows) db) as [|[out db']] eqn:Hf; [by constructor|].
    eapply fires_round; [exact Hf|]. apply IH; [by eapply fire_round_level|lia].
Qed.

(** ** Refused deletions *)

(** The executions are never deleted. *)
Lemma trigger_execs r t : t ∈ triggers r → ∀ E, keeps (λ db, execs db = E) t.
Proof.
  intros Ht E. destruct r; simpl in Ht; repeat (apply elem_of_cons in Ht as [->|Ht]; [|]); try (by apply elem_of_nil in Ht);
    try (intros db HP; done).
  all: try (intros db HP; unfold restrict; match goal with |- context [any_row ?f ?m] => by destruct (any_row f m) end).
  unfold set_null. apply keeps_bind; [apply keeps_gets|]. intros ids. apply keeps_bind; [|intros []; apply keeps_ret].
  apply keeps_foreach. intros k. apply hoare_update_job; [done|]. by intros db old HP _ _ _ _.
Qed.

Lemma fire_row_execs r E : keeps (λ db, execs db = E) (fire_row r).
Proof.
  unfold fire_row. apply keeps_bind; [|intros; apply keeps_ret].
  assert (∀ l, (∀ t, t ∈ l → t ∈ triggers r) → keeps (λ db, execs db = E) (traverse l id)) as Hl; [|by apply Hl].
  induction l as [|t l IH]; intros Hsub; simpl; [apply keeps_ret|].
  apply keeps_bind; [apply (trigger_execs r), Hsub; by left|]. intros a.
  apply keeps_bind; [apply IH; intros; apply Hsub; by right|]. intros. apply keeps_ret.
Qed.

(** What a row of one of the upper tables raises is a violated foreign key. *)
Lemma fire_row_error r db e : (2 ≤ level r)%nat → fire_row r db = inl e → e = foreign_key_violation.
Proof.
  intros Hl. unfold fire_row.
  assert (∀ ts : list trigger, (∀ (t : trigger) s e, t ∈ ts → t s = inl e → e = foreign_key_violation) →
    ∀ s, traverse ts id s = inl e → e = foreign_key_violation) as Htr.
  { induction ts as [|t ts IH]; intros Hts s Hs; [done|]. simpl in Hs. unfold mbind, tx_bind in Hs.
    destruct (t s) as [e'|[a s1]] eqn:Ht; [eapply (Hts t s); [by left|congruence]|].
    destruct (traverse ts id s1) as [e'|[a' s2]] eqn:Ht'; [|done].
    eapply IH; [intros t' s' e'' Hin; apply Hts; by right|]. rewrite Ht'. congruence. }
  unfold mbind, tx_bind. destruct (traverse (triggers r) id db) as [e'|[out s]] eqn:Hr; [|done].
  intros [= ->]. revert Hr. apply Htr. intros t s e' Ht He.
  destruct r; simpl in Hl, Ht; try lia; repeat (apply elem_of_cons in Ht as [->|Ht]; [|]); try (by apply elem_of_nil in Ht);
    try done; unfold restrict in He; case_match; congruence.
Qed.

(** A worker that has executed anything is kept. *)
Lemma fire_worker w x e db :
  execs db !! x = Some e → x_worker_id e = w → fire_row (RWorker w) db = inl foreign_key_violation.
Proof.
  intros Hx Hw. destruct (fire_row (RWorker w) db) as [err|[out db']] eqn:Hf.
  { f_equal. by apply (fire_row_error (RWorker w) db); [simpl; lia|]. }
  exfalso. unfold fire_row in Hf. simpl in Hf. unfold mbind, tx_bind, id, restrict in Hf.
  destruct (any_row _ (jobs db)); [done|]. destruct (any_row _ (leases db)); [done|].
  assert (any_row (λ _ x, bool_decide (x_worker_id x = w)) (execs db) = true) as Hany.
  { unfold any_row. apply bool_decide_eq_true. intros Hnil.
    assert ((x, e) ∈ select (λ _ x, bool_decide (x_worker_id x = w)) (execs db)) as Hin
      by (apply elem_of_select; split; [done|by apply bool_decide_eq_true]).
    rewrite Hnil in Hin. by apply elem_of_nil in Hin. }
  by rewrite Hany in Hf.
Qed.

Lemma fire_round_refused rows w x e db :
  RWorker w ∈ rows → Forall (λ r, (2 ≤ level r)%nat) rows → execs db !! x = Some e → x_worker_id e = w →
  fire_round rows db = inl foreign_key_violation.
Proof.
  intros Hin Hl Hx Hw. unfold fire_round.
  assert (traverse rows fire_row db = inl foreign_key_violation) as Ht; [|unfold mbind, tx_bind; by rewrite Ht].
  revert db Hx. induction Hl as [|r rows Hr Hl IH]; intros db Hx; [by apply elem_of_nil in Hin|].
  simpl. unfold mbind, tx_bind. apply elem_of_cons in Hin as [<-|Hin]; [by rewrite (fire_worker w x e)|].
  destruct (fire_row r db) as [err|[out db']] eqn:Hf; [f_equal; by eapply fire_row_error|].
  assert (execs db' = execs db) as He by (by eapply (keeps_inv _ _ _ _ _ (fire_row_execs r (execs db)))).
  by rewrite (IH Hin db') by (by rewrite He).
Qed.

(** The rows of a project: its policies, queues and workers, of which nothing is
    in the way. *)
Lemma fire_project p db :
  ∃ out db', fire_row (RProject p) db = inr (out, db') ∧ execs db' = execs db ∧ Forall (λ r, (2 ≤ level r)%nat) out ∧
    ∀ w wk, workers db !! w = Some wk →
      if decide (w_project_id wk = p) then RWorker w ∈ out else workers db' !! w = Some wk.
Proof.
  eexists _, _. split; [reflexivity|]. split; [done|]. split.
  - apply list.Forall_forall. intros r (l & Hr & Hl)%elem_of_concat.
    repeat (apply elem_of_cons in Hl as [->|Hl]; [apply list_elem_of_fmap in Hr as (? & -> & _); simpl; lia|]).
    by apply elem_of_nil in Hl.
  - intros w wk Hw. simpl. case_decide as Hp.
    + rewrite !elem_of_app. right. right. left. apply list_elem_of_fmap. exists (w, wk). split; [done|].
      rewrite merge_sort_Permutation. apply elem_of_select. split; [done|by apply bool_decide_eq_true].
    + apply map_lookup_filter_Some. split; [done|]. by apply bool_decide_eq_false.
Qed.

Lemma fire_projects ps p w wk db :
  p ∈ ps → workers db !! w = Some wk → w_project_id wk = p →
  ∃ out db', fire_round (RProject <$> ps) db = inr (out, db') ∧ execs db' = execs db ∧
    Forall (λ r, (2 ≤ level r)%nat) out ∧ RWorker w ∈ out.
Proof.
  intros Hin Hw Hp. unfold fire_round.
  assert (∃ outs db', traverse (RProject <$> ps) fire_row db = inr (outs, db') ∧ execs db' = execs db ∧
    Forall (λ r, (2 ≤ level r)%nat) (concat outs) ∧ (workers db !! w = Some wk → p ∈ ps → RWorker w ∈ concat outs))
    as (outs & db' & Ht & He & Hl & Hr).
  { clear Hin Hw. revert db. induction ps as [|p1 ps IH]; intros db.
    { exists [], db. split_and!; [done|done|by constructor|by intros _ ?%elem_of_nil]. }
    destruct (fire_project p1 db) as (out & db1 & Hf & He1 & Hl1 & Hw1).
    destruct (IH db1) as (outs & db2 & Ht & He2 & Hl2 & Hw2).
    exists (out :: outs), db2. rewrite fmap_cons. cbn [traverse concat]. unfold mbind, tx_bind. rewrite Hf, Ht. split_and!.
    - done.
    - congruence.
    - by apply list.Forall_app.
    - intros Hw Hin. apply elem_of_app. specialize (Hw1 w wk Hw). case_decide as E; [by left|]. right.
      apply Hw2; [done|]. apply elem_of_cons in Hin as [->|]; [congruence|done]. }
  exists (concat outs), db'. unfold mbind, tx_bind. rewrite Ht. split_and!; auto.
Qed.

Lemma cascade_round n rows db :
  rows ≠ [] → cascade (S n) rows db = (news ← fire_round rows; cascade n news) db.
Proof. by destruct rows. Qed.

(** A worker of the project has executed something. *)
Definition project_has_run (p : uuid) (db : DB) : Prop :=
  ∃ w wk x e, workers db !! w = Some wk ∧ w_project_id wk = p ∧ execs db !! x = Some e ∧ x_worker_id e = w.

Lemma projects_refused n ps p db :
  p ∈ ps → project_has_run p db → cascade (S (S n)) (RProject <$> ps) db = inl foreign_key_violation.
Proof.
  intros Hin (w & wk & x & e & Hw & Hp & Hx & Hxw).
  destruct (fire_projects ps p w wk db Hin Hw Hp) as (out & db' & Hf & He & Hl & Hr).
  rewrite cascade_round by (by destruct ps; [apply elem_of_nil in Hin|]).
  unfold mbind, tx_bind. rewrite Hf, cascade_round by (by destruct out; [apply elem_of_nil in Hr|]).
  unfold mbind, tx_bind. by rewrite (fire_round_refused out w x e) by (by rewrite ?He).
Qed.

Lemma deleteProject_refused p env db :
  is_Some (projects db !! p) → project_has_run p db → deleteProjectSQL p env db = inl foreign_key_violation.
Proof.
  intros [pr Hp] Hrun. unfold deleteProjectSQL, mbind, tx_bind, gets, modify. rewrite Hp.
  apply (projects_refused 2 [p] p); [by left|exact Hrun].
Qed.

Lemma deleteOrg_refused o p pr env db :
  is_Some (organizations db !! o) → projects db !! p = Some pr → org_id pr = o → project_has_run p db →
  deleteOrgSQL o env db = inl foreign_key_violation.
Proof.
  intros [og Ho] Hp Hpo Hrun. unfold deleteOrgSQL, mbind, tx_bind, gets, modify. rewrite Ho.
  unfold max_rounds. rewrite cascade_round by done. unfold mbind at 1, tx_bind at 1.
  destruct (fire_round [ROrg o] _) as [err|[out db']] eqn:Hf; [done|].
  unfold fire_round in Hf. simpl in Hf. injection Hf as <- <-. rewrite !app_nil_r.
  set (l := merge_sort by_id (select (λ _ p, bool_decide (org_id p = o)) (projects db))).
  assert ((λ kv : uuid * Project, RProject kv.1) <$> l = RProject <$> l.*1) as ->
    by (by rewrite <- list_fmap_compose).
  apply (projects_refused 1 l.*1 p); [|exact Hrun].
  apply list_elem_of_fmap. exists (p, pr). split; [done|]. unfold l. rewrite merge_sort_Permutation.
  apply elem_of_select. split; [done|by apply bool_decide_eq_true].
Qed.

(** A statement that raises. *)
Lemma reads_exec_fails {A} env db snap (s : Env → sql A) code :
  s env db = inl code → reads env db snap (tx_exec s) (inl (ErrPg code)).
Proof.
  intros Hs w H1 H2 H3. unfold tx_exec, this_call. rewrite H1. simpl. rewrite H2, Hs.
  eexists. split; [done|]. split_and!; [done|done|done].
Qed.

(** A handler that raises: the request is let through, then answered with the
    error, and nothing has changed. *)
Lemma guard_raises {B} parse min action entity loc res `{!Resolves loc res} (h : scoped B) r env db sc e :
  verdict parse min entity res env r db = inr sc → retryable e = false →
  (∀ snap, reads env db snap (h r sc) (inl e)) →
  answer (guard parse min action entity loc h r) (start db (quiet env)) = inr (write (rq_id r) (inl e)) ∧
  final_db (guard parse min action entity loc h r) (start db (quiet env)) = db.
Proof.
  intros Hv He Hh. destruct (server_tx_fails (guarded parse min action entity loc h r) env db e) as (w' & Hrun & Hdb);
    [|done|].
  - intros w H1 H2 H3.
    destruct (guarded_verdict parse min action entity loc res h r env db db w H1 H2 H3) as (w1 & H4 & H5 & H6 & Hg).
    rewrite Hv in Hg. destruct (Hh db w1 H4 H5 H6) as (w2 & Hr2 & _ & _ & Hs2). exists w2. split; [|done].
    rewrite Hg. unfold handled, mbind, go_bind. by rewrite Hr2.
  - unfold answer, final_db, guard, mbind, go_bind, caught. by rewrite Hrun.
Qed.

Lemma verdict_project parse env (r : Request unit) db sc :
  verdict parse admin "project" (in_path parse "id" find_project) env r db = inr sc →
  is_Some (projects db !! sc_projectID sc).
Proof.
  unfold verdict. destruct (session_user _ _ _ _) as [[uid sid]|]; [|done]. unfold in_path.
  destruct (parse _) as [i|]; [|done]. unfold scope_at, find_project, member_of.
  destruct (projects db !! i) as [pr|] eqn:Hp; [|done]. simpl.
  destruct (org_members db !! _); [|done]. simpl. destruct (_ <? _); [done|]. intros [= <-]. simpl. by rewrite Hp.
Qed.

(** ** The deletion of a queue *)

Definition no_schedule (j : Job) : Job := j <| schedule_id := None |>.

Lemma no_schedule_valid j : job_valid j → job_valid (no_schedule j) ∧ jobs_fsm j (no_schedule j) = true.
Proof.
  intros [Hr Hc]. split; [split; [done|]|].
  - unfold job_checks in *. rewrite !andb_true_iff in *. destruct Hc as [? Hc]. split; [done|].
    unfold jobs_column_checks in *. rewrite !andb_true_iff in *. destruct Hc as [? _]. split; [done|].
    by rewrite bool_decide_eq_true_2.
  - unfold jobs_fsm. simpl. rewrite Z.ltb_irrefl, bool_decide_eq_true_2; done.
Qed.

Lemma clear_all ids db :
  rows_ok db → ∃ db', foreach ids (λ i, update_job i no_schedule) db = inr (tt, db') ∧ rows_ok db'.
Proof.
  revert db. induction ids as [|i ids IH]; intros db Hv; [by exists db|]. simpl. unfold mbind, tx_bind.
  assert (∃ db1, update_job i no_schedule db = inr (tt, db1) ∧ rows_ok db1) as (db1 & -> & Hv1); [|by apply IH].
  unfold update_job. destruct (jobs db !! i) as [j|] eqn:Hj; [|by exists db].
  destruct (no_schedule_valid j (Hv i j Hj)) as [[Hr Hc] Hf]. rewrite Hr, Hf, Hc. simpl. eexists. split; [done|].
  intros k j' Hk. simpl in Hk. rewrite lookup_insert in Hk. case_decide; [by injection Hk as <-|by apply (Hv k)].
Qed.

(** The jobs of schedule [s] lose it. *)
Definition forget_schedule (s : uuid) (m : gmap uuid Job) : gmap uuid Job :=
  rewritten (λ _ j, bool_decide (schedule_id j = Some s)) no_schedule m.

Lemma fire_schedule s db :
  rows_ok db →
  fire_row (RSchedule s) db = inr ([], db <| jobs := forget_schedule s (jobs db) |>) ∧
  rows_ok (db <| jobs := forget_schedule s (jobs db) |>).
Proof.
  intros Hv. unfold fire_row. simpl. unfold set_null, id, mbind, tx_bind, gets.
  destruct (clear_all (select (λ _ j, bool_decide (schedule_id j = Some s)) (jobs db)).*1 db Hv) as (db' & Hf & Hv').
  change (foreach _ _ db) with (foreach (select (λ _ j, bool_decide (schedule_id j = Some s)) (jobs db)).*1
    (λ i, update_job i no_schedule) db). rewrite Hf. apply update_selected in Hf as ->. split; [done|exact Hv'].
Qed.

(** The schedules [ss] and the jobs [js] of a queue, in the second round. *)
Definition forget_schedules (ss : list uuid) (m : gmap uuid Job) : gmap uuid Job := foldl (flip forget_schedule) m ss.

Definition drop_jobs (js : list uuid) (db : DB) : DB :=
  db <| leases := foldl (λ m j, delete j m) (leases db) js |>
     <| deps := foldl (λ d j, filter (λ e : uuid * uuid, e.2 ≠ j) (filter (λ e : uuid * uuid, e.1 ≠ j) d)) (deps db) js |>.

Lemma fire_schedules ss js db :
  rows_ok db →
  traverse ((RSchedule <$> ss) ++ (RJob <$> js)) fire_row db =
    inr (replicate (length ss + length js) [],
         drop_jobs js (db <| jobs := forget_schedules ss (jobs db) |>)).
Proof.
  revert db. induction ss as [|s ss IH]; intros db Hv.
  - simpl. clear Hv. revert db. induction js as [|j js IH]; intros db; [by destruct db|].
    rewrite fmap_cons. cbn [traverse length replicate]. unfold mbind at 1, tx_bind at 1.
    change (fire_row (RJob j) db) with (inr ([] : list row, drop_jobs [j] db) : sqlstate + (list row * DB)).
    cbv iota. unfold mbind at 1, tx_bind at 1. rewrite IH. done.
  - rewrite fmap_cons. cbn [traverse length Nat.add replicate app]. unfold mbind at 1, tx_bind at 1.
    destruct (fire_schedule s db Hv) as [-> Hv']. unfold mbind at 1, tx_bind at 1. rewrite IH by done. done.
Qed.

Section queue.
Context (q p : uuid).

Definition in_queue (j : Job) : bool := bool_decide (project_id j = p) && bool_decide (queue_id j = q).
Definition has_job (db : DB) (i : uuid) : Prop := ∃ j, jobs db !! i = Some j ∧ in_queue j = true.

#[export] Instance has_job_dec db i : Decision (has_job db i).
Proof.
  destruct (jobs db !! i) as [j|] eqn:Hj; [|right; intros (j & ? & _); congruence].
  destruct (in_queue j) eqn:Hq; [left; by exists j|right; intros (j' & ? & ?); congruence].
Defined.

Definition scheduled_by (ss : list uuid) (j : Job) : bool :=
  from_option (λ s, bool_decide (s ∈ ss)) false (schedule_id j).

Lemma lookup_forget ss m i :
  forget_schedules ss m !! i = (λ j, if scheduled_by ss j then no_schedule j else j) <$> m !! i.
Proof.
  unfold forget_schedules. revert m. induction ss as [|s ss IH]; intros m; simpl.
  { destruct (m !! i) as [j|]; [|done]. simpl. unfold scheduled_by. by destruct (schedule_id j). }
  rewrite IH. unfold flip, forget_schedule. rewrite lookup_rewritten. destruct (m !! i) as [j|]; [|done]. simpl.
  f_equal. unfold scheduled_by. destruct (schedule_id j) as [s'|] eqn:Hs; simpl; [|by rewrite Hs].
  case_bool_decide as E; simpl.
  - injection E as ->. by rewrite (bool_decide_eq_true_2 (s ∈ s :: ss)) by (by left).
  - rewrite Hs. simpl. assert (bool_decide (s' ∈ ss) = bool_decide (s' ∈ s :: ss)) as ->; [|done].
    apply bool_decide_ext. rewrite elem_of_cons. split; [by right|]. intros [->|?]; [by destruct E|done].
Qed.

Lemma foldl_delete {V} (m : gmap uuid V) js i :
  foldl (λ m j, delete j m) m js !! i = if decide (i ∈ js) then None else m !! i.
Proof.
  revert m. induction js as [|j js IH]; intros m; [done|]. cbn [foldl].
  rewrite IH, lookup_delete. destruct (decide (i ∈ js)); [by rewrite decide_True by (by right)|].
  destruct (decide (j = i)) as [->|]; [by rewrite decide_True by (by left)|]. rewrite decide_False; [done|].
  by intros [->|?]%elem_of_cons.
Qed.

Lemma foldl_deps (d : gset (uuid * uuid)) js e :
  (e ∈ foldl (λ d j, filter (λ e : uuid * uuid, e.2 ≠ j) (filter (λ e : uuid * uuid, e.1 ≠ j) d)) d js) ↔
  ((e ∈ d) ∧ (e.1 ∉ js) ∧ (e.2 ∉ js)).
Proof.
  revert d. induction js as [|j js IH]; intros d; simpl.
  - split; [|tauto]. intros He. split_and!; [done|apply not_elem_of_nil..].
  - rewrite IH, !elem_of_filter, !not_elem_of_cons. tauto.
Qed.

(** The first round, trigger by trigger. *)
Definition strip_schedules (db : DB) : DB :=
  db <| schedules := filter (λ kv : uuid * Schedule, bool_decide (sc_queue_id kv.2 = q) = false) (schedules db) |>.
Definition strip_jobs (db : DB) : DB :=
  db <| jobs := filter (λ kv : uuid * Job, in_queue kv.2 = false) (jobs db) |>.
Definition strip_workers (db : DB) : DB :=
  db <| worker_queues := filter (λ k : uuid * uuid, k.2 ≠ q) (worker_queues db) |>.
Definition strip_keys (db : DB) : DB :=
  db <| idem_keys := filter (λ kv : uuid * string * IdemKey, kv.1.1 ≠ q) (idem_keys db) |>.
Definition strip_stats (db : DB) : DB :=
  db <| stats := filter (λ kv : uuid * Z * Stat, kv.1.1 ≠ q) (stats db) |>.
Definition strip_shards (db : DB) : DB :=
  db <| queue_shards := filter (λ kv : uuid * Z * Shard, kv.1.1 ≠ q) (queue_shards db) |>.
Definition strip_summary (db : DB) : DB := db <| summaries := delete q (summaries db) |>.
Definition strip_queue (db : DB) : DB :=
  strip_summary (strip_shards (strip_stats (strip_keys (strip_workers (strip_jobs (strip_schedules db)))))).

Definition schedules_of (db : DB) : list uuid :=
  (merge_sort by_id (select (λ _ s, bool_decide (sc_queue_id s = q)) (schedules db))).*1.
Definition jobs_of (db : DB) : list uuid := (merge_sort by_id (select (λ _, in_queue) (jobs db))).*1.

Lemma fire_queue db :
  fire_round [RQueue q p] db = inr ((RSchedule <$> schedules_of db) ++ (RJob <$> jobs_of db), strip_queue db).
Proof.
  assert (fire_row (RQueue q p) db =
    inr (((λ kv : uuid * Schedule, RSchedule kv.1) <$>
            merge_sort by_id (select (λ _ s, bool_decide (sc_queue_id s = q)) (schedules db))) ++
         ((λ kv : uuid * Job, RJob kv.1) <$> merge_sort by_id (select (λ _, in_queue) (jobs db))) ++ [], strip_queue db))
    as Hf.
  { assert (∃ out, traverse (triggers (RQueue q p)) id db = inr (out, strip_queue db) ∧
      concat out = ((λ kv : uuid * Schedule, RSchedule kv.1) <$>
            merge_sort by_id (select (λ _ s, bool_decide (sc_queue_id s = q)) (schedules db))) ++
         ((λ kv : uuid * Job, RJob kv.1) <$> merge_sort by_id (select (λ _, in_queue) (jobs db))) ++ []) as (out & Hout & Hc).
    { eexists. split; [cbn [triggers]|].
      - eapply traverse_run; [exact (eq_refl : _ = inr (_, strip_schedules db))|].
        eapply traverse_run; [exact (eq_refl : _ = inr (_, strip_jobs (strip_schedules db)))|].
        eapply traverse_run; [exact (eq_refl : _ = inr ([], strip_workers _))|].
        eapply traverse_run; [exact (eq_refl : _ = inr ([], strip_keys _))|].
        eapply traverse_run; [exact (eq_refl : _ = inr ([], strip_stats _))|].
        eapply traverse_run; [exact (eq_refl : _ = inr ([], strip_shards _))|].
        eapply traverse_run; [exact (eq_refl : _ = inr ([], strip_summary _))|]. reflexivity.
      - cbn [concat]. rewrite !app_nil_r. reflexivity. }
    unfold fire_row, mbind, tx_bind. rewrite Hout, Hc. reflexivity. }
  unfold fire_round. cbn [traverse]. unfold mbind, tx_bind. rewrite Hf. cbn [mret tx_ret concat].
  unfold mret, tx_ret. rewrite !app_nil_r. unfold schedules_of, jobs_of. by rewrite <- !list_fmap_compose.
Qed.

Lemma delete_queue_db env db qr :
  queues db !! q = Some qr → q_project_id qr = p → rows_ok db →
  let db1 := strip_queue (db <| queues := delete q (queues db) |>) in
  deleteQueueSQL q env db =
    inr (tt, drop_jobs (jobs_of db) (db1 <| jobs := forget_schedules (schedules_of db) (jobs db1) |>)).
Proof.
  intros Hq Hp Hv db1. unfold deleteQueueSQL, mbind at 1, tx_bind at 1, gets. rewrite Hq, Hp.
  unfold mbind at 1, tx_bind at 1, modify. unfold max_rounds. rewrite cascade_round by done.
  unfold mbind at 1, tx_bind at 1. rewrite fire_queue. fold db1.
  change (schedules_of (db <| queues := delete q (queues db) |>)) with (schedules_of db).
  change (jobs_of (db <| queues := delete q (queues db) |>)) with (jobs_of db).
  assert (rows_ok db1) as Hv1.
  { intros i j Hj. apply map_lookup_filter_Some in Hj as [Hj _]. by apply (Hv i). }
  pose proof (fire_schedules (schedules_of db) (jobs_of db) db1 Hv1) as Hfs.
  destruct ((RSchedule <$> schedules_of db) ++ (RJob <$> jobs_of db)) as [|r rs] eqn:Hrows.
  - apply app_eq_nil in Hrows as [H1%fmap_nil_inv H2%fmap_nil_inv]. rewrite H1, H2. cbn [cascade]. by destruct db.
  - rewrite cascade_round by done. unfold fire_round, mbind, tx_bind. rewrite Hfs.
    assert (∀ n, concat (replicate n []) = ([] : list row)) as Hnil by (by induction n).
    unfold mret, tx_ret. by rewrite Hnil.
Qed.

End queue.

(** ** Theorems *)

(** C40 (functional): what the deletion of a queue leaves.  It always succeeds
    (on rows that are well formed): the queue, its schedules, its shards, its
    failure summary and its jobs are gone, and with the jobs their leases and their dependencies, in both
    directions; jobs of other queues lose a schedule of this one and nothing else;
    executions, dead letters and events stay; and every job is still claimed or
    running exactly when it has a lease. *)
Theorem delete_queue_removes q qr env db :
  queues db !! q = Some qr → rows_ok db →
  let ours := has_job q (q_project_id qr) db in
  ∃ db', deleteQueueSQL q env db = inr (tt, db') ∧ queues db' = delete q (queues db) ∧
    (∀ i s, schedules db' !! i = Some s ↔ schedules db !! i = Some s ∧ sc_queue_id s ≠ q) ∧
    (∀ k s, queue_shards db' !! k = Some s ↔ queue_shards db !! k = Some s ∧ k.1 ≠ q) ∧
    (∀ i, jobs db' !! i = if decide (ours i) then None
       else (λ j, if scheduled_by (schedules_of q db) j then no_schedule j else j) <$> jobs db !! i) ∧
    (∀ i, leases db' !! i = if decide (ours i) then None else leases db !! i) ∧
    (∀ d, d ∈ deps db' ↔ (d ∈ deps db ∧ ¬ ours d.1 ∧ ¬ ours d.2)) ∧
    summaries db' = delete q (summaries db) ∧
    execs db' = execs db ∧ dead_letters db' = dead_letters db ∧ events db' = events db ∧
    (lease_inv db → lease_inv db').
Proof.
  intros Hq Hv ours. set (p := q_project_id qr) in *.
  assert (∀ i, i ∈ jobs_of q p db ↔ ours i) as Hours.
  { intros i. unfold jobs_of. rewrite merge_sort_Permutation. by rewrite elem_of_select_fst. }
  eexists. split; [by apply (delete_queue_db q p env db qr)|].
  set (db1 := strip_queue q p (db <| queues := delete q (queues db) |>)).
  set (db' := drop_jobs (jobs_of q p db) _).
  assert (∀ i, jobs db' !! i = if decide (ours i) then None
    else (λ j, if scheduled_by (schedules_of q db) j then no_schedule j else j) <$> jobs db !! i) as Hjobs.
  { intros i. change (jobs db') with (forget_schedules (schedules_of q db)
      (filter (λ kv : uuid * Job, in_queue q p kv.2 = false) (jobs db))). rewrite lookup_forget.
    case_decide as Ho.
    - destruct Ho as (j & Hj & Hin). apply fmap_None, map_lookup_filter_None. right. intros x Hx. simpl. congruence.
    - f_equal. destruct (jobs db !! i) as [j|] eqn:Hj.
      + apply map_lookup_filter_Some. split; [done|]. simpl. apply not_true_iff_false. intros Hin. apply Ho. by exists j.
      + apply map_lookup_filter_None. by left. }
  assert (∀ i, leases db' !! i = if decide (ours i) then None else leases db !! i) as Hleases.
  { intros i. change (leases db') with (foldl (λ m j, delete j m) (leases db) (jobs_of q p db)).
    rewrite foldl_delete. by rewrite (decide_ext _ _ _ _ (Hours i)). }
  split_and!; try done.
  - intros i s. change (schedules db') with
      (filter (λ kv : uuid * Schedule, bool_decide (sc_queue_id kv.2 = q) = false) (schedules db)).
    rewrite map_lookup_filter_Some, bool_decide_eq_false. done.
  - intros k s. change (queue_shards db') with (filter (λ kv : uuid * Z * Shard, kv.1.1 ≠ q) (queue_shards db)).
    by rewrite map_lookup_filter_Some.
  - intros d. change (deps db') with (foldl (λ d j, filter (λ e : uuid * uuid, e.2 ≠ j)
      (filter (λ e : uuid * uuid, e.1 ≠ j) d)) (deps db) (jobs_of q p db)). by rewrite foldl_deps, !Hours.
  - intros Hl i. specialize (Hl i). unfold lease_ok in *. rewrite Hjobs, Hleases. case_decide; [done|].
    destruct (jobs db !! i) as [j|]; [|done]. simpl. unfold leased in *. by destruct (scheduled_by _ j).
Qed.

(** Queue 4 has the running job 14. *)
Lemma delete_queue_removes_witness :
  ∃ db', deleteQueueSQL 4 env0 db0 = inr (tt, db') ∧ jobs db' !! 14%N = None ∧ leases db' !! 14%N = None ∧
    execs db' = execs db0.
Proof.
  destruct (delete_queue_removes 4 queue0 env0 db0 eq_refl) as (db' & Hrun & _ & _ & _ & Hj & Hl & _ & _ & He & _).
  - assert (map_Forall (λ _ j, job_in_range j && job_checks j = true) (jobs db0)) as H
      by (apply (bool_decide_unpack _); by vm_compute).
    intros i j Hi. apply H in Hi. by apply andb_true_iff in Hi.
  - assert (has_job 4 (q_project_id queue0) db0 14) as Hh by (by exists running0).
    exists db'. split; [done|]. rewrite (Hj 14%N), (Hl 14%N), decide_True by done. done.
Defined.

(** A deletion comes to an end.  The constraint triggers of a
    deleted row, of whichever table, fire until no row is left whose triggers have
    not fired, or until one of them raises; this takes four rounds at most, so
    that the bound on the rounds is never what ends them. *)
Theorem deletion_rounds r n db :
  (max_rounds ≤ n)%nat →
  fires [r] db (ending (cascade n [r]) db) ∧ cascade n [r] db = cascade max_rounds [r] db.
Proof.
  intros Hn. assert (below_level (S max_rounds) [r]) as Hl
    by (constructor; [destruct r; simpl; unfold max_rounds; lia|constructor]).
  split; [by apply (cascade_fires max_rounds)|by apply cascade_more].
Qed.

Lemma deletion_rounds_witness :
  fires [RQueue 4 2] db0 (ending (cascade max_rounds [RQueue 4 2]) db0) ∧
  cascade 9 [RQueue 4 2] db0 = cascade max_rounds [RQueue 4 2] db0.
Proof.
  destruct (deletion_rounds (RQueue 4 2) max_rounds db0) as [H _]; [unfold max_rounds; lia|].
  destruct (deletion_rounds (RQueue 4 2) 9 db0) as [_ H']; [unfold max_rounds; lia|]. done.
Defined.

(** A project whose workers have run anything cannot be deleted.
    API.md says that deleting an organization removes its projects, their queues
    and every job in them, but [job_executions] keeps its worker
    ([on delete restrict]) and nothing deletes the executions: as long as one of
    them is in the table, an admin who deletes the project, and an owner who
    deletes the organization, is answered 500 (the handlers have no answer for a
    foreign key), and nothing is deleted. *)
Theorem used_project_undeletable parse (r : Request unit) env db sc :
  (verdict parse admin "project" (in_path parse "id" find_project) env r db = inr sc →
   project_has_run (sc_projectID sc) db →
   answer (serve_removal parse (DeleteProject r)) (start db (quiet env)) =
     inr (writeError (rq_id r) (ErrApi internalError)) ∧
   final_db (serve_removal parse (DeleteProject r)) (start db (quiet env)) = db) ∧
  (verdict parse owner "org" (in_path parse "id" find_org) env r db = inr sc →
   is_Some (organizations db !! sc_orgID sc) →
   (∃ p pr, projects db !! p = Some pr ∧ org_id pr = sc_orgID sc ∧ project_has_run p db) →
   answer (serve_removal parse (DeleteOrg r)) (start db (quiet env)) =
     inr (writeError (rq_id r) (ErrApi internalError)) ∧
   final_db (serve_removal parse (DeleteOrg r)) (start db (quiet env)) = db).
Proof.
  split.
  - intros Hv Hrun. apply (guard_raises parse admin "project.delete" "project" _ _ deleteProject r env db sc
      (ErrPg foreign_key_violation) Hv); [done|].
    intros snap. unfold deleteProject. apply reads_bind_err, reads_exec_fails.
    apply deleteProject_refused; [by eapply verdict_project|done].
  - intros Hv Ho (p & pr & Hp & Hpo & Hrun).
    apply (guard_raises parse owner "org.delete" "org" _ _ deleteOrg r env db sc (ErrPg foreign_key_violation) Hv); [done|].
    intros snap. unfold deleteOrg. apply reads_bind_err, reads_exec_fails. by eapply deleteOrg_refused.
Qed.

(** Project 2, on which worker 5 has run job 14. *)
Lemma used_project_undeletable_witness :
  answer (serve_removal (x_uuid_Parse X0) (DeleteProject (request 2 tt))) (start admin_db (quiet env0)) =
    inr (writeError "rid" (ErrApi internalError)).
Proof.
  destruct (used_project_undeletable (x_uuid_Parse X0) (request 2 tt) env0 admin_db (mkScope 6 7 1 2 2 admin)) as [H _].
  apply H.
  - by vm_compute.
  - eexists 5%N, _, 20%N, _. split_and!; by vm_compute.
Defined.
