(* ===== verification/Idempotency.v ===== *)
(** * Idempotency keys

    A submission that carries a key and is repeated, before the key expires,
    returns the job of the first one and creates none. *)

From S2P Require Import Prelude Schema Fl Pool Jobs Api ApiJobs GoLogic Access Fixture System.

#[local] Open Scope string_scope.
#[local] Open Scope list_scope.
#[local] Open Scope Z_scope.

(** ** Inversion of the steps of a transaction *)

Lemma tx_exec_inv {A} (s : Env → sql A) w a w' :
  tx_exec s w = (inr a, w') →
  s (c_env (this_call w)) (w_db w) = inr (a, w_db w') ∧ w' = after_call w (w_db w').
Proof.
  unfold tx_exec. destruct (c_fault (this_call w)); try done.
  destruct (s _ _) as [|[a' db']]; [done|]. by intros [= <- <-].
Qed.

Lemma go_bind_ok {A B} (m : go A) (f : A → go B) w b w' :
  (m ≫= f) w = (inr b, w') → ∃ a w1, m w = (inr a, w1) ∧ f a w1 = (inr b, w').
Proof. intros [(e & _ & [=])|H]%go_bind_inv. exact H. Qed.

Lemma scan_row_ok {A} (o : option A) w a w' : scan_row o w = (inr a, w') → o = Some a ∧ w' = w.
Proof. destruct o; [|done]. by intros [= <- <-]. Qed.

(** Splits the run [H] of [m ≫= f] into the run [Hm] of [m] and the rest. *)
Ltac bind_as H a w1 Hm := apply go_bind_ok in H as (a & w1 & Hm & H).

Section submit.
Context (uuid_Parse : string → option uuid) (uuid_String : uuid → string).
Context (json_Valid : string → bool) (json_canon : string → string).
Context (sha256_hex : string → string).

Abbreviation submit := (submitJob uuid_Parse uuid_String json_Valid json_canon sha256_hex).

(** ** Specification *)

(** The policy a submission is made under. *)
Definition policy_of (req : submitReq) (project defPolicy : uuid) (db : DB) : option uuid :=
  match sr_RetryPolicyID req with
  | None => Some defPolicy
  | Some s => i ← uuid_Parse s; p ← policies db !! i;
              if decide (p_project_id p = project) then Some i else None
  end.

(** The queue takes one more job: no cap, a cap not reached, or a time given. *)
Definition depth_ok (req : submitReq) (q : uuid) (maxDepth : option Z) (db : DB) : bool :=
  match maxDepth, sr_RunAt req with
  | Some m, None => negb (m <=? queued_count q db)
  | _, _ => true
  end.

Definition key_of (r : Request submitReq) : string := TrimSpace (rq_header r "Idempotency-Key").

Definition fingerprint_of (req : submitReq) (qr : Queue) (policy : uuid) : string :=
  fingerprint json_canon sha256_hex (TrimSpace (sr_Type req)) (payload_of (sr_Payload req))
    (default (default_priority qr) (sr_Priority req)) (default 300000 (sr_TimeoutMs req))
    (uuid_String policy) (sr_RunAt req).

(** A well-formed submission to queue [qr]. *)
Record wellformed (r : Request submitReq) (sc : scope) (req : submitReq) (qr : Queue) (policy : uuid) (db : DB)
    : Prop := {
  wf_body : rq_body r = Some req;
  wf_type : TrimSpace (sr_Type req) ≠ "";
  wf_payload : json_Valid (payload_of (sr_Payload req)) = true;
  wf_queue : queues db !! sc_entityID sc = Some qr;
  wf_policy : policy_of req (sc_projectID sc) (q_retry_policy_id qr) db = Some policy;
}.

Definition view_of (i : uuid) (j : Job) : submitView :=
  mkSubmitView i (queue_id j) (jtype j) (status j) (priority j) (run_at j) (created_at j).

(** ** The repeat *)

Lemma reads_policy req project defPolicy policy env db snap :
  policy_of req project defPolicy db = Some policy →
  reads env db snap
    (match sr_RetryPolicyID req with
     | None => mret defPolicy
     | Some s =>
       match uuid_Parse s with
       | None => fail_with (badRequest "invalid retry_policy_id")
       | Some i => _ ← assertPolicyOwned i project; mret i
       end
     end) (inr policy).
Proof.
  unfold policy_of. destruct (sr_RetryPolicyID req) as [s|]; [|intros [= <-]; apply reads_ret].
  destruct (uuid_Parse s) as [i|]; [|done]. simpl. destruct (policies db !! i) as [p|] eqn:Hp; [|done]. simpl.
  destruct (decide _) eqn:Hd; [|done]. intros [= <-].
  eapply (reads_bind _ _ _ _ _ tt); [|apply reads_ret].
  unfold assertPolicyOwned. eapply (reads_bind _ _ _ _ _ (Some tt)); [|apply reads_ret].
  apply reads_exec. unfold policyOwnedSQL, gets. rewrite Hp. simpl. by rewrite Hd.
Qed.

Lemma reads_depth req q maxDepth env db snap :
  depth_ok req q maxDepth db = true →
  reads env db snap
    (match maxDepth, sr_RunAt req with
     | Some m, None =>
       depth ← tx_exec (queuedCountSQL q);
       if m <=? depth then fail_with (tooMany "queue depth cap reached" 1) else mret tt
     | _, _ => mret tt
     end) (inr tt).
Proof.
  unfold depth_ok. destruct maxDepth as [m|]; [|intros _; apply reads_ret].
  destruct (sr_RunAt req); [intros _; apply reads_ret|]. intros Hm.
  eapply reads_bind; [by apply reads_exec|]. destruct (m <=? queued_count q db); [done|apply reads_ret].
Qed.

Lemma reads_submit r sc req qr policy k j env db snap :
  wellformed r sc req qr policy db → depth_ok req (sc_entityID sc) (max_depth qr) db = true →
  key_of r ≠ "" → idem_keys db !! (sc_entityID sc, key_of r) = Some k →
  now env < i_expires_at k → i_fingerprint k = fingerprint_of req qr policy →
  jobs db !! i_job_id k = Some j →
  reads env db snap (submit r sc)
    (inr (mkResult 200 (Some (submit_json (view_of (i_job_id k) j))) (i_job_id k) uuid_Nil None)).
Proof.
  intros [Hb Ht Hp Hq Hpol] Hd Hkey Hk Hexp Hfp Hj. unfold submitJob, decode. rewrite Hb.
  eapply reads_bind; [apply reads_ret|]. cbv beta zeta. rewrite decide_False by done. rewrite Hp. cbn [negb].
  eapply (reads_bind _ _ _ _ _ (q_retry_policy_id qr, default_priority qr, max_depth qr)).
  { eapply (reads_bind _ _ _ _ _ (Some (q_retry_policy_id qr, default_priority qr, max_depth qr)));
      [|apply reads_ret]. apply reads_exec. unfold queueDefaultsSQL, gets. by rewrite Hq. }
  cbv beta iota. eapply reads_bind; [by apply reads_policy|]. eapply reads_bind; [by apply reads_depth|].
  fold (key_of r). cbv beta zeta. rewrite !decide_False by done.
  eapply (reads_bind _ _ _ _ _ (Some (i_job_id k))).
  { unfold lookup_key. eapply (reads_bind _ _ _ _ _ (Some (i_job_id k, i_fingerprint k, i_expires_at k <=? now env))).
    - apply reads_exec. unfold findIdemSQL, gets. by rewrite Hk.
    - cbv beta iota. assert ((i_expires_at k <=? now env) = false) as -> by lia. cbn [negb].
      fold (fingerprint_of req qr policy). rewrite Hfp, bool_decide_eq_true_2 by done. apply reads_ret. }
  cbv beta iota. eapply (reads_bind _ _ _ _ _ (view_of (i_job_id k) j)); [|apply reads_ret].
  unfold loadSubmitView. eapply (reads_bind _ _ _ _ _ (Some (view_of (i_job_id k) j))); [|apply reads_ret].
  apply reads_exec. unfold submitViewSQL, gets. by rewrite Hj.
Qed.

(** ** The first submission *)

(** The tables that decide on a repeat. *)
Definition settings (db : DB) := (queues db, policies db).

Lemma parentIDs_pure l w ps w' : parentIDs uuid_Parse l w = (inr ps, w') → w' = w.
Proof.
  revert ps w'. induction l as [|p l IH]; intros ps w'; simpl; [by intros [= _ <-]|].
  destruct (uuid_Parse p); [|done]. intros H. bind_as H a w1 Hm. apply IH in Hm. injection H as _ <-. done.
Qed.

Lemma link_frame child ps w w' :
  link child ps w = (inr tt, w') →
  jobs (w_db w') = jobs (w_db w) ∧ idem_keys (w_db w') = idem_keys (w_db w) ∧ settings (w_db w') = settings (w_db w).
Proof.
  unfold link. intros H. bind_as H r w1 Hm. unfold caught in Hm.
  destruct (tx_exec (insertDepsSQL ps child) w) as [r0 w0] eqn:Hx. injection Hm as <- <-.
  destruct r0 as [e|[]]; [by destruct (isFKViolation e), (isCheck e)|].
  apply tx_exec_inv in Hx as [Hx _]. bind_as H c w2 Hc. destruct c; [done|]. injection H as <-.
  apply tx_exec_inv in Hc as [Hc _]. injection Hc as _ Hc. rewrite <- Hc. clear Hc.
  unfold insertDepsSQL in Hx. apply tx_bind_inv in Hx as ([] & db1 & Hi & Hk).
  assert (w_db w0 = db1) as -> by (unfold gets, mbind, tx_bind in Hk; by destruct (forallb _ _); [injection Hk|]).
  revert Hi. generalize (w_db w). clear. induction ps as [|p ps IH]; intros db; simpl; [by intros [= <-]|].
  destruct (decide (p = child)); [done|]. unfold gets. unfold mbind at 1, tx_bind at 1.
  destruct (decide _); [done|]. unfold mbind, tx_bind, modify. by intros (-> & -> & ->)%IH.
Qed.

(** The insert of a submission with a key: the job and the key are there, the
    settings as they were. *)
Lemma insert_submitted_key sc typ pl key fp prio timeout policy req w res w' :
  key ≠ "" →
  insert_submitted uuid_Parse sc typ pl key fp prio timeout policy req w = (inr res, w') →
  settings (w_db w') = settings (w_db w) ∧ is_Some (jobs (w_db w') !! r_entityID res) ∧
  ∃ k, idem_keys (w_db w') !! (sc_entityID sc, key) = Some k ∧ i_job_id k = r_entityID res ∧ i_fingerprint k = fp.
Proof.
  intros Hkey H. unfold insert_submitted in H.
  bind_as H ps w1 Hps. apply parentIDs_pure in Hps as ->.
  bind_as H pending w2 Hpend.
  assert (w_db w2 = w_db w) as Hdb2.
  { destruct (decide (ps = [])); [by injection Hpend as _ <-|]. apply tx_exec_inv in Hpend as [Hx _]. by injection Hx. }
  bind_as H row w3 Hins. destruct row as [[[i st] at_] cr]. apply tx_exec_inv in Hins as [Hins _].
  unfold insertJobSQL in Hins. apply tx_bind_inv in Hins as ([] & db1 & Hj & Hret). injection Hret as <- <- <- <- Hdb3.
  unfold insert_job in Hj. destruct (negb _); [done|]. destruct (negb _); [done|]. destruct (_ || _); [done|].
  injection Hj as Hj. rewrite (decide_False (P := key = "")) in H by done.
  bind_as H u w4 Hidem. bind_as Hidem r0 w5 Hc. unfold caught in Hc.
  destruct (tx_exec (insertIdemSQL _ _ _ _) w3) as [r1 w6] eqn:Hx. injection Hc as <- <-.
  destruct r1 as [e|[]]; [by destruct (isUnique e)|]. injection Hidem as <- <-.
  apply tx_exec_inv in Hx as [Hx _]. unfold insertIdemSQL in Hx. destruct (decide (is_Some _)); [done|]. injection Hx as Hx.
  bind_as H u2 w7 Hlink.
  assert (jobs (w_db w7) = jobs (w_db w6) ∧ idem_keys (w_db w7) = idem_keys (w_db w6) ∧
          settings (w_db w7) = settings (w_db w6)) as (Hj7 & Hk7 & Hs7).
  { destruct (decide (ps = [])); [by injection Hlink as _ <-|]. destruct u2. by apply link_frame in Hlink. }
  bind_as H u3 w8 Hemit. apply tx_exec_inv in Hemit as [He _]. injection He as _ He. injection H as <- <-. simpl.
  rewrite <- He. simpl. unfold settings in *. simpl. rewrite Hj7, Hk7, Hs7, <- Hx, <- Hdb3, <- Hj. simpl.
  rewrite Hdb2. split; [done|]. rewrite !lookup_insert_eq. eauto.
Qed.

Lemma lookup_key_settings q key fp w o w' :
  lookup_key q key fp w = (inr o, w') → settings (w_db w') = settings (w_db w).
Proof.
  unfold lookup_key. intros H. bind_as H row w1 Hf. apply tx_exec_inv in Hf as [Hf _]. injection Hf as _ Hf.
  destruct row as [[[ex sfp] expired]|]; [|by injection H as _ <-; rewrite <- Hf].
  destruct expired; simpl in H.
  - bind_as H u w2 Hd. apply tx_exec_inv in Hd as [Hd _]. injection Hd as _ Hd. injection H as _ <-.
    by rewrite <- Hd, <- Hf.
  - destruct (negb _); [done|]. by injection H as _ <-; rewrite <- Hf.
Qed.

(** What a first submission was made under. *)
Lemma submit_inv r sc w res w' :
  submit r sc w = (inr res, w') → key_of r ≠ "" → r_status res = 201 →
  ∃ req qr policy k, wellformed r sc req qr policy (w_db w') ∧ is_Some (jobs (w_db w') !! r_entityID res) ∧
    idem_keys (w_db w') !! (sc_entityID sc, key_of r) = Some k ∧ i_job_id k = r_entityID res ∧
    i_fingerprint k = fingerprint_of req qr policy.
Proof.
  intros H Hkey H201. unfold submitJob in H.
  bind_as H req w1 Hdec. unfold decode in Hdec. destruct (rq_body r) as [req'|] eqn:Hb; [|done].
  injection Hdec as -> <-. cbv zeta in H. destruct (decide (TrimSpace (sr_Type req) = "")) as [|Ht]; [done|].
  destruct (json_Valid (payload_of (sr_Payload req))) eqn:Hv; [|done]. cbn [negb] in H.
  bind_as H row w2 Hq. bind_as Hq o w3 Hq2. apply scan_row_ok in Hq as [-> ->].
  apply tx_exec_inv in Hq2 as [Hq2 _]. unfold queueDefaultsSQL, gets in Hq2. injection Hq2 as Hq2 Hdb3.
  destruct (queues (w_db w) !! sc_entityID sc) as [qr|] eqn:Hqr; [|done]. injection Hq2 as <-.
  bind_as H policy w4 Hpol.
  assert (w_db w4 = w_db w ∧ policy_of req (sc_projectID sc) (q_retry_policy_id qr) (w_db w) = Some policy) as [Hdb4 Hpo].
  { unfold policy_of. destruct (sr_RetryPolicyID req) as [s|]; [|injection Hpol as <- <-; done].
    destruct (uuid_Parse s) as [i|]; [|done]. bind_as Hpol u w5 Has. injection Hpol as <- <-.
    unfold assertPolicyOwned in Has. bind_as Has o w6 Hx. apply tx_exec_inv in Hx as [Hx _].
    unfold policyOwnedSQL, gets in Hx. injection Hx as Hx Hdb6. rewrite <- Hdb3 in Hx. simpl.
    destruct o as [u'|]; [|done]. injection Has as <-. destruct (policies (w_db w) !! i) as [p|]; [|done].
    simpl in *. destruct (decide _); [|done]. split; [congruence|done]. }
  bind_as H u w5 Hdep.
  assert (w_db w5 = w_db w4) as Hdb5.
  { destruct (max_depth qr); [|by injection Hdep as _ <-]. destruct (sr_RunAt req); [by injection Hdep as _ <-|].
    bind_as Hdep n w6 Hx. apply tx_exec_inv in Hx as [Hx _]. injection Hx as _ Hx.
    destruct (_ <=? n); [done|]. injection Hdep as _ <-. congruence. }
  fold (key_of r) in H. cbv zeta in H. rewrite !decide_False in H by done.
  bind_as H hit w6 Hlook. apply lookup_key_settings in Hlook.
  destruct hit as [i|].
  { bind_as H v w7 Hload. injection H as <- _. done. }
  apply insert_submitted_key in H as (Hset & Hjob & k & Hk & Hki & Hkf); [|done].
  assert (settings (w_db w') = settings (w_db w)) as [= Hqs Hps] by congruence.
  exists req, qr, policy, k. split; [|done]. split; [done|done|done|by rewrite Hqs|].
  unfold policy_of in *. by rewrite Hps.
Qed.

End submit.

(** ** Theorem *)


(** A submission to queue 4 with the key order-1. *)
Definition keyed : Request submitReq :=
  mkRequest submitReq (λ h, if decide (h = "Idempotency-Key") then "order-1" else "")
    None [] (λ _, text 4) (λ _, "") (Some (mkSubmitReq "send" "" None None None None [])) "rid".
Definition scope0 : scope := mkScope 6 7 1 2 4 member.
Abbreviation submit0 :=
  (submitJob (x_uuid_Parse X0) (x_uuid_String X0) (x_json_Valid X0) (x_json_canon X0) (x_sha256_hex X0)
    keyed scope0).
Definition w_tx : World := mkWorld db0 (Some db0) (quiet env0) 1.

