(* ===== verification/Sweeps.v ===== *)
(** * The promoter and the repair of the counters finish their work *)

From S2P Require Import Prelude Schema Fl Pool Jobs Sched Slots Reports Progress Batch Fixture.

(** ** Promotion *)

Lemma due_writable env i j : fit env j → due env i j = true → writable queued_row j.
Proof.
  intros [Hck Hr _] Hd. unfold due in Hd. rewrite !andb_true_iff in Hd. destruct Hd as [[[Hs _] Hp] _].
  apply checks_facts in Hck as [Ha Hc _ Hi].
  assert (is_idle (status j) = true) as Hidle by (by destruct (status j)). destruct (Hi Hidle) as [Hw Hf].
  split; [exact Hr|]. split.
  - apply fsm_ok; [simpl; lia|]. right. simpl. by destruct (status j).
  - apply checks_waiting; simpl; try done. lia.
Qed.

(** The rows [promoteSelectSQL] returns. *)
Definition promoted (env : Env) (limit : Z) (db : DB) : list uuid :=
  take (Z.to_nat limit) (merge_sort (by_key (λ r : uuid * Job, run_at r.2)) (select (due env) (jobs db))).*1.

Lemma promoted_spec env limit db :
  NoDup (promoted env limit db) ∧
  (∀ i, i ∈ promoted env limit db → ∃ j, jobs db !! i = Some j ∧ due env i j = true) ∧
  ((length (select (due env) (jobs db)) ≤ Z.to_nat limit)%nat →
     ∀ i j, jobs db !! i = Some j → due env i j = true → i ∈ promoted env limit db) ∧
  (length (promoted env limit db) = Nat.min (Z.to_nat limit) (length (select (due env) (jobs db))))%nat.
Proof.
  unfold promoted. split_and!.
  - eapply sublist_NoDup; [|apply sublist_take]. rewrite merge_sort_Permutation. apply NoDup_select.
  - intros i Hi. by apply elem_of_limit_fst in Hi.
  - intros Hlim i j Hj Hd. rewrite take_ge by (rewrite length_fmap, merge_sort_Permutation; done).
    rewrite merge_sort_Permutation. apply elem_of_select_fst. eauto.
  - by rewrite length_take, length_fmap, merge_sort_Permutation.
Qed.

(** Every [ids] that names a row, with its project. *)
Lemma omap_known (ids : list uuid) (m : gmap uuid Job) :
  (∀ i, i ∈ ids → is_Some (m !! i)) →
  (omap (λ i, j ← m !! i; Some (i, project_id j)) ids).*1 = ids.
Proof.
  induction ids as [|i ids IH]; intros H; [done|]. simpl.
  destruct (H i) as [j Hj]; [left|]. rewrite Hj. simpl. f_equal. apply IH. intros k Hk. apply H. by right.
Qed.

Lemma promoteUpdate_runs env ids db :
  NoDup ids → (∀ i j, jobs db !! i = Some j → fit env j) →
  (∀ i, i ∈ ids → ∃ j, jobs db !! i = Some j ∧ due env i j = true) →
  ∃ db', promoteUpdateSQL ids env db = inr (Z.of_nat (length ids), db') ∧
    (∀ i, i ∈ ids → jobs db' !! i = queued_row <$> jobs db !! i) ∧
    (∀ i, i ∉ ids → jobs db' !! i = jobs db !! i) ∧
    leases db' = leases db ∧ dead_letters db' = dead_letters db.
Proof.
  intros Hnd Hfit Hdue. unfold promoteUpdateSQL, gets. unfold mbind at 1, tx_bind at 1.
  set (rows := omap (λ i, j ← jobs db !! i; Some (i, project_id j)) ids).
  assert (rows.*1 = ids) as Hrows.
  { apply omap_known. intros i Hi. destruct (Hdue i Hi) as (j & Hj & _). eauto. }
  assert (∃ db1, foreach rows (λ r : uuid * uuid, update_job r.1 queued_row) db = inr (tt, db1) ∧
    (∀ i, i ∈ ids → jobs db1 !! i = queued_row <$> jobs db !! i) ∧
    (∀ i, i ∉ ids → jobs db1 !! i = jobs db !! i) ∧ db1 = db <| jobs := jobs db1 |>) as (db1 & Hrun & Hin & Hout & Hfr).
  { assert (∀ f : uuid → sql unit, foreach rows (λ r : uuid * uuid, f r.1) = foreach rows.*1 f) as Hmap.
    { intros f. clear. induction rows as [|r l IH]; [done|]. simpl. by rewrite IH. }
    rewrite (Hmap (λ i, update_job i queued_row)), Hrows.
    destruct (update_ids_ok queued_row ids db Hnd) as [db1 H1].
    - intros i j Hi Hj. destruct (Hdue i Hi) as (j' & Hj' & Hd). rewrite Hj in Hj'. injection Hj' as <-.
      eapply due_writable; eauto.
    - exists db1. split; [done|]. apply (update_each ids id (λ _, queued_row)) in H1 as (Hfr & Hin & Hout);
        rewrite list_fmap_id in *; done. }
  unfold mbind at 1, tx_bind at 1. rewrite Hrun.
  destruct (foreach_frame (λ db, (jobs db, leases db, dead_letters db)) rows
    (λ r : uuid * uuid, emit env "job.queued" r.1 r.2 []) db1) as (db2 & H2 & Hj2); [by eexists|].
  injection Hj2 as Hj2 Hl2 Hd2. unfold mbind, tx_bind. rewrite H2. exists db2. rewrite Hj2, Hl2, Hd2.
  split; [by rewrite <- Hrows, length_fmap|]. split; [done|]. split; [done|]. by rewrite Hfr.
Qed.

(** Nothing due stays behind.  With its calls answered and nobody
    else at work, [Promote] queues the due jobs - the earliest first, up to the
    limit - and answers their number; no other job changes, nor any lease or dead letter; and if the limit
    covers them, no scheduled or retrying job without dependencies is left that
    is due. *)
Theorem promote_queues_due env limit db :
  (∀ i j, jobs db !! i = Some j → fit env j) →
  let w := start db (quiet env) in
  let ids := promoted env limit db in
  let db' := final_db (Promote limit) w in
  answer (Promote limit) w = inr (Z.of_nat (length ids)) ∧
  (∀ i, i ∈ ids → jobs db' !! i = queued_row <$> jobs db !! i) ∧
  (∀ i, i ∉ ids → jobs db' !! i = jobs db !! i) ∧
  leases db' = leases db ∧ dead_letters db' = dead_letters db ∧
  ((length (select (due env) (jobs db)) ≤ Z.to_nat limit)%nat →
     ∀ i j, jobs db' !! i = Some j → due env i j = false).
Proof.
  intros Hfit w ids db'. destruct (promoted_spec env limit db) as (Hnd & Hdue & Hall & _). fold ids in Hnd, Hdue, Hall.
  destruct (promoteUpdate_runs env ids db Hnd Hfit Hdue) as (db1 & Hrun & Hin & Hout & Hl & Hdl).
  assert (∃ dbx k, Promote limit w = (inr (Z.of_nat (length ids)), mkWorld dbx None (quiet env) k) ∧
    (∀ i, i ∈ ids → jobs dbx !! i = queued_row <$> jobs db !! i) ∧
    (∀ i, i ∉ ids → jobs dbx !! i = jobs db !! i) ∧
    leases dbx = leases db ∧ dead_letters dbx = dead_letters db) as (dbx & k & Heq & Hinx & Houtx & Hlx & Hdx).
  { unfold Promote, with_tx, begin_tx. unfold mbind at 1, go_bind at 1. simpl. unfold deferring_rollback.
    unfold mbind at 1, go_bind at 1. unfold tx_exec at 1, this_call at 1 2. simpl.
    fold (promoted env limit db). fold ids. clearbody ids.
    destruct ids as [|i0 ids0].
    - eexists db, _. split; [done|]. split; [by intros i ?%elem_of_nil|done].
    - unfold mbind, go_bind. unfold tx_exec, this_call. cbn -[promoteUpdateSQL]. rewrite Hrun. simpl.
      eexists db1, _. split; [done|]. by split. }
  subst db'. unfold answer, final_db. rewrite Heq. simpl. do 5 (split; [done|]).
  intros Hlim i j Hj. apply not_true_iff_false. intros Hd.
  destruct (decide (i ∈ ids)) as [Hi|Hi].
  - rewrite (Hinx i Hi) in Hj. destruct (jobs db !! i) as [j0|]; [|done]. injection Hj as <-. done.
  - rewrite (Houtx i Hi) in Hj. apply Hi. by apply (Hall Hlim i j).
Qed.

(** A retry that is due since [t0 + 1]. *)
Definition db_retry : DB :=
  db0 <| jobs := <[17%N := (job0 "send" 0 (t0 + 1)) <| status := js_retry_wait |>]> (jobs db0) |>.

Lemma promote_queues_due_witness :
  answer (Promote 10) (start db_retry (quiet (later 5))) = inr 1 ∧
  ∀ i j, jobs (final_db (Promote 10) (start db_retry (quiet (later 5)))) !! i = Some j →
    due (later 5) i j = false.
Proof.
  destruct (promote_queues_due (later 5) 10 db_retry) as (Ha & _ & _ & _ & _ & Hnone).
  { apply (rd_jobs (later 5) db_retry). by apply check_ready_spec. }
  split; [exact Ha|]. apply Hnone. vm_compute. lia.
Defined.

(** ** Reconciliation *)

(** What a run over [ks] makes of the counters. *)
Record recounted (ks : list (uuid * Z)) (db db' : DB) : Prop := {
  rc_frame : db' = db <| queue_shards := queue_shards db' |>;
  rc_in k : k ∈ ks → queue_shards db' !! k = (λ r, r <| in_flight := active_on k.1 k.2 db |>) <$> queue_shards db !! k;
  rc_out k : k ∉ ks → queue_shards db' !! k = queue_shards db !! k;
}.

Lemma reconcile_shard_runs k db :
  ∃ n db', reconcile_shard k db = inr (n, db') ∧ recounted [k] db db'.
Proof.
  unfold reconcile_shard. destruct (queue_shards db !! k) as [r|] eqn:Hk.
  - destruct (in_flight r =? active_on k.1 k.2 db) eqn:He; eexists _, _; (split; [done|]).
    + split; [by destruct db| |done]. intros k' ->%list_elem_of_singleton. rewrite Hk. simpl. f_equal.
      apply Z.eqb_eq in He. rewrite <- He. by destruct r.
    + split; [by destruct db| |]; simpl.
      * intros k' ->%list_elem_of_singleton. by rewrite lookup_insert_eq, Hk.
      * intros k' Hne. rewrite list_elem_of_singleton in Hne. by rewrite lookup_insert_ne.
  - eexists _, _. split; [done|]. split; [by destruct db| |done].
    intros k' ->%list_elem_of_singleton. by rewrite Hk.
Qed.

Lemma reconcile_loop ks db :
  NoDup ks → ∃ ns db', traverse ks reconcile_shard db = inr (ns, db') ∧ recounted ks db db'.
Proof.
  revert db. induction ks as [|k ks IH]; intros db Hnd; simpl.
  { exists [], db. split; [done|]. split; [by destruct db|by intros k ?%elem_of_nil|done]. }
  apply list.NoDup_cons in Hnd as [Hni Hnd].
  destruct (reconcile_shard_runs k db) as (n & db1 & H1 & [Hf1 Hi1 Ho1]).
  destruct (IH db1 Hnd) as (ns & db2 & H2 & [Hf2 Hi2 Ho2]).
  assert (∀ q s, active_on q s db1 = active_on q s db) as Hact by (intros q s; by rewrite Hf1).
  exists (n :: ns), db2. split; [unfold mbind, tx_bind; by rewrite H1, H2|]. split.
  - rewrite Hf2, Hf1. by destruct db.
  - intros k' [->|Hin]%elem_of_cons.
    + rewrite (Ho2 k Hni). apply Hi1. left.
    + rewrite (Hi2 k' Hin), Hact, Ho1; [done|]. rewrite list_elem_of_singleton. by intros ->.
  - intros k' [Hne Hn]%not_elem_of_cons. rewrite (Ho2 k' Hn). apply Ho1. by rewrite list_elem_of_singleton.
Qed.

(** Reconciliation repairs the counters.  It always goes
    through, and afterwards the counter of every shard is the number of jobs that
    hold one of its slots; nothing else changes, the buckets included. *)
Theorem reconcile_exact db :
  ∃ n db', reconcile_in_flight db = inr (n, db') ∧
    db' = db <| queue_shards := queue_shards db' |> ∧
    ∀ k r, queue_shards db' !! k = Some r →
      in_flight r = active_on k.1 k.2 db' ∧
      ∃ r0, queue_shards db !! k = Some r0 ∧ rl_tokens r = rl_tokens r0 ∧ rl_refilled_at r = rl_refilled_at r0.
Proof.
  destruct (reconcile_loop (map_to_list (queue_shards db)).*1 db) as (ns & db' & Hrun & [Hf Hi Ho]).
  { apply NoDup_fst_map_to_list. }
  exists (foldr Z.add 0 ns), db'. split.
  { unfold reconcile_in_flight, gets, mbind, tx_bind. unfold mbind, tx_bind in Hrun. by rewrite Hrun. }
  split; [done|]. intros k r Hk.
  destruct (queue_shards db !! k) as [r0|] eqn:Hk0.
  - assert (k ∈ (map_to_list (queue_shards db)).*1) as Hin.
    { apply list_elem_of_fmap. exists (k, r0). split; [done|]. by apply elem_of_map_to_list. }
    rewrite (Hi k Hin), Hk0 in Hk. injection Hk as <-. simpl. split; [by rewrite Hf|]. by exists r0.
  - rewrite Ho, Hk0 in Hk; [done|]. intros ([k' r'] & -> & Hin%elem_of_map_to_list)%list_elem_of_fmap. simpl in *.
    congruence.
Qed.
