(* ===== verification/Recovery.v ===== *)
(** * The jobs of a worker that died

    The reaper and the promoter at work one after the other: the way of a job whose
    worker died back into the queue, or to the dead letters. *)

From S2P Require Import Prelude Schema Fl Pool Jobs Sched Slots Reports Progress Reaping Batch Sweeps Fixture.

#[local] Open Scope Z_scope.

(** A later moment, for the rows that were there before. *)
Lemma ready_fit_later env env' db i j :
  ready env db → now env ≤ now env' → jobs db !! i = Some j → fit env' j.
Proof. intros [Hj _] Hle Hi. destruct (Hj i j Hi). split; [done|done|lia]. Qed.

(** The row of a job that lost its worker and may try again is due by the end of
    the longest delay. *)
Lemma lost_due env env' rp j i :
  fit env j → is_active (status j) = true → policy_ok rp → draw_ok env →
  exhausted false rp j = false → now env + max_delay_ms rp * 1000 ≤ now env' → i ∉ locked env' →
  due env' i (failed_row env false rp j) = true.
Proof.
  intros [Hck _ _] Ha [Hb Hm] Hdraw Hx Hle Hnl. apply checks_facts in Hck as [_ _ Hp _].
  pose proof (backoff_bounds env (kind rp) (base_delay_ms rp) (max_delay_ms rp) (jitter rp) (attempt_count j) Hb Hm Hdraw).
  pose proof (backoff_ms_bounds (kind rp) (base_delay_ms rp) (max_delay_ms rp) (attempt_count j) Hb Hm).
  unfold due, failed_row. rewrite Hx. simpl. rewrite Hp by (by intros E; rewrite E in Ha).
  rewrite bool_decide_eq_true_2 by done. rewrite andb_true_r, Z.eqb_refl, andb_true_r. lia.
Qed.

(** A job back in the queue: anyone who asks for its queue and type can have it. *)
Definition requeued (env : Env) (i : uuid) (j j' : Job) : Prop :=
  status j' = js_queued ∧ worker_id j' = None ∧ finished_at j' = None ∧
  fence j' = fence j ∧ attempt_count j' = attempt_count j ∧
  ∀ types, from_option (λ ts, jtype j ∈ ts) True types → eligible env (queue_id j) types i j' = true.

Lemma lost_requeued env env' rp j i :
  exhausted false rp j = false → due env' i (failed_row env false rp j) = true →
  requeued env' i j (queued_row (failed_row env false rp j)).
Proof.
  intros Hx Hd. unfold due in Hd. rewrite !andb_true_iff in Hd. destruct Hd as [[[_ Hr] _] Hl].
  unfold failed_row in *. rewrite Hx in *. simpl in *. do 5 (split; [done|]). intros types Ht. unfold eligible. simpl.
  rewrite Hr, Hl, !bool_decide_eq_true_2 by done. simpl. rewrite andb_true_r.
  destruct types; [|done]. by apply bool_decide_eq_true.
Qed.

(** What became of a lost job. *)
Definition recovered (env env' : Env) (rp : Policy) (i : uuid) (j : Job) (db : DB) : Prop :=
  leases db !! i = None ∧
  ∃ j', jobs db !! i = Some j' ∧
    if attempt_count j <? max_attempts rp then requeued env' i j j'
    else status j' = js_dead_letter ∧ worker_id j' = None ∧ finished_at j' = Some (now env) ∧
         is_Some (dead_letters db !! i).

(** C17 (liveness): the job of a worker that died is worked on again.  Let the
    reaper run once after a lease expired, and the promoter once when the longest
    delay of the job's retry policy is over, each with a limit that covers its work
    and its calls answered.  Then the job has no lease and no owner: while it has
    attempts left it is queued, with the fence it had, and every worker of its queue
    that takes its type may claim it; otherwise it ended as a dead letter, with its
    record - unless it depends on another lost job, whose death cancels it. *)
Theorem lost_job_recovered env env' limit limit' db i l j rp :
  ready env db → policed db → covers env limit db →
  leases db !! i = Some l → expired env db i l = true →
  jobs db !! i = Some j → policies db !! retry_policy_id j = Some rp → policy_ok rp → draw_ok env →
  apart (losses env limit db) db i →
  now env + max_delay_ms rp * 1000 ≤ now env' → i ∉ locked env' →
  let db1 := final_db (Reap limit) (start db (quiet env)) in
  (length (select (due env') (jobs db1)) ≤ Z.to_nat limit')%nat →
  recovered env env' rp i j (final_db (Promote limit') (start db1 (quiet env'))).
Proof.
  intros Hrd Hpol Hcov Hl He Hj Hp Hok Hdraw Hap Hle Hnl db1 Hlim.
  destruct (reap_runs env limit db Hrd Hpol Hcov) as [_ [Hrd1 Hdone _ _ _ Hrow _]]. fold db1 in Hrd1, Hdone, Hrow.
  destruct (losses_spec env limit db Hcov) as [_ Hids].
  assert (i ∈ losses env limit db) as Hi by (apply Hids; eauto).
  destruct (Hrow i j rp Hi Hap Hj Hp) as [Hj1 Hdead].
  assert (now env ≤ now env') as Hmono by (destruct Hok; lia).
  destruct (promote_queues_due env' limit' db1) as (_ & Hin & Hout & Hls & Hdl & _).
  { intros k c Hk. by eapply ready_fit_later. }
  destruct (promoted_spec env' limit' db1) as (_ & Hsel & Hall & _).
  assert (is_active (status j) = true) as Ha.
  { unfold expired in He. rewrite Hj in He. by apply andb_true_iff in He as [He _]. }
  assert (exhausted false rp j = negb (attempt_count j <? max_attempts rp)) as Hx by (unfold exhausted; simpl; lia).
  unfold recovered. rewrite Hls, Hdl. split; [by apply Hdone|].
  destruct (attempt_count j <? max_attempts rp) eqn:Hatt; cbn [negb] in Hx.
  - assert (due env' i (failed_row env false rp j) = true) as Hd
      by (apply lost_due; [by apply (rd_jobs env db Hrd i)|done..]).
    eexists. rewrite (Hin i) by (eapply Hall; [exact Hlim|exact Hj1|exact Hd]). rewrite Hj1. split; [done|]. by apply lost_requeued.
  - exists (failed_row env false rp j). rewrite Hout.
    + split; [done|]. unfold failed_row. rewrite Hx. simpl. auto.
    + intros (c & Hc & Hd)%Hsel. rewrite Hj1 in Hc. injection Hc as <-.
      unfold due, failed_row in Hd. by rewrite Hx in Hd.
Qed.

(** The lease of job 14 expired: fifty seconds after, the reaper runs, and the
    promoter a minute later. *)
Lemma lost_job_recovered_witness :
  recovered (later 50000000) (later 110000000) policy0 14 running0
    (final_db (Promote 10) (start (final_db (Reap 10) (w_at 50000000)) (quiet (later 110000000)))).
Proof.
  apply (lost_job_recovered (later 50000000) (later 110000000) 10 10 db0 14
           (mkLease 2 5 (t0 + 30000000) None 810000000) running0 policy0); try done.
  - by apply check_ready_spec.
  - by apply check_policed_spec.
  - vm_compute. lia.
  - intros k Hk. assert (losses (later 50000000) 10 db0 = [14%N]) as E by (by vm_compute). rewrite E in Hk.
    apply list_elem_of_singleton in Hk as ->. apply (bool_decide_unpack _). by vm_compute.
  - vm_compute. lia.
Defined.
