(* ===== verification/Lifecycle.v ===== *)
(** * A job from the queue to its end

    Admission, claim, start and report at work one after the other, with nobody
    else at work: what is ready is worked on, the best job first. *)

From S2P Require Import Prelude Schema Fl Pool Jobs Sched Slots Claims Admission ClaimOrder Reports Progress Reaping Fixture.

#[local] Open Scope Z_scope.

(** ** Rows that are written *)

(** The counters of the row can still be raised. *)
Definition spare (j : Job) : Prop := fence j < 9223372036854775807 ∧ attempt_count j < 2147483647.

Lemma claimed_writable env worker sh j :
  fit env j → status j = js_queued → spare j → writable (claimed_row env worker sh) j.
Proof.
  intros [Hck Hr _] Hs [Hf _]. pose proof (checks_facts _ Hck) as [Ha Hc Hp Hi].
  destruct Hi as [_ Hfin]; [by rewrite Hs|]. rewrite Hs in Hp. split; [|split].
  - unfold job_in_range, in_int4, in_int8 in *. simpl. rewrite !andb_true_iff in *. intuition lia.
  - apply fsm_ok; [simpl; lia|]. right. simpl. by rewrite Hs.
  - unfold job_checks, jobs_terminal_has_finished, jobs_fence_matches_attempts, jobs_deps_only_while_scheduled.
    simpl. rewrite Hfin, Hp by done. unfold jobs_column_checks in *. simpl in *. rewrite Hc.
    rewrite (proj2 (Z.leb_le (attempt_count j) (fence j + 1))) by lia. done.
Qed.

Lemma running_writable env j :
  fit env j → status j = js_claimed → attempt_count j < fence j → attempt_count j < 2147483647 →
  writable (running_row env) j.
Proof.
  intros [Hck Hr _] Hs Hlt Hatt. pose proof (checks_facts _ Hck) as [Ha Hc Hp _]. rewrite Hs in Hp.
  assert (jobs_terminal_has_finished j = true ∧ jobs_active_has_owner j = true) as [Ht Ho].
  { unfold job_checks in Hck. rewrite !andb_true_iff in Hck. tauto. }
  split; [|split].
  - unfold job_in_range, in_int4, in_int8 in *. simpl. rewrite !andb_true_iff in *. intuition lia.
  - apply fsm_ok; [simpl; lia|]. right. simpl. by rewrite Hs.
  - unfold job_checks, jobs_terminal_has_finished, jobs_active_has_owner, jobs_fence_matches_attempts,
      jobs_deps_only_while_scheduled in *. simpl in *. rewrite Hs in *. simpl in *. rewrite Ht, Ho, Hp by done.
    unfold jobs_column_checks in *. simpl in *. rewrite Hc.
    rewrite (proj2 (Z.leb_le (attempt_count j + 1) (fence j))) by lia. done.
Qed.

(** ** The claim *)

Lemma claim_rows_ok env worker lease sh rows db :
  NoDup rows.*1 →
  (∀ i j, (i, j) ∈ rows → jobs db !! i = Some j ∧ writable (claimed_row env worker sh) j) →
  ∃ r, traverse rows (λ r : uuid * Job,
    _ ← update_job r.1 (claimed_row env worker sh);
    _ ← upsert_lease env worker lease r.1 (fence r.2 + 1);
    mret (claimed_view env r.1 r.2)) db = inr r.
Proof.
  revert db. induction rows as [|[i j] rows IH]; intros db Hnd Hrows; [by eexists|].
  apply list.NoDup_cons in Hnd as [Hni Hnd]. destruct (Hrows i j) as [Hj Hw]; [left|]. cbn [traverse].
  unfold mbind at 1, tx_bind at 1. unfold mbind at 1, tx_bind at 1. simpl.
  rewrite (update_job_ok _ _ _ _ Hj Hw). unfold upsert_lease, modify. unfold mbind at 1, tx_bind at 1. simpl.
  match goal with |- context [traverse rows ?f] => destruct (IH (db
    <| jobs := <[i := claimed_row env worker sh j]> (jobs db) |>
    <| leases := <[i := mkLease (fence j + 1) worker (now env + interval_of lease) (leases db !! i ≫= progress) (now env)]> (leases db) |>))
    as [[out db'] Hrun]; [done| |] end.
  - intros i' j' Hin. simpl. rewrite lookup_insert_ne; [apply Hrows; by right|]. intros ->. apply Hni.
    apply list_elem_of_fmap. by exists (i', j').
  - unfold mbind at 1, tx_bind at 1. unfold upsert_lease, modify in Hrun. rewrite Hrun. by eexists.
Qed.

Lemma claimSQL_runs env q n worker lease ts sh db :
  ready env db → is_Some (workers db !! worker) → (∀ i j, jobs db !! i = Some j → spare j) →
  ∃ db', claimSQL q n worker lease ts sh env db =
      inr ((λ r : uuid * Job, claimed_view env r.1 r.2) <$> candidates env q n ts db, db') ∧
    claimed_from env worker lease sh (candidates env q n ts db) db db'.
Proof.
  intros Hrd Hw Hsp. destruct (candidates_spec env q n ts db) as (Hnd & Hel & _).
  destruct (claim_rows_ok env worker lease sh (candidates env q n ts db) db Hnd) as [[out db'] Hrun].
  { intros i j Hin. destruct (Hel i j Hin) as [Hj He]. split; [done|].
    unfold eligible in He. rewrite !andb_true_iff in He. destruct He as [[[[_ Hs%bool_decide_eq_true] _] _] _].
    apply claimed_writable; [by apply (rd_jobs env db Hrd i)|done|by eapply Hsp]. }
  assert (claimSQL q n worker lease ts sh env db = inr (out, db')) as Heq.
  { unfold claimSQL, gets. unfold mbind at 1, tx_bind at 1. unfold mbind at 1, tx_bind at 1.
    by rewrite bool_decide_eq_true_2 by done. }
  exists db'. destruct (claimSQL_spec _ _ _ _ _ _ _ _ _ _ Heq) as [-> Hcf]. by rewrite Heq.
Qed.

(** The queue takes work: it is not paused, its breaker is closed, it has no rate
    limit and a shard with room. *)
Record takes (q : uuid) (db : DB) : Prop := {
  tk_open : ∃ qr, queues db !! q = Some qr ∧ paused qr = false ∧ q_breaker_state qr = br_closed ∧
    unlimited qr = true ∧
    ∃ s r, queue_shards db !! (q, s) = Some r ∧ in_flight r < shard_slots (max_concurrency qr) (shards qr) s;
}.

Lemma Claim_runs env req db :
  ready env db → (∀ i j, jobs db !! i = Some j → spare j) → is_Some (workers db !! WorkerID req) →
  takes (QueueID req) db → 1 ≤ FreeSlots req →
  ∃ n sh db0 db1, 1 ≤ n ∧ jobs db0 = jobs db ∧ execs db0 = execs db ∧
    let rows := candidates env (QueueID req) n (Types req) db in
    answer (Claim req) (start db (quiet env)) = inr ((λ r : uuid * Job, claimed_view env r.1 r.2) <$> rows) ∧
    claimed_from env (WorkerID req) (Lease_ req) sh rows db0 db1 ∧
    jobs (final_db (Claim req) (start db (quiet env))) = jobs db1 ∧
    execs (final_db (Claim req) (start db (quiet env))) = execs db1.
Proof.
  intros Hrd Hsp Hw [(qr & Hq & Hp & Hb & Hu & s & r & Hs & Hroom)] Hfree.
  destruct (admission_progress env (QueueID req) (FreeSlots req) db qr s r) as (n & sh & dba & Hadm & Hn); try done.
  destruct (queue_admit_inv _ _ _ _ _ _ _ Hadm) as [[-> _]|(? & ? & ? & Hg)]; [lia|].
  pose proof (gr_effect _ _ _ _ _ _ _ _ _ _ Hg) as Hdba.
  assert (jobs dba = jobs db ∧ execs dba = execs db ∧ workers dba = workers db) as (Hja & Hxa & Hwa) by (by rewrite Hdba).
  assert (candidates env (QueueID req) n (Types req) dba = candidates env (QueueID req) n (Types req) db) as Hc
    by (unfold candidates; by rewrite Hja).
  destruct (claimSQL_runs env (QueueID req) n (WorkerID req) (Lease_ req) (Types req) sh dba) as (db1 & Hrun & Hcf).
  { split; [rewrite Hja|rewrite Hxa]; apply Hrd. }
  { by rewrite Hwa. }
  { by rewrite Hja. }
  rewrite Hc in Hrun, Hcf. exists n, sh, dba, db1. do 3 (split; [done|]). intros rows.
  change (candidates env (QueueID req) n (Types req) db) with rows in Hrun, Hcf. clearbody rows.
  assert (∃ dbz k, Claim req (start db (quiet env)) =
    (inr ((λ r : uuid * Job, claimed_view env r.1 r.2) <$> rows), mkWorld dbz None (quiet env) k) ∧
    jobs dbz = jobs db1 ∧ execs dbz = execs db1) as (dbz & k & Heq & Hjz & Hxz).
  { unfold Claim, admit_slots, pool_exec, this_call. unfold mbind at 1, go_bind at 1. cbn -[queue_admit take_jobs].
    rewrite Hadm. rewrite (proj2 (Z.eqb_neq n 0)) by lia.
    unfold take_jobs, with_tx, begin_tx, deferring_rollback, caught, tx_exec, Release, commit_tx, this_call, mbind, go_bind.
    cbn -[claimSQL queue_release]. rewrite Hrun. rewrite length_fmap.
    destruct (Z.of_nat (length rows) <? n); cbn; do 2 eexists; split; done. }
  unfold answer, final_db. by rewrite Heq.
Qed.

(** The first job of a claim is the best one there is. *)
Lemma candidates_head env q n ts db i j :
  1 ≤ n → jobs db !! i = Some j → eligible env q ts i j = true →
  ∃ r rows, candidates env q n ts db = r :: rows ∧
    ∀ i j, jobs db !! i = Some j → eligible env q ts i j = true → claim_order r (i, j).
Proof.
  intros Hn Hi He. unfold candidates. set (sel := select (eligible env q ts) (jobs db)).
  assert (∀ i j, jobs db !! i = Some j → eligible env q ts i j = true → (i, j) ∈ merge_sort claim_order sel) as Hall.
  { intros i' j' Hi' He'. rewrite (merge_sort_Permutation claim_order). by apply elem_of_select. }
  pose proof (StronglySorted_merge_sort claim_order sel) as Hsort.
  destruct (merge_sort claim_order sel) as [|r l] eqn:Hm; [by specialize (Hall i j Hi He) as ?%elem_of_nil|].
  exists r, (take (Z.to_nat n - 1) l). split.
  { destruct (Z.to_nat n) eqn:Hz; [lia|]. simpl. by rewrite Nat.sub_0_r. }
  intros i' j' Hi' He'. specialize (Hall i' j' Hi' He'). apply elem_of_cons in Hall as [<-|Hin].
  - destruct (total claim_order (i', j') (i', j')); done.
  - inversion_clear Hsort as [|? ? _ Hr]. rewrite list.Forall_forall in Hr. by apply Hr.
Qed.

(** ** Start *)

Lemma ready_later env env' db : ready env db → now env ≤ now env' → ready env' db.
Proof.
  intros [Hj Hx] Hle. split.
  - intros i j Hi. destruct (Hj i j Hi). split; [done|done|lia].
  - intros i x Hi Ho. specialize (Hx i x Hi Ho). lia.
Qed.

(** The executions of a job that waits for a worker: closed, and of attempts it has
    counted. *)
Definition settled_execs (db : DB) (i : uuid) (j : Job) : Prop :=
  ∀ k x, execs db !! k = Some x → x_job_id x = i →
    exec_open x = false ∧ (x_replay_generation x = replay_generation j → attempt x ≤ attempt_count j).

Definition execution_of (env : Env) (i : uuid) (j : Job) (worker : uuid) : Exec :=
  mkExec i (queue_id j) (attempt_count j + 1) (replay_generation j) (fence j) worker None None None (now env) None.

Lemma startSQL_runs env i j worker db :
  ready env db → jobs db !! i = Some j → status j = js_claimed → attempt_count j < fence j →
  attempt_count j < 2147483647 →
  execs db !! uuids env 0%nat = None → settled_execs db i j →
  startSQL i (fence j) worker env db = inr (Some (mkExecution (uuids env 0%nat) (attempt_count j + 1)),
    db <| jobs := <[i := running_row env j]> (jobs db) |>
       <| execs := <[uuids env 0%nat := execution_of env i j worker]> (execs db) |>).
Proof.
  intros Hrd Hj Hs Hlt Hsp Hfresh Hse. unfold startSQL, gets. unfold mbind at 1, tx_bind at 1. rewrite Hj.
  assert (owns_claimed (fence j) j = true) as ->
    by (unfold owns_claimed; by rewrite Z.eqb_refl, bool_decide_eq_true_2).
  simpl. unfold mbind at 1, tx_bind at 1.
  rewrite (update_job_ok _ _ _ _ Hj) by (apply running_writable; [by apply (rd_jobs env db Hrd i)|done..]).
  unfold mbind, tx_bind, insert_exec. simpl. rewrite Hfresh.
  rewrite bool_decide_eq_false_2 by (by intros [? [=]]). simpl. fold (execution_of env i j worker).
  assert (select (λ _, exec_clash (execution_of env i j worker)) (execs db) = []) as ->; [|done].
  apply elem_of_nil_inv. intros [k x] [Hk Hc]%elem_of_select. unfold exec_clash in Hc.
  apply andb_true_iff in Hc as [Hid%bool_decide_eq_true Hc]. destruct (Hse k x Hk) as [Ho Ha]; [done|].
  rewrite Ho, andb_false_r, orb_false_r in Hc. apply andb_true_iff in Hc as [Hg%bool_decide_eq_true Ht%bool_decide_eq_true].
  simpl in *. specialize (Ha (eq_sym Hg)). lia.
Qed.

Lemma started_ready env i j worker db :
  ready env db → jobs db !! i = Some j → writable (running_row env) j →
  ready env (db <| jobs := <[i := running_row env j]> (jobs db) |>
                <| execs := <[uuids env 0%nat := execution_of env i j worker]> (execs db) |>).
Proof.
  intros [Hjobs Hex] Hj Hw. split; simpl.
  - intros k c. rewrite lookup_insert. case_decide; [|eauto]. intros [= <-]. apply fit_written; [eauto|done|done].
  - intros k x. rewrite lookup_insert. case_decide; [|eauto]. intros [= <-] _. simpl. lia.
Qed.

(** ** From the start to the end *)

(** The worker that claimed [c] starts it and reports its success. *)
Definition runs_through (env1 env2 : Env) (worker : uuid) (c : Claimed) (db1 : DB) : Prop :=
  ∃ x, answer (Start (cl_ID c) (cl_Fence c) worker) (start db1 (quiet env1)) = inr x ∧
    ex_Attempt x = cl_AttemptCount c + 1 ∧
    let db2 := final_db (Start (cl_ID c) (cl_Fence c) worker) (start db1 (quiet env1)) in
    answer (Complete (cl_ID c) (cl_Fence c) (ex_ID x)) (start db2 (quiet env2)) = inr tt ∧
    let db3 := final_db (Complete (cl_ID c) (cl_Fence c) (ex_ID x)) (start db2 (quiet env2)) in
    leases db3 !! cl_ID c = None ∧
    (∃ j, jobs db3 !! cl_ID c = Some j ∧ status j = js_completed ∧ finished_at j = Some (now env2) ∧
       attempt_count j = cl_AttemptCount c + 1) ∧
    (∃ y, execs db3 !! ex_ID x = Some y ∧ x_job_id y = cl_ID c ∧ outcome y = Some xo_success).

Lemma pool_runs {A} (s : Env → sql (option A)) a env db db' :
  s env db = inr (Some a, db') → (pool_exec s ≫= or_fenced) (start db (quiet env)) = (inr a, mkWorld db' None (quiet env) 1).
Proof. intros Hs. unfold mbind, go_bind, pool_exec, this_call. simpl. by rewrite Hs. Qed.

Lemma claimed_runs_through env1 env2 worker c j db :
  ready env1 db → now env1 ≤ now env2 → jobs db !! cl_ID c = Some j → status j = js_claimed →
  cl_Fence c = fence j → cl_AttemptCount c = attempt_count j → attempt_count j < fence j →
  attempt_count j < 2147483647 →
  execs db !! uuids env1 0%nat = None → settled_execs db (cl_ID c) j →
  runs_through env1 env2 worker c db.
Proof.
  intros Hrd Hle Hj Hs Hf Hat Hlt Hsp Hfresh Hse.
  pose proof (startSQL_runs env1 (cl_ID c) j worker db Hrd Hj Hs Hlt Hsp Hfresh Hse) as Hst. rewrite <- Hf in Hst.
  assert (writable (running_row env1) j) as Hw
    by (apply running_writable; [by apply (rd_jobs env1 db Hrd (cl_ID c))|done..]).
  pose proof (started_ready env1 (cl_ID c) j worker db Hrd Hj Hw) as Hrd2.
  apply (ready_later _ env2) in Hrd2; [|done]. revert Hst Hrd2.
  set (db2 := db <| jobs := _ |> <| execs := _ |>). intros Hst Hrd2.
  assert (jobs db2 !! cl_ID c = Some (running_row env1 j)) as Hj2 by apply lookup_insert_eq.
  assert (execs db2 !! uuids env1 0%nat = Some (execution_of env1 (cl_ID c) j worker)) as Hx2 by apply lookup_insert_eq.
  clearbody db2. exists (mkExecution (uuids env1 0%nat) (attempt_count j + 1)).
  unfold answer at 1, final_db, Start. rewrite (pool_runs _ _ _ _ _ Hst). cbn [fst snd w_db ex_ID ex_Attempt].
  split; [done|]. split; [by rewrite Hat|].
  destruct (report_success_runs env2 (cl_ID c) (uuids env1 0%nat) db2 (running_row env1 j) Hrd2 Hj2 eq_refl) as [db3 Hrun].
  destruct (report_success_inv _ _ _ _ _ _ _ Hrun) as [[? _]|(j2 & Hj2' & _ & _ & Hsu)]; [done|].
  rewrite Hj2 in Hj2'. injection Hj2' as <-. cbn [fence] in Hrun.
  assert (Complete (cl_ID c) (cl_Fence c) (uuids env1 0%nat) (start db2 (quiet env2)) =
    (inr tt, mkWorld db3 None (quiet env2) 1)) as Hco.
  { unfold Complete, mbind, go_bind, pool_exec, this_call. cbn -[report_success].
    assert (fence (running_row env1 j) = cl_Fence c) as Hfr by (by rewrite Hf). rewrite Hfr in Hrun. by rewrite Hrun. }
  unfold answer. rewrite Hco. cbn [fst snd w_db]. split; [done|].
  rewrite (su_lease _ _ _ _ _ _ Hsu), lookup_delete_eq. split; [done|]. split.
  - eexists. split; [apply (su_job _ _ _ _ _ _ Hsu)|]. rewrite Hat. done.
  - rewrite (su_execs _ _ _ _ _ _ Hsu), lookup_execs_after, Hx2. unfold open_exec_is. simpl.
    rewrite bool_decide_eq_true_2 by done. eexists. split; [done|]. done.
Qed.

(** The rows of a claim are fit to be started. *)
Lemma claimed_ready env worker lease sh rows db db1 :
  ready env db → (∀ i j, (i, j) ∈ rows → jobs db !! i = Some j ∧ writable (claimed_row env worker sh) j) →
  claimed_from env worker lease sh rows db db1 → ready env db1.
Proof.
  intros [Hjobs Hex] Hrows [Hrow Hoth Hfr]. split.
  - intros i k Hk. destruct (decide (i ∈ rows.*1)) as [([i' j] & -> & Hin)%list_elem_of_fmap|Hni].
    + destruct (Hrow _ _ Hin) as (Hj & _). simpl in Hk. rewrite Hj in Hk. injection Hk as <-.
      destruct (Hrows _ _ Hin) as [Hj0 Hw]. apply fit_written; [eauto|done|done].
    + destruct (Hoth i Hni) as [Hj _]. rewrite Hj in Hk. eauto.
  - intros i x. rewrite Hfr. simpl. eauto.
Qed.

(** ** Theorem *)

(** A database on which work can go on. *)
Record in_order (env : Env) (db : DB) : Prop := {
  io_ready : ready env db;
  io_spare i j : jobs db !! i = Some j → spare j;
  io_settled i j : jobs db !! i = Some j → status j = js_queued → settled_execs db i j;
}.

(** [in_order] is decided by going through the tables. *)
Definition check_in_order (env : Env) (db : DB) : bool :=
  check_ready env db &&
  forallb (λ r : uuid * Job,
    (fence r.2 <? 9223372036854775807) && (attempt_count r.2 <? 2147483647) &&
    (negb (bool_decide (status r.2 = js_queued)) ||
     forallb (λ e : uuid * Exec,
       negb (bool_decide (x_job_id e.2 = r.1)) ||
       (negb (exec_open e.2) && (attempt e.2 <=? attempt_count r.2))) (map_to_list (execs db))))
    (map_to_list (jobs db)).

Lemma check_in_order_spec env db : check_in_order env db = true → in_order env db.
Proof.
  unfold check_in_order. rewrite andb_true_iff, forallb_forall. intros [Hrd%check_ready_spec Hall].
  assert (∀ i j, jobs db !! i = Some j → spare j ∧ (status j = js_queued → settled_execs db i j)) as H.
  { intros i j Hi%elem_of_map_to_list%list_elem_of_In%Hall. simpl in Hi. rewrite !andb_true_iff in Hi.
    destruct Hi as [[Hf Ha] Hx]. split; [split; lia|]. intros Hs k x Hk%elem_of_map_to_list%list_elem_of_In Hid.
    rewrite bool_decide_eq_true_2 in Hx by done. simpl in Hx. rewrite forallb_forall in Hx. specialize (Hx _ Hk).
    simpl in Hx. rewrite bool_decide_eq_true_2 in Hx by done. simpl in Hx. apply andb_true_iff in Hx as [Ho Hle].
    split; [by apply negb_true_iff|]. intros _. lia. }
  split; [done| |]; intros i j Hi; by apply (H i j).
Qed.

Lemma in_order_writable env q n worker sh ts db i j :
  in_order env db → (i, j) ∈ candidates env q n ts db →
  jobs db !! i = Some j ∧ status j = js_queued ∧ writable (claimed_row env worker sh) j.
Proof.
  intros [Hrd Hsp _] Hin. destruct (candidates_spec env q n ts db) as (_ & Hel & _).
  destruct (Hel i j Hin) as [Hj He]. unfold eligible in He. rewrite !andb_true_iff in He.
  destruct He as [[[[_ Hs%bool_decide_eq_true] _] _] _]. split; [done|]. split; [done|].
  apply claimed_writable; [by apply (rd_jobs env db Hrd i)|done|by eapply Hsp].
Qed.

(** C12 (liveness): what is ready is worked on.  On a database whose rows are in
    order, let a queue have a job that is ready and room for it: not paused, its
    breaker closed, without a rate limit, a shard below its share of the cap.  Then a
    registered worker that asks for a job gets at least one, the best of the queue
    first; and each job it gets it can start, under the token it was given, and
    complete: the job ends as completed with one attempt more, without a lease, its
    execution a success.  Calls are answered and nobody else is at work. *)
Theorem ready_jobs_run env env1 env2 req db i j :
  in_order env db → takes (QueueID req) db → is_Some (workers db !! WorkerID req) → 1 ≤ FreeSlots req →
  jobs db !! i = Some j → eligible env (QueueID req) (Types req) i j = true →
  now env ≤ now env1 → now env1 ≤ now env2 → execs db !! uuids env1 0%nat = None →
  ∃ c rest jc, answer (Claim req) (start db (quiet env)) = inr (c :: rest) ∧
    jobs db !! cl_ID c = Some jc ∧
    (∀ i j, jobs db !! i = Some j → eligible env (QueueID req) (Types req) i j = true →
       claim_order (cl_ID c, jc) (i, j)) ∧
    ∀ d, d ∈ c :: rest →
      runs_through env1 env2 (WorkerID req) d (final_db (Claim req) (start db (quiet env))).
Proof.
  intros Hio Htk Hw Hfree Hi He Hle1 Hle2 Hfresh. pose proof Hio as [Hrd Hsp Hse].
  destruct (Claim_runs env req db Hrd Hsp Hw Htk Hfree) as (n & sh & dba & db1 & Hn & Hja & Hxa & Hans & Hcf & Hj1 & Hx1).
  set (dbz := final_db (Claim req) (start db (quiet env))) in *. clearbody dbz.
  destruct (candidates_head env (QueueID req) n (Types req) db i j Hn Hi He) as ([ic jc] & rows & Hc & Hbest).
  assert (∀ i j, (i, j) ∈ candidates env (QueueID req) n (Types req) db →
    jobs db !! i = Some j ∧ status j = js_queued ∧ writable (claimed_row env (WorkerID req) sh) j) as Hcand
    by (intros; by eapply in_order_writable).
  rewrite Hc in Hans. exists (claimed_view env ic jc), ((λ r : uuid * Job, claimed_view env r.1 r.2) <$> rows), jc.
  split; [exact Hans|]. split; [apply Hcand; rewrite Hc; left|]. split; [exact Hbest|].
  assert (execs dbz = execs db) as Hxz by (rewrite Hx1, (cf_frame _ _ _ _ _ _ _ Hcf); exact Hxa).
  assert (ready env1 dbz) as Hrdz.
  { apply (ready_later env); [|done]. assert (ready env db1) as Hrd1.
    { eapply (claimed_ready env _ _ _ _ dba); [| |exact Hcf].
      - split; [rewrite Hja|rewrite Hxa]; apply Hrd.
      - intros k x Hin. rewrite Hja. destruct (Hcand k x Hin) as (? & _ & ?). done. }
    split; [rewrite Hj1|rewrite Hx1]; apply Hrd1. }
  intros d Hd. assert (d ∈ (λ r : uuid * Job, claimed_view env r.1 r.2) <$> candidates env (QueueID req) n (Types req) db)
    as ([k x] & -> & Hin)%list_elem_of_fmap by (by rewrite Hc).
  destruct (Hcand k x Hin) as (Hk & Hs & _). destruct (cf_row _ _ _ _ _ _ _ Hcf k x Hin) as (Hkz & _).
  rewrite <- Hj1 in Hkz. destruct (Hsp k x Hk). destruct (rd_jobs _ _ Hrd k x Hk) as [Hck _ _].
  apply checks_facts in Hck as [Hatt _ _ _].
  apply (claimed_runs_through env1 env2 _ _ (claimed_row env (WorkerID req) sh x)); simpl; try done; try lia.
  - by rewrite Hxz.
  - intros k' y. rewrite Hxz. apply (Hse k x Hk Hs).
Qed.

(** The fixture: jobs of queue 4, a worker that takes two of type "send". *)
Lemma ready_jobs_run_witness :
  ∃ c rest, answer (Claim (claim0 2 (Some ["send"%string]))) w0 = inr (c :: rest) ∧
    runs_through (later 1) (later 2) 5 c (final_db (Claim (claim0 2 (Some ["send"%string]))) w0).
Proof.
  destruct (ready_jobs_run env0 (later 1) (later 2) (claim0 2 (Some ["send"%string])) db0 10 (job0 "send" 0 100))
    as (c & rest & jc & Ha & _ & _ & Hall); try done.
  - by apply check_in_order_spec.
  - split. exists queue0. repeat (split; [done|]). by exists 1, (mkShard 0 0 0).
  - exists c, rest. split; [exact Ha|]. apply Hall. left.
Defined.
