(* ===== verification/Findings.v ===== *)
(** * Where the code and its documentation part

    Runs of the definitions on small databases that show behaviours the
    documentation does not describe, or rules out. *)

From S2P Require Import Prelude Schema Fl Pool Jobs Sched Worker Api ApiJobs System Fixture Admission Slots Idempotency.

#[local] Open Scope string_scope.
#[local] Open Scope list_scope.
#[local] Open Scope Z_scope.

(** The database an operation leaves, run alone [d] microseconds after [t0]. *)
Definition after (d : Z) (o : op) (db : DB) : DB := final_db (run_op X0 o) (start db (quiet (later d))).

(** The status code of a request. *)
Definition code {A} (m : go A) (status_of : A → Z) (w : World) : option Z :=
  match answer m w with inr a => Some (status_of a) | inl _ => None end.

(** ** Cancelling a job that waits for others *)

(** A job with pending dependencies cannot be cancelled.  The update
    of [cancelSQL] keeps [pending_deps], which only a scheduled job may have, so
    that it always violates [jobs_deps_only_while_scheduled]. *)
Theorem cancel_waiting_job_violates i env db j :
  jobs db !! i = Some j → status j = js_scheduled → 0 < pending_deps j → job_in_range j = true →
  cancelSQL i env db = inl check_violation.
Proof.
  intros Hj Hs Hp Hr. unfold cancelSQL, gets. unfold mbind at 1, tx_bind at 1. rewrite Hj, Hs. cbn [is_terminal negb].
  unfold mbind, tx_bind, update_job. rewrite Hj.
  change (job_in_range (cancelled_row env j)) with (job_in_range j). rewrite Hr. cbn [negb].
  assert (jobs_fsm j (cancelled_row env j) = true) as ->.
  { unfold jobs_fsm. simpl. rewrite Hs. apply andb_true_iff. split; [apply negb_true_iff; lia|done]. }
  cbn [negb]. assert (job_checks (cancelled_row env j) = false) as ->; [|done].
  unfold job_checks. assert (jobs_deps_only_while_scheduled (cancelled_row env j) = false) as ->.
  { unfold jobs_deps_only_while_scheduled. simpl. apply orb_false_iff. split; [lia|done]. }
  by rewrite andb_false_r.
Qed.

Lemma cancel_waiting_job_violates_witness :
  pending_deps child0 = 1 ∧ cancelSQL 16 env0 db0 = inl check_violation.
Proof. split; [done|]. by apply (cancel_waiting_job_violates 16 env0 db0 child0). Defined.

(** The API answers 500. *)
Theorem cancel_waiting_job_500 :
  code (serve X0 (CancelJob (request 16 tt))) rs_status w0 = Some 500 ∧
  status <$> jobs (final_db (serve X0 (CancelJob (request 16 tt))) w0) !! 16%N = Some js_scheduled.
Proof. by vm_compute. Qed.

(** ** A cancelled parent *)

(** Job 16 waits for job 14 alone; cancelling 14 leaves it waiting. *)
Theorem cancelled_parent_blocks_child :
  let db := after 0 (OpServe (CancelJob (request 14 tt))) db0 in
  status <$> jobs db !! 14%N = Some js_cancelled ∧
  (λ c, (status c, pending_deps c)) <$> jobs db !! 16%N = Some (js_scheduled, 1).
Proof. by vm_compute. Qed.

(** ** The half-open breaker *)

(** A probe can be lost for good.  When the probe budget of a
    half-open breaker goes to a claim that finds no job of its types, the slot is
    given back and the budget is not; the breaker, which waits for an outcome,
    does not move, and no later admission grants anything, whatever the time and
    the number of slots asked for. *)
Theorem probe_lost_to_empty_claim :
  let db1 := after 0 (OpClaim (claim0 1 (Some ["fax"]))) db_open in
  let db2 := after 60000000 (OpBreaker 20 10 30000000000) db1 in
  (λ q, (q_breaker_state q, breaker_probe_budget q)) <$> queues db1 !! 4%N = Some (br_half_open, 0) ∧
  used (4%N, 1) db1 = 0 ∧ queues db2 !! 4%N = queues db1 !! 4%N ∧
  (∀ env want, ∃ db', queue_admit env 4 want db2 = inr ((0, 0), db')).
Proof.
  split; [by vm_compute|]. split; [by vm_compute|]. split; [by vm_compute|].
  intros env want. eexists. unfold queue_admit, gets. unfold mbind at 1, tx_bind at 1.
  assert (queues (after 60000000 (OpBreaker 20 10 30000000000)
    (after 0 (OpClaim (claim0 1 (Some ["fax"]))) db_open)) !! 4%N =
    Some (queue0 <| q_breaker_state := br_half_open |> <| breaker_open_until := Some t0 |>
                 <| breaker_probe_budget := 0 |>)) as -> by (by vm_compute).
  done.
Qed.

(** ** A second death *)

Definition die_again : DB :=
  let db1 := after 0 (OpServe (ReplayJob (request 15 tt))) db0 in
  let db2 := after 1 (OpClaim (claim0 4 None)) (db1 <| jobs := filter (λ r : uuid * Job, r.1 = 15%N) (jobs db1) |>) in
  let db3 := after 2 (OpStart 15 4 5) db2 in
  after 3 (OpFail 15 4 (Some (mkCause "no" true))) db3.

(** A replayed job that dies again keeps the dead letter of its first death,
    marked as replayed, and the bulk replay passes it over. *)
Theorem second_death_not_replayable :
  status <$> jobs die_again !! 15%N = Some js_dead_letter ∧
  replayed_at <$> dead_letters die_again !! 15%N = Some (Some t0) ∧
  reason <$> dead_letters die_again !! 15%N = Some dr_attempts_exhausted ∧
  fst <$> match replay_dead (later 4) 4 100 0 None die_again with inr p => Some p | inl _ => None end = Some [].
Proof. by vm_compute. Qed.

(** ** Snoozing *)

(** A job that is snoozed and started again is on its next attempt: the last of
    three attempts is dead after two snoozes and one failure. *)
Definition snoozed_twice : DB :=
  let round (t f : Z) (x : uuid) (db : DB) :=
    after (t + 3) (OpStart 14 (f + 2) 5)
      (after (t + 2) (OpClaim (claim0 4 (Some ["send"])))
        (after (t + 1) (OpPromote 10)
          (after t (OpSnooze 14 f x 0) db))) in
  let db1 := db0 <| jobs := {[ 14%N := running0 ]} |> <| deps := ∅ |> in
  let db2 := round 10 2 20%N db1 in
  let db3 := db2 <| execs := {[ 20%N := mkExec 14 4 1 0 2 5 (Some xo_snoozed) None None 810000000 (Some t0);
                                21%N := mkExec 14 4 2 0 4 5 None None None (t0 + 13) None ]} |> in
  round 20 4 21%N db3.

Theorem snooze_burns_attempts :
  (λ j, (attempt_count j, snooze_count j)) <$> jobs snoozed_twice !! 14%N = Some (3, 2) ∧
  status <$> jobs (after 30 (OpFail 14 6 (Some (mkCause "no" false))) snoozed_twice) !! 14%N = Some js_dead_letter.
Proof. by vm_compute. Qed.

(** ** The answer of a commit, lost *)

(** What the counters do not survive.  When the commit of the claim
    goes through and its answer is lost, [Claim] gives the
    slots back though the job is claimed, and the counter is below the slots in
    use. *)
Theorem lost_commit_drifts_low :
  let calls n := mkCall env0 (if decide (n = 3%nat) then FailAfter (ErrConn false) else NoFault) id in
  let db := final_db (run_op X0 (OpClaim (claim0 1 (Some ["print"])))) (start db0 calls) in
  status <$> jobs db !! 13%N = Some js_claimed ∧ used (4%N, 1) db = 0 ∧ active_on 4 1 db = 1.
Proof. by vm_compute. Qed.

(** ** A replayed parent that was not counted *)

(** A job that depends on a dead job and on a running one waits for the running
    one only, yet counts down when the dead one is replayed and completes: it is
    queued while its other parent still runs. *)
Definition uncounted : DB :=
  let req := mkSubmitReq "print" "" None None None None [text 15; text 14] in
  let db1 := after 0 (OpServe (PostJobs (request 4 req))) db0 in
  let db2 := after 1 (OpServe (ReplayJob (request 15 tt))) db1 in
  let db3 := after 2 (OpTake (claim0 4 (Some ["send"])) 1 4) db2 in
  let db4 := after 3 (OpStart 15 4 5) db3 in
  after 4 (OpComplete 15 4 200) db4.

Theorem dead_parent_releases_early :
  status <$> jobs uncounted !! 14%N = Some js_running ∧
  (λ c, (status c, pending_deps c)) <$> jobs uncounted !! 200%N = Some (js_queued, 0).
Proof. by vm_compute. Qed.

(** ** Submission *)

(** A parent named twice is a 500. *)
Theorem duplicate_parent_500 :
  code (serve X0 (PostJobs (request 4 (mkSubmitReq "print" "" None None None None [text 14; text 14])))) rs_status w0
  = Some 500.
Proof. by vm_compute. Qed.

(** The depth cap is checked before the key: a repeat of a submission that was
    accepted is turned down with 429 once the queue is full. *)
Theorem full_queue_hides_key :
  let full := db0 <| queues := {[ 4%N := queue0 <| max_depth := Some 5 |> ]} |> in
  let w1 := mkWorld full (Some full) (quiet env0) 1 in
  let again := mkWorld (w_db (snd (submit0 w1))) (Some full) (quiet (later 1)) 1 in
  code submit0 r_status w1 = Some 201 ∧ answer submit0 again = inl (ErrApi (tooMany "queue depth cap reached" 1)).
Proof. by vm_compute. Qed.

(** ** Statistics *)

(** A job whose [run_at] is seventy years back is accepted and ready at once; its
    age does not fit an [int], and the statistics of its queue and the health of
    the whole project are a 500 as long as it waits. *)
Definition long_ago : DB :=
  let req := mkSubmitReq "print" "" None (Some (t0 - 70 * 365 * 86400000000)) None None [] in
  after 0 (OpServe (PostJobs (request 4 req))) db0.

Theorem old_run_at_hides_statistics :
  (λ j, status j) <$> jobs long_ago !! 200%N = Some js_queued ∧
  code (serve X0 (GetQueueStats (request 4 tt))) rs_status w0 = Some 200 ∧
  code (serve X0 (GetQueueStats (request 4 tt))) rs_status (start long_ago (quiet (later 1))) = Some 500 ∧
  code (serve X0 (GetProjectHealth (request 2 tt))) rs_status (start long_ago (quiet (later 1))) = Some 500.
Proof. by vm_compute. Qed.
