(* ===== verification/Guarantees.v ===== *)
(** * What the system guarantees

    The theorems about every reachable database, and boolean checks of the
    invariants, in the spirit of [CheckInvariants] of internal/testdb, that
    decide them on a given database. *)

From S2P Require Import Prelude Schema Fl Pool Jobs Sched Cron Archiver Worker Api ApiJobs ApiAdmin GoLogic System Fixture Core Evolution Slots Claims Leases Executions Once Capacity Locks Interleaving.
From stdpp Require Import relations.

#[local] Open Scope Z_scope.

#[local] Open Scope string_scope.
#[local] Open Scope list_scope.
#[local] Open Scope Z_scope.

(** ** internal/testdb: CheckInvariants *)

(** Jobs with two open executions. *)
Definition doubleOpen (db : DB) : Z :=
  let open := (λ r : uuid * Exec, x_job_id r.2) <$> select (λ _, exec_open) (execs db) in
  Z.of_nat (length (filter (λ i, (1 < length (filter (λ k, k = i) open))%nat) (remove_dups open))).

(** Running jobs without a lease. *)
Definition runningNoLease (db : DB) : Z :=
  Z.of_nat (length (select (λ i j, bool_decide (status j = js_running) &&
    bool_decide (leases db !! i = None)) (jobs db))).

(** Shards whose counter is not the number of jobs that hold a slot. *)
Definition drift (db : DB) : Z :=
  Z.of_nat (length (select (λ k r, negb (in_flight r =? active_on k.1 k.2 db)) (queue_shards db))).

Definition all_statuses : list job_status :=
  [js_scheduled; js_queued; js_claimed; js_running; js_completed; js_retry_wait; js_dead_letter; js_cancelled].

(** The jobs, and the sum of the counts by status. *)
Definition total_summed (db : DB) : Z * Z :=
  (Z.of_nat (size (jobs db)),
   sum_of ((λ st, mcount (λ j, bool_decide (status j = st)) (jobs db)) <$> all_statuses)).

Definition CheckInvariants (db : DB) : bool :=
  (doubleOpen db =? 0) && (runningNoLease db =? 0) && (drift db =? 0) &&
  (fst (total_summed db) =? snd (total_summed db)).

(** ** Checks *)

Definition check_jobs (f : uuid → Job → bool) (db : DB) : bool :=
  forallb (λ r : uuid * Job, f r.1 r.2) (map_to_list (jobs db)).

Lemma check_jobs_spec f db : check_jobs f db = true → ∀ i j, jobs db !! i = Some j → f i j = true.
Proof.
  unfold check_jobs. rewrite forallb_forall. intros H i j Hj. apply (H (i, j)).
  by apply list_elem_of_In, elem_of_map_to_list.
Qed.

Definition check_rows (db : DB) : bool := check_jobs (λ _ j, job_in_range j && job_checks j) db.

Lemma check_rows_spec db : check_rows db = true → rows_ok db.
Proof.
  intros H i j Hj. apply (check_jobs_spec (λ _ j, job_in_range j && job_checks j)) in Hj; [|done].
  by apply andb_true_iff in Hj.
Qed.

Definition check_leased (j : Job) (ol : option Lease) : bool :=
  if is_active (status j)
  then from_option (λ l, (l_fence l =? fence j) && bool_decide (worker_id j = Some (l_worker_id l))) false ol
  else bool_decide (ol = None).

Definition check_leases (db : DB) : bool :=
  check_jobs (λ i j, check_leased j (leases db !! i)) db &&
  forallb (λ r : uuid * Lease, bool_decide (is_Some (jobs db !! r.1))) (map_to_list (leases db)).

#[export] Instance Lease_eq_dec : EqDecision Lease.
Proof. solve_decision. Defined.

Lemma check_leases_spec db : check_leases db = true → lease_inv db.
Proof.
  unfold check_leases. rewrite andb_true_iff, forallb_forall. intros [Hj Hl] i. unfold lease_ok.
  destruct (jobs db !! i) as [j|] eqn:Hi.
  - apply (check_jobs_spec _ _ Hj) in Hi. unfold check_leased in Hi. unfold leased.
    destruct (is_active (status j)); [|by apply bool_decide_eq_true in Hi].
    destruct (leases db !! i) as [l|]; [|done]. simpl in Hi.
    apply andb_true_iff in Hi as [Hf Hw%bool_decide_eq_true]. exists l. split_and!; [done|lia|done].
  - destruct (leases db !! i) as [l|] eqn:Hli; [|done].
    assert (bool_decide (is_Some (jobs db !! i)) = true) as Hx.
    { apply (Hl (i, l)). by apply list_elem_of_In, elem_of_map_to_list. }
    apply bool_decide_eq_true in Hx as [? ?]. congruence.
Qed.

(** No counter is below the jobs on its shard, no job on a shard without one. *)
Definition check_slots (db : DB) : bool :=
  check_jobs (λ _ j, negb (is_active (status j)) ||
    bool_decide (is_Some (queue_shards db !! (queue_id j, shard j)))) db &&
  forallb (λ r : shard_key * Shard, active_on r.1.1 r.1.2 db <=? in_flight r.2)
    (map_to_list (queue_shards db)).

Lemma check_slots_spec db : check_slots db = true → slots_inv no_slots db.
Proof.
  unfold check_slots. rewrite andb_true_iff, forallb_forall. intros [Hj Hs] k. unfold used, no_slots.
  destruct (queue_shards db !! k) as [r|] eqn:Hk; simpl.
  - assert ((active_on k.1 k.2 db <=? in_flight r) = true); [|lia].
    apply (Hs (k, r)). by apply list_elem_of_In, elem_of_map_to_list.
  - assert (active_on k.1 k.2 db = 0); [|lia]. apply mcount_zero. intros i j Hi.
    apply (check_jobs_spec _ _ Hj) in Hi. destruct (holds_slot k.1 k.2 j) eqn:Hh; [|done].
    unfold holds_slot in Hh. rewrite !andb_true_iff, !bool_decide_eq_true in Hh.
    destruct Hh as [[Ha Hq] Hsh]. rewrite Ha in Hi. simpl in Hi.
    apply bool_decide_eq_true in Hi as [r Hr]. rewrite Hq, Hsh, <- surjective_pairing in Hr. congruence.
Qed.

Definition check_capped (db : DB) : bool :=
  forallb (λ r : shard_key * Shard,
    from_option (λ q, (0 <=? max_concurrency q) && (0 <=? r.1.2) && (r.1.2 <? shards q) &&
      (in_flight r.2 <=? shard_slots (max_concurrency q) (shards q) r.1.2)) false (queues db !! r.1.1))
    (map_to_list (queue_shards db)).

Lemma check_capped_spec db : check_capped db = true → capped db.
Proof.
  unfold check_capped. rewrite forallb_forall. intros H k r Hk.
  assert ((k, r) ∈ map_to_list (queue_shards db)) as Hin by (by apply elem_of_map_to_list).
  apply list_elem_of_In, H in Hin. simpl in Hin. destruct (queues db !! k.1) as [q|]; [|done].
  simpl in Hin. rewrite !andb_true_iff in Hin. exists q. split; [done|]. unfold within. lia.
Qed.

(** Enough for [once_inv] on a database without events and archive. *)
Definition check_once (db : DB) : bool :=
  bool_decide (length (events db) = 0%nat) && bool_decide (length (jobs_archive db) = 0%nat) &&
  check_jobs (λ _ j, negb (completed j)) db.

Lemma check_once_spec db : check_once db = true → once_inv db.
Proof.
  unfold check_once. rewrite !andb_true_iff, !bool_decide_eq_true. intros [[He Ha] Hj] i.
  apply length_zero_iff_nil in He, Ha. unfold completions, archived_completed, completed_now.
  rewrite He, Ha. destruct (jobs db !! i) as [j|] eqn:Hi; [|done].
  apply (check_jobs_spec _ _ Hj) in Hi. simpl. by destruct (completed j).
Qed.

(** The jobs of the open executions. *)
Definition open_jobs (db : DB) : list uuid :=
  (λ r : uuid * Exec, x_job_id r.2) <$> select (λ _, exec_open) (execs db).

Lemma open_jobs_NoDup db : one_open db ↔ NoDup (open_jobs db).
Proof.
  split.
  - intros HP. apply NoDup_fmap_2_strong.
    + intros [a x] [b y] [Ha Hx]%elem_of_select [Hb Hy]%elem_of_select Hj. simpl in *.
      assert (a = b) as -> by (by eapply HP). congruence.
    + eapply NoDup_fmap_1, NoDup_select.
  - intros Hnd a b x y Ha Hb Hx Hy Hj.
    assert ((a, x) ∈ select (λ _, exec_open) (execs db)) as Hina by (by apply elem_of_select).
    assert ((b, y) ∈ select (λ _, exec_open) (execs db)) as Hinb by (by apply elem_of_select).
    apply list_elem_of_lookup in Hina as [n Hn], Hinb as [m Hm].
    assert (n = m) as ->; [|congruence].
    eapply (NoDup_lookup (open_jobs db)); [done| |]; unfold open_jobs; rewrite list_lookup_fmap.
    + by rewrite Hn.
    + rewrite Hm. simpl. by rewrite Hj.
Qed.

Lemma NoDup_count_one (l : list uuid) i : NoDup l → (length (filter (λ k, k = i) l) ≤ 1)%nat.
Proof.
  intros Hnd. apply (list.NoDup_filter (λ k, k = i)) in Hnd.
  assert (∀ k, k ∈ filter (λ k, k = i) l → k = i) as Hall by (intros k Hk; by apply list_elem_of_filter in Hk as [? _]).
  destruct (filter _ l) as [|a [|b l']]; simpl; try lia. exfalso.
  apply list.NoDup_cons in Hnd as [Hni _]. apply Hni.
  rewrite (Hall a), <- (Hall b) by (repeat constructor). left.
Qed.

Lemma doubleOpen_zero db : one_open db → doubleOpen db = 0.
Proof.
  intros HP%open_jobs_NoDup. unfold doubleOpen. fold (open_jobs db).
  assert (filter (λ i, (1 < length (filter (λ k, k = i) (open_jobs db)))%nat)
    (remove_dups (open_jobs db)) = []) as ->; [|done].
  destruct (filter _ (remove_dups _)) as [|i l] eqn:E; [done|]. exfalso.
  assert (i ∈ i :: l) as Hi by left. rewrite <- E in Hi. apply list_elem_of_filter in Hi as [Hi _].
  pose proof (NoDup_count_one (open_jobs db) i HP). lia.
Qed.

Lemma runningNoLease_zero db : lease_inv db → runningNoLease db = 0.
Proof.
  intros HP. unfold runningNoLease.
  destruct (select _ (jobs db)) as [|[i j] l] eqn:E; [done|]. exfalso.
  assert ((i, j) ∈ (i, j) :: l) as Hi by left. rewrite <- E in Hi. apply elem_of_select in Hi as [Hj Hc].
  apply andb_true_iff in Hc as [Hs%bool_decide_eq_true Hl%bool_decide_eq_true].
  specialize (HP i). unfold lease_ok, leased in HP. rewrite Hj, Hs in HP. simpl in HP.
  destruct HP as (? & ? & _). congruence.
Qed.

(** ** The theorems *)

(** C1 (safety): the concurrency cap.  Start from a database whose counters
    cover the jobs at work and are within the cap.  Whatever the operations of the
    system do then - but for a change of the capacity and the repair of the
    counters -, however the admissions, takings and releases of any number of
    claims overlap, and whichever calls fail or lose their answer - but for the
    commit of a claim -, the jobs claimed or running on a queue never outnumber
    its [max_concurrency], however many shards it has. *)
Theorem concurrency_cap X db db' G q qr :
  slots_inv no_slots db → capped db → rtc (claiming X keeps_capacity) (db, []) (db', G) →
  queues db' !! q = Some qr → 0 ≤ max_concurrency qr → 0 < shards qr →
  active_jobs q db' ≤ max_concurrency qr.
Proof.
  intros HP Hcap Hrun. assert (grants_ok (db, [])) as Hok by done.
  apply (cap_respected (granted G)).
  - apply granted_nonneg. by destruct (claims_grants _ _ _ _ Hrun Hok).
  - by destruct (claims_grants _ _ _ _ Hrun Hok).
  - by apply (claims_capped _ keeps_capacity (λ _ H, H) _ _ Hrun).
Qed.

Definition claim_op : op := OpClaim (claim0 2 (Some ["send"])).

(** Two claims, the second of which takes its job before the first, the first
    failing to take its own and giving its slot back. *)
Definition overlapping (db : DB) : DB :=
  let q := quiet env0 in
  let down n := mkCall env0 (FailBefore (ErrConn true)) id in
  let db1 := final_db (admit_slots 4 1) (start db q) in
  let db2 := final_db (admit_slots 4 1) (start db1 q) in
  let db3 := final_db (take_jobs (claim0 1 None) 0 1) (start db2 q) in
  let db4 := final_db (take_jobs (claim0 1 None) 1 1) (start db3 down) in
  final_db (pool_exec (λ _, queue_release 4 1 1)) (start db4 q).

Lemma overlapping_run allowed : rtc (claiming X0 allowed) (db0, []) (overlapping db0, []).
Proof.
  assert (∀ k, orderly X0 allowed (c_other (quiet env0 k))) as Hq by (intros; constructor).
  eapply rtc_l; [by apply (cl_admitted _ _ 4 1 (quiet env0) 1 1)|].
  eapply rtc_l; [by apply (cl_admitted _ _ 4 1 (quiet env0) 1 0)|].
  eapply rtc_l; [by eapply (cl_taken _ _ (claim0 1 None) 0 1 (quiet env0) _ _ [] [_])|].
  eapply rtc_l; [by eapply (cl_take_failed _ _ (claim0 1 None) 1 1
    (λ _, mkCall env0 (FailBefore (ErrConn true)) id) _ _ [] [])|].
  eapply rtc_l; [by apply (cl_released _ _ 4 1 1 (quiet env0) _ [] [])|]. apply rtc_refl.
Qed.

(** Two jobs run or are claimed in the end, under a cap of three. *)
Lemma concurrency_cap_witness :
  active_jobs 4 (overlapping db0) = 2 ∧ active_jobs 4 (overlapping db0) ≤ max_concurrency queue0.
Proof.
  split; [by vm_compute|]. apply (concurrency_cap X0 db0 (overlapping db0) []); try done.
  - apply check_slots_spec. by vm_compute.
  - apply check_capped_spec. by vm_compute.
  - apply overlapping_run.
Defined.

(** C5 (invariant): the drift is in the safe direction.  In the same runs, and
    also across a change of the capacity or of the number of shards, no counter
    of a shard falls below the jobs that hold one of its slots plus the slots
    granted to claims that have not taken their jobs yet. *)
Theorem counters_cover_slots X db db' G :
  slots_inv no_slots db → rtc (claiming X (λ _, True)) (db, []) (db', G) →
  slots_inv (granted G) db'.
Proof. intros HP Hrun. by destruct (claims_grants _ _ _ _ Hrun (conj HP (Forall_nil_2 _))). Qed.

Lemma counters_cover_slots_witness :
  used (4%N, 0) (overlapping db0) = 2 ∧ active_on 4 0 (overlapping db0) = 2 ∧
  slots_inv no_slots (overlapping db0).
Proof.
  split; [by vm_compute|]. split; [by vm_compute|].
  apply (counters_cover_slots X0 db0 (overlapping db0) []).
  - apply check_slots_spec. by vm_compute.
  - apply overlapping_run.
Defined.

Lemma quiet_reachable o : reachable X0 db0 (final_db (run_op X0 o) w0).
Proof. apply reachable_run. intros n. apply process_id. Qed.

Definition complete_op : op := OpComplete 14 2 20.



(** C6 (invariant): leases.  In every reachable database a job is claimed or
    running exactly when it has a lease, and the lease carries the job's fence
    and worker. *)
Theorem leases_match_owners X db db' :
  lease_inv db → reachable X db db' → lease_inv db'.
Proof. apply core_reachable; apply _. Qed.

Lemma leases_match_owners_witness :
  is_Some (leases (final_db (run_op X0 claim_op) w0) !! 12%N) ∧
  lease_inv (final_db (run_op X0 claim_op) w0).
Proof.
  split; [vm_compute; eauto|]. apply (leases_match_owners X0 db0).
  - apply check_leases_spec. by vm_compute.
  - apply quiet_reachable.
Defined.







(** What the tests check after every scenario.  In every
    database reachable from one with at most one open execution per job and
    exact leases, the first two counts of [CheckInvariants] are 0: no job has
    two open executions, no running job is without a lease. *)
Theorem check_invariants_hold X db db' :
  one_open db → lease_inv db → reachable X db db' → doubleOpen db' = 0 ∧ runningNoLease db' = 0.
Proof.
  intros Ho Hl Hr. split.
  - apply doubleOpen_zero. by apply (core_reachable X one_open db).
  - apply runningNoLease_zero. by apply (core_reachable X lease_inv db).
Qed.

Lemma check_invariants_hold_witness :
  CheckInvariants db0 = true ∧
  doubleOpen (final_db (run_op X0 complete_op) w0) = 0 ∧
  runningNoLease (final_db (run_op X0 complete_op) w0) = 0.
Proof.
  split; [by vm_compute|]. apply (check_invariants_hold X0 db0).
  - apply open_jobs_NoDup. vm_compute. repeat constructor. apply not_elem_of_nil.
  - apply check_leases_spec. by vm_compute.
  - apply quiet_reachable.
Defined.

(** C9 (invariant): a tick fires once.  In every database reachable from one
    where it holds, no two jobs of the table belong to the same tick of the same
    schedule, however many schedulers materialize it. *)
Theorem one_job_per_tick X db db' :
  ticks_unique db → reachable X db db' → ticks_unique db'.
Proof. intros HP Hr. by apply (job_reachable ticks_unique X db). Qed.

(** A schedule that fires every hour, due since the epoch. *)
Definition db_hourly : DB :=
  db0 <| schedules := {[ 8%N := mkSchedule 4 "report" "hourly" "UTC" "send" "{}" true "allow" "fire_once" 0 None 0 ]} |>.

(** Two schedulers, one after the other: one job, number 100. *)
Lemma one_job_per_tick_witness :
  let db' := final_db (run_op X0 (OpMaterialize 10))
               (start (final_db (run_op X0 (OpMaterialize 10)) (start db_hourly (quiet env0))) (quiet env0)) in
  is_Some (jobs db' !! 100%N) ∧ ticks_unique db'.
Proof.
  intros db'. split; [vm_compute; eauto|]. apply (one_job_per_tick X0 db_hourly).
  - assert (check_jobs (λ _ j, bool_decide (schedule_id j = None)) db_hourly = true) as Hnone by (by vm_compute).
    intros a b j j' s Ha _ Hs. apply (check_jobs_spec _ _ Hnone) in Ha. simpl in Ha.
    apply bool_decide_eq_true in Ha. congruence.
  - eapply reachable_trans; apply reachable_run; intros n; apply process_id.
Defined.
