(* ===== verification/TestData.v ===== *)
(** * internal/testdb: the fixtures of the tests

    The tests start from rows these functions insert, one statement each; an error
    ends the test ([Must]).  [NewString] of google/uuid and the ids it makes up are
    arguments.  A database that is made of them satisfies what the guarantees of the
    system ask of the database it starts from. *)

From S2P Require Import Prelude Schema Fl Pool Jobs Sched Cron Worker Api ApiJobs ApiAdmin Accounts GoLogic System Core Leases Executions Fixture Guarantees.

#[local] Open Scope string_scope.
#[local] Open Scope list_scope.
#[local] Open Scope Z_scope.

(** ** fixtures.go *)

(** [insert into retry_policies (project_id, name)]: the other columns have their
    defaults. *)
Definition new_policy (project : uuid) (name : string) (env : Env) : sql uuid :=
  known ← gets (λ db, bool_decide (is_Some (projects db !! project)));
  if known : bool then insertPolicySQL (mkPolicy project name bk_exponential 5 3 1000 3600000 true) env
  else raise foreign_key_violation.

(** [name1], [name2] and [name3] are what [uuid.NewString] returns. *)
Definition Base (name1 name2 name3 : string) : go (uuid * uuid) :=
  '(orgID, _) ← pool_exec (insertOrgSQL name1);
  '(projectID, _) ← pool_exec (insertProjectSQL orgID name2);
  policyID ← pool_exec (new_policy projectID name3);
  mret (projectID, policyID).

Definition NewQueue (projectID policyID : uuid) (name : string) (maxConcurrency : Z) : go uuid :=
  r ← pool_exec (λ env,
    known ← gets (λ db, bool_decide (is_Some (projects db !! projectID)) && bool_decide (is_Some (policies db !! policyID)));
    if known : bool
    then insertQueueSQL projectID name policyID maxConcurrency None 0 1000000 1000000 1 env
    else raise foreign_key_violation);
  mret (fst r).

Definition NewWorker (projectID : uuid) : go uuid :=
  pool_exec (λ env,
    known ← gets (λ db, bool_decide (is_Some (projects db !! projectID)));
    if known : bool
    then _ ← modify (λ db, db <| workers := <[uuids env 0%nat :=
               mkWorker projectID "test" 1 1000 "active" (now env) (now env) []]> (workers db) |>);
         mret (uuids env 0%nat)
    else raise foreign_key_violation).

(** [insert into jobs (project_id, queue_id, type, retry_policy_id, status, run_at)] *)
Definition new_job (projectID queueID policyID : uuid) (st : job_status) (runAt : Env → timestamp) (env : Env) : sql uuid :=
  known ← gets (λ db, from_option (λ q, bool_decide (q_project_id q = projectID)) false (queues db !! queueID) &&
                      bool_decide (is_Some (policies db !! policyID)));
  if known : bool
  then _ ← insert_job (uuids env 0%nat)
         (mkJob projectID queueID None None None "noop" "{}" st 0 (runAt env) 0 0 0 0 None None 300000 policyID 0 0
            (now env) None None None);
       mret (uuids env 0%nat)
  else raise foreign_key_violation.

Definition NewJob (projectID queueID policyID : uuid) : go uuid :=
  pool_exec (new_job projectID queueID policyID js_queued now).

Definition NewScheduledJob (projectID queueID policyID : uuid) (delay : duration) : go uuid :=
  pool_exec (new_job projectID queueID policyID js_scheduled (λ env, now env + interval_of delay)).

Definition NewRetryWaitJob (projectID queueID policyID : uuid) (delay : duration) : go uuid :=
  pool_exec (new_job projectID queueID policyID js_retry_wait (λ env, now env + interval_of delay)).

(** [tz_known] says which time zones the server has. *)
Definition NewSchedule (tz_known : string → bool) (queueID : uuid) (name cron tz overlap catchup : string)
    (nextRunAt : timestamp) : go uuid :=
  r ← pool_exec (λ env,
    known ← gets (λ db, bool_decide (is_Some (queues db !! queueID)));
    if known : bool
    then insertScheduleSQL tz_known queueID name cron tz "noop" "{}" overlap catchup nextRunAt env
    else raise foreign_key_violation);
  mret (fst r).

(** [$4::exec_outcome] *)
Definition all_outcomes : list exec_outcome :=
  [xo_success; xo_retryable_error; xo_permanent_error; xo_timeout; xo_lost; xo_fenced; xo_cancelled; xo_snoozed].
Definition to_outcome (s : string) : sql exec_outcome :=
  match head (filter (λ o, outcome_text o = s) all_outcomes) with Some o => mret o | None => raise "22P02" end.

(** [jobID] is what [uuid.New] returns: the execution is of no job. *)
Definition NewExecution (jobID queueID workerID : uuid) (out : string) (finishedAt : timestamp) : go uuid :=
  pool_exec (λ env,
    o ← to_outcome out;
    known ← gets (λ db, bool_decide (is_Some (workers db !! workerID)));
    if known : bool
    then _ ← insert_exec (uuids env 0%nat) (mkExec jobID queueID 1 0 1 workerID (Some o) None None finishedAt (Some finishedAt));
         mret (uuids env 0%nat)
    else raise foreign_key_violation).

(** [name] is what [uuid.NewString] returns. *)
Definition NewUser (name : string) : go uuid :=
  r ← pool_exec (insertUserSQL (name +:+ "@test") "x" None);
  mret (fst r).

(** The role is one of four. *)
Definition AddMember (orgID userID : uuid) (role_ : string) : go unit :=
  pool_exec (λ env db,
    if negb (bool_decide (role_ ∈ ["owner"; "admin"; "member"; "viewer"])) then inl check_violation
    else if bool_decide (is_Some (org_members db !! (orgID, userID))) then inl unique_violation
    else upsertMemberSQL orgID userID role_ env db).

Definition NewSession (uuid_String : uuid → string) (userID : uuid) : go string :=
  sid ← pool_exec (λ env, _ ← insertSessionSQL (uuids env 0%nat) userID env; mret (uuids env 0%nat));
  mret (uuid_String sid).

Definition JobStatus (jobID : uuid) : go string :=
  st ← pool_exec (λ _, gets (λ db, status <$> jobs db !! jobID));
  s ← scan_row st;
  mret (status_text s).

(** ** What the fixtures keep *)

Inductive fixture :=
  | FBase (name1 name2 name3 : string)
  | FQueue (projectID policyID : uuid) (name : string) (maxConcurrency : Z)
  | FWorker (projectID : uuid)
  | FJob (projectID queueID policyID : uuid)
  | FScheduledJob (projectID queueID policyID : uuid) (delay : duration)
  | FRetryWaitJob (projectID queueID policyID : uuid) (delay : duration)
  | FSchedule (queueID : uuid) (name cron tz overlap catchup : string) (nextRunAt : timestamp)
  | FExecution (jobID queueID workerID : uuid) (out : string) (finishedAt : timestamp)
  | FUser (name : string)
  | FMember (orgID userID : uuid) (role_ : string)
  | FSession (userID : uuid)
  | FJobStatus (jobID : uuid).

Section fixtures.
Context (X : Externals).

Definition set_up (f : fixture) : go unit :=
  match f with
  | FBase a b c => ignore (Base a b c)
  | FQueue p po n c => ignore (NewQueue p po n c)
  | FWorker p => ignore (NewWorker p)
  | FJob p q po => ignore (NewJob p q po)
  | FScheduledJob p q po d => ignore (NewScheduledJob p q po d)
  | FRetryWaitJob p q po d => ignore (NewRetryWaitJob p q po d)
  | FSchedule q n c tz ov ca at_ => ignore (NewSchedule (x_tz_known X) q n c tz ov ca at_)
  | FExecution j q w o at_ => ignore (NewExecution j q w o at_)
  | FUser n => ignore (NewUser n)
  | FMember o u r => ignore (AddMember o u r)
  | FSession u => ignore (NewSession (x_uuid_String X) u)
  | FJobStatus j => ignore (JobStatus j)
  end.

(** The database of a test, its fixtures run one after the other, each under its
    own calls. *)
Definition prepared (fs : list (fixture * (nat → Call))) (db : DB) : DB :=
  foldl (λ db (f : fixture * (nat → Call)), final_db (set_up f.1) (start db f.2)) db fs.

Section keeps.
Context (P : DB → Prop) `{!CoreInv P}.
Context (Hexec : ∀ i x, exec_open x = false → keeps P (insert_exec i x)).

Lemma fx_new_job p q po st at_ env :
  is_active st = false → st ≠ js_completed → keeps P (new_job p q po st at_ env).
Proof. intros Ha Hc. unfold new_job. core_keeps. by apply ci_new. Qed.

Lemma fx_execution j q w o at_ : go_keeps P (NewExecution j q w o at_).
Proof. unfold NewExecution, to_outcome. core_go; core_keeps. Qed.

Lemma fx_member o u r : go_keeps P (AddMember o u r).
Proof.
  unfold AddMember. core_go. intros db HP. destruct (negb _); [done|]. destruct (bool_decide (is_Some _)); [done|].
  by apply ci_upsertMember.
Qed.

Lemma set_up_keeps f : go_keeps P (set_up f).
Proof.
  destruct f; cbn [set_up]; unfold ignore; (apply go_keeps_bind; [|intros ?; apply go_keeps_ret]);
    try apply fx_execution; try apply fx_member;
    unfold Base, new_policy, insertPolicySQL, NewQueue, insertQueueSQL, NewWorker, NewJob, NewScheduledJob,
      NewRetryWaitJob, NewSchedule, insertScheduleSQL, NewUser, NewSession, JobStatus; cbv zeta;
    core_go; core_keeps; by apply fx_new_job.
Qed.

Lemma prepared_keeps fs db :
  (∀ f n d, f ∈ fs → P d → P (c_other (f.2 n) d)) → P db → P (prepared fs db).
Proof.
  revert db. induction fs as [|[f calls] fs IH]; intros db Ho HP; [done|]. apply IH; [intros f' n d Hf; apply Ho; by right|].
  apply (go_keeps_run P); [apply set_up_keeps|done| |done]. intros n d. apply (Ho (f, calls)). by left.
Qed.

End keeps.
End fixtures.

(** ** The scenarios of the tests *)

Lemma insert_exec_row i x db a db' :
  insert_exec i x db = inr (a, db') → execs db !! i = None ∧ db' = db <| execs := <[i := x]> (execs db) |>.
Proof.
  unfold insert_exec. destruct (execs db !! i); [by rewrite bool_decide_eq_true_2|].
  rewrite (bool_decide_eq_false_2 (is_Some None)) by (by intros []). simpl. destruct (bool_decide _); [done|].
  by intros [= _ <-].
Qed.

Lemma one_open_closed i x : exec_open x = false → keeps one_open (insert_exec i x).
Proof.
  intros Hx db Ho. destruct (insert_exec i x db) as [|[a db']] eqn:E; [done|].
  apply insert_exec_row in E as [Hi ->]. intros k1 k2 y z. simpl.
  rewrite !lookup_insert_Some. intros [[<- <-]|[_ H1]] [[<- <-]|[_ H2]] Hy Hz; try congruence. by eapply Ho.
Qed.

Lemma lease_closed i x : keeps lease_inv (insert_exec i x).
Proof.
  intros db Hl. destruct (insert_exec i x db) as [|[a db']] eqn:E; [done|].
  apply insert_exec_row in E as [_ ->]. exact Hl.
Qed.

(** A test passes the checks on its open executions and its leases.  Whatever
    fixtures it starts from, in whatever order and whichever of them fail, and
    whatever the services do then: no job has two open executions, and no running
    job is without a lease. *)
Theorem scenarios_pass X fs db :
  (∀ f n d, f ∈ fs → c_other (f.2 n) d = d) → reachable X (prepared X fs empty_db) db →
  doubleOpen db = 0 ∧ runningNoLease db = 0.
Proof.
  intros Ho Hr. assert (∀ P, CoreInv P → (∀ i x, exec_open x = false → keeps P (insert_exec i x)) → P empty_db →
    P (prepared X fs empty_db)) as Hprep.
  { intros P HP Hx H0. apply (prepared_keeps X P Hx); [|done]. intros f n d Hf. by rewrite Ho. }
  split.
  - apply doubleOpen_zero. apply (core_reachable X one_open (prepared X fs empty_db)); [|done].
    apply Hprep; [apply _|apply one_open_closed|]. intros a b x y Ha. discriminate Ha.
  - apply runningNoLease_zero. apply (core_reachable X lease_inv (prepared X fs empty_db)); [|done].
    apply Hprep; [apply _|intros; apply lease_closed|]. intros i. done.
Qed.
